(* ===== verification/_CoqProject ===== *)
-Q . S2P
Prelude.v
Testing.v
Demand.v
Atomex.v
Cells.v
IoPos.v
Segm.v
SegmMove.v
CircEnds.v
CircCore.v
LiveSegm.v
CircLaws.v
CircDev.v
SegmTests.v
CircPump.v
CircAsync.v
CircHalf.v
Builder.v
PipeLive.v
CircTests.v
Iroh.v
CircWait.v
CircSpsc.v
BuffIo.v
MpEncode.v
MpDecode.v
RingIo.v
Join.v
StdIo.v
Multipart.v
RingOut.v
RbState.v
RbHandoff.v
RbPark.v
RbIo.v
RingTests.v
IoTests.v
Mcf.v
Combin.v
Words.v
RwWord.v
RwLock.v
RwLive.v
Mutex.v
CancelSrc.v
CancelInv.v
LockTests.v
CancelTests.v
HsOpts.v
HsCodec.v
HsAgent.v
Vfs.v
UnitTests.v
