(* ===== verification/Prelude.v ===== *)
(** * Verification of the cantare workspace

    This library models and verifies the parts of the workspace that carry its own
    logic: demands, segments and pipes of [abs_buff], the compare-exchange loops of
    [atomex], the circular buffer of [buffex], the multipart codec of
    [abs_buff_utils], the locks of [atomic_sync], [cancel_src], the handshake of
    [smux_v1], the attribute macro [gen_mcf_macro], and two parts that are kept in
    the repository without being built, the legacy [ring_buffer] and [mem_vfs].

    ** The program and the files

    - [crates/abs_buff/src/demand_.rs] — [Demand.v].  A demand is a half-open
      interval of item counts; [compromise] intersects two of them.
    - [crates/atomex] ([atomic_flags_.rs], [cmpxch_result_.rs]) — [Atomex.v].  The
      loops around one compare-exchange, with spurious failures and interfering
      writes as an environment.  They refine one atomic update [rmw], which is
      what every later file uses for an update of a shared word.  The atomic
      cells, counters and pointers built on them ([atomic_cell_.rs], [fetch.rs],
      [atomic_count_.rs], [atomex_ptr_.rs]) — [Cells.v].
    - [crates/abs_buff/src/buffer/segm_.rs] and
      [crates/buffex/src/circular_buff/reclaim_.rs] — [Segm.v].  Segments are
      views on one shared memory; Module [Segm] is the contiguous one, Module
      [Recl] the two-piece one a wrapped ring region needs.  [SegmMove.v] has the
      moves between two segments, and [LiveSegm.v] the lemmas on a segment that is
      out on a region of a ring, which both rings use.
    - [crates/buffex/src/circular_buff]:
      -- [core_.rs], the state word — [IoPos.v]: two positions, the REVERSION bit
         and four flags packed in a [usize];
      -- [error_.rs], [abs_comp_.rs], the passive ends of [circ_buff_.rs] and the
         wake slot — [CircEnds.v]: the classes [TrProducer] / [TrConsumer] are
         what the core asks of its two ends;
      -- [core_.rs], the core — [CircCore.v]: what a load grants, the regions, the
         commits and their events, the mutually recursive synchronous pumps, the
         closings;
      -- the laws of the ends — [CircLaws.v], and the device ends that satisfy
         them — [CircDev.v] ([circ_buff_.rs], [segm_.rs]);
      -- the pumps, against those laws — [CircPump.v];
      -- the awaiting operations of the core: the asynchronous pumps, the draining
         before a closing, the passive reads and writes that park, the
         initialisation of the ends — [CircAsync.v];
      -- the halves and the pipeline future — [CircHalf.v] ([spsc_.rs]);
      -- the builder: its chain of states, the build and its product — [Builder.v]
         ([builder.rs]); what a built pipeline does in the long run —
         [PipeLive.v];
      -- the wake-up protocol of a parked end — [CircWait.v];
      -- one producer thread and one consumer thread — [CircSpsc.v].
    - [crates/abs_buff/src]: [reader_.rs], [writer_.rs], [slice_impl_.rs] —
      [BuffIo.v]: what a reader and a writer promise, as classes with their laws,
      and the byte slices, which keep them; [pipelining/join.rs] — [Join.v].
      [RingIo.v] shows that the consumer of a ring keeps the laws of a reader,
      [RingOut.v] that the producer over a device keeps those of a writer.
    - [crates/buffex/src/ring_buffer], the legacy ring — [RbState.v]: the word and
      the operations of the halves and of the runtime; [RbHandoff.v]: user and
      runtime over one ring; [RbPark.v]: the slots, [Park::poll] and the futures;
      [RbIo.v]: the segments with their reclaimers ([reclaim_.rs]), and the halves as a
      reader and a writer that keep the laws of [BuffIo.v].
    - [crates/buffex_iroh], with the adapters of [crates/abs_buff_tokio_adapt] it
      is built on — [Iroh.v]: a stream behind a ring.
    - [crates/abs_buff_stdio_adapt] — [StdIo.v]: a buffer as a [std::io] stream.
    - [crates/abs_buff_utils/src/multipart] — [MpEncode.v], [MpDecode.v], and
      [Multipart.v] for the two together, against the laws of [BuffIo.v].
    - [crates/atomic_sync/src]: [rwlock/preemptive] — [RwWord.v] (the word and its
      updates, on the unsigned words of [Words.v]), [RwLock.v] (handles, guards
      and interleavings) and [RwLive.v] (what a queued writer can count on);
      [mutex/preemptive.rs] — [Mutex.v].
    - [crates/cancel_src/src] — [CancelSrc.v], the critical sections and what each
      thread runs, and [CancelInv.v], the invariants.
    - [crates/smux_v1/src/handshake]: [opts.rs], [error.rs] — [HsOpts.v];
      [codec_.rs] — [HsCodec.v]; [agent.rs] — [HsAgent.v].
    - [crates/gen_mcf_macro] — [Mcf.v]: the expansion, as a function between the
      parts of the syntax trees it takes apart, and the future it generates.
    - [crates/mem_vfs], with the node types of [crates/abs_vfs] — [Vfs.v].
    - The small combinators and constants of [crates/abs_sync], [crates/abs_cancel],
      [crates/abs_iter] and [abs_buff] ([io.rs], [error.rs]) — [Combin.v].

    ** How state and operations correspond

    A [usize] is a [Z] in [0 .. 2^64 - 1] with its bit operations written out; a
    byte a [Z] below 256.  [Result], [Option] and [SomeOf] are sums; a panic (an
    assertion, debug assertions included, an index out of bounds) is [Panic] of
    [outcome] or [Aborted] of [exec].  A slice is a start and a length in a memory
    [gmap Z T], where an absent key is an uninitialised slot.  Loops run under a
    fuel bound ([exec]), and every loop is proved to end with the fuel stated.
    Shared state is explicit: the state word and the memory are fields of the
    state that the step relations ([CircSpsc.step], [CircWait.wait_step],
    [RbHandoff.step], [RbPark.step], [RwLock.lock_step], [Mutex.mutex_step], the
    steps of [CancelSrc]) rewrite, one
    atomic access or critical section per step, under sequential consistency.  A
    future is a state machine over its suspension points ([CircHalf.Pipeline]), an
    interaction program ([HsAgent.proc]) run over a transport, or, where it only
    awaits the reads and writes of its arguments, a loop over their answers
    ([MpEncode], [MpDecode], [Join]).

    ** What is shown

    - Between threads: the consumer obtains exactly the items committed, in order
      ([spsc_fifo]), live segments never share a slot ([spsc_no_alias]), every read
      is exact and initialised ([spsc_take_next]), and the ring is a bounded queue
      with every slot usable ([spsc_bounded_queue]).  They rest on the refinement
      of the REVERSION scheme by two unbounded counters
      ([reversion_refines_counters]) and on the exact grants of a load
      ([try_write_at_spec], [try_read_at_spec]).
    - Waiting: a commit that satisfies a parked demand wakes it
      ([no_lost_wakeup]); a closing does not ([close_never_wakes]).
    - The legacy ring: however user and runtime take turns on its two sides, items
      come out once, in order ([handoff_fifo]), and what is lent, reserved or
      readable never overlaps ([handoff_exclusive]).  No wake-up is lost on the
      conditions that a park checks ([park_no_lost_wakeup]); the closing of the
      writer is not one of them ([reader_sleeps_through_close]), and a signal can
      reach a waiter that is gone ([signal_after_completion]).
    - Active ends: what a device delivers reaches the reader whole and in order
      ([try_read_pulls]), what a writer commits is pushed ([advance_write_pushes]),
      an awaiting read pulls until it is satisfied ([read_async_pulls]), closing
      drains ([close_tx_async_drains]).
    - The builder: over any lawful devices each of its chains returns an open, armed
      ring that holds what its devices delivered while they were initialised, with the
      halves of the passive ends and of no other ([build_async_ready]).  A pipeline keeps every item
      from its construction on ([pipeline_fifo], [built_pipeline_fifo]) and moves at
      least one in every round over devices that do ([built_pipeline_flows]), but
      blocks both directions on its input ([pipeline_blocked_on_input]).
    - Streams behind a ring: a new reader has lost nothing of its stream
      ([iroh_reader_new_spec]); a read hands out what the stream gave and hides its
      last bytes from a demand they do not satisfy ([iroh_try_read_spec]); an
      awaiting read never returns at the end of the stream
      ([iroh_read_waits_at_eof]).
    - Segments and demands: a segment hands back what was written through it
      ([recl_write_read]); a compromise is an intersection
      ([compromise_intersection]); a move between two segments is exact
      ([segm_move_exact]).
    - Shared cells: integers stay in their type ([cell_ops_typed]); pointers are
      exchanged atomically and, by any number of threads, handed over whole
      ([ptr_ops_atomic], [ptr_hands_over]).
    - Streams: a pipe moves the front of its stream exactly, however it ends
      ([pipe_moves_exactly]), and all of it into a writer with room
      ([pipe_completes]); the [std::io] adapters move exactly what they count and
      return only with the slice used up ([std_read_fills], [std_write_exact]);
      what the multipart encoder writes is well formed however
      it ends, with a zero prefix only if the source said that it had ended
      ([encode_sound]), it ends ([encode_complete]), and the decoder gives
      back what it was given ([recv_drains], [multipart_roundtrip]), also through a
      ring with its pumps ([multipart_through_ring]) or through the legacy ring and
      its parks ([multipart_through_ring_buffer]).
    - Locks: the reader/writer lock refines an abstract lock whose moves are those
      of [RwLock.moves], so it excludes ([rw_exclusion]) and its word counts the
      guards ([rw_accounting]) up to two defects ([upgradable_read_wraps],
      [abandoned_write_blocks_readers]); readers do not starve a queued writer
      ([queued_writer_served]), but a request queued while another writer is in is
      lost when that one leaves ([request_cleared_by_writer]); the mutex excludes, loses no update and is
      obtained once released ([mutex_exclusion], [mutex_serializes],
      [mutex_lock_progress]).
    - Cancellation: it reaches the descendants and nothing else
      ([cancellation_propagates]), callbacks run once ([callbacks_run_once]), a
      waiting future resolves ([cancellation_future_resolves]), and every
      interleaving ends ([cancel_terminates]).
    - Handshake: frames round trip ([frame_roundtrip]), parsing is total and does
      not depend on how the bytes arrive ([parse_total], [parse_incremental]).  The
      endpoints view what they are lent and move nothing out of it, so over readers
      that keep the contract of segments no handshake is ever established
      ([handshake_never_established]), and over the ring a frame read panics
      ([ring_read_frame_panics]); neither state machine reads for ever
      ([handshake_terminates]).  What they do over channels that consume a viewed
      segment, which no reader of the workspace does, is agree
      ([handshake_agreement]).
    - The macro: under the documented rules of use an expansion declares what it
      mentions but for the last lifetime, which takes an argument or a bound that
      mentions it ([expansion_scoped], [by_value_unscoped]); the generated future answers what the future of
      the function would ([generated_future_refines]).
    - The virtual file system: ids and names of a directory agree
      ([directory_exact]); the lookup of a path and the insertion of a child are
      broken ([find_inode_never_descends], [insert_child_links_nothing]).

    ** The tests of the repository

    The [#[test]] functions are executions of the model ([Testing.v]), evaluated by
    the kernel, so that the definitions are compared with the code on the inputs its
    authors chose: [SegmTests.v] (segments and their device moves), [CircTests.v] (the
    circular buffer, its builder, parks and pumps), [RingTests.v] (the legacy ring),
    [IoTests.v] (pipe, slices, multipart codec, [std::io]), [LockTests.v] (mutex and
    reader/writer lock), [CancelTests.v], [UnitTests.v] (demands, positions, the
    handshake codec).  A test that polls a future by hand does so here.  Left out are
    the tests that race threads or drive two futures at once, whose claims are the
    theorems on all interleavings ([CircSpsc.v], [RbHandoff.v], [RbPark.v], [Mutex.v],
    [Multipart.v]), those that only compile ([Send], [Sync], [Debug]), and those over
    real sockets.

    ** Bounds and fuel

    Ring capacities are [2 .. 2^28 - 1], as the builder enforces ([build_ring]); those
    of the legacy ring [2 .. 2^30 - 1] ([RbState.try_new]).  A poll of a generated
    future needs two rounds of its loop.
    The two-piece moves need two rounds; a pump over a ring of capacity [cap]
    needs [cap + 4] calls, and a build two; a reaction one round per item of its segment; the frame
    parser at most five rounds and the frame reader one read per parser demand.  A
    pipe and a multipart encoder need a number of rounds linear in their stream.
    The locks are modelled at every word width from 8 bits on, for any number of
    handles or threads.

    ** What is a parameter

    Devices ([TrInput], [TrOutput]), the streams of tokio and iroh ([AsyncRead],
    [AsyncWrite]), the transport of the handshake, the two CRC functions and the
    answers of a cancellation token are code outside the workspace: they are
    arguments, the devices with their documented contracts as classes ([LawfulInput],
    [LawfulOutput]).  [ExactTransport] is not such a contract but a premise of
    [handshake_agreement] alone.

    ** What is not modelled

    The sequential locks of [atomic_sync] are commented out of their crate and end in
    [todo!]; the connection of [smux_v1] is an empty module; [abs_smux] and the lock
    and device traits are declarations.  ([ring_buffer] is not declared by
    [buffex/src/lib.rs] and [mem_vfs] is commented out of the workspace: they are
    modelled as they stand.)  The parser and the printer of the macro are [syn] and
    [quote].
    Memory orderings weaker than sequential consistency, allocation and drop glue
    of items are not modelled; the buffer and the allocator that the builder is given
    are a number of slots and a value that is passed on.

    This file: panics, results, fuelled executions, machine words, byte slices and
    the shared automation. *)

From stdpp Require Export base list numbers option gmap relations.
From Stdlib Require Export ZArith Lia.

#[global] Open Scope Z_scope.

(** ** Panicking computations

    A Rust function that may [panic!] (an assertion, a slice index, an explicit
    [panic!]) is a value of [outcome]; [Panic] aborts everything after it. *)

Inductive outcome (A : Type) : Type :=
| Ret (a : A)
| Panic.
Arguments Ret {A} a.
Arguments Panic {A}.

#[export] Instance outcome_ret : MRet outcome := @Ret.
#[export] Instance outcome_bind : MBind outcome := λ A B f m,
  match m with
  | Ret a => f a
  | Panic => Panic
  end.
#[export] Instance outcome_fmap : FMap outcome := λ A B f m,
  match m with
  | Ret a => Ret (f a)
  | Panic => Panic
  end.

(** The [Result<A, E>] of Rust. *)
Inductive result (E A : Type) : Type :=
| Ok (a : A)
| Err (e : E).
Arguments Ok {E A} a.
Arguments Err {E A} e.

#[export] Instance result_ret E : MRet (result E) := @Ok E.
#[export] Instance result_bind E : MBind (result E) := λ A B f m,
  match m with
  | Ok a => f a
  | Err e => Err e
  end.

(** Executions under a fuel bound: the loops of the program are run for a number
    of rounds; [OutOfFuel] is not an answer of the program, and every loop is
    proved to end with enough fuel. *)
Inductive exec (A : Type) : Type :=
| Done (a : A)
| Aborted
| OutOfFuel.
Arguments Done {A} a.
Arguments Aborted {A}.
Arguments OutOfFuel {A}.

#[export] Instance exec_ret : MRet exec := @Done.
#[export] Instance exec_bind : MBind exec := λ A B f m,
  match m with
  | Done a => f a
  | Aborted => Aborted
  | OutOfFuel => OutOfFuel
  end.

#[export] Instance exec_fmap : FMap exec := λ A B f m,
  match m with
  | Done a => Done (f a)
  | Aborted => Aborted
  | OutOfFuel => OutOfFuel
  end.

Definition lift {A} (o : outcome A) : exec A :=
  match o with Ret a => Done a | Panic => Aborted end.

(** The execution does not panic, and what it returns satisfies [Q]. *)
Definition safe {A} (m : exec A) (Q : A → Prop) : Prop :=
  match m with Done a => Q a | Aborted => False | OutOfFuel => True end.

Lemma safe_bind {A B} (m : exec A) (f : A → exec B) (Q : A → Prop) (Q' : B → Prop) :
  safe m Q → (∀ a, Q a → safe (f a) Q') → safe (m ≫= f) Q'.
Proof. destruct m; simpl; intros Hm Hf; try done. by apply Hf. Qed.

Lemma safe_mono {A} (m : exec A) (Q Q' : A → Prop) :
  safe m Q → (∀ a, Q a → Q' a) → safe m Q'.
Proof. destruct m; simpl; intros Hm Hf; try done. by apply Hf. Qed.

Definition is_ok {E A} (r : result E A) : bool :=
  match r with Ok _ => true | Err _ => false end.

Lemma ret_inj {A} (a b : A) : Ret a = Ret b → a = b.
Proof. by intros [= ->]. Qed.

(** ** Machine words

    [usize] is modelled at 64 bits ([usize::BITS = 64]), as a [Z] in
    [0 .. USIZE_MAX]. *)

Definition USIZE_BITS : Z := 64.
Definition USIZE_MAX : Z := 18446744073709551615.

Definition is_usize (z : Z) : Prop := 0 ≤ z ≤ USIZE_MAX.
#[export] Instance is_usize_dec z : Decision (is_usize z).
Proof. unfold is_usize; apply _. Defined.

Definition is_byte (z : Z) : Prop := 0 ≤ z < 256.
#[export] Instance is_byte_dec z : Decision (is_byte z).
Proof. unfold is_byte; apply _. Defined.

(** [usize::checked_add]. *)
Definition checked_add (a b : Z) : option Z :=
  if decide (a + b ≤ USIZE_MAX) then Some (a + b) else None.

(** [core::cmp::min] / [max] are [Z.min] / [Z.max]. *)

Lemma checked_add_Some a b c :
  checked_add a b = Some c ↔ c = a + b ∧ a + b ≤ USIZE_MAX.
Proof. unfold checked_add. case_decide; split; (done || (intros [= <-]; lia) || (intros [-> ?]; (done || lia))). Qed.

Lemma checked_add_None a b : checked_add a b = None ↔ USIZE_MAX < a + b.
Proof. unfold checked_add. case_decide; split; intros; (done || lia). Qed.

(** ** Bits *)

Lemma testbit_shiftl_1 k n : 0 ≤ k → Z.testbit (Z.shiftl 1 k) n = (n =? k).
Proof.
  intros. rewrite Z.shiftl_1_l, Z.pow2_bits_eqb by done. apply Z.eqb_sym.
Qed.

(** [x & (1 << k) == 0] is the test of one bit. *)
Lemma land_bit_eqb x k :
  0 ≤ k → (Z.land x (Z.shiftl 1 k) =? 0) = negb (Z.testbit x k).
Proof.
  intros Hk. destruct (Z.testbit x k) eqn:E.
  - apply Z.eqb_neq. intros H0.
    assert (Z.testbit (Z.land x (Z.shiftl 1 k)) k = true) as Hb
      by by rewrite Z.land_spec, E, testbit_shiftl_1, Z.eqb_refl by done.
    rewrite H0, Z.bits_0 in Hb. done.
  - apply Z.eqb_eq, Z.bits_inj'. intros n Hn.
    rewrite Z.land_spec, testbit_shiftl_1, Z.bits_0 by done.
    destruct (Z.eqb_spec n k) as [->|]; [by rewrite E|apply andb_false_r].
Qed.

(** ** Byte slices

    [&buf[i]] and [&buf[a..b]]; out of range is a panic. *)
Definition index_byte (buf : list Z) (i : Z) : outcome Z :=
  if decide (0 ≤ i) then
    match buf !! Z.to_nat i with Some b => Ret b | None => Panic end
  else Panic.
Definition sub_slice (buf : list Z) (a b : Z) : outcome (list Z) :=
  if decide (0 ≤ a ≤ b ∧ b ≤ Z.of_nat (length buf)) then
    Ret (take (Z.to_nat (b - a)) (drop (Z.to_nat a) buf))
  else Panic.

(** [to_be_bytes] of an [n]-byte integer, and the big-endian reading of bytes. *)
Fixpoint to_be_bytes (n : nat) (v : Z) : list Z :=
  match n with
  | O => []
  | S n' => Z.land (Z.shiftr v (8 * Z.of_nat n')) 255 :: to_be_bytes n' v
  end.

Lemma length_to_be_bytes n v : length (to_be_bytes n v) = n.
Proof. induction n; simpl; congruence. Qed.

Lemma to_be_bytes_byte n v : Forall is_byte (to_be_bytes n v).
Proof.
  induction n; constructor; [|done]. unfold is_byte.
  change 255 with (Z.ones 8). rewrite Z.land_ones by lia.
  apply Z.mod_pos_bound. lia.
Qed.

Lemma sub_slice_Ret buf a b :
  0 ≤ a ≤ b → b ≤ Z.of_nat (length buf) →
  sub_slice buf a b = Ret (take (Z.to_nat (b - a)) (drop (Z.to_nat a) buf)).
Proof. intros. unfold sub_slice. by rewrite decide_True. Qed.

Lemma sub_slice_app pre mid post a b :
  a = Z.of_nat (length pre) → b = a + Z.of_nat (length mid) →
  sub_slice (pre ++ mid ++ post) a b = Ret mid.
Proof.
  intros -> ->. rewrite sub_slice_Ret by (rewrite ?length_app; lia).
  rewrite Nat2Z.id, drop_app_length.
  by rewrite take_app_length' by lia.
Qed.

(** A cut of the buffer after [b] does not change the slice. *)
Lemma sub_slice_take m buf a b :
  0 ≤ a ≤ b → b ≤ Z.of_nat m → b ≤ Z.of_nat (length buf) →
  sub_slice (take m buf) a b = sub_slice buf a b.
Proof.
  intros. rewrite !sub_slice_Ret by (rewrite ?length_take; lia). f_equal.
  rewrite skipn_firstn_comm, take_take. f_equal. lia.
Qed.

Lemma index_byte_take m buf i :
  0 ≤ i → i < Z.of_nat m → index_byte (take m buf) i = index_byte buf i.
Proof.
  intros. unfold index_byte. rewrite !decide_True by done.
  by rewrite lookup_take_lt by lia.
Qed.

Lemma index_byte_Ret buf i :
  0 ≤ i < Z.of_nat (length buf) → ∃ b, index_byte buf i = Ret b ∧ b ∈ buf.
Proof.
  intros Hi. unfold index_byte. rewrite decide_True by lia.
  destruct (buf !! Z.to_nat i) as [b|] eqn:E.
  - exists b. split; [done|]. by eapply list_elem_of_lookup_2.
  - apply lookup_ge_None in E. lia.
Qed.

Lemma drop_to_be_bytes k n v : drop k (to_be_bytes (k + n) v) = to_be_bytes n v.
Proof. induction k; [done|]. simpl. done. Qed.

Lemma lor_shift_byte a b : is_byte b → Z.lor (a * 256) b = a * 256 + b.
Proof.
  intros Hb. rewrite <- (Z.add_lor_land (a * 256) b).
  replace (Z.land (a * 256) b) with 0; [lia|]. symmetry.
  apply Z.bits_inj'. intros n Hn. rewrite Z.bits_0, Z.land_spec.
  change 256 with (2 ^ 8).
  destruct (Z.lt_ge_cases n 8); [by rewrite Z.mul_pow2_bits_low|].
  destruct (decide (b = 0)) as [->|]; [by rewrite Z.bits_0, andb_false_r|].
  rewrite (Z.bits_above_log2 b), andb_false_r; [done|unfold is_byte in Hb; lia|].
  apply Z.lt_le_trans with 8; [|done]. apply Z.log2_lt_pow2; unfold is_byte in Hb; lia.
Qed.

(** Reading big-endian bytes back into a [u64] accumulator; the shift of a [u64]
    drops its high bits. *)
Definition be_step (value b : Z) : Z := Z.lor (Z.land (Z.shiftl value 8) USIZE_MAX) b.

Lemma be_step_add value b :
  0 ≤ value → value * 256 ≤ USIZE_MAX → is_byte b → be_step value b = value * 256 + b.
Proof.
  intros Hv Hm Hb. unfold be_step. rewrite Z.shiftl_mul_pow2 by lia.
  change USIZE_MAX with (Z.ones 64). rewrite Z.land_ones by lia.
  rewrite Z.mod_small by (unfold USIZE_MAX in Hm; lia). by apply lor_shift_byte.
Qed.

Lemma foldl_be_step n : ∀ acc v,
  0 ≤ acc → acc * 256 ^ Z.of_nat n + (256 ^ Z.of_nat n - 1) ≤ USIZE_MAX →
  foldl be_step acc (to_be_bytes n v) = acc * 256 ^ Z.of_nat n + v mod 256 ^ Z.of_nat n.
Proof.
  induction n as [|n IH]; intros acc v Hacc Hmax; simpl foldl.
  { rewrite Z.pow_0_r, Z.mod_1_r. lia. }
  rewrite Nat2Z.inj_succ, Z.pow_succ_r in * by lia.
  set (p := 256 ^ Z.of_nat n) in *.
  assert (Hp : 0 < p) by (apply Z.pow_pos_nonneg; lia).
  change 255 with (Z.ones 8). rewrite Z.land_ones, Z.shiftr_div_pow2 by lia.
  rewrite Z.pow_mul_r by lia. change (2 ^ 8) with 256. fold p.
  pose proof (Z.mod_pos_bound (v / p) 256 ltac:(lia)) as Hb.
  assert (acc * 256 ≤ USIZE_MAX) by nia.
  rewrite be_step_add by (done || unfold is_byte; lia).
  rewrite IH by nia. fold p. rewrite (Z.mul_comm 256 p), Z.rem_mul_r by lia. lia.
Qed.

(** Overwriting a part of a list. *)
Lemma list_inserts_split {A} (l : list A) : ∀ i k,
  (i + length l ≤ length k)%nat →
  list_inserts i l k = take i k ++ l ++ drop (i + length l) k.
Proof.
  induction l as [|x l IH]; intros i k Hlen; simpl in *.
  - by rewrite Nat.add_0_r, take_drop.
  - rewrite IH by lia.
    rewrite insert_app_l by (rewrite length_take; lia).
    rewrite (take_S_r k i (default x (k !! i))).
    + rewrite insert_app_r_alt by (rewrite length_take; lia).
      rewrite length_take, Nat.min_l, Nat.sub_diag by lia. simpl.
      by rewrite <- app_assoc, Nat.add_succ_r.
    + destruct (k !! i) eqn:E; [done|]. apply lookup_ge_None in E. lia.
Qed.

Lemma list_inserts_at {A} (pre l rest : list A) :
  (length l ≤ length rest)%nat →
  list_inserts (length pre) l (pre ++ rest) = pre ++ l ++ drop (length l) rest.
Proof.
  intros. rewrite list_inserts_split by (rewrite length_app; lia).
  rewrite take_app_length, drop_app, (drop_ge pre) by lia.
  by rewrite Nat.add_comm, Nat.add_sub.
Qed.

(** One more step of an execution, to a state given up to computation. *)
Lemma rtc_r_eq {A} (R : relation A) x y z z' :
  rtc R x y → R y z → z = z' → rtc R x z'.
Proof. intros Hxy Hyz <-. by eapply rtc_r. Qed.

(** ** Automation *)

Create HintDb cantare discriminated.

(** Turn the boolean comparisons of the code into propositions. *)
Ltac bool_to_prop :=
  repeat match goal with
  | H : (_ <? _) = true |- _ => apply Z.ltb_lt in H
  | H : (_ <? _) = false |- _ => apply Z.ltb_ge in H
  | H : (_ <=? _) = true |- _ => apply Z.leb_le in H
  | H : (_ <=? _) = false |- _ => apply Z.leb_gt in H
  | H : (_ =? _) = true |- _ => apply Z.eqb_eq in H
  | H : (_ =? _) = false |- _ => apply Z.eqb_neq in H
  | H : _ && _ = true |- _ => apply andb_true_iff in H as [? ?]
  | H : _ || _ = false |- _ => apply orb_false_iff in H as [? ?]
  | H : negb _ = true |- _ => apply negb_true_iff in H
  | H : negb _ = false |- _ => apply negb_false_iff in H
  end.

(** Split every [if] / [match] on a boolean test of the goal. *)
Ltac case_tests :=
  repeat match goal with
  | |- context [if ?b then _ else _] => destruct b eqn:?
  end; bool_to_prop.
