(* ===== verification/Testing.v ===== *)
(** * Running the repository's tests on the model

    A [#[test]] function is translated as an execution: a failed assertion and an
    [unwrap] of nothing panic, and the test passes when it runs to its end. *)

From S2P Require Import Prelude.

Definition assert (b : bool) : exec unit := if b then Done () else Aborted.
Definition assert_eq {A} `{EqDecision A} (x y : A) : exec unit :=
  assert (bool_decide (x = y)).
Definition unwrap {A} (o : option A) : exec A :=
  match o with Some a => Done a | None => Aborted end.
Definition unwrap_ok {E A} (r : result E A) : exec A :=
  match r with Ok a => Done a | Err _ => Aborted end.
Definition unwrap_err {E A} (r : result E A) : exec E :=
  match r with Ok _ => Aborted | Err e => Done e end.
Definition is_err {E A} (r : result E A) : bool := negb (is_ok r).
Definition is_none {A} (o : option A) : bool :=
  match o with Some _ => false | None => true end.
Definition is_some {A} (o : option A) : bool := negb (is_none o).

Definition passes (test : exec unit) : Prop := test = Done ().

(** A [for] loop of a test. *)
Fixpoint for_each {A} (xs : list A) (body : A → exec unit) : exec unit :=
  match xs with
  | [] => Done ()
  | x :: xs => body x;; for_each xs body
  end.

Lemma assert_done b : assert b = Done () ↔ b = true.
Proof. by destruct b. Qed.

Lemma for_each_done {A} (xs : list A) body :
  for_each xs body = Done () ↔ Forall (λ x, passes (body x)) xs.
Proof.
  induction xs as [|x xs IH]; simpl; [by split|].
  rewrite Forall_cons, <- IH. unfold passes. destruct (body x) as [[]| |]; simpl.
  - naive_solver.
  - split; [done|intros [? _]; done].
  - split; [done|intros [? _]; done].
Qed.

(** Every test of a suite is evaluated. *)
Ltac run_tests := repeat constructor; by vm_compute.
