(* ===== verification/Demand.v ===== *)
(** * [abs_buff::Demand]: intervals of requested amounts

    Models [crates/abs_buff/src/demand_.rs].  A demand is a half-open interval
    of item counts; the constructors and [compromise] may panic, which is made
    explicit with [outcome]. *)

From S2P Require Import Prelude.

(** The three private representations of a demand. *)
Inductive DemandRange : Type :=
| AtLeast (l : Z)
| LessThan (u : Z)
| Range (l u : Z).

(** [struct Demand<T>(DemandRange<T>)] at [T = usize]. *)
Definition Demand : Type := DemandRange.

(** [core::ops::Bound]. *)
Inductive Bound : Type :=
| Included (v : Z)
| Excluded (v : Z)
| Unbounded.

#[export] Instance DemandRange_eq_dec : EqDecision DemandRange.
Proof. solve_decision. Defined.

Definition at_least (val : Z) : Demand := AtLeast val.
Definition less_than (val : Z) : Demand := LessThan val.

(** [Demand::between] panics on an empty range. *)
Definition between (a b : Z) : outcome Demand :=
  if a <? b then Ret (Range a b)
  else if b <? a then Ret (Range b a)
  else Panic.

(** [Demand::exactly] panics on [0]. *)
Definition exactly (val : Z) : outcome Demand :=
  if val =? 0 then Panic
  else if val <? USIZE_MAX then Ret (Range val (val + 1))
  else Ret (at_least val).

(** [Demand::try_from_usize_range]; the two arguments are the bounds of the
    [impl RangeBounds]. *)
Definition try_from_usize_range (start_bound end_bound : Bound) :
    outcome (result (Bound * Bound) Demand) :=
  let start := match start_bound with
               | Included v => Some v
               | Excluded v => checked_add v 1
               | Unbounded => Some 0
               end in
  let end_ := match end_bound with
              | Included v => checked_add v 1
              | Excluded v => Some v
              | Unbounded => Some USIZE_MAX
              end in
  match start, end_ with
  | Some l, Some u =>
      if l <? u then Ok <$> between l u
      else Ret (Err (start_bound, end_bound))
  | _, _ => Ret (Err (start_bound, end_bound))
  end.

(** [Demand::len] ([usize] subtraction, which never underflows on a
    well-formed demand: see [demand_len_usize]). *)
Definition len (d : Demand) : Z :=
  match d with
  | AtLeast l => USIZE_MAX - l
  | LessThan u => u
  | Range l u => u - l
  end.

Definition min (d : Demand) : option Z :=
  match d with
  | AtLeast l => Some l
  | Range l _ => Some l
  | _ => None
  end.

Definition max (d : Demand) : option Z :=
  match d with
  | LessThan u => Some u
  | Range _ u => Some u
  | _ => None
  end.

(** [Demand::compromise], arm by arm: an arm whose guard fails falls through
    to the last one. *)
Definition compromise (self other : Demand) : outcome (option Demand) :=
  match self, other with
  | AtLeast a, AtLeast b => Ret (Some (at_least (Z.max a b)))
  | LessThan a, LessThan b => Ret (Some (less_than (Z.min a b)))
  | AtLeast a, LessThan b =>
      if a <=? b then Some <$> between a b else Ret None
  | LessThan b, AtLeast a =>
      if a <=? b then Some <$> between a b else Ret None
  | AtLeast a, Range c d =>
      if a <=? d then Some <$> between (Z.max a c) d else Ret None
  | Range c d, AtLeast a =>
      if a <=? d then Some <$> between (Z.max a c) d else Ret None
  | LessThan b, Range c d =>
      if c <=? b then Some <$> between c (Z.min b d) else Ret None
  | Range c d, LessThan b =>
      if c <=? b then Some <$> between c (Z.min b d) else Ret None
  | Range a b, Range c d =>
      if (b <=? c) || (d <=? a) then Ret None
      else let lower := Z.max a c in
           let upper := Z.min b d in
           if lower <=? upper then Some <$> between lower upper else Ret None
  end.

(** [impl RangeBounds for Demand]. *)
Definition start_bound (d : Demand) : Bound :=
  match d with
  | AtLeast x => Included x
  | LessThan _ => Unbounded
  | Range x _ => Included x
  end.

Definition end_bound (d : Demand) : Bound :=
  match d with
  | AtLeast _ => Unbounded
  | LessThan x => Excluded x
  | Range _ x => Excluded x
  end.

(** ** Meaning and well-formedness *)

(** [RangeBounds::contains]: the amounts a pair of bounds admits. *)
Definition above (b : Bound) (n : Z) : Prop :=
  match b with Included v => v ≤ n | Excluded v => v < n | Unbounded => True end.
Definition below (b : Bound) (n : Z) : Prop :=
  match b with Included v => n ≤ v | Excluded v => n < v | Unbounded => True end.
Definition bounds_contain (s e : Bound) (n : Z) : Prop := above s n ∧ below e n.
Definition contains (d : Demand) (n : Z) : Prop :=
  bounds_contain (start_bound d) (end_bound d) n.

(** A demand the public constructors can build. *)
Definition demand_wf (d : Demand) : Prop :=
  match d with
  | AtLeast l => is_usize l
  | LessThan u => is_usize u
  | Range l u => is_usize l ∧ is_usize u ∧ l < u
  end.

(** Two demands that touch without overlapping: one stops where the other
    starts. *)
Definition touching (d1 d2 : Demand) : Prop :=
  match d1, d2 with
  | AtLeast a, LessThan b | LessThan b, AtLeast a => a = b
  | AtLeast a, Range _ d | Range _ d, AtLeast a => a = d
  | LessThan b, Range c _ | Range c _, LessThan b => c = b
  | _, _ => False
  end.

#[export] Instance touching_dec d1 d2 : Decision (touching d1 d2).
Proof. destruct d1, d2; simpl; apply _. Defined.

(** The reading the lenders of segments give a demand:
    [demand.min().unwrap_or(0)] and [demand.max().unwrap_or(usize::MAX)]. *)
Definition min_len (d : Demand) : Z := default 0 (min d).
Definition max_len (d : Demand) : Z := default USIZE_MAX (max d).

(** ** Lemmas *)

Ltac demand_cases :=
  repeat match goal with d : DemandRange |- _ => destruct d end.

Lemma between_lt a b : a < b → between a b = Ret (Range a b).
Proof. intros. unfold between. case_tests; (done || lia). Qed.

Lemma between_gt a b : b < a → between a b = Ret (Range b a).
Proof. intros. unfold between. case_tests; (done || lia). Qed.

Lemma between_eq a b : a = b → between a b = Panic.
Proof. intros ->. unfold between. case_tests; (done || lia). Qed.

Lemma contains_at_least l n : contains (AtLeast l) n ↔ l ≤ n.
Proof. unfold contains, bounds_contain; simpl; tauto. Qed.
Lemma contains_less_than u n : contains (LessThan u) n ↔ n < u.
Proof. unfold contains, bounds_contain; simpl; tauto. Qed.
Lemma contains_range l u n : contains (Range l u) n ↔ l ≤ n < u.
Proof. unfold contains, bounds_contain; simpl; tauto. Qed.
Create Rewrite HintDb demand.
#[export] Hint Rewrite contains_at_least contains_less_than contains_range
  : demand.

Ltac demand_solve :=
  repeat first
    [ rewrite between_lt by lia | rewrite between_eq by lia ];
  simpl; unfold is_usize, at_least, less_than in *;
  repeat match goal with
  | |- _ ∧ _ => split
  | |- _ ↔ _ => split
  | |- ∀ _, _ => intro
  | |- ¬ _ => intro
  | H : _ ∧ _ |- _ => destruct H
  end;
  autorewrite with demand in *; try lia.

Lemma demand_len_usize d : demand_wf d → is_usize (len d).
Proof. destruct d; simpl; unfold is_usize; lia. Qed.

Lemma min_len_le d n : contains d n → 0 ≤ n → min_len d ≤ n.
Proof. destruct d; intros H; autorewrite with demand in H; cbn; lia. Qed.

Lemma max_len_pos d : demand_wf d → 0 < min_len d → 0 < max_len d.
Proof. destruct d; cbn; unfold is_usize, USIZE_MAX; lia. Qed.

Lemma min_max_len d : demand_wf d → min_len d ≤ max_len d.
Proof. destruct d; cbn; unfold is_usize, USIZE_MAX; lia. Qed.

(** The case analysis of [compromise]. *)
Lemma compromise_spec d1 d2 :
  demand_wf d1 → demand_wf d2 →
  match compromise d1 d2 with
  | Panic => touching d1 d2
  | Ret None =>
      ¬ touching d1 d2 ∧ ∀ n, ¬ (contains d1 n ∧ contains d2 n)
  | Ret (Some d) =>
      ¬ touching d1 d2 ∧ demand_wf d ∧
      ∀ n, contains d n ↔ contains d1 n ∧ contains d2 n
  end.
Proof.
  intros Hw1 Hw2.
  destruct d1 as [a|b|a b], d2 as [c|d|c d];
    cbn -[between Z.min Z.max] in *; unfold is_usize in *.
  all: try (destruct (_ || _) eqn:E; rewrite ?orb_true_iff in E; bool_to_prop).
  all: repeat match goal with
    | |- context [(?x <=? ?y)%Z] => destruct (Z.leb_spec x y)
    | |- context [between ?x ?y] =>
        destruct (Z.lt_total x y) as [?|[?|?]];
        [ rewrite (between_lt x y) by done
        | rewrite (between_eq x y) by done
        | exfalso; lia ]
    end; cbn -[Z.min Z.max]; demand_solve.
Qed.

(** What a lender gets from a demand against [less_than c]: an upper bound not
    above either side's. *)
Lemma compromise_less_than d c d' :
  demand_wf d → c ≤ USIZE_MAX → compromise d (less_than c) = Ret (Some d') →
  ∃ m, max d' = Some m ∧ m ≤ Z.min (max_len d) c ∧ (0 ≤ c → 0 ≤ m).
Proof.
  unfold less_than. intros Hd Hc. destruct d as [a|b|a b]; cbn -[between Z.min] in *;
    unfold is_usize in *.
  - destruct (Z.leb_spec a c); [|done].
    destruct (Z.lt_total a c) as [?|[?|?]];
      rewrite ?between_lt, ?between_eq by done; [|done|lia].
    intros [= <-]. exists c. unfold max_len; simpl. split; [done|]. lia.
  - intros [= <-]. eexists; split; [done|]. unfold max_len; simpl. lia.
  - destruct (Z.leb_spec a c); [|done].
    destruct (Z.lt_total a (Z.min c b)) as [?|[?|?]];
      rewrite ?between_lt, ?between_eq by done; [|done|lia].
    intros [= <-]. eexists; split; [done|]. unfold max_len; simpl. lia.
Qed.

(** ** Properties *)

(** [Demand::compromise] is the intersection of two demands, computed
    without error except when they touch without overlapping: then, and only
    then, it panics (through the empty-range check of [Demand::between]); and
    [None] is returned exactly for disjoint demands that do not touch. *)
Theorem compromise_intersection d1 d2 :
  demand_wf d1 → demand_wf d2 →
  match compromise d1 d2 with
  | Panic => touching d1 d2
  | Ret None =>
      ¬ touching d1 d2 ∧ ∀ n, ¬ (contains d1 n ∧ contains d2 n)
  | Ret (Some d) =>
      ¬ touching d1 d2 ∧ demand_wf d ∧
      ∀ n, contains d n ↔ contains d1 n ∧ contains d2 n
  end.
Proof. apply compromise_spec. Qed.

Lemma compromise_intersection_witness :
  demand_wf (AtLeast 3) ∧ demand_wf (Range 1 8) ∧
  compromise (AtLeast 3) (Range 1 8) = Ret (Some (Range 3 8)) ∧
  ∀ n, contains (Range 3 8) n ↔ contains (AtLeast 3) n ∧ contains (Range 1 8) n.
Proof.
  split; [by vm_compute|]. split; [by vm_compute|]. split; [done|].
  assert (H1 : demand_wf (AtLeast 3)) by by vm_compute.
  assert (H2 : demand_wf (Range 1 8)) by by vm_compute.
  exact (proj2 (proj2 (compromise_intersection (AtLeast 3) (Range 1 8) H1 H2))).
Defined.

(** [compromise] does not depend on the order of its arguments. *)
Theorem compromise_comm d1 d2 : compromise d1 d2 = compromise d2 d1.
Proof.
  destruct d1 as [a|b|a b], d2 as [c|d|c d]; cbn -[between Z.min Z.max];
    rewrite ?(Z.max_comm a c), ?(Z.min_comm b d); try done.
  rewrite orb_comm. by destruct (_ || _).
Qed.

(** [Demand::exactly] panics on zero only, and on the [usize] range the
    demand it builds admits exactly the requested amount. *)
Theorem exactly_singleton v :
  is_usize v →
  match exactly v with
  | Panic => v = 0
  | Ret d => v ≠ 0 ∧ demand_wf d ∧ ∀ n, is_usize n → contains d n ↔ n = v
  end.
Proof.
  unfold exactly, at_least, is_usize, USIZE_MAX. intros Hv. case_tests; [lia| |];
    (split; [lia|]; split; [cbn; unfold is_usize, USIZE_MAX; lia|]);
    intros n Hn; autorewrite with demand; lia.
Qed.

Lemma exactly_singleton_witness :
  is_usize 5 ∧ ∀ n, is_usize n → contains (Range 5 6) n ↔ n = 5.
Proof.
  assert (H : is_usize 5) by by vm_compute.
  split; [exact H|]. exact (proj2 (proj2 (exactly_singleton 5 H))).
Defined.

(** [Demand::try_from_usize_range] never panics; on success the demand
    admits, below [usize::MAX], exactly the amounts of the given range; it
    gives the bounds back only when no amount below [usize::MAX] is in the range
    or the inclusive upper bound is [usize::MAX] itself. *)
Theorem try_from_usize_range_spec s e :
  (∀ v, s = Included v ∨ s = Excluded v ∨ e = Included v ∨ e = Excluded v →
        is_usize v) →
  match try_from_usize_range s e with
  | Panic => False
  | Ret (Ok d) =>
      demand_wf d ∧
      ∀ n, 0 ≤ n < USIZE_MAX → contains d n ↔ bounds_contain s e n
  | Ret (Err b) =>
      b = (s, e) ∧
      (e = Included USIZE_MAX ∨
       ∀ n, 0 ≤ n < USIZE_MAX → ¬ bounds_contain s e n)
  end.
Proof.
  intros Hb. unfold try_from_usize_range, bounds_contain.
  assert (Hs : match s with Included v | Excluded v => is_usize v | _ => True end)
    by (destruct s; auto).
  assert (He : match e with Included v | Excluded v => is_usize v | _ => True end)
    by (destruct e; auto).
  clear Hb. unfold is_usize, checked_add in *.
  destruct s as [v|v|], e as [w|w|]; repeat case_decide; cbn -[between USIZE_MAX];
    case_tests; rewrite ?between_lt by lia; cbn -[USIZE_MAX];
    unfold is_usize, USIZE_MAX in *;
    try (split; [lia|]; intros n Hn; autorewrite with demand; cbn; lia);
    try (split; [done|]);
    first [ left; f_equal; lia | right; intros n Hn; cbn; lia ].
Qed.

Lemma try_from_usize_range_spec_witness :
  demand_wf (Range 5 11) ∧ ∀ n, 0 ≤ n < USIZE_MAX →
    contains (Range 5 11) n ↔ bounds_contain (Included 5) (Included 10) n.
Proof.
  refine (try_from_usize_range_spec (Included 5) (Included 10) _).
  intros v [[= <-]|[[=]|[[= <-]|[=]]]]; by vm_compute.
Defined.
