(* ===== verification/Atomex.v ===== *)
(** * [atomex]: compare-exchange loops on an atomic word

    Models [CmpxchResult] and the two compare-exchange operations of
    [TrAtomicFlags] ([crates/atomex/src/cmpxch_result_.rs], [atomic_flags_.rs]).
    The rest of the program changes the cell between the steps of a loop; the
    loop is executed against the sequence of those changes, and shown to take
    effect at one instant. *)

From S2P Require Import Prelude.

(** ** [CmpxchResult] *)

Inductive CmpxchResult (T : Type) : Type :=
| Succ (t : T)
| Fail (t : T)
| Unexpected (t : T).
Arguments Succ {T} t.
Arguments Fail {T} t.
Arguments Unexpected {T} t.

Definition into_inner {T} (r : CmpxchResult T) : T :=
  match r with Succ t => t | Fail t => t | Unexpected t => t end.
Definition is_succ {T} (r : CmpxchResult T) : bool :=
  match r with Succ _ => true | _ => false end.
Definition is_fail {T} (r : CmpxchResult T) : bool :=
  match r with Fail _ => true | _ => false end.
Definition is_unexpected {T} (r : CmpxchResult T) : bool :=
  match r with Unexpected _ => true | _ => false end.
Definition succ {T} (r : CmpxchResult T) : option T :=
  match r with Succ t => Some t | _ => None end.
Definition fail {T} (r : CmpxchResult T) : option T :=
  match r with Fail t => Some t | _ => None end.
Definition unexpected {T} (r : CmpxchResult T) : option T :=
  match r with Unexpected t => Some t | _ => None end.
(** [impl From<CmpxchResult<T>> for Result<T, T>]. *)
Definition to_result {T} (r : CmpxchResult T) : result T T :=
  match r with Succ t => Ok t | Fail t => Err t | Unexpected t => Err t end.

Section flags.
Context {T : Type} `{EqDecision T}.

(** The atomic cell holds a value; [compare_exchange_weak] compares and, unless
    it fails spuriously, exchanges.  It returns its result and the cell. *)
Definition compare_exchange_weak (spurious : bool) (cell current new : T) :
    result T T * T :=
  if decide (cell = current) then
    if spurious then (Err cell, cell) else (Ok cell, new)
  else (Err cell, cell).

(** What happens around one compare-exchange of a loop: how the other threads
    change the cell since the last access of this one, and whether the weak
    exchange fails spuriously. *)
Record attempt : Type := Attempt {
  interference : T → T;
  spurious : bool;
}.

Definition quiet : attempt := Attempt id false.

Variables (expect : T → bool) (desire : T → T).

(** [try_once_compare_exchange_weak]: [cell] is the cell when the exchange is
    executed. *)
Definition try_once_compare_exchange_weak (sp : bool) (cell current : T) :
    CmpxchResult T * T :=
  if negb (expect current) then (Unexpected current, cell)
  else
    match compare_exchange_weak sp cell current (desire current) with
    | (Ok x, cell') => (Succ x, cell')
    | (Err x, cell') => (Fail x, cell')
    end.

(** The loop of [try_spin_compare_exchange_weak] from a value of [current];
    each round consumes one attempt.  [None]: the attempts given are over and
    the loop still runs. *)
Fixpoint spin_loop (env : list attempt) (cell current : T) :
    option (CmpxchResult T * T) :=
  match env with
  | [] => None
  | a :: env' =>
      let cell := interference a cell in
      match try_once_compare_exchange_weak (spurious a) cell current with
      | (Fail x, cell') => spin_loop env' cell' x
      | (r, cell') => Some (r, cell')
      end
  end.

(** [try_spin_compare_exchange_weak]: load, then loop. *)
Definition try_spin_compare_exchange_weak (env : list attempt) (cell : T) :
    option (CmpxchResult T * T) :=
  spin_loop env cell cell.

(** The specification: one atomic read-modify-write of the cell. *)
Definition rmw (cell : T) : CmpxchResult T * T :=
  if expect cell then (Succ cell, desire cell) else (Unexpected cell, cell).

(** ** Lemmas *)

Lemma try_once_cases sp cell current :
  (expect current = false ∧
   try_once_compare_exchange_weak sp cell current = (Unexpected current, cell)) ∨
  (expect current = true ∧ cell = current ∧ sp = false ∧
   try_once_compare_exchange_weak sp cell current = (Succ cell, desire cell)) ∨
  (expect current = true ∧ (cell ≠ current ∨ sp = true) ∧
   try_once_compare_exchange_weak sp cell current = (Fail cell, cell)).
Proof.
  unfold try_once_compare_exchange_weak, compare_exchange_weak.
  destruct (expect current) eqn:E; [|by left]. right.
  destruct (decide (cell = current)) as [->|]; [|by right; split; [|split; [left|]]].
  destruct sp; [by right; split; [|split; [right|]]|by left].
Qed.

(** The values the cell takes, at this thread's accesses, while the loop
    executes: the value loaded first and the one at each exchange. *)
Fixpoint seen (env : list attempt) (cell : T) : list T :=
  match env with
  | [] => []
  | a :: env' => interference a cell :: seen env' (interference a cell)
  end.

Lemma spin_loop_linearizable env : ∀ cell current r cell',
  spin_loop env cell current = Some (r, cell') →
  is_fail r = false ∧
  ∃ c, (c = current ∨ c ∈ seen env cell) ∧ r = (rmw c).1 ∧
       (is_succ r = true → cell' = (rmw c).2 ∧ c ∈ seen env cell) ∧
       (is_succ r = false → cell' ∈ seen env cell).
Proof.
  induction env as [|a env IH]; intros cell current r cell'; simpl; [done|].
  destruct (try_once_cases (spurious a) (interference a cell) current)
    as [(He & ->)|[(He & Hc & _ & ->)|(He & _ & ->)]].
  - intros [= <- <-]. split; [done|]. exists current.
    unfold rmw; rewrite He. split_and!; [by left|done|done|].
    intros _. apply elem_of_cons; by left.
  - intros [= <- <-]. split; [done|]. exists (interference a cell).
    unfold rmw; rewrite Hc, He. split_and!; [by left|done| |done].
    intros _. split; [done|]. apply elem_of_cons; by left.
  - intros (Hf & c & Hin & Hr & Hs & Hu)%IH. split; [done|]. exists c.
    split_and!; [|done| |].
    + right. apply elem_of_cons. destruct Hin; auto.
    + intros H. destruct (Hs H). split; [done|]. apply elem_of_cons; auto.
    + intros H. apply elem_of_cons; auto.
Qed.

Lemma spin_loop_quiet a env cell :
  interference a = id →
  is_Some (spin_loop (a :: quiet :: env) cell cell).
Proof.
  intros Hid. simpl. rewrite Hid. unfold id.
  destruct (try_once_cases (spurious a) cell cell)
    as [(_ & ->)|[(_ & _ & _ & ->)|(He & _ & ->)]]; [done..|].
  destruct (try_once_cases false cell cell)
    as [(_ & ->)|[(_ & _ & _ & ->)|(_ & [?|?] & _)]]; done.
Qed.

Lemma spin_loop_terminates env : ∀ cell current rest,
  is_Some (spin_loop (env ++ quiet :: quiet :: rest) cell current).
Proof.
  induction env as [|a env IH]; intros cell current rest; simpl.
  - unfold id.
    destruct (try_once_cases false cell current)
      as [(_ & ->)|[(_ & _ & _ & ->)|(He & _ & ->)]]; [done..|].
    destruct (try_once_cases false cell cell)
      as [(_ & ->)|[(_ & _ & _ & ->)|(_ & [?|?] & _)]]; done.
  - destruct (try_once_cases (spurious a) (interference a cell) current)
      as [(_ & ->)|[(_ & _ & _ & ->)|(_ & _ & ->)]]; [done..|apply IH].
Qed.

(** A loop that still runs, given one more attempt, runs one more round. *)
Lemma spin_loop_snoc met v sp : ∀ cell current,
  spin_loop met cell current = None →
  ∃ current', spin_loop (met ++ [Attempt (λ _, v) sp]) cell current =
    match try_once_compare_exchange_weak sp v current' with
    | (Fail _, _) => None
    | (r, cell') => Some (r, cell')
    end.
Proof.
  induction met as [|a met IH]; intros cell current; simpl.
  - intros _. exists current. by destruct (try_once_compare_exchange_weak _ _ _) as [[] ?].
  - destruct (try_once_compare_exchange_weak _ _ _) as [[] ?]; (apply IH || done).
Qed.

Lemma spin_snoc met v sp loaded :
  try_spin_compare_exchange_weak met loaded = None →
  let r := try_spin_compare_exchange_weak (met ++ [Attempt (λ _, v) sp]) loaded in
  r = None ∨ (expect v = true ∧ r = Some (Succ v, desire v)) ∨
  ∃ c, expect c = false ∧ r = Some (Unexpected c, v).
Proof.
  intros H. destruct (spin_loop_snoc met v sp loaded loaded H) as [c E].
  simpl. unfold try_spin_compare_exchange_weak. rewrite E.
  destruct (try_once_cases sp v c) as [(He & ->)|[(He & -> & _ & ->)|(_ & _ & ->)]].
  - right. right. eauto.
  - right. left. eauto.
  - by left.
Qed.
End flags.
Arguments attempt : clear implicits.
Arguments Attempt {T} _ _.

(** ** Properties *)

(** The spin loop refines one atomic read-modify-write.  Whatever the other
    threads do between its steps, when it returns it never reports a lost race,
    and its answer is that of the atomic operation on a value [c] the cell held;
    on success the cell became exactly [desire c] from [c] in one step, and
    otherwise this thread left the cell alone. *)
Theorem spin_refines_rmw {T} `{EqDecision T} (expect : T → bool) (desire : T → T)
    env cell r cell' :
  try_spin_compare_exchange_weak expect desire env cell = Some (r, cell') →
  is_fail r = false ∧
  ∃ c, (c = cell ∨ c ∈ seen env cell) ∧ r = (rmw expect desire c).1 ∧
       (is_succ r = true → cell' = desire c ∧ c ∈ seen env cell) ∧
       (is_succ r = false → expect c = false ∧ cell' ∈ seen env cell).
Proof.
  intros (Hf & c & Hin & Hr & Hs & Hu)%spin_loop_linearizable.
  split; [done|]. exists c. split_and!; [done|done|..].
  - intros H. destruct (Hs H) as [-> ?]. split; [|done].
    revert H. rewrite Hr. unfold rmw. by destruct (expect c).
  - intros H. split; [|by apply Hu].
    revert H. rewrite Hr. unfold rmw. by destruct (expect c).
Qed.

Lemma spin_refines_rmw_witness :
  let env := [Attempt (λ _, 5) false; Attempt id true; Attempt id false] in
  is_fail (Succ 5) = false ∧
  ∃ c, (c = 0 ∨ c ∈ seen env 0) ∧ Succ 5 = (rmw (λ _, true) (Z.add 1) c).1 ∧
       (is_succ (Succ 5) = true → 6 = Z.add 1 c ∧ c ∈ seen env 0) ∧
       (is_succ (Succ 5) = false → true = false ∧ 6 ∈ seen env 0).
Proof.
  intros env.
  exact (spin_refines_rmw (λ _, true) (Z.add 1) env 0 (Succ 5) 6 eq_refl).
Defined.

(** The spin loop returns as soon as it is given two consecutive rounds
    without interference and without spurious failure, however long it was
    disturbed before. *)
Theorem spin_terminates {T} `{EqDecision T} (expect : T → bool) (desire : T → T)
    env rest cell :
  ∃ r cell', try_spin_compare_exchange_weak expect desire
               (env ++ quiet :: quiet :: rest) cell = Some (r, cell').
Proof.
  destruct (spin_loop_terminates expect desire env cell cell rest) as [[r c] Hr].
  by exists r, c.
Qed.
