(* ===== verification/Cells.v ===== *)
(** * [atomex]: atomic cells, counters and pointers

    Models the cells of [crates/atomex/src/atomic_cell_.rs] and [fetch.rs] (the
    integers of every width, signed or not), [AtomicCount] ([atomic_count_.rs]) and
    [AtomexPtr] ([atomex_ptr_.rs]), whose operations are the loops of [Atomex.v] on
    a nullable pointer.  One access of a cell is one step. *)

From S2P Require Import Prelude Atomex.

(** ** Integers *)

(** A type of [TrAtomicData]: its width and its sign. *)
Record int_ty : Type := IntTy { bits : Z; signed : bool }.

Definition int_min (ty : int_ty) : Z := if signed ty then - 2 ^ (bits ty - 1) else 0.
Definition is_int (ty : int_ty) (v : Z) : Prop :=
  int_min ty ≤ v < int_min ty + 2 ^ bits ty.
#[export] Instance is_int_dec ty v : Decision (is_int ty v).
Proof. unfold is_int; apply _. Defined.

(** The value of the type that is congruent to [v]. *)
Definition wrap (ty : int_ty) (v : Z) : Z :=
  (v - int_min ty) mod 2 ^ bits ty + int_min ty.

Section ints.
Context (ty : int_ty) (Hbits : 0 < bits ty).

Lemma pow_bits : 0 < 2 ^ bits ty.
Proof using Hbits. apply Z.pow_pos_nonneg; lia. Qed.

Lemma wrap_range v : is_int ty (wrap ty v).
Proof using Hbits.
  unfold is_int, wrap. pose proof (Z.mod_pos_bound (v - int_min ty) (2 ^ bits ty) pow_bits).
  lia.
Qed.

Lemma wrap_id v : is_int ty v → wrap ty v = v.
Proof using Hbits. unfold is_int, wrap. intros Hv. rewrite Z.mod_small by lia. lia. Qed.

Lemma wrap_add a b : wrap ty (wrap ty a + b) = wrap ty (a + b).
Proof using Hbits.
  unfold wrap. f_equal.
  replace ((a - int_min ty) mod 2 ^ bits ty + int_min ty + b - int_min ty)
    with ((a - int_min ty) mod 2 ^ bits ty + b) by lia.
  rewrite Z.add_mod_idemp_l by (pose proof pow_bits; lia). f_equal. lia.
Qed.

(** Values less than a whole turn apart stay apart. *)
Lemma wrap_inj a b : wrap ty a = wrap ty b → a - b < 2 ^ bits ty → b - a < 2 ^ bits ty → a = b.
Proof using Hbits.
  unfold wrap. intros E Ha Hb. pose proof pow_bits as Hp.
  pose proof (Z.div_mod (a - int_min ty) (2 ^ bits ty)).
  pose proof (Z.div_mod (b - int_min ty) (2 ^ bits ty)).
  assert ((a - int_min ty) mod 2 ^ bits ty = (b - int_min ty) mod 2 ^ bits ty) by lia.
  set (qa := (a - int_min ty) / 2 ^ bits ty) in *.
  set (qb := (b - int_min ty) / 2 ^ bits ty) in *.
  assert (a - b = 2 ^ bits ty * (qa - qb)) by lia.
  assert (qa = qb) as <- by nia. lia.
Qed.
End ints.

(** ** [TrAtomicCell] and [fetch]

    An access gives its answer and the new content of the cell. *)

Definition load {T} (cell : T) : T * T := (cell, cell).
Definition store {T} (val cell : T) : unit * T := (tt, val).
Definition swap {T} (val cell : T) : T * T := (cell, val).
Definition compare_exchange {T} `{EqDecision T} (current desired cell : T) : result T T * T :=
  compare_exchange_weak false cell current desired.

Section fetch.
Context (ty : int_ty).

Definition fetch_add (val cell : Z) : Z * Z := (cell, wrap ty (cell + val)).
Definition fetch_sub (val cell : Z) : Z * Z := (cell, wrap ty (cell - val)).
Definition fetch_and (val cell : Z) : Z * Z := (cell, Z.land cell val).
Definition fetch_nand (val cell : Z) : Z * Z := (cell, wrap ty (Z.lnot (Z.land cell val))).
Definition fetch_or (val cell : Z) : Z * Z := (cell, Z.lor cell val).
Definition fetch_xor (val cell : Z) : Z * Z := (cell, Z.lxor cell val).
Definition fetch_max (val cell : Z) : Z * Z := (cell, Z.max cell val).
Definition fetch_min (val cell : Z) : Z * Z := (cell, Z.min cell val).
Definition fetch_update (f : Z → option Z) (cell : Z) : result Z Z * Z :=
  match f cell with Some val => (Ok cell, val) | None => (Err cell, cell) end.
End fetch.

(** The accesses that write, with their operands. *)
Inductive cell_op : Type :=
| Store (val : Z) | Swap (val : Z) | CompareExchange (current desired : Z)
| FetchAdd (val : Z) | FetchSub (val : Z) | FetchAnd (val : Z) | FetchNand (val : Z)
| FetchOr (val : Z) | FetchXor (val : Z) | FetchMax (val : Z) | FetchMin (val : Z)
| FetchUpdate (f : Z → option Z).

(** The value an access reports, if it reports one, and the new content. *)
Definition cell_do (ty : int_ty) (op : cell_op) (cell : Z) : option Z * Z :=
  let value r := match r with Ok v => v | Err v => v end in
  match op with
  | Store v => (None, (store v cell).2)
  | Swap v => let '(a, c) := swap v cell in (Some a, c)
  | CompareExchange cur des => let '(a, c) := compare_exchange cur des cell in (Some (value a), c)
  | FetchAdd v => let '(a, c) := fetch_add ty v cell in (Some a, c)
  | FetchSub v => let '(a, c) := fetch_sub ty v cell in (Some a, c)
  | FetchAnd v => let '(a, c) := fetch_and v cell in (Some a, c)
  | FetchNand v => let '(a, c) := fetch_nand ty v cell in (Some a, c)
  | FetchOr v => let '(a, c) := fetch_or v cell in (Some a, c)
  | FetchXor v => let '(a, c) := fetch_xor v cell in (Some a, c)
  | FetchMax v => let '(a, c) := fetch_max v cell in (Some a, c)
  | FetchMin v => let '(a, c) := fetch_min v cell in (Some a, c)
  | FetchUpdate f => let '(a, c) := fetch_update f cell in (Some (value a), c)
  end.

(** The operands that are stored or combined bit by bit are values of the type. *)
Definition operands_ok (ty : int_ty) (op : cell_op) : Prop :=
  match op with
  | Store v | Swap v | CompareExchange _ v | FetchAnd v | FetchOr v | FetchXor v
  | FetchMax v | FetchMin v => is_int ty v
  | FetchAdd _ | FetchSub _ | FetchNand _ => True
  | FetchUpdate f => ∀ c v, is_int ty c → f c = Some v → is_int ty v
  end.

(** A value of the type is one whose high bits are all alike (all 0, or all 1 too in
    a signed type). *)
Definition high_bits (ty : int_ty) (v : Z) : Z :=
  Z.shiftr v (if signed ty then bits ty - 1 else bits ty).

Lemma is_int_high ty v :
  0 < bits ty →
  is_int ty v ↔ high_bits ty v = 0 ∨ signed ty = true ∧ high_bits ty v = -1.
Proof.
  intros Hb. unfold is_int, int_min, high_bits.
  assert (Hk : 2 ^ bits ty = 2 * 2 ^ (bits ty - 1)) by (rewrite <- Z.pow_succ_r by lia; f_equal; lia).
  assert (Hdiv : ∀ k, 0 ≤ k → Z.shiftr v k * 2 ^ k ≤ v < (Z.shiftr v k + 1) * 2 ^ k).
  { intros k Hk'. rewrite Z.shiftr_div_pow2 by done. assert (0 < 2 ^ k) by (apply Z.pow_pos_nonneg; lia).
    pose proof (Z.div_mod v (2 ^ k)). pose proof (Z.mod_pos_bound v (2 ^ k)). nia. }
  assert (0 < 2 ^ (bits ty - 1)) by (apply Z.pow_pos_nonneg; lia).
  destruct (signed ty).
  - specialize (Hdiv (bits ty - 1) ltac:(lia)). set (q := Z.shiftr v _) in *.
    split; [|intros [E|[_ E]]; rewrite E in *; lia].
    intros. assert (q = 0 ∨ q = -1) as [-> | ->] by nia; [by left|by right].
  - specialize (Hdiv (bits ty) ltac:(lia)). set (q := Z.shiftr v _) in *.
    split; [|intros [E|[? _]]; [rewrite E in *; lia|done]].
    intros. left. nia.
Qed.

Lemma is_int_bitop ty f a b :
  0 < bits ty →
  (∀ a b k, Z.shiftr (f a b) k = f (Z.shiftr a k) (Z.shiftr b k)) →
  f 0 0 = 0 → (∀ x y, (x = 0 ∨ x = -1) → (y = 0 ∨ y = -1) → f x y = 0 ∨ f x y = -1) →
  is_int ty a → is_int ty b → is_int ty (f a b).
Proof.
  intros Hb Hf H0 H1. rewrite !is_int_high by done. unfold high_bits. rewrite Hf.
  destruct (signed ty).
  - intros Ha Hb'. destruct (H1 (Z.shiftr a (bits ty - 1)) (Z.shiftr b (bits ty - 1)));
      [tauto|tauto|by left|by right].
  - intros [->|[? _]] [->|[? _]]; try done. by left.
Qed.

(** An atomic integer never leaves its type, and every access that reports a value
    reports the one it found: additions, subtractions and negated conjunctions wrap,
    at every width, signed or not. *)
Theorem cell_ops_typed (ty : int_ty) (op : cell_op) (cell : Z) :
  0 < bits ty → is_int ty cell → operands_ok ty op →
  is_int ty (cell_do ty op cell).2 ∧
  (∀ a, (cell_do ty op cell).1 = Some a → a = cell).
Proof.
  intros Hb Hc Ho.
  assert (H01 : ∀ f, f 0 0 = 0 ∨ f 0 0 = -1 → f 0 (-1) = 0 ∨ f 0 (-1) = -1 →
    f (-1) 0 = 0 ∨ f (-1) 0 = -1 → f (-1) (-1) = 0 ∨ f (-1) (-1) = -1 →
    ∀ x y, (x = 0 ∨ x = -1) → (y = 0 ∨ y = -1) → f x y = 0 ∨ f x y = -1)
    by by intros f ???? x y [-> | ->] [-> | ->].
  destruct op; simpl in *; try (split; [|by intros ? [= <-]]); try done;
    try (by apply wrap_range).
  - unfold compare_exchange, compare_exchange_weak.
    case_decide; simpl; (split; [done|by intros ? [= <-]]).
  - apply is_int_bitop; try done; [intros; apply Z.shiftr_land|by apply H01; auto].
  - apply is_int_bitop; try done; [intros; apply Z.shiftr_lor|by apply H01; auto].
  - apply is_int_bitop; try done; [intros; apply Z.shiftr_lxor|by apply H01; auto].
  - unfold is_int in *. lia.
  - unfold is_int in *. lia.
  - unfold fetch_update. destruct (f cell) as [v|] eqn:E; simpl.
    + split; [by eapply Ho|by intros ? [= <-]].
    + split; [done|by intros ? [= <-]].
Qed.

(** [fetch_nand] on an [i8] and an overflowing [fetch_add] on a [u8]. *)
Lemma cell_ops_typed_witness :
  is_int (IntTy 8 true) (cell_do (IntTy 8 true) (FetchNand 5) 4).2 ∧
  cell_do (IntTy 8 true) (FetchNand 5) 4 = (Some 4, -5) ∧
  is_int (IntTy 8 false) (cell_do (IntTy 8 false) (FetchAdd 10) 250).2 ∧
  cell_do (IntTy 8 false) (FetchAdd 10) 250 = (Some 250, 4).
Proof.
  destruct (cell_ops_typed (IntTy 8 true) (FetchNand 5) 4 eq_refl
    ltac:(split; vm_compute; (discriminate || reflexivity)) I) as [H1 _].
  destruct (cell_ops_typed (IntTy 8 false) (FetchAdd 10) 250 eq_refl
    ltac:(split; vm_compute; (discriminate || reflexivity)) I) as [H2 _].
  split; [exact H1|]. split; [vm_compute; reflexivity|].
  split; [exact H2|vm_compute; reflexivity].
Defined.

(** ** [AtomicCount] *)

Inductive count_op : Type := Inc | Add (val : Z) | Dec | Sub (val : Z) | Val.

Definition count_do (ty : int_ty) (op : count_op) (cell : Z) : Z * Z :=
  match op with
  | Inc => fetch_add ty 1 cell
  | Add val => fetch_add ty val cell
  | Dec => fetch_sub ty 1 cell
  | Sub val => fetch_sub ty val cell
  | Val => load cell
  end.

(** The calls that any number of threads make on one counter, in the order in which
    they reach the cell: the answers and the value at the end. *)
Fixpoint count_run (ty : int_ty) (h : list count_op) (cell : Z) : list Z * Z :=
  match h with
  | [] => ([], cell)
  | op :: h =>
      let '(a, cell) := count_do ty op cell in
      let '(l, cell) := count_run ty h cell in (a :: l, cell)
  end.

(** What an operation adds. *)
Definition net (op : count_op) : Z :=
  match op with Inc => 1 | Add val => val | Dec => -1 | Sub val => - val | Val => 0 end.
Definition nets (h : list count_op) : Z := foldr Z.add 0 (net <$> h).

Lemma nets_perm h h' : h ≡ₚ h' → nets h = nets h'.
Proof. unfold nets. induction 1; rewrite ?fmap_cons; cbn [foldr]; lia. Qed.

Section count.
Context (ty : int_ty) (Hbits : 0 < bits ty).

Lemma count_do_net op cell :
  is_int ty cell → count_do ty op cell = (cell, wrap ty (cell + net op)).
Proof using Hbits.
  intros Hc. destruct op; simpl; try done.
  unfold load. by rewrite Z.add_0_r, wrap_id.
Qed.

(** The value before the [i]-th call, and after the last one. *)
Lemma count_run_nets h : ∀ cell,
  is_int ty cell →
  (count_run ty h cell).2 = wrap ty (cell + nets h) ∧
  ∀ i, (i < length h)%nat →
    (count_run ty h cell).1 !! i = Some (wrap ty (cell + nets (take i h))).
Proof using Hbits.
  induction h as [|op h IH]; intros cell Hc; simpl count_run.
  { simpl. rewrite Z.add_0_r, wrap_id by done. split; [done|]. intros i Hi. simpl in Hi. lia. }
  rewrite count_do_net by done.
  destruct (IH (wrap ty (cell + net op))) as [Hv Ha]; [by apply wrap_range|].
  destruct (count_run ty h (wrap ty (cell + net op))) as [l cell'] eqn:E. simpl in *.
  rewrite wrap_add, <- Z.add_assoc in Hv by done. split; [exact Hv|].
  intros [|i] Hi; simpl.
  - unfold nets. simpl. by rewrite Z.add_0_r, wrap_id.
  - rewrite Ha, wrap_add, <- Z.add_assoc by (done || lia). done.
Qed.

Lemma count_run_length h : ∀ cell, length (count_run ty h cell).1 = length h.
Proof.
  induction h as [|op h IH]; intros cell; [done|]. simpl.
  destruct (count_do ty op cell) as [a c]. specialize (IH c).
  destruct (count_run ty h c). simpl in *. congruence.
Qed.

Lemma nets_incs h i : Forall (eq Inc) h → (i ≤ length h)%nat → nets (take i h) = Z.of_nat i.
Proof.
  intros Hh. revert i. induction Hh as [|op h <- Hh IH]; intros [|i] Hi; simpl in *; try done; [lia|].
  unfold nets in *. simpl. rewrite IH by lia. lia.
Qed.
End count.

(** No call on a counter is lost, whatever the order in which the threads reach
    it: the value at the end is the sum of all of them, wrapped to the type, and two
    histories of the same calls end with the same value. *)
Theorem count_order_free (ty : int_ty) (h h' : list count_op) (init : Z) :
  0 < bits ty → is_int ty init → h ≡ₚ h' →
  (count_run ty h init).2 = wrap ty (init + nets h) ∧
  (count_run ty h' init).2 = (count_run ty h init).2.
Proof.
  intros Hb Hi Hp. rewrite !(proj1 (count_run_nets ty Hb _ init Hi)).
  by rewrite (nets_perm _ _ Hp).
Qed.

Lemma count_order_free_witness :
  (count_run (IntTy 8 true) [Inc; Sub 100; Inc] (-100)).2 = 58 ∧
  (count_run (IntTy 8 true) [Sub 100; Inc; Inc] (-100)).2 = 58.
Proof.
  destruct (count_order_free (IntTy 8 true) [Inc; Sub 100; Inc] [Sub 100; Inc; Inc] (-100)
    ltac:(vm_compute; reflexivity) ltac:(split; vm_compute; (discriminate || reflexivity))
    (perm_swap (Sub 100) Inc [Inc])) as [-> ->].
  split; vm_compute; reflexivity.
Defined.

(** [inc] hands out tickets: threads that increment one counter get pairwise
    different answers, up to as many of them as the type has values, and the count
    wraps instead of stopping. *)
Theorem count_tickets (ty : int_ty) (h : list count_op) (init : Z) :
  0 < bits ty → is_int ty init → Forall (eq Inc) h → Z.of_nat (length h) ≤ 2 ^ bits ty →
  NoDup (count_run ty h init).1 ∧
  (count_run ty h init).2 = wrap ty (init + Z.of_nat (length h)).
Proof.
  intros Hb Hi Hh Hlen. destruct (count_run_nets ty Hb h init Hi) as [Hv Ha]. split.
  - apply NoDup_alt. intros i j x Hxi Hxj.
    assert (∀ k, (count_run ty h init).1 !! k = Some x → (k < length h)%nat) as Hlt.
    { intros k Hk%lookup_lt_Some. by rewrite count_run_length in Hk. }
    pose proof (Hlt _ Hxi). pose proof (Hlt _ Hxj).
    rewrite Ha in Hxi, Hxj by done. rewrite nets_incs in Hxi, Hxj by (done || lia).
    assert (init + Z.of_nat i = init + Z.of_nat j); [|lia].
    apply (wrap_inj ty Hb); [congruence|lia..].
  - rewrite Hv. do 2 f_equal. pose proof (nets_incs h (length h) Hh (le_n _)) as E.
    by rewrite firstn_all in E.
Qed.

(** Four increments of a counter of two bits. *)
Lemma count_tickets_witness :
  NoDup (count_run (IntTy 2 false) [Inc; Inc; Inc; Inc] 3).1 ∧
  (count_run (IntTy 2 false) [Inc; Inc; Inc; Inc] 3) = ([3; 0; 1; 2], 3).
Proof.
  destruct (count_tickets (IntTy 2 false) [Inc; Inc; Inc; Inc] 3 eq_refl
    ltac:(split; vm_compute; (discriminate || reflexivity)) ltac:(repeat constructor)
    ltac:(vm_compute; discriminate)) as [Hn _].
  split; [exact Hn|vm_compute; reflexivity].
Defined.

(** ** [AtomexPtr]

    A [*mut T] is [None] when it is null; [NonNull::new_unchecked] of a null pointer
    is undefined behaviour, here a [Panic]. *)

Definition ptr : Type := option Z.
Definition is_null (p : ptr) : bool := match p with None => true | Some _ => false end.
Definition new_unchecked (p : ptr) : outcome Z :=
  match p with Some a => Ret a | None => Panic end.

(** [load], of the stored pointer. *)
Definition ptr_load (cell : ptr) : option Z * ptr := (cell, cell).

Section pointer.
Context (env : list (attempt ptr)) (cell : ptr).

Definition try_reset : option (outcome (result ptr Z) * ptr) :=
  match try_spin_compare_exchange_weak (negb ∘ is_null) (λ _, None) env cell with
  | Some (r, cell) =>
      Some (match to_result r with Ok p => Ok <$> new_unchecked p | Err x => Ret (Err x) end, cell)
  | None => None
  end.

Definition try_spin_compare_and_reset (p : Z) : option (outcome (result ptr Z) * ptr) :=
  match try_spin_compare_exchange_weak (λ x, bool_decide (x = Some p)) (λ _, None) env cell with
  | Some (r, cell) =>
      Some (match to_result r with Ok p => Ok <$> new_unchecked p | Err x => Ret (Err x) end, cell)
  | None => None
  end.

Definition try_spin_init (init : Z) : option (outcome (result Z ptr) * ptr) :=
  match try_spin_compare_exchange_weak is_null (λ _, Some init) env cell with
  | Some (r, cell) =>
      Some (match to_result r with Ok p => Ret (Ok p) | Err x => Err <$> new_unchecked x end, cell)
  | None => None
  end.
End pointer.

(** The same operations as single atomic updates of the cell. *)
Inductive ptr_op : Type := Reset | CompareAndReset (p : Z) | Init (p : Z) | Load.

(** An answer: what a reset took, what an initialisation or a load found. *)
Inductive ptr_answer : Type :=
| Took (r : result ptr Z)
| Inited (r : result Z ptr)
| Loaded (p : option Z).

Definition ptr_do (op : ptr_op) (cell : ptr) : ptr_answer * ptr :=
  match op with
  | Reset => match cell with Some a => (Took (Ok a), None) | None => (Took (Err None), None) end
  | CompareAndReset p =>
      if bool_decide (cell = Some p) then (Took (Ok p), None) else (Took (Err cell), cell)
  | Init p => match cell with None => (Inited (Ok None), Some p) | Some a => (Inited (Err a), cell) end
  | Load => (Loaded cell, cell)
  end.

Definition answered {A} (f : A → ptr_answer) (x : outcome A * ptr) : outcome ptr_answer * ptr :=
  (f <$> x.1, x.2).

(** An operation as the code runs it. *)
Definition ptr_run (op : ptr_op) (env : list (attempt ptr)) (cell : ptr) :
    option (outcome ptr_answer * ptr) :=
  match op with
  | Reset => answered Took <$> try_reset env cell
  | CompareAndReset p => answered Took <$> try_spin_compare_and_reset env cell p
  | Init p => answered Inited <$> try_spin_init env cell p
  | Load => Some (Ret (Loaded (ptr_load cell).1), (ptr_load cell).2)
  end.

(** The operation found what it wanted. *)
Definition succeeded (a : ptr_answer) : bool :=
  match a with Took (Ok _) | Inited (Ok _) => true | _ => false end.

(** What a loop returned, in terms of the value [c] its exchange met. *)
Lemma spin_cases (expect : ptr → bool) (desire : ptr → ptr) env cell r cell' :
  try_spin_compare_exchange_weak expect desire env cell = Some (r, cell') →
  ∃ c, (c = cell ∨ c ∈ seen env cell) ∧
    ((expect c = true ∧ r = Succ c ∧ cell' = desire c ∧ c ∈ seen env cell) ∨
     (expect c = false ∧ r = Unexpected c ∧ cell' ∈ seen env cell)).
Proof.
  intros (_ & c & Hin & Hr & Hs & Hu)%spin_loop_linearizable. exists c. split; [done|].
  subst r. unfold rmw in *. destruct (expect c) eqn:E; simpl in *.
  - left. destruct (Hs eq_refl). done.
  - right. by specialize (Hu eq_refl).
Qed.

(** The operations of a shared pointer are atomic, and none of them makes a
    [NonNull] of a null pointer: whatever the other threads do between the steps of a
    loop, and however often the exchange fails spuriously, what it returns is the
    answer of the single update of [ptr_do] on a value [c] that the cell held; on
    success that update is the one that was made, otherwise the cell is as the others
    left it. *)
Theorem ptr_ops_atomic (op : ptr_op) env cell o cell' :
  ptr_run op env cell = Some (o, cell') →
  ∃ c, (c = cell ∨ c ∈ seen env cell) ∧ o = Ret (ptr_do op c).1 ∧
    (succeeded (ptr_do op c).1 = true → cell' = (ptr_do op c).2 ∧ c ∈ seen env cell) ∧
    (succeeded (ptr_do op c).1 = false → cell' = cell ∨ cell' ∈ seen env cell).
Proof.
  destruct op as [|p|p|]; unfold ptr_run, try_reset, try_spin_compare_and_reset, try_spin_init.
  4: { intros [= <- <-]. exists cell. split; [by left|]. split; [done|].
       split; [done|]. intros _. by left. }
  all: destruct (try_spin_compare_exchange_weak _ _ _ _) as [[r x]|] eqn:E; [|done].
  all: intros [= <- <-]; apply spin_cases in E as (c & Hin & [(He & -> & -> & Hs)|(He & -> & Hx)]);
    exists c; (split; [exact Hin|]).
  all: destruct c as [a|]; simpl in *; try done.
  - split; [done|]. split; [done|]. intros _. by right.
  - apply bool_decide_eq_true in He as [= ->]. rewrite bool_decide_true by done. done.
  - apply bool_decide_eq_false in He. rewrite bool_decide_false by done.
    split; [done|]. split; [done|]. intros _. by right.
  - split; [done|]. split; [done|]. intros _. by right.
  - split; [done|]. split; [done|]. intros _. by right.
Qed.

(** Another thread replaces 5 by 9 before the first exchange, and the second one fails
    spuriously: the reset takes 9. *)
Lemma ptr_ops_atomic_witness :
  let env := [Attempt (λ _, Some 9) false; Attempt id true; quiet] in
  ptr_run Reset env (Some 5) = Some (Ret (Took (Ok 9)), None) ∧
  ∃ c, c ∈ seen env (Some 5) ∧ None = (ptr_do Reset c).2.
Proof.
  intros env.
  assert (Hrun : ptr_run Reset env (Some 5) = Some (Ret (Took (Ok 9)), None))
    by (vm_compute; reflexivity).
  split; [exact Hrun|].
  destruct (ptr_ops_atomic Reset env (Some 5) (Ret (Took (Ok 9))) None Hrun)
    as (c & _ & Ho & Hs & _).
  exists c. destruct c as [a|]; [|discriminate Ho]. destruct (Hs eq_refl) as [Hc Hin].
  exact (conj Hin Hc).
Defined.

(** ** A pointer shared by threads

    A call in progress is its loop run on what its thread has met so far: the value
    loaded first, and at every exchange the value that the other threads left in the
    cell.  One step is one access of the cell, so the calls interleave at each load and
    each exchange, and a weak exchange fails when the schedule says so. *)

Inductive ptr_phase : Type :=
| NotCalling
| Calling (op : ptr_op) (met : list (attempt ptr)) (loaded : ptr).

Record ptr_shared : Type := PtrShared {
  slot : ptr;
  callers : list ptr_phase;
  returns : list (ptr_op * outcome ptr_answer);    (* in the order they came *)
}.
Definition ptr_start (cell : ptr) (n : nat) : ptr_shared :=
  PtrShared cell (replicate n NotCalling) [].

Inductive ptr_event : Type :=
| Invoke (op : ptr_op)            (* its load; it is all there is of [load] *)
| Exchange (spurious : bool).     (* one round of its loop *)

(** A call after the attempts [met]: it is over, or it goes on. *)
Definition ptr_continue (m : ptr_shared) (i : nat) (op : ptr_op)
    (met : list (attempt ptr)) (loaded : ptr) : ptr_shared :=
  match ptr_run op met loaded with
  | Some (o, cell) =>
      PtrShared cell (<[i := NotCalling]> (callers m)) (returns m ++ [(op, o)])
  | None => PtrShared (slot m) (<[i := Calling op met loaded]> (callers m)) (returns m)
  end.

Definition ptr_step (m : ptr_shared) (i : nat) (e : ptr_event) : option ptr_shared :=
  match callers m !! i, e with
  | Some NotCalling, Invoke op => Some (ptr_continue m i op [] (slot m))
  | Some (Calling op met loaded), Exchange sp =>
      Some (ptr_continue m i op (met ++ [Attempt (λ _, slot m) sp]) loaded)
  | _, _ => None
  end.

Fixpoint ptr_sched (es : list (nat * ptr_event)) (m : ptr_shared) : option ptr_shared :=
  match es with
  | [] => Some m
  | (i, e) :: es => m ← ptr_step m i e; ptr_sched es m
  end.

(** The pointers that were put in, and the ones that were taken out. *)
Definition put (x : ptr_op * outcome ptr_answer) : option Z :=
  match x with (Init p, Ret (Inited (Ok _))) => Some p | _ => None end.
Definition taken (x : ptr_op * outcome ptr_answer) : option Z :=
  match x with (_, Ret (Took (Ok p))) => Some p | _ => None end.

(** An answer that its caller may rely on: a reset fails on a null pointer only, a
    compared reset takes the pointer asked for and fails on any other, an
    initialisation succeeds on a null pointer and fails with the one it found. *)
Definition fair_answer (x : ptr_op * outcome ptr_answer) : Prop :=
  match x with
  | (Reset, Ret (Took r)) => match r with Ok _ => True | Err q => q = None end
  | (CompareAndReset p, Ret (Took r)) =>
      match r with Ok q => q = p | Err q => q ≠ Some p end
  | (Init _, Ret (Inited r)) => match r with Ok q => q = None | Err _ => True end
  | (Load, Ret (Loaded _)) => True
  | _ => False
  end.

(** What one access of the cell does to it: a failed answer leaves it, a successful one
    moves a pointer in or out. *)
Definition moved (op : ptr_op) (v : ptr) (r : option (outcome ptr_answer * ptr)) : Prop :=
  match r with
  | None => True
  | Some (o, cell) => fair_answer (op, o) ∧
      option_list v ++ option_list (put (op, o)) =
      option_list (taken (op, o)) ++ option_list cell
  end.

Lemma ptr_run_last op met v sp loaded :
  ptr_run op met loaded = None →
  moved op v (ptr_run op (met ++ [Attempt (λ _, v) sp]) loaded).
Proof.
  destruct op as [|p|p|]; unfold ptr_run, try_reset, try_spin_compare_and_reset, try_spin_init;
    [..|done]; unfold ptr in *; intros H;
    match goal with |- context [@try_spin_compare_exchange_weak ?T ?I ?e ?d (_ ++ _) _] =>
      destruct (@spin_snoc T I e d met v sp loaded) as [->|[[He ->]|(c & He & ->)]];
        [by destruct (@try_spin_compare_exchange_weak T I e d met loaded) as [[]|]|done|..]
    end; clear H; simpl in *.
  - by destruct v.
  - by destruct c, v.
  - apply bool_decide_eq_true in He as ->. done.
  - apply bool_decide_eq_false in He. by destruct v.
  - by destruct v.
  - by destruct c, v.
Qed.

Definition ptr_inv (cell : ptr) (m : ptr_shared) : Prop :=
  Forall fair_answer (returns m) ∧
  option_list cell ++ omap put (returns m) = omap taken (returns m) ++ option_list (slot m) ∧
  ∀ i op met loaded, callers m !! i = Some (Calling op met loaded) →
    ptr_run op met loaded = None.

Lemma omap_snoc {A B} (f : A → option B) l x :
  omap f (l ++ [x]) = omap f l ++ option_list (f x).
Proof. rewrite omap_app. simpl. by destruct (f x). Qed.

Lemma ptr_continue_inv cell m i op met loaded :
  ptr_inv cell m → moved op (slot m) (ptr_run op met loaded) →
  ptr_inv cell (ptr_continue m i op met loaded).
Proof.
  intros (Hf & Hs & Hc) Hm. unfold ptr_continue.
  destruct (ptr_run op met loaded) as [[o c]|] eqn:E;
    split_and!; try done; cbn [callers slot returns].
  - rewrite Forall_app, Forall_singleton. split; [done|apply Hm].
  - destruct Hm as [_ Hm]. rewrite !omap_snoc, app_assoc, Hs, <- !app_assoc. by rewrite Hm.
  - intros j op' met' l' [(_ & ? & _)|[_ Hj]]%list_lookup_insert_Some; [done|by eapply Hc].
  - intros j op' met' l' [(_ & [= <- <- <-] & _)|[_ Hj]]%list_lookup_insert_Some;
      [done|by eapply Hc].
Qed.

Lemma ptr_step_inv cell m i e m' :
  ptr_inv cell m → ptr_step m i e = Some m' → ptr_inv cell m'.
Proof.
  intros Hinv. unfold ptr_step. destruct (callers m !! i) as [[|op met loaded]|] eqn:E; [..|done].
  - destruct e as [op|]; [|done]. intros [= <-]. apply ptr_continue_inv; [done|].
    destruct op; simpl; (done || by destruct (slot m)).
  - destruct e as [|sp]; [done|]. intros [= <-]. apply ptr_continue_inv; [done|].
    apply ptr_run_last. destruct Hinv as (_ & _ & Hc). by eapply Hc.
Qed.

(** C28: a shared pointer hands over ownership.  In every interleaving of calls of
    [try_reset], [try_spin_compare_and_reset], [try_spin_init] and [load] by any number
    of threads, each load and each exchange of their loops a step of its own and any
    exchange liable to fail spuriously: the pointers taken out are the ones put in,
    each of them once and in the order they came, and what is not yet taken out is in
    the cell; no call makes a [NonNull] of a null pointer, a reset fails on null only, a
    compared reset takes the pointer asked for or fails on another, and an
    initialisation succeeds on null only. *)
Theorem ptr_hands_over (cell : ptr) n es m :
  ptr_sched es (ptr_start cell n) = Some m →
  option_list cell ++ omap put (returns m) = omap taken (returns m) ++ option_list (slot m) ∧
  Forall fair_answer (returns m).
Proof.
  assert (ptr_inv cell (ptr_start cell n)) as Hinv.
  { split_and!; simpl; [done|by rewrite app_nil_r|].
    intros i op met loaded [? ?]%lookup_replicate_1. done. }
  revert Hinv. generalize (ptr_start cell n). induction es as [|[i e] es IH]; intros m0 Hinv; simpl.
  - intros [= <-]. by destruct Hinv as (? & ? & _).
  - destruct (ptr_step m0 i e) as [m1|] eqn:E; [|done]. apply IH. by eapply ptr_step_inv.
Qed.

(** One thread puts 5 in while the reset of another is under way, which then fails once
    spuriously, and takes the 9 that a third thread has exchanged for the 5. *)
Definition ptr_race : list (nat * ptr_event) :=
  [(0%nat, Invoke (Init 5)); (0%nat, Exchange false);
   (1%nat, Invoke Reset); (1%nat, Exchange true);
   (2%nat, Invoke (CompareAndReset 5)); (2%nat, Exchange false);
   (0%nat, Invoke (Init 9)); (0%nat, Exchange false);
   (1%nat, Exchange false); (1%nat, Exchange false); (2%nat, Invoke Load)].
Lemma ptr_hands_over_witness :
  ∃ m, ptr_sched ptr_race (ptr_start None 3) = Some m ∧
    omap put (returns m) = [5; 9] ∧ omap taken (returns m) = [5; 9] ∧ slot m = None ∧
    Forall fair_answer (returns m).
Proof.
  destruct (ptr_sched ptr_race (ptr_start None 3)) as [m|] eqn:E; [|discriminate E].
  pose proof (ptr_hands_over None 3 ptr_race m E) as [_ Hf].
  exists m. split; [reflexivity|]. vm_compute in E. injection E as <-.
  repeat (split; [reflexivity|]). exact Hf.
Defined.
