(* ===== verification/IoPos.v ===== *)
(** * The ring positions packed in one state word

    Models the state-word layout and [IoPos] of
    [crates/buffex/src/circular_buff/core_.rs]: two positions, the REVERSION
    bit and four flags share one [AtomicUsize].  The file ends with the
    refinement of the REVERSION scheme by two unbounded counters. *)

From S2P Require Import Prelude.

(** ** Layout *)

Definition RSV_BITS : Z := 8.
Definition TX_CLOSED : Z := Z.shiftl 1 (USIZE_BITS - 1).
Definition RX_CLOSED : Z := Z.shiftl 1 (USIZE_BITS - 2).
Definition TX_STNDBY : Z := Z.shiftl 1 (USIZE_BITS - 3).
Definition RX_STNDBY : Z := Z.shiftl 1 (USIZE_BITS - 4).
Definition REVERSION : Z := Z.shiftl 1 (USIZE_BITS - 5).
Definition FLAG_MASK : Z :=
  Z.lor (Z.lor (Z.lor (Z.lor TX_CLOSED RX_CLOSED) TX_STNDBY) RX_STNDBY) REVERSION.
Definition POS_BITS : Z := (USIZE_BITS - RSV_BITS) / 2.
Definition POS_MASK : Z := Z.shiftl 1 POS_BITS - 1.
Definition MIN_CAPACITY : Z := 2.
Definition MAX_CAPACITY : Z := POS_MASK.

(** Bitwise complement of a [usize]. *)
Definition usize_not (x : Z) : Z := Z.lxor x USIZE_MAX.

Definition has_flag (state flag : Z) : bool := negb (Z.land state flag =? 0).

Record IoPos : Type := mkIoPos {
  rv : bool;
  rp : Z;
  wp : Z;
  capacity_ : Z;
}.

(** [IoPos::MASK]: the bits of the state word this type owns. *)
Definition MASK : Z := Z.lor (Z.lor REVERSION POS_MASK) (Z.shiftl POS_MASK POS_BITS).

Definition unpack (state cap : Z) : IoPos :=
  let rp := Z.land state POS_MASK in
  let wp := Z.land (Z.shiftr state POS_BITS) POS_MASK in
  let rv := has_flag state REVERSION in
  {| rv := rv; rp := rp; wp := wp; capacity_ := cap |}.

Definition data_size (p : IoPos) : Z :=
  if rv p && (wp p =? rp p) then capacity_ p
  else (wp p + capacity_ p - rp p) mod capacity_ p.

Definition free_size (p : IoPos) : Z := capacity_ p - data_size p.

Definition pack (p : IoPos) (state : Z) : Z :=
  let s := Z.lor (Z.lor (Z.land state (usize_not MASK)) (rp p))
                 (Z.shiftl (wp p) POS_BITS) in
  if rv p then Z.lor s REVERSION else Z.land s (usize_not REVERSION).

Definition advance_wp (p : IoPos) (amount : Z) : IoPos :=
  let new_wp := wp p + amount in
  let crossed := capacity_ p <=? new_wp in
  {| rv := rv p || crossed;
     rp := rp p;
     wp := new_wp mod capacity_ p;
     capacity_ := capacity_ p |}.

Definition advance_rp (p : IoPos) (amount : Z) : IoPos :=
  let new_rp := rp p + amount in
  let crossed := capacity_ p <=? rp p + amount in
  {| rv := rv p && negb crossed;
     rp := new_rp mod capacity_ p;
     wp := wp p;
     capacity_ := capacity_ p |}.

(** ** Bits of the state word *)

Lemma testbit_pos_mask n : 0 ≤ n → Z.testbit POS_MASK n = (n <? POS_BITS).
Proof.
  intros. change POS_MASK with (Z.ones 28). change POS_BITS with 28.
  rewrite Z.testbit_ones by lia. destruct (Z.ltb_spec n 28); lia.
Qed.

Lemma testbit_high x n : is_usize x → USIZE_BITS ≤ n → Z.testbit x n = false.
Proof.
  unfold is_usize, USIZE_MAX, USIZE_BITS. intros Hx Hn.
  destruct (Z.eq_dec x 0) as [->|]; [apply Z.bits_0|].
  apply Z.bits_above_log2; [lia|].
  apply Z.log2_lt_pow2; [lia|].
  apply Z.lt_le_trans with (2 ^ 64); [lia|]. by apply Z.pow_le_mono_r.
Qed.

Lemma testbit_usize_not x n :
  0 ≤ n < USIZE_BITS → Z.testbit (usize_not x) n = negb (Z.testbit x n).
Proof.
  unfold usize_not, USIZE_BITS. intros. rewrite Z.lxor_spec.
  change USIZE_MAX with (Z.ones 64). rewrite Z.testbit_ones by lia.
  replace ((0 <=? n) && (n <? 64)) with true by lia. apply xorb_true_r.
Qed.

Lemma usize_of_testbit x :
  0 ≤ x → (∀ n, USIZE_BITS ≤ n → Z.testbit x n = false) → is_usize x.
Proof.
  intros Hx Hbits. unfold is_usize.
  assert (x < 2 ^ 64); [|unfold USIZE_MAX; lia].
  destruct (Z.lt_ge_cases x (2 ^ 64)); [done|exfalso].
  assert (64 ≤ Z.log2 x) by (apply Z.log2_le_pow2; lia).
  pose proof (Hbits (Z.log2 x) ltac:(unfold USIZE_BITS; lia)) as Hb.
  rewrite Z.bit_log2 in Hb by lia. done.
Qed.

Lemma pos_bits_high x n : 0 ≤ x ≤ POS_MASK → POS_BITS ≤ n → Z.testbit x n = false.
Proof.
  change POS_MASK with 268435455. change POS_BITS with 28. intros Hx Hn.
  destruct (Z.eq_dec x 0) as [->|]; [apply Z.bits_0|].
  apply Z.bits_above_log2; [lia|].
  apply Z.log2_lt_pow2; [lia|].
  apply Z.lt_le_trans with (2 ^ 28); [lia|]. by apply Z.pow_le_mono_r.
Qed.

Lemma has_flag_testbit s k :
  0 ≤ k → has_flag s (Z.shiftl 1 k) = Z.testbit s k.
Proof.
  intros Hk. unfold has_flag. by rewrite land_bit_eqb, negb_involutive.
Qed.

Lemma testbit_mask n :
  0 ≤ n → Z.testbit MASK n = (n <? 2 * POS_BITS) || (n =? 59).
Proof.
  intros Hn. unfold MASK. rewrite !Z.lor_spec, Z.shiftl_spec by done.
  unfold REVERSION. rewrite testbit_shiftl_1, testbit_pos_mask by done.
  change (USIZE_BITS - 5) with 59. change POS_BITS with 28.
  destruct (Z.lt_ge_cases n 28).
  - rewrite Z.testbit_neg_r by lia. lia.
  - rewrite testbit_pos_mask by lia. change POS_BITS with 28. lia.
Qed.

(** Positions that fit in their fields. *)
Definition pos_fits (p : IoPos) : Prop :=
  0 ≤ rp p ≤ POS_MASK ∧ 0 ≤ wp p ≤ POS_MASK.

(** The positions, before the reversion bit is set or cleared. *)
Lemma packed_positions_testbit p s n :
  pos_fits p → is_usize s → 0 ≤ n →
  Z.testbit (Z.lor (Z.lor (Z.land s (usize_not MASK)) (rp p)) (Z.shiftl (wp p) POS_BITS)) n =
    if n <? POS_BITS then Z.testbit (rp p) n
    else if n <? 2 * POS_BITS then Z.testbit (wp p) (n - POS_BITS)
    else if n =? 59 then false else Z.testbit s n.
Proof.
  intros [Hrp Hwp] Hs Hn.
  rewrite !Z.lor_spec, Z.land_spec, Z.shiftl_spec by done.
  destruct (Z.lt_ge_cases n USIZE_BITS) as [H64|H64].
  - rewrite testbit_usize_not, testbit_mask by lia.
    change POS_BITS with 28 in *. unfold USIZE_BITS in *.
    destruct (Z.ltb_spec n 28).
    + rewrite (Z.testbit_neg_r (wp p)) by lia.
      replace (n <? 2 * 28) with true by lia.
      by destruct (Z.testbit s n), (Z.testbit (rp p) n).
    + rewrite (pos_bits_high (rp p)) by done.
      destruct (Z.ltb_spec n (2 * 28)).
      * by destruct (Z.testbit s n), (Z.testbit (wp p) _).
      * rewrite (pos_bits_high (wp p)) by (done || change POS_BITS with 28; lia).
        by destruct (n =? 59), (Z.testbit s n).
  - rewrite (testbit_high s) by done. unfold USIZE_BITS in *.
    change POS_BITS with 28 in *.
    rewrite (pos_bits_high (rp p)), (pos_bits_high (wp p))
      by (done || change POS_BITS with 28; lia).
    replace (n <? 28) with false by lia. replace (n <? 2 * 28) with false by lia.
    by destruct (n =? 59).
Qed.

(** Every bit of a packed state word. *)
Lemma pack_testbit p s n :
  pos_fits p → is_usize s → 0 ≤ n →
  Z.testbit (pack p s) n =
    if n <? POS_BITS then Z.testbit (rp p) n
    else if n <? 2 * POS_BITS then Z.testbit (wp p) (n - POS_BITS)
    else if n =? 59 then rv p
    else Z.testbit s n.
Proof.
  intros Hp Hs Hn. pose proof (packed_positions_testbit p s n Hp Hs Hn) as Hbase.
  unfold pack. destruct (rv p).
  - rewrite Z.lor_spec, Hbase. unfold REVERSION. rewrite testbit_shiftl_1 by done.
    change (USIZE_BITS - 5) with 59. change POS_BITS with 28.
    destruct (Z.ltb_spec n 28); [replace (n =? 59) with false by lia; apply orb_false_r|].
    destruct (Z.ltb_spec n (2 * 28)); [replace (n =? 59) with false by lia; apply orb_false_r|].
    destruct (n =? 59); [done|apply orb_false_r].
  - rewrite Z.land_spec, Hbase.
    destruct (Z.lt_ge_cases n USIZE_BITS) as [H64|H64].
    + rewrite testbit_usize_not by lia. unfold REVERSION.
      rewrite testbit_shiftl_1 by done.
      change (USIZE_BITS - 5) with 59. change POS_BITS with 28.
      destruct (Z.ltb_spec n 28); [replace (n =? 59) with false by lia; apply andb_true_r|].
      destruct (Z.ltb_spec n (2 * 28)); [replace (n =? 59) with false by lia; apply andb_true_r|].
      destruct (n =? 59); [done|apply andb_true_r].
    + rewrite (testbit_high s) by done. unfold USIZE_BITS in *.
      change POS_BITS with 28.
      replace (n <? 28) with false by lia. replace (n <? 2 * 28) with false by lia.
      by destruct (n =? 59).
Qed.

Lemma pack_usize p s : pos_fits p → is_usize s → is_usize (pack p s).
Proof.
  intros Hp Hs. assert (Hs0 : 0 ≤ s) by (unfold is_usize in Hs; lia).
  apply usize_of_testbit.
  - destruct Hp. unfold pack. destruct (rv p).
    all: rewrite ?Z.lor_nonneg, ?Z.land_nonneg, ?Z.lor_nonneg, ?Z.shiftl_nonneg.
    all: rewrite ?Z.land_nonneg.
    + repeat split; try lia. by vm_compute.
    + left. repeat split; lia.
  - intros n Hn. rewrite pack_testbit by (done || unfold USIZE_BITS in *; lia).
    unfold USIZE_BITS in *. change POS_BITS with 28.
    replace (n <? 28) with false by lia. replace (n <? 2 * 28) with false by lia.
    replace (n =? 59) with false by lia. by apply testbit_high.
Qed.
#[export] Hint Resolve pack_usize : cantare.

Lemma unpack_rp_testbit s cap n :
  0 ≤ n → Z.testbit (rp (unpack s cap)) n = Z.testbit s n && (n <? POS_BITS).
Proof. intros. simpl. by rewrite Z.land_spec, testbit_pos_mask. Qed.

Lemma unpack_wp_testbit s cap n :
  0 ≤ n →
  Z.testbit (wp (unpack s cap)) n = Z.testbit s (n + POS_BITS) && (n <? POS_BITS).
Proof. intros. simpl. by rewrite Z.land_spec, Z.shiftr_spec, testbit_pos_mask. Qed.

Lemma unpack_rv_testbit s cap : rv (unpack s cap) = Z.testbit s 59.
Proof. simpl. unfold REVERSION. by rewrite has_flag_testbit. Qed.

(** Two words that agree on the owned bits unpack to the same positions. *)
Lemma unpack_ext s s' cap :
  (∀ n, 0 ≤ n → n < 2 * POS_BITS ∨ n = 59 → Z.testbit s n = Z.testbit s' n) →
  unpack s cap = unpack s' cap.
Proof.
  intros H.
  assert (Hrp : rp (unpack s cap) = rp (unpack s' cap)).
  { apply Z.bits_inj'. intros n Hn. rewrite !unpack_rp_testbit by done.
    destruct (Z.ltb_spec n POS_BITS); [|by rewrite !andb_false_r].
    rewrite H; [done|done|]. change POS_BITS with 28 in *. lia. }
  assert (Hwp : wp (unpack s cap) = wp (unpack s' cap)).
  { apply Z.bits_inj'. intros n Hn. rewrite !unpack_wp_testbit by done.
    destruct (Z.ltb_spec n POS_BITS); [|by rewrite !andb_false_r].
    rewrite H; [done|..]; change POS_BITS with 28 in *; lia. }
  assert (Hrv : rv (unpack s cap) = rv (unpack s' cap)).
  { rewrite !unpack_rv_testbit. apply H; lia. }
  unfold unpack in *; simpl in *. congruence.
Qed.

Lemma unpack_pack_fits p s cap :
  pos_fits p → is_usize s → capacity_ p = cap → unpack (pack p s) cap = p.
Proof.
  intros Hp Hs Hcap.
  assert (Hrp : rp (unpack (pack p s) cap) = rp p).
  { apply Z.bits_inj'. intros n Hn. rewrite unpack_rp_testbit, pack_testbit by done.
    destruct (Z.ltb_spec n POS_BITS) as [?|?]; [apply andb_true_r|].
    rewrite andb_false_r. symmetry. apply pos_bits_high; [apply Hp|done]. }
  assert (Hwp : wp (unpack (pack p s) cap) = wp p).
  { apply Z.bits_inj'. intros n Hn. rewrite unpack_wp_testbit by done.
    rewrite pack_testbit by (done || change POS_BITS with 28; lia).
    change POS_BITS with 28.
    replace (n + 28 <? 28) with false by lia.
    replace (n + 28 - 28) with n by lia.
    destruct (Z.ltb_spec n 28).
    - replace (n + 28 <? 2 * 28) with true by lia. apply andb_true_r.
    - rewrite andb_false_r. symmetry. apply pos_bits_high; [apply Hp|done]. }
  assert (Hrv : rv (unpack (pack p s) cap) = rv p).
  { by rewrite unpack_rv_testbit, pack_testbit. }
  destruct p. unfold unpack in *; simpl in *. congruence.
Qed.

(** Setting or clearing one of the four flags. *)
Definition is_state_flag (f : Z) : Prop :=
  f = TX_CLOSED ∨ f = RX_CLOSED ∨ f = TX_STNDBY ∨ f = RX_STNDBY.

Lemma state_flag_bit f :
  is_state_flag f → ∃ k, f = Z.shiftl 1 k ∧ 60 ≤ k < 64.
Proof.
  intros [-> | [-> | [-> | ->]]];
    [exists 63|exists 62|exists 61|exists 60]; (split; [done|lia]).
Qed.

Lemma unpack_set_flag f s cap :
  is_state_flag f → unpack (Z.lor s f) cap = unpack s cap.
Proof.
  intros (k & -> & Hk)%state_flag_bit. apply unpack_ext. intros n Hn Hb.
  rewrite Z.lor_spec, testbit_shiftl_1 by lia. change POS_BITS with 28 in *.
  replace (n =? k) with false by lia. apply orb_false_r.
Qed.

Lemma unpack_clear_flag f s cap :
  is_state_flag f → unpack (Z.land s (usize_not f)) cap = unpack s cap.
Proof.
  intros (k & -> & Hk)%state_flag_bit. apply unpack_ext. intros n Hn Hb.
  change POS_BITS with 28 in *.
  rewrite Z.land_spec, testbit_usize_not by (unfold USIZE_BITS; lia).
  rewrite testbit_shiftl_1 by lia.
  replace (n =? k) with false by lia. apply andb_true_r.
Qed.

Lemma has_flag_pack f p s :
  is_state_flag f → pos_fits p → is_usize s → has_flag (pack p s) f = has_flag s f.
Proof.
  intros (k & -> & Hk)%state_flag_bit Hp Hs.
  rewrite !has_flag_testbit, pack_testbit by (done || lia).
  change POS_BITS with 28. replace (k <? 28) with false by lia.
  replace (k <? 2 * 28) with false by lia. by replace (k =? 59) with false by lia.
Qed.

Lemma set_flag_usize f s : is_state_flag f → is_usize s → is_usize (Z.lor s f).
Proof.
  intros (k & -> & Hk)%state_flag_bit Hs. apply usize_of_testbit.
  - rewrite Z.lor_nonneg, Z.shiftl_nonneg. unfold is_usize in Hs. lia.
  - intros n Hn. rewrite Z.lor_spec, testbit_shiftl_1, testbit_high by (done || lia).
    unfold USIZE_BITS in Hn. lia.
Qed.

Lemma clear_flag_usize f s : is_usize s → is_usize (Z.land s (usize_not f)).
Proof.
  intros Hs. apply usize_of_testbit.
  - rewrite Z.land_nonneg. unfold is_usize in Hs. lia.
  - intros n Hn. by rewrite Z.land_spec, (testbit_high s).
Qed.
#[export] Hint Resolve set_flag_usize clear_flag_usize : cantare.

Lemma has_flag_set f g s :
  is_state_flag f → is_state_flag g →
  has_flag (Z.lor s f) g = has_flag s g || bool_decide (f = g).
Proof.
  intros (k & -> & Hk)%state_flag_bit (j & -> & Hj)%state_flag_bit.
  rewrite !has_flag_testbit, Z.lor_spec, testbit_shiftl_1 by lia. f_equal.
  destruct (Z.eqb_spec j k) as [->|Hne].
  - by rewrite bool_decide_eq_true_2.
  - rewrite bool_decide_eq_false_2; [done|]. intros Heq.
    apply (f_equal (λ x, Z.testbit x j)) in Heq.
    rewrite !testbit_shiftl_1 in Heq by lia.
    rewrite Z.eqb_refl in Heq. apply Z.eqb_neq in Hne. congruence.
Qed.

Lemma has_flag_clear f g s :
  is_state_flag f → is_state_flag g →
  has_flag (Z.land s (usize_not f)) g = has_flag s g && negb (bool_decide (f = g)).
Proof.
  intros (k & -> & Hk)%state_flag_bit (j & -> & Hj)%state_flag_bit.
  rewrite !has_flag_testbit, Z.land_spec by lia.
  rewrite testbit_usize_not, testbit_shiftl_1 by (unfold USIZE_BITS; lia). f_equal. f_equal.
  destruct (Z.eqb_spec j k) as [->|Hne].
  - by rewrite bool_decide_eq_true_2.
  - rewrite bool_decide_eq_false_2; [done|]. intros Heq.
    apply (f_equal (λ x, Z.testbit x j)) in Heq.
    rewrite !testbit_shiftl_1 in Heq by lia.
    rewrite Z.eqb_refl in Heq. apply Z.eqb_neq in Hne. congruence.
Qed.

(** ** Well-formed positions and their counter abstraction *)

(** The positions a ring of capacity [cap] may hold: physical indices, ordered
    as the REVERSION flag says. *)
Definition pos_wf (p : IoPos) : Prop :=
  MIN_CAPACITY ≤ capacity_ p ≤ MAX_CAPACITY ∧
  0 ≤ rp p < capacity_ p ∧ 0 ≤ wp p < capacity_ p ∧
  if rv p then wp p ≤ rp p else rp p ≤ wp p.

(** The abstract ring: [R] items read and [W] items written since the start. *)
Definition counters (cap R W : Z) : Prop := 0 ≤ R ≤ W ∧ W ≤ R + cap.

(** How the packed positions represent the two counters. *)
Definition represents (p : IoPos) (R W : Z) : Prop :=
  rp p = R mod capacity_ p ∧ wp p = W mod capacity_ p ∧
  rv p = negb (W / capacity_ p =? R / capacity_ p).

Lemma pos_wf_fits p : pos_wf p → pos_fits p.
Proof.
  unfold pos_wf, pos_fits, MAX_CAPACITY. intros (?&?&?&_). lia.
Qed.
#[export] Hint Resolve pos_wf_fits : cantare.

(** The quotients of the two counters differ by at most one. *)
Lemma counters_quotients cap R W :
  0 < cap → counters cap R W →
  (W / cap = R / cap ∧ R mod cap ≤ W mod cap) ∨
  (W / cap = R / cap + 1 ∧ W mod cap ≤ R mod cap).
Proof.
  intros Hcap [[HR HRW] HW].
  pose proof (Z.div_mod R cap ltac:(lia)) as HdR.
  pose proof (Z.div_mod W cap ltac:(lia)) as HdW.
  pose proof (Z.mod_pos_bound R cap Hcap).
  pose proof (Z.mod_pos_bound W cap Hcap).
  assert (R / cap ≤ W / cap) by (apply Z.div_le_mono; lia).
  assert (W / cap ≤ R / cap + 1).
  { transitivity ((R + 1 * cap) / cap); [apply Z.div_le_mono; lia|].
    rewrite Z.div_add by lia. lia. }
  destruct (Z.eq_dec (W / cap) (R / cap)) as [Heq|Hne].
  - left. split; [done|]. rewrite Heq in HdW. lia.
  - right. assert (Hs : W / cap = R / cap + 1) by lia. split; [done|].
    rewrite Hs in HdW. lia.
Qed.

Section representation.
Variables (p : IoPos) (R W : Z).
Hypothesis Hcap : MIN_CAPACITY ≤ capacity_ p ≤ MAX_CAPACITY.
Hypothesis Hcnt : counters (capacity_ p) R W.
Hypothesis Hrep : represents p R W.

Let cap := capacity_ p.

Local Lemma cap_pos : 0 < cap.
Proof. unfold cap, MIN_CAPACITY in *. lia. Qed.

Lemma represents_wf : pos_wf p.
Proof.
  pose proof cap_pos. destruct Hrep as (Hrp & Hwp & Hrv).
  pose proof (Z.mod_pos_bound R cap ltac:(done)).
  pose proof (Z.mod_pos_bound W cap ltac:(done)).
  unfold pos_wf. rewrite Hrp, Hwp, Hrv. fold cap.
  do 3 (split; [done|]).
  destruct (counters_quotients cap R W) as [[Hq ?]|[Hq ?]]; [done..| |].
  - by rewrite Hq, Z.eqb_refl.
  - by replace (W / cap =? R / cap) with false by lia.
Qed.

Lemma represents_data_size : data_size p = W - R.
Proof.
  pose proof cap_pos. destruct Hrep as (Hrp & Hwp & Hrv).
  unfold data_size. rewrite Hrp, Hwp, Hrv. fold cap.
  pose proof (Z.div_mod R cap ltac:(lia)) as HdR.
  pose proof (Z.div_mod W cap ltac:(lia)) as HdW.
  pose proof (Z.mod_pos_bound R cap ltac:(done)).
  pose proof (Z.mod_pos_bound W cap ltac:(done)).
  destruct (counters_quotients cap R W) as [[Hq ?]|[Hq ?]]; [done..| |].
  - rewrite Hq, Z.eqb_refl. cbn [negb andb]. rewrite Hq in HdW.
    replace (W mod cap + cap - R mod cap) with (W - R + 1 * cap) by lia.
    rewrite Z.mod_add by lia. apply Z.mod_small. lia.
  - replace (W / cap =? R / cap) with false by lia. cbn [negb andb].
    rewrite Hq in HdW.
    destruct (Z.eqb_spec (W mod cap) (R mod cap)); [lia|].
    replace (W mod cap + cap - R mod cap) with (W - R) by lia.
    apply Z.mod_small. lia.
Qed.

Lemma represents_advance_wp n :
  0 ≤ n ≤ free_size p →
  counters cap R (W + n) ∧ represents (advance_wp p n) R (W + n).
Proof.
  intros Hn. unfold free_size in Hn. rewrite represents_data_size in Hn.
  fold cap in Hn. pose proof cap_pos. destruct Hcnt as [[HR HRW] HW].
  fold cap in HW. split; [unfold counters; lia|].
  destruct Hrep as (Hrp & Hwp & Hrv).
  unfold represents, advance_wp; simpl. fold cap in Hrp, Hwp, Hrv |- *.
  split; [done|]. split; [by rewrite Hwp, Zplus_mod_idemp_l|].
  assert (Hdiv : (W + n) / cap = W / cap + (W mod cap + n) / cap).
  { rewrite (Z.div_mod W cap) at 1 by lia.
    replace (cap * (W / cap) + W mod cap + n)
      with ((W mod cap + n) + (W / cap) * cap) by lia.
    rewrite Z.div_add by lia. lia. }
  pose proof (Z.mod_pos_bound W cap ltac:(done)).
  assert (R / cap ≤ W / cap) by (apply Z.div_le_mono; lia).
  rewrite Hrv, Hwp. destruct (Z.leb_spec cap (W mod cap + n)) as [Hc|Hc].
  - rewrite orb_true_r.
    assert (1 ≤ (W mod cap + n) / cap) by (apply Z.div_le_lower_bound; lia).
    symmetry. apply negb_true_iff, Z.eqb_neq. lia.
  - rewrite orb_false_r, Hdiv, (Z.div_small (_ + n)) by lia.
    by rewrite Z.add_0_r.
Qed.

Lemma represents_advance_rp n :
  0 ≤ n ≤ data_size p →
  counters cap (R + n) W ∧ represents (advance_rp p n) (R + n) W.
Proof.
  intros Hn. rewrite represents_data_size in Hn.
  pose proof cap_pos. pose proof Hcnt as [[HR HRW] HW].
  fold cap in HW. split; [unfold counters; lia|].
  pose proof Hrep as (Hrp & Hwp & Hrv).
  unfold represents, advance_rp; simpl. fold cap in Hrp, Hwp, Hrv |- *.
  split; [by rewrite Hrp, Zplus_mod_idemp_l|]. split; [done|].
  assert (Hdiv : (R + n) / cap = R / cap + (R mod cap + n) / cap).
  { rewrite (Z.div_mod R cap) at 1 by lia.
    replace (cap * (R / cap) + R mod cap + n)
      with ((R mod cap + n) + (R / cap) * cap) by lia.
    rewrite Z.div_add by lia. lia. }
  pose proof (Z.mod_pos_bound R cap ltac:(done)).
  assert ((R + n) / cap ≤ W / cap) by (apply Z.div_le_mono; lia).
  rewrite Hrv, Hrp. destruct (Z.leb_spec cap (R mod cap + n)) as [Hc|Hc].
  - rewrite andb_false_r.
    assert (1 ≤ (R mod cap + n) / cap) by (apply Z.div_le_lower_bound; lia).
    destruct (counters_quotients cap R W) as [[Hq ?]|[Hq ?]]; [done..| |]; [lia|].
    symmetry. apply negb_false_iff, Z.eqb_eq. lia.
  - rewrite andb_true_r, Hdiv, (Z.div_small (_ + n)) by lia.
    by rewrite Z.add_0_r.
Qed.
End representation.

(** Every well-formed position represents some counters. *)
Lemma pos_wf_represents p :
  pos_wf p →
  counters (capacity_ p) (rp p) (wp p + if rv p then capacity_ p else 0) ∧
  represents p (rp p) (wp p + if rv p then capacity_ p else 0).
Proof.
  intros (Hcap & Hrp & Hwp & Hord). unfold MIN_CAPACITY in Hcap.
  unfold counters, represents. rewrite (Z.mod_small (rp p)) by lia.
  rewrite (Z.div_small (rp p)) by lia.
  destruct (rv p).
  - replace (wp p + capacity_ p) with (wp p + 1 * capacity_ p) by lia.
    rewrite Z.mod_add, Z.div_add, Z.mod_small, Z.div_small by lia.
    repeat split; lia.
  - rewrite Z.add_0_r, Z.mod_small, Z.div_small by lia. repeat split; lia.
Qed.

Lemma data_size_bounds p : pos_wf p → 0 ≤ data_size p ≤ capacity_ p.
Proof.
  intros Hwf. destruct (pos_wf_represents p Hwf) as [Hc Hr].
  rewrite (represents_data_size p _ _ (proj1 Hwf) Hc Hr).
  destruct Hc as [[??]?]. lia.
Qed.

(** The commits on well-formed positions. *)
Lemma pos_wf_advance_wp p n :
  pos_wf p → 0 ≤ n ≤ free_size p →
  pos_wf (advance_wp p n) ∧ data_size (advance_wp p n) = data_size p + n ∧
  free_size (advance_wp p n) = free_size p - n.
Proof.
  intros Hwf Hn. destruct (pos_wf_represents p Hwf) as [Hc Hr].
  pose proof (represents_data_size p _ _ (proj1 Hwf) Hc Hr) as Hd.
  destruct (represents_advance_wp p _ _ (proj1 Hwf) Hc Hr n Hn) as [Hc' Hr'].
  pose proof (represents_data_size (advance_wp p n) _ _ (proj1 Hwf) Hc' Hr') as Hd'.
  split; [by apply (represents_wf (advance_wp p n) _ _ (proj1 Hwf) Hc' Hr')|].
  unfold free_size. rewrite Hd'. simpl. lia.
Qed.

Lemma pos_wf_advance_rp p n :
  pos_wf p → 0 ≤ n ≤ data_size p →
  pos_wf (advance_rp p n) ∧ data_size (advance_rp p n) = data_size p - n ∧
  free_size (advance_rp p n) = free_size p + n.
Proof.
  intros Hwf Hn. destruct (pos_wf_represents p Hwf) as [Hc Hr].
  pose proof (represents_data_size p _ _ (proj1 Hwf) Hc Hr) as Hd.
  destruct (represents_advance_rp p _ _ (proj1 Hwf) Hc Hr n Hn) as [Hc' Hr'].
  pose proof (represents_data_size (advance_rp p n) _ _ (proj1 Hwf) Hc' Hr') as Hd'.
  split; [by apply (represents_wf (advance_rp p n) _ _ (proj1 Hwf) Hc' Hr')|].
  unfold free_size. rewrite Hd'. simpl. lia.
Qed.

(** ** Properties *)

(** Packing positions into a state word and unpacking them is the identity,
    the packed word is again a [usize], and the four flags of the base word (the
    two closing flags and the two standby flags) are kept as they were. *)
Theorem pack_unpack p s cap f :
  pos_wf p → capacity_ p = cap → is_usize s → is_state_flag f →
  unpack (pack p s) cap = p ∧ is_usize (pack p s) ∧
  has_flag (pack p s) f = has_flag s f.
Proof.
  intros Hp Hcap Hs Hf.
  split; [|split]; eauto using unpack_pack_fits, pos_wf_fits, pack_usize, has_flag_pack.
Qed.

Lemma pack_unpack_witness :
  let p := {| rv := true; rp := 6; wp := 2; capacity_ := 8 |} in
  unpack (pack p TX_CLOSED) 8 = p ∧ is_usize (pack p TX_CLOSED) ∧
  has_flag (pack p TX_CLOSED) TX_CLOSED = has_flag TX_CLOSED TX_CLOSED.
Proof.
  apply pack_unpack; [by vm_compute|done|by vm_compute|by left].
Defined.

(** C5: the REVERSION scheme implements two unbounded counters.  If the packed
    positions represent [R] items read and [W] items written, then the data size
    is [W - R], the free size is the rest of the capacity (so every slot of the
    ring is usable), committing a write of at most the free size represents
    [W + n] and committing a read of at most the data size represents [R + n]. *)
Theorem reversion_refines_counters p R W :
  MIN_CAPACITY ≤ capacity_ p ≤ MAX_CAPACITY →
  counters (capacity_ p) R W → represents p R W →
  pos_wf p ∧ data_size p = W - R ∧ free_size p = capacity_ p - (W - R) ∧
  (∀ n, 0 ≤ n ≤ free_size p →
        counters (capacity_ p) R (W + n) ∧ represents (advance_wp p n) R (W + n)) ∧
  (∀ n, 0 ≤ n ≤ data_size p →
        counters (capacity_ p) (R + n) W ∧ represents (advance_rp p n) (R + n) W).
Proof.
  intros Hcap Hcnt Hrep.
  pose proof (represents_data_size p R W Hcap Hcnt Hrep) as Hd.
  split; [by eapply represents_wf|]. split; [done|].
  split; [unfold free_size; lia|].
  split; intros n Hn; [by apply represents_advance_wp|by apply represents_advance_rp].
Qed.

Lemma reversion_refines_counters_witness :
  let p := {| rv := true; rp := 3; wp := 3; capacity_ := 5 |} in
  pos_wf p ∧ data_size p = 18 - 13 ∧ free_size p = 0.
Proof.
  assert (H1 : MIN_CAPACITY ≤ 5 ≤ MAX_CAPACITY) by by vm_compute.
  assert (H2 : counters 5 13 18) by (unfold counters; lia).
  assert (H3 : represents {| rv := true; rp := 3; wp := 3; capacity_ := 5 |} 13 18)
    by by vm_compute.
  destruct (reversion_refines_counters (mkIoPos true 3 3 5) 13 18 H1 H2 H3) as (Hw & Hd & Hf & _).
  split; [exact Hw|]. split; [exact Hd|]. exact Hf.
Defined.
