(* ===== verification/Segm.v ===== *)
(** * Segments lent by a buffer

    Models [SegmRef] / [SegmMut] ([crates/abs_buff/src/buffer/segm_.rs]) and the
    two-piece segments [ReclSliceMut] / [ReclSliceRef] of the circular buffer
    ([crates/buffex/src/circular_buff/reclaim_.rs]).

    All segments are views on one shared memory: a slice is a start index and a
    length, and the memory maps an index to the item stored there ([None] is
    [MaybeUninit::uninit]).  The read and the write flavour have the same
    shape and the same bookkeeping, so one record serves both. *)

From S2P Require Import Prelude Demand.

(** [&buffer[s_start .. s_start + s_len]]. *)
Record slice : Type := Slice { s_start : Z; s_len : Z }.

(** [&s[k..]] and [&s[..k]]; out of range is a panic. *)
Definition slice_from (s : slice) (k : Z) : outcome slice :=
  if decide (0 ≤ k ≤ s_len s) then Ret (Slice (s_start s + k) (s_len s - k))
  else Panic.
Definition slice_to (s : slice) (k : Z) : outcome slice :=
  if decide (0 ≤ k ≤ s_len s) then Ret (Slice (s_start s) k) else Panic.

(** ** [SegmRef] / [SegmMut]: one contiguous slice *)

Module Segm.

Record t : Type := mk { buffer_ : slice; offset_ : Z }.

Definition new (buffer : slice) : t := mk buffer 0.
Definition least_count (s : t) : Z := s_len (buffer_ s) - offset_ s.
Definition is_empty (s : t) : bool := least_count s =? 0.

(** [iter_slices]: a view; nothing is consumed. *)
Definition iter_slices (s : t) : option slice :=
  let len := s_len (buffer_ s) - offset_ s in
  if len =? 0 then None
  else Some (Slice (s_start (buffer_ s) + offset_ s) len).

(** [as_segm_ref] / [as_segm_mut]: a child over the unconsumed part. *)
Definition as_segm (s : t) : outcome t :=
  new <$> slice_from (buffer_ s) (offset_ s).

(** [SegmReclaim::reclaim], run when a child segment is dropped: the parent
    offset grows by what the child consumed. *)
Definition reclaim (parent_offset amount : Z) : Z := parent_offset + amount.
Definition drop_child (parent child : t) : t :=
  mk (buffer_ parent) (reclaim (offset_ parent) (offset_ child)).

(** [take_segm_ref] / [take_segm_mut]. *)
Definition take_segm (s : t) (demand : Demand) : outcome (option t) :=
  let c := least_count s in
  if c =? 0 then Ret None
  else
    agreement ← compromise demand (less_than c);
    match agreement with
    | None => Ret None
    | Some agreement =>
        match max agreement with
        | None => Ret None
        | Some max_len =>
            rest ← slice_from (buffer_ s) (offset_ s);
            dst ← slice_to rest max_len;
            Ret (Some (new dst))
        end
    end.

Section items.
Context {T : Type}.

(** Store the items of [src] from index [i] on, one slot after the other. *)
Fixpoint store (mem : gmap Z T) (i : Z) (src : list T) : gmap Z T :=
  match src with
  | [] => mem
  | x :: src' => store (<[i := x]> mem) (i + 1) src'
  end.

(** Read [n] items from index [i] on; [None] when one is uninitialised. *)
Fixpoint fetch (mem : gmap Z T) (i : Z) (n : nat) : option (list T) :=
  match n with
  | O => Some []
  | S n' => x ← mem !! i; xs ← fetch mem (i + 1) n'; Some (x :: xs)
  end.

(** [SegmMut::move_items_from_buff] and [clone_items_from_buff]: both copy
    [min(room, source)] items and advance the offset by that count. *)
Definition move_items_from_buff (mem : gmap Z T) (s : t) (source : list T) :
    gmap Z T * t * Z :=
  let count := Z.min (least_count s) (Z.of_nat (length source)) in
  if count =? 0 then (mem, s, 0)
  else (store mem (s_start (buffer_ s) + offset_ s) (take (Z.to_nat count) source),
        mk (buffer_ s) (offset_ s + count), count).

(** [SegmRef::move_items_to_buff] into a buffer of [dst_size] items; [None]
    when it would read an uninitialised slot. *)
Definition move_items_to_buff (mem : gmap Z T) (s : t) (dst_size : Z) :
    option (list T * t * Z) :=
  let count := Z.min dst_size (least_count s) in
  if count =? 0 then Some ([], s, 0)
  else items ← fetch mem (s_start (buffer_ s) + offset_ s) (Z.to_nat count);
       Some (items, mk (buffer_ s) (offset_ s + count), count).

(** [SegmRef::clone_items_to_buff]: the same copy, the offset unchanged. *)
Definition clone_items_to_buff (mem : gmap Z T) (s : t) (dst_size : Z) :
    option (list T * Z) :=
  let count := Z.min dst_size (least_count s) in
  if count =? 0 then Some ([], 0)
  else items ← fetch mem (s_start (buffer_ s) + offset_ s) (Z.to_nat count);
       Some (items, count).

(** [SegmRef::move_items_to_segm] / [SegmMut::move_items_from_segm]. *)
Definition move_items_to_segm (smem : gmap Z T) (src : t)
    (tmem : gmap Z T) (target : t) : option (t * gmap Z T * t * Z) :=
  '(items, src', count) ← move_items_to_buff smem src (least_count target);
  let tmem' := store tmem (s_start (buffer_ target) + offset_ target) items in
  Some (src', tmem', mk (buffer_ target) (offset_ target + count), count).
End items.

Definition wf (s : t) : Prop :=
  0 ≤ s_len (buffer_ s) ∧ 0 ≤ offset_ s ≤ s_len (buffer_ s).
End Segm.

(** ** [ReclSliceMut] / [ReclSliceRef]: one logical segment, two pieces *)

Module Recl.

(** [SegmSlicesMut] / [SegmSlicesRef]. *)
Inductive SegmSlices : Type :=
| One (a : slice)
| Two (a b : slice).

Definition len (p : SegmSlices) : Z :=
  match p with One a => s_len a | Two a b => s_len a + s_len b end.

(** [current_mut] / [current]: what is left of the physical piece that holds
    the offset. *)
Definition current (p : SegmSlices) (offset : Z) : outcome slice :=
  match p with
  | One a => slice_from a offset
  | Two a b =>
      let la := s_len a in
      if offset <? la then slice_from a offset else slice_from b (offset - la)
  end.

(** [remaining_mut] / [remaining_ref]: what is left, as two slices. *)
Definition remaining (p : SegmSlices) (offset : Z) : outcome (slice * slice) :=
  let nil := Slice 0 0 in
  match p with
  | One a => (λ s, (s, nil)) <$> slice_from a offset
  | Two a b =>
      let la := s_len a in
      if offset <? la then (λ s, (s, b)) <$> slice_from a offset
      else (λ s, (s, nil)) <$> slice_from b (offset - la)
  end.

Record t : Type := mk { pieces : SegmSlices; offset_ : Z }.

Definition new (pieces : SegmSlices) : t := mk pieces 0.
Definition least_count (s : t) : Z := len (pieces s) - offset_ s.
Definition is_empty (s : t) : bool := least_count s =? 0.
Definition capacity (s : t) : Z := len (pieces s).

(** [iter_slices]: the non-empty remaining pieces, in order; a view. *)
Definition iter_slices (s : t) : outcome (list slice) :=
  (λ '(a, b), filter (λ p, s_len p ≠ 0) [a; b]) <$> remaining (pieces s) (offset_ s).

Definition as_segm (s : t) : outcome Segm.t :=
  Segm.new <$> current (pieces s) (offset_ s).

Definition drop_child (s : t) (child : Segm.t) : t :=
  mk (pieces s) (Segm.reclaim (offset_ s) (Segm.offset_ child)).

Definition take_segm (s : t) (demand : Demand) : outcome (option Segm.t) :=
  let c := least_count s in
  if c =? 0 then Ret None
  else
    agreement ← compromise demand (less_than c);
    match agreement with
    | None => Ret None
    | Some agreement =>
        match max agreement with
        | None => Ret None
        | Some max_len =>
            cur ← current (pieces s) (offset_ s);
            let take := Z.min max_len (s_len cur) in
            sl ← slice_to cur take;
            Ret (Some (Segm.new sl))
        end
    end.

Section items.
Context {T : Type}.

(** [TrBuffSegmMut::move_items_from_buff] for the two-piece segment: lend a
    child over the current piece, fill it, drop it, until the segment or the
    source is exhausted.  [None]: the rounds given were not enough. *)
Fixpoint move_items_from_buff (fuel : nat) (mem : gmap Z T) (s : t)
    (src : list T) : option (outcome (gmap Z T * t * Z)) :=
  if (0 <? least_count s) && bool_decide (src ≠ []) then
    match fuel with
    | O => None
    | S fuel' =>
        match as_segm s with
        | Panic => Some Panic
        | Ret segm =>
            let '(mem', segm', n) := Segm.move_items_from_buff mem segm src in
            match move_items_from_buff fuel' mem' (drop_child s segm')
                    (drop (Z.to_nat n) src) with
            | None => None
            | Some Panic => Some Panic
            | Some (Ret (mem'', s', c)) => Some (Ret (mem'', s', n + c))
            end
        end
    end
  else Some (Ret (mem, s, 0)).

(** [TrBuffSegmRef::move_items_to_buff], same loop on the reading side, into
    a buffer of [size] items; the inner [None] is a read of an uninitialised
    slot. *)
Fixpoint move_items_to_buff (fuel : nat) (mem : gmap Z T) (s : t) (size : Z) :
    option (outcome (option (list T * t))) :=
  if (0 <? least_count s) && (0 <? size) then
    match fuel with
    | O => None
    | S fuel' =>
        match as_segm s with
        | Panic => Some Panic
        | Ret segm =>
            match Segm.move_items_to_buff mem segm size with
            | None => Some (Ret None)
            | Some (items, segm', n) =>
                match move_items_to_buff fuel' mem (drop_child s segm') (size - n) with
                | Some (Ret (Some (rest, s'))) =>
                    Some (Ret (Some (items ++ rest, s')))
                | other => other
                end
            end
        end
    end
  else Some (Ret (Some ([], s))).
End items.

Definition slice_ok (p : SegmSlices) : Prop :=
  match p with One a => 0 ≤ s_len a | Two a b => 0 ≤ s_len a ∧ 0 ≤ s_len b end.
Definition wf (s : t) : Prop := slice_ok (pieces s) ∧ 0 ≤ offset_ s ≤ len (pieces s).

(** The physical index of the [k]-th logical item. *)
Definition index (p : SegmSlices) (k : Z) : Z :=
  match p with
  | One a => s_start a + k
  | Two a b => if k <? s_len a then s_start a + k else s_start b + (k - s_len a)
  end.
End Recl.

(** The two flavours of each segment, by the names of the source: the code of the
    writing and of the reading side differs in the element type only. *)

Module SegmMut.
Definition t : Type := Segm.t.
Definition new : slice → t := Segm.new.
Definition least_count : t → Z := Segm.least_count.
Definition is_empty : t → bool := Segm.is_empty.
Definition iter_slices : t → option slice := Segm.iter_slices.
Definition as_segm_mut : t → outcome t := Segm.as_segm.
Definition take_segm_mut : t → Demand → outcome (option t) := Segm.take_segm.
Definition move_items_from_segm {T} (mem : gmap Z T) (target : t)
    (smem : gmap Z T) (source : Segm.t) : option (Segm.t * gmap Z T * t * Z) :=
  Segm.move_items_to_segm smem source mem target.
Definition clone_items_from_buff {T} :
    gmap Z T → t → list T → gmap Z T * t * Z := Segm.move_items_from_buff.
Definition drop : t → t → t := Segm.drop_child.
End SegmMut.

Module ReclSliceRef.
Definition slices : Type := Recl.SegmSlices.
Definition t : Type := Recl.t.
Definition new : slices → t := Recl.new.
Definition least_count : t → Z := Recl.least_count.
Definition is_empty : t → bool := Recl.is_empty.
Definition capacity : t → Z := Recl.capacity.
Definition slices_len : slices → Z := Recl.len.
Definition current : slices → Z → outcome slice := Recl.current.
Definition remaining_ref : slices → Z → outcome (slice * slice) := Recl.remaining.
Definition iter_slices : t → outcome (list slice) := Recl.iter_slices.
Definition as_segm_ref : t → outcome Segm.t := Recl.as_segm.
Definition take_segm_ref : t → Demand → outcome (option Segm.t) := Recl.take_segm.
End ReclSliceRef.

(** ** Lemmas on stored items *)

Section store.
Context {T : Type}.
Implicit Types (mem : gmap Z T) (src : list T).

Lemma store_lookup src : ∀ mem i j,
  Segm.store mem i src !! j =
    if decide (i ≤ j < i + Z.of_nat (length src)) then src !! Z.to_nat (j - i)
    else mem !! j.
Proof.
  induction src as [|x src IH]; intros mem i j; simpl.
  - case_decide; [lia|done].
  - rewrite IH. destruct (decide (j = i)) as [->|Hne].
    + rewrite decide_False by lia. rewrite lookup_insert_eq.
      rewrite decide_True by lia. by rewrite Z.sub_diag.
    + rewrite lookup_insert_ne by done.
      repeat case_decide; try lia; [|done].
      replace (Z.to_nat (j - i)) with (S (Z.to_nat (j - (i + 1)))) by lia. done.
Qed.

Lemma fetch_Some mem n : ∀ i xs,
  Segm.fetch mem i n = Some xs ↔
  length xs = n ∧ ∀ k, (k < n)%nat → mem !! (i + Z.of_nat k) = xs !! k.
Proof.
  induction n as [|n IH]; intros i xs; simpl.
  - split; [intros [= <-]; split; [done|lia]|].
    by intros [->%nil_length_inv _].
  - split.
    + destruct (mem !! i) as [x|] eqn:Hx; [|done]. simpl.
      destruct (Segm.fetch mem (i + 1) n) as [ys|] eqn:Hy; [|done].
      intros [= <-]. apply IH in Hy as [Hlen Hy]. simpl. split; [lia|].
      intros [|k] Hk; [by rewrite Z.add_0_r|]. simpl.
      rewrite <- Hy by lia. f_equal. lia.
    + intros [Hlen H]. destruct xs as [|x ys]; [done|].
      pose proof (H 0%nat ltac:(lia)) as H0. rewrite Z.add_0_r in H0. simpl in H0.
      rewrite H0. simpl.
      replace (Segm.fetch mem (i + 1) n) with (Some ys); [done|].
      symmetry. apply IH. simpl in Hlen. split; [lia|]. intros k Hk.
      specialize (H (S k) ltac:(lia)). simpl in H. rewrite <- H. f_equal. lia.
Qed.
End store.

(** ** The content of a logical range *)

(** Distinct logical items of the segment have distinct physical slots. *)
Definition index_inj (p : Recl.SegmSlices) : Prop :=
  ∀ i j, 0 ≤ i < Recl.len p → 0 ≤ j < Recl.len p →
         Recl.index p i = Recl.index p j → i = j.

(** [mem'] is [mem] with [xs] written in the slots of the segment [p], from its
    logical position [o] on. *)
Definition filled {T} (mem mem' : gmap Z T) (p : Recl.SegmSlices) (o : Z) (xs : list T) :
    Prop :=
  (∀ k, 0 ≤ k < Z.of_nat (length xs) →
     mem' !! Recl.index p (o + k) = xs !! Z.to_nat k) ∧
  (∀ j, (∀ k, 0 ≤ k < Z.of_nat (length xs) → j ≠ Recl.index p (o + k)) →
     mem' !! j = mem !! j).

(** The slots of the segment [p] hold [xs] from its logical position [o] on. *)
Definition holds {T} (mem : gmap Z T) (p : Recl.SegmSlices) (o : Z) (xs : list T) : Prop :=
  ∀ k, 0 ≤ k < Z.of_nat (length xs) → mem !! Recl.index p (o + k) = xs !! Z.to_nat k.

Lemma filled_nil {T} (mem : gmap Z T) p o : filled mem mem p o [].
Proof. split; [intros k Hk; simpl in Hk; lia|done]. Qed.

Lemma filled_app {T} (m m1 m2 : gmap Z T) p o xs ys :
  index_inj p → 0 ≤ o → o + Z.of_nat (length xs) + Z.of_nat (length ys) ≤ Recl.len p →
  filled m m1 p o xs → filled m1 m2 p (o + Z.of_nat (length xs)) ys →
  filled m m2 p o (xs ++ ys).
Proof.
  intros Hinj Ho Hlen [Hin1 Hout1] [Hin2 Hout2].
  unfold filled. rewrite length_app, Nat2Z.inj_add. split.
  - intros k Hk. destruct (Z.lt_ge_cases k (Z.of_nat (length xs))).
    + rewrite Hout2.
      * rewrite Hin1, lookup_app_l by lia. done.
      * intros k' Hk' Heq. apply Hinj in Heq; lia.
    + rewrite lookup_app_r by lia. set (k' := k - Z.of_nat (length xs)).
      replace (o + k) with (o + Z.of_nat (length xs) + k') by (unfold k'; lia).
      rewrite Hin2 by (unfold k'; lia). f_equal. unfold k'. lia.
  - intros j Hj. rewrite Hout2, Hout1; [done|..]; intros k Hk.
    + apply Hj. lia.
    + rewrite <- Z.add_assoc. apply Hj. lia.
Qed.

Lemma holds_drop {T} (mem : gmap Z T) p o n xs :
  0 ≤ n → holds mem p o xs → holds mem p (o + n) (drop (Z.to_nat n) xs).
Proof.
  intros Hn Hh k Hk. rewrite length_drop in Hk. rewrite <- Z.add_assoc, Hh by lia.
  rewrite lookup_drop. f_equal. lia.
Qed.

Lemma filled_holds {T} (mem mem' : gmap Z T) p o xs :
  filled mem mem' p o xs → holds mem' p o xs.
Proof. intros [Hin _]. exact Hin. Qed.

Lemma holds_app {T} (mem : gmap Z T) p o xs ys :
  holds mem p o (xs ++ ys) ↔ holds mem p o xs ∧ holds mem p (o + Z.of_nat (length xs)) ys.
Proof.
  unfold holds. rewrite length_app. split.
  - intros H. split; intros k Hk.
    + rewrite H, lookup_app_l by lia. done.
    + replace (o + Z.of_nat (length xs) + k) with (o + (Z.of_nat (length xs) + k)) by lia.
      rewrite H, lookup_app_r by lia. f_equal. lia.
  - intros [Hx Hy] k Hk. destruct (Z.lt_ge_cases k (Z.of_nat (length xs))) as [Hlt|Hge].
    + rewrite Hx, lookup_app_l by lia. done.
    + replace (o + k) with (o + Z.of_nat (length xs) + (k - Z.of_nat (length xs))) by lia.
      rewrite Hy, lookup_app_r by lia. f_equal. lia.
Qed.

(** The segment lends the contiguous slots from [b] on for its items from [o] on. *)
Definition contiguous (p : Recl.SegmSlices) (o b r : Z) : Prop :=
  ∀ k, 0 ≤ k < r → Recl.index p (o + k) = b + k.

Lemma store_filled {T} (mem : gmap Z T) p o b xs :
  contiguous p o b (Z.of_nat (length xs)) → filled mem (Segm.store mem b xs) p o xs.
Proof.
  intros Hidx. split.
  - intros k Hk. rewrite Hidx, store_lookup, decide_True by lia. f_equal. lia.
  - intros j Hj. rewrite store_lookup, decide_False; [done|]. intros Hbj.
    apply (Hj (j - b)); [lia|]. rewrite Hidx by lia. lia.
Qed.

Lemma fetch_holds {T} (mem : gmap Z T) p o b xs :
  contiguous p o b (Z.of_nat (length xs)) → holds mem p o xs →
  Segm.fetch mem b (length xs) = Some xs.
Proof.
  intros Hidx H. apply fetch_Some. split; [done|]. intros k Hk.
  rewrite <- Hidx, H by lia. by rewrite Nat2Z.id.
Qed.

(** ** The loops of the two-piece segments *)

Section recl.
Context {T : Type}.
Implicit Types (mem : gmap Z T) (s : Recl.t) (src : list T).

(** Pieces not exhausted yet: the rounds the loops need. *)
Definition pieces_left (s : Recl.t) : nat :=
  match Recl.pieces s with
  | Recl.One _ => 1
  | Recl.Two a _ => if Recl.offset_ s <? s_len a then 2 else 1
  end.

Lemma pieces_left_bound s : (pieces_left s ≤ 2)%nat.
Proof. unfold pieces_left. destruct (Recl.pieces s); [lia|]. case_tests; lia. Qed.

(** The child lent in one round: non-empty, contiguous, and after it the
    segment is exhausted or moves on to its second piece. *)
Lemma as_segm_round s :
  Recl.wf s → 0 < Recl.least_count s →
  ∃ b r, Recl.as_segm s = Ret (Segm.mk (Slice b r) 0) ∧
    0 < r ≤ Recl.least_count s ∧
    contiguous (Recl.pieces s) (Recl.offset_ s) b r ∧
    (r = Recl.least_count s ∨
     (pieces_left (Recl.mk (Recl.pieces s) (Recl.offset_ s + r)) < pieces_left s)%nat).
Proof.
  destruct s as [p o]. unfold Recl.wf, Recl.least_count, Recl.as_segm, pieces_left, contiguous; simpl.
  intros [Hok Ho] Hlc. destruct p as [a|a b]; simpl in *.
  - unfold slice_from. rewrite decide_True by lia.
    eexists _, _; split; [done|]. split; [lia|]. split; [intros; lia|left; lia].
  - destruct (Z.ltb_spec o (s_len a)).
    + unfold slice_from. rewrite decide_True by lia.
      eexists _, _; split; [done|]. split; [lia|]. split.
      * intros k Hk. replace (o + k <? s_len a) with true by lia. lia.
      * right. replace (o + (s_len a - o) <? s_len a) with false by lia. lia.
    + unfold slice_from. rewrite decide_True by lia.
      eexists _, _; split; [done|]. split; [lia|]. split.
      * intros k Hk. replace (o + k <? s_len a) with false by lia. lia.
      * left. lia.
Qed.

Lemma recl_advance_wf s n :
  Recl.wf s → 0 ≤ n ≤ Recl.least_count s →
  Recl.wf (Recl.mk (Recl.pieces s) (Recl.offset_ s + n)).
Proof. unfold Recl.wf, Recl.least_count. simpl. intros [? ?] ?. split; [done|lia]. Qed.

Lemma wf_room s : Recl.wf s → 0 ≤ Recl.offset_ s ∧ 0 ≤ Recl.least_count s ∧
  Recl.offset_ s + Recl.least_count s = Recl.len (Recl.pieces s).
Proof. unfold Recl.wf, Recl.least_count. lia. Qed.

Lemma pieces_left_pos s : (1 ≤ pieces_left s)%nat.
Proof. unfold pieces_left. destruct (Recl.pieces s); [lia|]. case_tests; lia. Qed.

(** The segment after [n] more items. *)
Definition advance s (n : Z) : Recl.t := Recl.mk (Recl.pieces s) (Recl.offset_ s + n).

Lemma drop_child_advance s b r n : Recl.drop_child s (Segm.mk (Slice b r) n) = advance s n.
Proof. done. Qed.
Lemma advance_0 s : advance s 0 = s.
Proof. unfold advance. rewrite Z.add_0_r. by destruct s. Qed.
Lemma advance_advance s n m : advance (advance s n) m = advance s (n + m).
Proof. unfold advance. simpl. by rewrite Z.add_assoc. Qed.
Lemma least_count_advance s n : Recl.least_count (advance s n) = Recl.least_count s - n.
Proof. unfold Recl.least_count, advance. simpl. lia. Qed.

(** The rounds of both loops: [r] items are lent, [m] of them moved, and either the
    move is over or the next piece is entered. *)
Lemma round_fuel s r m n fuel :
  (r = Recl.least_count s ∨ (pieces_left (advance s r) < pieces_left s)%nat) →
  (pieces_left s ≤ S fuel)%nat → 0 < r ≤ Recl.least_count s → n ≤ Recl.least_count s →
  m = Z.min r n → m = n ∨ m < n ∧ (pieces_left (advance s m) ≤ fuel)%nat.
Proof.
  intros Hnext Hf Hr Hn ->. destruct (Z.le_gt_cases n r); [left; lia|right].
  split; [lia|]. replace (Z.min r n) with r by lia. destruct Hnext; lia.
Qed.

Lemma move_from_buff_stop fuel mem s src :
  Recl.least_count s ≤ 0 ∨ src = [] →
  Recl.move_items_from_buff fuel mem s src = Some (Ret (mem, s, 0)).
Proof.
  intros Hz. destruct fuel; simpl; (destruct (Z.ltb_spec 0 (Recl.least_count s));
    [|done]; destruct Hz as [?| ->]; [lia|by rewrite bool_decide_eq_false_2 by naive_solver]).
Qed.

Lemma from_buff_round mem b r src :
  src ≠ [] → 0 < r →
  let m := Z.min r (Z.of_nat (length src)) in
  Segm.move_items_from_buff mem (Segm.mk (Slice b r) 0) src =
    (Segm.store mem b (take (Z.to_nat m) src), Segm.mk (Slice b r) m, m).
Proof.
  intros Hne Hr m. assert (0 < Z.of_nat (length src)) by (destruct src; [done|simpl; lia]).
  unfold Segm.move_items_from_buff, Segm.least_count. simpl.
  rewrite Z.sub_0_r, Z.add_0_r. fold m. by rewrite (proj2 (Z.eqb_neq m 0)) by lia.
Qed.

Lemma move_from_buff_loop fuel : ∀ mem s src,
  Recl.wf s → index_inj (Recl.pieces s) → (pieces_left s ≤ fuel)%nat →
  let n := Z.min (Recl.least_count s) (Z.of_nat (length src)) in
  ∃ mem', Recl.move_items_from_buff fuel mem s src = Some (Ret (mem', advance s n, n)) ∧
    filled mem mem' (Recl.pieces s) (Recl.offset_ s) (take (Z.to_nat n) src).
Proof.
  induction fuel as [|fuel IH]; intros mem s src Hwf Hinj Hfuel n;
    pose proof (pieces_left_pos s); [lia|].
  destruct (wf_room s Hwf) as (Ho & Hlc & Hcap).
  destruct (decide (n = 0)) as [Hn0|Hn0].
  { exists mem. rewrite Hn0, advance_0. split; [|apply filled_nil].
    apply move_from_buff_stop. destruct src; [by right|left; simpl in n; lia]. }
  assert (Hpos : 0 < Recl.least_count s) by lia.
  assert (Hne : src ≠ []) by (intros ->; simpl in n; lia).
  destruct (as_segm_round s Hwf Hpos) as (b & r & Hs & Hr & Hidx & Hnext).
  simpl Recl.move_items_from_buff. rewrite (proj2 (Z.ltb_lt _ _) Hpos).
  rewrite bool_decide_eq_true_2 by done. cbn [andb]. rewrite Hs, from_buff_round by (done || lia).
  set (m := Z.min r (Z.of_nat (length src))). rewrite drop_child_advance.
  destruct (round_fuel s r m n fuel Hnext Hfuel Hr) as [Hend|[Hmn Hleft]]; [lia|lia|..].
  - rewrite move_from_buff_stop by (rewrite least_count_advance; destruct (decide (drop (Z.to_nat m) src = []));
      [by right|left; assert (length (drop (Z.to_nat m) src) ≠ 0%nat) by (by rewrite length_zero_iff_nil);
       rewrite length_drop in *; lia]).
    rewrite Hend, Z.add_0_r. eexists. split; [done|]. apply store_filled.
    intros k Hk. apply Hidx. rewrite length_take in Hk. lia.
  - destruct (IH (Segm.store mem b (take (Z.to_nat m) src)) (advance s m) (drop (Z.to_nat m) src))
      as (mem' & Heq & Hfill); [apply recl_advance_wf; [done|lia]|done|done|].
    rewrite least_count_advance, length_drop, advance_advance in *.
    replace (Z.min _ _) with (n - m) in Heq, Hfill by lia.
    rewrite Heq, Zplus_minus. exists mem'. split; [done|].
    replace (take (Z.to_nat n) src) with
      (take (Z.to_nat m) src ++ take (Z.to_nat (n - m)) (drop (Z.to_nat m) src))
      by (rewrite take_take_drop; f_equal; lia).
    assert (Hlm : Z.of_nat (length (take (Z.to_nat m) src)) = m) by (rewrite length_take; lia).
    eapply filled_app; [done|done| | |by rewrite Hlm].
    + rewrite Hlm, length_take, length_drop. lia.
    + apply store_filled. intros k Hk. apply Hidx. lia.
Qed.

Lemma move_to_buff_stop fuel mem s size :
  Recl.least_count s ≤ 0 ∨ size ≤ 0 →
  Recl.move_items_to_buff fuel mem s size = Some (Ret (Some ([], s))).
Proof.
  intros Hz. destruct fuel; simpl;
    (destruct (Z.ltb_spec 0 (Recl.least_count s)), (Z.ltb_spec 0 size);
     [lia|done..]).
Qed.

Lemma to_buff_round mem b r size ys :
  0 < Z.min size r → Z.of_nat (length ys) = Z.min size r →
  Segm.fetch mem b (length ys) = Some ys →
  Segm.move_items_to_buff mem (Segm.mk (Slice b r) 0) size =
    Some (ys, Segm.mk (Slice b r) (Z.min size r), Z.min size r).
Proof.
  intros Hpos Hlen Hf. unfold Segm.move_items_to_buff, Segm.least_count. simpl.
  rewrite Z.sub_0_r, Z.add_0_r, (proj2 (Z.eqb_neq _ 0)) by lia.
  by rewrite <- Hlen, Nat2Z.id, Hf.
Qed.

Lemma move_to_buff_loop fuel : ∀ mem s size xs,
  Recl.wf s → (pieces_left s ≤ fuel)%nat →
  let n := Z.min (Recl.least_count s) size in
  0 ≤ size → Z.of_nat (length xs) = n →
  holds mem (Recl.pieces s) (Recl.offset_ s) xs →
  Recl.move_items_to_buff fuel mem s size = Some (Ret (Some (xs, advance s n))).
Proof.
  induction fuel as [|fuel IH]; intros mem s size xs Hwf Hfuel n Hsize Hlen Hmem;
    pose proof (pieces_left_pos s); [lia|].
  destruct (wf_room s Hwf) as (Ho & Hlc & Hcap).
  destruct (decide (n = 0)) as [Hn0|Hn0].
  { rewrite move_to_buff_stop, Hn0, advance_0 by lia. by destruct xs; [|simpl in *; lia]. }
  assert (Hpos : 0 < Recl.least_count s) by lia.
  destruct (as_segm_round s Hwf Hpos) as (b & r & Hs & Hr & Hidx & Hnext).
  set (m := Z.min size r).
  rewrite <- (take_drop (Z.to_nat m) xs) in Hmem.
  destruct (proj1 (holds_app _ _ _ _ _) Hmem) as [Hys Hzs].
  assert (Hlm : Z.of_nat (length (take (Z.to_nat m) xs)) = m) by (rewrite length_take; lia).
  rewrite Hlm in Hzs.
  simpl Recl.move_items_to_buff. rewrite (proj2 (Z.ltb_lt _ _) Hpos), (proj2 (Z.ltb_lt 0 size)) by lia.
  cbn [andb]. rewrite Hs, (to_buff_round mem b r size (take (Z.to_nat m) xs)); [|lia|done|].
  2: { eapply fetch_holds; [|exact Hys]. intros k Hk. apply Hidx. lia. }
  fold m. rewrite drop_child_advance.
  assert (Hrest : Recl.move_items_to_buff fuel mem (advance s m) (size - m) =
    Some (Ret (Some (drop (Z.to_nat m) xs, advance s n)))).
  { destruct (round_fuel s r m n fuel Hnext Hfuel Hr) as [Hend|[Hmn Hleft]]; [lia|lia|..].
    - rewrite move_to_buff_stop by (rewrite least_count_advance; lia).
      by rewrite Hend, drop_ge by lia.
    - rewrite (IH mem (advance s m) (size - m) (drop (Z.to_nat m) xs));
        rewrite ?least_count_advance, ?length_drop; try (done || lia);
        [|by apply recl_advance_wf; [|lia]].
      rewrite advance_advance. by replace (m + _) with n by lia. }
  rewrite Hrest. by rewrite take_drop.
Qed.
End recl.

(** ** Properties *)

(** Writing items through a two-piece segment fills its free slots in
    logical order, across the physical end of the buffer: two rounds are enough,
    it moves the smaller of the room and the source, it touches no other slot,
    and reading the same logical range back through a segment over the same
    pieces returns exactly the items moved. *)
Theorem recl_write_read {T} (mem : gmap Z T) s src :
  Recl.wf s → index_inj (Recl.pieces s) →
  let n := Z.min (Recl.least_count s) (Z.of_nat (length src)) in
  let s' := Recl.mk (Recl.pieces s) (Recl.offset_ s + n) in
  ∃ mem',
    Recl.move_items_from_buff 2 mem s src = Some (Ret (mem', s', n)) ∧
    (∀ j, (∀ k, 0 ≤ k < n → j ≠ Recl.index (Recl.pieces s) (Recl.offset_ s + k)) →
          mem' !! j = mem !! j) ∧
    Recl.move_items_to_buff 2 mem' s n =
      Some (Ret (Some (take (Z.to_nat n) src, s'))).
Proof.
  intros Hwf Hinj n s'.
  destruct (move_from_buff_loop 2 mem s src Hwf Hinj (pieces_left_bound s))
    as (mem' & Heq & Hfill).
  destruct (wf_room s Hwf) as (_ & Hlc & _).
  assert (Hl : Z.of_nat (length (take (Z.to_nat n) src)) = n)
    by (rewrite length_take; unfold n; lia).
  exists mem'. split; [done|]. split.
  - intros j Hj. apply Hfill. fold n. by rewrite Hl.
  - rewrite (move_to_buff_loop 2 mem' s n (take (Z.to_nat n) src) Hwf
      (pieces_left_bound s)); [|lia|lia|by eapply filled_holds].
    by replace (Z.min (Recl.least_count s) n) with n by lia.
Qed.

Lemma recl_write_read_witness :
  let s := Recl.new (Recl.Two (Slice 6 2) (Slice 0 2)) in
  ∃ mem', Recl.move_items_from_buff 2 ∅ s [10; 11; 12] =
            Some (Ret (mem', Recl.mk (Recl.pieces s) 3, 3)) ∧
    (∀ j, (∀ k, 0 ≤ k < 3 → j ≠ Recl.index (Recl.pieces s) (0 + k)) →
          mem' !! j = (∅ : gmap Z Z) !! j) ∧
    Recl.move_items_to_buff 2 mem' s 3 =
      Some (Ret (Some ([10; 11; 12], Recl.mk (Recl.pieces s) 3))).
Proof.
  intros s.
  assert (Hwf : Recl.wf s) by (unfold s, Recl.wf; simpl; lia).
  assert (Hinj : index_inj (Recl.pieces s)).
  { intros i j Hi Hj. simpl in *. case_tests; lia. }
  exact (recl_write_read ∅ s [10; 11; 12] Hwf Hinj).
Defined.

(** [take_segm_ref] / [take_segm_mut] of a two-piece segment panics exactly
    when the segment is not empty and the demand only touches the remaining
    count (asking for at least what is left, or starting there); a child it
    lends is a fresh, contiguous, non-consumed part of the segment that starts at
    the next unconsumed item and exceeds neither the demand's upper bound nor the
    current piece. *)
Theorem take_segm_spec s d :
  Recl.wf s → demand_wf d → Recl.least_count s ≤ USIZE_MAX →
  match Recl.take_segm s d with
  | Panic => 0 < Recl.least_count s ∧ touching d (less_than (Recl.least_count s))
  | Ret None =>
      Recl.least_count s = 0 ∨ ∀ n, contains d n → Recl.least_count s < n
  | Ret (Some c) =>
      Segm.wf c ∧ Segm.offset_ c = 0 ∧
      Segm.least_count c ≤ Z.min (max_len d) (Recl.least_count s) ∧
      ∀ k, 0 ≤ k < Segm.least_count c →
        s_start (Segm.buffer_ c) + k = Recl.index (Recl.pieces s) (Recl.offset_ s + k)
  end.
Proof.
  intros Hwf Hd Hmax. unfold Recl.take_segm.
  assert (Hlc : 0 ≤ Recl.least_count s)
    by (destruct Hwf as [_ ?]; unfold Recl.least_count; lia).
  destruct (Z.eqb_spec (Recl.least_count s) 0) as [H0|H0]; [by left|].
  destruct (as_segm_round s Hwf ltac:(lia)) as (b & r & Hcur & Hr & Hidx & _).
  set (c := Recl.least_count s) in *.
  assert (Hd2 : demand_wf (less_than c)) by (cbn; unfold is_usize; lia).
  assert (Hcur' : Recl.current (Recl.pieces s) (Recl.offset_ s) = Ret (Slice b r)).
  { unfold Recl.as_segm in Hcur. by destruct (Recl.current _ _); simplify_eq/=. }
  pose proof (compromise_spec d (less_than c) Hd Hd2) as Hc.
  pose proof (compromise_less_than d c) as Hmx.
  destruct (compromise d (less_than c)) as [[d'|]|]; cbn [mbind outcome_bind].
  - destruct (Hmx d' Hd Hmax eq_refl) as (m & -> & Hm & Hm0).
    rewrite Hcur'. cbn [mbind outcome_bind s_len].
    unfold slice_to. rewrite decide_True by (simpl; lia). cbn [mbind outcome_bind].
    unfold Segm.wf, Segm.least_count, Segm.new; simpl.
    split_and!; try lia. intros k Hk. rewrite Hidx by lia. done.
  - right. intros n Hn. destruct Hc as [Ht Hc].
    specialize (Hc match d with
                   | AtLeast l | Range l _ => l
                   | LessThan u => Z.min u c - 1
                   end).
    destruct d; cbn in Ht, Hd; unfold less_than in *;
      autorewrite with demand in *; lia.
  - split; [lia|done].
Qed.

Lemma take_segm_spec_witness :
  let s := Recl.mk (Recl.Two (Slice 6 2) (Slice 0 3)) 1 in
  let c := Segm.mk (Slice 7 1) 0 in
  Recl.take_segm s (LessThan 3) = Ret (Some c) ∧ Segm.wf c ∧
  Segm.least_count c ≤ Z.min (max_len (LessThan 3)) (Recl.least_count s).
Proof.
  intros s c.
  assert (Hwf : Recl.wf s) by (unfold s, Recl.wf; simpl; lia).
  assert (Hd : demand_wf (LessThan 3)) by by vm_compute.
  assert (Hm : Recl.least_count s ≤ USIZE_MAX) by by vm_compute.
  destruct (take_segm_spec s (LessThan 3) Hwf Hd Hm) as (H1 & _ & H3 & _).
  split; [reflexivity|]. split; [exact H1|exact H3].
Defined.
