(* ===== verification/SegmMove.v ===== *)
(** * Moving items between segments

    Models the default loops [TrBuffSegmRef::move_items_to_segm] and
    [TrBuffSegmMut::move_items_from_segm] of [crates/abs_buff/src/buffer/segm_.rs],
    which lend a child of each side round after round, and
    [SegmRef::clone_items_to_segm].  The two segments are views on two memories; both
    may be in two pieces ([Segm.v]). *)

From S2P Require Import Prelude Demand Segm.

Section moves.
Context {T : Type}.
Implicit Types (smem tmem : gmap Z T) (xs : list T).

(** Both loops: the children of one round are dropped at its end, which advances
    their parents.  The inner [None] is a read of an uninitialised slot. *)
Fixpoint move_items_to_segm (fuel : nat) smem (src : Recl.t) tmem (target : Recl.t) :
    exec (option (Recl.t * gmap Z T * Recl.t * Z)) :=
  match fuel with
  | O => OutOfFuel
  | S fuel =>
      if (0 <? Recl.least_count src) && (0 <? Recl.least_count target) then
        src_segm ← lift (Recl.as_segm src);
        dst_segm ← lift (Recl.as_segm target);
        match Segm.move_items_to_segm smem src_segm tmem dst_segm with
        | None => Done None
        | Some (src_segm, tmem, dst_segm, n) =>
            r ← move_items_to_segm fuel smem (Recl.drop_child src src_segm) tmem
                  (Recl.drop_child target dst_segm);
            Done ('(src, tmem, target, c) ← r; Some (src, tmem, target, n + c))
        end
      else Done (Some (src, tmem, target, 0))
  end.

(** The target asks; the rounds are the same. *)
Definition move_items_from_segm (fuel : nat) tmem (target : Recl.t) smem (source : Recl.t) :
    exec (option (Recl.t * gmap Z T * Recl.t * Z)) :=
  move_items_to_segm fuel smem source tmem target.

(** [clone_items_to_segm]: the source is not advanced. *)
Definition clone_items_to_segm smem (src : Segm.t) tmem (target : Segm.t) :
    outcome (option (gmap Z T * Segm.t * Z)) :=
  dst ← slice_from (Segm.buffer_ target) (Segm.offset_ target);
  match Segm.clone_items_to_buff smem src (s_len dst) with
  | None => Ret None
  | Some (items, count) =>
      if Segm.least_count target <? count then Panic
      else Ret (Some (Segm.store tmem (s_start dst) items,
             Segm.mk (Segm.buffer_ target) (Segm.offset_ target + count), count))
  end.

(** ** One round *)

Lemma round_copies smem tmem b1 r1 b2 r2 xs :
  Z.of_nat (length xs) = Z.min r1 r2 → 0 < Z.min r1 r2 →
  Segm.fetch smem b1 (length xs) = Some xs →
  Segm.move_items_to_segm smem (Segm.mk (Slice b1 r1) 0) tmem (Segm.mk (Slice b2 r2) 0) =
    Some (Segm.mk (Slice b1 r1) (Z.min r1 r2), Segm.store tmem b2 xs,
          Segm.mk (Slice b2 r2) (Z.min r1 r2), Z.min r1 r2).
Proof.
  intros Hlen Hpos Hf. unfold Segm.move_items_to_segm, Segm.move_items_to_buff, Segm.least_count.
  cbn [Segm.buffer_ Segm.offset_ s_len s_start]. rewrite !Z.sub_0_r, !Z.add_0_r.
  rewrite (Z.min_comm r2 r1), (proj2 (Z.eqb_neq _ 0)) by lia.
  rewrite <- Hlen, Nat2Z.id, Hf. done.
Qed.

Lemma move_ends fuel smem src tmem target :
  Z.min (Recl.least_count src) (Recl.least_count target) ≤ 0 →
  move_items_to_segm (S fuel) smem src tmem target = Done (Some (src, tmem, target, 0)).
Proof.
  intros Hz. simpl. destruct (Z.ltb_spec 0 (Recl.least_count src)),
    (Z.ltb_spec 0 (Recl.least_count target)); simpl; [lia|done..].
Qed.

(** ** The loop *)

(** The items [xs], as many as the smaller side has, are moved. *)
Definition moved smem (src : Recl.t) tmem (target : Recl.t) xs
    (x : exec (option (Recl.t * gmap Z T * Recl.t * Z))) : Prop :=
  let n := Z.of_nat (length xs) in
  ∃ tmem', x = Done (Some (advance src n, tmem', advance target n, n)) ∧
    filled tmem tmem' (Recl.pieces target) (Recl.offset_ target) xs.

Lemma moved_now fuel smem src tmem target :
  Z.min (Recl.least_count src) (Recl.least_count target) ≤ 0 →
  moved smem src tmem target [] (move_items_to_segm (S fuel) smem src tmem target).
Proof.
  intros Hz. exists tmem. rewrite move_ends, !advance_0 by done.
  split; [done|apply filled_nil].
Qed.

Lemma pieces_left_advance s n : 0 ≤ n → (pieces_left (advance s n) ≤ pieces_left s)%nat.
Proof. intros Hn. unfold pieces_left. simpl. destruct (Recl.pieces s); [lia|]. case_tests; lia. Qed.

(** A round that does not end the move uses up a piece of one side. *)
Lemma round_progress src target r1 r2 :
  0 < r1 → 0 < r2 →
  (r1 = Recl.least_count src ∨ (pieces_left (advance src r1) < pieces_left src)%nat) →
  (r2 = Recl.least_count target ∨ (pieces_left (advance target r2) < pieces_left target)%nat) →
  r1 ≤ Recl.least_count src → r2 ≤ Recl.least_count target →
  let m := Z.min r1 r2 in
  m < Z.min (Recl.least_count src) (Recl.least_count target) →
  (pieces_left (advance src m) + pieces_left (advance target m)
   < pieces_left src + pieces_left target)%nat.
Proof.
  intros H1 H2 Hn1 Hn2 Hl1 Hl2 m Hm.
  pose proof (pieces_left_advance src m). pose proof (pieces_left_advance target m).
  destruct (Z.le_ge_cases r1 r2); [assert (m = r1) as -> by lia|assert (m = r2) as -> by lia];
    [destruct Hn1|destruct Hn2]; lia.
Qed.

(** One round and the rest. *)
Lemma moved_step smem src tmem target b2 ys zs x :
  Recl.wf target → index_inj (Recl.pieces target) →
  Z.of_nat (length (ys ++ zs)) ≤ Recl.least_count target →
  contiguous (Recl.pieces target) (Recl.offset_ target) b2 (Z.of_nat (length ys)) →
  let m := Z.of_nat (length ys) in
  moved smem (advance src m) (Segm.store tmem b2 ys) (advance target m) zs x →
  moved smem src tmem target (ys ++ zs)
    (r ← x; Done ('(src, tmem, target, c) ← r; Some (src, tmem, target, m + c))).
Proof.
  intros Hwf Hinj Hlen Hidx m (tmem' & -> & Hfill). rewrite length_app in Hlen.
  destruct (wf_room target Hwf) as (Ho & _ & Hcap).
  exists tmem'. rewrite length_app, Nat2Z.inj_add. fold m. split.
  - cbn [mbind exec_bind option_bind]. by rewrite !advance_advance.
  - eapply filled_app; [done|done|lia|by apply store_filled|exact Hfill].
Qed.

Lemma move_loop fuel : ∀ smem src tmem target xs,
  Recl.wf src → Recl.wf target → index_inj (Recl.pieces target) →
  (pieces_left src + pieces_left target ≤ fuel)%nat →
  Z.of_nat (length xs) = Z.min (Recl.least_count src) (Recl.least_count target) →
  holds smem (Recl.pieces src) (Recl.offset_ src) xs →
  moved smem src tmem target xs (move_items_to_segm fuel smem src tmem target).
Proof.
  induction fuel as [|fuel IH]; intros smem src tmem target xs Hws Hwt Hinj Hf Hlen Hx;
    pose proof (pieces_left_pos src); pose proof (pieces_left_pos target); [lia|].
  destruct (decide (xs = [])) as [->|Hne]; [apply moved_now; simpl in Hlen; lia|].
  assert (0 < Z.of_nat (length xs)) by (destruct xs; [done|simpl; lia]).
  destruct (as_segm_round src Hws) as (b1 & r1 & Hs & Hr1 & Hi1 & Hn1); [lia|].
  destruct (as_segm_round target Hwt) as (b2 & r2 & Ht & Hr2 & Hi2 & Hn2); [lia|].
  set (ys := take (Z.to_nat (Z.min r1 r2)) xs). set (zs := drop (Z.to_nat (Z.min r1 r2)) xs).
  assert (Hxs : xs = ys ++ zs) by (symmetry; apply take_drop).
  assert (Hys : Z.of_nat (length ys) = Z.min r1 r2) by (unfold ys; rewrite length_take; lia).
  clearbody ys zs. subst xs. apply holds_app in Hx as [Hy Hz].   simpl move_items_to_segm.
  rewrite (proj2 (Z.ltb_lt 0 (Recl.least_count src))) by lia.
  rewrite (proj2 (Z.ltb_lt 0 (Recl.least_count target))) by lia.
  cbn [andb]. rewrite Hs, Ht. cbn [lift mbind exec_bind].
  rewrite (round_copies smem tmem b1 r1 b2 r2 ys) by
    (done || lia || (eapply fetch_holds; [intros k Hk; apply Hi1; lia|exact Hy])).
  rewrite !drop_child_advance, <- Hys.
  apply (moved_step smem src tmem target b2 ys zs); [done|done|lia|intros k Hk; apply Hi2; lia|].
  rewrite length_app in *. destruct (decide (zs = [])) as [->|Hzs].
  - destruct fuel; [lia|]. apply moved_now. rewrite !least_count_advance. simpl in *. lia.
  - assert (0 < Z.of_nat (length zs)) by (destruct zs; [done|simpl; lia]).
    apply IH; [by apply recl_advance_wf; [|lia]|by apply recl_advance_wf; [|lia]|done| | |done].
    + pose proof (round_progress src target r1 r2) as Hp. rewrite <- Hys in Hp.
      specialize (Hp ltac:(lia) ltac:(lia) Hn1 Hn2 ltac:(lia) ltac:(lia) ltac:(lia)). lia.
    + rewrite !least_count_advance. lia.
Qed.
End moves.

(** ** Properties *)

(** C27: moving items between two segments is exact, also when both are in two pieces
    that do not line up: at most three rounds move as many items as the smaller side
    has, in order; the target holds them in its next slots and no other slot is
    touched, and both offsets are advanced by the count that is returned. *)
Theorem segm_move_exact {T} (smem : gmap Z T) src (tmem : gmap Z T) target xs :
  Recl.wf src → Recl.wf target → index_inj (Recl.pieces target) →
  Z.of_nat (length xs) = Z.min (Recl.least_count src) (Recl.least_count target) →
  holds smem (Recl.pieces src) (Recl.offset_ src) xs →
  moved smem src tmem target xs (move_items_to_segm 4 smem src tmem target).
Proof.
  intros. apply move_loop; try done.
  pose proof (pieces_left_bound src). pose proof (pieces_left_bound target). lia.
Qed.

(** Four items out of 2 + 2 slots into 1 + 4 slots: three rounds. *)
Definition source_memory : gmap Z Z := {[ 6 := 10; 7 := 11; 0 := 12; 1 := 13 ]}.
Definition source_segm : Recl.t := Recl.new (Recl.Two (Slice 6 2) (Slice 0 2)).
Definition target_segm : Recl.t := Recl.new (Recl.Two (Slice 9 1) (Slice 0 4)).

Lemma segm_move_exact_witness :
  ∃ tmem', move_items_to_segm 4 source_memory source_segm ∅ target_segm =
    Done (Some (advance source_segm 4, tmem', advance target_segm 4, 4)) ∧
  holds tmem' (Recl.pieces target_segm) 0 [10; 11; 12; 13].
Proof.
  assert (Hinj : index_inj (Recl.pieces target_segm)).
  { intros i j Hi Hj. simpl in *. case_tests; lia. }
  assert (Hh : holds source_memory (Recl.pieces source_segm) 0 [10; 11; 12; 13]).
  { intros k Hk. simpl in Hk.
    assert (k = 0 ∨ k = 1 ∨ k = 2 ∨ k = 3) as [-> | [-> | [-> | ->]]] by lia; vm_compute; reflexivity. }
  destruct (segm_move_exact source_memory source_segm ∅ target_segm [10; 11; 12; 13]
    ltac:(unfold Recl.wf; simpl; lia) ltac:(unfold Recl.wf; simpl; lia) Hinj
    ltac:(vm_compute; reflexivity) Hh) as (tmem' & Hrun & [Hd _]).
  exists tmem'. exact (conj Hrun Hd).
Defined.

(** [clone_items_to_segm] copies without consuming: the items the smaller side has
    are in the next slots of the target, which alone is advanced; it does not panic. *)
Theorem clone_to_segm_exact {T} (smem : gmap Z T) src (tmem : gmap Z T) target xs :
  Segm.wf src → Segm.wf target →
  let n := Z.min (Segm.least_count target) (Segm.least_count src) in
  Z.of_nat (length xs) = n →
  Segm.fetch smem (s_start (Segm.buffer_ src) + Segm.offset_ src) (length xs) = Some xs →
  let b := s_start (Segm.buffer_ target) + Segm.offset_ target in
  clone_items_to_segm smem src tmem target =
    Ret (Some (Segm.store tmem b xs,
      Segm.mk (Segm.buffer_ target) (Segm.offset_ target + n), n)).
Proof.
  intros Hs Ht n Hlen Hf b. unfold Segm.wf, Segm.least_count in *.
  unfold clone_items_to_segm, slice_from, Segm.clone_items_to_buff, Segm.least_count.
  rewrite decide_True by lia. cbn [mbind outcome_bind s_len s_start]. fold n.
  destruct (Z.eqb_spec n 0) as [E|E].
  - destruct xs; [|simpl in Hlen; lia]. rewrite E in *. simpl.
    rewrite (proj2 (Z.ltb_ge _ _)) by lia. done.
  - rewrite <- Hlen, Nat2Z.id, Hf, Hlen. cbn [mbind option_bind].
    rewrite (proj2 (Z.ltb_ge _ _)) by lia. done.
Qed.

Lemma clone_to_segm_exact_witness :
  clone_items_to_segm source_memory (Segm.new (Slice 6 2)) ∅ (Segm.new (Slice 20 5)) =
    Ret (Some (Segm.store ∅ 20 [10; 11], Segm.mk (Slice 20 5) 2, 2)).
Proof.
  exact (clone_to_segm_exact source_memory (Segm.new (Slice 6 2)) ∅ (Segm.new (Slice 20 5))
    [10; 11] ltac:(unfold Segm.wf; simpl; lia) ltac:(unfold Segm.wf; simpl; lia)
    eq_refl ltac:(vm_compute; reflexivity)).
Defined.
