(* ===== verification/CircEnds.v ===== *)
(** * The two ends of the circular buffer

    Models the error types ([crates/buffex/src/circular_buff/error_.rs], with the
    tags of [crates/abs_buff/src/error.rs]), the end contracts [TrProducer] /
    [TrConsumer] and their events ([abs_comp_.rs]), the wake slot ([core_.rs])
    and the passive ends [BufProducer] / [BufConsumer] ([circ_buff_.rs]).

    The contracts are type classes: the core ([CircCore.v]) is written against
    them, the passive ends are instances here and the device ends in
    [CircDev.v]. *)

From S2P Require Import Prelude Demand IoPos Segm.

(** ** Error tags *)

Inductive ReadErrTag : Type :=
| RClosing | RDrained | RUnsatisfied | RCancelled | RPropagated | RUnknown.
Inductive WriteErrTag : Type :=
| WClosing | WCancelled | WPropagated | WUnknown | WStuffed | WUnsatisfied.
Inductive IoErrTag : Type :=
| Read (r : ReadErrTag)
| Write (w : WriteErrTag).

#[export] Instance ReadErrTag_eq_dec : EqDecision ReadErrTag.
Proof. solve_decision. Defined.
#[export] Instance WriteErrTag_eq_dec : EqDecision WriteErrTag.
Proof. solve_decision. Defined.

Definition read_should_terminate (t : ReadErrTag) : bool :=
  match t with
  | RClosing | RCancelled | RPropagated | RUnknown => true
  | _ => false
  end.
Definition write_should_terminate (t : WriteErrTag) : bool :=
  match t with
  | WClosing | WCancelled | WPropagated | WUnknown => true
  | _ => false
  end.
Definition io_should_terminate (t : IoErrTag) : bool :=
  match t with
  | Read r => read_should_terminate r
  | Write w => write_should_terminate w
  end.

(** [ProducerError<usize>] and [ConsumerError<usize>]. *)
Inductive ProducerError : Type :=
| Stuffed (p : Z)
| PClosing
| PCancelled
| PUnavailable
| PArgument.
Inductive ConsumerError : Type :=
| Drained (p : Z)
| CClosing
| CCancelled
| CUnavailable
| CArgument.

Definition producer_err_tag (e : ProducerError) : WriteErrTag :=
  match e with
  | PClosing | PCancelled | PUnavailable => WClosing
  | PArgument => WUnknown
  | Stuffed _ => WStuffed
  end.
Definition consumer_err_tag (e : ConsumerError) : ReadErrTag :=
  match e with
  | CClosing | CCancelled | CUnavailable => RClosing
  | CArgument => RUnknown
  | Drained _ => RDrained
  end.

(** [PipelineError<usize>]. *)
Inductive PipelineError : Type :=
| Tx (e : ProducerError)
| Rx (e : ConsumerError).
Definition pipeline_err_tag (e : PipelineError) : IoErrTag :=
  match e with
  | Tx e => Write (producer_err_tag e)
  | Rx e => Read (consumer_err_tag e)
  end.

(** ** Events *)

Inductive ProducerHookEvent : Type :=
| PAvailable (size : Z)
| ConsumerClose (size : Z).
Inductive ConsumerHookEvent : Type :=
| CAvailable (size : Z)
| ProducerClose (size : Z).
Inductive ReceiverReact : Type := Reacted | Continue.

(** [core::task::Poll]. *)
Inductive Poll (A : Type) : Type :=
| Ready (a : A)
| Pending.
Arguments Ready {A} a.
Arguments Pending {A}.

Definition is_reacted (p : Poll ReceiverReact) : bool :=
  match p with Ready Reacted => true | _ => false end.

(** ** [WakeSlot]: at most one registered waiter *)

Module WakeSlot.
(** Waiters are identified by a number; the slot holds the pointer to the
    registered one, if any. *)
Definition t : Type := option nat.
Definition new : t := None.

(** [register]: [None] is the spin, which lasts while another waiter is
    registered. *)
Definition register (slot : t) (w : nat) : option t :=
  match slot with
  | None => Some (Some w)
  | Some cur => if decide (cur = w) then Some slot else None
  end.

Definition deregister (slot : t) (w : nat) : t :=
  if decide (slot = Some w) then None else slot.

(** [signal]: empties the slot and wakes the waiter it held. *)
Definition signal (slot : t) : t * list nat :=
  (None, match slot with Some w => [w] | None => [] end).
End WakeSlot.

(** ** The end contracts *)

(** What [react_async] polled once leaves behind: the end, the shared memory,
    the segment it was given and the answer. *)
Record reaction (E T : Type) : Type := Reaction {
  r_end : E;
  r_mem : gmap Z T;
  r_segm : Recl.t;
  r_poll : Poll ReceiverReact;
}.
Arguments Reaction {E T} _ _ _ _.
Arguments r_end {E T} _.
Arguments r_mem {E T} _.
Arguments r_segm {E T} _.
Arguments r_poll {E T} _.

(** [TrProducer]: [p_check] returns the verdict, the end and the waiters woken;
    [p_react] is [react_async] under one non-blocking poll. *)
Class TrProducer (P T : Type) : Type := {
  p_is_passive : P → bool;
  p_check : P → ProducerHookEvent → bool * P * list nat;
  p_wakeslot : P → option WakeSlot.t;
  p_react : P → gmap Z T → Recl.t → exec (reaction P T);
}.

Class TrConsumer (C T : Type) : Type := {
  c_is_passive : C → bool;
  c_check : C → ConsumerHookEvent → bool * C * list nat;
  c_wakeslot : C → option WakeSlot.t;
  c_react : C → gmap Z T → Recl.t → exec (reaction C T);
}.

(** ** The passive ends *)

(** [BufProducer] and [BufConsumer] have the same fields: the pending demand of
    the parked caller and the slot of its waker. *)
Record BufEnd : Type := mkBufEnd {
  demand_ : option Demand;
  wakeslot_ : WakeSlot.t;
}.

Definition buf_new : BufEnd := mkBufEnd None WakeSlot.new.

(** [BuffObsv::try_set_demand]: a compare-exchange from the null pointer. *)
Definition try_set_demand (b : BufEnd) (d : Demand) : bool * BufEnd :=
  match demand_ b with
  | None => (true, mkBufEnd (Some d) (wakeslot_ b))
  | Some _ => (false, b)
  end.

(** [BuffObsv::try_reset_demand]: returns the pointer that was stored. *)
Definition try_reset_demand (b : BufEnd) : option Demand * BufEnd :=
  (demand_ b, mkBufEnd None (wakeslot_ b)).

(** [TrProducer::check] of [BufProducer]. *)
Definition buf_producer_check (b : BufEnd) (event : ProducerHookEvent) :
    bool * BufEnd * list nat :=
  match event with
  | ConsumerClose _ => (true, b, [])
  | PAvailable free =>
      if free =? 0 then (false, b, [])
      else match demand_ b with
           | None => (false, b, [])
           | Some demand =>
               let min := min_len demand in
               if min <=? free then
                 let '(slot, w) := WakeSlot.signal (wakeslot_ b) in
                 (true, mkBufEnd (demand_ b) slot, w)
               else (false, b, [])
           end
  end.

(** [TrConsumer::check] of [BufConsumer]. *)
Definition buf_consumer_check (b : BufEnd) (event : ConsumerHookEvent) :
    bool * BufEnd * list nat :=
  match event with
  | ProducerClose _ => (true, b, [])
  | CAvailable ready =>
      if ready =? 0 then (false, b, [])
      else match demand_ b with
           | None => (false, b, [])
           | Some demand =>
               let min := min_len demand in
               if min <=? ready then
                 let '(slot, w) := WakeSlot.signal (wakeslot_ b) in
                 (true, mkBufEnd (demand_ b) slot, w)
               else (false, b, [])
           end
  end.

(** The passive ends do nothing when asked to react. *)
Definition buf_react {T} (b : BufEnd) (mem : gmap Z T) (s : Recl.t) :
    exec (reaction BufEnd T) :=
  Done (Reaction b mem s (Ready Continue)).

(** [impl TrProducer for BufProducer], [impl TrConsumer for BufConsumer].  The
    passive ends keep the default [wakeslot] of the contract, [None]: their slot
    is reached through their own accessor. *)
#[export] Instance buf_producer {T} : TrProducer BufEnd T := {|
  p_is_passive _ := true;
  p_check := buf_producer_check;
  p_wakeslot _ := None;
  p_react := buf_react;
|}.
#[export] Instance buf_consumer {T} : TrConsumer BufEnd T := {|
  c_is_passive _ := true;
  c_check := buf_consumer_check;
  c_wakeslot _ := None;
  c_react := buf_react;
|}.
