(* ===== verification/CircCore.v ===== *)
(** * The core of the circular buffer

    Models [CircCore] ([crates/buffex/src/circular_buff/core_.rs]): the state
    word and its flags, the lending of regions, the commits with their events,
    and the synchronous pumps.  The core is generic in its two ends; every
    atomic update of the state word is one [rmw] ([Atomex.v]).

    Debug assertions are modelled: a violated [debug_assert!] is [Panic]. *)

From S2P Require Import Prelude Demand Atomex IoPos Segm CircEnds.

(** ** Decisions taken on one load of the state word *)

(** The body of [try_write_at] after the load. *)
Definition try_write_at_word (state cap : Z) (demand : Demand) :
    outcome (result ProducerError (Z * Z)) :=
  let min_len := min_len demand in
  let max_len := max_len demand in
  let pos := unpack state cap in
  let free := free_size pos in
  if (free =? 0) || (free <? min_len) then
    if has_flag state TX_CLOSED then Ret (Err PClosing)
    else Ret (Err (Stuffed (wp pos)))
  else
    let take := Z.min max_len free in
    if (0 <? take) && (min_len <=? take) then Ret (Ok (wp pos, take)) else Panic.

(** The body of [try_read_at] after the load. *)
Definition try_read_at_word (state cap : Z) (demand : Demand) :
    outcome (result ConsumerError (Z * Z)) :=
  let min_len := min_len demand in
  let max_len := max_len demand in
  let pos := unpack state cap in
  let ready := data_size pos in
  if ready =? 0 then
    if has_flag state TX_CLOSED || has_flag state RX_CLOSED then Ret (Err CClosing)
    else Ret (Err (Drained (rp pos)))
  else if (ready <? min_len) && negb (has_flag state TX_CLOSED)
            && negb (has_flag state RX_CLOSED) then
    Ret (Err (Drained (rp pos)))
  else
    let take := Z.min max_len ready in
    if 0 <? take then Ret (Ok (rp pos, take)) else Panic.

(** The updates of the state word, as arguments of the compare-exchange loop:
    [expect] and [desire] of [update_pos_], [set_flag_], [clear_flag] and of the
    two standby settings. *)
Definition update_pos_rmw (f : Z → Z) (s : Z) : CmpxchResult Z * Z :=
  rmw (λ _, true) f s.
Definition set_flag_rmw (flag s : Z) : CmpxchResult Z * Z :=
  rmw (λ s, Z.land s flag =? 0) (λ s, Z.lor s flag) s.
Definition clear_flag_rmw (flag s : Z) : CmpxchResult Z * Z :=
  rmw (λ s, Z.land s flag =? flag) (λ s, Z.land s (usize_not flag)) s.
Definition set_standby_rmw (flag s : Z) : CmpxchResult Z * Z :=
  rmw (λ _, true) (λ s, Z.lor s flag) s.

(** The position updates of the two commits. *)
Definition advance_write_word (cap amount s : Z) : Z :=
  pack (advance_wp (unpack s cap) amount) s.
Definition advance_read_word (cap amount s : Z) : Z :=
  pack (advance_rp (unpack s cap) amount) s.

(** The pieces of a region, [create_write_segm]: the buffer is split at [start]
    when the region runs past its end. *)
Definition write_pieces (cap start take : Z) : outcome Recl.SegmSlices :=
  let whole := Slice 0 cap in
  let first := Z.min take (cap - start) in
  if first <? take then
    head ← slice_to whole start;
    tail ← slice_from whole start;
    b ← slice_to head (take - first);
    Ret (Recl.Two tail b)
  else
    a ← slice_from whole start;
    a ← slice_to a take;
    Ret (Recl.One a).

(** [create_read_segm] builds its slices from raw parts, without a bound check. *)
Definition read_pieces (cap start take : Z) : Recl.SegmSlices :=
  let first := Z.min take (cap - start) in
  if first <? take then Recl.Two (Slice start first) (Slice 0 (take - first))
  else Recl.One (Slice start take).

Section core.
Context {P C T : Type} `{TrProducer P T} `{TrConsumer C T}.

(** [CircCore<P, C, B, T>]; [woken] records, in order, the waiters whose waker
    was called. *)
Record CircCore : Type := mkCore {
  buffer_ : gmap Z T;
  cap_ : Z;
  atm_stat_ : Z;
  producer_ : P;
  consumer_ : C;
  woken : list nat;
}.

Definition core_new (producer : P) (consumer : C) (buffer_len : Z) : CircCore :=
  mkCore ∅ buffer_len 0 producer consumer [].

Definition with_buffer (c : CircCore) (b : gmap Z T) : CircCore :=
  mkCore b (cap_ c) (atm_stat_ c) (producer_ c) (consumer_ c) (woken c).
Definition with_state (c : CircCore) (s : Z) : CircCore :=
  mkCore (buffer_ c) (cap_ c) s (producer_ c) (consumer_ c) (woken c).
Definition with_producer (c : CircCore) (p : P) (w : list nat) : CircCore :=
  mkCore (buffer_ c) (cap_ c) (atm_stat_ c) p (consumer_ c) (woken c ++ w).
Definition with_consumer (c : CircCore) (k : C) (w : list nat) : CircCore :=
  mkCore (buffer_ c) (cap_ c) (atm_stat_ c) (producer_ c) k (woken c ++ w).

Definition capacity (c : CircCore) : Z := cap_ c.
Definition core_pos (c : CircCore) : IoPos := unpack (atm_stat_ c) (capacity c).
Definition core_data_size (c : CircCore) : Z := data_size (core_pos c).
Definition core_free_size (c : CircCore) : Z := free_size (core_pos c).
Definition is_tx_closed (c : CircCore) : bool := has_flag (atm_stat_ c) TX_CLOSED.
Definition is_rx_closed (c : CircCore) : bool := has_flag (atm_stat_ c) RX_CLOSED.

Definition try_write_at (c : CircCore) (demand : Demand) :=
  try_write_at_word (atm_stat_ c) (capacity c) demand.
Definition try_read_at (c : CircCore) (demand : Demand) :=
  try_read_at_word (atm_stat_ c) (capacity c) demand.

Definition producer_ready (c : CircCore) (min : Z) : outcome bool :=
  r ← try_write_at c (at_least (Z.max min 1));
  Ret (is_ok r || is_tx_closed c).
Definition consumer_ready (c : CircCore) (min : Z) : outcome bool :=
  r ← try_read_at c (at_least (Z.max min 1));
  Ret (is_ok r || is_tx_closed c || is_rx_closed c).

Definition create_write_segm (c : CircCore) (start take : Z) : outcome Recl.t :=
  Recl.new <$> write_pieces (capacity c) start take.
Definition create_read_segm (c : CircCore) (start take : Z) : Recl.t :=
  Recl.new (read_pieces (capacity c) start take).

Definition update_pos_ (c : CircCore) (f : Z → Z) : CircCore :=
  with_state c (update_pos_rmw f (atm_stat_ c)).2.
Definition set_flag_ (c : CircCore) (flag : Z) : CircCore :=
  with_state c (set_flag_rmw flag (atm_stat_ c)).2.
Definition clear_flag (c : CircCore) (flag : Z) : bool * CircCore :=
  let '(r, s) := clear_flag_rmw flag (atm_stat_ c) in
  (is_succ r, with_state c s).
Definition set_tx_standby (c : CircCore) : CircCore :=
  with_state c (set_standby_rmw TX_STNDBY (atm_stat_ c)).2.
Definition set_rx_standby (c : CircCore) : CircCore :=
  with_state c (set_standby_rmw RX_STNDBY (atm_stat_ c)).2.
Definition unset_tx_standby (c : CircCore) : CircCore := (clear_flag c TX_STNDBY).2.
Definition unset_rx_standby (c : CircCore) : CircCore := (clear_flag c RX_STNDBY).2.

(** [fire_producer] / [fire_consumer]: nothing unless armed; the verdict of
    [check] is dropped. *)
Definition fire_producer (c : CircCore) (event : ProducerHookEvent) : CircCore :=
  if negb (has_flag (atm_stat_ c) TX_STNDBY) then c
  else let '(_, p, w) := p_check (producer_ c) event in with_producer c p w.
Definition fire_consumer (c : CircCore) (event : ConsumerHookEvent) : CircCore :=
  if negb (has_flag (atm_stat_ c) RX_STNDBY) then c
  else let '(_, k, w) := c_check (consumer_ c) event in with_consumer c k w.

(** The commits up to their pump: move the position, then fire. *)
Definition commit_write (c : CircCore) (amount : Z) : CircCore :=
  let c := update_pos_ c (advance_write_word (capacity c) amount) in
  fire_consumer c
    (if is_tx_closed c then ProducerClose (core_data_size c)
     else CAvailable (core_data_size c)).
Definition commit_read (c : CircCore) (amount : Z) : CircCore :=
  let c := update_pos_ c (advance_read_word (capacity c) amount) in
  fire_producer c
    (if is_rx_closed c then ConsumerClose (core_free_size c)
     else PAvailable (core_free_size c)).

(** The synchronous pumps and the commits that call them are mutually
    recursive; [fuel] bounds the calls and the rounds together. *)
Fixpoint pump_input_sync (fuel : nat) (c : CircCore) : exec (CircCore * Z) :=
  match fuel with
  | O => OutOfFuel
  | S fuel =>
      if p_is_passive (producer_ c) then Done (c, 0)
      else if negb (c_is_passive (consumer_ c)) then Done (c, 0)
      else pump_input_loop fuel c 0
  end
with pump_input_loop (fuel : nat) (c : CircCore) (total : Z) : exec (CircCore * Z) :=
  match fuel with
  | O => OutOfFuel
  | S fuel =>
      let state := atm_stat_ c in
      if has_flag state TX_CLOSED || has_flag state RX_CLOSED then Done (c, total)
      else
        let pos := unpack state (capacity c) in
        let free := free_size pos in
        if free =? 0 then Done (c, total)
        else
          segm ← lift (create_write_segm c (wp pos) free);
          r ← p_react (producer_ c) (buffer_ c) segm;
          let c := with_buffer (with_producer c (r_end r) []) (r_mem r) in
          let moved := Recl.capacity (r_segm r) - Recl.least_count (r_segm r) in
          c ← advance_write fuel c (Recl.offset_ (r_segm r));
          if (moved =? 0) || negb (is_reacted (r_poll r)) then Done (c, total + moved)
          else pump_input_loop fuel c (total + moved)
  end
with advance_write (fuel : nat) (c : CircCore) (amount : Z) : exec CircCore :=
  match fuel with
  | O => OutOfFuel
  | S fuel =>
      '(c, _) ← pump_output_sync fuel (commit_write c amount);
      Done c
  end
with pump_output_sync (fuel : nat) (c : CircCore) : exec (CircCore * Z) :=
  match fuel with
  | O => OutOfFuel
  | S fuel =>
      if c_is_passive (consumer_ c) then Done (c, 0)
      else if negb (p_is_passive (producer_ c)) then Done (c, 0)
      else pump_output_loop fuel c 0
  end
with pump_output_loop (fuel : nat) (c : CircCore) (total : Z) : exec (CircCore * Z) :=
  match fuel with
  | O => OutOfFuel
  | S fuel =>
      let state := atm_stat_ c in
      if has_flag state RX_CLOSED then Done (c, total)
      else
        let pos := unpack state (capacity c) in
        let data := data_size pos in
        if data =? 0 then Done (c, total)
        else
          let segm := create_read_segm c (rp pos) data in
          r ← c_react (consumer_ c) (buffer_ c) segm;
          let c := with_buffer (with_consumer c (r_end r) []) (r_mem r) in
          let moved := Recl.capacity (r_segm r) - Recl.least_count (r_segm r) in
          c ← advance_read fuel c (Recl.offset_ (r_segm r));
          if (moved =? 0) || negb (is_reacted (r_poll r)) then Done (c, total + moved)
          else pump_output_loop fuel c (total + moved)
  end
with advance_read (fuel : nat) (c : CircCore) (amount : Z) : exec CircCore :=
  match fuel with
  | O => OutOfFuel
  | S fuel =>
      '(c, _) ← pump_input_sync fuel (commit_read c amount);
      Done c
  end.

(** [close_tx] / [close_rx]. *)
Definition close_tx (fuel : nat) (c : CircCore) : exec CircCore :=
  let c := set_flag_ c TX_CLOSED in
  let c := fire_consumer c (ProducerClose (core_data_size c)) in
  '(c, _) ← pump_output_sync fuel c;
  Done c.
Definition close_rx (c : CircCore) : CircCore :=
  let c := set_flag_ c RX_CLOSED in
  fire_producer c (ConsumerClose (core_free_size c)).

(** [try_write_] (passive producer) and [try_read_] (passive consumer): one
    retry after driving the peer's pump. *)
Definition try_write_ (fuel : nat) (c : CircCore) (demand : Demand) :
    exec (CircCore * result ProducerError Recl.t) :=
  let attempt (c : CircCore) : exec (result ProducerError Recl.t) :=
    r ← lift (try_write_at c demand);
    match r with
    | Ok (start, take) => Ok <$> lift (create_write_segm c start take)
    | Err e => Done (Err e)
    end in
  x ← attempt c;
  match x with
  | Ok _ => Done (c, x)
  | Err e =>
      if write_should_terminate (producer_err_tag e) then Done (c, x)
      else '(c, _) ← pump_output_sync fuel c;
           x ← attempt c;
           Done (c, x)
  end.
Definition try_read_ (fuel : nat) (c : CircCore) (demand : Demand) :
    exec (CircCore * result ConsumerError Recl.t) :=
  let attempt (c : CircCore) : exec (result ConsumerError Recl.t) :=
    r ← lift (try_read_at c demand);
    match r with
    | Ok (start, take) => Done (Ok (create_read_segm c start take))
    | Err e => Done (Err e)
    end in
  x ← attempt c;
  match x with
  | Ok _ => Done (c, x)
  | Err e =>
      if read_should_terminate (consumer_err_tag e) then Done (c, x)
      else '(c, _) ← pump_input_sync fuel c;
           x ← attempt c;
           Done (c, x)
  end.
End core.
Arguments CircCore : clear implicits.

(** ** Lemmas: grants *)

Lemma try_write_at_word_cases s cap d :
  pos_wf (unpack s cap) → demand_wf d →
  let pos := unpack s cap in
  let free := free_size pos in
  (free < Z.max 1 (min_len d) ∧
   try_write_at_word s cap d =
     Ret (Err (if has_flag s TX_CLOSED then PClosing else Stuffed (wp pos)))) ∨
  (Z.max 1 (min_len d) ≤ free ∧ 0 < max_len d ∧
   try_write_at_word s cap d = Ret (Ok (wp pos, Z.min (max_len d) free))) ∨
  (Z.max 1 (min_len d) ≤ free ∧ max_len d = 0 ∧ try_write_at_word s cap d = Panic).
Proof.
  intros Hwf Hd pos free. unfold try_write_at_word. fold pos. fold free.
  pose proof (data_size_bounds _ Hwf). pose proof (min_max_len d Hd).
  assert (0 ≤ free) by (unfold free, free_size; fold pos in H; lia).
  assert (0 ≤ max_len d) by (destruct d; cbn in *; unfold is_usize, USIZE_MAX in *; lia).
  destruct ((free =? 0) || (free <? min_len d)) eqn:E.
  - left. split; [apply orb_true_iff in E as [?|?]; bool_to_prop; lia|].
    by destruct (has_flag s TX_CLOSED).
  - right. bool_to_prop.
    destruct (Z.eq_dec (max_len d) 0) as [Hz|Hz]; [right|left];
      (split; [lia|]; split; [lia|]).
    + replace (0 <? Z.min (max_len d) free) with false by lia. done.
    + replace (0 <? Z.min (max_len d) free) with true by lia.
      by replace (min_len d <=? Z.min (max_len d) free) with true by lia.
Qed.

Lemma try_read_at_word_cases s cap d :
  pos_wf (unpack s cap) → demand_wf d →
  let pos := unpack s cap in
  let ready := data_size pos in
  let closed := has_flag s TX_CLOSED || has_flag s RX_CLOSED in
  (ready = 0 ∧ try_read_at_word s cap d =
     Ret (Err (if closed then CClosing else Drained (rp pos)))) ∨
  (0 < ready < min_len d ∧ closed = false ∧
   try_read_at_word s cap d = Ret (Err (Drained (rp pos)))) ∨
  (0 < ready ∧ (min_len d ≤ ready ∨ closed = true) ∧ 0 < max_len d ∧
   try_read_at_word s cap d = Ret (Ok (rp pos, Z.min (max_len d) ready))) ∨
  (0 < ready ∧ (min_len d ≤ ready ∨ closed = true) ∧ max_len d = 0 ∧
   try_read_at_word s cap d = Panic).
Proof.
  intros Hwf Hd pos ready closed. unfold try_read_at_word. fold pos. fold ready.
  pose proof (data_size_bounds _ Hwf) as Hb. fold pos ready in Hb.
  assert (0 ≤ max_len d) by (destruct d; cbn in *; unfold is_usize, USIZE_MAX in *; lia).
  fold closed.
  destruct (Z.eqb_spec ready 0) as [H0|H0]; [left; split; [done|]; by destruct closed|].
  right. rewrite <- andb_assoc, <- negb_orb. fold closed.
  destruct (Z.ltb_spec ready (min_len d)) as [Hm|Hm]; cbn [andb];
    [destruct closed; cbn [negb]|].
  - right. destruct (Z.eq_dec (max_len d) 0) as [Hz|Hz]; [right|left];
      (split; [lia|]; split; [by right|]; split; [lia|]).
    + by replace (0 <? Z.min (max_len d) ready) with false by lia.
    + by replace (0 <? Z.min (max_len d) ready) with true by lia.
  - left. split; [lia|]. by split.
  - right. destruct (Z.eq_dec (max_len d) 0) as [Hz|Hz]; [right|left];
      (split; [lia|]; split; [by left|]; split; [lia|]).
    + by replace (0 <? Z.min (max_len d) ready) with false by lia.
    + by replace (0 <? Z.min (max_len d) ready) with true by lia.
Qed.

(** ** Lemmas: the pieces of a region *)

(** The region [start .. start + take) of a ring of capacity [cap]. *)
Definition ring_region (cap start take : Z) (p : Recl.SegmSlices) : Prop :=
  Recl.slice_ok p ∧ Recl.len p = take ∧
  ∀ k, 0 ≤ k < take → Recl.index p k = (start + k) mod cap.

Lemma mod_wrap cap x : 0 ≤ x < 2 * cap → x mod cap = if x <? cap then x else x - cap.
Proof.
  intros Hx. destruct (Z.ltb_spec x cap).
  - apply Z.mod_small. lia.
  - replace x with (x - cap + 1 * cap) at 1 by lia.
    rewrite Z.mod_add by lia. apply Z.mod_small. lia.
Qed.

Lemma two_pieces_region cap start take :
  0 ≤ start < cap → 0 ≤ take ≤ cap → cap - start < take →
  ring_region cap start take
    (Recl.Two (Slice start (cap - start)) (Slice 0 (take - (cap - start)))).
Proof.
  intros Hs Ht Hlt. unfold ring_region; simpl. split; [lia|]. split; [lia|]. intros k Hk.
  rewrite mod_wrap by lia. case_tests; lia.
Qed.

Lemma one_piece_region cap start take :
  0 ≤ start < cap → 0 ≤ take → take ≤ cap - start →
  ring_region cap start take (Recl.One (Slice start take)).
Proof.
  intros Hs Ht Hle. unfold ring_region; simpl. split; [lia|]. split; [lia|]. intros k Hk.
  rewrite Z.mod_small by lia. done.
Qed.

Lemma write_pieces_region cap start take :
  0 ≤ start < cap → 0 ≤ take ≤ cap →
  ∃ p, write_pieces cap start take = Ret p ∧ ring_region cap start take p.
Proof.
  intros Hs Ht. unfold write_pieces.
  destruct (Z.ltb_spec (Z.min take (cap - start)) take) as [Hlt|Hle].
  - unfold slice_to, slice_from; simpl.
    rewrite !decide_True by (simpl; lia). simpl.
    rewrite decide_True by (simpl; lia). simpl.
    eexists; split; [done|].
    replace (Z.min take (cap - start)) with (cap - start) by lia.
    rewrite Z.add_0_l. apply two_pieces_region; lia.
  - unfold slice_to, slice_from; simpl.
    rewrite !decide_True by (simpl; lia). simpl.
    rewrite decide_True by (simpl; lia). simpl.
    eexists; split; [done|]. rewrite Z.add_0_l. apply one_piece_region; lia.
Qed.

Lemma read_pieces_region cap start take :
  0 ≤ start < cap → 0 ≤ take ≤ cap →
  ring_region cap start take (read_pieces cap start take).
Proof.
  intros Hs Ht. unfold read_pieces.
  destruct (Z.ltb_spec (Z.min take (cap - start)) take) as [Hlt|Hle].
  - replace (Z.min take (cap - start)) with (cap - start) by lia.
    apply two_pieces_region; lia.
  - apply one_piece_region; lia.
Qed.

Lemma ring_index_inj cap a b :
  0 < cap → - cap < a - b < cap → a mod cap = b mod cap → a = b.
Proof.
  intros Hcap Hab Heq.
  pose proof (Z.div_mod a cap ltac:(lia)). pose proof (Z.div_mod b cap ltac:(lia)).
  assert (a - b = cap * (a / cap - b / cap)) by lia.
  assert (a / cap = b / cap); [|lia].
  destruct (Z.lt_total (a / cap) (b / cap)) as [?|[?|?]]; [nia|done|nia].
Qed.

Lemma ring_region_inj cap start take p :
  0 < cap → take ≤ cap → ring_region cap start take p → index_inj p.
Proof.
  intros Hcap Ht (_ & Hlen & Hidx) i j Hi Hj Heq.
  rewrite Hlen in Hi, Hj. rewrite !Hidx in Heq by done.
  apply ring_index_inj in Heq; lia.
Qed.

(** ** Properties *)

(** What [try_write_at] lends.  On well-formed positions it never fails an
    assertion unless the demand is the empty [less_than(0)]; it lends exactly
    when at least one slot and the demand's lower bound are free, starting at the
    write position and never beyond the free slots; otherwise it reports
    [Closing] or [Stuffed] according to the TX_CLOSED flag. *)
Theorem try_write_at_spec s cap d :
  pos_wf (unpack s cap) → demand_wf d → 0 < max_len d →
  ∃ r, try_write_at_word s cap d = Ret r ∧
    let free := free_size (unpack s cap) in
    match r with
    | Ok (start, take) =>
        start = wp (unpack s cap) ∧ 0 < take ≤ free ∧ min_len d ≤ take ≤ max_len d ∧
        (take < free → take = max_len d)
    | Err PClosing => has_flag s TX_CLOSED = true ∧ free < Z.max 1 (min_len d)
    | Err (Stuffed p) =>
        p = wp (unpack s cap) ∧ has_flag s TX_CLOSED = false ∧
        free < Z.max 1 (min_len d)
    | Err _ => False
    end.
Proof.
  intros Hwf Hd Hmax. pose proof (min_max_len d Hd).
  destruct (try_write_at_word_cases s cap d Hwf Hd) as [[? ->]|[(? & ? & ->)|(?&?&?)]];
    [|eexists; split; [done|]; simpl; lia|lia].
  eexists; split; [done|]. by destruct (has_flag s TX_CLOSED).
Qed.

Lemma try_write_at_spec_witness :
  let s := pack (mkIoPos false 1 4 6) 0 in
  ∃ r, try_write_at_word s 6 (LessThan 2) = Ret r ∧ r = Ok (4, 2).
Proof.
  intros s.
  assert (Hwf : pos_wf (unpack s 6)) by by vm_compute.
  assert (Hd : demand_wf (LessThan 2)) by by vm_compute.
  assert (Hm : 0 < max_len (LessThan 2)) by by vm_compute.
  destruct (try_write_at_spec s 6 (LessThan 2) Hwf Hd Hm) as (r & Hr & _).
  exists r. split; [exact Hr|].
  assert (Ret (Ok (4, 2)) = Ret r) as [= <-] by (rewrite <- Hr; reflexivity).
  reflexivity.
Defined.

(** What [try_read_at] lends.  It lends when data is ready and either the
    demand's lower bound is met or an end is closed (the end-of-stream
    exception), starting at the read position and never beyond the data; an empty
    ring reports [Closing] once an end is closed and [Drained] before; too little
    data with both ends open is [Drained]. *)
Theorem try_read_at_spec s cap d :
  pos_wf (unpack s cap) → demand_wf d → 0 < max_len d →
  ∃ r, try_read_at_word s cap d = Ret r ∧
    let ready := data_size (unpack s cap) in
    let closed := has_flag s TX_CLOSED || has_flag s RX_CLOSED in
    match r with
    | Ok (start, take) =>
        start = rp (unpack s cap) ∧ 0 < take ≤ ready ∧ take ≤ max_len d ∧
        (take < ready → take = max_len d) ∧ (min_len d ≤ ready ∨ closed = true)
    | Err CClosing => ready = 0 ∧ closed = true
    | Err (Drained p) =>
        p = rp (unpack s cap) ∧ closed = false ∧ ready < Z.max 1 (min_len d)
    | Err _ => False
    end.
Proof.
  intros Hwf Hd Hmax.
  destruct (try_read_at_word_cases s cap d Hwf Hd)
    as [[? ->]|[(? & Hc & ->)|[(? & ? & ? & ->)|(?&?&?&?)]]]; try lia;
    eexists; (split; [done|]); simpl.
  - destruct (_ || _); split_and!; (done || lia).
  - split; [done|]. split; [done|lia].
  - split_and!; try done; lia.
Qed.

Lemma try_read_at_spec_witness :
  let s := pack (mkIoPos false 1 4 6) TX_CLOSED in
  ∃ r, try_read_at_word s 6 (AtLeast 5) = Ret r ∧ r = Ok (1, 3).
Proof.
  intros s.
  assert (Hwf : pos_wf (unpack s 6)) by by vm_compute.
  assert (Hd : demand_wf (AtLeast 5)) by by vm_compute.
  assert (Hm : 0 < max_len (AtLeast 5)) by by vm_compute.
  destruct (try_read_at_spec s 6 (AtLeast 5) Hwf Hd Hm) as (r & Hr & _).
  exists r. split; [exact Hr|].
  assert (Ret (Ok (1, 3)) = Ret r) as [= <-] by (rewrite <- Hr; reflexivity).
  reflexivity.
Defined.
