(* ===== verification/LiveSegm.v ===== *)
(** * Live segments over a ring

    A segment that is lent over a region of a ring, partly used, and the items that
    its moves put into the memory of the ring or take out of it.  Shared by the
    models of the two rings ([CircSpsc.v], [RbHandoff.v]); positions are counted from
    the start, and item number [i] is in slot [i mod cap]. *)

From S2P Require Import Prelude Segm CircCore.

Section live.
Context {T : Type} (cap : Z) (Hcap : 0 < cap).
Implicit Types (mem : gmap Z T) (log sent pending got : list T) (s : Recl.t).

(** A live segment: a region of the ring, and how much of it was used. *)
Definition live_segm (start room used : Z) s : Prop :=
  ∃ take, take ≤ room ∧ ring_region cap (start mod cap) take (Recl.pieces s) ∧
          Recl.offset_ s = used ∧ 0 ≤ used ≤ take.

(** The items from number [R] on are where they belong. *)
Definition content mem (R : Z) log : Prop :=
  ∀ i, R ≤ i < Z.of_nat (length log) → mem !! (i mod cap) = log !! Z.to_nat i.

Lemma live_segm_new start room take p :
  ring_region cap (start mod cap) take p → 0 ≤ take ≤ room →
  live_segm start room 0 (Recl.new p).
Proof. intros Hp Ht. exists take. simpl. split; [lia|]. split; [done|]. lia. Qed.

Lemma live_segm_facts start room used s :
  room ≤ cap → live_segm start room used s →
  Recl.wf s ∧ index_inj (Recl.pieces s) ∧ Recl.offset_ s = used ∧
  used + Recl.least_count s ≤ room ∧ 0 ≤ Recl.least_count s ∧
  ∀ k, 0 ≤ k < Recl.least_count s →
    Recl.index (Recl.pieces s) (used + k) = (start + used + k) mod cap.
Proof using Hcap.
  intros Hroom (take & Htake & Hreg & Ho & Hu).
  assert (Htc : take ≤ cap) by lia.
  pose proof (ring_region_inj _ _ _ _ Hcap Htc Hreg) as Hinj.
  destruct Hreg as (Hok & Hlen & Hidx). unfold Recl.wf, Recl.least_count.
  rewrite Hlen, Ho. split_and!; try (done || lia).
  intros k Hk. rewrite Hidx by lia. rewrite Zplus_mod_idemp_l. f_equal. lia.
Qed.

Lemma live_segm_advance start room used s n :
  live_segm start room used s → 0 ≤ n ≤ Recl.least_count s →
  live_segm start room (used + n) (Recl.mk (Recl.pieces s) (Recl.offset_ s + n)).
Proof.
  intros (take & Htake & Hreg & Ho & Hu) Hn.
  assert (Recl.least_count s = take - used).
  { destruct Hreg as (_ & Hlen & _). unfold Recl.least_count. lia. }
  exists take. simpl. split; [lia|]. split; [done|]. lia.
Qed.

Lemma live_segm_grow start room room' used s :
  room ≤ room' → live_segm start room used s → live_segm start room' used s.
Proof. intros ? (take & ? & ?). exists take. split; [lia|done]. Qed.

Lemma live_segm_used start room used s :
  live_segm start room used s → Recl.offset_ s = used ∧ 0 ≤ used ≤ room.
Proof. intros (take & ? & _ & ? & ?). split; [done|lia]. Qed.

(** Moving items into a live write segment. *)
Lemma live_put mem s R sent pending room xs mem' s' n :
  let W := Z.of_nat (length sent) in
  0 ≤ R ≤ W → room ≤ cap - (W - R) →
  live_segm W room (Z.of_nat (length pending)) s → content mem R (sent ++ pending) →
  Recl.move_items_from_buff 2 mem s xs = Some (Ret (mem', s', n)) →
  let pending' := pending ++ take (Z.to_nat n) xs in
  live_segm W room (Z.of_nat (length pending')) s' ∧ content mem' R (sent ++ pending').
Proof using Hcap.
  intros W HR Hroom Hs Hct Hmv. assert (Hrc : room ≤ cap) by lia.
  destruct (live_segm_facts _ _ _ _ Hrc Hs) as (Hwf & Hinj & Ho & Hle & Hlc & Hidx).
  destruct (move_from_buff_loop 2 mem s xs Hwf Hinj (pieces_left_bound s))
    as (m & E & Hin & Hout).
  rewrite E in Hmv. injection Hmv as <- <- <-. set (n := Z.min _ _) in *.
  assert (Hln : Z.of_nat (length (take (Z.to_nat n) xs)) = n) by (rewrite length_take; lia).
  rewrite Hln in Hin, Hout. cbn zeta.
  assert (Hlp : Z.of_nat (length (pending ++ take (Z.to_nat n) xs)) =
                Z.of_nat (length pending) + n) by (rewrite length_app, length_take; lia).
  split; [rewrite Hlp; apply live_segm_advance; [done|lia]|].
  intros i Hi. rewrite length_app, Nat2Z.inj_add, Hlp in Hi. fold W in Hi. rewrite app_assoc.
  destruct (Z.lt_ge_cases i (W + Z.of_nat (length pending))) as [Hlt|Hge].
  - rewrite lookup_app_l by (rewrite length_app; lia).
    rewrite <- Hct by (rewrite length_app; lia). apply Hout. intros k Hk Heq.
    rewrite Ho, Hidx in Heq by lia. apply ring_index_inj in Heq; lia.
  - rewrite lookup_app_r by (rewrite length_app; lia). rewrite length_app.
    set (k := i - W - Z.of_nat (length pending)).
    replace i with (W + Z.of_nat (length pending) + k) at 1 by (unfold k; lia).
    rewrite <- Hidx by (unfold k; lia). rewrite <- Ho, Hin by (unfold k; lia).
    f_equal. unfold k. lia.
Qed.

(** Moving items out of a live read segment: the next items sent. *)
Lemma live_take mem s R sent pending got size :
  let W := Z.of_nat (length sent) in
  let used := Z.of_nat (length got) - R in
  0 ≤ R ≤ W → W - R ≤ cap → live_segm R (W - R) used s → content mem R (sent ++ pending) →
  0 ≤ size →
  let n := Z.min (Recl.least_count s) size in
  Recl.move_items_to_buff 2 mem s size =
    Some (Ret (Some (take (Z.to_nat n) (drop (length got) sent),
                     Recl.mk (Recl.pieces s) (Recl.offset_ s + n)))) ∧
  0 ≤ Recl.least_count s ∧ Z.of_nat (length got) + Recl.least_count s ≤ W.
Proof using Hcap.
  intros W used HR Hroom Hs Hct Hsz n.
  destruct (live_segm_facts _ _ _ _ Hroom Hs) as (Hwf & Hinj & Ho & Hle & Hlc & Hidx).
  destruct (live_segm_used _ _ _ _ Hs) as [_ Hu]. unfold W, used in *.
  split; [|lia].
  apply move_to_buff_loop; [done|apply pieces_left_bound|done|..].
  - rewrite length_take, length_drop. lia.
  - intros k Hk. rewrite length_take, length_drop in Hk. rewrite Ho, Hidx by lia.
    replace (R + (Z.of_nat (length got) - R) + k) with (Z.of_nat (length got) + k) by lia.
    rewrite Hct, lookup_app_l by (rewrite ?length_app; lia).
    rewrite lookup_take_lt, lookup_drop by lia. f_equal. lia.
Qed.

(** What the taker has afterwards. *)
Lemma live_take_step mem s R sent pending got size xs s' :
  let W := Z.of_nat (length sent) in
  0 ≤ R ≤ W → W - R ≤ cap → live_segm R (W - R) (Z.of_nat (length got) - R) s →
  content mem R (sent ++ pending) → 0 ≤ size → got `prefix_of` sent →
  Recl.move_items_to_buff 2 mem s size = Some (Ret (Some (xs, s'))) →
  live_segm R (W - R) (Z.of_nat (length (got ++ xs)) - R) s' ∧ got ++ xs `prefix_of` sent.
Proof using Hcap.
  intros W HR Hroom Hs Hct Hsz Hg Hmv.
  destruct (live_take mem s R sent pending got size HR Hroom Hs Hct Hsz) as (E & Hlc & Hlen).
  rewrite E in Hmv. injection Hmv as <- <-. set (n := Z.min _ _). split.
  - rewrite length_app, length_take, length_drop, Nat2Z.inj_add.
    replace (Z.of_nat (length got) + _ - R) with (Z.of_nat (length got) - R + n) by lia.
    apply live_segm_advance; [done|lia].
  - destruct Hg as [t ->]. rewrite drop_app_length. apply prefix_app.
    exists (drop (Z.to_nat n) t). by rewrite take_drop.
Qed.

(** Two live segments over disjoint ranges of items share no slot. *)
Lemma live_disjoint a ra ua sa b rb ub sb :
  live_segm a ra ua sa → live_segm b rb ub sb →
  a + ra ≤ b → b + rb ≤ a + cap → ra ≤ cap → rb ≤ cap →
  ∀ i j, 0 ≤ i < Recl.capacity sa → 0 ≤ j < Recl.capacity sb →
    Recl.index (Recl.pieces sa) i ≠ Recl.index (Recl.pieces sb) j.
Proof using Hcap.
  intros (ta & Hta & (_ & Hla & Hia) & _) (tb & Htb & (_ & Hlb & Hib) & _) H1 H2 H3 H4 i j.
  unfold Recl.capacity. rewrite Hla, Hlb. intros Hi Hj Heq.
  rewrite Hia, Hib, !Zplus_mod_idemp_l in Heq by lia.
  apply ring_index_inj in Heq; lia.
Qed.
End live.
