(* ===== verification/CircLaws.v ===== *)
(** * What the core of the circular buffer asks of its ends

    The contracts [TrProducer] / [TrConsumer] ([CircEnds.v]) with their laws: a
    reaction fills (or empties) its segment from the front, in order, and touches
    nothing else.  [CircPump.v] is proved against these laws; the passive ends
    discharge them here and the device ends in [CircDev.v]. *)

From S2P Require Import Prelude Demand IoPos Segm CircEnds.

(** [fetched p] is what the end has put in its segments so far. *)
Class LawfulProducer (P T : Type) `{TrProducer P T} (fetched : P → list T) : Prop := {
  react_fills p mem s :
    Recl.wf s → index_inj (Recl.pieces s) → Recl.least_count s ≤ USIZE_MAX →
    ∃ p' mem' xs x,
      p_react p mem s =
        Done (Reaction p' mem'
                (Recl.mk (Recl.pieces s) (Recl.offset_ s + Z.of_nat (length xs))) x) ∧
      Z.of_nat (length xs) ≤ Recl.least_count s ∧
      filled mem mem' (Recl.pieces s) (Recl.offset_ s) xs ∧
      fetched p' = fetched p ++ xs ∧ p_is_passive p' = p_is_passive p;
  p_check_keeps p e :
    let '(_, p', _) := p_check p e in
    fetched p' = fetched p ∧ p_is_passive p' = p_is_passive p;
}.

(** [accepted k] is what the end has taken out of its segments so far. *)
Class LawfulConsumer (C T : Type) `{TrConsumer C T} (accepted : C → list T) : Prop := {
  react_takes k mem s xs :
    Recl.wf s → Recl.least_count s ≤ USIZE_MAX →
    Z.of_nat (length xs) = Recl.least_count s →
    holds mem (Recl.pieces s) (Recl.offset_ s) xs →
    ∃ k' n x,
      c_react k mem s =
        Done (Reaction k' mem (Recl.mk (Recl.pieces s) (Recl.offset_ s + n)) x) ∧
      0 ≤ n ≤ Recl.least_count s ∧
      accepted k' = accepted k ++ take (Z.to_nat n) xs ∧
      c_is_passive k' = c_is_passive k;
  c_check_keeps k e :
    let '(_, k', _) := c_check k e in
    accepted k' = accepted k ∧ c_is_passive k' = c_is_passive k;
}.

(** A consumer that takes all it is offered and says so. *)
Class GreedyConsumer (C T : Type) `{TrConsumer C T} (accepted : C → list T) : Prop := {
  react_greedy k mem s xs :
    Recl.wf s → 0 < Recl.least_count s ≤ USIZE_MAX →
    Z.of_nat (length xs) = Recl.least_count s →
    holds mem (Recl.pieces s) (Recl.offset_ s) xs →
    ∃ k', c_react k mem s =
      Done (Reaction k' mem (Recl.mk (Recl.pieces s) (Recl.len (Recl.pieces s)))
              (Ready Reacted));
}.

(** ** The passive ends *)

#[export] Instance buf_producer_lawful {T} : LawfulProducer BufEnd T (λ _, []).
Proof.
  split.
  - intros p mem s Hwf _ _. exists p, mem, [], (Ready Continue). simpl.
    destruct Hwf as [_ ?]. unfold Recl.least_count. rewrite Z.add_0_r.
    split; [by destruct s|]. split; [lia|]. split; [apply filled_nil|done].
  - intros p e. simpl. unfold buf_producer_check.
    repeat case_match; simplify_eq; done.
Qed.

#[export] Instance buf_consumer_lawful {T} : LawfulConsumer BufEnd T (λ _, []).
Proof.
  split.
  - intros k mem s xs Hwf _ _ _. exists k, 0, (Ready Continue). simpl.
    destruct Hwf as [_ ?]. unfold Recl.least_count. rewrite Z.add_0_r.
    split; [by destruct s|]. split; [lia|done].
  - intros k e. simpl. unfold buf_consumer_check.
    repeat case_match; simplify_eq; done.
Qed.
