(* ===== verification/CircDev.v ===== *)
(** * The active ends of the circular buffer

    Models [DevProducer] / [DevConsumer] of
    [crates/buffex/src/circular_buff/circ_buff_.rs], whose [react_async] moves
    items between a device and a lent segment through
    [move_items_from_input_async] / [move_items_to_output_async]
    ([crates/abs_buff/src/buffer/segm_.rs]).

    The devices ([TrInput], [TrOutput]) are outside the workspace: they are
    parameters, and what the code relies on is the law classes below.  Every
    future is modelled under the single non-blocking poll of the synchronous
    pumps ([poll_once]): a device that is pending ends the reaction. *)

From S2P Require Import Prelude Demand IoPos Segm CircEnds CircLaws.

(** ** Devices *)

(** One poll of [read_async] into a target of [n] slots / of [write_async] of the
    given items.  A ready answer is a [SomeOf]: an optional count (here with the
    items) and whether there is an error. *)
Class TrInput (I T : Type) : Type := {
  in_read : I → Z → I * Poll (option (list T) * bool);
}.
Class TrOutput (O T : Type) : Type := {
  out_write : O → list T → O * Poll (option Z * bool);
}.

(** What the devices promise: an answer has a count, an error or both; at most the target is filled, at most the source is
    taken, and nothing else is moved.  [fetched] / [written] are the items a
    device has delivered / taken so far. *)
Class LawfulInput {I T} `{TrInput I T} (fetched : I → list T) : Prop := {
  in_read_law i n : 0 ≤ n →
    let '(i', r) := in_read i n in
    match r with
    | Ready (Some xs, _) => fetched i' = fetched i ++ xs ∧ Z.of_nat (length xs) ≤ n
    | Ready (None, err) => err = true ∧ fetched i' = fetched i
    | Pending => fetched i' = fetched i
    end;
}.
Class LawfulOutput {O T} `{TrOutput O T} (written : O → list T) : Prop := {
  out_write_law o xs :
    let '(o', r) := out_write o xs in
    match r with
    | Ready (Some n, _) =>
        0 ≤ n ≤ Z.of_nat (length xs) ∧ written o' = written o ++ take (Z.to_nat n) xs
    | Ready (None, err) => err = true ∧ written o' = written o
    | Pending => written o' = written o
    end;
}.

(** A device that takes all it is given. *)
Class GreedyOutput (O T : Type) `{TrOutput O T} : Prop := {
  out_write_greedy o xs :
    ∃ o', out_write o xs = (o', Ready (Some (Z.of_nat (length xs)), false));
}.

(** The end structures: the device and the slot of its pump's waker. *)
Record DevEnd (D : Type) : Type := mkDevEnd { device_ : D; dev_wakeslot_ : WakeSlot.t }.
Arguments mkDevEnd {D} _ _.
Arguments device_ {D} _.
Arguments dev_wakeslot_ {D} _.
Definition dev_new {D} (device : D) : DevEnd D := mkDevEnd device WakeSlot.new.

(** ** Input *)

Section input.
Context {I T : Type} `{TrInput I T}.

(** The loop of [segm_mut_input_async_]: [buff] is the unfilled part of the
    segment, [c] the items moved so far. *)
Fixpoint input_loop (fuel : nat) (dev : I) (mem : gmap Z T) (buff : slice)
    (segm : Segm.t) (size max c : Z) :
    exec (I * gmap Z T * Segm.t * Poll (option Z * bool)) :=
  match fuel with
  | O => OutOfFuel
  | S fuel =>
      if max <=? c then Done (dev, mem, segm, Ready (Some c, false))
      else
        let take := Z.min (size - c) (max - c) in
        rest ← lift (slice_from buff c);
        let '(dev, x) := in_read dev take in
        match x with
        | Pending => Done (dev, mem, segm, Pending)
        | Ready (Some items, err) =>
            let cc := Z.of_nat (length items) in
            let mem := Segm.store mem (s_start rest) items in
            if cc =? 0 then Done (dev, mem, segm, Ready (Some c, false))
            else
              let segm := Segm.mk (Segm.buffer_ segm) (Segm.offset_ segm + cc) in
              if err then Done (dev, mem, segm, Ready (Some (c + cc), true))
              else input_loop fuel dev mem buff segm size max (c + cc)
        | Ready (None, true) => Done (dev, mem, segm, Ready (Some c, true))
        | Ready (None, false) => input_loop fuel dev mem buff segm size max c
        end
  end.

Definition segm_mut_input (fuel : nat) (dev : I) (mem : gmap Z T) (segm : Segm.t)
    (demand : Demand) : exec (I * gmap Z T * Segm.t * Poll (option Z * bool)) :=
  buff ← lift (slice_from (Segm.buffer_ segm) (Segm.offset_ segm));
  let size := s_len buff in
  compromised ← lift (compromise demand (less_than size));
  match compromised with
  | None => Done (dev, mem, segm, Ready (Some 0, false))
  | Some d =>
      match max d with
      | None => Aborted
      | Some max =>
          if size <? max then Aborted
          else input_loop fuel dev mem buff segm size max 0
      end
  end.

(** [dev_producer_react_async_], polled once. *)
Fixpoint input_react_loop (fuel inner : nat) (dev : I) (mem : gmap Z T) (segm : Recl.t)
    (moved : Z) : exec (I * gmap Z T * Recl.t * Poll Z) :=
  match fuel with
  | O => OutOfFuel
  | S fuel =>
      if Recl.is_empty segm then Done (dev, mem, segm, Ready moved)
      else
        let demand := less_than (Recl.least_count segm) in
        child ← lift (Recl.as_segm segm);
        '(dev, mem, child, x) ← segm_mut_input inner dev mem child demand;
        let segm := Recl.drop_child segm child in
        match x with
        | Pending => Done (dev, mem, segm, Pending)
        | Ready (_, true) => Done (dev, mem, segm, Ready moved)
        | Ready (n, false) =>
            let n := default 0 n in
            if n =? 0 then Done (dev, mem, segm, Ready moved)
            else input_react_loop fuel inner dev mem segm (moved + n)
        end
  end.

Definition dev_producer_react (p : DevEnd I) (mem : gmap Z T) (segm : Recl.t) :
    exec (reaction (DevEnd I) T) :=
  let fuel := S (Z.to_nat (Recl.least_count segm)) in
  '(dev, mem, segm, x) ← input_react_loop fuel fuel (device_ p) mem segm 0;
  Done (Reaction (mkDevEnd dev (dev_wakeslot_ p)) mem segm
          (match x with
           | Pending => Pending
           | Ready moved => Ready (if 0 <? moved then Reacted else Continue)
           end)).

(** [DevProducer::check]. *)
Definition dev_producer_check (p : DevEnd I) (e : ProducerHookEvent) :
    bool * DevEnd I * list nat :=
  let interested := match e with PAvailable size => 0 <? size | _ => false end in
  if interested then
    let '(slot, w) := WakeSlot.signal (dev_wakeslot_ p) in
    (interested, mkDevEnd (device_ p) slot, w)
  else (interested, p, []).

#[export] Instance dev_producer : TrProducer (DevEnd I) T := {|
  p_is_passive _ := false;
  p_check := dev_producer_check;
  p_wakeslot p := Some (dev_wakeslot_ p);
  p_react := dev_producer_react;
|}.
End input.

(** ** Output *)

Section output.
Context {D T : Type} `{TrOutput D T}.

(** The loop of [segm_ref_output_async_]. *)
Fixpoint output_loop (fuel : nat) (dev : D) (mem : gmap Z T) (buff : slice)
    (segm : Segm.t) (size max c : Z) :
    exec (D * Segm.t * Poll (option Z * bool)) :=
  match fuel with
  | O => OutOfFuel
  | S fuel =>
      if max <=? c then Done (dev, segm, Ready (Some c, false))
      else
        let take := Z.min (size - c) (max - c) in
        rest ← lift (slice_from buff c);
        match Segm.fetch mem (s_start rest) (Z.to_nat take) with
        | None => Aborted
        | Some source =>
            let '(dev, x) := out_write dev source in
            match x with
            | Pending => Done (dev, segm, Pending)
            | Ready (Some cc, err) =>
                if cc =? 0 then Done (dev, segm, Ready (Some c, false))
                else
                  let segm := Segm.mk (Segm.buffer_ segm) (Segm.offset_ segm + cc) in
                  if err then Done (dev, segm, Ready (Some (c + cc), true))
                  else output_loop fuel dev mem buff segm size max (c + cc)
            | Ready (None, true) => Done (dev, segm, Ready (Some c, true))
            | Ready (None, false) => output_loop fuel dev mem buff segm size max c
            end
        end
  end.

Definition segm_ref_output (fuel : nat) (dev : D) (mem : gmap Z T) (segm : Segm.t)
    (demand : Demand) : exec (D * Segm.t * Poll (option Z * bool)) :=
  buff ← lift (slice_from (Segm.buffer_ segm) (Segm.offset_ segm));
  let size := s_len buff in
  compromised ← lift (compromise demand (less_than size));
  match compromised with
  | None => Done (dev, segm, Ready (Some 0, false))
  | Some d =>
      match max d with
      | None => Aborted
      | Some max =>
          if size <? max then Aborted
          else output_loop fuel dev mem buff segm size max 0
      end
  end.

(** [dev_consumer_react_async_], polled once. *)
Fixpoint output_react_loop (fuel inner : nat) (dev : D) (mem : gmap Z T) (segm : Recl.t)
    (moved : Z) : exec (D * Recl.t * Poll Z) :=
  match fuel with
  | O => OutOfFuel
  | S fuel =>
      if Recl.is_empty segm then Done (dev, segm, Ready moved)
      else
        let demand := less_than (Recl.least_count segm) in
        child ← lift (Recl.as_segm segm);
        '(dev, child, x) ← segm_ref_output inner dev mem child demand;
        let segm := Recl.drop_child segm child in
        match x with
        | Pending => Done (dev, segm, Pending)
        | Ready (_, true) => Done (dev, segm, Ready moved)
        | Ready (n, false) =>
            let n := default 0 n in
            if n =? 0 then Done (dev, segm, Ready moved)
            else output_react_loop fuel inner dev mem segm (moved + n)
        end
  end.

Definition dev_consumer_react (k : DevEnd D) (mem : gmap Z T) (segm : Recl.t) :
    exec (reaction (DevEnd D) T) :=
  let fuel := S (Z.to_nat (Recl.least_count segm)) in
  '(dev, segm, x) ← output_react_loop fuel fuel (device_ k) mem segm 0;
  Done (Reaction (mkDevEnd dev (dev_wakeslot_ k)) mem segm
          (match x with
           | Pending => Pending
           | Ready moved => Ready (if 0 <? moved then Reacted else Continue)
           end)).

(** [DevConsumer::check]: the closing of the producer interests it too. *)
Definition dev_consumer_check (k : DevEnd D) (e : ConsumerHookEvent) :
    bool * DevEnd D * list nat :=
  let interested := match e with
                    | CAvailable size => 0 <? size
                    | ProducerClose _ => true
                    end in
  if interested then
    let '(slot, w) := WakeSlot.signal (dev_wakeslot_ k) in
    (interested, mkDevEnd (device_ k) slot, w)
  else (interested, k, []).

#[export] Instance dev_consumer : TrConsumer (DevEnd D) T := {|
  c_is_passive _ := false;
  c_check := dev_consumer_check;
  c_wakeslot k := Some (dev_wakeslot_ k);
  c_react := dev_consumer_react;
|}.
End output.

(** ** The device ends are lawful *)

Section lawful_input.
Context {I T : Type} `{LawfulInput I T fetched}.

(** What [SegmMutInput] leaves: the items fetched, at the front of the slice. *)
Definition input_done (dev : I) (mem : gmap Z T) (b : Z) (segm : Segm.t) (max c : Z)
    (r : exec (I * gmap Z T * Segm.t * Poll (option Z * bool))) : Prop :=
  ∃ dev' mem' xs x,
    r = Done (dev', mem',
              Segm.mk (Segm.buffer_ segm) (Segm.offset_ segm + Z.of_nat (length xs)), x) ∧
    (xs = [] ∨ c + Z.of_nat (length xs) ≤ max) ∧
    fetched dev' = fetched dev ++ xs ∧
    (∀ j, mem' !! j =
      if decide (b + c ≤ j < b + c + Z.of_nat (length xs))
      then xs !! Z.to_nat (j - (b + c)) else mem !! j) ∧
    (∀ n, x = Ready (n, false) → n = Some (c + Z.of_nat (length xs))).

Lemma input_stop dev dev1 mem b segm max c x :
  fetched dev1 = fetched dev → (∀ n, x = Ready (n, false) → n = Some c) →
  input_done dev mem b segm max c (Done (dev1, mem, segm, x)).
Proof.
  intros Hf Hx. exists dev1, mem, [], x. simpl. rewrite !Z.add_0_r, app_nil_r.
  split; [by destruct segm|]. split; [by left|]. split; [done|]. split; [|done].
  intros j. case_decide; [lia|done].
Qed.

Lemma input_next dev dev1 mem b segm max c items r :
  fetched dev1 = fetched dev ++ items → c + Z.of_nat (length items) ≤ max →
  input_done dev1 (Segm.store mem (b + c) items) b
    (Segm.mk (Segm.buffer_ segm) (Segm.offset_ segm + Z.of_nat (length items)))
    max (c + Z.of_nat (length items)) r →
  input_done dev mem b segm max c r.
Proof.
  intros Hf Hn (dev' & mem' & xs & x & -> & Hxs & Hf' & Hm & Hx).
  exists dev', mem', (items ++ xs), x. simpl. rewrite length_app, Nat2Z.inj_add. split_and!.
  - do 4 f_equal. lia.
  - right. destruct Hxs as [->|]; simpl; lia.
  - by rewrite Hf', Hf, <- app_assoc.
  - intros j. rewrite Hm, store_lookup. repeat case_decide; try lia.
    + rewrite lookup_app_r by lia. f_equal. lia.
    + by rewrite lookup_app_l by lia.
    + done.
  - intros n Hn'. rewrite (Hx n Hn'). f_equal. lia.
Qed.

Lemma input_loop_spec fuel : ∀ dev mem b size segm max c,
  (Z.to_nat (max - c) < fuel)%nat → 0 ≤ c → max ≤ size →
  input_done dev mem b segm max c (input_loop fuel dev mem (Slice b size) segm size max c).
Proof.
  induction fuel as [|fuel IH]; intros dev mem b size segm max c Hfuel Hc Hmax; [lia|].
  simpl. destruct (Z.leb_spec max c) as [Hle|Hlt].
  { apply input_stop; [done|]. by intros n [= <-]. }
  unfold slice_from. simpl. rewrite decide_True by lia. simpl.
  pose proof (in_read_law dev (Z.min (size - c) (max - c)) ltac:(lia)) as Hlaw.
  destruct (in_read dev _) as [dev1 [[[items|] err]|]]; simpl; [| |by apply input_stop].
  - destruct Hlaw as [Hf Hn].
    destruct (Z.eqb_spec (Z.of_nat (length items)) 0) as [Hz|Hz].
    { destruct items; [|simpl in Hz; lia]. rewrite app_nil_r in Hf.
      apply input_stop; [done|]. by intros n [= <-]. }
    apply (input_next dev dev1 mem b segm max c items); [done|lia|].
    destruct err; [by apply input_stop|]. apply IH; lia.
  - destruct Hlaw as [-> Hf]. by apply input_stop.
Qed.

(** One round of the reaction: the child fills the front of the current piece. *)
Lemma segm_mut_input_round fuel dev mem b r lc :
  0 < r ≤ lc → (Z.to_nat r < fuel)%nat →
  ∃ dev' mem' xs x,
    segm_mut_input fuel dev mem (Segm.mk (Slice b r) 0) (less_than lc) =
      Done (dev', mem', Segm.mk (Slice b r) (Z.of_nat (length xs)), x) ∧
    Z.of_nat (length xs) ≤ r ∧ fetched dev' = fetched dev ++ xs ∧
    (∀ j, mem' !! j =
      if decide (b ≤ j < b + Z.of_nat (length xs))
      then xs !! Z.to_nat (j - b) else mem !! j) ∧
    (∀ n, x = Ready (n, false) → n = Some (Z.of_nat (length xs))).
Proof.
  intros Hr Hfuel. unfold segm_mut_input, slice_from. simpl.
  rewrite decide_True by lia. simpl. rewrite Z.sub_0_r, Z.add_0_r.
  replace (Z.min lc r) with r by lia. rewrite Z.ltb_irrefl.
  destruct (input_loop_spec fuel dev mem b r (Segm.mk (Slice b r) 0) r 0)
    as (dev' & mem' & xs & x & -> & Hxs & Hf & Hm & Hx); [lia..|].
  exists dev', mem', xs, x. simpl. split; [done|].
  split; [destruct Hxs as [->|]; simpl; lia|]. split; [done|].
  split; [|exact Hx]. intros j. rewrite Hm. rewrite Z.add_0_r. done.
Qed.

Lemma input_react_loop_spec inner fuel : ∀ dev mem s moved,
  Recl.wf s → index_inj (Recl.pieces s) →
  (Z.to_nat (Recl.least_count s) < fuel)%nat →
  (Z.to_nat (Recl.least_count s) < inner)%nat →
  ∃ dev' mem' xs x,
    input_react_loop fuel inner dev mem s moved =
      Done (dev', mem',
            Recl.mk (Recl.pieces s) (Recl.offset_ s + Z.of_nat (length xs)), x) ∧
    Z.of_nat (length xs) ≤ Recl.least_count s ∧
    filled mem mem' (Recl.pieces s) (Recl.offset_ s) xs ∧
    fetched dev' = fetched dev ++ xs.
Proof.
  induction fuel as [|fuel IH]; intros dev mem s moved Hwf Hinj Hfuel Hinner; [lia|].
  assert (Hlc : 0 ≤ Recl.least_count s)
    by (destruct Hwf as [_ ?]; unfold Recl.least_count; lia).
  simpl. unfold Recl.is_empty. destruct (Z.eqb_spec (Recl.least_count s) 0) as [Hz|Hz].
  { exists dev, mem, [], (Ready moved). simpl. rewrite Z.add_0_r, app_nil_r.
    split; [by destruct s|]. split; [lia|]. split; [apply filled_nil|done]. }
  destruct (as_segm_round s Hwf ltac:(lia)) as (b & r & -> & Hr & Hidx & _). simpl.
  destruct (segm_mut_input_round inner dev mem b r (Recl.least_count s))
    as (dev1 & m1 & xs & x & -> & Hxs & Hf & Hm & Hx); [lia..|]. simpl.
  unfold Recl.drop_child, Segm.reclaim; simpl.
  set (n := Z.of_nat (length xs)) in *.
  assert (Hfill : filled mem m1 (Recl.pieces s) (Recl.offset_ s) xs).
  { split; fold n.
    - intros k Hk. rewrite Hidx, Hm, decide_True by lia. f_equal. lia.
    - intros j Hj. rewrite Hm, decide_False; [done|]. intros Hb.
      apply (Hj (j - b)); [lia|]. rewrite Hidx by lia. lia. }
  assert (Hstop : ∀ y : Poll Z, ∃ dev' mem' ys x,
    Done (dev1, m1, Recl.mk (Recl.pieces s) (Recl.offset_ s + n), y) =
      Done (dev', mem', Recl.mk (Recl.pieces s) (Recl.offset_ s + Z.of_nat (length ys)), x) ∧
    Z.of_nat (length ys) ≤ Recl.least_count s ∧
    filled mem mem' (Recl.pieces s) (Recl.offset_ s) ys ∧
    fetched dev' = fetched dev ++ ys).
  { intros y. exists dev1, m1, xs, y. split; [done|]. split; [lia|]. by split. }
  destruct x as [[cnt [|]]|]; [apply Hstop| |apply Hstop].
  rewrite (Hx cnt eq_refl). simpl.
  destruct (Z.eqb_spec n 0); [apply Hstop|].
  destruct (IH dev1 m1 (Recl.mk (Recl.pieces s) (Recl.offset_ s + n)) (moved + n))
    as (dev' & mem' & ys & y & -> & Hys & Hfill' & Hf').
  { apply recl_advance_wf; [done|lia]. }
  { done. }
  { unfold Recl.least_count in *. simpl. lia. }
  { unfold Recl.least_count in *. simpl. lia. }
  simpl in *. exists dev', mem', (xs ++ ys), y.
  assert (Hl : n + Z.of_nat (length ys) ≤ Recl.least_count s)
    by (unfold Recl.least_count in *; simpl in *; lia).
  rewrite length_app, Nat2Z.inj_add. fold n.
  split; [do 4 f_equal; lia|]. split; [lia|]. split.
  - destruct Hwf as [_ Ho]. eapply filled_app; [done|lia| |exact Hfill|exact Hfill'].
    unfold Recl.least_count in Hl. lia.
  - by rewrite Hf', Hf, <- app_assoc.
Qed.

#[export] Instance dev_producer_lawful :
  LawfulProducer (DevEnd I) T (λ p, fetched (device_ p)).
Proof.
  split.
  - intros p mem s Hwf Hinj Hmax. simpl. unfold dev_producer_react.
    destruct (input_react_loop_spec (S (Z.to_nat (Recl.least_count s)))
                (S (Z.to_nat (Recl.least_count s))) (device_ p) mem s 0 Hwf Hinj)
      as (dev' & mem' & xs & x & -> & Hxs & Hfill & Hf); [lia..|].
    simpl. eexists _, mem', xs, _. split; [reflexivity|]. split; [done|].
    split; [done|]. by split.
  - intros p e. simpl. unfold dev_producer_check. repeat case_match; by simplify_eq.
Qed.
End lawful_input.

Section lawful_output.
Context {D T : Type} `{LawfulOutput D T written}.

(** What [SegmRefOutput] leaves: the items written, from the front of the slice. *)
Definition output_done (dev : D) (segm : Segm.t) (max c : Z) (xs : list T)
    (r : exec (D * Segm.t * Poll (option Z * bool))) : Prop :=
  ∃ dev' n x,
    r = Done (dev', Segm.mk (Segm.buffer_ segm) (Segm.offset_ segm + n), x) ∧
    0 ≤ n ∧ (n = 0 ∨ c + n ≤ max) ∧
    written dev' = written dev ++ take (Z.to_nat n) (drop (Z.to_nat c) xs) ∧
    (∀ m, x = Ready (m, false) → m = Some (c + n)).

Lemma output_stop dev dev1 segm max c xs y :
  written dev1 = written dev → (∀ m, y = Ready (m, false) → m = Some c) →
  output_done dev segm max c xs (Done (dev1, segm, y)).
Proof.
  intros Hw Hy. exists dev1, 0, y. rewrite !Z.add_0_r, app_nil_r.
  split; [by destruct segm|]. split; [lia|]. split; [by left|]. by split.
Qed.

Lemma output_next dev dev1 segm max c xs cc r :
  written dev1 = written dev ++ take (Z.to_nat cc) (drop (Z.to_nat c) xs) →
  0 ≤ c → 0 ≤ cc → c + cc ≤ max →
  output_done dev1 (Segm.mk (Segm.buffer_ segm) (Segm.offset_ segm + cc)) max (c + cc) xs r →
  output_done dev segm max c xs r.
Proof.
  intros Hw Hc Hcc Hmax (dev' & n & x & -> & Hn & Hn' & Hw2 & Hx).
  exists dev', (cc + n), x. simpl.
  split; [by rewrite Z.add_assoc|]. split; [lia|]. split; [right; lia|]. split.
  - rewrite Hw2, Hw, <- app_assoc. f_equal.
    replace (Z.to_nat (c + cc)) with (Z.to_nat c + Z.to_nat cc)%nat by lia.
    rewrite <- drop_drop, take_take_drop. f_equal. lia.
  - intros m Hm. rewrite (Hx m Hm). f_equal. lia.
Qed.

Lemma output_loop_spec fuel : ∀ dev mem b size segm max c (xs : list T),
  (Z.to_nat (max - c) < fuel)%nat → 0 ≤ c → max ≤ size →
  Z.of_nat (length xs) = size →
  (∀ k, 0 ≤ k < size → mem !! (b + k) = xs !! Z.to_nat k) →
  output_done dev segm max c xs (output_loop fuel dev mem (Slice b size) segm size max c).
Proof.
  induction fuel as [|fuel IH];
    intros dev mem b size segm max c xs Hfuel Hc Hmax Hlen Hmem; [lia|].
  simpl. destruct (Z.leb_spec max c) as [Hle|Hlt].
  { apply output_stop; [done|]. by intros m [= <-]. }
  unfold slice_from. simpl. rewrite decide_True by lia. simpl.
  set (tk := Z.min (size - c) (max - c)).
  assert (Hf : Segm.fetch mem (b + c) (Z.to_nat tk) =
               Some (take (Z.to_nat tk) (drop (Z.to_nat c) xs))).
  { apply fetch_Some. split; [rewrite length_take, length_drop; lia|]. intros k Hk.
    rewrite lookup_take_lt, lookup_drop, <- Z.add_assoc, Hmem by lia. f_equal. lia. }
  rewrite Hf. set (src := take _ _) in *.
  assert (Hsrc : Z.of_nat (length src) = tk)
    by (unfold src; rewrite length_take, length_drop; lia).
  pose proof (out_write_law dev src) as Hlaw.
  destruct (out_write dev src) as [dev1 [[[cc|] err]|]]; [| |by apply output_stop].
  - destruct Hlaw as [Hcc Hw]. rewrite Hsrc in Hcc.
    assert (Hw' : written dev1 =
      written dev ++ take (Z.to_nat cc) (drop (Z.to_nat c) xs)).
    { rewrite Hw. unfold src. rewrite take_take. do 2 f_equal. lia. }
    destruct (Z.eqb_spec cc 0) as [->|Hz].
    { apply output_stop; [by rewrite Hw, take_0, app_nil_r|]. by intros m [= <-]. }
    apply (output_next dev dev1 segm max c xs cc); [done|lia..|].
    destruct err; [by apply output_stop|]. apply IH; (done || lia).
  - destruct Hlaw as [-> Hw]. by apply output_stop.
Qed.

Lemma segm_ref_output_round fuel dev mem b r lc (xs : list T) :
  0 < r ≤ lc → (Z.to_nat r < fuel)%nat → Z.of_nat (length xs) = r →
  (∀ k, 0 ≤ k < r → mem !! (b + k) = xs !! Z.to_nat k) →
  ∃ dev' n x,
    segm_ref_output fuel dev mem (Segm.mk (Slice b r) 0) (less_than lc) =
      Done (dev', Segm.mk (Slice b r) n, x) ∧
    0 ≤ n ≤ r ∧ written dev' = written dev ++ take (Z.to_nat n) xs ∧
    (∀ m, x = Ready (m, false) → m = Some n).
Proof.
  intros Hr Hfuel Hlen Hmem. unfold segm_ref_output, slice_from. simpl.
  rewrite decide_True by lia. simpl. rewrite Z.sub_0_r, Z.add_0_r.
  replace (Z.min lc r) with r by lia. rewrite Z.ltb_irrefl.
  destruct (output_loop_spec fuel dev mem b r (Segm.mk (Slice b r) 0) r 0 xs)
    as (dev' & n & x & -> & Hn & Hn' & Hw & Hx); [lia..|done| |].
  { done. }
  exists dev', n, x. simpl. split; [done|].
  split; [lia|]. rewrite drop_0 in Hw. by split.
Qed.

Lemma output_react_loop_spec inner fuel : ∀ dev mem s moved xs,
  Recl.wf s →
  (Z.to_nat (Recl.least_count s) < fuel)%nat →
  (Z.to_nat (Recl.least_count s) < inner)%nat →
  Z.of_nat (length xs) = Recl.least_count s →
  holds mem (Recl.pieces s) (Recl.offset_ s) xs →
  ∃ dev' n x,
    output_react_loop fuel inner dev mem s moved =
      Done (dev', Recl.mk (Recl.pieces s) (Recl.offset_ s + n), x) ∧
    0 ≤ n ≤ Recl.least_count s ∧
    written dev' = written dev ++ take (Z.to_nat n) xs.
Proof.
  induction fuel as [|fuel IH]; intros dev mem s moved xs Hwf Hfuel Hinner Hlen Hh; [lia|].
  assert (Hlc : 0 ≤ Recl.least_count s)
    by (destruct Hwf as [_ ?]; unfold Recl.least_count; lia).
  simpl. unfold Recl.is_empty. destruct (Z.eqb_spec (Recl.least_count s) 0) as [Hz|Hz].
  { exists dev, 0, (Ready moved). rewrite Z.add_0_r, app_nil_r.
    split; [by destruct s|]. split; [lia|done]. }
  destruct (as_segm_round s Hwf ltac:(lia)) as (b & r & -> & Hr & Hidx & _). simpl.
  destruct (segm_ref_output_round inner dev mem b r (Recl.least_count s)
              (take (Z.to_nat r) xs))
    as (dev1 & n & x & -> & Hn & Hw & Hx); [lia|lia|rewrite length_take; lia| |].
  { intros k Hk. rewrite lookup_take_lt, <- Hh, Hidx by lia. done. }
  simpl. unfold Recl.drop_child, Segm.reclaim; simpl.
  rewrite take_take in Hw. replace (Z.to_nat n `min` Z.to_nat r)%nat with (Z.to_nat n) in Hw by lia.
  assert (Hstop : ∀ y : Poll Z, ∃ dev' n' x,
    Done (dev1, Recl.mk (Recl.pieces s) (Recl.offset_ s + n), y) =
      Done (dev', Recl.mk (Recl.pieces s) (Recl.offset_ s + n'), x) ∧
    0 ≤ n' ≤ Recl.least_count s ∧ written dev' = written dev ++ take (Z.to_nat n') xs).
  { intros y. exists dev1, n, y. split; [done|]. split; [lia|done]. }
  destruct x as [[cnt [|]]|]; [apply Hstop| |apply Hstop].
  rewrite (Hx cnt eq_refl). simpl.
  destruct (Z.eqb_spec n 0); [apply Hstop|].
  destruct (IH dev1 mem (Recl.mk (Recl.pieces s) (Recl.offset_ s + n)) (moved + n)
              (drop (Z.to_nat n) xs)) as (dev' & n' & y & -> & Hn' & Hw').
  { apply recl_advance_wf; [done|lia]. }
  { unfold Recl.least_count in *. simpl. lia. }
  { unfold Recl.least_count in *. simpl. lia. }
  { rewrite length_drop. unfold Recl.least_count in *. simpl. lia. }
  { simpl. apply holds_drop; [lia|done]. }
  simpl in *. exists dev', (n + n'), y.
  split; [by rewrite <- Z.add_assoc|].
  split; [unfold Recl.least_count in *; simpl in *; lia|].
  rewrite Hw', Hw, <- app_assoc. f_equal.
  rewrite take_take_drop. f_equal. lia.
Qed.

#[export] Instance dev_consumer_lawful :
  LawfulConsumer (DevEnd D) T (λ k, written (device_ k)).
Proof.
  split.
  - intros k mem s xs Hwf Hmax Hlen Hh. simpl. unfold dev_consumer_react.
    destruct (output_react_loop_spec (S (Z.to_nat (Recl.least_count s)))
                (S (Z.to_nat (Recl.least_count s))) (device_ k) mem s 0 xs Hwf)
      as (dev' & n & x & -> & Hn & Hw); [lia|lia|done|done|].
    simpl. eexists _, n, _. split; [reflexivity|]. split; [done|]. by split.
  - intros k e. simpl. unfold dev_consumer_check. repeat case_match; by simplify_eq.
Qed.
End lawful_output.

Section greedy_output.
Context {D T : Type} `{GreedyOutput D T} (written : D → list T).

Lemma segm_ref_output_greedy fuel dev mem b r lc (xs : list T) :
  0 < r ≤ lc → (1 < fuel)%nat → Z.of_nat (length xs) = r →
  (∀ k, 0 ≤ k < r → mem !! (b + k) = xs !! Z.to_nat k) →
  ∃ dev', segm_ref_output fuel dev mem (Segm.mk (Slice b r) 0) (less_than lc) =
            Done (dev', Segm.mk (Slice b r) r, Ready (Some r, false)).
Proof.
  intros Hr Hfuel Hlen Hmem. unfold segm_ref_output, slice_from. simpl.
  rewrite decide_True by lia. simpl. rewrite Z.sub_0_r, Z.add_0_r.
  replace (Z.min lc r) with r by lia. rewrite Z.ltb_irrefl.
  destruct fuel as [|[|fuel]]; [lia..|]. simpl.
  replace (r <=? 0) with false by lia.
  unfold slice_from. simpl. rewrite decide_True by lia. simpl.
  rewrite Z.sub_0_r, Z.min_id, Z.add_0_r.
  replace (Segm.fetch mem b (Z.to_nat r)) with (Some xs).
  - destruct (out_write_greedy dev xs) as [dev' ->]. rewrite Hlen.
    replace (r =? 0) with false by lia. rewrite Z.leb_refl. by exists dev'.
  - symmetry. apply fetch_Some. split; [lia|]. intros k Hk.
    rewrite Hmem by lia. f_equal. lia.
Qed.

Lemma output_react_loop_greedy inner fuel : ∀ dev mem s moved (xs : list T),
  Recl.wf s →
  (Z.to_nat (Recl.least_count s) < fuel)%nat → (1 < inner)%nat →
  Z.of_nat (length xs) = Recl.least_count s →
  holds mem (Recl.pieces s) (Recl.offset_ s) xs →
  ∃ dev', output_react_loop fuel inner dev mem s moved =
    Done (dev', Recl.mk (Recl.pieces s) (Recl.len (Recl.pieces s)),
          Ready (moved + Recl.least_count s)).
Proof.
  induction fuel as [|fuel IH]; intros dev mem s moved xs Hwf Hfuel Hinner Hlen Hh; [lia|].
  simpl. unfold Recl.is_empty. destruct (Z.eqb_spec (Recl.least_count s) 0) as [Hz|Hz].
  { exists dev. rewrite Hz, Z.add_0_r. unfold Recl.least_count in Hz.
    destruct s as [p o]. simpl in *. by replace (Recl.len p) with o by lia. }
  assert (Hlc : 0 < Recl.least_count s)
    by (destruct Hwf as [_ ?]; unfold Recl.least_count in *; lia).
  destruct (as_segm_round s Hwf Hlc) as (b & r & -> & Hr & Hidx & _). simpl.
  destruct (segm_ref_output_greedy inner dev mem b r (Recl.least_count s)
              (take (Z.to_nat r) xs)) as (dev1 & ->);
    [lia|lia|rewrite length_take; lia| |].
  { intros k Hk. rewrite lookup_take_lt, <- Hh, Hidx by lia. done. }
  simpl. unfold Recl.drop_child, Segm.reclaim; simpl.
  replace (r =? 0) with false by lia.
  destruct (IH dev1 mem (Recl.mk (Recl.pieces s) (Recl.offset_ s + r)) (moved + r)
              (drop (Z.to_nat r) xs)) as (dev' & ->).
  { apply recl_advance_wf; [done|lia]. }
  { unfold Recl.least_count in *. simpl. lia. }
  { done. }
  { rewrite length_drop. unfold Recl.least_count in *. simpl. lia. }
  { simpl. apply holds_drop; [lia|done]. }
  exists dev'. simpl.
  assert (E : Recl.least_count s =
    r + Recl.least_count (Recl.mk (Recl.pieces s) (Recl.offset_ s + r)))
    by (unfold Recl.least_count; simpl; lia).
  by rewrite E, Z.add_assoc.
Qed.

#[export] Instance dev_consumer_greedy :
  GreedyConsumer (DevEnd D) T (λ k, written (device_ k)).
Proof.
  split. intros k mem s xs Hwf Hlc Hlen Hh. simpl. unfold dev_consumer_react.
  destruct (output_react_loop_greedy (S (Z.to_nat (Recl.least_count s)))
              (S (Z.to_nat (Recl.least_count s))) (device_ k) mem s 0 xs Hwf)
    as (dev' & ->); [lia|lia|done|done|].
  eexists. cbn [mbind exec_bind]. rewrite Z.add_0_l.
  by replace (0 <? Recl.least_count s) with true by lia.
Qed.
End greedy_output.
