(* ===== verification/SegmTests.v ===== *)
(** * The tests of the segments

    The [#[test]] functions of [crates/abs_buff/src/buffer/segm_.rs] and
    [segm_tests.rs], with the generic checks of the latter, run on the model of the
    segments.  A test names the memory behind each of its segments; what a dropped
    segment reports to its reclaimer is its offset ([Segm.reclaim]). *)

From S2P Require Import Prelude Testing Demand Segm SegmMove CircEnds CircLaws CircDev.

Definition rounds : nat := 64.

(** [(a..b).collect()], and a slice over the storage that holds it. *)
Definition upto (a b : Z) : list Z := seqZ a (b - a).
Definition storage (xs : list Z) : gmap Z Z := Segm.store ∅ 0 xs.
Definition whole (len : Z) : Segm.t := Segm.new (Slice 0 len).

(** The items a view shows ([iter_slices]), and those read back from a storage. *)
Definition view (mem : gmap Z Z) (s : Segm.t) : exec (list Z) :=
  sl ← unwrap (Segm.iter_slices s);
  unwrap (Segm.fetch mem (s_start sl) (Z.to_nat (s_len sl))).
Definition read_init (mem : gmap Z Z) (from : Z) (n : nat) : exec (list Z) :=
  unwrap (Segm.fetch mem from n).

Definition take_child (s : Segm.t) (d : Demand) : exec Segm.t :=
  x ← lift (Segm.take_segm s d); unwrap x.
Definition move_all (mem : gmap Z Z) (s : Segm.t) (dst : Z) : exec (list Z * Segm.t * Z) :=
  unwrap (Segm.move_items_to_buff mem s dst).

Module SegmentTests.

Definition segm_ref_take_consume_next_is_next : exec unit :=
  let data := storage (upto 0 64) in
  let segm := whole 64 in
  child ← take_child segm (less_than 10);
  assert_eq (Segm.least_count child) 10;;
  slice ← view data child;
  assert_eq slice (upto 0 10);;
  '(dst, child, n) ← move_all data child 10;
  assert_eq n 10;;
  assert_eq (Segm.least_count child) 0;;
  assert_eq dst (upto 0 10);;
  let segm := Segm.drop_child segm child in
  assert_eq (Segm.least_count segm) (64 - 10);;
  rest ← view data segm;
  assert_eq (head rest) (Some 10);;
  child ← take_child segm (less_than 64);
  assert_eq (Segm.least_count child) (64 - 10);;
  slice ← view data child;
  assert_eq slice (upto 10 64);;
  '(dst, child, n) ← move_all data child 20;
  assert_eq n 20;;
  assert_eq dst (upto 10 30);;
  let segm := Segm.drop_child segm child in
  assert_eq (Segm.least_count segm) (64 - 30);;
  child ← take_child segm (less_than 64);
  assert_eq (Segm.least_count child) (64 - 30);;
  slice ← view data child;
  assert_eq slice (upto 30 64);;
  let segm := Segm.drop_child segm child in
  assert_eq (Segm.least_count segm) (64 - 30);;
  assert_eq (Segm.reclaim 0 (Segm.offset_ segm)) 30.

Definition segm_ref_as_segm_ref_consume_next_is_next : exec unit :=
  let data := storage (upto 0 24) in
  let segm := whole 24 in
  child ← lift (Segm.as_segm segm);
  assert_eq (Segm.least_count child) 24;;
  '(_, child, n) ← move_all data child 16;
  assert_eq n 16;;
  assert_eq (Segm.least_count child) (24 - 16);;
  slice ← view data child;
  assert_eq slice (upto 16 24);;
  let segm := Segm.drop_child segm child in
  assert_eq (Segm.least_count segm) (24 - 16);;
  child ← lift (Segm.as_segm segm);
  assert_eq (Segm.least_count child) (24 - 16);;
  '(_, child, n) ← move_all data child 16;
  assert_eq n (24 - 16);;
  assert_eq (Segm.least_count child) 0;;
  let segm := Segm.drop_child segm child in
  assert_eq (Segm.least_count segm) 0;;
  assert (Segm.is_empty segm);;
  assert (is_none (Segm.iter_slices segm));;
  assert_eq (Segm.reclaim 0 (Segm.offset_ segm)) 24.

Definition segm_ref_move_items_to_segm_transfers_in_order : exec unit :=
  let data := storage (upto 0 40) in
  let src := whole 40 in
  let dst1 := whole 16 in
  src_child ← lift (Segm.as_segm src);
  dst_child ← lift (Segm.as_segm dst1);
  '(src_child, dst1_data, dst_child, n) ← unwrap (Segm.move_items_to_segm data src_child ∅ dst_child);
  assert_eq n 16;;
  assert_eq (Segm.least_count src_child) (40 - 16);;
  assert_eq (Segm.least_count dst_child) 0;;
  let src := Segm.drop_child src src_child in
  let dst1 := Segm.drop_child dst1 dst_child in
  assert_eq (Segm.least_count src) (40 - 16);;
  assert_eq (Segm.least_count dst1) 0;;
  let dst2 := whole 16 in
  src_child ← lift (Segm.as_segm src);
  dst_child ← lift (Segm.as_segm dst2);
  '(src_child, dst2_data, dst_child, n) ← unwrap (Segm.move_items_to_segm data src_child ∅ dst_child);
  assert_eq n 16;;
  assert_eq (Segm.least_count src_child) (40 - 32);;
  let src := Segm.drop_child src src_child in
  let dst2 := Segm.drop_child dst2 dst_child in
  assert_eq (Segm.least_count src) (40 - 32);;
  xs ← read_init dst1_data 0 16; assert_eq xs (upto 0 16);;
  xs ← read_init dst2_data 0 16; assert_eq xs (upto 16 32);;
  assert_eq (Segm.reclaim 0 (Segm.offset_ src)) 32;;
  assert_eq (Segm.reclaim 0 (Segm.offset_ dst1)) 16;;
  assert_eq (Segm.reclaim 0 (Segm.offset_ dst2)) 16.

Definition segm_ref_move_items_from_segm_into_mut : exec unit :=
  let data := storage [7; 8; 9; 10] in
  let src := whole 4 in
  let dst := whole 4 in
  src_child ← lift (Segm.as_segm src);
  dst_child ← lift (Segm.as_segm dst);
  '(src_child, dst_data, dst_child, n) ← unwrap (SegmMut.move_items_from_segm ∅ dst_child data src_child);
  assert_eq n 4;;
  assert_eq (Segm.least_count src_child) 0;;
  assert_eq (Segm.least_count dst_child) 0;;
  xs ← read_init dst_data 0 4; assert_eq xs [7; 8; 9; 10];;
  assert_eq (Segm.reclaim 0 (Segm.offset_ (Segm.drop_child src src_child))) 4;;
  assert_eq (Segm.reclaim 0 (Segm.offset_ (Segm.drop_child dst dst_child))) 4.

Definition segm_ref_clone_items_keeps_source_position : exec unit :=
  let data := storage (upto 0 24) in
  let src := whole 24 in
  let dst := whole 12 in
  src_child ← lift (Segm.as_segm src);
  dst_child ← take_child dst (less_than 8);
  x ← lift (clone_items_to_segm data src_child ∅ dst_child);
  '(dst_data, dst_child, n) ← unwrap x;
  assert_eq n 8;;
  assert_eq (Segm.least_count src_child) 24;;
  let src := Segm.drop_child src src_child in
  let dst := Segm.drop_child dst dst_child in
  assert_eq (Segm.least_count src) 24;;
  assert_eq (Segm.least_count dst) (12 - 8);;
  src_child ← lift (Segm.as_segm src);
  dst_child ← take_child dst (less_than 8);
  x ← lift (clone_items_to_segm data src_child dst_data dst_child);
  '(dst_data, dst_child, n) ← unwrap x;
  assert_eq n 4;;
  let src := Segm.drop_child src src_child in
  let dst := Segm.drop_child dst dst_child in
  assert_eq (Segm.least_count src) 24;;
  assert_eq (Segm.least_count dst) 0;;
  xs ← read_init dst_data 0 12; assert_eq xs (upto 0 8 ++ upto 0 4);;
  assert_eq (Segm.reclaim 0 (Segm.offset_ src)) 0;;
  assert_eq (Segm.reclaim 0 (Segm.offset_ dst)) 12.

Definition segm_ref_clone_items_to_buff : exec unit :=
  let data := storage [10; 20; 30; 40] in
  let segm := whole 4 in
  '(dst, n) ← unwrap (Segm.clone_items_to_buff data segm 4);
  assert_eq n 4;;
  assert_eq (Segm.least_count segm) 4;;
  assert_eq dst [10; 20; 30; 40];;
  assert_eq (Segm.reclaim 0 (Segm.offset_ segm)) 0.

Definition segm_mut_take_write_next_is_next : exec unit :=
  let segm := whole 32 in
  child ← take_child segm (less_than 8);
  assert_eq (Segm.least_count child) 8;;
  let '(data, child, n) := Segm.move_items_from_buff ∅ child (upto 0 8) in
  assert_eq n 8;;
  assert_eq (Segm.least_count child) 0;;
  let segm := Segm.drop_child segm child in
  assert_eq (Segm.least_count segm) (32 - 8);;
  child ← take_child segm (less_than 32);
  assert_eq (Segm.least_count child) (32 - 8);;
  let '(data, child, n) := Segm.move_items_from_buff data child (upto 10 20) in
  assert_eq n 10;;
  let segm := Segm.drop_child segm child in
  assert_eq (Segm.least_count segm) (32 - 18);;
  xs ← read_init data 0 8; assert_eq xs (upto 0 8);;
  xs ← read_init data 8 10; assert_eq xs (upto 10 20);;
  assert_eq (Segm.reclaim 0 (Segm.offset_ segm)) 18.

Definition segm_mut_as_segm_mut_write_next_is_next : exec unit :=
  let segm := whole 16 in
  child ← lift (Segm.as_segm segm);
  let '(data, child, n) := Segm.move_items_from_buff ∅ child (upto 1 7) in
  assert_eq n 6;;
  slots ← unwrap (Segm.iter_slices child);
  assert_eq (s_len slots) (16 - 6);;
  let segm := Segm.drop_child segm child in
  assert_eq (Segm.least_count segm) (16 - 6);;
  child ← lift (Segm.as_segm segm);
  let '(data, child, n) := Segm.move_items_from_buff data child (upto 7 17) in
  assert_eq n 10;;
  assert_eq (Segm.least_count child) 0;;
  let segm := Segm.drop_child segm child in
  assert_eq (Segm.least_count segm) 0;;
  assert (Segm.is_empty segm);;
  assert (is_none (Segm.iter_slices segm));;
  xs ← read_init data 0 16; assert_eq xs (upto 1 17);;
  assert_eq (Segm.reclaim 0 (Segm.offset_ segm)) 16.

Definition segm_mut_clone_items_from_buff : exec unit :=
  let segm := whole 16 in
  child ← take_child segm (less_than 8);
  let '(data, child, n) := SegmMut.clone_items_from_buff ∅ child [1; 2; 3; 4; 5] in
  assert_eq n 5;;
  assert_eq (Segm.least_count child) (8 - 5);;
  let segm := Segm.drop_child segm child in
  assert_eq (Segm.least_count segm) (16 - 5);;
  xs ← read_init data 0 5; assert_eq xs [1; 2; 3; 4; 5];;
  assert_eq (Segm.reclaim 0 (Segm.offset_ segm)) 5.

Definition segm_reclaim_reclaimed_only_on_drop : exec unit :=
  let data := storage [1; 2; 3; 4] in
  let segm := whole 4 in
  child ← take_child segm (less_than 2);
  '(_, child, n) ← move_all data child 2;
  assert_eq n 2;;
  let segm := Segm.drop_child segm child in
  assert_eq (Segm.least_count segm) 2;;
  assert_eq (Segm.reclaim 0 (Segm.offset_ segm)) 2.

(** [segm_tests.rs]: the generic checks, on segments of any number of pieces. *)
Definition recl_view (mem : gmap Z Z) (s : Recl.t) : exec (list Z) :=
  slices ← lift (Recl.iter_slices s);
  xss ← unwrap (mapM (M:=option) (λ sl, Segm.fetch mem (s_start sl) (Z.to_nat (s_len sl))) slices);
  Done (concat xss).
Definition assert_view_eq (mem : gmap Z Z) (s : Recl.t) (expect : list Z) : exec unit :=
  assert_eq (Recl.least_count s) (Z.of_nat (length expect));;
  xs ← recl_view mem s;
  assert_eq xs expect.

Definition test_move_items_to_segm (smem : gmap Z Z) (src : Recl.t) (tmem : gmap Z Z)
    (dst : Recl.t) (expect : list Z) : exec (Recl.t * gmap Z Z * Recl.t * Z) :=
  assert_view_eq smem src expect;;
  x ← move_items_to_segm rounds smem src tmem dst;
  '(src, tmem, dst, moved) ← unwrap x;
  assert_eq moved (Z.of_nat (length expect));;
  assert_eq (Recl.least_count src) 0;;
  assert_eq (Recl.least_count dst) 0;;
  Done (src, tmem, dst, moved).

Definition test_move_items_from_segm (smem : gmap Z Z) (src : Recl.t) (tmem : gmap Z Z)
    (dst : Recl.t) (expect : list Z) : exec (Recl.t * gmap Z Z * Recl.t * Z) :=
  assert_view_eq smem src expect;;
  x ← move_items_from_segm rounds tmem dst smem src;
  '(src, tmem, dst, moved) ← unwrap x;
  assert_eq moved (Z.of_nat (length expect));;
  assert_eq (Recl.least_count src) 0;;
  assert_eq (Recl.least_count dst) 0;;
  Done (src, tmem, dst, moved).

Definition test_move_items_to_buff (mem : gmap Z Z) (src : Recl.t) (dst : Z)
    (expect : list Z) : exec (list Z * Recl.t) :=
  assert_view_eq mem src expect;;
  assert (Z.of_nat (length expect) <=? dst);;
  o ← unwrap (Recl.move_items_to_buff rounds mem src dst);
  x ← lift o;
  '(items, src) ← unwrap x;
  assert_eq (length items) (length expect);;
  assert_eq (Recl.least_count src) 0;;
  assert_eq items expect;;
  Done (items, src).

Definition test_move_items_from_buff (mem : gmap Z Z) (dst : Recl.t) (expect : list Z) :
    exec (gmap Z Z * Recl.t * Z) :=
  o ← unwrap (Recl.move_items_from_buff rounds mem dst expect);
  '(mem, dst, moved) ← lift o;
  assert_eq moved (Z.of_nat (length expect));;
  assert_eq (Recl.least_count dst) 0;;
  Done (mem, dst, moved).

Definition recl_whole (len : Z) : Recl.t := Recl.new (Recl.One (Slice 0 len)).

Definition segm_move_items_trait_defaults : exec unit :=
  let expect := upto 0 16 in
  '(src, dst_data, dst, moved) ←
    test_move_items_to_segm (storage expect) (recl_whole 16) ∅ (recl_whole 16) expect;
  assert_eq moved 16;;
  xs ← read_init dst_data 0 16; assert_eq xs expect;;
  assert_eq (Recl.offset_ src) 16;;
  assert_eq (Recl.offset_ dst) 16;;
  let expect := upto 10 26 in
  '(src, dst_data, dst, moved) ←
    test_move_items_from_segm (storage expect) (recl_whole 16) ∅ (recl_whole 16) expect;
  assert_eq moved 16;;
  xs ← read_init dst_data 0 16; assert_eq xs expect;;
  assert_eq (Recl.offset_ src) 16;;
  assert_eq (Recl.offset_ dst) 16;;
  let expect := upto 0 16 in
  '(items, src) ← test_move_items_to_buff (storage expect) (recl_whole 16) 16 expect;
  assert_eq items expect;;
  assert_eq (Recl.offset_ src) 16;;
  let expect := upto 100 116 in
  '(dst_data, dst, moved) ← test_move_items_from_buff ∅ (recl_whole 16) expect;
  assert_eq moved 16;;
  xs ← read_init dst_data 0 16; assert_eq xs expect;;
  assert_eq (Recl.offset_ dst) 16.

Definition suite : list (exec unit) :=
  [segm_ref_take_consume_next_is_next; segm_ref_as_segm_ref_consume_next_is_next;
   segm_ref_move_items_to_segm_transfers_in_order;
   segm_ref_move_items_from_segm_into_mut; segm_ref_clone_items_keeps_source_position;
   segm_ref_clone_items_to_buff; segm_mut_take_write_next_is_next;
   segm_mut_as_segm_mut_write_next_is_next; segm_mut_clone_items_from_buff;
   segm_reclaim_reclaimed_only_on_drop; segm_move_items_trait_defaults].

Theorem segment_tests_pass : Forall passes suite.
Proof. run_tests. Qed.

End SegmentTests.

(** ** [segm_tests.rs]: segments and devices *)

Module DeviceTests.

(** [TestInput] and [TestOutput] of that file. *)
Record TestInput : Type := mkTestInput { in_data : list Z; in_pos : Z }.
Definition test_input_read (d : TestInput) (target : Z) :
    TestInput * Poll (option (list Z) * bool) :=
  let n := Z.min target (Z.of_nat (length (in_data d)) - in_pos d) in
  (mkTestInput (in_data d) (in_pos d + n),
   Ready (Some (take (Z.to_nat n) (drop (Z.to_nat (in_pos d)) (in_data d))), false)).
#[export] Instance test_input : TrInput TestInput Z := {| in_read := test_input_read |}.
Record TestOutput : Type := mkTestOutput { out_data : list Z }.
Definition test_output_write (d : TestOutput) (source : list Z) :
    TestOutput * Poll (option Z * bool) :=
  (mkTestOutput (out_data d ++ source), Ready (Some (Z.of_nat (length source)), false)).
#[export] Instance test_output : TrOutput TestOutput Z := {| out_write := test_output_write |}.

(** A [SomeOf] that has a left part. *)
Definition pick_left (x : Poll (option Z * bool)) : exec Z :=
  match x with Ready (o, _) => unwrap o | Pending => Aborted end.

Definition segm_ref_output_async_moves_data_and_advances_offset : exec unit :=
  let data := storage (upto 0 10) in
  let segm := whole 10 in
  child ← lift (Segm.as_segm segm);
  '(output, child, res) ← segm_ref_output rounds (mkTestOutput []) data child (less_than 6);
  moved ← pick_left res;
  assert_eq moved 6;;
  let segm := Segm.drop_child segm child in
  assert_eq (Segm.least_count segm) 4;;
  assert_eq (out_data output) (upto 0 6);;
  assert_eq (Segm.reclaim 0 (Segm.offset_ segm)) 6.

Definition segm_mut_input_async_reads_data_and_advances_offset : exec unit :=
  let segm := whole 10 in
  child ← lift (Segm.as_segm segm);
  '(input, data, child, res) ←
    segm_mut_input rounds (mkTestInput (upto 0 10) 0) ∅ child (less_than 7);
  moved ← pick_left res;
  assert_eq moved 7;;
  let segm := Segm.drop_child segm child in
  assert_eq (Segm.least_count segm) 3;;
  assert_eq (Segm.reclaim 0 (Segm.offset_ segm)) 7;;
  xs ← read_init data 0 7; assert_eq xs (upto 0 7).

Definition suite : list (exec unit) :=
  [segm_ref_output_async_moves_data_and_advances_offset;
   segm_mut_input_async_reads_data_and_advances_offset].

Theorem device_tests_pass : Forall passes suite.
Proof. run_tests. Qed.

End DeviceTests.
