(* ===== verification/CircPump.v ===== *)
(** * The synchronous pumps of the circular buffer

    The commits of one end drive the other end when that one is active
    ([pump_input_sync], [pump_output_sync] of
    [crates/buffex/src/circular_buff/core_.rs]).  Everything here is proved
    against the laws of the ends ([CircLaws.v]); the witnesses instantiate them
    with device ends ([CircDev.v]) and passive ends. *)

From S2P Require Import Prelude Demand Atomex IoPos Segm CircEnds CircCore CircLaws CircDev.

Section ring.
Context {P C T : Type} `{TrProducer P T} `{TrConsumer C T}.
Implicit Types (c : CircCore P C T) (items xs : list T).

(** The core as a queue: [R] items read and [W] written so far, [items] the
    ones in between. *)
Record core_ring c (R W : Z) items : Prop := {
  ring_word : is_usize (atm_stat_ c);
  ring_cap : MIN_CAPACITY ≤ cap_ c ≤ MAX_CAPACITY;
  ring_counters : counters (cap_ c) R W;
  ring_repr : represents (core_pos c) R W;
  ring_length : Z.of_nat (length items) = W - R;
  ring_content : ∀ k, 0 ≤ k < W - R →
    buffer_ c !! ((R + k) mod cap_ c) = items !! Z.to_nat k;
}.

(** What a commit and its event leave alone. *)
Definition same_closed c c' : Prop :=
  is_tx_closed c' = is_tx_closed c ∧ is_rx_closed c' = is_rx_closed c.

Lemma ring_sizes c R W items :
  core_ring c R W items →
  pos_wf (core_pos c) ∧ core_data_size c = W - R ∧ core_free_size c = cap_ c - (W - R).
Proof.
  intros [Hw Hcap Hc Hr _ _].
  pose proof (represents_data_size (core_pos c) R W Hcap Hc Hr) as Hd.
  split; [by apply (represents_wf (core_pos c) R W Hcap Hc Hr)|]. split; [done|].
  unfold core_free_size, free_size. by rewrite Hd.
Qed.

Lemma has_flag_advance_write cap n s f :
  is_state_flag f → is_usize s → pos_wf (advance_wp (unpack s cap) n) →
  has_flag (advance_write_word cap n s) f = has_flag s f.
Proof. intros Hf Hs Hp. apply has_flag_pack; eauto with cantare. Qed.

Lemma has_flag_advance_read cap n s f :
  is_state_flag f → is_usize s → pos_wf (advance_rp (unpack s cap) n) →
  has_flag (advance_read_word cap n s) f = has_flag s f.
Proof. intros Hf Hs Hp. apply has_flag_pack; eauto with cantare. Qed.

(** An event changes the notified end and the list of the woken only. *)
Lemma fire_consumer_core c e :
  ∃ k w, fire_consumer c e = with_consumer c k w ∧
    (k = consumer_ c ∨ ∃ b, c_check (consumer_ c) e = (b, k, w)).
Proof.
  unfold fire_consumer. destruct (negb _).
  - exists (consumer_ c), []. unfold with_consumer. rewrite app_nil_r.
    destruct c. by split; [|left].
  - destruct (c_check _ e) as [[b k] w]. exists k, w. split; [done|].
    right. by exists b.
Qed.

Lemma fire_producer_core c e :
  ∃ p w, fire_producer c e = with_producer c p w ∧
    (p = producer_ c ∨ ∃ b, p_check (producer_ c) e = (b, p, w)).
Proof.
  unfold fire_producer. destruct (negb _).
  - exists (producer_ c), []. unfold with_producer. rewrite app_nil_r.
    destruct c. by split; [|left].
  - destruct (p_check _ e) as [[b p] w]. exists p, w. split; [done|].
    right. by exists b.
Qed.

(** The two commits on the queue. *)
Lemma ring_write c R W items xs :
  core_ring c R W items → Z.of_nat (length xs) ≤ cap_ c - (W - R) →
  (∀ k, 0 ≤ k < Z.of_nat (length xs) →
     buffer_ c !! ((W + k) mod cap_ c) = xs !! Z.to_nat k) →
  let c' := update_pos_ c (advance_write_word (capacity c) (Z.of_nat (length xs))) in
  core_ring c' R (W + Z.of_nat (length xs)) (items ++ xs) ∧ same_closed c c'.
Proof.
  intros Hring Hn Hxs c'. destruct (ring_sizes _ _ _ _ Hring) as (Hwf & Hd & Hf).
  destruct Hring as [Hw Hcap Hc Hr Hl Hct].
  set (n := Z.of_nat (length xs)) in *.
  destruct (represents_advance_wp (core_pos c) R W Hcap Hc Hr n) as [Hc' Hr'];
    [unfold core_free_size in Hf; lia|].
  pose proof (represents_wf (advance_wp (core_pos c) n) _ _ Hcap Hc' Hr') as Hwf'.
  assert (Hpos : core_pos c' = advance_wp (core_pos c) n).
  { unfold core_pos, c'. simpl. apply unpack_pack_fits; eauto with cantare. }
  split.
  - constructor; simpl; try done.
    + eauto with cantare.
    + by rewrite Hpos.
    + rewrite length_app. lia.
    + intros k Hk. destruct (Z.lt_ge_cases k (W - R)).
      * rewrite Hct by lia. by rewrite lookup_app_l by lia.
      * rewrite lookup_app_r by lia.
        replace (R + k) with (W + (k - (W - R))) by lia.
        rewrite Hxs by lia. f_equal. lia.
  - split; unfold is_tx_closed, is_rx_closed; simpl;
      apply has_flag_advance_write; (done || by unfold is_state_flag; auto).
Qed.

Lemma ring_read c R W items n :
  core_ring c R W items → 0 ≤ n ≤ W - R →
  let c' := update_pos_ c (advance_read_word (capacity c) n) in
  core_ring c' (R + n) W (drop (Z.to_nat n) items) ∧ same_closed c c'.
Proof.
  intros Hring Hn c'. destruct (ring_sizes _ _ _ _ Hring) as (Hwf & Hd & Hf).
  destruct Hring as [Hw Hcap Hc Hr Hl Hct].
  destruct (represents_advance_rp (core_pos c) R W Hcap Hc Hr n) as [Hc' Hr'];
    [unfold core_data_size in Hd; lia|].
  pose proof (represents_wf (advance_rp (core_pos c) n) _ _ Hcap Hc' Hr') as Hwf'.
  assert (Hpos : core_pos c' = advance_rp (core_pos c) n).
  { unfold core_pos, c'. simpl. apply unpack_pack_fits; eauto with cantare. }
  split.
  - constructor; simpl; try done.
    + eauto with cantare.
    + by rewrite Hpos.
    + rewrite length_drop. lia.
    + intros k Hk. rewrite <- Z.add_assoc, Hct, lookup_drop by lia. f_equal. lia.
  - split; unfold is_tx_closed, is_rx_closed; simpl;
      apply has_flag_advance_read; (done || by unfold is_state_flag; auto).
Qed.

(** Changes outside the state word and the occupied slots. *)
Lemma ring_ends c R W items p k w :
  core_ring c R W items →
  core_ring (mkCore (buffer_ c) (cap_ c) (atm_stat_ c) p k w) R W items.
Proof. intros []. by constructor. Qed.

Lemma ring_flag c R W items f :
  core_ring c R W items → is_state_flag f → core_ring (set_flag_ c f) R W items.
Proof.
  intros [] Hf. unfold set_flag_, set_flag_rmw, rmw, core_pos in *.
  destruct (_ =? 0); constructor; unfold core_pos; simpl; try done.
  - eauto with cantare.
  - by rewrite unpack_set_flag.
Qed.

(** The whole free region, and the whole occupied one. *)
Lemma ring_free_region c R W items take :
  core_ring c R W items → 0 ≤ take ≤ cap_ c - (W - R) →
  ∃ p, create_write_segm c (wp (core_pos c)) take = Ret (Recl.new p) ∧
       ring_region (cap_ c) (wp (core_pos c)) take p ∧ index_inj p ∧
       wp (core_pos c) = W mod cap_ c.
Proof.
  intros [_ Hcap [[??]?] (? & Hwp & ?) _ _] Ht. unfold MIN_CAPACITY in Hcap.
  change (capacity_ (core_pos c)) with (cap_ c) in *.
  pose proof (Z.mod_pos_bound W (cap_ c) ltac:(lia)).
  destruct (write_pieces_region (cap_ c) (wp (core_pos c)) take) as (p & Hp & Hreg);
    [lia..|].
  exists p. unfold create_write_segm, capacity. rewrite Hp. split; [done|].
  split; [done|]. split; [|done]. eapply ring_region_inj, Hreg; lia.
Qed.

Lemma ring_used_region c R W items take :
  core_ring c R W items → 0 ≤ take ≤ W - R →
  let s := create_read_segm c (rp (core_pos c)) take in
  Recl.wf s ∧ Recl.offset_ s = 0 ∧ Recl.least_count s = take ∧
  holds (buffer_ c) (Recl.pieces s) 0 (list.take (Z.to_nat take) items).
Proof.
  intros [_ Hcap [[??]?] (Hrp & ? & ?) Hl Hct] Ht s. unfold MIN_CAPACITY in Hcap.
  change (capacity_ (core_pos c)) with (cap_ c) in *.
  pose proof (Z.mod_pos_bound R (cap_ c) ltac:(lia)).
  destruct (read_pieces_region (cap_ c) (rp (core_pos c)) take) as (Hok & Hlen & Hidx);
    [lia..|].
  unfold s, create_read_segm, Recl.wf, Recl.least_count, Recl.new, capacity.
  cbn [Recl.pieces Recl.offset_]. rewrite Hlen. split; [split; [done|lia]|]. split; [done|]. split; [lia|].
  intros k Hk. rewrite length_take in Hk. rewrite lookup_take_lt by lia.
  rewrite Z.add_0_l, Hidx, Hrp, Zplus_mod_idemp_l by lia. apply Hct. lia.
Qed.
End ring.

Section pumps.
Context {P C T : Type} `{HP : TrProducer P T} `{HC : TrConsumer C T}.
Context (fetched : P → list T) (accepted : C → list T).
Context `{!LawfulProducer P T fetched} `{!LawfulConsumer C T accepted}.
Implicit Types (c : CircCore P C T) (items xs : list T).

(** A condition that the reactions and the checks of a consumer keep. *)
Definition consumer_keeps (I : C → Prop) : Prop :=
  (∀ k (mem : gmap Z T) s r, I k → c_react k mem s = Done r → I (r_end r)) ∧
  (∀ k e, I k → let '(_, k', _) := c_check k e in I k').

(** What a pump or a commit may change in the ends: [xs] more was fetched,
    [ys] more was accepted. *)
Record ends_moved c c' (xs ys : list T) : Prop := {
  moved_cap : cap_ c' = cap_ c;
  moved_closed : same_closed c c';
  moved_fetched : fetched (producer_ c') = fetched (producer_ c) ++ xs;
  moved_accepted : accepted (consumer_ c') = accepted (consumer_ c) ++ ys;
  moved_p_passive : p_is_passive (producer_ c') = p_is_passive (producer_ c);
  moved_c_passive : c_is_passive (consumer_ c') = c_is_passive (consumer_ c);
  moved_keeps I : consumer_keeps I → I (consumer_ c) → I (consumer_ c');
}.

Lemma ends_moved_refl c : ends_moved c c [] [].
Proof. split; rewrite ?app_nil_r; by try split. Qed.

Lemma ends_moved_trans c1 c2 c3 xs xs' ys ys' :
  ends_moved c1 c2 xs ys → ends_moved c2 c3 xs' ys' →
  ends_moved c1 c3 (xs ++ xs') (ys ++ ys').
Proof.
  intros [H1 [H2 H3] H4 H5 H6 H7 H8] [E1 [E2 E3] E4 E5 E6 E7 E8].
  split; [congruence|split; congruence| | |congruence|congruence|].
  - by rewrite E4, H4, app_assoc.
  - by rewrite E5, H5, app_assoc.
  - intros I HI Hc. by apply E8, H8.
Qed.

Lemma ends_moved_then c1 c2 c3 xs ys :
  ends_moved c1 c2 xs ys → ends_moved c2 c3 [] [] → ends_moved c1 c3 xs ys.
Proof.
  intros H12 H23. rewrite <- (app_nil_r xs), <- (app_nil_r ys).
  by eapply ends_moved_trans.
Qed.

Lemma ends_moved_after c1 c2 c3 xs ys :
  ends_moved c1 c2 [] [] → ends_moved c2 c3 xs ys → ends_moved c1 c3 xs ys.
Proof.
  intros H12 H23. rewrite <- (app_nil_l xs), <- (app_nil_l ys).
  by eapply ends_moved_trans.
Qed.

Lemma fire_consumer_moved c e : ends_moved c (fire_consumer c e) [] [].
Proof.
  destruct (fire_consumer_core c e) as (k & w & -> & [->|[b E]]).
  - split; simpl; rewrite ?app_nil_r; by try split.
  - pose proof (c_check_keeps (consumer_ c) e) as Hk. rewrite E in Hk.
    destruct Hk. split; simpl; rewrite ?app_nil_r; try by try split.
    intros I [_ HI] Hc. specialize (HI _ e Hc). by rewrite E in HI.
Qed.

Lemma fire_producer_moved c e : ends_moved c (fire_producer c e) [] [].
Proof.
  destruct (fire_producer_core c e) as (p & w & -> & [->|[b E]]).
  - split; simpl; rewrite ?app_nil_r; by try split.
  - pose proof (p_check_keeps (producer_ c) e) as Hk. rewrite E in Hk.
    destruct Hk. split; simpl; rewrite ?app_nil_r; by try split.
Qed.

Lemma ring_fire_consumer c R W items e :
  core_ring c R W items → core_ring (fire_consumer c e) R W items.
Proof.
  intros Hr. destruct (fire_consumer_core c e) as (k & w & -> & _). by apply ring_ends.
Qed.

Lemma ring_fire_producer c R W items e :
  core_ring c R W items → core_ring (fire_producer c e) R W items.
Proof.
  intros Hr. destruct (fire_producer_core c e) as (p & w & -> & _). by apply ring_ends.
Qed.

(** The commits up to their pump. *)
Lemma commit_write_ring c R W items xs :
  core_ring c R W items → Z.of_nat (length xs) ≤ cap_ c - (W - R) →
  (∀ k, 0 ≤ k < Z.of_nat (length xs) →
     buffer_ c !! ((W + k) mod cap_ c) = xs !! Z.to_nat k) →
  let c' := commit_write c (Z.of_nat (length xs)) in
  core_ring c' R (W + Z.of_nat (length xs)) (items ++ xs) ∧ ends_moved c c' [] [].
Proof.
  intros Hr Hn Hxs c'. destruct (ring_write c R W items xs Hr Hn Hxs) as [Hr' Hs].
  unfold c', commit_write. split; [by apply ring_fire_consumer|].
  eapply ends_moved_then; [|apply fire_consumer_moved].
  split; rewrite ?app_nil_r; done.
Qed.

Lemma commit_read_ring c R W items n :
  core_ring c R W items → 0 ≤ n ≤ W - R →
  let c' := commit_read c n in
  core_ring c' (R + n) W (drop (Z.to_nat n) items) ∧ ends_moved c c' [] [].
Proof.
  intros Hr Hn c'. destruct (ring_read c R W items n Hr Hn) as [Hr' Hs].
  unfold c', commit_read. split; [by apply ring_fire_producer|].
  eapply ends_moved_then; [|apply fire_producer_moved].
  split; rewrite ?app_nil_r; done.
Qed.

(** With a passive peer a commit does not pump. *)
Lemma advance_write_passive fuel c n :
  c_is_passive (consumer_ (commit_write c n)) = true → (2 ≤ fuel)%nat →
  advance_write fuel c n = Done (commit_write c n).
Proof. intros Hp Hf. destruct fuel as [|[|fuel]]; [lia..|]. simpl. by rewrite Hp. Qed.

(** With an active one it does. *)
Lemma advance_write_pumped fuel c n c' m :
  pump_output_sync fuel (commit_write c n) = Done (c', m) →
  advance_write (S fuel) c n = Done c'.
Proof.
  intros E.
  change (('(c, _) ← pump_output_sync fuel (commit_write c n); Done c) = Done c').
  by rewrite E.
Qed.

Lemma advance_read_passive fuel c n :
  p_is_passive (producer_ (commit_read c n)) = true → (2 ≤ fuel)%nat →
  advance_read fuel c n = Done (commit_read c n).
Proof. intros Hp Hf. destruct fuel as [|[|fuel]]; [lia..|]. simpl. by rewrite Hp. Qed.

(** Filling a free region leaves the queue as it is, and the items are where a commit
    looks for them. *)
Lemma ring_fill c R W items take p mem xs :
  core_ring c R W items → ring_region (cap_ c) (wp (core_pos c)) take p →
  take ≤ cap_ c - (W - R) → Z.of_nat (length xs) ≤ take →
  filled (buffer_ c) mem p 0 xs →
  core_ring (with_buffer c mem) R W items ∧
  ∀ k, 0 ≤ k < Z.of_nat (length xs) → mem !! ((W + k) mod cap_ c) = xs !! Z.to_nat k.
Proof.
  intros Hr (_ & _ & Hidx) Ht Hxs [Hin Hout].
  pose proof Hr as [_ Hcap [[??]?] (_ & Hwp & _) _ _]. unfold MIN_CAPACITY in Hcap.
  change (capacity_ (core_pos c)) with (cap_ c) in Hwp. split.
  - destruct Hr as [? ? ? ? ? Hct]. constructor; try done. intros k Hk. simpl.
    rewrite Hout; [by apply Hct|]. intros k' Hk' Heq.
    rewrite Z.add_0_l, Hidx, Hwp, Zplus_mod_idemp_l in Heq by lia.
    apply ring_index_inj in Heq; lia.
  - intros k Hk. rewrite <- Hin, Z.add_0_l, Hidx, Hwp by lia.
    by rewrite Zplus_mod_idemp_l.
Qed.

(** One reaction of the producer over the whole free region, committed. *)
Lemma react_commit_write c R W items :
  core_ring c R W items →
  let s := cap_ c - (W - R) in
  ∃ p r xs,
    create_write_segm c (wp (core_pos c)) s = Ret (Recl.new p) ∧
    p_react (producer_ c) (buffer_ c) (Recl.new p) = Done r ∧
    Recl.offset_ (r_segm r) = Z.of_nat (length xs) ∧
    Recl.capacity (r_segm r) - Recl.least_count (r_segm r) = Z.of_nat (length xs) ∧
    Recl.capacity (r_segm r) = s ∧ Z.of_nat (length xs) ≤ s ∧
    let c1 := with_buffer (with_producer c (r_end r) []) (r_mem r) in
    let c2 := commit_write c1 (Z.of_nat (length xs)) in
    core_ring c2 R (W + Z.of_nat (length xs)) (items ++ xs) ∧ ends_moved c c2 xs [].
Proof.
  intros Hr s. pose proof Hr as [_ Hcap [[??]?] _ Hl _].
  unfold MIN_CAPACITY, MAX_CAPACITY in Hcap. change POS_MASK with 268435455 in Hcap.
  destruct (ring_free_region c R W items s Hr ltac:(lia)) as (p & Hp & Hreg & Hinj & _).
  pose proof Hreg as (Hok & Hlen & _).
  assert (Hlc : Recl.least_count (Recl.new p) = s)
    by (unfold Recl.least_count; simpl; lia).
  destruct (react_fills (producer_ c) (buffer_ c) (Recl.new p))
    as (p' & m' & xs & x & Hre & Hxs & Hfill & Hf & Hpas);
    [split; [done|simpl; lia]|done|unfold USIZE_MAX; lia|].
  rewrite Hlc in Hxs. cbn [Recl.pieces Recl.offset_ Recl.new] in *.
  eexists p, _, xs. split; [done|]. split; [exact Hre|]. simpl.
  split; [done|]. split; [unfold Recl.capacity, Recl.least_count; simpl; lia|].
  split; [exact Hlen|]. split; [done|].
  set (c1 := with_buffer (with_producer c p' []) m').
  destruct (ring_fill c R W items s p m' xs Hr Hreg ltac:(lia) Hxs Hfill) as [Hr0 Hslots].
  assert (Hr1 : core_ring c1 R W items) by (destruct Hr0; by constructor).
  assert (Hm1 : ends_moved c c1 xs []).
  { split; simpl; rewrite ?app_nil_r; by try split. }
  destruct (commit_write_ring c1 R W items xs Hr1) as [Hr2 Hm2]; [done|done|].
  split; [exact Hr2|]. by eapply ends_moved_then.
Qed.

(** One reaction of the consumer over the whole occupied region, committed. *)
Lemma react_commit_read c R W items :
  core_ring c R W items →
  let s := create_read_segm c (rp (core_pos c)) (W - R) in
  ∃ r n,
    c_react (consumer_ c) (buffer_ c) s = Done r ∧
    Recl.offset_ (r_segm r) = n ∧
    Recl.capacity (r_segm r) - Recl.least_count (r_segm r) = n ∧
    Recl.capacity (r_segm r) = W - R ∧ 0 ≤ n ≤ W - R ∧
    let c1 := with_buffer (with_consumer c (r_end r) []) (r_mem r) in
    let c2 := commit_read c1 n in
    core_ring c2 (R + n) W (drop (Z.to_nat n) items) ∧
    ends_moved c c2 [] (take (Z.to_nat n) items).
Proof.
  intros Hr s. pose proof Hr as [_ Hcap [[??]?] _ Hl _].
  unfold MIN_CAPACITY, MAX_CAPACITY in Hcap. change POS_MASK with 268435455 in Hcap.
  destruct (ring_used_region c R W items (W - R) Hr ltac:(lia)) as (Hwf & Ho & Hlc & Hh).
  fold s in Hwf, Ho, Hlc, Hh. rewrite take_ge in Hh by lia.
  destruct (react_takes (consumer_ c) (buffer_ c) s items)
    as (k' & n & x & Hre & Hn & Hacc & Hpas); [done|unfold USIZE_MAX; lia|lia|by rewrite Ho|].
  rewrite Hlc in Hn. rewrite Ho, Z.add_0_l in Hre.
  eexists _, n. split; [exact Hre|]. simpl. split; [done|].
  split; [unfold Recl.capacity, Recl.least_count; simpl; lia|].
  split; [unfold Recl.capacity, Recl.least_count in *; simpl in *; lia|]. split; [done|].
  set (c1 := with_buffer (with_consumer c k' []) (buffer_ c)).
  assert (Hr1 : core_ring c1 R W items) by (destruct Hr; by constructor).
  assert (Hm1 : ends_moved c c1 [] (take (Z.to_nat n) items)).
  { split; simpl; rewrite ?app_nil_r; try by try split.
    intros I [HI _] Hc. by apply (HI _ _ _ _ Hc Hre). }
  destruct (commit_read_ring c1 R W items n Hr1 Hn) as [Hr2 Hm2].
  split; [exact Hr2|]. by eapply ends_moved_then.
Qed.

Lemma pump_input_loop_S fuel c total :
  pump_input_loop (S fuel) c total =
    if has_flag (atm_stat_ c) TX_CLOSED || has_flag (atm_stat_ c) RX_CLOSED
    then Done (c, total)
    else if core_free_size c =? 0 then Done (c, total)
    else
      segm ← lift (create_write_segm c (wp (core_pos c)) (core_free_size c));
      r ← p_react (producer_ c) (buffer_ c) segm;
      let moved := Recl.capacity (r_segm r) - Recl.least_count (r_segm r) in
      c ← advance_write fuel (with_buffer (with_producer c (r_end r) []) (r_mem r))
            (Recl.offset_ (r_segm r));
      if (moved =? 0) || negb (is_reacted (r_poll r)) then Done (c, total + moved)
      else pump_input_loop fuel c (total + moved).
Proof. reflexivity. Qed.

Lemma pump_output_loop_S fuel c total :
  pump_output_loop (S fuel) c total =
    if has_flag (atm_stat_ c) RX_CLOSED then Done (c, total)
    else if core_data_size c =? 0 then Done (c, total)
    else
      r ← c_react (consumer_ c) (buffer_ c)
            (create_read_segm c (rp (core_pos c)) (core_data_size c));
      let moved := Recl.capacity (r_segm r) - Recl.least_count (r_segm r) in
      c ← advance_read fuel (with_buffer (with_consumer c (r_end r) []) (r_mem r))
            (Recl.offset_ (r_segm r));
      if (moved =? 0) || negb (is_reacted (r_poll r)) then Done (c, total + moved)
      else pump_output_loop fuel c (total + moved).
Proof. reflexivity. Qed.

Lemma pump_input_loop_spec fuel : ∀ c total R W items,
  core_ring c R W items → c_is_passive (consumer_ c) = true →
  (Z.to_nat (cap_ c - (W - R)) + 3 ≤ fuel)%nat →
  ∃ c' xs, pump_input_loop fuel c total = Done (c', total + Z.of_nat (length xs)) ∧
    core_ring c' R (W + Z.of_nat (length xs)) (items ++ xs) ∧ ends_moved c c' xs [].
Proof.
  induction fuel as [|fuel IH]; intros c total R W items Hr Hpas Hfuel; [lia|].
  assert (Hstop : ∃ c' xs, Done (c, total) = Done (c', total + Z.of_nat (length xs)) ∧
    core_ring c' R (W + Z.of_nat (length xs)) (items ++ xs) ∧ ends_moved c c' xs []).
  { exists c, []. rewrite !Z.add_0_r, app_nil_r. split; [done|].
    split; [done|apply ends_moved_refl]. }
  destruct (ring_sizes _ _ _ _ Hr) as (_ & _ & Hfree).
  rewrite pump_input_loop_S.
  destruct (_ || _); [exact Hstop|]. rewrite Hfree.
  destruct (Z.eqb_spec (cap_ c - (W - R)) 0); [exact Hstop|].
  destruct (react_commit_write c R W items Hr)
    as (p & r & xs & Hp & Hre & Ho & Hmv & _ & Hxs & Hr2 & Hm2).
  rewrite Hp. cbn [lift mbind exec_bind]. rewrite Hre.
  cbn [mbind exec_bind]. rewrite Ho, Hmv.
  set (c1 := with_buffer _ _) in *. set (c2 := commit_write c1 _) in *.
  assert (Hcp : c_is_passive (consumer_ c2) = true).
  { destruct Hm2. congruence. }
  rewrite advance_write_passive by (done || lia). cbn [mbind exec_bind]. fold c2.
  destruct (Z.eqb_spec (Z.of_nat (length xs)) 0) as [Hz|Hz]; cbn [orb].
  { exists c2, xs. by split. }
  destruct (negb _); [exists c2, xs; by split|].
  destruct (IH c2 (total + Z.of_nat (length xs)) R (W + Z.of_nat (length xs)) (items ++ xs)
              Hr2 Hcp) as (c' & ys & -> & Hr' & Hm').
  { rewrite (moved_cap _ _ _ _ Hm2). destruct Hr as [_ _ [[??]?] _ _ _]. lia. }
  exists c', (xs ++ ys). rewrite length_app, Nat2Z.inj_add, !Z.add_assoc, app_assoc.
  split; [done|]. split; [done|]. change [] with ([] ++ [] : list T).
  by eapply ends_moved_trans.
Qed.

Lemma pump_input_sync_S fuel c :
  pump_input_sync (S fuel) c =
    if p_is_passive (producer_ c) then Done (c, 0)
    else if negb (c_is_passive (consumer_ c)) then Done (c, 0)
    else pump_input_loop fuel c 0.
Proof. reflexivity. Qed.

Lemma pump_output_sync_S fuel c :
  pump_output_sync (S fuel) c =
    if c_is_passive (consumer_ c) then Done (c, 0)
    else if negb (p_is_passive (producer_ c)) then Done (c, 0)
    else pump_output_loop fuel c 0.
Proof. reflexivity. Qed.

Lemma pump_input_sync_spec fuel c R W items :
  core_ring c R W items → c_is_passive (consumer_ c) = true →
  (Z.to_nat (cap_ c - (W - R)) + 4 ≤ fuel)%nat →
  ∃ c' xs, pump_input_sync fuel c = Done (c', Z.of_nat (length xs)) ∧
    core_ring c' R (W + Z.of_nat (length xs)) (items ++ xs) ∧ ends_moved c c' xs [].
Proof.
  intros Hr Hpas Hfuel. destruct fuel as [|fuel]; [lia|]. rewrite pump_input_sync_S.
  rewrite Hpas. cbn [negb]. destruct (p_is_passive (producer_ c)).
  - exists c, []. rewrite Z.add_0_r, app_nil_r.
    split; [done|]. split; [done|apply ends_moved_refl].
  - destruct (pump_input_loop_spec fuel c 0 R W items Hr Hpas) as (c' & xs & -> & ?);
      [lia|]. exists c', xs. by rewrite Z.add_0_l.
Qed.

Lemma pump_output_loop_spec fuel : ∀ c total R W items,
  core_ring c R W items → p_is_passive (producer_ c) = true →
  (Z.to_nat (W - R) + 3 ≤ fuel)%nat →
  ∃ c' n, pump_output_loop fuel c total = Done (c', total + n) ∧ 0 ≤ n ≤ W - R ∧
    core_ring c' (R + n) W (drop (Z.to_nat n) items) ∧
    ends_moved c c' [] (take (Z.to_nat n) items).
Proof.
  induction fuel as [|fuel IH]; intros c total R W items Hr Hpas Hfuel; [lia|].
  pose proof (ring_counters _ _ _ _ Hr) as [[_ HRW] _].
  assert (Hstop : ∃ c' n, Done (c, total) = Done (c', total + n) ∧ 0 ≤ n ≤ W - R ∧
    core_ring c' (R + n) W (drop (Z.to_nat n) items) ∧
    ends_moved c c' [] (take (Z.to_nat n) items)).
  { exists c, 0. rewrite !Z.add_0_r. split; [done|]. split; [lia|].
    split; [done|apply ends_moved_refl]. }
  destruct (ring_sizes _ _ _ _ Hr) as (_ & Hds & _).
  rewrite pump_output_loop_S.
  destruct (has_flag _ _); [exact Hstop|]. rewrite Hds.
  destruct (Z.eqb_spec (W - R) 0); [exact Hstop|].
  destruct (react_commit_read c R W items Hr)
    as (r & n0 & Hre & Ho & Hmv & _ & Hn & Hr2 & Hm2).
  rewrite Hre. cbn [mbind exec_bind]. rewrite Ho, Hmv.
  set (c1 := with_buffer _ _) in *. set (c2 := commit_read c1 _) in *.
  assert (Hcp : p_is_passive (producer_ c2) = true).
  { destruct Hm2. congruence. }
  rewrite advance_read_passive by (done || lia). cbn [mbind exec_bind]. fold c2.
  destruct (Z.eqb_spec n0 0) as [Hz|Hz]; cbn [orb].
  { exists c2, n0. by split. }
  destruct (negb _); [exists c2, n0; by split|].
  destruct (IH c2 (total + n0) (R + n0) W (drop (Z.to_nat n0) items) Hr2 Hcp)
    as (c' & n' & -> & Hn' & Hr' & Hm'); [lia|].
  exists c', (n0 + n'). rewrite !Z.add_assoc.
  split; [done|]. split; [lia|].
  replace (Z.to_nat (n0 + n')) with (Z.to_nat n0 + Z.to_nat n')%nat by lia.
  rewrite <- drop_drop, <- take_take_drop. split; [done|].
  change [] with ([] ++ [] : list T). by eapply ends_moved_trans.
Qed.

Lemma pump_output_sync_spec fuel c R W items :
  core_ring c R W items → p_is_passive (producer_ c) = true →
  (Z.to_nat (W - R) + 4 ≤ fuel)%nat →
  ∃ c' n, pump_output_sync fuel c = Done (c', n) ∧ 0 ≤ n ≤ W - R ∧
    core_ring c' (R + n) W (drop (Z.to_nat n) items) ∧
    ends_moved c c' [] (take (Z.to_nat n) items).
Proof.
  intros Hr Hpas Hfuel. destruct fuel as [|fuel]; [lia|]. rewrite pump_output_sync_S.
  rewrite Hpas. cbn [negb].
  pose proof (ring_counters _ _ _ _ Hr) as [[_ HRW] _].
  destruct (c_is_passive (consumer_ c)).
  - exists c, 0. rewrite Z.add_0_r.
    split; [done|]. split; [lia|]. split; [done|apply ends_moved_refl].
  - destruct (pump_output_loop_spec fuel c 0 R W items Hr Hpas) as (c' & n & -> & ?);
      [lia|]. exists c', n. by rewrite Z.add_0_l.
Qed.

(** A consumer that takes everything empties the ring in one reaction. *)
Lemma pump_output_loop_greedy `{!GreedyConsumer C T accepted} fuel c total R W items :
  core_ring c R W items → p_is_passive (producer_ c) = true →
  is_rx_closed c = false → (4 ≤ fuel)%nat →
  ∃ c', pump_output_loop fuel c total = Done (c', total + (W - R)) ∧
    core_ring c' W W [] ∧ ends_moved c c' [] items.
Proof.
  intros Hr Hpas Hopen Hfuel. destruct fuel as [|fuel]; [lia|].
  pose proof Hr as [_ Hcap [[? HRW] ?] _ Hl _].
  unfold MIN_CAPACITY, MAX_CAPACITY in Hcap. change POS_MASK with 268435455 in Hcap.
  destruct (ring_sizes _ _ _ _ Hr) as (_ & Hds & _).
  rewrite pump_output_loop_S.
  unfold is_rx_closed in Hopen. rewrite Hopen, Hds.
  destruct (Z.eqb_spec (W - R) 0) as [Hz|Hz].
  { exists c. rewrite Hz, Z.add_0_r. split; [done|].
    assert (R = W) as <- by lia. destruct items; [|simpl in Hl; lia].
    split; [done|apply ends_moved_refl]. }
  destruct (react_commit_read c R W items Hr)
    as (r & n0 & Hre & Ho & Hmv & _ & Hn & Hr2 & Hm2).
  destruct (ring_used_region c R W items (W - R) Hr ltac:(lia)) as (Hwf & Ho' & Hlc & Hh).
  destruct (react_greedy (consumer_ c) (buffer_ c)
              (create_read_segm c (rp (core_pos c)) (W - R)) items) as (k' & Hg);
    [done|unfold USIZE_MAX; lia|lia|by rewrite Ho', <- (take_ge items (Z.to_nat (W - R))) by lia|].
  rewrite Hre in Hg. injection Hg as ->.
  rewrite Hre. cbn [mbind exec_bind r_end r_mem r_segm r_poll] in *.
  cbn [Recl.offset_] in Ho.
  assert (Hnw : n0 = W - R).
  { rewrite <- Ho. unfold Recl.least_count in Hlc. rewrite Ho' in Hlc.
    rewrite Z.sub_0_r in Hlc. exact Hlc. }
  cbn [Recl.offset_]. rewrite Hmv, Ho. rewrite Hnw in *. clear Ho Hmv.
  set (c1 := with_buffer _ _) in *. set (c2 := commit_read c1 _) in *.
  assert (Hcp : p_is_passive (producer_ c2) = true).
  { destruct Hm2. congruence. }
  rewrite advance_read_passive by (done || lia). cbn [mbind exec_bind]. fold c2.
  replace (W - R =? 0) with false by lia. cbn [orb negb is_reacted].
  replace (R + (W - R)) with W in Hr2 by lia.
  rewrite drop_ge in Hr2 by lia. rewrite take_ge in Hm2 by lia.
  destruct fuel as [|fuel]; [lia|]. rewrite pump_output_loop_S.
  destruct (ring_sizes _ _ _ _ Hr2) as (_ & Hds2 & _).
  rewrite Hds2, Z.sub_diag. cbn [Z.eqb].
  exists c2. split; [by destruct (has_flag (atm_stat_ c2) RX_CLOSED)|]. by split.
Qed.

(** Closing the write side, up to its pump: the flag is set, the rest is kept. *)
Lemma closing_ring c R W items :
  core_ring c R W items →
  let c1 := set_flag_ c TX_CLOSED in
  let c2 := fire_consumer c1 (ProducerClose (core_data_size c1)) in
  core_ring c2 R W items ∧ is_tx_closed c2 = true ∧ is_rx_closed c2 = is_rx_closed c ∧
  cap_ c2 = cap_ c ∧ accepted (consumer_ c2) = accepted (consumer_ c) ∧
  p_is_passive (producer_ c2) = p_is_passive (producer_ c) ∧
  c_is_passive (consumer_ c2) = c_is_passive (consumer_ c) ∧
  ∀ I, consumer_keeps I → I (consumer_ c) → I (consumer_ c2).
Proof.
  intros Hr c1 c2.
  assert (Hf : is_state_flag TX_CLOSED) by by left.
  assert (Hm2 : ends_moved c1 c2 [] []) by apply fire_consumer_moved.
  assert (H1 : is_tx_closed c1 = true ∧ is_rx_closed c1 = is_rx_closed c ∧ cap_ c1 = cap_ c ∧
               producer_ c1 = producer_ c ∧ consumer_ c1 = consumer_ c).
  { unfold c1, is_tx_closed, is_rx_closed, set_flag_, set_flag_rmw, rmw.
    destruct (Z.land (atm_stat_ c) TX_CLOSED =? 0) eqn:E; simpl.
    - rewrite !has_flag_set by (done || by right; left).
      rewrite bool_decide_eq_true_2, orb_true_r by done.
      rewrite bool_decide_eq_false_2 by done. by rewrite orb_false_r.
    - unfold has_flag at 1. by rewrite E. }
  destruct H1 as (Htx & Hrx & Ec & Ep & Ek), Hm2 as [Hcap [Htx2 Hrx2] _ Hacc Hpp Hcp Hkeep].
  split; [by apply ring_fire_consumer, ring_flag|].
  rewrite app_nil_r in Hacc. rewrite Ek in Hkeep. repeat split; (congruence || done).
Qed.

(** One attempt of [try_read_] on the queue. *)
Lemma read_attempt c R W items d :
  core_ring c R W items → demand_wf d → 0 < max_len d →
  ∃ r, try_read_at c d = Ret r ∧
    let closed := is_tx_closed c || is_rx_closed c in
    match r with
    | Ok (start, take) =>
        let s := create_read_segm c start take in
        Recl.wf s ∧ Recl.offset_ s = 0 ∧ Recl.least_count s = take ∧
        0 < take ≤ max_len d ∧ take ≤ Z.of_nat (length items) ∧
        (min_len d ≤ Z.of_nat (length items) ∨ closed = true) ∧
        holds (buffer_ c) (Recl.pieces s) 0 (list.take (Z.to_nat take) items)
    | Err CClosing => items = [] ∧ closed = true
    | Err (Drained _) =>
        Z.of_nat (length items) < Z.max 1 (min_len d) ∧ closed = false
    | Err _ => False
    end.
Proof.
  intros Hr Hd Hm. destruct (ring_sizes _ _ _ _ Hr) as (Hwf & Hds & _).
  pose proof (ring_length _ _ _ _ Hr) as Hl. rewrite <- Hl in Hds.
  unfold core_data_size in Hds. unfold core_pos in Hwf, Hds.
  unfold is_tx_closed, is_rx_closed, try_read_at.
  destruct (try_read_at_word_cases (atm_stat_ c) (capacity c) d Hwf Hd)
    as [[H0 ->]|[(H0 & Hc & ->)|[(H0 & Ho & _ & ->)|(?&?&?&?)]]]; [| | |lia];
    rewrite Hds in *; eexists; (split; [done|]).
  - destruct (_ || _).
    + split; [|done]. destruct items; [done|]. simpl in H0. lia.
    + split; [lia|done].
  - split; [lia|done].
  - set (t := Z.min _ _).
    destruct (ring_used_region c R W items t Hr) as (H1 & H2 & H3 & H4); [lia|].
    split; [exact H1|]. split; [exact H2|]. split; [exact H3|]. split; [lia|].
    split; [lia|]. by split.
Qed.
(** [try_read_]: the attempt, the pump and the second attempt. *)
Lemma try_read_run fuel c R W items d :
  core_ring c R W items → c_is_passive (consumer_ c) = true →
  demand_wf d → 0 < max_len d → (Z.to_nat (cap_ c) + 5 ≤ fuel)%nat →
  ∃ c' xs r, try_read_ fuel c d = Done (c', r) ∧
    core_ring c' R (W + Z.of_nat (length xs)) (items ++ xs) ∧
    ends_moved c c' xs [] ∧
    let closed := is_tx_closed c || is_rx_closed c in
    match r with
    | Ok s =>
        Recl.wf s ∧ Recl.offset_ s = 0 ∧ 0 < Recl.least_count s ≤ max_len d ∧
        Recl.least_count s ≤ Z.of_nat (length (items ++ xs)) ∧
        (min_len d ≤ Z.of_nat (length (items ++ xs)) ∨ closed = true) ∧
        holds (buffer_ c') (Recl.pieces s) 0
          (take (Z.to_nat (Recl.least_count s)) (items ++ xs))
    | Err CClosing => items ++ xs = [] ∧ closed = true
    | Err (Drained _) =>
        Z.of_nat (length (items ++ xs)) < Z.max 1 (min_len d) ∧ closed = false
    | Err _ => False
    end.
Proof.
  intros Hr Hp Hd Hm Hfuel. unfold try_read_.
  destruct (read_attempt c R W items d Hr Hd Hm) as (r1 & Hr1 & Hs1).
  assert (Hnow : ∀ x : result ConsumerError Recl.t, ∃ c' xs r, Done (c, x) = Done (c', r) ∧
    core_ring c' R (W + Z.of_nat (length xs)) (items ++ xs) ∧
    ends_moved c c' xs [] ∧ c' = c ∧ xs = [] ∧ r = x).
  { intros x. exists c, [], x. rewrite Z.add_0_r, !app_nil_r.
    pose proof (ends_moved_refl c). by split_and!. }
  rewrite Hr1. cbn [lift mbind exec_bind fmap exec_fmap].
  destruct r1 as [[start take]|e]; cbn [mbind exec_bind].
  { destruct (Hnow (Ok (create_read_segm c start take)))
      as (c' & xs & r & -> & Hr' & Hf & -> & -> & ->).
    eexists _, _, _. split; [reflexivity|]. split; [exact Hr'|]. split; [exact Hf|].
    destruct Hs1 as (? & ? & -> & ? & ? & ? & ?). by rewrite app_nil_r. }
  destruct e as [p| | | |]; try done; cbn [consumer_err_tag read_should_terminate].
  2:{ destruct (Hnow (Err CClosing)) as (c' & xs & r & -> & Hr' & Hf & -> & -> & ->).
      eexists _, _, _. split; [reflexivity|]. split; [exact Hr'|]. split; [exact Hf|].
      by rewrite app_nil_r. }
  destruct (pump_input_sync_spec fuel c R W items Hr Hp)
    as (c' & xs & -> & Hr' & Hmv).
  { destruct Hr as [_ ? [[??]?] _ _ _]. lia. }
  cbn [mbind exec_bind].
  destruct (read_attempt c' R _ _ d Hr' Hd Hm) as (r2 & Hr2 & Hs2).
  rewrite Hr2. cbn [lift mbind exec_bind].
  pose proof Hmv as [_ [Htx Hrx] _ _ _ _ _]. rewrite Htx, Hrx in Hs2.
  exists c', xs.
  destruct r2 as [[start take]|e]; (eexists; split; [reflexivity|]; split; [exact Hr'|];
    split; [exact Hmv|]); [|by destruct e].
  destruct Hs2 as (H1 & H2 & -> & H4 & H5 & H6 & H7).
  exact (conj H1 (conj H2 (conj H4 (conj H5 (conj H6 H7))))).
Qed.

(** One attempt of [try_write_] on the queue: the room granted, if any. *)
Definition granted c R W (d : Demand) (s : Recl.t) : Prop :=
  ∃ p take, s = Recl.new p ∧ ring_region (cap_ c) (wp (core_pos c)) take p ∧ index_inj p ∧
    0 < take ≤ max_len d ∧ min_len d ≤ take ≤ cap_ c - (W - R).

Definition write_answer c R W (d : Demand) (r : result ProducerError Recl.t) : Prop :=
  match r with
  | Ok s => granted c R W d s
  | Err PClosing => is_tx_closed c = true
  | Err (Stuffed _) => cap_ c - (W - R) < Z.max 1 (min_len d) ∧ is_tx_closed c = false
  | Err _ => False
  end.

Lemma write_attempt c R W items d :
  core_ring c R W items → demand_wf d → 0 < max_len d →
  ∃ r, (x ← lift (try_write_at c d);
        match x with
        | Ok (start, take) => Ok <$> lift (create_write_segm c start take)
        | Err e => Done (Err e)
        end) = Done r ∧ write_answer c R W d r.
Proof.
  intros Hr Hd Hm. destruct (ring_sizes _ _ _ _ Hr) as (Hwf & _ & Hfs).
  unfold core_free_size, core_pos in *. unfold write_answer, is_tx_closed, try_write_at.
  pose proof (min_max_len d Hd).
  destruct (try_write_at_word_cases (atm_stat_ c) (capacity c) d Hwf Hd)
    as [[H0 ->]|[(H0 & _ & ->)|(?&?&?)]]; [| |lia]; rewrite Hfs in *.
  - cbn [lift mbind exec_bind]. destruct (has_flag _ TX_CLOSED); by eexists.
  - set (t := Z.min _ _). change (wp (unpack (atm_stat_ c) (capacity c))) with (wp (core_pos c)).
    destruct (ring_free_region c R W items t Hr) as (p & Hp & Hreg & Hinj & _); [lia|].
    cbn [lift mbind exec_bind]. rewrite Hp. eexists. split; [done|].
    exists p, t. split; [done|]. split; [done|]. split; [done|]. lia.
Qed.

(** [try_write_]: the attempt, the pump and the second attempt. *)
Lemma try_write_run fuel c R W items d :
  core_ring c R W items → p_is_passive (producer_ c) = true →
  demand_wf d → 0 < max_len d → (Z.to_nat (cap_ c) + 5 ≤ fuel)%nat →
  ∃ c' n r, try_write_ fuel c d = Done (c', r) ∧ 0 ≤ n ≤ W - R ∧
    core_ring c' (R + n) W (drop (Z.to_nat n) items) ∧
    ends_moved c c' [] (take (Z.to_nat n) items) ∧ write_answer c' (R + n) W d r.
Proof.
  intros Hr Hp Hd Hm Hfuel. pose proof Hr as [_ _ [[??]?] _ _ _].
  destruct (write_attempt c R W items d Hr Hd Hm) as (r1 & Hr1 & Ha1).
  assert (Hnow : ∃ c' n r, Done (c, r1) = Done (c', r) ∧ 0 ≤ n ≤ W - R ∧
    core_ring c' (R + n) W (drop (Z.to_nat n) items) ∧
    ends_moved c c' [] (take (Z.to_nat n) items) ∧ write_answer c' (R + n) W d r).
  { exists c, 0, r1. rewrite Z.add_0_r. split; [done|]. split; [lia|].
    split; [done|]. split; [apply ends_moved_refl|done]. }
  unfold try_write_. rewrite Hr1. cbn [mbind exec_bind].
  destruct r1 as [s|e]; [exact Hnow|].
  destruct (write_should_terminate _); [exact Hnow|].
  destruct (pump_output_sync_spec fuel c R W items Hr Hp) as (c' & n & -> & Hn & Hr' & Hmv);
    [lia|].
  cbn [mbind exec_bind].
  destruct (write_attempt c' _ _ _ d Hr' Hd Hm) as (r2 & -> & Ha2).
  by exists c', n, r2.
Qed.
End pumps.

(** ** Properties *)


(** In-memory devices, for the witnesses: the items delivered (taken) so far and,
    for an input, the ones still to come; an exhausted input is pending. *)
Definition list_input : Type := list Z * list Z.
#[export] Instance list_input_device : TrInput list_input Z := {|
  in_read '(got, rest) n :=
    match rest with
    | [] => ((got, rest), Pending)
    | _ => let now := take (Z.to_nat n) rest in
           ((got ++ now, drop (Z.to_nat n) rest), Ready (Some now, false))
    end
|}.
#[export] Instance list_input_lawful : LawfulInput fst.
Proof.
  split. intros [got rest] n Hn. cbn [in_read list_input_device].
  destruct rest as [|x rest]; [done|]. split; [done|]. rewrite length_take. lia.
Qed.

Definition list_output : Type := list Z.
Definition taken (o : list_output) : list Z := o.
#[export] Instance list_output_device : TrOutput list_output Z := {|
  out_write o xs := (o ++ xs, Ready (Some (Z.of_nat (length xs)), false))
|}.
#[export] Instance list_output_lawful : LawfulOutput taken.
Proof. split. intros o xs. simpl. split; [lia|]. unfold taken. by rewrite take_ge by lia. Qed.
#[export] Instance list_output_greedy : GreedyOutput list_output Z.
Proof. split. intros o xs. by eexists. Qed.

Lemma core_ring_new {P C T} `{HP : TrProducer P T} `{HC : TrConsumer C T}
    (p : P) (k : C) cap :
  MIN_CAPACITY ≤ cap ≤ MAX_CAPACITY → core_ring (core_new (T:=T) p k cap) 0 0 [].
Proof.
  intros Hcap. unfold MIN_CAPACITY in Hcap. constructor; simpl; unfold counters; try done; lia.
Qed.

Definition pull_ring : CircCore (DevEnd list_input) BufEnd Z :=
  core_new (dev_new ([], [5; 6; 7; 8])) buf_new 3.


(** Committing a write into a ring that an active consumer drains.  The
    commit always returns (no panic; [capacity + 6] rounds are enough); with the
    [xs] committed behind the [items] of the ring, the consumer takes, in order, a
    prefix of both, exactly the rest stays in the ring, and nothing is fetched
    from the passive producer. *)
Theorem advance_write_pushes {P C T} `{HP : TrProducer P T} `{HC : TrConsumer C T}
    (fetched : P → list T) (accepted : C → list T)
    `{!LawfulProducer P T fetched} `{!LawfulConsumer C T accepted}
    fuel (c : CircCore P C T) R W items xs :
  core_ring c R W items → p_is_passive (producer_ c) = true →
  Z.of_nat (length xs) ≤ core_free_size c →
  (∀ k, 0 ≤ k < Z.of_nat (length xs) →
     buffer_ c !! ((W + k) mod cap_ c) = xs !! Z.to_nat k) →
  (Z.to_nat (cap_ c) + 6 ≤ fuel)%nat →
  ∃ c' n, advance_write fuel c (Z.of_nat (length xs)) = Done c' ∧
    accepted (consumer_ c') = accepted (consumer_ c) ++ take n (items ++ xs) ∧
    core_ring c' (R + Z.of_nat n) (W + Z.of_nat (length xs)) (drop n (items ++ xs)) ∧
    fetched (producer_ c') = fetched (producer_ c).
Proof.
  intros Hr Hp Hn Hxs Hfuel. destruct (ring_sizes _ _ _ _ Hr) as (_ & _ & Hfs).
  rewrite Hfs in Hn.
  destruct (commit_write_ring fetched accepted c R W items xs Hr Hn Hxs) as [Hr1 Hm1].
  destruct fuel as [|fuel]; [lia|].
  destruct (pump_output_sync_spec fetched accepted fuel (commit_write c (Z.of_nat (length xs)))
              R (W + Z.of_nat (length xs)) (items ++ xs) Hr1)
    as (c' & n & E & Hn' & Hr2 & Hm2).
  { by rewrite (moved_p_passive _ _ _ _ _ _ Hm1). }
  { pose proof (ring_counters _ _ _ _ Hr1) as [[??]?].
    rewrite (moved_cap _ _ _ _ _ _ Hm1) in *. lia. }
  exists c', (Z.to_nat n). rewrite Z2Nat.id by lia.
  split; [by eapply advance_write_pumped|split; [|split; [exact Hr2|]]].
  - rewrite (moved_accepted _ _ _ _ _ _ Hm2), (moved_accepted _ _ _ _ _ _ Hm1).
    by rewrite app_nil_r.
  - rewrite (moved_fetched _ _ _ _ _ _ Hm2), (moved_fetched _ _ _ _ _ _ Hm1).
    by rewrite !app_nil_r.
Qed.

Definition push_ring : CircCore BufEnd (DevEnd list_output) Z :=
  with_buffer (core_new buf_new (dev_new []) 3) (<[1 := 6]> (<[0 := 5]> ∅)).

Lemma push_ring_ok : core_ring push_ring 0 0 [].
Proof.
  assert (Hcap : MIN_CAPACITY ≤ 3 ≤ MAX_CAPACITY) by by vm_compute.
  destruct (core_ring_new (T:=Z) buf_new (dev_new (D:=list_output) []) 3 Hcap).
  constructor; try done. intros k Hk. lia.
Qed.

Lemma advance_write_pushes_witness :
  ∃ c' n, advance_write 9 push_ring 2 = Done c' ∧
    core_ring c' (0 + Z.of_nat n) 2 (drop n [5; 6]) ∧ device_ (consumer_ c') = [5; 6].
Proof.
  assert (Hn : Z.of_nat (length [5; 6]) ≤ core_free_size push_ring) by by vm_compute.
  assert (Hf : (Z.to_nat 3 + 6 ≤ 9)%nat) by lia.
  assert (Hx : ∀ k, 0 ≤ k < Z.of_nat (length [5; 6]) →
    buffer_ push_ring !! ((0 + k) mod cap_ push_ring) = [5; 6] !! Z.to_nat k).
  { intros k Hk. simpl in Hk. assert (k = 0 ∨ k = 1) as [->| ->] by lia; reflexivity. }
  destruct (advance_write_pushes (HP:=buf_producer) (HC:=dev_consumer) (λ _ : BufEnd, []) (λ k : DevEnd list_output, taken (device_ k))
              9 push_ring 0 0 [] [5; 6] push_ring_ok eq_refl Hn Hx Hf)
    as (c' & n & Hrun & _ & Hring & _).
  exists c', n. split; [exact Hrun|]. split; [exact Hring|].
  vm_compute in Hrun. injection Hrun as <-. reflexivity.
Defined.

(** Closing the write side delivers what is left.  With an active consumer
    that takes what it is offered and an open read side, [close_tx] returns, sets
    the closing flag and hands over every remaining item in order; the ring ends
    empty. *)
Theorem close_tx_drains {P C T} `{HP : TrProducer P T} `{HC : TrConsumer C T}
    (fetched : P → list T) (accepted : C → list T)
    `{!LawfulProducer P T fetched} `{!LawfulConsumer C T accepted}
    `{!GreedyConsumer C T accepted}
    fuel (c : CircCore P C T) R W items :
  core_ring c R W items → p_is_passive (producer_ c) = true →
  c_is_passive (consumer_ c) = false → is_rx_closed c = false → (5 ≤ fuel)%nat →
  ∃ c', close_tx fuel c = Done c' ∧ is_tx_closed c' = true ∧ core_ring c' W W [] ∧
    accepted (consumer_ c') = accepted (consumer_ c) ++ items.
Proof.
  intros Hr Hp Hc Hopen Hfuel. unfold close_tx.
  destruct (closing_ring fetched accepted c R W items Hr)
    as (Hr2 & Htx & Hrx & _ & Hacc & Hpp & Hcp & _).
  set (c2 := fire_consumer _ _) in *.
  destruct fuel as [|fuel]; [lia|]. rewrite pump_output_sync_S.
  rewrite Hcp, Hc, Hpp, Hp. cbn [negb].
  destruct (pump_output_loop_greedy fetched accepted fuel c2 0 R W items Hr2)
    as (c' & -> & Hr' & [_ [Htx' _] _ Hacc' _ _ _]); [congruence|congruence|lia|].
  exists c'. split; [done|]. split; [congruence|]. split; [done|].
  by rewrite Hacc', Hacc.
Qed.

Definition full_ring : CircCore BufEnd (DevEnd list_output) Z :=
  mkCore (<[0 := 7]> (<[2 := 6]> (<[1 := 5]> ∅))) 3 (pack (mkIoPos true 1 1 3) 0)
    buf_new (dev_new []) [].

Lemma close_tx_drains_witness :
  ∃ c', close_tx 5 full_ring = Done c' ∧ is_tx_closed c' = true ∧
    core_ring c' 4 4 [] ∧ device_ (consumer_ c') = [5; 6; 7].
Proof.
  assert (Hr : core_ring full_ring 1 4 [5; 6; 7]).
  { constructor; [by vm_compute..|].
    intros k Hk. assert (k = 0 ∨ k = 1 ∨ k = 2) as [->|[->| ->]] by lia; reflexivity. }
  assert (Hf : (5 ≤ 5)%nat) by lia.
  exact (close_tx_drains (HP:=buf_producer) (HC:=dev_consumer) (λ _ : BufEnd, []) (λ k : DevEnd list_output, taken (device_ k))
           5 full_ring 1 4 [5; 6; 7] Hr eq_refl eq_refl eq_refl Hf).
Defined.
