(* ===== verification/CircAsync.v ===== *)
(** * The awaiting paths of the circular buffer

    Models, for a ring with one passive and one active end, what awaits a device:
    [pump_async] and [init_async] of the ends ([circ_buff_.rs]), the asynchronous
    draining and closing, and the reads and writes of a passive half that drive an
    active peer ([core_passive_read_async_], [core_passive_write_async_] of
    [core_.rs]).

    The task that awaits is the only one that touches the core: an active end has
    no half of its own.  A function here runs to its end or to its first
    suspension, which the result tells apart: at a pending device, or parked until
    the peer's events. *)

From S2P Require Import Prelude Demand IoPos Segm CircEnds CircCore CircLaws CircDev CircPump.

Section async.
Context {P C T : Type} `{TrProducer P T} `{TrConsumer C T}.
Abbreviation core := (CircCore P C T).
Implicit Types c : core.

(** [TrCircBuffCore::try_write_init] / [try_read_init]. *)
Definition try_write_init c : exec (option Recl.t) :=
  r ← lift (try_write_at c (less_than (capacity c)));
  match r with
  | Ok (start, take) => Some <$> lift (create_write_segm c start take)
  | Err _ => Done None
  end.
Definition try_read_init c : exec (option Recl.t) :=
  r ← lift (try_read_at c (less_than (capacity c)));
  match r with
  | Ok (start, take) => Done (Some (create_read_segm c start take))
  | Err _ => Done None
  end.

Definition is_continue (r : ReceiverReact) : bool :=
  match r with Continue => true | Reacted => false end.

(** [dev_producer_init_async_]: one poll of the device, then the end is armed.  A
    passive end has nothing to initialise ([core::future::ready(Ok(()))]). *)
Definition producer_init_async (fuel : nat) c : exec (core * result unit unit) :=
  if p_is_passive (producer_ c) then Done (c, Ok tt)
  else
    x ← try_write_init c;
    c ← match x with
        | Some segm =>
            r ← p_react (producer_ c) (buffer_ c) segm;
            let c := with_buffer (with_producer c (r_end r) []) (r_mem r) in
            advance_write fuel c (Recl.offset_ (r_segm r))
        | None => Done c
        end;
    Done (set_tx_standby c, Ok tt).
Definition consumer_init_async (fuel : nat) c : exec (core * result unit unit) :=
  if c_is_passive (consumer_ c) then Done (c, Ok tt)
  else
    x ← try_read_init c;
    c ← match x with
        | Some segm =>
            r ← c_react (consumer_ c) (buffer_ c) segm;
            let c := with_buffer (with_consumer c (r_end r) []) (r_mem r) in
            advance_read fuel c (Recl.offset_ (r_segm r))
        | None => Done c
        end;
    Done (set_rx_standby c, Ok tt).

(** [dev_producer_pump_async_]: the count moved, or [Pending] at the device. *)
Fixpoint producer_pump_loop (fuel : nat) c (total : Z) : exec (core * Poll Z) :=
  match fuel with
  | O => OutOfFuel
  | S fuel =>
      x ← try_write_init c;
      match x with
      | None => Done (c, Ready total)
      | Some segm =>
          let before := Recl.least_count segm in
          r ← p_react (producer_ c) (buffer_ c) segm;
          let c := with_buffer (with_producer c (r_end r) []) (r_mem r) in
          match r_poll r with
          | Pending => Done (c, Pending)
          | Ready react =>
              let moved := before - Recl.least_count (r_segm r) in
              c ← advance_write fuel c (Recl.offset_ (r_segm r));
              if (moved =? 0) || is_continue react then Done (c, Ready (total + moved))
              else producer_pump_loop fuel c (total + moved)
          end
      end
  end.
Definition producer_pump_async (fuel : nat) c : exec (core * Poll Z) :=
  if p_is_passive (producer_ c) then Done (c, Ready 0) else producer_pump_loop fuel c 0.

(** [dev_consumer_pump_async_]. *)
Fixpoint consumer_pump_loop (fuel : nat) c (total : Z) : exec (core * Poll Z) :=
  match fuel with
  | O => OutOfFuel
  | S fuel =>
      x ← try_read_init c;
      match x with
      | None => Done (c, Ready total)
      | Some segm =>
          let before := Recl.least_count segm in
          r ← c_react (consumer_ c) (buffer_ c) segm;
          let c := with_buffer (with_consumer c (r_end r) []) (r_mem r) in
          match r_poll r with
          | Pending => Done (c, Pending)
          | Ready react =>
              let moved := before - Recl.least_count (r_segm r) in
              c ← advance_read fuel c (Recl.offset_ (r_segm r));
              if (moved =? 0) || is_continue react then Done (c, Ready (total + moved))
              else consumer_pump_loop fuel c (total + moved)
          end
      end
  end.
Definition consumer_pump_async (fuel : nat) c : exec (core * Poll Z) :=
  if c_is_passive (consumer_ c) then Done (c, Ready 0) else consumer_pump_loop fuel c 0.

(** [drain_output_async_]; [k] are the answers of the token, in order. *)
Fixpoint drain_output_async_ (fuel : nat) c (k : list bool) : exec (core * Poll unit) :=
  match fuel with
  | O => OutOfFuel
  | S fuel =>
      if hd false k then Done (c, Ready tt)
      else
        '(c, x) ← consumer_pump_async fuel c;
        match x with
        | Pending => Done (c, Pending)
        | Ready moved =>
            if (core_data_size c =? 0) && is_rx_closed c then Done (c, Ready tt)
            else if moved =? 0 then Done (c, Ready tt)
            else drain_output_async_ fuel c (tl k)
        end
  end.

(** [close_tx_async], which is [Producer::close_async]. *)
Definition close_tx_async (fuel : nat) c (k : list bool) : exec (core * Poll unit) :=
  c ← close_tx fuel c;
  drain_output_async_ fuel c k.
End async.

(** ** The reads and writes of a passive half *)

(** How far an awaited read or write came. *)
Inductive awaited (A : Type) : Type :=
| Answered (a : A)
| AtDevice
| Parked.
Arguments Answered {A} a.
Arguments AtDevice {A}.
Arguments Parked {A}.

(** The waiter of the only task there is. *)
Definition self : nat := 0.

Section read.
Context {P T : Type} `{TrProducer P T}.
Abbreviation core := (CircCore P BufEnd T).
Implicit Types c : core.

(** [fn_can_stop]. *)
Definition read_can_stop c (demand : Demand) : exec bool :=
  r ← lift (try_read_at c demand);
  Done (match r with
        | Ok _ => true
        | Err e => read_should_terminate (consumer_err_tag e)
        end).

(** The drop of the [WaitGuard]. *)
Definition read_guard_drop c : core :=
  let k := mkBufEnd (demand_ (consumer_ c))
             (WakeSlot.deregister (wakeslot_ (consumer_ c)) self) in
  let c := unset_rx_standby (with_consumer c k []) in
  with_consumer c (try_reset_demand (consumer_ c)).2 [].

(** One poll of the wait: whether it is over. *)
Definition read_poll c (demand : Demand) : exec (core * bool) :=
  stop ← read_can_stop c demand;
  if stop : bool then Done (c, true)
  else
    match WakeSlot.register (wakeslot_ (consumer_ c)) self with
    | None => OutOfFuel
    | Some slot =>
        let c := with_consumer c (mkBufEnd (demand_ (consumer_ c)) slot) [] in
        stop ← read_can_stop c demand;
        Done (c, stop)
    end.

(** [core_passive_read_async_], with the rounds of a pump bounded by [pf]. *)
Fixpoint core_passive_read_async_ (fuel pf : nat) c (demand : Demand) :
    exec (core * awaited (result ConsumerError Recl.t)) :=
  match fuel with
  | O => OutOfFuel
  | S fuel =>
      '(c, x) ← try_read_ pf c demand;
      match x with
      | Ok _ => Done (c, Answered x)
      | Err e =>
          if read_should_terminate (consumer_err_tag e) then Done (c, Answered x)
          else
            '(c, m) ← producer_pump_async pf c;
            match m with
            | Pending => Done (c, AtDevice)
            | Ready moved =>
                if 0 <? moved then core_passive_read_async_ fuel pf c demand
                else
                  let '(set, k) := try_set_demand (consumer_ c) demand in
                  if negb set then Aborted
                  else
                    let c := set_rx_standby (with_consumer c k []) in
                    '(c, stop) ← read_poll c demand;
                    if stop : bool then
                      core_passive_read_async_ fuel pf (read_guard_drop c) demand
                    else Done (c, Parked)
            end
      end
  end.

(** A parked read that is polled again. *)
Definition read_resume (fuel pf : nat) c (demand : Demand) :=
  '(c, stop) ← read_poll c demand;
  if stop : bool then core_passive_read_async_ fuel pf (read_guard_drop c) demand
  else Done (c, Parked).

(** What a parked read answers when its token is cancelled. *)
Definition read_cancelled c : core * result ConsumerError Recl.t :=
  (read_guard_drop c, Err CCancelled).
End read.

Section write.
Context {C T : Type} `{TrConsumer C T}.
Abbreviation core := (CircCore BufEnd C T).
Implicit Types c : core.

Definition write_can_stop c (demand : Demand) : exec bool :=
  r ← lift (try_write_at c demand);
  Done (match r with
        | Ok _ => true
        | Err e => write_should_terminate (producer_err_tag e)
        end).

Definition write_guard_drop c : core :=
  let p := mkBufEnd (demand_ (producer_ c))
             (WakeSlot.deregister (wakeslot_ (producer_ c)) self) in
  let c := unset_tx_standby (with_producer c p []) in
  with_producer c (try_reset_demand (producer_ c)).2 [].

(** One poll of the wait: whether it is over. *)
Definition write_poll c (demand : Demand) : exec (core * bool) :=
  stop ← write_can_stop c demand;
  if stop : bool then Done (c, true)
  else
    match WakeSlot.register (wakeslot_ (producer_ c)) self with
    | None => OutOfFuel
    | Some slot =>
        let c := with_producer c (mkBufEnd (demand_ (producer_ c)) slot) [] in
        stop ← write_can_stop c demand;
        Done (c, stop)
    end.

(** [core_passive_write_async_]. *)
Fixpoint core_passive_write_async_ (fuel pf : nat) c (demand : Demand) :
    exec (core * awaited (result ProducerError Recl.t)) :=
  match fuel with
  | O => OutOfFuel
  | S fuel =>
      '(c, x) ← try_write_ pf c demand;
      match x with
      | Ok _ => Done (c, Answered x)
      | Err e =>
          if write_should_terminate (producer_err_tag e) then Done (c, Answered x)
          else
            '(c, m) ← consumer_pump_async pf c;
            match m with
            | Pending => Done (c, AtDevice)
            | Ready moved =>
                if 0 <? moved then core_passive_write_async_ fuel pf c demand
                else
                  let '(set, p) := try_set_demand (producer_ c) demand in
                  if negb set then Aborted
                  else
                    let c := set_tx_standby (with_producer c p []) in
                    '(c, stop) ← write_poll c demand;
                    if stop : bool then
                      core_passive_write_async_ fuel pf (write_guard_drop c) demand
                    else Done (c, Parked)
            end
      end
  end.

(** A parked write that is polled again. *)
Definition write_resume (fuel pf : nat) c (demand : Demand) :=
  '(c, stop) ← write_poll c demand;
  if stop : bool then core_passive_write_async_ fuel pf (write_guard_drop c) demand
  else Done (c, Parked).

Definition write_cancelled c : core * result ProducerError Recl.t :=
  (write_guard_drop c, Err PCancelled).
End write.

(** ** Ends that make progress *)

(** A consumer that, while it is [live], awaited, takes at least one of the items it
    is offered. *)
Class WillingConsumer (C T : Type) `{TrConsumer C T} (live : C → Prop) : Prop := {
  willing_keeps : consumer_keeps (T:=T) live;
  react_willing k mem s (xs : list T) :
    live k → Recl.wf s → 0 < Recl.least_count s ≤ USIZE_MAX →
    Z.of_nat (length xs) = Recl.least_count s →
    holds mem (Recl.pieces s) (Recl.offset_ s) xs →
    ∃ r react, c_react k mem s = Done r ∧ r_poll r = Ready react ∧
      Recl.offset_ s < Recl.offset_ (r_segm r);
}.

(** A producer that, awaited, delivers at least one item. *)
Class FlowingProducer (P T : Type) `{TrProducer P T} : Prop := {
  react_flows p mem s :
    Recl.wf s → index_inj (Recl.pieces s) → 0 < Recl.least_count s ≤ USIZE_MAX →
    ∃ r react, p_react p mem s = Done r ∧ r_poll r = Ready react ∧
      Recl.offset_ s < Recl.offset_ (r_segm r);
}.

(** ** Lemmas *)

Section lemmas.
Context {P C T : Type} `{HP : TrProducer P T} `{HC : TrConsumer C T}.
Context (fetched : P → list T) (accepted : C → list T).
Context `{!LawfulProducer P T fetched} `{!LawfulConsumer C T accepted}.
Implicit Types (c : CircCore P C T) (items xs : list T).

Lemma capacity_demand c R W items :
  core_ring c R W items →
  demand_wf (less_than (capacity c)) ∧ 0 < max_len (less_than (capacity c)) ∧
  0 ≤ W - R ≤ capacity c.
Proof.
  intros [_ Hcap [[??]?] _ _ _]. unfold MIN_CAPACITY, MAX_CAPACITY in Hcap.
  change POS_MASK with 268435455 in Hcap.
  unfold less_than, capacity. simpl. unfold max_len. simpl.
  unfold is_usize, USIZE_MAX. lia.
Qed.

(** What the two initial grants lend: all there is. *)
Lemma try_read_init_ring c R W items :
  core_ring c R W items →
  try_read_init c =
    Done (if W - R =? 0 then None
          else Some (create_read_segm c (rp (core_pos c)) (W - R))).
Proof.
  intros Hr. destruct (ring_sizes _ _ _ _ Hr) as (Hwf & Hds & _).
  destruct (capacity_demand c R W items Hr) as (Hd & Hm & Hle).
  unfold core_data_size, core_pos in *. unfold try_read_init, try_read_at.
  destruct (try_read_at_word_cases (atm_stat_ c) (capacity c) _ Hwf Hd)
    as [[H0 ->]|[(H0 & Hc & ->)|[(H0 & Ho & _ & ->)|(?&?&?&?)]]]; try lia; rewrite Hds in *.
  - by rewrite (proj2 (Z.eqb_eq (W - R) 0)).
  - unfold min_len in H0. simpl in H0. lia.
  - rewrite (proj2 (Z.eqb_neq (W - R) 0)) by lia. simpl.
    unfold max_len. simpl. by rewrite Z.min_r by lia.
Qed.

Lemma try_write_init_ring c R W items :
  core_ring c R W items →
  try_write_init c =
    if capacity c - (W - R) =? 0 then Done None
    else Some <$> lift (create_write_segm c (wp (core_pos c)) (capacity c - (W - R))).
Proof.
  intros Hr. destruct (ring_sizes _ _ _ _ Hr) as (Hwf & _ & Hfs).
  destruct (capacity_demand c R W items Hr) as (Hd & Hm & Hle).
  unfold core_free_size, core_pos in *. unfold try_write_init, try_write_at.
  unfold capacity in *. pose proof (ring_cap _ _ _ _ Hr) as Hcap.
  unfold MIN_CAPACITY in Hcap.
  destruct (try_write_at_word_cases (atm_stat_ c) (cap_ c) _ Hwf Hd)
    as [[H0 ->]|[(H0 & _ & ->)|(?&?&?)]]; try lia; rewrite Hfs in H0;
    unfold min_len in H0; simpl in H0.
  - by rewrite (proj2 (Z.eqb_eq (cap_ c - (W - R)) 0)) by lia.
  - rewrite (proj2 (Z.eqb_neq (cap_ c - (W - R)) 0)), Hfs by lia. simpl.
    unfold max_len. simpl. by rewrite Z.min_r by lia.
Qed.

(** ** Draining *)

Lemma consumer_pump_loop_willing live `{!WillingConsumer C T live} fuel : ∀ c total R W items,
  core_ring c R W items → p_is_passive (producer_ c) = true → live (consumer_ c) →
  (Z.to_nat (W - R) + 3 ≤ fuel)%nat →
  ∃ c' n, consumer_pump_loop fuel c total = Done (c', Ready (total + n)) ∧
    0 ≤ n ≤ W - R ∧ (0 < W - R → 0 < n) ∧
    core_ring c' (R + n) W (drop (Z.to_nat n) items) ∧
    ends_moved fetched accepted c c' [] (take (Z.to_nat n) items).
Proof.
  induction fuel as [|fuel IH]; intros c total R W items Hr Hpas Hlive Hf; [lia|].
  destruct (capacity_demand c R W items Hr) as (_ & _ & Hle).
  pose proof (ring_length _ _ _ _ Hr) as Hl.
  simpl consumer_pump_loop. rewrite (try_read_init_ring c R W items Hr).
  cbn [mbind exec_bind]. destruct (Z.eqb_spec (W - R) 0) as [E|E].
  { exists c, 0. rewrite !Z.add_0_r. split; [done|]. split; [lia|]. split; [lia|].
    split; [done|]. apply ends_moved_refl. }
  destruct (react_commit_read fetched accepted c R W items Hr)
    as (r & n & Hre & Ho & Hmv & Hcp & Hn & Hr2 & Hm2).
  destruct (ring_used_region c R W items (W - R) Hr ltac:(lia)) as (Hwf & Ho' & Hlc & Hh).
  pose proof Hr as [_ Hcap _ _ _ _].
  unfold MIN_CAPACITY, MAX_CAPACITY in Hcap. change POS_MASK with 268435455 in Hcap.
  unfold capacity in Hle.
  destruct (react_willing (consumer_ c) (buffer_ c)
              (create_read_segm c (rp (core_pos c)) (W - R)) items)
    as (r' & react & Hre' & Hpoll & Hlt);
    [done|done|unfold USIZE_MAX; lia|lia|by rewrite Ho', <- (take_ge items (Z.to_nat (W - R))) by lia|].
  assert (r' = r) as -> by congruence. rewrite Ho', Ho in Hlt.
  rewrite Hre. cbn [mbind exec_bind]. rewrite Hpoll.
  assert (Hb : Recl.least_count (create_read_segm c (rp (core_pos c)) (W - R)) -
    Recl.least_count (r_segm r) = n) by lia.
  rewrite Hb, Ho. clear Hcp Hb.
  set (c1 := with_buffer _ _) in *. set (c2 := commit_read c1 _) in *.
  assert (Hcp : p_is_passive (producer_ c2) = true) by (destruct Hm2; congruence).
  rewrite advance_read_passive by (done || lia). cbn [mbind exec_bind]. fold c2.
  rewrite (proj2 (Z.eqb_neq n 0)) by lia. cbn [orb].
  destruct (is_continue react); [by exists c2, n|].
  destruct (IH c2 (total + n) (R + n) W (drop (Z.to_nat n) items) Hr2 Hcp)
    as (c' & m & -> & Hm & _ & Hr' & Hm'); [|lia|].
  { apply (moved_keeps _ _ _ _ _ _ Hm2 live willing_keeps Hlive). }
  exists c', (n + m). rewrite !Z.add_assoc.
  split; [done|]. split; [lia|]. split; [lia|].
  replace (Z.to_nat (n + m)) with (Z.to_nat n + Z.to_nat m)%nat by lia.
  rewrite <- drop_drop, <- take_take_drop. split; [done|].
  change [] with ([] ++ [] : list T). by eapply ends_moved_trans.
Qed.

Lemma consumer_pump_willing live `{!WillingConsumer C T live} fuel c R W items :
  core_ring c R W items → p_is_passive (producer_ c) = true →
  c_is_passive (consumer_ c) = false → live (consumer_ c) →
  (Z.to_nat (W - R) + 3 ≤ fuel)%nat →
  ∃ c' n, consumer_pump_async fuel c = Done (c', Ready n) ∧
    0 ≤ n ≤ W - R ∧ (0 < W - R → 0 < n) ∧
    core_ring c' (R + n) W (drop (Z.to_nat n) items) ∧
    ends_moved fetched accepted c c' [] (take (Z.to_nat n) items).
Proof.
  intros Hr Hp Hc Hl Hf. unfold consumer_pump_async. rewrite Hc.
  destruct (consumer_pump_loop_willing live fuel c 0 R W items Hr Hp Hl Hf) as (c' & n & -> & ?).
  by exists c', n.
Qed.

Lemma drain_willing live `{!WillingConsumer C T live} fuel : ∀ c k R W items,
  core_ring c R W items → p_is_passive (producer_ c) = true →
  c_is_passive (consumer_ c) = false → live (consumer_ c) →
  Forall (λ b, b = false) k → (Z.to_nat (W - R) + 5 ≤ fuel)%nat →
  ∃ c', drain_output_async_ fuel c k = Done (c', Ready tt) ∧
    core_ring c' W W [] ∧ ends_moved fetched accepted c c' [] items.
Proof.
  induction fuel as [|fuel IH]; intros c k R W items Hr Hp Hc Hlive Hk Hf; [lia|].
  simpl drain_output_async_. assert (hd false k = false) as -> by by destruct Hk.
  destruct (consumer_pump_willing live fuel c R W items Hr Hp Hc Hlive)
    as (c1 & n & -> & Hn & Hpos & Hr1 & Hm1); [lia|].
  cbn [mbind exec_bind]. pose proof (ring_length _ _ _ _ Hr) as Hl.
  pose proof (moved_keeps _ _ _ _ _ _ Hm1 live willing_keeps Hlive) as Hlive1.
  pose proof (moved_p_passive _ _ _ _ _ _ Hm1) as Hp1. rewrite Hp in Hp1.
  pose proof (moved_c_passive _ _ _ _ _ _ Hm1) as Hc1. rewrite Hc in Hc1.
  destruct (ring_sizes _ _ _ _ Hr1) as (_ & Hds & _). rewrite Hds.
  assert (Hend : R + n = W →
    core_ring c1 W W [] ∧ ends_moved fetched accepted c c1 [] items).
  { intros E. rewrite E in Hr1. rewrite drop_ge in Hr1 by lia.
    by rewrite take_ge in Hm1 by lia. }
  destruct (Z.eqb_spec (W - (R + n)) 0) as [E|E]; cbn [andb].
  { destruct (is_rx_closed c1); [exists c1; split; [done|]; apply Hend; lia|].
    destruct (Z.eqb_spec n 0); [exists c1; split; [done|]; apply Hend; lia|].
    destruct (IH c1 (tl k) (R + n) W (drop (Z.to_nat n) items) Hr1)
      as (c' & -> & Hr' & Hm'); try done; [by destruct Hk|lia|].
    exists c'. split; [done|]. split; [done|].
    rewrite <- (take_drop (Z.to_nat n) items). change [] with ([] ++ [] : list T).
    by eapply ends_moved_trans. }
  destruct (Z.eqb_spec n 0); [lia|].
  destruct (IH c1 (tl k) (R + n) W (drop (Z.to_nat n) items) Hr1)
    as (c' & -> & Hr' & Hm'); try done; [by destruct Hk|lia|].
  exists c'. split; [done|]. split; [done|].
  rewrite <- (take_drop (Z.to_nat n) items). change [] with ([] ++ [] : list T).
  by eapply ends_moved_trans.
Qed.

(** The asynchronous closing over a live consumer. *)
Lemma close_tx_async_run live `{!WillingConsumer C T live} fuel c k R W items :
  core_ring c R W items → p_is_passive (producer_ c) = true →
  c_is_passive (consumer_ c) = false → live (consumer_ c) →
  Forall (λ b, b = false) k → (Z.to_nat (W - R) + 5 ≤ fuel)%nat →
  ∃ c', close_tx_async fuel c k = Done (c', Ready tt) ∧
    is_tx_closed c' = true ∧ core_ring c' W W [] ∧ live (consumer_ c') ∧
    accepted (consumer_ c') = accepted (consumer_ c) ++ items.
Proof.
  intros Hr Hp Hc Hlive Hk Hf. unfold close_tx_async, close_tx.
  destruct (closing_ring fetched accepted c R W items Hr)
    as (Hr1 & Htx & _ & _ & Hacc & Hpp & Hcp & Hkeep1).
  set (c1 := fire_consumer _ _) in *.
  destruct (pump_output_sync_spec fetched accepted fuel c1 R W items Hr1)
    as (c2 & n & -> & Hn & Hr2 & [_ [Htx2 _] _ Hacc2 Hpp2 Hcp2 Hkeep2]); [congruence|lia|].
  cbn [mbind exec_bind].
  pose proof (Hkeep2 live willing_keeps (Hkeep1 live willing_keeps Hlive)) as Hlive2.
  destruct (drain_willing live fuel c2 k (R + n) W (drop (Z.to_nat n) items) Hr2)
    as (c' & -> & Hr' & [_ [Htx' _] _ Hacc' _ _ Hkeep']);
    [congruence|congruence|done|done|lia|].
  exists c'. split; [done|]. split; [congruence|]. split; [done|].
  split; [exact (Hkeep' live willing_keeps Hlive2)|].
  by rewrite Hacc', Hacc2, Hacc, <- app_assoc, take_drop.
Qed.

(** ** Pulling *)

Lemma producer_pump_loop_flows `{!FlowingProducer P T} fuel : ∀ c total R W items,
  core_ring c R W items → c_is_passive (consumer_ c) = true →
  (Z.to_nat (cap_ c - (W - R)) + 3 ≤ fuel)%nat →
  ∃ c' xs, producer_pump_loop fuel c total = Done (c', Ready (total + Z.of_nat (length xs))) ∧
    (0 < cap_ c - (W - R) → xs ≠ []) ∧
    core_ring c' R (W + Z.of_nat (length xs)) (items ++ xs) ∧
    ends_moved fetched accepted c c' xs [].
Proof.
  induction fuel as [|fuel IH]; intros c total R W items Hr Hpas Hf; [lia|].
  destruct (capacity_demand c R W items Hr) as (_ & _ & Hle). unfold capacity in Hle.
  simpl producer_pump_loop. rewrite (try_write_init_ring c R W items Hr). unfold capacity.
  destruct (Z.eqb_spec (cap_ c - (W - R)) 0) as [E|E].
  { cbn [mbind exec_bind]. exists c, []. rewrite !Z.add_0_r, app_nil_r.
    split; [done|]. split; [lia|]. split; [done|apply ends_moved_refl]. }
  destruct (react_commit_write fetched accepted c R W items Hr)
    as (p & r & xs & Hp & Hre & Ho & Hmv & Hcp & Hxs & Hr2 & Hm2).
  destruct (ring_free_region c R W items (cap_ c - (W - R)) Hr ltac:(lia))
    as (p' & Hp' & (Hok & Hlen & _) & Hinj & _).
  assert (p' = p) as -> by (rewrite Hp in Hp'; by injection Hp').
  pose proof (ring_cap _ _ _ _ Hr) as Hcap.
  unfold MIN_CAPACITY, MAX_CAPACITY in Hcap. change POS_MASK with 268435455 in Hcap.
  assert (Hlc : Recl.least_count (Recl.new p) = cap_ c - (W - R))
    by (unfold Recl.least_count; simpl; lia).
  destruct (react_flows (producer_ c) (buffer_ c) (Recl.new p))
    as (r' & react & Hre' & Hpoll & Hlt); [split; [done|simpl; lia]|done|unfold USIZE_MAX; lia|].
  assert (r' = r) as -> by congruence. rewrite Ho in Hlt. simpl in Hlt.
  rewrite Hp. cbn [lift mbind exec_bind fmap exec_fmap]. rewrite Hre.
  cbn [mbind exec_bind]. rewrite Hpoll.
  assert (Hb : Recl.least_count (Recl.new p) - Recl.least_count (r_segm r) =
    Z.of_nat (length xs)) by lia.
  rewrite Hb, Ho. clear Hb Hmv Hcp Ho.
  set (c1 := with_buffer _ _) in *. set (c2 := commit_write c1 _) in *.
  assert (Hcp : c_is_passive (consumer_ c2) = true) by (destruct Hm2; congruence).
  rewrite advance_write_passive by (done || lia). cbn [mbind exec_bind]. fold c2.
  rewrite (proj2 (Z.eqb_neq (Z.of_nat (length xs)) 0)) by lia. cbn [orb].
  assert (Hne : xs ≠ []) by (by intros ->).
  destruct (is_continue react); [by exists c2, xs|].
  destruct (IH c2 (total + Z.of_nat (length xs)) R (W + Z.of_nat (length xs)) (items ++ xs)
              Hr2 Hcp) as (c' & ys & -> & _ & Hr' & Hm').
  { rewrite (moved_cap _ _ _ _ _ _ Hm2). lia. }
  exists c', (xs ++ ys). rewrite length_app, Nat2Z.inj_add, !Z.add_assoc, app_assoc.
  split; [done|]. split; [by destruct xs|]. split; [done|].
  change [] with ([] ++ [] : list T). by eapply ends_moved_trans.
Qed.
End lemmas.

(** ** Pushing *)

Section pushing.
Context {C T : Type} `{HC : TrConsumer C T} (accepted : C → list T) (live : C → Prop).
Context `{!LawfulConsumer C T accepted} `{!WillingConsumer C T live}.
Implicit Types (c : CircCore BufEnd C T) (items : list T).

(** An awaited write over a live consumer is granted. *)
Lemma write_async_run pf d fuel : ∀ c R W items,
  core_ring c R W items → c_is_passive (consumer_ c) = false → live (consumer_ c) →
  is_tx_closed c = false → demand_wf d → 0 < max_len d → min_len d ≤ cap_ c →
  (Z.to_nat (cap_ c) + 5 ≤ pf)%nat → (Z.to_nat (W - R) < fuel)%nat →
  ∃ c' n s, core_passive_write_async_ fuel pf c d = Done (c', Answered (Ok s)) ∧
    0 ≤ n ≤ W - R ∧ core_ring c' (R + n) W (drop (Z.to_nat n) items) ∧
    ends_moved (λ _, []) accepted c c' [] (take (Z.to_nat n) items) ∧
    granted c' (R + n) W d s.
Proof.
  induction fuel as [|fuel IH];
    intros c R W items Hr Hc Hl Htx Hd Hm Hmin Hpf Hf; [lia|].
  simpl core_passive_write_async_.
  destruct (try_write_run (HP:=buf_producer) (λ _, []) accepted pf c R W items d Hr eq_refl
              Hd Hm Hpf) as (c1 & n & r & -> & Hn & Hr1 & Hm1 & Hs).
  cbn [mbind exec_bind]. pose proof Hm1 as [Hcap1 [Htx1 _] _ _ _ Hc1 Hk1].
  pose proof (Hk1 live willing_keeps Hl) as Hl1.
  destruct r as [s|[m| | | |]]; [|destruct Hs as [Hshort _]|simpl in Hs; congruence|done..].
  { by exists c1, n, s. }
  cbn [producer_err_tag write_should_terminate].
  pose proof (ring_cap _ _ _ _ Hr) as Hcap. unfold MIN_CAPACITY in Hcap.
  pose proof (ring_counters _ _ _ _ Hr1) as [[??]?].
  destruct (consumer_pump_willing (HP:=buf_producer) (λ _, []) accepted live pf c1 (R + n) W _
              Hr1 eq_refl (eq_trans Hc1 Hc) Hl1)
    as (c2 & m' & -> & Hm' & Hpos & Hr2 & Hm2); [rewrite Hcap1 in *; lia|].
  cbn [mbind exec_bind]. destruct (Z.ltb_spec 0 m'); [|lia].
  pose proof Hm2 as [Hcap2 [Htx2 _] _ _ _ Hc2 Hk2].
  destruct (IH c2 (R + n + m') W _ Hr2) as (c' & q & s & -> & Hq & Hr' & Hm3 & Hg);
    [congruence|by apply Hk2; [apply willing_keeps|]|congruence|done|done|congruence| |lia|].
  { by rewrite Hcap2, Hcap1. }
  exists c', (n + m' + q), s. replace (R + (n + m' + q)) with (R + n + m' + q) by lia.
  split; [done|]. split; [lia|].
  replace (drop (Z.to_nat (n + m' + q)) items)
    with (drop (Z.to_nat q) (drop (Z.to_nat m') (drop (Z.to_nat n) items)))
    by (rewrite !drop_drop; f_equal; lia).
  replace (take (Z.to_nat (n + m' + q)) items)
    with (take (Z.to_nat n) items ++ take (Z.to_nat m') (drop (Z.to_nat n) items) ++
          take (Z.to_nat q) (drop (Z.to_nat m') (drop (Z.to_nat n) items)))
    by (rewrite !take_take_drop; f_equal; lia).
  split; [done|]. split; [|done].
  change [] with ([] ++ ([] ++ []) : list T).
  eapply ends_moved_trans; [done|]. by eapply ends_moved_trans.
Qed.
End pushing.

(** ** A producer that has nothing more *)

(** Awaited, it answers at once that it moved nothing; it stays so. *)
Class EndedProducer (P T : Type) `{TrProducer P T} (ended : P → Prop) : Prop := {
  ended_active p : ended p → p_is_passive p = false;
  ended_reacts p mem s :
    ended p → Recl.wf s → Recl.least_count s ≤ USIZE_MAX →
    ∃ p', ended p' ∧ p_react p mem s = Done (Reaction p' mem s (Ready Continue));
}.

Section ended.
Context {P T : Type} `{HP : TrProducer P T} (ended : P → Prop).
Context `{!EndedProducer P T ended}.
Implicit Types (c : CircCore P BufEnd T) (items : list T).

(** An open ring over such a producer, read by nobody else. *)
Record idle_ring c R W items : Prop := {
  idle_ring_ok : core_ring c R W items;
  idle_ended : ended (producer_ c);
  idle_nobody : consumer_ c = buf_new;
  idle_tx : is_tx_closed c = false;
  idle_rx : is_rx_closed c = false;
}.

Lemma fire_consumer_nobody c e :
  demand_ (consumer_ c) = None → consumer_ (fire_consumer c e) = consumer_ c.
Proof.
  intros Hd. unfold fire_consumer. destruct (negb _); [done|].
  simpl. unfold buf_consumer_check. destruct e as [n|n]; [|done].
  destruct (n =? 0); [done|]. by rewrite Hd.
Qed.

Lemma fire_consumer_state c e :
  atm_stat_ (fire_consumer c e) = atm_stat_ c ∧ producer_ (fire_consumer c e) = producer_ c.
Proof.
  unfold fire_consumer. destruct (negb _); [done|].
  by destruct (c_check (consumer_ c) e) as [[b k] w].
Qed.

(** Committing nothing keeps the ring idle. *)
Lemma idle_commit c R W items p :
  idle_ring c R W items → ended p →
  idle_ring (commit_write (with_buffer (with_producer c p []) (buffer_ c)) 0) R W items.
Proof.
  intros [Hr _ Hk Htx Hrx] Hp. set (c1 := with_buffer _ _).
  assert (Hr1 : core_ring c1 R W items) by (destruct Hr; by constructor).
  destruct (ring_write c1 R W items [] Hr1) as [Hr2 [Htx2 Hrx2]].
  { simpl. destruct (capacity_demand c R W items Hr). unfold capacity, c1 in *. simpl. lia. }
  { intros k Hk'. simpl in Hk'. lia. }
  simpl length in Hr2, Htx2, Hrx2. rewrite Z.add_0_r, app_nil_r in Hr2.
  unfold commit_write. set (c2 := update_pos_ _ _) in *.
  set (e := if is_tx_closed c2 then _ else _).
  destruct (fire_consumer_state c2 e) as [Hs Hpr].
  assert (Hk2 : consumer_ c2 = buf_new) by done.
  constructor.
  - by apply ring_fire_consumer.
  - by rewrite Hpr.
  - by rewrite fire_consumer_nobody; rewrite Hk2.
  - unfold is_tx_closed in *. rewrite Hs. by rewrite Htx2.
  - unfold is_rx_closed in *. rewrite Hs. by rewrite Hrx2.
Qed.

Lemma idle_react c R W items take :
  idle_ring c R W items → 0 ≤ take ≤ cap_ c - (W - R) →
  ∃ p' q, create_write_segm c (wp (core_pos c)) take = Ret (Recl.new q) ∧
    Recl.least_count (Recl.new q) = take ∧ ended p' ∧
    p_react (producer_ c) (buffer_ c) (Recl.new q) =
      Done (Reaction p' (buffer_ c) (Recl.new q) (Ready Continue)).
Proof.
  intros [Hr He _ _ _] Ht.
  destruct (ring_free_region c R W items take Hr Ht) as (q & Hq & (Hok & Hlen & _) & _ & _).
  pose proof (ring_cap _ _ _ _ Hr) as Hcap.
  unfold MIN_CAPACITY, MAX_CAPACITY in Hcap. change POS_MASK with 268435455 in Hcap.
  destruct (capacity_demand c R W items Hr) as (_ & _ & Hle).
  assert (Hlc : Recl.least_count (Recl.new q) = take)
    by (unfold Recl.least_count; simpl; lia).
  destruct (ended_reacts (producer_ c) (buffer_ c) (Recl.new q) He) as (p' & Hp' & Hre);
    [split; [done|simpl; lia]|unfold USIZE_MAX; lia|].
  by exists p', q.
Qed.

Lemma idle_pump_sync fuel c R W items :
  idle_ring c R W items → (4 ≤ fuel)%nat →
  ∃ c', pump_input_sync fuel c = Done (c', 0) ∧ idle_ring c' R W items.
Proof.
  intros Hi Hf. destruct fuel as [|[|fuel]]; [lia..|]. rewrite pump_input_sync_S.
  pose proof Hi as [Hr He Hk Htx Hrx].
  rewrite (ended_active _ He). change (c_is_passive (consumer_ c)) with true.
  cbn [negb]. rewrite pump_input_loop_S.
  unfold is_tx_closed, is_rx_closed in Htx, Hrx. rewrite Htx, Hrx. cbn [orb].
  destruct (ring_sizes _ _ _ _ Hr) as (_ & _ & Hfree). rewrite Hfree.
  destruct (Z.eqb_spec (cap_ c - (W - R)) 0) as [E|E]; [by exists c|].
  destruct (capacity_demand c R W items Hr) as (_ & _ & Hle). unfold capacity in Hle.
  destruct (idle_react c R W items (cap_ c - (W - R)) Hi) as (p' & q & -> & Hlc & Hp' & Hre);
    [lia|].
  cbn [lift mbind exec_bind]. rewrite Hre. cbn [mbind exec_bind r_segm r_end r_mem r_poll].
  cbn [Recl.offset_ Recl.new]. pose proof (idle_commit c R W items p' Hi Hp') as Hi'.
  rewrite advance_write_passive; [|by rewrite (idle_nobody _ _ _ _ Hi')|lia].
  cbn [mbind exec_bind is_reacted negb]. rewrite orb_true_r.
  eexists. split; [|exact Hi']. do 3 f_equal.
  unfold Recl.capacity, Recl.least_count. simpl. lia.
Qed.

Lemma idle_pump_async fuel c R W items :
  idle_ring c R W items → (3 ≤ fuel)%nat →
  ∃ c', producer_pump_async fuel c = Done (c', Ready 0) ∧ idle_ring c' R W items.
Proof.
  intros Hi Hf. destruct fuel as [|fuel]; [lia|].
  pose proof (idle_ring_ok _ _ _ _ Hi) as Hr. unfold producer_pump_async.
  rewrite (ended_active _ (idle_ended _ _ _ _ Hi)). simpl.
  rewrite (try_write_init_ring c R W items Hr). unfold capacity.
  destruct (Z.eqb_spec (cap_ c - (W - R)) 0) as [E|E]; [by exists c|].
  destruct (capacity_demand c R W items Hr) as (_ & _ & Hle). unfold capacity in Hle.
  destruct (idle_react c R W items (cap_ c - (W - R)) Hi) as (p' & q & -> & Hlc & Hp' & Hre);
    [lia|].
  cbn [lift mbind exec_bind fmap exec_fmap]. rewrite Hre. cbn [mbind exec_bind r_segm r_end r_mem r_poll].
  rewrite Z.sub_diag. cbn [Recl.offset_ Recl.new Z.eqb orb].
  pose proof (idle_commit c R W items p' Hi Hp') as Hi'.
  rewrite advance_write_passive; [|by rewrite (idle_nobody _ _ _ _ Hi')|lia].
  by eexists.
Qed.

(** An attempt that finds too little. *)
Lemma idle_attempt c R W items d :
  core_ring c R W items → is_tx_closed c = false → is_rx_closed c = false →
  demand_wf d → 0 < max_len d → Z.of_nat (length items) < Z.max 1 (min_len d) →
  ∃ n, try_read_at c d = Ret (Err (Drained n)).
Proof.
  intros Hr Htx Hrx Hd Hm Hshort.
  destruct (read_attempt c R W items d Hr Hd Hm) as (r & Hat & Hs). rewrite Htx, Hrx in Hs.
  destruct r as [[start take]|[n| | | |]]; [|by eexists|by destruct Hs|done..].
  destruct Hs as (_ & _ & _ & ? & ? & [?|?] & _); [lia|done].
Qed.

Lemma idle_try_read fuel c R W items d :
  idle_ring c R W items → demand_wf d → 0 < max_len d →
  Z.of_nat (length items) < Z.max 1 (min_len d) → (4 ≤ fuel)%nat →
  ∃ c' n, try_read_ fuel c d = Done (c', Err (Drained n)) ∧ idle_ring c' R W items.
Proof.
  intros Hi Hd Hm Hshort Hf.
  destruct (idle_pump_sync fuel c R W items Hi Hf) as (c' & Hpump & Hi').
  destruct Hi as [Hr _ _ Htx Hrx]. pose proof Hi' as [Hr' _ _ Htx' Hrx'].
  destruct (idle_attempt c R W items d Hr Htx Hrx Hd Hm Hshort) as (n & Hn).
  destruct (idle_attempt c' R W items d Hr' Htx' Hrx' Hd Hm Hshort) as (n' & Hn').
  unfold try_read_. rewrite Hn. cbn [lift mbind exec_bind consumer_err_tag read_should_terminate].
  rewrite Hpump. cbn [mbind exec_bind]. rewrite Hn'. by exists c', n'.
Qed.

(** An awaited read that asks for more than an idle ring holds. *)
Lemma idle_read_parks fuel pf c R W items d :
  idle_ring c R W items → demand_wf d → 0 < max_len d →
  Z.of_nat (length items) < Z.max 1 (min_len d) → (4 ≤ pf)%nat →
  ∃ c', core_passive_read_async_ (S fuel) pf c d = Done (c', Parked) ∧
    core_ring c' R W items ∧ ended (producer_ c') ∧
    consumer_ c' = mkBufEnd (Some d) (Some self).
Proof.
  intros Hi Hd Hm Hshort Hpf. simpl core_passive_read_async_.
  destruct (idle_try_read pf c R W items d Hi Hd Hm Hshort Hpf) as (c1 & n & -> & Hi1).
  cbn [mbind exec_bind consumer_err_tag read_should_terminate].
  destruct (idle_pump_async pf c1 R W items Hi1) as (c2 & -> & [Hr He Hk Htx Hrx]);
    [lia|].
  cbn [mbind exec_bind Z.ltb Z.compare]. rewrite Hk.
  cbn [try_set_demand buf_new demand_ wakeslot_ negb].
  set (c3 := set_rx_standby _).
  assert (Hflag : is_state_flag RX_STNDBY) by (unfold is_state_flag; auto).
  assert (Hw3 : is_usize (atm_stat_ c3) ∧ core_pos c3 = core_pos c2).
  { split; [|by apply unpack_set_flag].
    pose proof (ring_word _ _ _ _ Hr). simpl. eauto with cantare. }
  assert (Hcl : is_tx_closed c3 = false ∧ is_rx_closed c3 = false).
  { unfold is_tx_closed, is_rx_closed in *. simpl.
    rewrite !has_flag_set by (unfold is_state_flag; auto).
    rewrite Htx, Hrx. by vm_compute. }
  assert (Hr3 : core_ring c3 R W items).
  { destruct Hr, Hw3 as [? Hpos]. constructor; try done; by rewrite Hpos. }
  destruct Hcl as [Htx3 Hrx3].
  destruct (idle_attempt c3 R W items d Hr3 Htx3 Hrx3 Hd Hm Hshort) as (m & Hat).
  unfold read_poll, read_can_stop. rewrite Hat. cbn [lift mbind exec_bind consumer_err_tag read_should_terminate].
  cbn [consumer_ c3 set_rx_standby with_state with_consumer wakeslot_ WakeSlot.new WakeSlot.register].
  change (try_read_at (with_consumer c3 _ []) d) with (try_read_at c3 d).
  rewrite Hat. cbn [lift mbind exec_bind consumer_err_tag read_should_terminate].
  eexists. split; [reflexivity|]. split; [destruct Hr3; by constructor|]. by split.
Qed.
End ended.

(** ** Devices that make progress, and devices that have ended *)

Class WillingOutput (D T : Type) `{TrOutput D T} (live : D → Prop) : Prop := {
  out_write_keeps o (xs : list T) : live o → live (out_write o xs).1;
  out_write_willing o (xs : list T) : live o → xs ≠ [] →
    ∃ o' n err, out_write o xs = (o', Ready (Some n, err)) ∧ 0 < n;
}.
Class FlowingInput (I T : Type) `{TrInput I T} : Prop := {
  in_read_flows i n : 0 < n →
    ∃ i' xs err, in_read i n = (i', Ready (Some xs, err)) ∧ xs ≠ [];
}.
(** The end of the input: zero items, for ever. *)
Class EndedInput (I T : Type) `{TrInput I T} (ended : I → Prop) : Prop := {
  in_read_ended i n : ended i → 0 < n →
    ∃ i', in_read i n = (i', Ready (Some [], false)) ∧ ended i';
}.

Section willing_output.
Context {D T : Type} `{LawfulOutput D T written} (live : D → Prop).
Context `{!WillingOutput D T live}.

Lemma output_loop_willing fuel : ∀ dev mem buff segm size max c dev' segm' x,
  output_loop fuel dev mem buff segm size max c = Done (dev', segm', x) →
  live dev → 0 ≤ c → max ≤ size →
  live dev' ∧ x ≠ Pending ∧ Segm.offset_ segm ≤ Segm.offset_ segm' ∧
  (c < max → Segm.offset_ segm < Segm.offset_ segm').
Proof.
  induction fuel as [|fuel IH]; intros dev mem buff segm size max c dev' segm' x Hrun Hlive Hc Hmax;
    [done|].
  simpl in Hrun. destruct (Z.leb_spec max c).
  { injection Hrun as <- <- <-. split; [done|]. split; [done|]. lia. }
  destruct (slice_from buff c) as [rest|]; [|done]. simpl in Hrun.
  destruct (Segm.fetch mem (s_start rest) _) as [source|] eqn:Ef; [|done].
  apply fetch_Some in Ef as [Hlen _].
  destruct (out_write_willing dev source Hlive) as (o' & n & err & Eo & Hn).
  { intros ->. simpl in Hlen. lia. }
  pose proof (out_write_keeps dev source Hlive) as Hlive'. rewrite Eo in Hlive'.
  rewrite Eo in Hrun. rewrite (proj2 (Z.eqb_neq n 0)) in Hrun by lia. destruct err.
  - injection Hrun as <- <- <-. simpl. split; [done|]. split; [done|]. lia.
  - apply IH in Hrun as (Hl & Hx & Ho & _); [|done|lia|done]. simpl in Ho.
    split; [done|]. split; [done|]. lia.
Qed.

Lemma segm_ref_output_willing fuel dev mem b r lc dev' segm' x :
  0 < r ≤ lc → live dev →
  segm_ref_output fuel dev mem (Segm.mk (Slice b r) 0) (less_than lc) =
    Done (dev', segm', x) →
  live dev' ∧ x ≠ Pending ∧ 0 < Segm.offset_ segm'.
Proof.
  intros Hr Hlive. unfold segm_ref_output, slice_from. simpl.
  rewrite decide_True by lia. simpl. rewrite Z.sub_0_r.
  replace (Z.min lc r) with r by lia. rewrite Z.ltb_irrefl.
  intros Hrun. apply output_loop_willing in Hrun as (? & ? & _ & Ho); [|done|lia..].
  split; [done|]. split; [done|]. apply Ho. lia.
Qed.

Lemma output_react_willing inner fuel : ∀ dev mem s moved xs,
  live dev → Recl.wf s →
  (Z.to_nat (Recl.least_count s) < fuel)%nat →
  (Z.to_nat (Recl.least_count s) < inner)%nat →
  Z.of_nat (length xs) = Recl.least_count s →
  holds mem (Recl.pieces s) (Recl.offset_ s) xs →
  ∃ dev' s' n, output_react_loop fuel inner dev mem s moved = Done (dev', s', Ready n) ∧
    Recl.offset_ s ≤ Recl.offset_ s' ∧
    (0 < Recl.least_count s → Recl.offset_ s < Recl.offset_ s').
Proof.
  induction fuel as [|fuel IH]; intros dev mem s moved xs Hlive Hwf Hfuel Hinner Hlen Hh; [lia|].
  assert (Hlc : 0 ≤ Recl.least_count s)
    by (destruct Hwf as [_ ?]; unfold Recl.least_count; lia).
  simpl. unfold Recl.is_empty. destruct (Z.eqb_spec (Recl.least_count s) 0) as [Hz|Hz].
  { exists dev, s, moved. split; [done|]. lia. }
  destruct (as_segm_round s Hwf ltac:(lia)) as (b & r & -> & Hr & Hidx & _). simpl.
  destruct (segm_ref_output_round inner dev mem b r (Recl.least_count s)
              (take (Z.to_nat r) xs)) as (dev1 & n & x & Hrun & Hn & Hw & Hx);
    [lia|lia|rewrite length_take; lia| |].
  { intros k Hk. rewrite lookup_take_lt, <- Hh, Hidx by lia. done. }
  rewrite Hrun. apply segm_ref_output_willing in Hrun as (Hlive1 & Hpend & Hpos); [|lia|done].
  simpl in Hpos. simpl. unfold Recl.drop_child, Segm.reclaim; simpl.
  destruct x as [[cnt [|]]|]; [| |done].
  { eexists _, _, _. split; [reflexivity|]. simpl. lia. }
  rewrite (Hx cnt eq_refl). simpl. rewrite (proj2 (Z.eqb_neq n 0)) by lia.
  destruct (IH dev1 mem (Recl.mk (Recl.pieces s) (Recl.offset_ s + n)) (moved + n)
              (drop (Z.to_nat n) xs)) as (dev' & s' & m & -> & Ho & _).
  { done. }
  { apply recl_advance_wf; [done|lia]. }
  { unfold Recl.least_count in *. simpl. lia. }
  { unfold Recl.least_count in *. simpl. lia. }
  { rewrite length_drop. unfold Recl.least_count in *. simpl. lia. }
  { simpl. apply holds_drop; [lia|done]. }
  simpl in Ho. eexists _, _, _. split; [reflexivity|]. lia.
Qed.

Lemma segm_ref_output_keeps fuel dev mem segm d dev' segm' x :
  segm_ref_output fuel dev mem segm d = Done (dev', segm', x) → live dev → live dev'.
Proof.
  unfold segm_ref_output. intros Hrun Hlive.
  destruct (slice_from _ _) as [buff|]; [|done]. simpl in Hrun.
  destruct (compromise _ _) as [[d'|]|]; simpl in Hrun; [|by injection Hrun as <-|done].
  destruct (max d') as [m|]; [|done].
  destruct (Z.ltb_spec (s_len buff) m); [done|].
  by apply output_loop_willing in Hrun as [? _].
Qed.

Lemma output_react_keeps inner fuel : ∀ dev mem s moved dev' s' x,
  output_react_loop fuel inner dev mem s moved = Done (dev', s', x) → live dev → live dev'.
Proof.
  induction fuel as [|fuel IH]; intros dev mem s moved dev' s' x Hrun Hlive; [done|].
  simpl in Hrun. destruct (Recl.is_empty s); [by injection Hrun as <-|].
  destruct (Recl.as_segm s) as [child|]; [|done]. simpl in Hrun.
  destruct (segm_ref_output _ _ _ _ _) as [[[dev1 child'] y]| |] eqn:E; [|done..].
  apply segm_ref_output_keeps in E; [|done]. simpl in Hrun.
  destruct y as [[cnt [|]]|]; [by injection Hrun as <-| |by injection Hrun as <-].
  destruct (_ =? 0); [by injection Hrun as <-|by eapply IH].
Qed.

#[export] Instance dev_consumer_willing :
  WillingConsumer (DevEnd D) T (λ k, live (device_ k)).
Proof.
  split.
  - split.
    + intros k mem s r Hlive. simpl. unfold dev_consumer_react.
      destruct (output_react_loop _ _ _ _ _ _) as [[[dev s'] x]| |] eqn:E; [|done..].
      apply output_react_keeps in E; [|done]. by intros [= <-].
    + intros k e Hlive. simpl. unfold dev_consumer_check. by repeat case_match; simplify_eq.
  - intros k mem s xs Hlive Hwf Hlc Hlen Hh. simpl. unfold dev_consumer_react.
    destruct (output_react_willing (S (Z.to_nat (Recl.least_count s)))
                (S (Z.to_nat (Recl.least_count s))) (device_ k) mem s 0 xs Hlive Hwf)
      as (dev' & s' & n & -> & _ & Ho); [lia|lia|done|done|].
    simpl. eexists _, _. split; [reflexivity|]. simpl. split; [done|]. apply Ho. lia.
Qed.
End willing_output.

Section flowing_input.
Context {I T : Type} `{LawfulInput I T fetched} `{!FlowingInput I T}.

Lemma input_loop_flows fuel : ∀ dev mem buff segm size max c dev' mem' segm' x,
  input_loop fuel dev mem buff segm size max c = Done (dev', mem', segm', x) →
  0 ≤ c → max ≤ size →
  x ≠ Pending ∧ Segm.offset_ segm ≤ Segm.offset_ segm' ∧
  (c < max → Segm.offset_ segm < Segm.offset_ segm').
Proof.
  induction fuel as [|fuel IH];
    intros dev mem buff segm size max c dev' mem' segm' x Hrun Hc Hmax; [done|].
  simpl in Hrun. destruct (Z.leb_spec max c).
  { injection Hrun as _ _ <- <-. split; [done|]. lia. }
  destruct (slice_from buff c) as [rest|]; [|done]. simpl in Hrun.
  destruct (in_read_flows dev (Z.min (size - c) (max - c))) as (i' & xs & err & Ei & Hne);
    [lia|].
  rewrite Ei in Hrun.
  assert (Hl : 0 < Z.of_nat (length xs)) by (destruct xs; [done|simpl; lia]).
  rewrite (proj2 (Z.eqb_neq (Z.of_nat (length xs)) 0)) in Hrun by lia. destruct err.
  - injection Hrun as _ _ <- <-. simpl. split; [done|]. lia.
  - apply IH in Hrun as (Hx & Ho & _); [|lia|done]. simpl in Ho. split; [done|]. lia.
Qed.

Lemma segm_mut_input_flows fuel dev mem b r lc dev' mem' segm' x :
  0 < r ≤ lc →
  segm_mut_input fuel dev mem (Segm.mk (Slice b r) 0) (less_than lc) =
    Done (dev', mem', segm', x) →
  x ≠ Pending ∧ 0 < Segm.offset_ segm'.
Proof.
  intros Hr. unfold segm_mut_input, slice_from. simpl.
  rewrite decide_True by lia. simpl. rewrite Z.sub_0_r.
  replace (Z.min lc r) with r by lia. rewrite Z.ltb_irrefl.
  intros Hrun. apply input_loop_flows in Hrun as (? & _ & Ho); [|lia..].
  split; [done|]. apply Ho. lia.
Qed.

Lemma input_react_flows inner fuel : ∀ dev mem s moved,
  Recl.wf s →
  (Z.to_nat (Recl.least_count s) < fuel)%nat →
  (Z.to_nat (Recl.least_count s) < inner)%nat →
  ∃ dev' mem' s' n,
    input_react_loop fuel inner dev mem s moved = Done (dev', mem', s', Ready n) ∧
    Recl.offset_ s ≤ Recl.offset_ s' ∧
    (0 < Recl.least_count s → Recl.offset_ s < Recl.offset_ s').
Proof.
  induction fuel as [|fuel IH]; intros dev mem s moved Hwf Hfuel Hinner; [lia|].
  assert (Hlc : 0 ≤ Recl.least_count s)
    by (destruct Hwf as [_ ?]; unfold Recl.least_count; lia).
  simpl. unfold Recl.is_empty. destruct (Z.eqb_spec (Recl.least_count s) 0) as [Hz|Hz].
  { exists dev, mem, s, moved. split; [done|]. lia. }
  destruct (as_segm_round s Hwf ltac:(lia)) as (b & r & -> & Hr & _ & _). simpl.
  destruct (segm_mut_input_round inner dev mem b r (Recl.least_count s))
    as (dev1 & m1 & xs & x & Hrun & Hxs & _ & _ & Hx); [lia..|].
  rewrite Hrun. apply segm_mut_input_flows in Hrun as [Hpend Hpos]; [|lia].
  simpl in Hpos. simpl. unfold Recl.drop_child, Segm.reclaim; simpl.
  destruct x as [[cnt [|]]|]; [| |done].
  { eexists _, _, _, _. split; [reflexivity|]. simpl. lia. }
  rewrite (Hx cnt eq_refl). simpl.
  rewrite (proj2 (Z.eqb_neq (Z.of_nat (length xs)) 0)) by lia.
  destruct (IH dev1 m1 (Recl.mk (Recl.pieces s) (Recl.offset_ s + Z.of_nat (length xs)))
    (moved + Z.of_nat (length xs))) as (dev' & m' & s' & m & -> & Ho & _).
  { apply recl_advance_wf; [done|lia]. }
  { unfold Recl.least_count in *. simpl. lia. }
  { unfold Recl.least_count in *. simpl. lia. }
  simpl in Ho. eexists _, _, _, _. split; [reflexivity|]. lia.
Qed.

#[export] Instance dev_producer_flowing : FlowingProducer (DevEnd I) T.
Proof.
  split. intros p mem s Hwf _ Hlc. simpl. unfold dev_producer_react.
  destruct (input_react_flows (S (Z.to_nat (Recl.least_count s)))
              (S (Z.to_nat (Recl.least_count s))) (device_ p) mem s 0 Hwf)
    as (dev' & m' & s' & n & -> & _ & Ho); [lia|lia|].
  simpl. eexists _, _. split; [reflexivity|]. simpl. split; [done|]. apply Ho. lia.
Qed.
End flowing_input.

Section ended_input.
Context {I T : Type} `{TrInput I T} (ended : I → Prop) `{!EndedInput I T ended}.

#[export] Instance dev_producer_ended :
  EndedProducer (DevEnd I) T (λ p, ended (device_ p)).
Proof.
  split; [done|]. intros p mem s He Hwf Hmax. simpl. unfold dev_producer_react.
  set (fuel := Z.to_nat (Recl.least_count s)). simpl. unfold Recl.is_empty.
  assert (Hlc : 0 ≤ Recl.least_count s)
    by (destruct Hwf as [_ ?]; unfold Recl.least_count; lia).
  destruct (Z.eqb_spec (Recl.least_count s) 0) as [Hz|Hz].
  { simpl. exists (mkDevEnd (device_ p) (dev_wakeslot_ p)). by split. }
  destruct (as_segm_round s Hwf ltac:(lia)) as (b & r & -> & Hr & _ & _). simpl.
  unfold segm_mut_input, slice_from. simpl. rewrite decide_True by lia. simpl.
  rewrite Z.sub_0_r. replace (Z.min (Recl.least_count s) r) with r by lia.
  rewrite Z.ltb_irrefl. destruct (Z.leb_spec r 0); [lia|].
  unfold slice_from. simpl. rewrite decide_True by lia. simpl.
  destruct (in_read_ended (device_ p) (Z.min (r - 0) (r - 0)) He) as (i' & -> & He'); [lia|].
  simpl. exists (mkDevEnd i' (dev_wakeslot_ p)). split; [done|].
  unfold Recl.drop_child, Segm.reclaim. simpl. rewrite Z.add_0_r. by destruct s.
Qed.
End ended_input.

(** ** Properties *)

(** The asynchronous closing delivers what is left, for any consumer that takes
    at least one item whenever it is offered some: it returns, the write side is
    closed, the ring is empty and every item that was in it has been handed over,
    in order.  (The synchronous [close_tx] promises that of a consumer that takes
    all it is offered only.) *)
Theorem close_tx_async_drains {P C T} `{HP : TrProducer P T} `{HC : TrConsumer C T}
    (fetched : P → list T) (accepted : C → list T) (live : C → Prop)
    `{!LawfulProducer P T fetched} `{!LawfulConsumer C T accepted}
    `{!WillingConsumer C T live}
    fuel (c : CircCore P C T) k R W items :
  core_ring c R W items → p_is_passive (producer_ c) = true →
  c_is_passive (consumer_ c) = false → live (consumer_ c) →
  Forall (λ b, b = false) k → (Z.to_nat (W - R) + 5 ≤ fuel)%nat →
  ∃ c', close_tx_async fuel c k = Done (c', Ready tt) ∧
    is_tx_closed c' = true ∧ core_ring c' W W [] ∧
    accepted (consumer_ c') = accepted (consumer_ c) ++ items.
Proof.
  intros Hr Hp Hc Hl Hk Hf.
  destruct (close_tx_async_run fetched accepted live fuel c k R W items Hr Hp Hc Hl Hk Hf)
    as (c' & Hrun & Htx & Hr' & _ & Hacc).
  by exists c'.
Qed.


(** An awaited read over a device that has ended parks.  When the device answers,
    without an error, that it has nothing (which is how it reports the end of its
    data), a read that asks for more than the ring holds registers itself to be
    woken by a write into the ring, and suspends: the data that is left is not lent
    and the end is not reported; the task that would drive the device, and so write
    into the ring, is the one that sleeps. *)
Theorem read_async_parks_at_end {P T} `{HP : TrProducer P T} (ended : P → Prop)
    `{!EndedProducer P T ended} fuel pf (c : CircCore P BufEnd T) R W items d :
  idle_ring ended c R W items → demand_wf d → 0 < max_len d →
  Z.of_nat (length items) < Z.max 1 (min_len d) → (4 ≤ pf)%nat →
  ∃ c', core_passive_read_async_ (S fuel) pf c d = Done (c', Parked) ∧
    core_ring c' R W items ∧ ended (producer_ c') ∧
    consumer_ c' = mkBufEnd (Some d) (Some self).
Proof.
  intros Hi Hd Hm Hshort Hpf.
  by apply (idle_read_parks ended fuel pf c R W items d).
Qed.

(** ** Witnesses *)

(** A device that takes one item at a time, one that delivers one at a time, and
    one that is at its end. *)
Definition slow_output : Type := list Z.
Definition delivered (o : slow_output) : list Z := o.
#[export] Instance slow_output_device : TrOutput slow_output Z := {|
  out_write o xs := (o ++ take 1 xs, Ready (Some (Z.of_nat (length (take 1 xs))), false))
|}.
#[export] Instance slow_output_lawful : LawfulOutput delivered.
Proof.
  split. intros o xs. simpl. split; [rewrite length_take; lia|]. unfold delivered.
  rewrite Nat2Z.id. f_equal. by destruct xs.
Qed.
Definition slow_live (o : slow_output) : Prop := True.
#[export] Instance slow_output_willing : WillingOutput slow_output Z slow_live.
Proof. split; [done|]. intros o xs _ Hne. destruct xs as [|x xs]; [done|]. by eexists _, 1, false. Qed.

Definition drip_input : Type := list Z.
Definition dripped (i : drip_input) : list Z := i.
#[export] Instance drip_input_device : TrInput drip_input Z := {|
  in_read i n := (i ++ take (Z.to_nat n) [7], Ready (Some (take (Z.to_nat n) [7]), false))
|}.
#[export] Instance drip_input_lawful : LawfulInput dripped.
Proof. split. intros i n Hn. simpl. split; [done|]. rewrite length_take. lia. Qed.
#[export] Instance drip_input_flowing : FlowingInput drip_input Z.
Proof.
  split. intros i n Hn. eexists _, _, _. split; [reflexivity|].
  by destruct (Z.to_nat n) eqn:E; [lia|].
Qed.

Definition eof_input : Type := unit.
#[export] Instance eof_input_device : TrInput eof_input Z := {|
  in_read i n := (i, Ready (Some [], false))
|}.
Definition at_eof (i : eof_input) : Prop := True.
#[export] Instance eof_input_ended : EndedInput eof_input Z at_eof.
Proof. split. intros i n _ _. by exists i. Qed.

Definition slow_ring : CircCore BufEnd (DevEnd slow_output) Z :=
  mkCore (<[0 := 7]> (<[2 := 6]> (<[1 := 5]> ∅))) 3 (pack (mkIoPos true 1 1 3) 0)
    buf_new (dev_new []) [].

Lemma close_tx_async_drains_witness :
  ∃ c', close_tx_async 8 slow_ring [false] = Done (c', Ready tt) ∧
    is_tx_closed c' = true ∧ core_ring c' 4 4 [] ∧ device_ (consumer_ c') = [5; 6; 7].
Proof.
  assert (Hr : core_ring slow_ring 1 4 [5; 6; 7]).
  { constructor; [by vm_compute..|].
    intros k Hk. assert (k = 0 ∨ k = 1 ∨ k = 2) as [->|[->| ->]] by lia; reflexivity. }
  assert (Hf : (Z.to_nat (4 - 1) + 5 ≤ 8)%nat) by (vm_compute; lia).
  assert (Hk : Forall (λ b, b = false) [false]) by by constructor.
  exact (close_tx_async_drains (HP:=buf_producer) (HC:=dev_consumer) (λ _ : BufEnd, [])
    (λ k : DevEnd slow_output, delivered (device_ k))
    (λ k : DevEnd slow_output, slow_live (device_ k)) 8 slow_ring [false] 1 4 [5; 6; 7]
    Hr eq_refl eq_refl I Hk Hf).
Defined.


Lemma read_async_parks_at_end_witness :
  let c : CircCore (DevEnd eof_input) BufEnd Z := core_new (dev_new tt) buf_new 4 in
  ∃ c', core_passive_read_async_ 1 4 c (AtLeast 1) = Done (c', Parked) ∧
    consumer_ c' = mkBufEnd (Some (AtLeast 1)) (Some self).
Proof.
  intros c.
  assert (Hcap : MIN_CAPACITY ≤ 4 ≤ MAX_CAPACITY) by by vm_compute.
  assert (Hd : demand_wf (AtLeast 1)) by by vm_compute.
  assert (Hm : 0 < max_len (AtLeast 1)) by by vm_compute.
  assert (Hi : idle_ring (λ p : DevEnd eof_input, at_eof (device_ p)) c 0 0 []).
  { pose proof (core_ring_new (HP:=dev_producer) (HC:=buf_consumer)
      (dev_new tt : DevEnd eof_input) buf_new 4 Hcap). by constructor. }
  destruct (read_async_parks_at_end (HP:=dev_producer) (λ p : DevEnd eof_input, at_eof (device_ p))
    0 4 c 0 0 [] (AtLeast 1) Hi Hd Hm) as (c' & Hrun & _ & _ & Hk);
    [vm_compute; reflexivity|lia|].
  exists c'. exact (conj Hrun Hk).
Defined.
