(* ===== verification/CircHalf.v ===== *)
(** * The public halves and the pipeline

    Models [crates/buffex/src/circular_buff/spsc_.rs]: the [Producer] and
    [Consumer] halves handed to the caller, the [Pipeline] between two active
    ends, with its pumps [pipe_input_once] / [pipe_output_once] and its parking
    ([core_.rs]); and the capacity check of [builder.rs], whose chain is in
    [Builder.v].

    The pipeline is a future: it is a state machine over its suspension points,
    and [pipe_step] is what runs between two of them. *)

From S2P Require Import Prelude Demand Atomex IoPos Segm CircEnds CircCore CircLaws CircDev CircPump.

(** ** [builder.rs]: the capacity check *)

Inductive BuilderError (T : Type) : Type :=
| SizeTooSmall (t : T)
| SizeTooBig (t : T)
| Cancelled
| ProducerInit
| ConsumerInit.
Arguments SizeTooSmall {T} t.
Arguments SizeTooBig {T} t.

Definition try_capacity (capacity : Z) : result (BuilderError Z) Z :=
  if MAX_CAPACITY <? capacity then Err (SizeTooBig capacity)
  else if capacity <? MIN_CAPACITY then Err (SizeTooSmall capacity)
  else Ok capacity.

(** [with_capacity] and the synchronous part of [essential_build_async_] for two
    ends: the core over a fresh, uninitialised buffer. *)
Definition build {P C T} (producer : P) (consumer : C) (capacity : Z) :
    result (BuilderError Z) (CircCore P C T) :=
  cap ← try_capacity capacity;
  Ok (core_new producer consumer cap).

(** ** The producer half *)

Module Producer.
Section producer.
Context {C T : Type} `{TrConsumer C T}.
Implicit Types c : CircCore BufEnd C T.

Definition capacity c : Z := CircCore.capacity c.
Definition free_size c : Z := core_free_size c.
Definition data_size c : Z := core_data_size c.
Definition is_producer_closed c : bool := is_tx_closed c.
Definition is_consumer_closed c : bool := is_rx_closed c.
Definition close (fuel : nat) c := close_tx fuel c.
Definition try_write (fuel : nat) c (demand : Demand) := try_write_ fuel c demand.

(** [Drop]: [on_buf_producer_drop_]. *)
Definition drop c : CircCore BufEnd C T :=
  let '(_, c) := clear_flag c TX_STNDBY in
  let '(_, p) := try_reset_demand (producer_ c) in
  with_producer c p [].

(** [TrBuffWrite::is_stuffed_closing]. *)
Definition is_stuffed_closing c : outcome bool :=
  ready ← producer_ready c 1;
  Ret (is_tx_closed c || negb ready).
End producer.
End Producer.

(** ** The consumer half *)

Module Consumer.
Section consumer.
Context {P T : Type} `{TrProducer P T}.
Implicit Types c : CircCore P BufEnd T.

Definition capacity c : Z := CircCore.capacity c.
Definition free_size c : Z := core_free_size c.
Definition data_size c : Z := core_data_size c.
Definition is_producer_closed c : bool := is_tx_closed c.
Definition is_consumer_closed c : bool := is_rx_closed c.
Definition close c := close_rx c.
Definition try_read (fuel : nat) c (demand : Demand) := try_read_ fuel c demand.

(** [Drop]: [on_buf_consumer_drop_]. *)
Definition drop c : CircCore P BufEnd T :=
  let '(_, c) := clear_flag c RX_STNDBY in
  let '(_, k) := try_reset_demand (consumer_ c) in
  with_consumer c k [].

(** [TrBuffRead::is_drained_closing]. *)
Definition is_drained_closing c : bool :=
  is_rx_closed c || (is_tx_closed c && (core_data_size c =? 0)).
End consumer.
End Consumer.

(** ** The pipeline *)

Module Pipeline.
(** Where the future is suspended. [AtOutput] remembers what the input moved in
    this round; [Idle] is the [pending] of a round without progress. *)
Inductive phase : Type :=
| Top
| AtInput
| AtOutput (in_moved : Z)
| ParkedProducer
| ParkedConsumer
| Idle
| Finished.

Section pipeline.
Context {I O T : Type} `{TrInput I T} `{TrOutput O T}.
Abbreviation core := (CircCore (DevEnd I) (DevEnd O) T).
Implicit Types c : core.

Definition capacity c : Z := CircCore.capacity c.
Definition data_size c : Z := core_data_size c.
Definition free_size c : Z := core_free_size c.
Definition is_consumer_closed c : bool := is_rx_closed c.
Definition is_producer_closed c : bool := is_tx_closed c.

(** [TrBufferState::free_size] of the pipeline, as written. *)
Definition state_free_size c : Z := data_size c.

Definition set_input c (dev : I) : core :=
  with_producer c (mkDevEnd dev (dev_wakeslot_ (producer_ c))) [].
Definition set_output c (dev : O) : core :=
  with_consumer c (mkDevEnd dev (dev_wakeslot_ (consumer_ c))) [].

(** [pipe_input_once], polled once.  With both ends active the pumps that a
    commit calls return at once. *)
Definition pipe_input_once c : exec (core * Poll Z) :=
  let state := atm_stat_ c in
  if has_flag state TX_CLOSED || has_flag state RX_CLOSED then Done (c, Ready 0)
  else
    let cap := CircCore.capacity c in
    let pos := unpack state cap in
    let free := IoPos.free_size pos in
    if free =? 0 then Done (c, Ready 0)
    else
      let take := Z.min free (cap - wp pos) in
      rest ← lift (slice_from (Slice 0 cap) (wp pos));
      dst ← lift (slice_to rest take);
      let '(dev, x) := in_read (device_ (producer_ c)) (s_len dst) in
      let c := set_input c dev in
      match x with
      | Pending => Done (c, Pending)
      | Ready (items, _) =>
          let items := default [] items in
          let n := Z.of_nat (length items) in
          if n =? 0 then Done (c, Ready 0)
          else
            let c := with_buffer c (Segm.store (buffer_ c) (s_start dst) items) in
            c ← advance_write 2 c n;
            Done (c, Ready n)
      end.

(** [pipe_output_once], polled once; [Aborted] also stands for handing an
    uninitialised slot to the device. *)
Definition pipe_output_once c : exec (core * Poll Z) :=
  let state := atm_stat_ c in
  if has_flag state RX_CLOSED then Done (c, Ready 0)
  else
    let cap := CircCore.capacity c in
    let pos := unpack state cap in
    let data := IoPos.data_size pos in
    if data =? 0 then Done (c, Ready 0)
    else
      let take := Z.min data (cap - rp pos) in
      rest ← lift (slice_from (Slice 0 cap) (rp pos));
      src ← lift (slice_to rest take);
      match Segm.fetch (buffer_ c) (s_start src) (Z.to_nat (s_len src)) with
      | None => Aborted
      | Some source =>
          let '(dev, x) := out_write (device_ (consumer_ c)) source in
          let c := set_output c dev in
          match x with
          | Pending => Done (c, Pending)
          | Ready (n, _) =>
              let n := default 0 n in
              if n =? 0 then Done (c, Ready 0)
              else c ← advance_read 2 c n; Done (c, Ready n)
          end
      end.

(** The waiter of a parked pipeline, and the slots of its two ends. *)
Definition waiter : nat := 0%nat.
Definition set_tx_slot c (slot : WakeSlot.t) : core :=
  with_producer c (mkDevEnd (device_ (producer_ c)) slot) [].
Definition set_rx_slot c (slot : WakeSlot.t) : core :=
  with_consumer c (mkDevEnd (device_ (consumer_ c)) slot) [].

(** [park_producer]: one poll, [arm] on the first one.  When the condition
    holds the guard is dropped: deregistered and disarmed. *)
Definition park_producer (arm : bool) c : exec (core * bool) :=
  let c := if arm then set_tx_standby c else c in
  match WakeSlot.register (dev_wakeslot_ (producer_ c)) waiter with
  | None => OutOfFuel
  | Some slot =>
      let c := set_tx_slot c slot in
      r ← lift (try_write_at c (at_least 1));
      if is_ok r || is_tx_closed c || is_rx_closed c then
        let slot := WakeSlot.deregister (dev_wakeslot_ (producer_ c)) waiter in
        Done (unset_tx_standby (set_tx_slot c slot), true)
      else Done (c, false)
  end.

Definition park_consumer (arm : bool) c : exec (core * bool) :=
  let c := if arm then set_rx_standby c else c in
  match WakeSlot.register (dev_wakeslot_ (consumer_ c)) waiter with
  | None => OutOfFuel
  | Some slot =>
      let c := set_rx_slot c slot in
      r ← lift (try_read_at c (at_least 1));
      if is_ok r || is_tx_closed c || is_rx_closed c then
        let slot := WakeSlot.deregister (dev_wakeslot_ (consumer_ c)) waiter in
        Done (unset_rx_standby (set_rx_slot c slot), true)
      else Done (c, false)
  end.

Definition parked (p : phase) (x : core * bool) : core * phase :=
  (x.1, if x.2 then Top else p).

(** One step of [pipeline_piping_async_]: from a suspension point to the next
    point of the loop.  [cancelled] is what the token answers at the top. *)
Definition pipe_step (cancelled : bool) (p : phase) c : exec (core * phase) :=
  match p with
  | Top =>
      if cancelled || (is_tx_closed c && is_rx_closed c) then Done (c, Finished)
      else Done (c, AtInput)
  | AtInput =>
      '(c, x) ← pipe_input_once c;
      Done (c, match x with Pending => AtInput | Ready n => AtOutput n end)
  | AtOutput in_moved =>
      '(c, x) ← pipe_output_once c;
      match x with
      | Pending => Done (c, AtOutput in_moved)
      | Ready out_moved =>
          if (in_moved =? 0) && (out_moved =? 0) then
            if is_tx_closed c && (data_size c =? 0) then Done (c, Finished)
            else if free_size c =? 0 then
              parked ParkedProducer <$> park_producer true c
            else if data_size c =? 0 then
              parked ParkedConsumer <$> park_consumer true c
            else Done (c, Idle)
          else Done (c, Top)
      end
  | ParkedProducer => parked ParkedProducer <$> park_producer false c
  | ParkedConsumer => parked ParkedConsumer <$> park_consumer false c
  | Idle => Done (c, Idle)
  | Finished => Done (c, Finished)
  end.

(** The run of a pipeline, given what the token answers at each step. *)
Fixpoint pipe_run (cancels : list bool) (p : phase) c : exec (core * phase) :=
  match cancels with
  | [] => Done (c, p)
  | b :: cancels => '(c, p) ← pipe_step b p c; pipe_run cancels p c
  end.
End pipeline.
End Pipeline.

(** ** Lemmas: the pipeline on the queue *)

Section pipeline_lemmas.
Context {I O T : Type} `{HI : TrInput I T} `{HO : TrOutput O T}.
Context (fetched : I → list T) (written : O → list T).
Context `{!LawfulInput fetched} `{!LawfulOutput written}.
Abbreviation core := (CircCore (DevEnd I) (DevEnd O) T).
Implicit Types (c : core) (items xs : list T).

Definition in_items c : list T := fetched (device_ (producer_ c)).
Definition out_items c : list T := written (device_ (consumer_ c)).

Definition slot_ok (s : WakeSlot.t) : Prop := s = None ∨ s = Some Pipeline.waiter.
Definition slots_ok c : Prop :=
  slot_ok (dev_wakeslot_ (producer_ c)) ∧ slot_ok (dev_wakeslot_ (consumer_ c)).

(** The pipeline between two steps: what the input delivered is what the output
    took followed by what the ring holds. *)
Definition pipe_inv c : Prop :=
  slots_ok c ∧
  ∃ R W items, core_ring c R W items ∧ in_items c = out_items c ++ items.

Lemma fire_consumer_slots c e : slots_ok c → slots_ok (fire_consumer c e).
Proof.
  intros Hs. unfold fire_consumer. destruct (negb _); [done|].
  destruct Hs as [Hp Hk]. simpl. unfold dev_consumer_check.
  destruct (match e with CAvailable _ => _ | _ => _ end); split; simpl; try done.
  by left.
Qed.

Lemma fire_producer_slots c e : slots_ok c → slots_ok (fire_producer c e).
Proof.
  intros Hs. unfold fire_producer. destruct (negb _); [done|].
  destruct Hs as [Hp Hk]. simpl. unfold dev_producer_check.
  destruct (match e with PAvailable _ => _ | _ => _ end); split; simpl; try done.
  by left.
Qed.

Lemma commit_write_pipe c R W items xs :
  slots_ok c → core_ring c R W items → Z.of_nat (length xs) ≤ cap_ c - (W - R) →
  (∀ k, 0 ≤ k < Z.of_nat (length xs) →
     buffer_ c !! ((W + k) mod cap_ c) = xs !! Z.to_nat k) →
  in_items c = out_items c ++ items ++ xs →
  pipe_inv (commit_write c (Z.of_nat (length xs))).
Proof.
  intros Hs Hr Hn Hx Heq.
  destruct (commit_write_ring (λ p : DevEnd I, fetched (device_ p))
              (λ k : DevEnd O, written (device_ k)) c R W items xs Hr Hn Hx) as [Hr' [_ _ Hf Ha _ _]].
  split; [by apply fire_consumer_slots|].
  exists R, (W + Z.of_nat (length xs)), (items ++ xs). split; [done|].
  unfold in_items, out_items in *. rewrite Hf, Ha, !app_nil_r. done.
Qed.

Lemma commit_read_pipe c R W items n :
  slots_ok c → core_ring c R W items → 0 ≤ n ≤ W - R →
  in_items c = out_items c ++ drop (Z.to_nat n) items →
  pipe_inv (commit_read c n).
Proof.
  intros Hs Hr Hn Heq.
  destruct (commit_read_ring (λ p : DevEnd I, fetched (device_ p))
              (λ k : DevEnd O, written (device_ k)) c R W items n Hr Hn) as [Hr' [_ _ Hf Ha _ _]].
  split; [by apply fire_producer_slots|].
  exists (R + n), W, (drop (Z.to_nat n) items). split; [done|].
  unfold in_items, out_items in *. rewrite Hf, Ha, !app_nil_r. done.
Qed.

(** A full ring leaves the input alone. *)
Lemma pipe_input_once_full c R W items :
  core_ring c R W items → is_tx_closed c = false → is_rx_closed c = false →
  W - R = cap_ c → Pipeline.pipe_input_once c = Done (c, Ready 0).
Proof.
  intros Hr Ht Hx Hfull. unfold is_tx_closed, is_rx_closed in *.
  unfold Pipeline.pipe_input_once. rewrite Ht, Hx. simpl orb. cbv iota.
  destruct (ring_sizes _ _ _ _ Hr) as (_ & _ & Hfree).
  unfold core_free_size, core_pos in Hfree. rewrite Hfree.
  by replace (cap_ c - (W - R)) with 0 by lia.
Qed.

(** An input with room: one read of the device into the contiguous free region, which
    starts at [W mod cap]. *)
Lemma pipe_input_once_eq c R W items :
  core_ring c R W items → is_tx_closed c = false → is_rx_closed c = false →
  W - R < cap_ c →
  ∃ tk, 0 < tk ≤ cap_ c - (W - R) ∧ W mod cap_ c + tk ≤ cap_ c ∧
    Pipeline.pipe_input_once c =
      let '(dev, x) := in_read (device_ (producer_ c)) tk in
      let c := Pipeline.set_input c dev in
      match x with
      | Pending => Done (c, Pending)
      | Ready (got, _) =>
          let xs := default [] got in
          let n := Z.of_nat (length xs) in
          if n =? 0 then Done (c, Ready 0)
          else Done (commit_write (with_buffer c (Segm.store (buffer_ c) (W mod cap_ c) xs)) n,
                     Ready n)
      end.
Proof.
  intros Hr Ht Hx Hroom. unfold is_tx_closed, is_rx_closed in *.
  unfold Pipeline.pipe_input_once. rewrite Ht, Hx. simpl orb. cbv iota.
  destruct (ring_sizes _ _ _ _ Hr) as (_ & _ & Hfree).
  unfold core_free_size, core_pos in Hfree. rewrite Hfree.
  rewrite (proj2 (Z.eqb_neq (cap_ c - (W - R)) 0)) by lia.
  pose proof Hr as [_ Hcap [[??]?] (_ & Hwp & _) _ _].
  unfold MIN_CAPACITY in Hcap. unfold core_pos in Hwp.
  change (capacity_ (unpack (atm_stat_ c) (capacity c))) with (cap_ c) in Hwp.
  rewrite Hwp. change (CircCore.capacity c) with (cap_ c).
  pose proof (Z.mod_pos_bound W (cap_ c) ltac:(lia)).
  exists (Z.min (cap_ c - (W - R)) (cap_ c - W mod cap_ c)). split; [lia|]. split; [lia|].
  unfold slice_from, slice_to. simpl. rewrite decide_True by lia. simpl.
  by rewrite decide_True by lia.
Qed.

(** What was stored in that region is where a commit looks for it, and the queue is as
    it was. *)
Lemma ring_store c R W items xs dev :
  core_ring c R W items → Z.of_nat (length xs) ≤ cap_ c - (W - R) →
  W mod cap_ c + Z.of_nat (length xs) ≤ cap_ c →
  let c1 := with_buffer (Pipeline.set_input c dev)
              (Segm.store (buffer_ c) (W mod cap_ c) xs) in
  core_ring c1 R W items ∧
  ∀ k, 0 ≤ k < Z.of_nat (length xs) → buffer_ c1 !! ((W + k) mod cap_ c) = xs !! Z.to_nat k.
Proof.
  intros Hr Hn Hend c1. pose proof Hr as [_ Hcap [[??]?] _ Hl Hct].
  unfold MIN_CAPACITY in Hcap. pose proof (Z.mod_pos_bound W (cap_ c) ltac:(lia)).
  assert (Hslot : ∀ k, 0 ≤ k < Z.of_nat (length xs) →
    (W + k) mod cap_ c = W mod cap_ c + k).
  { intros k Hk. rewrite <- Zplus_mod_idemp_l. apply Z.mod_small. lia. }
  split.
  - destruct Hr. constructor; try done. intros k Hk. simpl.
    rewrite store_lookup, decide_False; [by apply Hct|].
    intros Hin. set (j := (R + k) mod cap_ c - W mod cap_ c) in *.
    assert (Hj : 0 ≤ j < Z.of_nat (length xs)) by (unfold j; lia).
    pose proof (Hslot j Hj) as E.
    assert (E' : (R + k) mod cap_ c = (W + j) mod cap_ c) by (rewrite E; unfold j; lia).
    apply ring_index_inj in E'; lia.
  - intros k Hk. simpl. rewrite Hslot, store_lookup, decide_True by lia. f_equal. lia.
Qed.

Lemma pipe_input_once_inv c :
  pipe_inv c → ∃ c' x, Pipeline.pipe_input_once c = Done (c', x) ∧ pipe_inv c'.
Proof.
  intros Hinv. pose proof Hinv as [Hs (R & W & items & Hr & Heq)].
  destruct (is_tx_closed c || is_rx_closed c) eqn:Hcl.
  { exists c, (Ready 0). split; [|done]. unfold Pipeline.pipe_input_once.
    unfold is_tx_closed, is_rx_closed in Hcl. by rewrite Hcl. }
  apply orb_false_iff in Hcl as [Ht Hx].
  pose proof Hr as [_ _ [[??]?] _ Hl _].
  destruct (Z.eqb_spec (cap_ c - (W - R)) 0) as [Hz|Hz].
  { exists c, (Ready 0). split; [|done].
    by rewrite (pipe_input_once_full c R W items Hr Ht Hx) by lia. }
  destruct (pipe_input_once_eq c R W items Hr Ht Hx ltac:(lia)) as (tk & Htk & Hend & ->).
  pose proof (in_read_law (device_ (producer_ c)) tk ltac:(lia)) as Hlaw.
  destruct (in_read _ tk) as [dev [[got err]|]]; cbn zeta.
  2:{ eexists _, _. split; [done|]. split; [done|]. exists R, W, items.
      split; [by apply ring_ends|]. unfold in_items, out_items in *. simpl. by rewrite Hlaw. }
  assert (Hgot : fetched dev = in_items c ++ default [] got ∧
                 Z.of_nat (length (default [] got)) ≤ tk).
  { unfold in_items. destruct got as [ys|]; simpl; [done|].
    destruct Hlaw as [_ ->]. rewrite app_nil_r. split; [done|lia]. }
  destruct Hgot as [Hf Hn]. set (xs := default [] got) in *.
  destruct (Z.eqb_spec (Z.of_nat (length xs)) 0) as [Hz0|Hz0].
  { eexists _, _. split; [done|]. split; [done|]. exists R, W, items.
    split; [by apply ring_ends|]. destruct xs; [|simpl in Hz0; lia].
    unfold in_items, out_items in *. simpl. by rewrite Hf, app_nil_r. }
  eexists _, _. split; [reflexivity|].
  destruct (ring_store c R W items xs dev Hr ltac:(lia) ltac:(lia)) as [Hr1 Hslots].
  eapply (commit_write_pipe _ R W items xs); try done; simpl; [lia|].
  unfold in_items, out_items in *. simpl. by rewrite Hf, Heq, app_assoc.
Qed.

(** An output with data: one write of the contiguous front of the queue. *)
Lemma pipe_output_once_eq c R W items :
  core_ring c R W items → is_rx_closed c = false → R < W →
  ∃ tk, 0 < tk ≤ W - R ∧
    Pipeline.pipe_output_once c =
      let '(dev, x) := out_write (device_ (consumer_ c)) (take (Z.to_nat tk) items) in
      let c := Pipeline.set_output c dev in
      match x with
      | Pending => Done (c, Pending)
      | Ready (moved, _) =>
          let n := default 0 moved in
          if n =? 0 then Done (c, Ready 0) else Done (commit_read c n, Ready n)
      end.
Proof.
  intros Hr Hx Hdata. unfold is_rx_closed in Hx.
  unfold Pipeline.pipe_output_once. rewrite Hx.
  destruct (ring_sizes _ _ _ _ Hr) as (_ & Hds & _).
  unfold core_data_size, core_pos in Hds. rewrite Hds.
  rewrite (proj2 (Z.eqb_neq (W - R) 0)) by lia.
  pose proof Hr as [_ Hcap [[??]?] (Hrp & _ & _) Hl Hct].
  unfold MIN_CAPACITY in Hcap. unfold core_pos in Hrp.
  change (capacity_ (unpack (atm_stat_ c) (capacity c))) with (cap_ c) in Hrp.
  rewrite Hrp. change (CircCore.capacity c) with (cap_ c).
  pose proof (Z.mod_pos_bound R (cap_ c) ltac:(lia)).
  exists (Z.min (W - R) (cap_ c - R mod cap_ c)). split; [lia|].
  unfold slice_from, slice_to. simpl. rewrite decide_True by lia. simpl.
  rewrite decide_True by lia. simpl. set (tk := Z.min _ _).
  replace (Segm.fetch _ _ _) with (Some (take (Z.to_nat tk) items)); [done|].
  symmetry. apply fetch_Some. split; [rewrite length_take; lia|]. intros k Hk.
  rewrite lookup_take_lt by lia.
  replace (items !! k) with (items !! Z.to_nat (Z.of_nat k)) by (f_equal; lia).
  rewrite <- Hct by lia. f_equal.
  rewrite <- (Zplus_mod_idemp_l R), (Z.mod_small (R mod cap_ c + _)) by lia. lia.
Qed.

Lemma pipe_output_once_inv c :
  pipe_inv c → ∃ c' x, Pipeline.pipe_output_once c = Done (c', x) ∧ pipe_inv c'.
Proof.
  intros Hinv. pose proof Hinv as [Hs (R & W & items & Hr & Heq)].
  destruct (is_rx_closed c) eqn:Hx.
  { exists c, (Ready 0). split; [|done]. unfold Pipeline.pipe_output_once.
    unfold is_rx_closed in Hx. by rewrite Hx. }
  pose proof Hr as [_ _ [[??]?] _ Hl _].
  destruct (Z.eqb_spec (W - R) 0) as [Hz|Hz].
  { exists c, (Ready 0). split; [|done]. unfold Pipeline.pipe_output_once.
    unfold is_rx_closed in Hx. rewrite Hx.
    destruct (ring_sizes _ _ _ _ Hr) as (_ & Hds & _).
    unfold core_data_size, core_pos in Hds. by rewrite Hds, Hz. }
  destruct (pipe_output_once_eq c R W items Hr Hx ltac:(lia)) as (tk & Htk & ->).
  pose proof (out_write_law (device_ (consumer_ c)) (take (Z.to_nat tk) items)) as Hlaw.
  destruct (out_write _ _) as [dev [[moved err]|]]; cbn zeta.
  2:{ eexists _, _. split; [done|]. split; [done|]. exists R, W, items.
      split; [by apply ring_ends|]. unfold in_items, out_items in *. simpl. by rewrite Hlaw. }
  assert (Hmv : written dev = out_items c ++ take (Z.to_nat (default 0 moved)) items ∧
                0 ≤ default 0 moved ≤ tk).
  { unfold out_items. destruct moved as [n|]; simpl.
    - rewrite length_take in Hlaw. destruct Hlaw as [Hn ->].
      rewrite take_take. split; [|lia]. do 2 f_equal. lia.
    - destruct Hlaw as [_ ->]. rewrite app_nil_r. split; [done|lia]. }
  destruct Hmv as [Hw Hn]. set (m := default 0 moved) in *.
  destruct (Z.eqb_spec m 0) as [Hz0|Hz0].
  { eexists _, _. split; [done|]. split; [done|]. exists R, W, items.
    split; [by apply ring_ends|]. rewrite Hz0 in Hw. simpl in Hw.
    unfold in_items, out_items in *. simpl. by rewrite Hw, app_nil_r. }
  eexists _, _. split; [reflexivity|].
  eapply (commit_read_pipe _ R W items m); try done; simpl; [by apply ring_ends|lia|].
  unfold in_items, out_items in *. simpl. by rewrite Hw, <- app_assoc, take_drop.
Qed.

(** Parking changes the standby flag and the slot of one end. *)
Lemma pipe_inv_word c s p k w :
  pipe_inv c → is_usize s → unpack s (cap_ c) = core_pos c →
  device_ p = device_ (producer_ c) → device_ k = device_ (consumer_ c) →
  slot_ok (dev_wakeslot_ p) → slot_ok (dev_wakeslot_ k) →
  pipe_inv (mkCore (buffer_ c) (cap_ c) s p k w).
Proof.
  intros [_ (R & W & items & [] & Heq)] Hs Hu Hp Hk Hsp Hsk.
  split; [done|]. exists R, W, items. split.
  - constructor; try done. unfold core_pos in *. simpl. by rewrite Hu.
  - unfold in_items, out_items in *. simpl. by rewrite Hp, Hk.
Qed.

Lemma pipe_inv_usize c : pipe_inv c → is_usize (atm_stat_ c).
Proof. by intros [_ (R & W & items & [] & _)]. Qed.

Lemma register_ok s :
  slot_ok s → WakeSlot.register s Pipeline.waiter = Some (Some Pipeline.waiter).
Proof. by intros [->| ->]. Qed.

Lemma try_at_one c :
  pipe_inv c →
  (∃ r, try_write_at c (at_least 1) = Ret r) ∧ ∃ r, try_read_at c (at_least 1) = Ret r.
Proof.
  intros [_ (R & W & items & Hr & _)]. destruct (ring_sizes _ _ _ _ Hr) as (Hwf & _).
  assert (Hd : demand_wf (at_least 1)) by by vm_compute.
  unfold try_write_at, try_read_at.
  split.
  - destruct (try_write_at_word_cases (atm_stat_ c) (cap_ c) (at_least 1) Hwf Hd)
      as [[_ E]|[(_ & _ & E)|(_ & Hm & _)]]; [by eexists..|by vm_compute in Hm].
  - destruct (try_read_at_word_cases (atm_stat_ c) (cap_ c) (at_least 1) Hwf Hd)
      as [[_ E]|[(_ & _ & E)|[(_ & _ & _ & E)|(_ & _ & Hm & _)]]];
      [by eexists..|by vm_compute in Hm].
Qed.

Lemma set_standby_ok f s cap :
  is_state_flag f → is_usize s →
  is_usize (set_standby_rmw f s).2 ∧ unpack (set_standby_rmw f s).2 cap = unpack s cap.
Proof.
  intros Hf Hs. unfold set_standby_rmw, rmw. simpl.
  split; [eauto with cantare|by apply unpack_set_flag].
Qed.

Lemma clear_flag_ok f s cap :
  is_state_flag f → is_usize s →
  is_usize (clear_flag_rmw f s).2 ∧ unpack (clear_flag_rmw f s).2 cap = unpack s cap.
Proof.
  intros Hf Hs. unfold clear_flag_rmw, rmw.
  destruct (_ =? _); simpl; [|done].
  split; [eauto with cantare|by apply unpack_clear_flag].
Qed.

Lemma park_producer_inv arm c :
  pipe_inv c → ∃ c' b, Pipeline.park_producer arm c = Done (c', b) ∧ pipe_inv c'.
Proof.
  intros Hinv. pose proof (pipe_inv_usize _ Hinv) as Hu.
  assert (Hf : is_state_flag TX_STNDBY) by (unfold is_state_flag; auto).
  unfold Pipeline.park_producer. set (c1 := if arm then _ else c).
  assert (H1 : pipe_inv c1).
  { unfold c1. destruct arm; [|done].
    destruct (set_standby_ok TX_STNDBY (atm_stat_ c) (cap_ c) Hf Hu).
    destruct Hinv as [[??] ?]. by apply pipe_inv_word. }
  pose proof H1 as [[Hs Hk] _]. rewrite register_ok by done.
  set (c2 := Pipeline.set_tx_slot c1 _).
  assert (H2 : pipe_inv c2).
  { apply pipe_inv_word; try done; [by apply pipe_inv_usize|by right]. }
  destruct (try_at_one c2 H2) as [[r ->] _]. cbn [lift mbind exec_bind].
  destruct (_ || _); [|by exists c2, false].
  eexists _, _. split; [reflexivity|].
  destruct (clear_flag_ok TX_STNDBY (atm_stat_ c2) (cap_ c2) Hf (pipe_inv_usize _ H2)).
  unfold unset_tx_standby, clear_flag. simpl.
  destruct (clear_flag_rmw _ _) as [rr ss] eqn:E. simpl in *.
  apply (pipe_inv_word c2); try done.
  by left.
Qed.

Lemma park_consumer_inv arm c :
  pipe_inv c → ∃ c' b, Pipeline.park_consumer arm c = Done (c', b) ∧ pipe_inv c'.
Proof.
  intros Hinv. pose proof (pipe_inv_usize _ Hinv) as Hu.
  assert (Hf : is_state_flag RX_STNDBY) by (unfold is_state_flag; auto).
  unfold Pipeline.park_consumer. set (c1 := if arm then _ else c).
  assert (H1 : pipe_inv c1).
  { unfold c1. destruct arm; [|done].
    destruct (set_standby_ok RX_STNDBY (atm_stat_ c) (cap_ c) Hf Hu).
    destruct Hinv as [[??] ?]. by apply pipe_inv_word. }
  pose proof H1 as [[Hs Hk] _]. rewrite register_ok by done.
  set (c2 := Pipeline.set_rx_slot c1 _).
  assert (H2 : pipe_inv c2).
  { apply pipe_inv_word; try done; [by apply pipe_inv_usize|by right]. }
  destruct (try_at_one c2 H2) as [_ [r ->]]. cbn [lift mbind exec_bind].
  destruct (_ || _); [|by exists c2, false].
  eexists _, _. split; [reflexivity|].
  destruct (clear_flag_ok RX_STNDBY (atm_stat_ c2) (cap_ c2) Hf (pipe_inv_usize _ H2)).
  unfold unset_rx_standby, clear_flag. simpl.
  destruct (clear_flag_rmw _ _) as [rr ss] eqn:E. simpl in *.
  apply (pipe_inv_word c2); try done.
  by left.
Qed.

Lemma pipe_step_inv b p c :
  pipe_inv c → ∃ c' p', Pipeline.pipe_step b p c = Done (c', p') ∧ pipe_inv c'.
Proof.
  intros Hinv. destruct p; simpl.
  - destruct (_ || _); by eexists _, _.
  - destruct (pipe_input_once_inv c Hinv) as (c' & x & -> & ?). by eexists _, _.
  - destruct (pipe_output_once_inv c Hinv) as (c' & x & -> & ?). simpl.
    destruct x as [n|]; [|by eexists _, _].
    destruct (_ && _); [|by eexists _, _].
    destruct (_ && _); [by eexists _, _|].
    destruct (Pipeline.free_size c' =? 0).
    { destruct (park_producer_inv true c') as (c2 & r & -> & ?); [done|].
      simpl. by eexists _, _. }
    destruct (Pipeline.data_size c' =? 0); [|by eexists _, _].
    destruct (park_consumer_inv true c') as (c2 & r & -> & ?); [done|].
    simpl. by eexists _, _.
  - destruct (park_producer_inv false c Hinv) as (c2 & r & -> & ?).
    simpl. by eexists _, _.
  - destruct (park_consumer_inv false c Hinv) as (c2 & r & -> & ?).
    simpl. by eexists _, _.
  - by eexists _, _.
  - by eexists _, _.
Qed.

Lemma pipe_run_inv cancels : ∀ p c,
  pipe_inv c → ∃ c' p', Pipeline.pipe_run cancels p c = Done (c', p') ∧ pipe_inv c'.
Proof.
  induction cancels as [|b cancels IH]; intros p c Hinv; simpl; [by exists c, p|].
  destruct (pipe_step_inv b p c Hinv) as (c1 & p1 & -> & H1). simpl. by apply IH.
Qed.
End pipeline_lemmas.

Lemma build_cases {P C T} `{TrProducer P T} `{TrConsumer C T} (p : P) (k : C) cap :
  match build (T:=T) p k cap with
  | Ok c => MIN_CAPACITY ≤ cap ≤ MAX_CAPACITY ∧ c = core_new p k cap
  | Err (SizeTooBig n) => n = cap ∧ MAX_CAPACITY < cap
  | Err (SizeTooSmall n) => n = cap ∧ cap < MIN_CAPACITY
  | Err _ => False
  end.
Proof.
  unfold build, try_capacity.
  destruct (Z.ltb_spec MAX_CAPACITY cap); simpl; [done|].
  destruct (Z.ltb_spec cap MIN_CAPACITY); simpl; [done|]. done.
Qed.

(** ** Properties *)

(** A pipeline neither loses, duplicates nor reorders items.  Whatever the
    two devices answer (as long as they keep their contract) and whenever the
    token cancels, every run of the pipeline built over a ring of a supported
    capacity goes on without a panic, and at each of its suspension points the
    items the input delivered are exactly the items the output took, in order,
    followed by at most [capacity] items held by the ring. *)
Theorem pipeline_fifo {I O T} `{HI : TrInput I T} `{HO : TrOutput O T}
    (fetched : I → list T) (written : O → list T)
    `{!LawfulInput fetched} `{!LawfulOutput written} (i : I) (o : O) cap c cancels :
  build (T:=T) (dev_new i) (dev_new o) cap = Ok c → fetched i = written o →
  ∃ c' p, Pipeline.pipe_run cancels Pipeline.Top c = Done (c', p) ∧
    ∃ items, fetched (device_ (producer_ c')) = written (device_ (consumer_ c')) ++ items ∧
      Z.of_nat (length items) = Pipeline.data_size c' ∧
      Z.of_nat (length items) ≤ Pipeline.capacity c'.
Proof.
  intros Hb Heq. pose proof (build_cases (T:=T) (dev_new i) (dev_new o) cap) as Hc.
  rewrite Hb in Hc. destruct Hc as [Hcap ->].
  assert (Hinv : pipe_inv fetched written (core_new (dev_new i) (dev_new o) cap)).
  { split; [by split; left|]. exists 0, 0, []. split; [by apply core_ring_new|].
    unfold in_items, out_items. simpl. by rewrite app_nil_r. }
  destruct (pipe_run_inv fetched written cancels Pipeline.Top _ Hinv)
    as (c' & p & Hrun & _ & R & W & items & Hr & Hio).
  exists c', p. split; [done|]. exists items. split; [exact Hio|].
  destruct (ring_sizes _ _ _ _ Hr) as (_ & Hds & _).
  unfold Pipeline.data_size, Pipeline.capacity, CircCore.capacity. rewrite Hds.
  destruct Hr as [_ _ [[??]?] _ Hl _]. lia.
Qed.

(** An output that takes one item at a time. *)
Definition slow_output : Type := list Z.
Definition slow_taken (o : slow_output) : list Z := o.
#[export] Instance slow_output_device : TrOutput slow_output Z := {|
  out_write o xs := (o ++ take 1 xs, Ready (Some (Z.of_nat (length (take 1 xs))), false))
|}.
#[export] Instance slow_output_lawful : LawfulOutput slow_taken.
Proof.
  split. intros o xs. cbn [out_write slow_output_device]. rewrite length_take.
  split; [lia|]. unfold slow_taken. f_equal. destruct xs; [done|].
  rewrite length_cons. by replace (Z.to_nat _) with 1%nat by lia.
Qed.

Definition pipe_start : CircCore (DevEnd list_input) (DevEnd slow_output) Z :=
  core_new (dev_new ([], [5; 6; 7])) (dev_new []) 2.
Definition quiet (n : nat) : list bool := repeat false n.

Lemma pipeline_fifo_witness :
  ∃ c' p, Pipeline.pipe_run (quiet 6) Pipeline.Top pipe_start = Done (c', p) ∧
    ∃ items, (device_ (producer_ c')).1 = slow_taken (device_ (consumer_ c')) ++ items.
Proof.
  destruct (pipeline_fifo (fst : list_input → list Z) slow_taken ([], [5; 6; 7]) ([] : slow_output) 2
              pipe_start (quiet 6) eq_refl eq_refl) as (c' & p & Hrun & items & Hio & _).
  exists c', p. split; [exact Hrun|]. exists items. exact Hio.
Defined.

(** The two directions of a pipeline are not independent, and a cancellation
    is only seen between rounds.  While the input device is pending, an open
    pipeline with free space stays suspended at the input: no step moves the
    items already in the ring to the output, however ready it is, and a token
    that is cancelled meanwhile does not end the run. *)
Theorem pipeline_blocked_on_input {I O T} `{HI : TrInput I T} `{HO : TrOutput O T}
    (c : CircCore (DevEnd I) (DevEnd O) T) R W items cancels :
  core_ring c R W items → is_tx_closed c = false → is_rx_closed c = false →
  0 < core_free_size c →
  (∀ n, in_read (device_ (producer_ c)) n = (device_ (producer_ c), Pending)) →
  Pipeline.pipe_run cancels Pipeline.AtInput c = Done (c, Pipeline.AtInput).
Proof.
  intros Hr Htx Hrx Hfree Hpend.
  assert (Hstep : Pipeline.pipe_input_once c = Done (c, Pending)).
  { unfold Pipeline.pipe_input_once. unfold is_tx_closed, is_rx_closed in *.
    rewrite Htx, Hrx. cbn [orb].
    change (IoPos.free_size _) with (core_free_size c).
    replace (core_free_size c =? 0) with false by lia.
    destruct (ring_sizes _ _ _ _ Hr) as (_ & _ & Hfs).
    pose proof Hr as [_ Hcap [[??]?] (_ & Hwp & _) _ _].
    unfold MIN_CAPACITY in Hcap. unfold core_pos in Hwp.
    change (capacity_ (unpack (atm_stat_ c) (capacity c))) with (cap_ c) in Hwp.
    rewrite Hwp. change (CircCore.capacity c) with (cap_ c).
    pose proof (Z.mod_pos_bound W (cap_ c) ltac:(lia)).
    unfold slice_from, slice_to. simpl. rewrite decide_True by lia. simpl.
    rewrite decide_True by lia. simpl. rewrite Hpend.
    unfold Pipeline.set_input, with_producer. rewrite app_nil_r.
    destruct c as [b cp st [pd ps] k w]. done. }
  induction cancels as [|b cancels IH]; simpl; [done|].
  rewrite Hstep. simpl. exact IH.
Qed.

Definition pipe_stalled : CircCore (DevEnd list_input) (DevEnd slow_output) Z :=
  match Pipeline.pipe_run (quiet 10) Pipeline.Top pipe_start with
  | Done (c, _) => c
  | _ => pipe_start
  end.

Lemma pipeline_blocked_on_input_witness :
  Pipeline.pipe_run (quiet 10) Pipeline.Top pipe_start =
    Done (pipe_stalled, Pipeline.AtInput) ∧
  Pipeline.data_size pipe_stalled = 1 ∧
  Pipeline.pipe_run [false; true; true] Pipeline.AtInput pipe_stalled =
    Done (pipe_stalled, Pipeline.AtInput).
Proof.
  split; [by vm_compute|]. split; [by vm_compute|].
  assert (Hr : core_ring pipe_stalled 2 3 [7]).
  { constructor; [by vm_compute..|].
    intros k Hk. assert (k = 0) as -> by lia. by vm_compute. }
  assert (Hf : 0 < core_free_size pipe_stalled) by by vm_compute.
  assert (Hp : ∀ n, in_read (device_ (producer_ pipe_stalled)) n =
                    (device_ (producer_ pipe_stalled), Pending)) by by vm_compute.
  assert (Ht : is_tx_closed pipe_stalled = false) by by vm_compute.
  assert (Hx : is_rx_closed pipe_stalled = false) by by vm_compute.
  exact (pipeline_blocked_on_input pipe_stalled 2 3 [7] [false; true; true] Hr Ht Hx Hf Hp).
Defined.

(** The builder accepts exactly the capacities the state word can hold, and
    what it builds is an empty, open ring of that capacity. *)
Theorem build_ring {P C T} `{HP : TrProducer P T} `{HC : TrConsumer C T}
    (p : P) (k : C) cap :
  match build (T:=T) p k cap with
  | Ok c =>
      MIN_CAPACITY ≤ cap ≤ MAX_CAPACITY ∧ core_ring c 0 0 [] ∧ capacity c = cap ∧
      core_free_size c = cap ∧ is_tx_closed c = false ∧ is_rx_closed c = false
  | Err (SizeTooBig n) => n = cap ∧ MAX_CAPACITY < cap
  | Err (SizeTooSmall n) => n = cap ∧ cap < MIN_CAPACITY
  | Err _ => False
  end.
Proof.
  pose proof (build_cases (T:=T) p k cap) as Hc.
  destruct (build p k cap) as [c|]; [|exact Hc].
  destruct Hc as [Hcap ->]. split; [done|].
  pose proof (core_ring_new (T:=T) p k cap Hcap) as Hr. split; [done|].
  destruct (ring_sizes _ _ _ _ Hr) as (_ & _ & ->). simpl.
  split; [done|]. split; [lia|done].
Qed.

(** [is_drained_closing] tells the end of the stream.  As long as the read
    side is open it is true exactly when a read, whatever it asks for, is
    answered [Closing]: the write side is closed and nothing is left. *)
Theorem drained_closing_iff {P T} `{HP : TrProducer P T}
    (c : CircCore P BufEnd T) R W items d :
  core_ring c R W items → Consumer.is_consumer_closed c = false →
  demand_wf d → 0 < max_len d →
  (Consumer.is_drained_closing c = true ↔ try_read_at c d = Ret (Err CClosing)).
Proof.
  intros Hr Hrx Hd Hm. unfold Consumer.is_consumer_closed, Consumer.is_drained_closing in *.
  rewrite Hrx. cbn [orb].
  destruct (ring_sizes _ _ _ _ Hr) as (_ & -> & _).
  rewrite <- (ring_length _ _ _ _ Hr).
  destruct (read_attempt c R W items d Hr Hd Hm) as (r & -> & Hs).
  rewrite Hrx, orb_false_r in Hs. rewrite andb_true_iff, Z.eqb_eq. split.
  - intros [Htx Hz]. destruct items; [|simpl in Hz; lia].
    destruct r as [[start take]|[]]; try done.
    + destruct Hs as (_ & _ & _ & ? & ? & _). simpl in *. lia.
    + destruct Hs. congruence.
  - intros [= ->]. destruct Hs as [-> ->]. done.
Qed.

Lemma drained_closing_iff_witness :
  let c : CircCore BufEnd BufEnd Z := set_flag_ (core_new buf_new buf_new 3) TX_CLOSED in
  Consumer.is_drained_closing c = true ↔ try_read_at c (AtLeast 2) = Ret (Err CClosing).
Proof.
  intros c.
  assert (Hcap : MIN_CAPACITY ≤ 3 ≤ MAX_CAPACITY) by by vm_compute.
  assert (Hf : is_state_flag TX_CLOSED) by by left.
  assert (Hd : demand_wf (AtLeast 2)) by by vm_compute.
  assert (Hm : 0 < max_len (AtLeast 2)) by by vm_compute.
  assert (Hrx : Consumer.is_consumer_closed c = false) by by vm_compute.
  exact (drained_closing_iff c 0 0 [] (AtLeast 2)
           (ring_flag _ 0 0 [] TX_CLOSED (core_ring_new buf_new buf_new 3 Hcap) Hf) Hrx Hd Hm).
Defined.

(** [is_stuffed_closing] of the producer is also true of a ring that is
    merely full: it answers whether the write side is closed or no slot is
    free. *)
Theorem stuffed_closing_spec {C T} `{HC : TrConsumer C T}
    (c : CircCore BufEnd C T) R W items :
  core_ring c R W items →
  Producer.is_stuffed_closing c =
    Ret (Producer.is_producer_closed c ||
         (Z.of_nat (length items) =? Producer.capacity c)).
Proof.
  intros Hr. destruct (ring_sizes _ _ _ _ Hr) as (Hwf & _ & Hfs).
  rewrite <- (ring_length _ _ _ _ Hr) in Hfs.
  unfold Producer.is_stuffed_closing, Producer.is_producer_closed, producer_ready.
  unfold Producer.capacity, CircCore.capacity, try_write_at.
  assert (Hd : demand_wf (at_least (Z.max 1 1))) by by vm_compute.
  unfold core_free_size, core_pos, capacity in *.
  destruct (try_write_at_word_cases (atm_stat_ c) (cap_ c) (at_least (Z.max 1 1)) Hwf Hd)
    as [[Hlt ->]|[(Hge & _ & ->)|(_ & Hm & _)]]; [| |by vm_compute in Hm];
    cbn [mbind outcome_bind is_ok orb]; rewrite Hfs in *;
    change (Z.max 1 (min_len (at_least (Z.max 1 1)))) with 1 in *.
  - replace (Z.of_nat (length items) =? cap_ c) with true.
    + by destruct (is_tx_closed c).
    + symmetry. apply Z.eqb_eq. pose proof (data_size_bounds _ Hwf).
      unfold IoPos.free_size in Hfs. simpl in *. lia.
  - replace (Z.of_nat (length items) =? cap_ c) with false by lia. done.
Qed.

Lemma stuffed_closing_spec_witness :
  Producer.is_stuffed_closing full_ring = Ret true.
Proof.
  assert (Hr : core_ring full_ring 1 4 [5; 6; 7]).
  { constructor; [by vm_compute..|].
    intros k Hk. assert (k = 0 ∨ k = 1 ∨ k = 2) as [->|[->| ->]] by lia; reflexivity. }
  rewrite (stuffed_closing_spec full_ring 1 4 [5; 6; 7] Hr). reflexivity.
Defined.
