(* ===== verification/Builder.v ===== *)
(** * The builder of the circular buffer

    Models [crates/buffex/src/circular_buff/builder.rs]: the chain of builder
    states that decides the mode of each end ([CircularBuffBuilder],
    [ProducerSetBuilder] / [ConsumerSetBuilder], [ReadyBuilder]), the build that
    initialises the two ends, and the product that [BuildOutcome] assembles from
    their modes.

    A buffer is the number of its slots, all uninitialised; an allocator is a value
    the chain only passes on.  A half (and the pipeline) is a reference to the one
    shared core, so the product is that core and the references handed out. *)

From S2P Require Import Prelude Demand Atomex IoPos Segm CircEnds CircCore CircLaws CircDev.
From S2P Require Import CircPump CircAsync CircHalf.

(** What the caller may get hold of: [Producer], [Consumer] and [Pipeline] over the
    shared core ([CoreRef]). *)
Inductive CoreRef : Type :=
| ProducerHalf
| ConsumerHalf
| PipelineRef.
#[export] Instance CoreRef_eq_dec : EqDecision CoreRef.
Proof. solve_decision. Defined.

(** [BuildOutcome]: [assemble], chosen by the types of the two ends. *)
Class BuildOutcome (P C : Type) : Type := assemble : list CoreRef.
#[export] Instance outcome_passive_passive : BuildOutcome BufEnd BufEnd :=
  [ProducerHalf; ConsumerHalf].
#[export] Instance outcome_active_passive {I} : BuildOutcome (DevEnd I) BufEnd :=
  [ConsumerHalf].
#[export] Instance outcome_passive_active {O} : BuildOutcome BufEnd (DevEnd O) :=
  [ProducerHalf].
#[export] Instance outcome_active_active {I O} : BuildOutcome (DevEnd I) (DevEnd O) :=
  [PipelineRef].

Section chain.
Context {A : Type} (default : A).

(** [BuildEssential]: everything is taken out of it once. *)
Record BuildEssential (P C : Type) : Type := mkEssential {
  e_producer_ : option P;
  e_consumer_ : option C;
  e_buffer_ : option Z;
  e_alloc_ : option A;
}.
Definition essential_new {P C} (producer : P) (consumer : C) (buffer : Z) (alloc : A) :
    BuildEssential P C :=
  mkEssential P C (Some producer) (Some consumer) (Some buffer) (Some alloc).

Record CircularBuffBuilder : Type := mkBuilder { b_buffer_ : Z; b_alloc_ : A }.
Record ProducerSetBuilder (P : Type) : Type := mkProducerSet {
  ps_producer : P;
  ps_buffer_ : Z;
  ps_alloc : A;
}.
Record ConsumerSetBuilder (C : Type) : Type := mkConsumerSet {
  cs_consumer : C;
  cs_buffer_ : Z;
  cs_alloc : A;
}.
Record ReadyBuilder (P C : Type) : Type := mkReady {
  essential_ : option (BuildEssential P C);
}.

(** The first link of the chain: the capacity is checked. *)
Definition try_with_buffer (buffer : Z) (alloc : A) :
    result (BuilderError Z) CircularBuffBuilder :=
  match try_capacity buffer with
  | Err e => Err e
  | Ok _ => Ok (mkBuilder buffer alloc)
  end.
Definition with_allocator (capacity : Z) (alloc : A) :
    result (BuilderError Z) CircularBuffBuilder :=
  cap ← try_capacity capacity;
  Ok (mkBuilder cap alloc).
Definition with_capacity (capacity : Z) : result (BuilderError Z) CircularBuffBuilder :=
  with_allocator capacity default.

Definition producer_passive (b : CircularBuffBuilder) : ProducerSetBuilder BufEnd :=
  mkProducerSet BufEnd buf_new (b_buffer_ b) (b_alloc_ b).
Definition pipe_from_input {I} (b : CircularBuffBuilder) (input : I) :
    ProducerSetBuilder (DevEnd I) :=
  mkProducerSet (DevEnd I) (dev_new input) (b_buffer_ b) (b_alloc_ b).
Definition consumer_passive (b : CircularBuffBuilder) : ConsumerSetBuilder BufEnd :=
  mkConsumerSet BufEnd buf_new (b_buffer_ b) (b_alloc_ b).
Definition pipe_into_output {O} (b : CircularBuffBuilder) (output : O) :
    ConsumerSetBuilder (DevEnd O) :=
  mkConsumerSet (DevEnd O) (dev_new output) (b_buffer_ b) (b_alloc_ b).

Definition ready {P C} (producer : P) (consumer : C) (buffer : Z) (alloc : A) :
    ReadyBuilder P C :=
  mkReady P C (Some (essential_new producer consumer buffer alloc)).
Definition pipe_between {I O} (b : CircularBuffBuilder) (input : I) (output : O) :
    ReadyBuilder (DevEnd I) (DevEnd O) :=
  ready (dev_new input) (dev_new output) (b_buffer_ b) (b_alloc_ b).

(** The end that is still to be decided. *)
Definition set_consumer_passive {P} (b : ProducerSetBuilder P) : ReadyBuilder P BufEnd :=
  ready (ps_producer P b) buf_new (ps_buffer_ P b) (ps_alloc P b).
Definition set_pipe_into_output {P O} (b : ProducerSetBuilder P) (output : O) :
    ReadyBuilder P (DevEnd O) :=
  ready (ps_producer P b) (dev_new output) (ps_buffer_ P b) (ps_alloc P b).
Definition set_producer_passive {C} (b : ConsumerSetBuilder C) : ReadyBuilder BufEnd C :=
  ready buf_new (cs_consumer C b) (cs_buffer_ C b) (cs_alloc C b).
Definition set_pipe_from_input {C I} (b : ConsumerSetBuilder C) (input : I) :
    ReadyBuilder (DevEnd I) C :=
  ready (dev_new input) (cs_consumer C b) (cs_buffer_ C b) (cs_alloc C b).

Section build.
Context {P C T : Type} `{TrProducer P T} `{TrConsumer C T} `{BuildOutcome P C}.

(** [essential_build_async_], from the core on: a core over a fresh buffer of [cap]
    slots, whose ends are initialised, the producer first; the error of either
    initialisation ends the build. *)
Definition essential_build_async_ (fuel : nat) (producer : P) (consumer : C) (cap : Z) :
    exec (result (BuilderError unit) (CircCore P C T)) :=
  '(core, init_producer) ← producer_init_async fuel (core_new producer consumer cap);
  match init_producer with
  | Err _ => Done (Err (ProducerInit unit))
  | Ok _ =>
      '(core, init_consumer) ← consumer_init_async fuel core;
      match init_consumer with
      | Err _ => Done (Err (ConsumerInit unit))
      | Ok _ => Done (Ok core)
      end
  end.

(** [essential_build_async_], run to its end: what is not there any more makes
    [expect] panic.  The initialisations do not wait for their device. *)
Definition build_essential (fuel : nat) (e : BuildEssential P C) :
    exec (BuildEssential P C * result (BuilderError unit) (CircCore P C T * list CoreRef)) :=
  match e_producer_ P C e, e_consumer_ P C e, e_buffer_ P C e, e_alloc_ P C e with
  | Some producer, Some consumer, Some buffer, Some _ =>
      x ← essential_build_async_ fuel producer consumer buffer;
      Done (mkEssential P C None None None None, core ← x; Ok (core, assemble))
  | _, _, _, _ => Aborted
  end.

(** [ReadyBuilder::build_async]. *)
Definition build_async (fuel : nat) (r : ReadyBuilder P C) :
    exec (ReadyBuilder P C * result (BuilderError unit) (CircCore P C T * list CoreRef)) :=
  match essential_ P C r with
  | None => Aborted
  | Some e => '(e, x) ← build_essential fuel e; Done (mkReady P C (Some e), x)
  end.
End build.

(** [CircularBuffBuilder::build_async]: two passive ends. *)
Definition default_build_async {T} (fuel : nat) (b : CircularBuffBuilder) :
    exec (result (BuilderError unit) (CircCore BufEnd BufEnd T * list CoreRef)) :=
  snd <$> build_async fuel (ready buf_new buf_new (b_buffer_ b) (b_alloc_ b)).
End chain.

(** ** Lemmas: the initialisation of the ends *)

Section init.
Context {P C T : Type} `{HP : TrProducer P T} `{HC : TrConsumer C T}.
Context (fetched : P → list T) (accepted : C → list T).
Context `{!LawfulProducer P T fetched} `{!LawfulConsumer C T accepted}.
Implicit Types (c : CircCore P C T) (items xs : list T).

Lemma is_flag_tx : is_state_flag TX_STNDBY.
Proof. unfold is_state_flag. auto. Qed.
Lemma is_flag_rx : is_state_flag RX_STNDBY.
Proof. unfold is_state_flag. auto. Qed.

(** What the initialisation of one end does to the flags: it raises [f]. *)
Definition raised c c' (f : Z) : Prop :=
  ∀ g, is_state_flag g →
    has_flag (atm_stat_ c') g = has_flag (atm_stat_ c) g || bool_decide (f = g).

(** A commit moves the position and keeps the flags; the slots and the ends may have
    changed before. *)
Lemma commit_write_flags c c1 R W items n f :
  core_ring c R W items → atm_stat_ c1 = atm_stat_ c → cap_ c1 = cap_ c →
  0 ≤ n ≤ cap_ c - (W - R) → is_state_flag f →
  has_flag (atm_stat_ (commit_write c1 n)) f = has_flag (atm_stat_ c) f.
Proof.
  intros Hring Hs Hk Hn Hf. destruct (ring_sizes _ _ _ _ Hring) as (_ & _ & Hfs).
  destruct Hring as [Hw Hcap Hc Hr _ _].
  destruct (represents_advance_wp (core_pos c) R W Hcap Hc Hr n) as [Hc' Hr'];
    [unfold core_free_size in Hfs; lia|].
  unfold commit_write. set (c2 := update_pos_ c1 _).
  destruct (fire_consumer_core c2 (if is_tx_closed c2 then ProducerClose (core_data_size c2)
     else CAvailable (core_data_size c2))) as (k & w & -> & _).
  simpl. unfold capacity. rewrite Hs, Hk. apply has_flag_advance_write; [done..|].
  exact (represents_wf (advance_wp (core_pos c) n) _ _ Hcap Hc' Hr').
Qed.

Lemma commit_read_flags c c1 R W items n f :
  core_ring c R W items → atm_stat_ c1 = atm_stat_ c → cap_ c1 = cap_ c →
  0 ≤ n ≤ W - R → is_state_flag f →
  has_flag (atm_stat_ (commit_read c1 n)) f = has_flag (atm_stat_ c) f.
Proof.
  intros Hring Hs Hk Hn Hf. destruct (ring_sizes _ _ _ _ Hring) as (_ & Hds & _).
  destruct Hring as [Hw Hcap Hc Hr _ _].
  destruct (represents_advance_rp (core_pos c) R W Hcap Hc Hr n) as [Hc' Hr'];
    [unfold core_data_size in Hds; lia|].
  unfold commit_read. set (c2 := update_pos_ c1 _).
  destruct (fire_producer_core c2 (if is_rx_closed c2 then ConsumerClose (core_free_size c2)
     else PAvailable (core_free_size c2))) as (k & w & -> & _).
  simpl. unfold capacity. rewrite Hs, Hk. apply has_flag_advance_read; [done..|].
  exact (represents_wf (advance_rp (core_pos c) n) _ _ Hcap Hc' Hr').
Qed.

(** An armed core is the same queue. *)
Lemma armed_ring c R W items f :
  core_ring c R W items → is_state_flag f →
  core_ring (with_state c (set_standby_rmw f (atm_stat_ c)).2) R W items.
Proof.
  intros [] Hf. destruct (set_standby_ok f (atm_stat_ c) (cap_ c) Hf) as [Hu Hp]; [done|].
  constructor; try done. unfold core_pos, capacity in *. simpl in *. by rewrite Hp.
Qed.

Lemma armed_moved c f :
  is_state_flag f → f ≠ TX_CLOSED → f ≠ RX_CLOSED →
  ends_moved fetched accepted c (with_state c (set_standby_rmw f (atm_stat_ c)).2) [] [].
Proof.
  intros Hf Ht Hr. split; simpl; rewrite ?app_nil_r; try done.
  split; unfold is_tx_closed, is_rx_closed; simpl;
    rewrite has_flag_set by (done || by unfold is_state_flag; auto);
    by rewrite bool_decide_eq_false_2, orb_false_r.
Qed.

Lemma armed_raised c f :
  is_state_flag f → raised c (with_state c (set_standby_rmw f (atm_stat_ c)).2) f.
Proof. intros Hf g Hg. by apply has_flag_set. Qed.

(** A commit by an active end does not pump: its peer is passive, or active too. *)
Lemma advance_write_active fuel c n :
  p_is_passive (producer_ (commit_write c n)) = false → (2 ≤ fuel)%nat →
  advance_write fuel c n = Done (commit_write c n).
Proof.
  intros Hp Hf. destruct fuel as [|[|fuel]]; [lia..|]. simpl. rewrite Hp. simpl.
  by destruct (c_is_passive _).
Qed.

Lemma advance_read_active fuel c n :
  c_is_passive (consumer_ (commit_read c n)) = false → (2 ≤ fuel)%nat →
  advance_read fuel c n = Done (commit_read c n).
Proof.
  intros Hp Hf. destruct fuel as [|[|fuel]]; [lia..|]. simpl. rewrite Hp. simpl.
  by destruct (p_is_passive _).
Qed.

(** What the device delivered at its one poll is committed, and the end is armed. *)
Lemma producer_init_run fuel c R W items :
  core_ring c R W items → p_is_passive (producer_ c) = false → (2 ≤ fuel)%nat →
  ∃ c' xs, producer_init_async fuel c = Done (c', Ok tt) ∧
    core_ring c' R (W + Z.of_nat (length xs)) (items ++ xs) ∧
    ends_moved fetched accepted c c' xs [] ∧ raised c c' TX_STNDBY.
Proof.
  intros Hr Hp Hf. unfold producer_init_async. rewrite Hp.
  rewrite (try_write_init_ring c R W items Hr). unfold capacity.
  destruct (Z.eqb_spec (cap_ c - (W - R)) 0) as [E|E].
  { exists (set_tx_standby c), []. rewrite Z.add_0_r, app_nil_r. split; [done|].
    split; [by apply armed_ring, is_flag_tx|].
    split; [by apply armed_moved; [apply is_flag_tx|..]|apply armed_raised, is_flag_tx]. }
  destruct (react_commit_write fetched accepted c R W items Hr)
    as (p & r & xs & Hg & Hre & Ho & _ & _ & Hxs & Hr2 & Hm2).
  rewrite Hg. cbn [lift mbind exec_bind fmap exec_fmap]. rewrite Hre.
  cbn [mbind exec_bind]. rewrite Ho. set (c1 := with_buffer _ _) in *.
  rewrite advance_write_active by (rewrite ?(moved_p_passive _ _ _ _ _ _ Hm2); done).
  set (c2 := commit_write c1 _) in *. cbn [mbind exec_bind].
  exists (set_tx_standby c2), xs. split; [done|].
  split; [by apply armed_ring, is_flag_tx|]. split.
  { eapply ends_moved_then; [exact Hm2|]. by apply armed_moved; [apply is_flag_tx|..]. }
  intros g Hgf. etransitivity; [exact (armed_raised c2 TX_STNDBY is_flag_tx g Hgf)|].
  f_equal. apply (commit_write_flags c c1 R W items); try done. lia.
Qed.

(** What the device took at its one poll is gone from the ring, and the end is
    armed. *)
Lemma consumer_init_run fuel c R W items :
  core_ring c R W items → c_is_passive (consumer_ c) = false → (2 ≤ fuel)%nat →
  ∃ c' n, consumer_init_async fuel c = Done (c', Ok tt) ∧ 0 ≤ n ≤ W - R ∧
    core_ring c' (R + n) W (drop (Z.to_nat n) items) ∧
    ends_moved fetched accepted c c' [] (take (Z.to_nat n) items) ∧ raised c c' RX_STNDBY.
Proof.
  intros Hr Hp Hf. unfold consumer_init_async. rewrite Hp.
  rewrite (try_read_init_ring c R W items Hr). cbn [mbind exec_bind].
  pose proof (ring_length _ _ _ _ Hr) as Hl.
  destruct (Z.eqb_spec (W - R) 0) as [E|E].
  { exists (set_rx_standby c), 0. rewrite Z.add_0_r. split; [done|]. split; [lia|].
    split; [by apply armed_ring, is_flag_rx|].
    split; [by apply armed_moved; [apply is_flag_rx|..]|apply armed_raised, is_flag_rx]. }
  destruct (react_commit_read fetched accepted c R W items Hr)
    as (r & n & Hre & Ho & _ & _ & Hn & Hr2 & Hm2).
  rewrite Hre. cbn [mbind exec_bind]. rewrite Ho. set (c1 := with_buffer _ _) in *.
  rewrite advance_read_active by (rewrite ?(moved_c_passive _ _ _ _ _ _ Hm2); done).
  set (c2 := commit_read c1 _) in *. cbn [mbind exec_bind].
  exists (set_rx_standby c2), n. split; [done|]. split; [done|].
  split; [by apply armed_ring, is_flag_rx|]. split.
  { eapply ends_moved_then; [exact Hm2|]. by apply armed_moved; [apply is_flag_rx|..]. }
  intros g Hgf. etransitivity; [exact (armed_raised c2 RX_STNDBY is_flag_rx g Hgf)|].
  f_equal. by apply (commit_read_flags c c1 R W items).
Qed.

(** Both ends: the producer first. *)
Lemma essential_build_run fuel (p : P) (k : C) cap :
  MIN_CAPACITY ≤ cap ≤ MAX_CAPACITY → (2 ≤ fuel)%nat →
  ∃ c xs ys, essential_build_async_ fuel p k cap = Done (Ok c) ∧
    core_ring c (Z.of_nat (length xs)) (Z.of_nat (length (xs ++ ys))) ys ∧
    ends_moved fetched accepted (core_new p k cap) c (xs ++ ys) xs ∧
    has_flag (atm_stat_ c) TX_STNDBY = negb (p_is_passive p) ∧
    has_flag (atm_stat_ c) RX_STNDBY = negb (c_is_passive k).
Proof.
  intros Hcap Hf. pose proof (core_ring_new (T:=T) p k cap Hcap) as Hr0.
  unfold essential_build_async_.
  assert (Hp : ∃ c1 ys, producer_init_async fuel (core_new p k cap) = Done (c1, Ok tt) ∧
    core_ring c1 0 (Z.of_nat (length ys)) ys ∧
    ends_moved fetched accepted (core_new p k cap) c1 ys [] ∧
    has_flag (atm_stat_ c1) TX_STNDBY = negb (p_is_passive p) ∧
    has_flag (atm_stat_ c1) RX_STNDBY = false).
  { destruct (p_is_passive p) eqn:E.
    - exists (core_new p k cap), []. unfold producer_init_async. simpl. rewrite E.
      split; [done|]. split; [done|]. by split; [apply ends_moved_refl|].
    - destruct (producer_init_run fuel _ 0 0 [] Hr0 E Hf) as (c1 & ys & Hi & Hr & Hm & Hfl).
      exists c1, ys. split; [done|]. split; [done|]. split; [done|].
      by rewrite !Hfl by (apply is_flag_tx || apply is_flag_rx). }
  destruct Hp as (c1 & ys & -> & Hr1 & Hm1 & Ht1 & Hx1). cbn [mbind exec_bind].
  pose proof (moved_c_passive _ _ _ _ _ _ Hm1) as Hk. simpl in Hk.
  destruct (c_is_passive k) eqn:E.
  { exists c1, [], ys. unfold consumer_init_async. rewrite Hk. done. }
  destruct (consumer_init_run fuel c1 0 _ ys Hr1 Hk Hf) as (c & n & -> & Hn & Hr & Hm & Hfl).
  exists c, (take (Z.to_nat n) ys), (drop (Z.to_nat n) ys). split; [done|].
  rewrite take_drop, length_take, Nat.min_l, Z2Nat.id by lia. split; [done|].
  split; [by eapply ends_moved_trans in Hm; [|exact Hm1]; rewrite app_nil_r in Hm|].
  rewrite !Hfl, Ht1, Hx1 by (apply is_flag_tx || apply is_flag_rx). by rewrite orb_false_r.
Qed.
End init.

(** ** Lemmas: a pipeline that was built *)

Section pipeline.
Context {I O T : Type} `{HI : TrInput I T} `{HO : TrOutput O T}.
Implicit Types c : CircCore (DevEnd I) (DevEnd O) T.

Lemma commit_write_slots c n : slots_ok c → slots_ok (commit_write c n).
Proof. intros Hs. by apply fire_consumer_slots. Qed.
Lemma commit_read_slots c n : slots_ok c → slots_ok (commit_read c n).
Proof. intros Hs. by apply fire_producer_slots. Qed.

(** No device is asked to wake anybody while the ends are initialised. *)
Lemma producer_init_slots fuel c c' :
  slots_ok c → producer_init_async fuel c = Done (c', Ok tt) → slots_ok c'.
Proof.
  intros Hs. unfold producer_init_async. simpl p_is_passive. cbv iota.
  destruct (try_write_init c) as [[segm|]| |]; [|by intros [= <-]|done..].
  cbn [mbind exec_bind]. simpl p_react. unfold dev_producer_react.
  destruct (input_react_loop _ _ _ _ _ _) as [[[[dev mem] s] x]| |]; [|done..].
  cbn [mbind exec_bind]. destruct fuel as [|[|fuel]]; [done..|]. intros [= <-].
  match goal with |- slots_ok (set_tx_standby ?x) => change (slots_ok x) end.
  by apply commit_write_slots.
Qed.

Lemma consumer_init_slots fuel c c' :
  slots_ok c → consumer_init_async fuel c = Done (c', Ok tt) → slots_ok c'.
Proof.
  intros Hs. unfold consumer_init_async. simpl c_is_passive. cbv iota.
  destruct (try_read_init c) as [[segm|]| |]; [|by intros [= <-]|done..].
  cbn [mbind exec_bind]. simpl c_react. unfold dev_consumer_react.
  destruct (output_react_loop _ _ _ _ _ _) as [[[dev s] x]| |]; [|done..].
  cbn [mbind exec_bind]. destruct fuel as [|[|fuel]]; [done..|]. intros [= <-].
  match goal with |- slots_ok (set_rx_standby ?x) => change (slots_ok x) end.
  by apply commit_read_slots.
Qed.

Lemma essential_build_slots fuel (i : I) (o : O) cap c :
  essential_build_async_ fuel (dev_new i) (dev_new o) cap = Done (Ok c) → slots_ok c.
Proof.
  unfold essential_build_async_. intros Hb.
  destruct (producer_init_async _ _) as [[c1 [[]|]]| |] eqn:E; try done.
  cbn [mbind exec_bind] in Hb. destruct (consumer_init_async _ _) as [[c2 [[]|]]| |] eqn:E2; try done.
  injection Hb as ->. apply (consumer_init_slots fuel c1); [|done].
  apply (producer_init_slots fuel _ _) in E; [done|]. by split; left.
Qed.

(** What any of the three chains builds from two devices. *)
Lemma pipeline_built {A} (fetched : I → list T) (written : O → list T)
    `{!LawfulInput fetched} `{!LawfulOutput written} fuel i o cap (alloc : A) b r :
  with_allocator cap alloc = Ok b → fetched i = written o → (2 ≤ fuel)%nat →
  r ∈ [pipe_between b i o; set_pipe_into_output (pipe_from_input b i) o;
       set_pipe_from_input (pipe_into_output b o) i] →
  ∃ spent c, build_async (T:=T) fuel r = Done (spent, Ok (c, [PipelineRef])) ∧
    pipe_inv fetched written c ∧ is_tx_closed c = false ∧ is_rx_closed c = false ∧
    written o `prefix_of` written (device_ (consumer_ c)) ∧
    ∀ J, consumer_keeps (T:=T) J → J (dev_new o) → J (consumer_ c).
Proof.
  intros Hb Heq Hf Hr. pose proof (build_cases (T:=T) (dev_new i) (dev_new o) cap) as Hc.
  unfold with_allocator in Hb. unfold build in Hc.
  destruct (try_capacity cap) as [n|]; [|done]. simplify_eq/=. destruct Hc as [Hcap Hn].
  injection Hn as ->.
  assert (r = ready (dev_new i) (dev_new o) cap alloc) as -> by set_solver.
  destruct (essential_build_run (λ p : DevEnd I, fetched (device_ p))
              (λ k : DevEnd O, written (device_ k)) fuel (dev_new i) (dev_new o) cap Hcap Hf)
    as (c & xs & ys & Hrun & Hr0 & [_ [Ht Hx] Hfe Hac _ _ Hk] & _).
  pose proof (essential_build_slots fuel i o cap c Hrun) as Hs.
  eexists _, c. unfold build_async, build_essential. simpl. rewrite Hrun. split; [done|].
  split; [|split; [done|]; split; [done|]; split; [by exists xs|done]]. split; [done|].
  exists (Z.of_nat (length xs)), (Z.of_nat (length (xs ++ ys))), ys. split; [done|].
  unfold in_items, out_items. rewrite Hfe, Hac. simpl. by rewrite Heq, app_assoc.
Qed.
End pipeline.

(** ** Properties *)

(** A working ring over the ends [p] and [k]: open and of the capacity asked for; what the
    producer delivered while it was initialised ([xs ++ ys]) is in the ring except for
    what the consumer took ([xs]), in order; and exactly the active ends are armed. *)
Definition working {P C T} `{TrProducer P T} `{TrConsumer C T}
    (fetched : P → list T) (accepted : C → list T) (p : P) (k : C) cap
    (c : CircCore P C T) : Prop :=
  ∃ xs ys,
    core_ring c (Z.of_nat (length xs)) (Z.of_nat (length (xs ++ ys))) ys ∧
    cap_ c = cap ∧ is_tx_closed c = false ∧ is_rx_closed c = false ∧
    fetched (producer_ c) = fetched p ++ xs ++ ys ∧
    accepted (consumer_ c) = accepted k ++ xs ∧
    has_flag (atm_stat_ c) TX_STNDBY = negb (p_is_passive p) ∧
    has_flag (atm_stat_ c) RX_STNDBY = negb (c_is_passive k).

(** The build of [r] gives such a ring and the references [refs], and spends the builder:
    building from it again panics. *)
Definition builds {P C T A} `{TrProducer P T} `{TrConsumer C T} `{BuildOutcome P C}
    (fetched : P → list T) (accepted : C → list T) fuel (p : P) (k : C) cap
    (refs : list CoreRef) (r : ReadyBuilder (A := A) P C) : Prop :=
  ∃ spent c, build_async fuel r = Done (spent, Ok (c, refs)) ∧
    working fetched accepted p k cap c ∧ build_async (T := T) fuel spent = Aborted.

Lemma ready_builds {P C T A} `{HP : TrProducer P T} `{HC : TrConsumer C T}
    `{HB : BuildOutcome P C} (fetched : P → list T) (accepted : C → list T)
    `{!LawfulProducer P T fetched} `{!LawfulConsumer C T accepted}
    fuel (p : P) (k : C) cap (alloc : A) b :
  with_allocator cap alloc = Ok b → (2 ≤ fuel)%nat →
  b = mkBuilder cap alloc ∧
  builds fetched accepted fuel p k cap assemble (ready p k cap alloc).
Proof.
  intros Hb Hf. pose proof (build_cases (T:=T) p k cap) as Hc.
  unfold with_allocator in Hb. unfold build in Hc.
  destruct (try_capacity cap) as [n|]; [|done]. simplify_eq/=. destruct Hc as [Hcap Hn].
  injection Hn as ->. split; [done|].
  destruct (essential_build_run fetched accepted fuel p k cap Hcap Hf)
    as (c & xs & ys & Hrun & Hr & [Hk [Htx Hrx] Hfe Hac _ _ _] & Ht & Hx).
  exists (mkReady P C (Some (mkEssential P C None None None None))), c.
  unfold build_async, build_essential. simpl. rewrite Hrun. split; [done|].
  split; [|done]. by exists xs, ys.
Qed.


(** C7: a pipeline built by the public chain neither loses, duplicates nor reorders
    items, whichever of the three equivalent chains decides the two ends: from a
    supported capacity the build returns the pipeline alone, and however it is run
    and cancelled afterwards, at each of its suspension points the items the input
    delivered since the construction are the items the output took, in order,
    followed by the at most [capacity] items in the ring. *)
Theorem built_pipeline_fifo {I O T A} `{HI : TrInput I T} `{HO : TrOutput O T}
    (fetched : I → list T) (written : O → list T)
    `{!LawfulInput fetched} `{!LawfulOutput written}
    fuel (i : I) (o : O) cap (alloc : A) b r :
  with_allocator cap alloc = Ok b → fetched i = written o → (2 ≤ fuel)%nat →
  r ∈ [pipe_between b i o; set_pipe_into_output (pipe_from_input b i) o;
       set_pipe_from_input (pipe_into_output b o) i] →
  ∃ spent c, build_async (T:=T) fuel r = Done (spent, Ok (c, [PipelineRef])) ∧
    ∀ cancels, ∃ c' p items,
      Pipeline.pipe_run cancels Pipeline.Top c = Done (c', p) ∧
      fetched (device_ (producer_ c')) = written (device_ (consumer_ c')) ++ items ∧
      Z.of_nat (length items) = Pipeline.data_size c' ∧
      Z.of_nat (length items) ≤ Pipeline.capacity c'.
Proof.
  intros Hb Heq Hf Hr.
  destruct (pipeline_built fetched written fuel i o cap alloc b r Hb Heq Hf Hr)
    as (spent & c & Hrun & Hinv & _).
  exists spent, c. split; [done|]. intros cancels.
  destruct (pipe_run_inv fetched written cancels Pipeline.Top _ Hinv)
    as (c' & p & Hp & _ & R & W & items & Hr' & Hio).
  exists c', p, items. split; [done|]. split; [exact Hio|].
  destruct (ring_sizes _ _ _ _ Hr') as (_ & Hds & _).
  unfold Pipeline.data_size, Pipeline.capacity, CircCore.capacity. rewrite Hds.
  destruct Hr' as [_ _ [[??]?] _ Hl _]. lia.
Qed.

(** ** Witnesses *)


Lemma built_pipeline_fifo_witness :
  ∃ sp c, build_async (T:=Z) 2 (pipe_between (mkBuilder 2 tt) (([], [5; 6; 7]) : list_input)
            ([] : slow_output)) = Done (sp, Ok (c, [PipelineRef])) ∧
    ∃ c' p items, Pipeline.pipe_run (quiet 6) Pipeline.Top c = Done (c', p) ∧
      fst (device_ (producer_ c')) = slow_taken (device_ (consumer_ c')) ++ items.
Proof.
  assert (Hb : with_allocator 2 tt = Ok (mkBuilder 2 tt)) by by vm_compute.
  destruct (built_pipeline_fifo (T:=Z) (fst : list_input → list Z) slow_taken 2
    ([], [5; 6; 7]) ([] : slow_output) 2 tt (mkBuilder 2 tt) _ Hb eq_refl (le_n 2)
    (list_elem_of_here _ _)) as (sp & c & Hrun & Hall).
  destruct (Hall (quiet 6)) as (c' & p & items & Hp & Hio & _).
  exists sp, c. split; [exact Hrun|]. exists c', p, items. exact (conj Hp Hio).
Defined.
