(* ===== verification/PipeLive.v ===== *)
(** * Progress of a pipeline

    What [CircHalf.v] and [Builder.v] leave open: that a pipeline built over a device
    that delivers and a device that takes does move items, for ever.  Every round of
    [pipeline_piping_async_] is then a round with progress, so it never parks and
    never falls idle. *)

From S2P Require Import Prelude Demand Atomex IoPos Segm CircEnds CircCore CircLaws CircDev.
From S2P Require Import CircPump CircAsync CircHalf Builder.

Section flow.
Context {I O T : Type} `{HI : TrInput I T} `{HO : TrOutput O T}.
Context (fetched : I → list T) (written : O → list T) (live : O → Prop).
Context `{!LawfulInput fetched} `{!LawfulOutput written}.
Context `{!FlowingInput I T} `{!WillingOutput O T live}.
Implicit Types c : CircCore (DevEnd I) (DevEnd O) T.
Abbreviation in_items := (in_items fetched).
Abbreviation out_items := (out_items written).
Abbreviation pipe_inv := (pipe_inv fetched written).

Definition pipe_open c : Prop := is_tx_closed c = false ∧ is_rx_closed c = false.
Definition out_live c : Prop := live (device_ (consumer_ c)).

(** An event does not touch the devices. *)
Lemma fire_consumer_devices c e :
  device_ (consumer_ (fire_consumer c e)) = device_ (consumer_ c) ∧
  producer_ (fire_consumer c e) = producer_ c.
Proof.
  unfold fire_consumer. destruct (negb _); [done|]. simpl. unfold dev_consumer_check.
  by destruct (match e with CAvailable _ => _ | _ => _ end).
Qed.

Lemma fire_producer_devices c e :
  device_ (producer_ (fire_producer c e)) = device_ (producer_ c) ∧
  consumer_ (fire_producer c e) = consumer_ c.
Proof.
  unfold fire_producer. destruct (negb _); [done|]. simpl. unfold dev_producer_check.
  by destruct (match e with PAvailable _ => _ | _ => _ end).
Qed.

(** The commits leave the pipeline open. *)
Lemma commit_write_open c c1 R W items n :
  core_ring c R W items → atm_stat_ c1 = atm_stat_ c → cap_ c1 = cap_ c →
  0 ≤ n ≤ cap_ c - (W - R) → pipe_open c → pipe_open (commit_write c1 n).
Proof.
  intros Hr Hs Hk Hn [Ht Hx]. unfold pipe_open, is_tx_closed, is_rx_closed in *.
  by rewrite !(commit_write_flags c c1 R W items) by (done || by unfold is_state_flag; auto).
Qed.

Lemma commit_read_open c c1 R W items n :
  core_ring c R W items → atm_stat_ c1 = atm_stat_ c → cap_ c1 = cap_ c →
  0 ≤ n ≤ W - R → pipe_open c → pipe_open (commit_read c1 n).
Proof.
  intros Hr Hs Hk Hn [Ht Hx]. unfold pipe_open, is_tx_closed, is_rx_closed in *.
  by rewrite !(commit_read_flags c c1 R W items) by (done || by unfold is_state_flag; auto).
Qed.

(** What the ring holds has been delivered and not been taken yet. *)
Lemma pipe_inv_behind c :
  pipe_inv c → (length (out_items c) ≤ length (in_items c))%nat.
Proof. intros [_ (R & W & items & _ & ->)]. rewrite length_app. lia. Qed.

(** After the input has had its turn there is something for the output. *)
Lemma input_once_flows c c' x :
  pipe_inv c → pipe_open c → Pipeline.pipe_input_once c = Done (c', x) →
  (∃ n, x = Ready n) ∧ pipe_open c' ∧
  device_ (consumer_ c') = device_ (consumer_ c) ∧
  (length (out_items c) < length (in_items c'))%nat.
Proof.
  intros Hinv Ho. pose proof (pipe_inv_behind c Hinv) as Hle. pose proof Ho as [Ht Hx].
  destruct Hinv as [Hs (R & W & items & Hr & Heq)].
  pose proof Hr as [_ Hcap [[??]?] _ Hl _]. unfold MIN_CAPACITY in Hcap.
  destruct (Z.eqb_spec (cap_ c - (W - R)) 0) as [Hz|Hz].
  { rewrite (pipe_input_once_full c R W items Hr Ht Hx) by lia.
    intros [= <- <-]. split; [by eexists|]. split; [done|]. split; [done|].
    rewrite Heq, length_app. lia. }
  destruct (pipe_input_once_eq c R W items Hr Ht Hx ltac:(lia)) as (tk & Htk & _ & ->).
  pose proof (in_read_law (device_ (producer_ c)) tk ltac:(lia)) as Hlaw.
  destruct (in_read_flows (device_ (producer_ c)) tk ltac:(lia)) as (i' & xs & err & E & Hne).
  rewrite E in *. destruct Hlaw as [Hf Hn]. simpl default. cbn zeta.
  assert (Hpos : 0 < Z.of_nat (length xs)) by (destruct xs; [done|simpl; lia]).
  rewrite (proj2 (Z.eqb_neq (Z.of_nat (length xs)) 0)) by lia.
  intros [= <- <-]. split; [by eexists|].
  split; [by apply (commit_write_open c _ R W items); [..|lia|]|].
  unfold commit_write, CircHalf.out_items, CircHalf.in_items in *.
  match goal with |- context [fire_consumer ?c ?e] =>
    destruct (fire_consumer_devices c e) as [Hd Hp] end.
  rewrite Hd, Hp. simpl. rewrite Hf, length_app. split; [done|lia].
Qed.

(** ... and the output takes some of it. *)
Lemma output_once_takes c c' x :
  pipe_inv c → pipe_open c → out_live c →
  (length (out_items c) < length (in_items c))%nat →
  Pipeline.pipe_output_once c = Done (c', x) →
  (∃ n, x = Ready n ∧ 0 < n) ∧ pipe_open c' ∧ out_live c' ∧
  (length (out_items c) < length (out_items c'))%nat.
Proof.
  intros [Hs (R & W & items & Hr & Heq)] Ho Hlive Hlt. pose proof Ho as [_ Hx].
  rewrite Heq, length_app in Hlt.
  pose proof Hr as [_ _ [[??]?] _ Hl _].
  destruct (pipe_output_once_eq c R W items Hr Hx ltac:(lia)) as (tk & Htk & ->).
  set (src := take (Z.to_nat tk) items).
  assert (Hne : src ≠ []).
  { intros E. apply (f_equal length) in E. unfold src in E. rewrite length_take in E.
    simpl in E. lia. }
  assert (Hsrc : Z.of_nat (length src) ≤ W - R) by (unfold src; rewrite length_take; lia).
  pose proof (out_write_law (device_ (consumer_ c)) src) as Hlaw.
  pose proof (out_write_keeps (device_ (consumer_ c)) src Hlive) as Hlive'.
  destruct (out_write_willing (device_ (consumer_ c)) src Hlive Hne) as (o' & n & err & E & Hn).
  rewrite E in *. destruct Hlaw as [Hle Hw]. simpl default. cbn zeta.
  rewrite (proj2 (Z.eqb_neq n 0)) by lia.
  intros [= <- <-]. split; [by eexists|].
  split; [by apply (commit_read_open c _ R W items); [..|lia|]|].
  unfold commit_read, out_live, CircHalf.out_items in *.
  match goal with |- context [fire_producer ?c ?e] =>
    destruct (fire_producer_devices c e) as [_ Hd] end.
  rewrite Hd. simpl. split; [done|]. rewrite Hw, length_app, length_take. lia.
Qed.

(** One round: from the top of the loop to the top of the loop. *)
Lemma round_flows c :
  pipe_inv c → pipe_open c → out_live c →
  ∃ c', Pipeline.pipe_run [false; false; false] Pipeline.Top c = Done (c', Pipeline.Top) ∧
    pipe_inv c' ∧ pipe_open c' ∧ out_live c' ∧
    (length (out_items c) < length (out_items c'))%nat.
Proof.
  intros Hinv Ho Hl. pose proof Ho as [Ht Hx].
  destruct (pipe_input_once_inv fetched written c Hinv) as (c1 & x & E1 & Hinv1).
  destruct (input_once_flows c c1 x Hinv Ho E1) as ([n ->] & Ho1 & Hd1 & Hlt).
  assert (Hl1 : out_live c1) by (unfold out_live; by rewrite Hd1).
  assert (Eo : out_items c1 = out_items c) by (unfold CircHalf.out_items; by rewrite Hd1).
  destruct (pipe_output_once_inv fetched written c1 Hinv1) as (c2 & y & E2 & Hinv2).
  destruct (output_once_takes c1 c2 y Hinv1 Ho1 Hl1) as ((m & -> & Hm) & Ho2 & Hl2 & Hgt);
    [by rewrite Eo|done|].
  exists c2. rewrite Eo in Hgt. split; [|done].
  assert (S0 : Pipeline.pipe_step false Pipeline.Top c = Done (c, Pipeline.AtInput))
    by (unfold Pipeline.pipe_step; by rewrite Ht).
  assert (S1 : Pipeline.pipe_step false Pipeline.AtInput c = Done (c1, Pipeline.AtOutput n))
    by (unfold Pipeline.pipe_step; by rewrite E1).
  assert (S2 : Pipeline.pipe_step false (Pipeline.AtOutput n) c1 = Done (c2, Pipeline.Top)).
  { unfold Pipeline.pipe_step. rewrite E2. cbn [mbind exec_bind].
    rewrite (proj2 (Z.eqb_neq m 0)) by lia. by rewrite andb_false_r. }
  cbn [Pipeline.pipe_run]. rewrite S0. cbn [mbind exec_bind]. rewrite S1.
  cbn [mbind exec_bind]. by rewrite S2.
Qed.

Lemma pipe_run_app xs ys : ∀ p c,
  Pipeline.pipe_run (xs ++ ys) p c =
    ('(c, p) ← Pipeline.pipe_run xs p c; Pipeline.pipe_run ys p c).
Proof.
  induction xs as [|b xs IH]; intros p c; simpl; [done|].
  destruct (Pipeline.pipe_step b p c) as [[c' p']| |]; simpl; [apply IH|done..].
Qed.

Lemma rounds_flow n : ∀ c,
  pipe_inv c → pipe_open c → out_live c →
  ∃ c', Pipeline.pipe_run (repeat false (3 * n)) Pipeline.Top c = Done (c', Pipeline.Top) ∧
    pipe_inv c' ∧ (length (out_items c) + n ≤ length (out_items c'))%nat.
Proof.
  induction n as [|n IH]; intros c Hinv Ho Hl.
  { exists c. split; [done|]. split; [done|lia]. }
  destruct (round_flows c Hinv Ho Hl) as (c1 & E1 & Hinv1 & Ho1 & Hl1 & Hlt).
  destruct (IH c1 Hinv1 Ho1 Hl1) as (c' & E & Hinv' & Hle).
  exists c'. replace (3 * S n)%nat with (3 + 3 * n)%nat by lia.
  rewrite repeat_app, pipe_run_app. change (repeat false 3) with [false; false; false].
  rewrite E1. split; [exact E|]. split; [done|lia].
Qed.
End flow.

(** ** Properties *)

(** C8: a pipeline pumps.  Built by any of the three chains over an input that delivers
    at least one item whenever it is read and an output that takes at least one whenever
    it is offered some, and not cancelled, it is back at the top of its loop after every
    third suspension point, has neither parked nor fallen idle, and [n] rounds have
    brought at least [n] items to the output, which are the first ones of the input, in
    order; no round can be stuck, however small the ring and however little a device
    moves at a time. *)
Theorem built_pipeline_flows {I O T A} `{HI : TrInput I T} `{HO : TrOutput O T}
    (fetched : I → list T) (written : O → list T) (live : O → Prop)
    `{!LawfulInput fetched} `{!LawfulOutput written}
    `{!FlowingInput I T} `{!WillingOutput O T live}
    fuel (i : I) (o : O) cap (alloc : A) b r :
  with_allocator cap alloc = Ok b → fetched i = written o → live o → (2 ≤ fuel)%nat →
  r ∈ [pipe_between b i o; set_pipe_into_output (pipe_from_input b i) o;
       set_pipe_from_input (pipe_into_output b o) i] →
  ∃ spent c, build_async (T:=T) fuel r = Done (spent, Ok (c, [PipelineRef])) ∧
    ∀ n, ∃ c',
      Pipeline.pipe_run (repeat false (3 * n)) Pipeline.Top c = Done (c', Pipeline.Top) ∧
      written (device_ (consumer_ c')) `prefix_of` fetched (device_ (producer_ c')) ∧
      (length (written o) + n ≤ length (written (device_ (consumer_ c'))))%nat.
Proof.
  intros Hb Heq Hl Hf Hr.
  destruct (pipeline_built fetched written fuel i o cap alloc b r Hb Heq Hf Hr)
    as (spent & c & Hrun & Hinv & Ht & Hx & Hpre & Hk).
  exists spent, c. split; [done|]. intros n.
  pose proof (Hk (λ k, live (device_ k)) willing_keeps Hl) as Hlc.
  destruct (rounds_flow fetched written live n c Hinv (conj Ht Hx) Hlc)
    as (c' & Hp & [_ (R & W & items & _ & Hio)] & Hle).
  exists c'. split; [done|]. split; [by exists items|].
  apply prefix_length in Hpre. unfold out_items in Hle. lia.
Qed.

(** ** Witnesses *)

Lemma built_pipeline_flows_witness :
  ∃ sp c c', build_async (T:=Z) 2 (pipe_between (mkBuilder 2 tt) ([] : drip_input)
            ([] : CircAsync.slow_output)) =
      Done (sp, Ok (c, [PipelineRef])) ∧
    Pipeline.pipe_run (repeat false 12) Pipeline.Top c = Done (c', Pipeline.Top) ∧
    (4 ≤ length (delivered (device_ (consumer_ c'))))%nat.
Proof.
  assert (Hb : with_allocator 2 tt = Ok (mkBuilder 2 tt)) by by vm_compute.
  destruct (built_pipeline_flows (T:=Z) dripped delivered slow_live 2
    ([] : drip_input) ([] : CircAsync.slow_output) 2 tt (mkBuilder 2 tt) _ Hb eq_refl I (le_n 2)
    (list_elem_of_here _ _)) as (sp & c & Hrun & Hall).
  destruct (Hall 4%nat) as (c' & Hp & _ & Hle).
  exists sp, c, c'. split; [exact Hrun|]. exact (conj Hp Hle).
Defined.
