(* ===== verification/CircTests.v ===== *)
(** * The tests of the circular buffer

    The [#[test]] functions of [crates/buffex/src/circular_buff/tests_/] ([sync_.rs],
    [hook_.rs], [park_tests_.rs], [builder_.rs], [pump_.rs]) with the devices and the
    helpers they share ([tests_/mod.rs]), run on the model of the buffer.

    A test owns the core and the two references to it; the [Arc]s through which a
    test looks at a device after it was moved into the buffer are reads of the device
    in the core.  A future is polled by hand, as the tests do; the flag of a
    [TestWaker] is whether its waiter is among the woken ones. *)

From S2P Require Import Prelude Testing Demand IoPos Segm CircEnds CircCore CircDev CircAsync CircHalf Builder.

(** The rounds given to every loop: no test needs as many. *)
Definition rounds : nat := 64.

(** ** The devices *)

(** [TestInput]: always ready, with nothing once it is exhausted. *)
Record TestInput : Type := mkTestInput { in_data : list Z; in_pos : Z }.
Definition test_input_new (data : list Z) : TestInput := mkTestInput data 0.
Definition test_input_read (d : TestInput) (target : Z) :
    TestInput * Poll (option (list Z) * bool) :=
  let n := Z.min target (Z.of_nat (length (in_data d)) - in_pos d) in
  (mkTestInput (in_data d) (in_pos d + n),
   Ready (Some (take (Z.to_nat n) (drop (Z.to_nat (in_pos d)) (in_data d))), false)).
#[export] Instance test_input : TrInput TestInput Z := {| in_read := test_input_read |}.

(** [TestOutput]: takes all it is given. *)
Record TestOutput : Type := mkTestOutput { out_data : list Z }.
Definition test_output_new : TestOutput := mkTestOutput [].
Definition test_output_write (d : TestOutput) (source : list Z) :
    TestOutput * Poll (option Z * bool) :=
  (mkTestOutput (out_data d ++ source), Ready (Some (Z.of_nat (length source)), false)).
#[export] Instance test_output : TrOutput TestOutput Z := {| out_write := test_output_write |}.

(** [BlockingInput]: pending without data; [waits] is whether it holds a waker. *)
Record BlockingInput : Type := mkBlocking { bl_data : list Z; bl_pos : Z; waits : bool }.
Definition blocking_new : BlockingInput := mkBlocking [] 0 false.
Definition blocking_read (d : BlockingInput) (target : Z) :
    BlockingInput * Poll (option (list Z) * bool) :=
  let avail := Z.max 0 (Z.of_nat (length (bl_data d)) - bl_pos d) in
  if avail =? 0 then (mkBlocking (bl_data d) (bl_pos d) true, Pending)
  else
    let n := Z.min target avail in
    (mkBlocking (bl_data d) (bl_pos d + n) (waits d),
     Ready (Some (take (Z.to_nat n) (drop (Z.to_nat (bl_pos d)) (bl_data d))), false)).
#[export] Instance blocking_input : TrInput BlockingInput Z := {| in_read := blocking_read |}.

(** [GatedInput]: nothing until the gate opens; its calls are counted. *)
Record GatedInput : Type := mkGated {
  g_data : list Z;
  g_pos : Z;
  gate : bool;
  calls : Z;
}.
Definition gated_read (d : GatedInput) (target : Z) :
    GatedInput * Poll (option (list Z) * bool) :=
  let len := Z.of_nat (length (g_data d)) in
  if negb (gate d) || (len <=? g_pos d) then
    (mkGated (g_data d) (g_pos d) (gate d) (calls d + 1), Ready (Some [], false))
  else
    let n := Z.min target (len - g_pos d) in
    (mkGated (g_data d) (g_pos d + n) (gate d) (calls d + 1),
     Ready (Some (take (Z.to_nat n) (drop (Z.to_nat (g_pos d)) (g_data d))), false)).
#[export] Instance gated_input : TrInput GatedInput Z := {| in_read := gated_read |}.

(** [DualHeadDevice]: what is written to it can be read from it. *)
Record DualHeadDevice : Type := mkDual {
  seen_in : list Z;
  seen_out : list Z;
  out_buf : list Z;
  out_pos : Z;
  reader_waits : bool;
}.
Definition dual_new : DualHeadDevice := mkDual [] [] [] 0 false.
Definition dual_read (d : DualHeadDevice) (target : Z) :
    DualHeadDevice * Poll (option (list Z) * bool) :=
  let avail := Z.max 0 (Z.of_nat (length (out_buf d)) - out_pos d) in
  if avail =? 0 then
    (mkDual (seen_in d) (seen_out d) (out_buf d) (out_pos d) true, Pending)
  else
    let n := Z.min target avail in
    let xs := take (Z.to_nat n) (drop (Z.to_nat (out_pos d)) (out_buf d)) in
    (mkDual (seen_in d) (seen_out d ++ xs) (out_buf d) (out_pos d + n) (reader_waits d),
     Ready (Some xs, false)).
Definition dual_write (d : DualHeadDevice) (source : list Z) :
    DualHeadDevice * Poll (option Z * bool) :=
  (mkDual (seen_in d ++ source) (seen_out d) (out_buf d ++ source) (out_pos d) false,
   Ready (Some (Z.of_nat (length source)), false)).
#[export] Instance dual_input : TrInput DualHeadDevice Z := {| in_read := dual_read |}.
#[export] Instance dual_output : TrOutput DualHeadDevice Z := {| out_write := dual_write |}.

(** [(a..b).collect()]. *)
Definition range (a b : Z) : list Z := seqZ a (b - a).

(** ** Segments and halves *)

Section helpers.
Context {P C : Type} `{TrProducer P Z} `{TrConsumer C Z}.
Implicit Types c : CircCore P C Z.

(** [fill_segm] and [take_segm]; a read of a slot that was never written is a
    failure. *)
Definition fill_segm c (segm : Recl.t) (data : list Z) : exec (CircCore P C Z * Recl.t) :=
  let len := Z.of_nat (length data) in
  assert (len <=? Recl.least_count segm);;
  match Recl.move_items_from_buff rounds (buffer_ c) segm data with
  | None => OutOfFuel
  | Some o =>
      '(mem, segm, moved) ← lift o;
      assert_eq moved len;;
      Done (with_buffer c mem, segm)
  end.
Definition take_segm c (segm : Recl.t) (len : Z) : exec (list Z * Recl.t) :=
  assert (len <=? Recl.least_count segm);;
  match Recl.move_items_to_buff rounds (buffer_ c) segm len with
  | None => OutOfFuel
  | Some o =>
      x ← lift o;
      '(items, segm) ← unwrap x;
      assert_eq (Z.of_nat (length items)) len;;
      Done (items, segm)
  end.

(** The drop of a lent segment commits what was moved. *)
Definition drop_write c (segm : Recl.t) : exec (CircCore P C Z) :=
  advance_write rounds c (Recl.offset_ segm).
Definition drop_read c (segm : Recl.t) : exec (CircCore P C Z) :=
  advance_read rounds c (Recl.offset_ segm).

(** Fill a segment with [data] and drop it; take [len] items and drop it. *)
Definition fill_drop c (segm : Recl.t) (data : list Z) : exec (CircCore P C Z) :=
  '(c, segm) ← fill_segm c segm data; drop_write c segm.
Definition take_drop c (segm : Recl.t) (len : Z) (expected : list Z) :
    exec (CircCore P C Z) :=
  '(items, segm) ← take_segm c segm len;
  assert_eq items expected;;
  drop_read c segm.
End helpers.

Section writing.
Context {C : Type} `{TrConsumer C Z}.
Implicit Types c : CircCore BufEnd C Z.

Definition try_write c (d : Demand) := Producer.try_write rounds c d.

(** [try_write(..).pick_left().unwrap()], then [fill_segm] and the drop. *)
Definition write c (d : Demand) (data : list Z) : exec (CircCore BufEnd C Z) :=
  '(c, r) ← try_write c d;
  segm ← unwrap_ok r;
  fill_drop c segm data.

(** The first poll of [write_async]. *)
Definition write_async c (d : Demand) := core_passive_write_async_ rounds rounds c d.
End writing.

Section reading.
Context {P : Type} `{TrProducer P Z}.
Implicit Types c : CircCore P BufEnd Z.

Definition try_read c (d : Demand) := Consumer.try_read rounds c d.
Definition read c (d : Demand) (expected : list Z) : exec (CircCore P BufEnd Z) :=
  '(c, r) ← try_read c d;
  segm ← unwrap_ok r;
  take_drop c segm (Z.of_nat (length expected)) expected.
Definition read_async c (d : Demand) := core_passive_read_async_ rounds rounds c d.

(** The loop that reads all there is, with a check after each round. *)
Fixpoint read_all (fuel : nat) c (total : list Z) (check : CircCore P BufEnd Z → bool) :
    exec (CircCore P BufEnd Z * list Z) :=
  match fuel with
  | O => OutOfFuel
  | S fuel =>
      '(c, r) ← try_read c (at_least 1);
      match r with
      | Err _ => Done (c, total)
      | Ok segm =>
          '(items, segm) ← take_segm c segm (Recl.least_count segm);
          c ← drop_read c segm;
          assert (check c);;
          read_all fuel c (total ++ items) check
      end
  end.
End reading.

Definition is_parked {A} (x : awaited A) : bool :=
  match x with Parked => true | _ => false end.
Definition answered {A} (x : awaited A) : exec A :=
  match x with Answered a => Done a | _ => Aborted end.
Definition is_drained (r : result ConsumerError Recl.t) : bool :=
  match r with Err (Drained _) => true | _ => false end.
Definition is_closing (r : result ConsumerError Recl.t) : bool :=
  match r with Err CClosing => true | _ => false end.
Definition is_stuffed (r : result ProducerError Recl.t) : bool :=
  match r with Err (Stuffed _) => true | _ => false end.

(** ** The pipeline, polled once *)

#[export] Instance phase_eq_dec : EqDecision Pipeline.phase.
Proof. solve_decision. Defined.

(** One poll of [pipe_async]: steps until one of them stays where it is. *)
Fixpoint pipe_poll {I O} `{TrInput I Z} `{TrOutput O Z} (fuel : nat) (p : Pipeline.phase)
    (c : CircCore (DevEnd I) (DevEnd O) Z) :
    exec (CircCore (DevEnd I) (DevEnd O) Z * Pipeline.phase) :=
  match fuel with
  | O => OutOfFuel
  | S fuel =>
      '(c, q) ← Pipeline.pipe_step false p c;
      if decide (p = q) then Done (c, q) else pipe_poll fuel q c
  end.
Definition is_pending (p : Pipeline.phase) : bool := bool_decide (p ≠ Pipeline.Finished).

(** [DefaultBuilder::with_capacity(n).unwrap()] and
    [block_on(ready.build_async()).unwrap()]. *)
Definition DefaultBuilder (n : Z) : exec CircularBuffBuilder :=
  unwrap_ok (with_capacity () n).
Definition build {P C} `{TrProducer P Z} `{TrConsumer C Z} `{BuildOutcome P C}
    (refs : list CoreRef) (ready : ReadyBuilder (A:=unit) P C) : exec (CircCore P C Z) :=
  '(_, r) ← build_async rounds ready;
  '(c, out) ← unwrap_ok r;
  assert_eq out refs;;
  Done c.
Definition make_pair (n : Z) : exec (CircCore BufEnd BufEnd Z) :=
  b ← DefaultBuilder n;
  build [ProducerHalf; ConsumerHalf] (set_consumer_passive (producer_passive b)).

(** ** [sync_.rs] *)

Module SyncTests.

Definition write_read_roundtrip : exec unit :=
  c ← make_pair 8;
  c ← write c (at_least 3) [1; 2; 3];
  assert_eq (Consumer.data_size c) 3;;
  '(c, r) ← try_read c (at_least 3);
  rs ← unwrap_ok r;
  c ← take_drop c rs (Recl.least_count rs) [1; 2; 3];
  assert_eq (Consumer.data_size c) 0.

Definition try_read_honours_at_least : exec unit :=
  c ← make_pair 8;
  c ← write c (at_least 2) [1; 2];
  '(c, r) ← try_read c (at_least 4);
  assert (is_drained r).

Definition try_write_honours_at_least : exec unit :=
  c ← make_pair 8;
  '(c, r) ← try_write c (at_least 1);
  ws ← unwrap_ok r;
  assert (5 <=? Recl.least_count ws);;
  c ← fill_drop c ws (replicate 5 0);
  assert_eq (Producer.free_size c) 3;;
  '(c, r) ← try_write c (at_least 4);
  assert (is_stuffed r).

Definition wrap_around_two_pieces : exec unit :=
  c ← make_pair 5;
  c ← write c (at_least 3) [1; 2; 3];
  c ← read c (at_least 2) [1; 2];
  '(c, r) ← try_write c (at_least 4);
  ws ← unwrap_ok r;
  slices ← lift (Recl.iter_slices ws);
  assert_eq (map s_len slices) [2; 2];;
  c ← fill_drop c ws [10; 11; 12];
  '(c, r) ← try_read c (at_least 4);
  rs ← unwrap_ok r;
  take_drop c rs (Recl.least_count rs) [3; 10; 11; 12];;
  Done ().

Definition read_async_wakes_on_write : exec unit :=
  c ← make_pair 8;
  let demand := at_least 3 in
  '(c, x) ← read_async c demand;
  assert (is_parked x);;
  c ← write c (at_least 3) [7; 8; 9];
  '(c, x) ← read_resume rounds rounds c demand;
  r ← answered x;
  rs ← unwrap_ok r;
  assert_eq (Recl.least_count rs) 3;;
  take_drop c rs 3 [7; 8; 9];;
  Done ().

Definition write_async_wakes_on_read : exec unit :=
  c ← make_pair 4;
  c ← write c (at_least 4) [1; 2; 3; 4];
  assert_eq (Producer.free_size c) 0;;
  let demand := at_least 1 in
  '(c, x) ← write_async c demand;
  assert (is_parked x);;
  one ← lift (exactly 1);
  c ← read c one [1];
  '(c, x) ← write_resume rounds rounds c demand;
  r ← answered x;
  ws ← unwrap_ok r;
  assert_eq (Recl.least_count ws) 1;;
  c ← fill_drop c ws [4];
  assert_eq (Consumer.data_size c) 4.

Definition read_async_demand_gates_wakeup : exec unit :=
  c ← make_pair 8;
  let demand := at_least 5 in
  '(c, x) ← read_async c demand;
  assert (is_parked x);;
  c ← write c (at_least 2) [1; 2];
  assert_eq (woken c) [];;
  '(c, x) ← read_resume rounds rounds c demand;
  assert (is_parked x);;
  c ← write c (at_least 3) [3; 4; 5];
  assert_eq (woken c) [self];;
  '(c, x) ← read_resume rounds rounds c demand;
  r ← answered x;
  rs ← unwrap_ok r;
  assert_eq (Recl.least_count rs) 5;;
  take_drop c rs 5 [1; 2; 3; 4; 5];;
  Done ().

Definition suite : list (exec unit) :=
  [write_read_roundtrip; try_read_honours_at_least; try_write_honours_at_least;
   wrap_around_two_pieces; read_async_wakes_on_write; write_async_wakes_on_read;
   read_async_demand_gates_wakeup].

Theorem sync_tests_pass : Forall passes suite.
Proof. run_tests. Qed.

End SyncTests.

(** ** [hook_.rs] *)

Module HookTests.

Definition producer_close_gives_eof : exec unit :=
  c ← make_pair 8;
  c ← write c (at_least 2) [5; 6];
  c ← Producer.close rounds c;
  assert (Consumer.is_producer_closed c);;
  '(c, r) ← try_read c (at_least 5);
  rs ← unwrap_ok r;
  assert_eq (Recl.least_count rs) 2;;
  c ← take_drop c rs 2 [5; 6];
  '(c, r) ← try_read c (at_least 1);
  assert (is_closing r).

Definition consumer_close_fires_event : exec unit :=
  c ← make_pair 8;
  let c := Consumer.close c in
  assert (Producer.is_consumer_closed c);;
  '(c, r) ← try_write c (at_least 2);
  assert (is_ok r).

Definition read_async_returns_closing_on_eof : exec unit :=
  c ← make_pair 8;
  let demand := at_least 3 in
  '(c, x) ← read_async c demand;
  assert (is_parked x);;
  c ← Producer.close rounds c;
  '(c, x) ← read_resume rounds rounds c demand;
  r ← answered x;
  assert (is_err r).

Definition suite : list (exec unit) :=
  [producer_close_gives_eof; consumer_close_fires_event;
   read_async_returns_closing_on_eof].

Theorem hook_tests_pass : Forall passes suite.
Proof. run_tests. Qed.

End HookTests.

(** ** [park_tests_.rs] *)

Module ParkTests.

(** The drop of a parked future runs its guard. *)
Definition read_async_parks_on_empty_and_reparks_after_drop : exec unit :=
  c ← make_pair 8;
  let demand := at_least 1 in
  '(c, x) ← read_async c demand;
  assert (is_parked x);;
  '(c, x) ← read_resume rounds rounds c demand;
  assert (is_parked x);;
  let c := read_guard_drop c in
  '(c, x) ← read_async c demand;
  assert (is_parked x).

Definition write_async_parks_when_space_insufficient_and_reparks_after_drop : exec unit :=
  c ← make_pair 8;
  let demand := at_least 9 in
  '(c, x) ← write_async c demand;
  assert (is_parked x);;
  let c := write_guard_drop c in
  '(c, x) ← write_async c demand;
  assert (is_parked x).

Definition suite : list (exec unit) :=
  [read_async_parks_on_empty_and_reparks_after_drop;
   write_async_parks_when_space_insufficient_and_reparks_after_drop].

Theorem park_tests_pass : Forall passes suite.
Proof. run_tests. Qed.

End ParkTests.

(** ** [builder_.rs] *)

Module BuilderTests.

Definition build_without_pipe_defaults_to_passive_pair : exec unit :=
  b ← DefaultBuilder 8;
  r ← default_build_async rounds b;
  '(c, refs) ← unwrap_ok r;
  assert_eq refs [ProducerHalf; ConsumerHalf];;
  assert_eq (Producer.capacity c) 8;;
  c ← write c (at_least 3) [1; 2; 3];
  assert_eq (Consumer.data_size c) 3;;
  c ← read c (at_least 3) [1; 2; 3];
  assert_eq (Consumer.data_size c) 0.

Definition consumer_first_then_producer_passive : exec unit :=
  b ← DefaultBuilder 8;
  c ← build [ProducerHalf; ConsumerHalf] (set_producer_passive (consumer_passive b));
  c ← write c (at_least 2) [7; 8];
  read c (at_least 2) [7; 8];;
  Done ().

(** Both devices are handed over and the pipeline is polled once. *)
Definition pumps_twenty (ready : ReadyBuilder (A:=unit) (DevEnd TestInput) (DevEnd TestOutput)) :
    exec unit :=
  c ← build [PipelineRef] ready;
  '(c, _) ← pipe_poll rounds Pipeline.Top c;
  assert_eq (out_data (device_ (consumer_ c))) (range 0 20);;
  assert_eq (in_pos (device_ (producer_ c))) 20.

Definition pipe_into_output_then_pipe_from_input : exec unit :=
  b ← DefaultBuilder 8;
  pumps_twenty
    (set_pipe_from_input (pipe_into_output b test_output_new) (test_input_new (range 0 20))).

Definition pipe_between_builds_active_pipeline : exec unit :=
  b ← DefaultBuilder 8;
  pumps_twenty (pipe_between b (test_input_new (range 0 20)) test_output_new).

Definition pipe_into_output_then_passive_producer : exec unit :=
  b ← DefaultBuilder 8;
  c ← build [ProducerHalf] (set_producer_passive (pipe_into_output b test_output_new));
  c ← write c (at_least 3) [1; 2; 3];
  assert_eq (out_data (device_ (consumer_ c))) [1; 2; 3];;
  assert_eq (Producer.data_size c) 0.

Definition consumer_passive_then_pipe_from_input : exec unit :=
  b ← DefaultBuilder 8;
  c ← build [ConsumerHalf]
        (set_pipe_from_input (consumer_passive b) (test_input_new (range 0 10)));
  assert_eq (Consumer.data_size c) 8;;
  assert_eq (in_pos (device_ (producer_ c))) 8;;
  '(c, total) ← read_all rounds c [] (λ _, true);
  assert_eq total (range 0 10);;
  assert_eq (in_pos (device_ (producer_ c))) 10.

Definition build_default_still_validates_capacity : exec unit :=
  let too_small n :=
    match with_capacity () n with Err (SizeTooSmall m) => m =? n | _ => false end in
  assert (too_small 0);;
  assert (too_small 1);;
  let too_big := Z.shiftl 1 28 in
  assert (match with_capacity () too_big with
          | Err (SizeTooBig c) => c =? too_big
          | _ => false
          end).

Definition suite : list (exec unit) :=
  [build_without_pipe_defaults_to_passive_pair; consumer_first_then_producer_passive;
   pipe_into_output_then_pipe_from_input; pipe_between_builds_active_pipeline;
   pipe_into_output_then_passive_producer; consumer_passive_then_pipe_from_input;
   build_default_still_validates_capacity].

Theorem builder_tests_pass : Forall passes suite.
Proof. run_tests. Qed.

End BuilderTests.

(** ** [pump_.rs] *)

Module PumpTests.

Definition pipe_from_input_fills_and_refills : exec unit :=
  b ← DefaultBuilder 8;
  c ← build [ConsumerHalf]
        (set_consumer_passive (pipe_from_input b (test_input_new (range 0 20))));
  assert_eq (Consumer.data_size c) 8;;
  assert_eq (in_pos (device_ (producer_ c))) 8;;
  '(c, total) ← read_all rounds c []
    (λ c, if in_pos (device_ (producer_ c)) <? 20 then Consumer.data_size c =? 8 else true);
  assert_eq total (range 0 20);;
  assert_eq (Consumer.data_size c) 0;;
  assert_eq (in_pos (device_ (producer_ c))) 20;;
  assert_eq (length (in_data (device_ (producer_ c)))) 20%nat.

Definition pipe_into_output_drains_on_write : exec unit :=
  b ← DefaultBuilder 8;
  c ← build [ProducerHalf] (set_pipe_into_output (producer_passive b) test_output_new);
  c ← write c (at_least 3) [1; 2; 3];
  assert_eq (out_data (device_ (consumer_ c))) [1; 2; 3];;
  assert_eq (Producer.data_size c) 0;;
  c ← write c (at_least 2) [0 * 10 + 1; 0 * 10 + 2];
  c ← write c (at_least 2) [1 * 10 + 1; 1 * 10 + 2];
  c ← write c (at_least 2) [2 * 10 + 1; 2 * 10 + 2];
  assert_eq (out_data (device_ (consumer_ c))) [1; 2; 3; 1; 2; 11; 12; 21; 22].

Definition pipe_both_active_pipeline : exec unit :=
  b ← DefaultBuilder 8;
  BuilderTests.pumps_twenty
    (set_pipe_into_output (pipe_from_input b (test_input_new (range 0 20))) test_output_new).

(** [in_data.extend_from_slice(xs)], then the waker it holds is woken. *)
Definition extend (c : CircCore (DevEnd BlockingInput) (DevEnd TestOutput) Z) (xs : list Z) :=
  let d := device_ (producer_ c) in
  Pipeline.set_input c (mkBlocking (bl_data d ++ xs) (bl_pos d) false).

Definition pipeline_flows_driven_by_devices : exec unit :=
  b ← DefaultBuilder 8;
  c ← build [PipelineRef] (pipe_between b blocking_new test_output_new);
  '(c, p) ← pipe_poll rounds Pipeline.Top c;
  assert (is_pending p);;
  assert_eq (out_data (device_ (consumer_ c))) [];;
  '(c, p) ← pipe_poll rounds p (extend c [1; 2; 3]);
  assert (is_pending p);;
  assert_eq (out_data (device_ (consumer_ c))) [1; 2; 3];;
  '(c, p) ← pipe_poll rounds p (extend c [4; 5]);
  assert (is_pending p);;
  assert_eq (out_data (device_ (consumer_ c))) [1; 2; 3; 4; 5].

Definition pipe_from_input_stops_when_exhausted : exec unit :=
  b ← DefaultBuilder 8;
  c ← build [ConsumerHalf]
        (set_consumer_passive (pipe_from_input b (test_input_new [1; 2; 3])));
  '(c, total) ← read_all rounds c [] (λ _, true);
  assert_eq total [1; 2; 3];;
  assert_eq (Consumer.data_size c) 0;;
  assert_eq (in_pos (device_ (producer_ c))) 3.

(** [gate.store(true)], through the [Arc] the test kept. *)
Definition open_gate (c : CircCore (DevEnd GatedInput) BufEnd Z) :=
  let e := producer_ c in
  let d := device_ e in
  with_producer c (mkDevEnd (mkGated (g_data d) (g_pos d) true (calls d)) (dev_wakeslot_ e)) [].

Definition try_read_auto_drives_active_producer : exec unit :=
  let input := mkGated [7; 8; 9] 0 false 0 in
  b ← DefaultBuilder 8;
  c ← build [ConsumerHalf] (set_consumer_passive (pipe_from_input b input));
  assert_eq (Consumer.data_size c) 0;;
  assert_eq (calls (device_ (producer_ c))) 1;;
  '(c, r) ← try_read (open_gate c) (at_least 3);
  rs ← unwrap_ok r;
  assert_eq (Recl.least_count rs) 3;;
  c ← take_drop c rs 3 [7; 8; 9];
  assert (3 <=? calls (device_ (producer_ c)));;
  '(c, r) ← try_read c (at_least 1);
  assert (is_drained r).

Definition close_tx_drains_remaining_output : exec unit :=
  b ← DefaultBuilder 8;
  c ← build [ProducerHalf] (set_pipe_into_output (producer_passive b) test_output_new);
  c ← write c (at_least 5) [1; 2; 3; 4; 5];
  assert_eq (out_data (device_ (consumer_ c))) [1; 2; 3; 4; 5];;
  c ← write c (at_least 2) [6; 7];
  assert_eq (out_data (device_ (consumer_ c))) [1; 2; 3; 4; 5; 6; 7];;
  c ← Producer.close rounds c;
  assert_eq (out_data (device_ (consumer_ c))) [1; 2; 3; 4; 5; 6; 7].

Definition read_async_with_active_producer_has_data : exec unit :=
  b ← DefaultBuilder 8;
  c ← build [ConsumerHalf]
        (set_consumer_passive (pipe_from_input b (test_input_new (range 0 20))));
  '(c, x) ← read_async c (at_least 8);
  r ← answered x;
  rs ← unwrap_ok r;
  assert_eq (Recl.least_count rs) 8;;
  c ← take_drop c rs 8 (range 0 8);
  assert_eq (Consumer.data_size c) 8;;
  assert_eq (in_pos (device_ (producer_ c))) 16.

(** The two pipelines share one device: it is handed from the one that ran to the
    one that runs next. *)
Definition dual_head_device_observes_cross_pipe_flow : exec unit :=
  b ← DefaultBuilder 8;
  pipe1 ← build [PipelineRef]
            (set_pipe_into_output (pipe_from_input b (test_input_new (range 0 20))) dual_new);
  let dual := device_ (consumer_ pipe1) in
  b ← DefaultBuilder 8;
  pipe2 ← build [PipelineRef]
            (set_pipe_into_output (pipe_from_input b dual) test_output_new);
  '(pipe2, p2) ← pipe_poll rounds Pipeline.Top pipe2;
  assert (is_pending p2);;
  let pipe1 := Pipeline.set_output pipe1 (device_ (producer_ pipe2)) in
  '(pipe1, p1) ← pipe_poll rounds Pipeline.Top pipe1;
  let dual := device_ (consumer_ pipe1) in
  assert_eq (seen_in dual) (range 0 20);;
  '(pipe2, p2) ← pipe_poll rounds p2 (Pipeline.set_input pipe2 dual);
  assert_eq (out_data (device_ (consumer_ pipe2))) (range 0 20);;
  assert_eq (seen_out (device_ (producer_ pipe2))) (range 0 20).

(** A [DevConsumer] whose pump is parked, and a core over it. *)
Definition parked_dev : DevEnd TestOutput := mkDevEnd test_output_new (Some self).
Definition parked_core : CircCore BufEnd (DevEnd TestOutput) Z := core_new buf_new parked_dev 8.

(** The test asks whether the parked pump was woken: by the check of its end, by a
    commit on an armed core, not by one on a core that is not armed. *)
Definition dev_wakeslot_and_stndby_protocol : exec unit :=
  let '(interested, _, woken_by_check) := dev_consumer_check parked_dev (CAvailable 3) in
  assert interested;;
  assert_eq woken_by_check [self];;
  c ← write (set_rx_standby parked_core) (at_least 3) [1; 2; 3];
  assert_eq (woken c) [self];;
  c ← write parked_core (at_least 3) [1; 2; 3];
  assert_eq (woken c) [].

Definition suite : list (exec unit) :=
  [pipe_from_input_fills_and_refills; pipe_into_output_drains_on_write;
   pipe_both_active_pipeline; pipeline_flows_driven_by_devices;
   pipe_from_input_stops_when_exhausted; try_read_auto_drives_active_producer;
   close_tx_drains_remaining_output; read_async_with_active_producer_has_data;
   dual_head_device_observes_cross_pipe_flow; dev_wakeslot_and_stndby_protocol].

Theorem pump_tests_pass : Forall passes suite.
Proof. run_tests. Qed.

End PumpTests.
