(* ===== verification/Iroh.v ===== *)
(** * Buffered network streams

    Models [crates/buffex_iroh/src] ([device.rs], [reader.rs], [writer.rs]) and the
    adapters of [crates/abs_buff_tokio_adapt/src] it is built on: a circular buffer
    between a network stream and a caller.  The receiving stream is the device of
    an active producer, the sending stream that of an active consumer.

    tokio and iroh are outside the workspace: a stream is a type with the calls the
    code makes, and their documented contracts are the law classes below. *)

From S2P Require Import Prelude Demand IoPos Segm CircEnds CircCore CircLaws CircDev CircPump.
From S2P Require Import CircAsync CircHalf Builder.

(** ** The streams *)

(** One poll of [AsyncReadExt::read] into a buffer of [n] bytes. *)
Class AsyncRead (S E : Type) : Type := {
  tokio_read : S → Z → S * Poll (result E (list Z));
}.
(** One poll of [AsyncWriteExt::write], and [SendStream::finish]. *)
Class AsyncWrite (S E : Type) : Type := {
  tokio_write : S → list Z → S * Poll (result E Z);
  finish : S → S;
}.

(** A read fills a part of the buffer, a write takes a part of its bytes, and a
    call that fails or waits moves nothing. *)
Class LawfulAsyncRead (S E : Type) `{AsyncRead S E} (received : S → list Z) : Prop := {
  tokio_read_law s n : 0 ≤ n →
    let '(s', r) := tokio_read s n in
    match r with
    | Ready (Ok xs) => received s' = received s ++ xs ∧ Z.of_nat (length xs) ≤ n
    | _ => received s' = received s
    end;
}.
Class LawfulAsyncWrite (S E : Type) `{AsyncWrite S E} (sent : S → list Z) : Prop := {
  tokio_write_law s xs :
    let '(s', r) := tokio_write s xs in
    match r with
    | Ready (Ok n) =>
        0 ≤ n ≤ Z.of_nat (length xs) ∧ sent s' = sent s ++ take (Z.to_nat n) xs
    | _ => sent s' = sent s
    end;
}.

(** ** [abs_buff_tokio_adapt] *)

(** [input_read_impl_async_] and [output_write_impl_async_]: a [SomeOf] with one
    side. *)
Definition input_read_impl_async_ {S E} `{AsyncRead S E} (s : S) (n : Z) :
    S * Poll (option (list Z) * option E) :=
  let '(s, x) := tokio_read s n in
  (s, match x with
      | Ready (Ok xs) => Ready (Some xs, None)
      | Ready (Err e) => Ready (None, Some e)
      | Pending => Pending
      end).
Definition output_write_impl_async_ {S E} `{AsyncWrite S E} (s : S) (xs : list Z) :
    S * Poll (option Z * option E) :=
  let '(s, x) := tokio_write s xs in
  (s, match x with
      | Ready (Ok n) => Ready (Some n, None)
      | Ready (Err e) => Ready (None, Some e)
      | Pending => Pending
      end).

(** ** [device.rs] *)

(** [eof] and [err] are shared with the reader. *)
Record StreamInput (S E : Type) : Type := mkInput { stream : S; eof : bool; in_err : option E }.
Arguments mkInput {S E} stream eof in_err.
Arguments stream {S E} _.
Arguments eof {S E} _.
Arguments in_err {S E} _.
Definition input_new {S E} (s : S) : StreamInput S E := mkInput s false None.

Definition stream_input_read_impl_ {S E} `{AsyncRead S E} (d : StreamInput S E) (n : Z) :
    StreamInput S E * Poll (option (list Z) * bool) :=
  let '(s, x) := input_read_impl_async_ (stream d) n in
  match x with
  | Pending => (mkInput s (eof d) (in_err d), Pending)
  | Ready (_, Some e) => (mkInput s (eof d) (Some e), Ready (Some [], false))
  | Ready (Some xs, None) =>
      (mkInput s (eof d || (Z.of_nat (length xs) =? 0)) (in_err d), Ready (Some xs, false))
  | Ready (None, None) => (mkInput s (eof d) (in_err d), Ready (None, false))
  end.
#[export] Instance stream_input {S E} `{AsyncRead S E} : TrInput (StreamInput S E) Z :=
  {| in_read := stream_input_read_impl_ |}.

(** [out_stream] and [out_err] are shared with the writer. *)
Record StreamOutput (S E : Type) : Type := mkOutput {
  out_stream : option S;
  out_err : option E;
}.
Arguments mkOutput {S E} out_stream out_err.
Arguments out_stream {S E} _.
Arguments out_err {S E} _.
Definition output_new {S E} (s : S) : StreamOutput S E := mkOutput (Some s) None.

Definition stream_output_write_impl_ {S E} `{AsyncWrite S E} (d : StreamOutput S E)
    (xs : list Z) : StreamOutput S E * Poll (option Z * bool) :=
  match out_stream d with
  | None => (d, Ready (None, true))
  | Some s =>
      let '(s, x) := output_write_impl_async_ s xs in
      match x with
      | Pending => (mkOutput (Some s) (out_err d), Pending)
      | Ready (_, Some e) => (mkOutput (Some s) (Some e), Ready (Some 0, false))
      | Ready (n, None) => (mkOutput (Some s) (out_err d), Ready (n, false))
      end
  end.
#[export] Instance stream_output {S E} `{AsyncWrite S E} : TrOutput (StreamOutput S E) Z :=
  {| out_write := stream_output_write_impl_ |}.

(** ** [reader.rs] *)

Section reader.
Context {S E : Type} `{AsyncRead S E}.

(** [IrohReader]: the ring; [eof] and [err] are those of its device. *)
Abbreviation IrohReader := (CircCore (DevEnd (StreamInput S E)) BufEnd Z).
Implicit Types r : IrohReader.
Definition input_of r : StreamInput S E := device_ (producer_ r).

Definition iroh_reader_try_new_impl_ (fuel : nat) (s : S) (cap : Z) :
    exec (result Z IrohReader) :=
  match with_capacity tt cap with
  | Err _ => Done (Err cap)
  | Ok builder =>
      '(_, x) ← build_async fuel (set_consumer_passive (pipe_from_input builder (input_new s)));
      Done (match x with Ok (rx, _) => Ok rx | Err _ => Err cap end)
  end.

Definition take_read_error r : option E * IrohReader :=
  let d := input_of r in
  (in_err d, with_producer r (mkDevEnd (mkInput (stream d) (eof d) None)
               (dev_wakeslot_ (producer_ r))) []).

Definition iroh_try_read (fuel : nat) r (demand : Demand) :
    exec (IrohReader * result ConsumerError Recl.t) :=
  '(r, x) ← Consumer.try_read fuel r demand;
  Done (r, match x with
           | Err (Drained _) => if eof (input_of r) then Err CClosing else x
           | _ => x
           end).

Definition eof_drained r : bool := eof (input_of r) && (Consumer.data_size r =? 0).
Definition iroh_is_drained_closing r : bool := Consumer.is_drained_closing r || eof_drained r.

Definition iroh_read_async_ (fuel pf : nat) r (demand : Demand) :=
  core_passive_read_async_ fuel pf r demand.

(** [iroh_read_close_async_], which is also what [drop] runs. *)
Definition iroh_read_close_async_ r : IrohReader := Consumer.close r.
End reader.

(** ** [writer.rs] *)

Section writer.
Context {S E : Type} `{AsyncWrite S E}.
Abbreviation IrohWriter := (CircCore BufEnd (DevEnd (StreamOutput S E)) Z).
Implicit Types w : IrohWriter.
Definition output_of w : StreamOutput S E := device_ (consumer_ w).

Definition iroh_writer_try_new_impl_ (fuel : nat) (s : S) (cap : Z) :
    exec (result Z IrohWriter) :=
  match with_capacity tt cap with
  | Err _ => Done (Err cap)
  | Ok builder =>
      '(_, x) ← build_async fuel (set_pipe_into_output (producer_passive builder) (output_new s));
      Done (match x with Ok (tx, _) => Ok tx | Err _ => Err cap end)
  end.

Definition set_output_of w (d : StreamOutput S E) : IrohWriter :=
  with_consumer w (mkDevEnd d (dev_wakeslot_ (consumer_ w))) [].
Definition take_write_error w : option E * IrohWriter :=
  (out_err (output_of w), set_output_of w (mkOutput (out_stream (output_of w)) None)).

(** [iroh_writer_close_async_], which is also what [drop] runs: the stream that
    was finished, if there was one left. *)
Definition iroh_writer_close_async_ (fuel : nat) w (k : list bool) :
    exec (IrohWriter * Poll (option S)) :=
  '(w, x) ← close_tx_async fuel w k;
  match x with
  | Pending => Done (w, Pending)
  | Ready _ =>
      let s := out_stream (output_of w) in
      let w := set_output_of w (mkOutput None (out_err (output_of w))) in
      Done (w, Ready (finish <$> s))
  end.
End writer.

(** ** The devices are lawful *)

(** What the stream of a reader has delivered. *)
Definition received_by {S E} (received : S → list Z) (d : StreamInput S E) : list Z :=
  received (stream d).
#[export] Instance stream_input_lawful {S E} `{LawfulAsyncRead S E received} :
  LawfulInput (received_by (E:=E) received).
Proof.
  split. intros d n Hn. unfold received_by. simpl. unfold stream_input_read_impl_, input_read_impl_async_.
  pose proof (tokio_read_law (stream d) n Hn) as Hlaw.
  destruct (tokio_read _ n) as [s [[xs|e]|]]; simpl; [done| |done].
  rewrite app_nil_r. by split.
Qed.

(** What the stream of a writer has sent. *)
Definition sent_by {S E} (sent : S → list Z) (d : StreamOutput S E) : list Z :=
  match out_stream d with Some s => sent s | None => [] end.
#[export] Instance stream_output_lawful {S E} `{LawfulAsyncWrite S E sent} :
  LawfulOutput (sent_by (E:=E) sent).
Proof.
  split. intros d xs. simpl. unfold stream_output_write_impl_, output_write_impl_async_, sent_by.
  destruct (out_stream d) as [s|] eqn:Es; [|by rewrite Es].
  pose proof (tokio_write_law s xs) as Hlaw.
  destruct (tokio_write s xs) as [s' [[n|e]|]]; simpl; [done| |done].
  rewrite app_nil_r. split; [lia|done].
Qed.

(** A receiving stream that is at its end: tokio reports it by reads of zero
    bytes. *)
Class EndedRead (S E : Type) `{AsyncRead S E} (ended : S → Prop) : Prop := {
  tokio_read_ended s n : ended s → 0 < n →
    ∃ s', tokio_read s n = (s', Ready (Ok [])) ∧ ended s';
}.
(** The reader knows of the end. *)
Definition knows_end {S E} (ended : S → Prop) (d : StreamInput S E) : Prop :=
  ended (stream d) ∧ eof d = true.
#[export] Instance stream_input_ended {S E} `{EndedRead S E ended} :
  EndedInput (StreamInput S E) Z (knows_end ended).
Proof.
  split. intros d n [He Hk] Hn. simpl. unfold stream_input_read_impl_, input_read_impl_async_.
  destruct (tokio_read_ended (stream d) n He Hn) as (s' & -> & He').
  eexists. split; [done|]. split; [done|]. simpl. by rewrite Hk.
Qed.

(** A sending stream that works: awaited, it takes at least one byte. *)
Class WillingWrite (S E : Type) `{AsyncWrite S E} (works : S → Prop) : Prop := {
  tokio_write_works s xs : works s → works (tokio_write s xs).1;
  tokio_write_willing s xs : works s → xs ≠ [] →
    ∃ s' n, tokio_write s xs = (s', Ready (Ok n)) ∧ 0 < n;
}.
Definition connected {S E} (works : S → Prop) (d : StreamOutput S E) : Prop :=
  ∃ s, out_stream d = Some s ∧ works s.
#[export] Instance stream_output_willing {S E} `{WillingWrite S E works} :
  WillingOutput (StreamOutput S E) Z (connected works).
Proof.
  split; intros d xs (s & Es & Hw); simpl;
    unfold stream_output_write_impl_, output_write_impl_async_; rewrite Es.
  - pose proof (tokio_write_works s xs Hw) as Hw'.
    by destruct (tokio_write s xs) as [s' [[n|e]|]]; exists s'.
  - intros Hne. destruct (tokio_write_willing s xs Hw Hne) as (s' & n & -> & Hn).
    by eexists _, n, false.
Qed.

(** ** Properties *)

(** A new reader.  A capacity the ring does not support is answered back; otherwise
    there is a reader, its ends are open, and the ring holds what the stream gave at the
    one read of the construction: nothing of the stream is lost. *)
Theorem iroh_reader_new_spec {S E} `{LawfulAsyncRead S E received} fuel (s : S) cap :
  (2 ≤ fuel)%nat →
  (MIN_CAPACITY ≤ cap ≤ MAX_CAPACITY ∧
   ∃ r xs, iroh_reader_try_new_impl_ fuel s cap = Done (Ok r) ∧
     core_ring r 0 (Z.of_nat (length xs)) xs ∧ cap_ r = cap ∧
     is_tx_closed r = false ∧ is_rx_closed r = false ∧
     received_by received (input_of r) = received s ++ xs) ∨
  (¬ MIN_CAPACITY ≤ cap ≤ MAX_CAPACITY ∧
   iroh_reader_try_new_impl_ fuel s cap = Done (Err cap)).
Proof.
  intros Hf. unfold iroh_reader_try_new_impl_, with_capacity, with_allocator, try_capacity.
  destruct (Z.ltb_spec MAX_CAPACITY cap); [right; split; [lia|done]|].
  destruct (Z.ltb_spec cap MIN_CAPACITY); [right; split; [lia|done]|]. left. split; [lia|].
  destruct (essential_build_run (HC:=buf_consumer)
    (λ p : DevEnd (StreamInput S E), received_by received (device_ p)) (λ _, []) fuel
    (dev_new (input_new s)) buf_new cap ltac:(lia) Hf)
    as (c & xs & ys & Hb & Hr & [Hk [Ht Hx] Hfe Hac _ _ _] & _).
  simpl in Hac. destruct xs; [|done]. exists c, ys.
  split; [cbn -[essential_build_async_]; by rewrite Hb|]. by split.
Qed.

(** A non-blocking read of a network stream.  It always answers; what came in
    from the stream is appended to the ring, in order; a segment shows exactly the
    oldest bytes.  [Drained] means that there is less than was asked for and the
    end of the stream has not been seen; once it has, the same lack is reported as
    [Closing] (also when some bytes are left). *)
Theorem iroh_try_read_spec {S E} `{LawfulAsyncRead S E received}
    fuel (r : CircCore (DevEnd (StreamInput S E)) BufEnd Z) R W items d :
  core_ring r R W items → demand_wf d → 0 < max_len d →
  (Z.to_nat (cap_ r) + 5 ≤ fuel)%nat →
  ∃ r' xs x, iroh_try_read fuel r d = Done (r', x) ∧
    core_ring r' R (W + Z.of_nat (length xs)) (items ++ xs) ∧
    received_by received (input_of r') = received_by received (input_of r) ++ xs ∧
    let short := Z.of_nat (length (items ++ xs)) < Z.max 1 (min_len d) in
    match x with
    | Ok s =>
        0 < Recl.least_count s ≤ max_len d ∧
        holds (buffer_ r') (Recl.pieces s) 0
          (take (Z.to_nat (Recl.least_count s)) (items ++ xs))
    | Err CClosing =>
        (short ∧ eof (input_of r') = true) ∨
        (items ++ xs = [] ∧ is_tx_closed r || is_rx_closed r = true)
    | Err (Drained _) => short ∧ eof (input_of r') = false
    | Err _ => False
    end.
Proof.
  intros Hr Hd Hm Hf. unfold iroh_try_read, Consumer.try_read.
  destruct (try_read_run (HC:=buf_consumer)
    (λ p : DevEnd (StreamInput S E), received_by received (device_ p)) (λ _, [])
    fuel r R W items d Hr eq_refl Hd Hm Hf) as (r' & xs & x & -> & Hr' & [_ _ Hrcv _ _ _ _] & Hs).
  cbn [mbind exec_bind]. eexists r', xs, _. split; [reflexivity|]. split; [done|].
  split; [exact Hrcv|]. destruct x as [s|[n| | | |]]; try done.
  - destruct Hs as (_ & _ & Hlc & _ & _ & Hh). by split.
  - destruct Hs as [Hshort _]. destruct (eof (input_of r')); [by left|by split].
  - by right.
Qed.

(** The two reads of a network stream disagree at its end.  When the stream has
    ended and the reader knows it, a read that asks for more bytes than the ring
    holds, if it is awaited, parks until someone writes into the ring (only the
    reader's own calls do), while the non-blocking read of the same state answers
    [Closing]; and the latter hides the bytes that are left, since
    [is_drained_closing] holds of an empty ring only. *)
Theorem iroh_read_waits_at_eof {S E} `{EndedRead S E ended}
    fuel pf (r : CircCore (DevEnd (StreamInput S E)) BufEnd Z) R W items d :
  idle_ring (λ p, knows_end ended (device_ p)) r R W items →
  demand_wf d → 0 < max_len d →
  Z.of_nat (length items) < Z.max 1 (min_len d) → (4 ≤ pf)%nat →
  (∃ r', iroh_read_async_ (Datatypes.S fuel) pf r d = Done (r', Parked) ∧
     core_ring r' R W items) ∧
  (∃ r', iroh_try_read pf r d = Done (r', Err CClosing) ∧ core_ring r' R W items) ∧
  (iroh_is_drained_closing r = true ↔ items = []).
Proof.
  intros Hi Hd Hm Hshort Hpf. split; [|split].
  - destruct (idle_read_parks _ fuel pf r R W items d Hi Hd Hm Hshort Hpf)
      as (r' & Hrun & Hr' & _). by exists r'.
  - destruct (idle_try_read _ pf r R W items d Hi Hd Hm Hshort Hpf)
      as (r' & n & Hrun & [Hr' [_ Hk] _ _ _]).
    unfold iroh_try_read, Consumer.try_read. rewrite Hrun. cbn [mbind exec_bind].
    exists r'. unfold input_of. by rewrite Hk.
  - destruct Hi as [Hr [_ Hk] _ Htx Hrx]. unfold iroh_is_drained_closing, eof_drained,
      Consumer.is_drained_closing, Consumer.data_size, input_of.
    destruct (ring_sizes _ _ _ _ Hr) as (_ & -> & _). rewrite Htx, Hrx, Hk. cbn [orb andb].
    rewrite <- (ring_length _ _ _ _ Hr), Z.eqb_eq. destruct items; simpl; split; (done || lia).
Qed.

(** Closing a writer whose stream works delivers everything: the call returns,
    every byte that was in the ring has been sent, in order and before the stream
    is finished, and the stream is gone from the writer. *)
Theorem iroh_close_delivers {S E} `{LawfulAsyncWrite S E sent}
    `{!WillingWrite S E works}
    fuel (w : CircCore BufEnd (DevEnd (StreamOutput S E)) Z) s k R W items :
  core_ring w R W items → out_stream (output_of w) = Some s → works s →
  Forall (λ b, b = false) k → (Z.to_nat (W - R) + 5 ≤ fuel)%nat →
  ∃ w' s', iroh_writer_close_async_ fuel w k = Done (w', Ready (Some (finish s'))) ∧
    sent s' = sent s ++ items ∧ Producer.data_size w' = 0 ∧
    out_stream (output_of w') = None.
Proof.
  intros Hr Hs Hw Hk Hf. unfold iroh_writer_close_async_.
  destruct (close_tx_async_run (HP:=buf_producer) (HC:=dev_consumer) (λ _ : BufEnd, [])
    (λ k : DevEnd (StreamOutput S E), sent_by sent (device_ k))
    (λ k, connected works (device_ k)) fuel w k R W items Hr eq_refl eq_refl)
    as (w1 & -> & _ & Hr1 & (s1 & Hs1 & _) & Hacc); [by exists s|done|done|].
  cbn [mbind exec_bind]. unfold output_of in *. rewrite Hs1. cbn [fmap option_fmap option_map].
  eexists _, s1. split; [reflexivity|]. unfold sent_by in Hacc. rewrite Hs1, Hs in Hacc.
  split; [exact Hacc|]. split; [|done].
  destruct (ring_sizes _ _ _ _ Hr1) as (_ & Hds & _). rewrite Z.sub_diag in Hds. exact Hds.
Qed.

(** ** Witnesses *)

(** A stream that delivers the bytes of a list and then ends; the bytes it has
    delivered come first. *)
Definition list_stream : Type := list Z * list Z.
#[export] Instance list_stream_read : AsyncRead list_stream unit := {|
  tokio_read '(got, rest) n :=
    ((got ++ take (Z.to_nat n) rest, drop (Z.to_nat n) rest),
      Ready (Ok (take (Z.to_nat n) rest)))
|}.
#[export] Instance list_stream_lawful : LawfulAsyncRead list_stream unit fst.
Proof. split. intros [got rest] n Hn. simpl. split; [done|]. rewrite length_take. lia. Qed.
Definition list_stream_end (s : list_stream) : Prop := s.2 = [].
#[export] Instance list_stream_ended : EndedRead list_stream unit list_stream_end.
Proof.
  split. intros [got rest] n He _. unfold list_stream_end in *. simpl in *. subst rest.
  eexists. by rewrite take_nil, drop_nil, app_nil_r.
Qed.

Lemma iroh_try_read_spec_witness :
  let r : CircCore (DevEnd (StreamInput list_stream unit)) BufEnd Z :=
    core_new (dev_new (input_new ([], [1; 2; 3; 4; 5]))) buf_new 4 in
  ∃ r' xs x, iroh_try_read 9 r (AtLeast 2) = Done (r', x) ∧
    (stream (input_of r')).1 = xs ∧ core_ring r' 0 (Z.of_nat (length xs)) xs.
Proof.
  intros r.
  assert (Hcap : MIN_CAPACITY ≤ 4 ≤ MAX_CAPACITY) by by vm_compute.
  assert (Hd : demand_wf (AtLeast 2)) by by vm_compute.
  assert (Hm : 0 < max_len (AtLeast 2)) by by vm_compute.
  pose proof (core_ring_new (HP:=dev_producer) (HC:=buf_consumer)
    (producer_ r) buf_new 4 Hcap) as Hr.
  destruct (iroh_try_read_spec 9 r 0 0 [] (AtLeast 2) Hr Hd Hm)
    as (r' & xs & x & Hrun & Hr' & Hf & _); [vm_compute; lia|].
  exists r', xs, x. exact (conj Hrun (conj Hf Hr')).
Defined.

(** A reader whose stream has ended with one byte in the ring. *)
Definition tail_reader : CircCore (DevEnd (StreamInput list_stream unit)) BufEnd Z :=
  mkCore (<[0 := 9]> ∅) 4 (pack (mkIoPos false 0 1 4) 0)
    (dev_new (mkInput ([9], []) true None)) buf_new [].

Lemma iroh_read_waits_at_eof_witness :
  (∃ r', iroh_read_async_ 1 4 tail_reader (AtLeast 2) = Done (r', Parked)) ∧
  (∃ r', iroh_try_read 4 tail_reader (AtLeast 2) = Done (r', Err CClosing) ∧
     core_ring r' 0 1 [9]) ∧
  (iroh_is_drained_closing tail_reader = true ↔ [9] = []).
Proof.
  assert (Hr : core_ring tail_reader 0 1 [9]).
  { constructor; [by vm_compute..|]. intros k Hk. by assert (k = 0) as -> by lia. }
  assert (Hi : idle_ring (λ p : DevEnd (StreamInput list_stream unit),
    knows_end list_stream_end (device_ p)) tail_reader 0 1 [9]) by by constructor.
  assert (Hd : demand_wf (AtLeast 2)) by by vm_compute.
  assert (Hm : 0 < max_len (AtLeast 2)) by by vm_compute.
  destruct (iroh_read_waits_at_eof 0 4 tail_reader 0 1 [9] (AtLeast 2) Hi Hd Hm)
    as ((r' & Hrun & _) & Htry & Hdr); [vm_compute; reflexivity|lia|].
  exact (conj (ex_intro _ r' Hrun) (conj Htry Hdr)).
Defined.

(** A stream that sends one byte at a time. *)
Inductive slow_stream : Type := Slow (bytes : list Z).
Definition slow_sent (s : slow_stream) : list Z := match s with Slow bytes => bytes end.
#[export] Instance slow_stream_write : AsyncWrite slow_stream unit := {|
  tokio_write s xs :=
    (Slow (slow_sent s ++ take 1 xs), Ready (Ok (Z.of_nat (length (take 1 xs)))));
  finish s := s
|}.
#[export] Instance slow_stream_lawful : LawfulAsyncWrite slow_stream unit slow_sent.
Proof.
  split. intros s xs. simpl. split; [rewrite length_take; lia|].
  rewrite Nat2Z.id. f_equal. by destruct xs.
Qed.
Definition slow_works (s : slow_stream) : Prop := True.
#[export] Instance slow_stream_willing : WillingWrite slow_stream unit slow_works.
Proof. split; [done|]. intros s [|x xs] _ Hne; [done|]. by eexists _, 1. Qed.

Definition three_bytes {D} (d : D) : CircCore BufEnd (DevEnd D) Z :=
  mkCore (<[0 := 7]> (<[2 := 6]> (<[1 := 5]> ∅))) 3 (pack (mkIoPos true 1 1 3) 0)
    buf_new (dev_new d) [].

Lemma iroh_close_delivers_witness :
  ∃ w' s', iroh_writer_close_async_ (E:=unit) 8 (three_bytes (output_new (Slow [4]))) [false] =
      Done (w', Ready (Some (finish s'))) ∧
    slow_sent s' = [4; 5; 6; 7] ∧ out_stream (output_of w') = None.
Proof.
  assert (Hr : core_ring (three_bytes (output_new (E:=unit) (Slow [4]))) 1 4 [5; 6; 7]).
  { constructor; [by vm_compute..|].
    intros k Hk. assert (k = 0 ∨ k = 1 ∨ k = 2) as [->|[->| ->]] by lia; reflexivity. }
  assert (Hk : Forall (λ b, b = false) [false]) by by constructor.
  destruct (iroh_close_delivers (sent:=slow_sent) (works:=slow_works) 8
    (three_bytes (output_new (E:=unit) (Slow [4]))) (Slow [4]) [false] 1 4 [5; 6; 7]
    Hr eq_refl I Hk) as (w' & s' & Hrun & Hs & _ & Hn); [vm_compute; lia|].
  exists w', s'. exact (conj Hrun (conj Hs Hn)).
Defined.

(** A stream whose writes fail: it is finished all the same, as if complete, and
    the three bytes stay in the ring. *)
Inductive broken_stream : Type := Broken.
#[export] Instance broken_stream_write : AsyncWrite broken_stream unit := {|
  tokio_write s xs := (s, Ready (Err tt));
  finish s := s
|}.
Example broken_stream_is_finished :
  ∃ w', iroh_writer_close_async_ (E:=unit) 9 (three_bytes (output_new Broken)) [false] =
      Done (w', Ready (Some Broken)) ∧
    Producer.data_size w' = 3 ∧ out_err (output_of w') = Some tt.
Proof. eexists. split; [vm_compute; reflexivity|]. split; vm_compute; reflexivity. Qed.
