(* ===== verification/CircWait.v ===== *)
(** * Waiting for the peer: the armed wake-up protocol

    Models the park of a passive end
    ([core_passive_read_async_] / [core_passive_write_async_] with [WaitGuard],
    [crates/buffex/src/circular_buff/core_.rs]) against the commits and the
    closing of its peer, one atomic access per step, under sequential
    consistency: the waiter registers its demand, arms the standby flag, checks,
    registers its waker, checks again and parks; the peer moves its position,
    reads back the size, looks at the standby flag, then at the demand, and
    signals the slot.

    The two directions have the same shape; [dir] selects one. *)

From S2P Require Import Prelude Demand Atomex IoPos CircEnds CircCore.

Inductive dir : Type := Reading | Writing.

(** The standby flag of the waiter. *)
Definition standby (x : dir) : Z :=
  match x with Reading => RX_STNDBY | Writing => TX_STNDBY end.

(** What the waiter waits for: data to read, or free slots. *)
Definition avail (x : dir) (cap word : Z) : Z :=
  match x with
  | Reading => data_size (unpack word cap)
  | Writing => free_size (unpack word cap)
  end.

(** [fn_can_stop] / [can_stop]: the attempt succeeds, or its error is terminal. *)
Definition can_stop (x : dir) (cap word : Z) (d : Demand) : outcome bool :=
  match x with
  | Reading =>
      r ← try_read_at_word word cap d;
      Ret (match r with
           | Ok _ => true
           | Err e => read_should_terminate (consumer_err_tag e)
           end)
  | Writing =>
      r ← try_write_at_word word cap d;
      Ret (match r with
           | Ok _ => true
           | Err e => write_should_terminate (producer_err_tag e)
           end)
  end.

(** The commits: the peer's makes more available, the waiter's own less. *)
Definition peer_advance (x : dir) (cap n word : Z) : Z :=
  match x with
  | Reading => (update_pos_rmw (advance_write_word cap n) word).2
  | Writing => (update_pos_rmw (advance_read_word cap n) word).2
  end.
Definition own_advance (x : dir) (cap n word : Z) : Z :=
  match x with
  | Reading => (update_pos_rmw (advance_read_word cap n) word).2
  | Writing => (update_pos_rmw (advance_write_word cap n) word).2
  end.
Definition peer_space (x : dir) (cap word : Z) : Z :=
  match x with
  | Reading => free_size (unpack word cap)
  | Writing => data_size (unpack word cap)
  end.

(** The flag the peer sets when it closes. *)
Definition peer_closed (x : dir) : Z :=
  match x with Reading => TX_CLOSED | Writing => RX_CLOSED end.

(** An event for the waiter's end, and the verdict of its [check] on the demand it
    finds there: whether to signal. *)
Inductive event : Type := Available (n : Z) | PeerClose (n : Z).
Definition check_signals (e : event) (d : option Demand) : bool :=
  match e with
  | PeerClose _ => false
  | Available n =>
      if n =? 0 then false
      else match d with Some d => min_len d <=? n | None => false end
  end.

(** Where the waiter is. *)
Inductive waiter_pc : Type :=
| Idle
| Failed (d : Demand)       (* the attempt failed: about to set the demand *)
| DemandSet (d : Demand)    (* about to arm *)
| Armed (d : Demand)        (* about to check, in the poll *)
| Checked (d : Demand)      (* about to register the waker *)
| Registered (d : Demand)   (* about to check again *)
| Parked (d : Demand)       (* the poll answered [Pending] *)
| Leaving (d : Demand)      (* the guard drops: about to deregister *)
| Deregistered (d : Demand) (* about to unarm *)
| Unarmed (d : Demand).     (* about to reset the demand *)

(** Where the peer is. *)
Inductive peer_pc : Type :=
| Quiet
| Committed                 (* about to read back the size *)
| Event (e : event)         (* about to look at the standby flag *)
| Fire (e : event)          (* armed: about to look at the demand *)
| Signal.                   (* about to signal the slot *)

(** [woken]: the waiter's waker was called and its task will be polled again. *)
Record wait_state : Type := Wait {
  word : Z;
  demand : option Demand;
  slot : bool;
  woken : bool;
  waiter : waiter_pc;
  peer : peer_pc;
}.

Section protocol.
Variables (x : dir) (cap : Z).

Inductive wait_step : wait_state → wait_state → Prop :=
(* the waiter *)
| w_own s n :
    waiter s = Idle → 0 ≤ n ≤ avail x cap (word s) →
    wait_step s (Wait (own_advance x cap n (word s)) (demand s) (slot s) (woken s) Idle (peer s))
| w_fail s d :
    waiter s = Idle → demand_wf d → 0 < max_len d →
    can_stop x cap (word s) d = Ret false →
    wait_step s (Wait (word s) (demand s) (slot s) (woken s) (Failed d) (peer s))
| w_set_demand s d :
    waiter s = Failed d → demand s = None →
    wait_step s (Wait (word s) (Some d) (slot s) (woken s) (DemandSet d) (peer s))
| w_arm s d :
    waiter s = DemandSet d →
    wait_step s (Wait (set_standby_rmw (standby x) (word s)).2 (demand s) (slot s) (woken s)
                   (Armed d) (peer s))
| w_check s d b :
    waiter s = Armed d → can_stop x cap (word s) d = Ret b →
    wait_step s (Wait (word s) (demand s) (slot s) (woken s)
                   (if b then Leaving d else Checked d) (peer s))
| w_register s d :
    waiter s = Checked d →
    wait_step s (Wait (word s) (demand s) true (woken s) (Registered d) (peer s))
| w_recheck s d b :
    waiter s = Registered d → can_stop x cap (word s) d = Ret b →
    wait_step s (Wait (word s) (demand s) (slot s) (woken s)
                   (if b then Leaving d else Parked d) (peer s))
| w_poll s d :
    waiter s = Parked d → woken s = true →
    wait_step s (Wait (word s) (demand s) (slot s) false (Armed d) (peer s))
| w_cancel s d :
    waiter s = Parked d →
    wait_step s (Wait (word s) (demand s) (slot s) (woken s) (Leaving d) (peer s))
| w_deregister s d :
    waiter s = Leaving d →
    wait_step s (Wait (word s) (demand s) false (woken s) (Deregistered d) (peer s))
| w_unarm s d :
    waiter s = Deregistered d →
    wait_step s (Wait (clear_flag_rmw (standby x) (word s)).2 (demand s) (slot s) (woken s)
                   (Unarmed d) (peer s))
| w_reset s d :
    waiter s = Unarmed d →
    wait_step s (Wait (word s) None (slot s) (woken s) Idle (peer s))
(* the peer *)
| p_commit s n :
    peer s = Quiet → 0 ≤ n ≤ peer_space x cap (word s) →
    wait_step s (Wait (peer_advance x cap n (word s)) (demand s) (slot s) (woken s)
                   (waiter s) Committed)
| p_size s :
    peer s = Committed →
    wait_step s (Wait (word s) (demand s) (slot s) (woken s) (waiter s)
      (Event (if has_flag (word s) (peer_closed x) then PeerClose (avail x cap (word s))
              else Available (avail x cap (word s)))))
| p_close s :
    peer s = Quiet →
    wait_step s (Wait (set_flag_rmw (peer_closed x) (word s)).2 (demand s) (slot s) (woken s)
      (waiter s) (Event (PeerClose (avail x cap (word s)))))
| p_look s e :
    peer s = Event e →
    wait_step s (Wait (word s) (demand s) (slot s) (woken s) (waiter s)
      (if has_flag (word s) (standby x) then Fire e else Quiet))
| p_check s e :
    peer s = Fire e →
    wait_step s (Wait (word s) (demand s) (slot s) (woken s) (waiter s)
      (if check_signals e (demand s) then Signal else Quiet))
| p_signal s :
    peer s = Signal →
    wait_step s (Wait (word s) (demand s) false (woken s || slot s) (waiter s) Quiet).

Definition wait_init : wait_state := Wait 0 None false false Idle Quiet.
Definition wait_reachable (s : wait_state) : Prop := rtc wait_step wait_init s.
End protocol.

(** ** Lemmas *)

(** The verdict is that of the [check] of the passive ends, which signal in
    exactly these cases. *)
Lemma check_signals_consumer b e :
  (buf_consumer_check b
     (match e with Available n => CAvailable n | PeerClose n => ProducerClose n end)).2 =
  if check_signals e (demand_ b) then (WakeSlot.signal (wakeslot_ b)).2 else [].
Proof.
  destruct e as [n|n]; simpl; [|done]. destruct (n =? 0); [done|].
  destruct (demand_ b); [|done]. by destruct (_ <=? _).
Qed.
Lemma check_signals_producer b e :
  (buf_producer_check b
     (match e with Available n => PAvailable n | PeerClose n => ConsumerClose n end)).2 =
  if check_signals e (demand_ b) then (WakeSlot.signal (wakeslot_ b)).2 else [].
Proof.
  destruct e as [n|n]; simpl; [|done]. destruct (n =? 0); [done|].
  destruct (demand_ b); [|done]. by destruct (_ <=? _).
Qed.

Lemma standby_flag x : is_state_flag (standby x).
Proof. destruct x; unfold is_state_flag; auto. Qed.
Lemma peer_closed_flag x : is_state_flag (peer_closed x).
Proof. destruct x; unfold is_state_flag; auto. Qed.
#[export] Hint Resolve standby_flag peer_closed_flag : cantare.

(** A state word of a ring of capacity [cap]. *)
Definition word_ok (cap w : Z) : Prop := is_usize w ∧ pos_wf (unpack w cap).

Lemma word_ok_pack cap p w :
  is_usize w → pos_wf p → capacity_ p = cap →
  word_ok cap (pack p w) ∧ unpack (pack p w) cap = p ∧
  ∀ f, is_state_flag f → has_flag (pack p w) f = has_flag w f.
Proof.
  intros Hw Hp Hc. split; [split|split]; eauto with cantare.
  - rewrite unpack_pack_fits; eauto with cantare.
  - rewrite unpack_pack_fits; eauto with cantare.
  - intros f Hf. apply has_flag_pack; eauto with cantare.
Qed.

Lemma peer_advance_ok x cap n w :
  word_ok cap w → 0 ≤ n ≤ peer_space x cap w →
  word_ok cap (peer_advance x cap n w) ∧
  avail x cap (peer_advance x cap n w) = avail x cap w + n ∧
  ∀ f, is_state_flag f → has_flag (peer_advance x cap n w) f = has_flag w f.
Proof.
  intros [Hu Hp] Hn. destruct x; simpl in *;
    unfold update_pos_rmw, rmw, advance_write_word, advance_read_word; simpl.
  - destruct (pos_wf_advance_wp _ n Hp Hn) as (Hp' & Hd & Hf).
    destruct (word_ok_pack cap _ w Hu Hp' eq_refl) as (? & Heq & ?).
    by rewrite Heq.
  - destruct (pos_wf_advance_rp _ n Hp Hn) as (Hp' & Hd & Hf).
    destruct (word_ok_pack cap _ w Hu Hp' eq_refl) as (? & Heq & ?).
    by rewrite Heq.
Qed.

Lemma own_advance_ok x cap n w :
  word_ok cap w → 0 ≤ n ≤ avail x cap w →
  word_ok cap (own_advance x cap n w) ∧
  avail x cap (own_advance x cap n w) = avail x cap w - n ∧
  ∀ f, is_state_flag f → has_flag (own_advance x cap n w) f = has_flag w f.
Proof.
  intros [Hu Hp] Hn. destruct x; simpl in *;
    unfold update_pos_rmw, rmw, advance_write_word, advance_read_word; simpl.
  - destruct (pos_wf_advance_rp _ n Hp Hn) as (Hp' & Hd & Hf).
    destruct (word_ok_pack cap _ w Hu Hp' eq_refl) as (? & Heq & ?).
    by rewrite Heq.
  - destruct (pos_wf_advance_wp _ n Hp Hn) as (Hp' & Hd & Hf).
    destruct (word_ok_pack cap _ w Hu Hp' eq_refl) as (? & Heq & ?).
    by rewrite Heq.
Qed.

(** Flag updates keep the positions. *)
Lemma avail_ext x cap w w' :
  unpack w cap = unpack w' cap → avail x cap w = avail x cap w'.
Proof. intros H. destruct x; simpl; by rewrite H. Qed.

Lemma arm_ok x cap f w :
  word_ok cap w → is_state_flag f →
  let w' := (set_standby_rmw f w).2 in
  word_ok cap w' ∧ avail x cap w' = avail x cap w ∧ has_flag w' f = true ∧
  ∀ g, is_state_flag g → has_flag w g = true → has_flag w' g = true.
Proof.
  intros [Hu Hp] Hf. unfold set_standby_rmw, rmw; simpl.
  pose proof (unpack_set_flag f w cap Hf) as Heq.
  split; [split; [eauto with cantare|by rewrite Heq]|]. split; [by apply avail_ext|].
  split; [|intros g Hg Hb]; rewrite has_flag_set by done.
  - rewrite bool_decide_eq_true_2 by done. apply orb_true_r.
  - by rewrite Hb.
Qed.

Lemma close_ok x cap f w :
  word_ok cap w → is_state_flag f →
  let w' := (set_flag_rmw f w).2 in
  word_ok cap w' ∧ avail x cap w' = avail x cap w ∧ has_flag w' f = true ∧
  ∀ g, is_state_flag g → has_flag w g = true → has_flag w' g = true.
Proof.
  intros Hw Hf. unfold set_flag_rmw, rmw. destruct (Z.land w f =? 0) eqn:E; simpl.
  - by apply (arm_ok x cap f w).
  - split; [done|]. split; [done|]. split; [unfold has_flag; by rewrite E|]. done.
Qed.

Lemma disarm_ok x cap f w :
  word_ok cap w → is_state_flag f →
  let w' := (clear_flag_rmw f w).2 in
  word_ok cap w' ∧ avail x cap w' = avail x cap w ∧
  ∀ g, is_state_flag g → f ≠ g → has_flag w' g = has_flag w g.
Proof.
  intros [Hu Hp] Hf. unfold clear_flag_rmw, rmw.
  destruct (Z.land w f =? f); simpl; [|done].
  pose proof (unpack_clear_flag f w cap Hf) as Heq.
  split; [split; [eauto with cantare|by rewrite Heq]|]. split; [by apply avail_ext|].
  intros g Hg Hne. rewrite has_flag_clear by done.
  rewrite bool_decide_eq_false_2 by done. apply andb_true_r.
Qed.

(** While both ends are open, the attempt stops the wait exactly when the demand's
    lower bound (at least one) is available. *)
Lemma can_stop_open x cap w d b :
  word_ok cap w → demand_wf d → 0 < max_len d →
  has_flag w TX_CLOSED = false → has_flag w RX_CLOSED = false →
  can_stop x cap w d = Ret b →
  b = true ↔ Z.max 1 (min_len d) ≤ avail x cap w.
Proof.
  intros [Hu Hp] Hd Hm Htx Hrx. destruct x; simpl.
  - destruct (try_read_at_word_cases w cap d Hp Hd)
      as [(? & ->)|[(? & ? & ->)|[(? & Hc & ? & ->)|(?&?&?&?)]]];
      rewrite ?Htx, ?Hrx in *; simpl; try lia; intros [= <-];
      (split; [try done|]; intros; try lia; done).
  - destruct (try_write_at_word_cases w cap d Hp Hd)
      as [(? & ->)|[(? & ? & ->)|(?&?&?)]]; rewrite ?Htx, ?Hrx in *; simpl; try lia;
      intros [= <-]; (split; [try done|]; intros; try lia; done).
Qed.

Lemma can_stop_total x cap w d :
  word_ok cap w → demand_wf d → 0 < max_len d → ∃ b, can_stop x cap w d = Ret b.
Proof.
  intros [Hu Hp] Hd Hm. destruct x; simpl.
  - destruct (try_read_at_word_cases w cap d Hp Hd)
      as [(? & ->)|[(? & ? & ->)|[(? & Hc & ? & ->)|(?&?&?&?)]]]; [by eexists..|lia].
  - destruct (try_write_at_word_cases w cap d Hp Hd)
      as [(? & ->)|[(? & ? & ->)|(?&?&?)]]; [by eexists..|lia].
Qed.

Section invariant.
Variables (x : dir) (cap : Z).

Definition demand_of (pc : waiter_pc) : option Demand :=
  match pc with
  | Idle | Failed _ => None
  | DemandSet d | Armed d | Checked d | Registered d | Parked d | Leaving d
  | Deregistered d | Unarmed d => Some d
  end.
Definition is_armed (pc : waiter_pc) : bool :=
  match pc with
  | Armed _ | Checked _ | Registered _ | Parked _ | Leaving _ | Deregistered _ => true
  | _ => false
  end.
Definition has_slot (pc : waiter_pc) : bool :=
  match pc with Registered _ | Parked _ => true | _ => false end.
Definition event_of (pc : peer_pc) : option event :=
  match pc with Event e | Fire e => Some e | _ => None end.

Record wait_inv (s : wait_state) : Prop := {
  wi_word : word_ok cap (word s);
  wi_demand : demand s = demand_of (waiter s);
  wi_wf : ∀ d, waiter s = Failed d ∨ demand_of (waiter s) = Some d →
               demand_wf d ∧ 0 < max_len d;
  wi_flag : is_armed (waiter s) = true → has_flag (word s) (standby x) = true;
  wi_slot : has_slot (waiter s) = true → slot s = true ∨ woken s = true;
  wi_event : ∀ n, event_of (peer s) = Some (Available n) → avail x cap (word s) ≤ n;
  wi_close : ∀ n, event_of (peer s) = Some (PeerClose n) →
                  has_flag (word s) (peer_closed x) = true;
  wi_parked : ∀ d, waiter s = Parked d → woken s = false → peer s = Quiet →
    has_flag (word s) TX_CLOSED = false → has_flag (word s) RX_CLOSED = false →
    can_stop x cap (word s) d ≠ Ret true;
}.

Lemma wait_init_inv :
  MIN_CAPACITY ≤ cap ≤ MAX_CAPACITY → wait_inv (wait_init).
Proof.
  intros Hcap. unfold MIN_CAPACITY in Hcap. constructor; simpl;
    [|intros; simplify_eq/=; repeat match goal with H : _ ∨ _ |- _ => destruct H end; done..].
  split; [by vm_compute|]. change (unpack 0 cap) with (mkIoPos false 0 0 cap).
  unfold pos_wf, MIN_CAPACITY. simpl. lia.
Qed.

Local Ltac fields := constructor; cbn [word demand slot woken waiter peer].

(** Steps of the waiter that leave the word alone. *)
Lemma wait_inv_waiter s dm sl wk pc :
  wait_inv s → dm = demand_of pc →
  (∀ d, pc = Failed d ∨ demand_of pc = Some d → demand_wf d ∧ 0 < max_len d) →
  (is_armed pc = true → has_flag (word s) (standby x) = true) →
  (has_slot pc = true → sl = true ∨ wk = true) →
  (∀ d, pc = Parked d → can_stop x cap (word s) d ≠ Ret true) →
  wait_inv (Wait (word s) dm sl wk pc (peer s)).
Proof. intros [] Hd Hwf Hf Hs Hp. fields; auto. Qed.

(** Steps of the peer that leave the word alone. *)
Lemma wait_inv_peer s sl wk pc :
  wait_inv s →
  (has_slot (waiter s) = true → sl = true ∨ wk = true) →
  (∀ n, event_of pc = Some (Available n) → avail x cap (word s) ≤ n) →
  (∀ n, event_of pc = Some (PeerClose n) → has_flag (word s) (peer_closed x) = true) →
  (∀ d, waiter s = Parked d → wk = false → pc = Quiet →
    has_flag (word s) TX_CLOSED = false → has_flag (word s) RX_CLOSED = false →
    can_stop x cap (word s) d ≠ Ret true) →
  wait_inv (Wait (word s) (demand s) sl wk (waiter s) pc).
Proof. intros [] Hs He Hc Hp. fields; auto. Qed.

(** Steps that change the word but keep what is available. *)
Lemma wait_inv_word s w pc :
  wait_inv s → word_ok cap w → avail x cap w = avail x cap (word s) →
  has_flag w (peer_closed x) = has_flag (word s) (peer_closed x) →
  demand_of pc = demand_of (waiter s) →
  (∀ d, pc ≠ Failed d) → (∀ d, pc ≠ Parked d) → has_slot pc = false →
  (is_armed pc = true → has_flag w (standby x) = true) →
  wait_inv (Wait w (demand s) (slot s) (woken s) pc (peer s)).
Proof.
  intros [] Hw Ha Hc Hd Hnf Hnp Hns Hf. fields; auto.
  - by rewrite Hd.
  - intros d [->|He]; [by destruct (Hnf d)|]. apply wi_wf0. right. by rewrite <- Hd.
  - congruence.
  - intros n Hn. rewrite Ha. auto.
  - intros n Hn. rewrite Hc. eauto.
  - intros d ->. by destruct (Hnp d).
Qed.

(** The peer's look at an armed, parked waiter whose wait is over signals. *)
Lemma parked_check_signals s d e :
  wait_inv s → waiter s = Parked d → peer s = Fire e →
  has_flag (word s) TX_CLOSED = false → has_flag (word s) RX_CLOSED = false →
  can_stop x cap (word s) d = Ret true → check_signals e (demand s) = true.
Proof.
  intros [] Hp Hf Htx Hrx Hc. rewrite Hp, Hf in *. simpl in *.
  destruct (wi_wf0 d (or_intror eq_refl)) as [Hd Hm].
  pose proof (proj1 (can_stop_open x cap (word s) d true wi_word0 Hd Hm Htx Hrx Hc) eq_refl).
  destruct e as [n|n].
  - specialize (wi_event0 n eq_refl). simpl. rewrite wi_demand0.
    replace (n =? 0) with false by lia. lia.
  - specialize (wi_close0 n eq_refl). destruct x; simpl in *; congruence.
Qed.

Local Ltac solve_waiter :=
  simpl; auto; intros; simplify_eq/=;
  repeat match goal with
  | H : _ ∨ _ |- _ => destruct H; simplify_eq/=
  end; auto; congruence.

(** The five steps that write the word. *)
Lemma wait_inv_own s n :
  wait_inv s → waiter s = Idle → 0 ≤ n ≤ avail x cap (word s) →
  wait_inv (Wait (own_advance x cap n (word s)) (demand s) (slot s) (woken s) Idle (peer s)).
Proof.
  intros [Hwd Hdm Hwf Hfl Hsl Hev Hcl Hpk] Hpc Hn. rewrite Hpc in *.
  destruct (own_advance_ok x cap n _ Hwd Hn) as (Hw' & Ha & Hfg).
  fields; simpl; auto; try done.
  - intros m Hm. specialize (Hev m Hm). lia.
  - intros m Hm. rewrite Hfg by auto with cantare. eauto.
Qed.

Lemma wait_inv_arm s d :
  wait_inv s → waiter s = DemandSet d →
  wait_inv (Wait (set_standby_rmw (standby x) (word s)).2 (demand s) (slot s) (woken s)
              (Armed d) (peer s)).
Proof.
  intros Hinv Hpc. pose proof (wi_word _ Hinv) as Hwd.
  destruct (arm_ok x cap (standby x) _ Hwd (standby_flag x)) as (Hw' & Ha & Hset & Hkeep).
  apply wait_inv_word; simpl; auto; try done; try congruence.
  - destruct (has_flag (word s) (peer_closed x)) eqn:E; [by rewrite Hkeep by auto with cantare|].
    unfold set_standby_rmw, rmw; simpl.
    rewrite has_flag_set, E, bool_decide_eq_false_2 by (auto with cantare || by destruct x).
    done.
  - by rewrite Hpc.
Qed.

Lemma wait_inv_unarm s d :
  wait_inv s → waiter s = Deregistered d →
  wait_inv (Wait (clear_flag_rmw (standby x) (word s)).2 (demand s) (slot s) (woken s)
              (Unarmed d) (peer s)).
Proof.
  intros Hinv Hpc. pose proof (wi_word _ Hinv) as Hwd.
  destruct (disarm_ok x cap (standby x) _ Hwd (standby_flag x)) as (Hw' & Ha & Hkeep).
  apply wait_inv_word; simpl; auto; try done; try congruence.
  - apply Hkeep; [auto with cantare|by destruct x].
  - by rewrite Hpc.
Qed.

Lemma wait_inv_commit s n :
  wait_inv s → peer s = Quiet → 0 ≤ n ≤ peer_space x cap (word s) →
  wait_inv (Wait (peer_advance x cap n (word s)) (demand s) (slot s) (woken s) (waiter s)
              Committed).
Proof.
  intros [Hwd Hdm Hwf Hfl Hsl Hev Hcl Hpk] Hpc Hn.
  destruct (peer_advance_ok x cap n _ Hwd Hn) as (Hw' & Ha & Hfg).
  fields; simpl; auto; try done.
  intros Harm. rewrite Hfg by auto with cantare. auto.
Qed.

Lemma wait_inv_close s :
  wait_inv s → peer s = Quiet →
  wait_inv (Wait (set_flag_rmw (peer_closed x) (word s)).2 (demand s) (slot s) (woken s)
              (waiter s) (Event (PeerClose (avail x cap (word s))))).
Proof.
  intros [Hwd Hdm Hwf Hfl Hsl Hev Hcl Hpk] Hpc.
  destruct (close_ok x cap (peer_closed x) _ Hwd (peer_closed_flag x)) as (Hw' & Ha & Hset & Hkeep).
  fields; simpl; auto; try done. intros Harm. auto with cantare.
Qed.

(** The looks of the peer, and its signal. *)
Lemma wait_inv_look s e :
  wait_inv s → peer s = Event e →
  wait_inv (Wait (word s) (demand s) (slot s) (woken s) (waiter s)
              (if has_flag (word s) (standby x) then Fire e else Quiet)).
Proof.
  intros Hinv Hpc. pose proof Hinv as [Hwd Hdm Hwf Hfl Hsl Hev Hcl Hpk]. rewrite Hpc in *.
  apply wait_inv_peer; auto; destruct (has_flag (word s) (standby x)) eqn:E; simpl; auto;
    try done.
  intros d Hp Hwk _ _ _. rewrite Hp in Hfl. specialize (Hfl eq_refl). congruence.
Qed.

Lemma wait_inv_check s e :
  wait_inv s → peer s = Fire e →
  wait_inv (Wait (word s) (demand s) (slot s) (woken s) (waiter s)
              (if check_signals e (demand s) then Signal else Quiet)).
Proof.
  intros Hinv Hpc. pose proof Hinv as [Hwd Hdm Hwf Hfl Hsl Hev Hcl Hpk].
  apply wait_inv_peer; auto; destruct (check_signals e (demand s)) eqn:E; simpl; try done.
  intros d Hp Hwk _ Htx Hrx Hc.
  pose proof (parked_check_signals s d e Hinv Hp Hpc Htx Hrx Hc). congruence.
Qed.

Lemma wait_inv_signal s :
  wait_inv s → wait_inv (Wait (word s) (demand s) false (woken s || slot s) (waiter s) Quiet).
Proof.
  intros Hinv. pose proof (wi_slot _ Hinv) as Hsl.
  apply wait_inv_peer; auto; simpl; try done.
  - intros Hs. right. destruct (Hsl Hs) as [-> | ->]; [apply orb_true_r|done].
  - intros d Hp Hwk. rewrite Hp in Hsl. destruct (Hsl eq_refl) as [Hx|Hx];
      rewrite Hx in Hwk; [by rewrite orb_true_r in Hwk|done].
Qed.

Lemma wait_inv_step s s' : wait_step x cap s s' → wait_inv s → wait_inv s'.
Proof.
  intros Hstep Hinv.
  destruct Hstep as
    [s n Hpc Hn|s d Hpc Hd Hm Hb|s d Hpc Hd|s d Hpc|s d b Hpc Hb|s d Hpc|s d b Hpc Hb
    |s d Hpc Hw|s d Hpc|s d Hpc|s d Hpc|s d Hpc
    |s n Hpc Hn|s Hpc|s Hpc|s e Hpc|s e Hpc|s Hpc];
    pose proof Hinv as [Hwd Hdm Hwf Hfl Hsl Hev Hcl Hpk].
  all: try solve [rewrite Hpc in *; simpl in *;
                  repeat (case_match; simplify_eq/=); apply wait_inv_waiter; solve_waiter].
  - by apply wait_inv_own.
  - by apply wait_inv_arm.
  - by apply wait_inv_unarm.
  - by apply wait_inv_commit.
  - apply wait_inv_peer; auto; destruct (has_flag (word s) (peer_closed x)) eqn:E;
      simpl; intros; simplify_eq; (done || lia).
  - by apply wait_inv_close.
  - by apply wait_inv_look.
  - by apply wait_inv_check.
  - by apply wait_inv_signal.
Qed.

Lemma wait_reachable_inv s :
  MIN_CAPACITY ≤ cap ≤ MAX_CAPACITY → wait_reachable x cap s → wait_inv s.
Proof.
  intros Hcap Hr.
  assert (∀ a b, rtc (wait_step x cap) a b → wait_inv a → wait_inv b) as Hind.
  { induction 1; eauto using wait_inv_step. }
  eapply Hind; [done|]. by apply wait_init_inv.
Qed.
End invariant.

(** ** After the peer has closed *)

Section closed.
Variables (x : dir) (cap : Z).

(** What a closed peer can still be doing. *)
Definition closed_peer (pc : peer_pc) : Prop :=
  match pc with
  | Quiet | Committed | Event (PeerClose _) | Fire (PeerClose _) => True
  | _ => False
  end.

Lemma closed_step s s' d :
  wait_inv x cap s → wait_step x cap s s' → waiter s' ≠ Leaving d →
  has_flag (word s) (peer_closed x) = true →
  waiter s = Parked d → woken s = false → closed_peer (peer s) →
  has_flag (word s') (peer_closed x) = true ∧
  waiter s' = Parked d ∧ woken s' = false ∧ closed_peer (peer s').
Proof.
  intros [Hwd _ _ _ _ _ _ _] Hstep Hnl Hc Hp Hw Hcp.
  destruct Hstep as
    [s n Hpc Hn|s d' Hpc Hd Hm Hb|s d' Hpc Hd|s d' Hpc|s d' b Hpc Hb|s d' Hpc|s d' b Hpc Hb
    |s d' Hpc Hw'|s d' Hpc|s d' Hpc|s d' Hpc|s d' Hpc
    |s n Hpc Hn|s Hpc|s Hpc|s e Hpc|s e Hpc|s Hpc]; simpl in *; try congruence.
  - destruct (peer_advance_ok x cap n _ Hwd Hn) as (_ & _ & Hfg).
    rewrite Hfg by auto with cantare. done.
  - by rewrite Hc.
  - destruct (close_ok x cap (peer_closed x) _ Hwd (peer_closed_flag x)) as (_ & _ & Hset & _).
    by split_and!.
  - rewrite Hpc in Hcp. destruct e; [done|]. by destruct (has_flag _ (standby x)).
  - rewrite Hpc in Hcp. by destruct e.
  - by rewrite Hpc in Hcp.
Qed.
End closed.

(** A reader parked on an empty ring of capacity four, closed by its writer. *)
Definition parked_closed : wait_state :=
  Wait (Z.lor RX_STNDBY TX_CLOSED) (Some (AtLeast 1)) true false (Parked (AtLeast 1)) Quiet.

Lemma parked_open_reachable :
  wait_reachable Reading 4
    (Wait RX_STNDBY (Some (AtLeast 1)) true false (Parked (AtLeast 1)) Quiet).
Proof.
  unfold wait_reachable.
  assert (H1 : rtc (wait_step Reading 4) wait_init
                 (Wait 0 None false false (Failed (AtLeast 1)) Quiet)).
  { eapply rtc_r_eq; [reflexivity| |reflexivity].
    apply (w_fail Reading 4 wait_init); by vm_compute. }
  assert (H2 : rtc (wait_step Reading 4) wait_init
                 (Wait RX_STNDBY (Some (AtLeast 1)) false false (Armed (AtLeast 1)) Quiet)).
  { eapply rtc_r_eq; [eapply rtc_r_eq; [exact H1| |reflexivity]| |].
    - by apply w_set_demand.
    - by eapply w_arm.
    - by vm_compute. }
  assert (H3 : rtc (wait_step Reading 4) wait_init
                 (Wait RX_STNDBY (Some (AtLeast 1)) true false (Registered (AtLeast 1)) Quiet)).
  { eapply rtc_r_eq; [eapply rtc_r_eq; [exact H2| |reflexivity]| |].
    - apply (w_check Reading 4 _ (AtLeast 1) false); by vm_compute.
    - by eapply w_register.
    - done. }
  eapply rtc_r_eq; [exact H3| |].
  - apply (w_recheck Reading 4 _ (AtLeast 1) false); by vm_compute.
  - done.
Qed.

Lemma parked_closed_reachable : wait_reachable Reading 4 parked_closed.
Proof.
  eapply rtc_r_eq; [eapply rtc_r_eq; [eapply rtc_r_eq; [exact parked_open_reachable| |reflexivity]| |reflexivity]| |].
  - by apply p_close.
  - by eapply p_look.
  - eapply (p_check Reading 4 _ (PeerClose 0)); by vm_compute.
  - by vm_compute.
Qed.

(** ** Properties *)

(** C4: no lost wake-up while both ends are open.  In every interleaving of the
    waiter's steps (register the demand, arm, check, register the waker, check
    again) with the peer's (commit, read back the size, look at the flag, look at
    the demand, signal), a waiter that is parked and not woken while its peer
    has finished its commits is right to wait: what is available is below the
    lower bound of its demand. *)
Theorem no_lost_wakeup x cap s d :
  MIN_CAPACITY ≤ cap ≤ MAX_CAPACITY → wait_reachable x cap s →
  waiter s = Parked d → woken s = false → peer s = Quiet →
  has_flag (word s) TX_CLOSED = false → has_flag (word s) RX_CLOSED = false →
  can_stop x cap (word s) d = Ret false ∧ avail x cap (word s) < Z.max 1 (min_len d).
Proof.
  intros Hcap [Hwd _ Hwf _ _ _ _ Hpk]%wait_reachable_inv Hp Hw Hq Htx Hrx; [|done].
  specialize (Hpk d Hp Hw Hq Htx Hrx).
  destruct (Hwf d) as [Hd Hm]; [right; by rewrite Hp|].
  destruct (can_stop_total x cap (word s) d Hwd Hd Hm) as [[] Hb]; [done|].
  split; [done|].
  pose proof (can_stop_open x cap (word s) d false Hwd Hd Hm Htx Hrx Hb) as [_ H].
  destruct (Z.lt_ge_cases (avail x cap (word s)) (Z.max 1 (min_len d))) as [?|Hge]; [done|].
  by apply H in Hge.
Qed.

Lemma no_lost_wakeup_witness :
  avail Reading 4 0 < Z.max 1 (min_len (AtLeast 1)) ∧
  ∃ s, wait_reachable Reading 4 s ∧ waiter s = Parked (AtLeast 1) ∧
       avail Reading 4 (word s) < Z.max 1 (min_len (AtLeast 1)).
Proof.
  split; [reflexivity|].
  assert (Hr : wait_reachable Reading 4
    (Wait RX_STNDBY (Some (AtLeast 1)) true false (Parked (AtLeast 1)) Quiet))
    by apply parked_open_reachable.
  eexists. split; [exact Hr|]. split; [reflexivity|].
  refine (proj2 (no_lost_wakeup Reading 4 _ (AtLeast 1) _ Hr eq_refl eq_refl eq_refl
                   eq_refl eq_refl)).
  by vm_compute.
Defined.

(** Closing wakes nobody.  Once the peer has closed (and its events before the
    closing are over), a parked waiter stays parked and is never woken again,
    whatever the peer does next, unless its future is cancelled.  The witness is
    a reader of an empty ring whose writer has closed: an attempt to read would
    answer [Closing], but the reader is not woken to make it. *)
Theorem close_never_wakes x cap s s' d :
  MIN_CAPACITY ≤ cap ≤ MAX_CAPACITY → wait_reachable x cap s →
  has_flag (word s) (peer_closed x) = true →
  waiter s = Parked d → woken s = false → peer s = Quiet →
  rtc (λ a b, wait_step x cap a b ∧ waiter b ≠ Leaving d) s s' →
  waiter s' = Parked d ∧ woken s' = false.
Proof.
  intros Hcap Hr Hc Hp Hw Hq Hrtc.
  apply wait_reachable_inv in Hr; [|done].
  assert (closed_peer (peer s)) as Hcp by by rewrite Hq.
  clear Hq. induction Hrtc as [s|s s1 s2 [Hstep Hnl] _ IH]; [done|].
  destruct (closed_step x cap s s1 d Hr Hstep Hnl Hc Hp Hw Hcp) as (? & ? & ? & ?).
  apply IH; [|done..]. by eapply wait_inv_step.
Qed.

Lemma close_never_wakes_witness :
  can_stop Reading 4 (word parked_closed) (AtLeast 1) = Ret true ∧
  (∀ s', rtc (λ a b, wait_step Reading 4 a b ∧ waiter b ≠ Leaving (AtLeast 1))
           parked_closed s' → waiter s' = Parked (AtLeast 1)).
Proof.
  split; [reflexivity|]. intros s' Hr.
  refine (proj1 (close_never_wakes Reading 4 parked_closed s' (AtLeast 1)
                   _ parked_closed_reachable eq_refl eq_refl eq_refl eq_refl Hr)).
  by vm_compute.
Defined.
