(* ===== verification/CircSpsc.v ===== *)
(** * One producer and one consumer on the circular buffer

    The interleaving of a producer thread and a consumer thread on one ring
    ([crates/buffex/src/circular_buff/core_.rs], [reclaim_.rs], [spsc_.rs]): each
    thread lends a region from a load of the state word, moves items through its
    segment, and commits with a compare-exchange when the segment is dropped.
    Between any two steps of one thread the other may take any number of steps,
    so a region is used long after the load that granted it.

    The main results: the two live segments never share a slot, an item is never
    read before it was written, and the consumer obtains exactly the items the
    producer committed, in order. *)

From S2P Require Import Prelude Demand Atomex IoPos Segm CircEnds CircCore LiveSegm.

Section spsc.
Context {T : Type}.
Variable cap : Z.

(** The shared memory and state word, the segment each thread holds, and three
    histories: items committed by the producer, items put in its live segment,
    items taken by the consumer. *)
Record world : Type := World {
  mem : gmap Z T;
  word : Z;
  w_segm : option Recl.t;
  r_segm : option Recl.t;
  sent : list T;
  pending : list T;
  got : list T;
}.

Definition init_world : world := World ∅ 0 None None [] [] [].

Inductive step : world → world → Prop :=
(** [try_write_at] then [create_write_segm]. *)
| step_lend_write w d start take p :
    w_segm w = None → demand_wf d →
    try_write_at_word (word w) cap d = Ret (Ok (start, take)) →
    write_pieces cap start take = Ret p →
    step w (World (mem w) (word w) (Some (Recl.new p)) (r_segm w)
              (sent w) (pending w) (got w))
(** Items moved into the write segment. *)
| step_put w s xs mem' s' n :
    w_segm w = Some s →
    Recl.move_items_from_buff 2 (mem w) s xs = Some (Ret (mem', s', n)) →
    step w (World mem' (word w) (Some s') (r_segm w)
              (sent w) (pending w ++ take (Z.to_nat n) xs) (got w))
(** The write segment is dropped: [WriterReclaim] commits its offset. *)
| step_commit_write w s :
    w_segm w = Some s →
    step w (World (mem w)
              (update_pos_rmw (advance_write_word cap (Recl.offset_ s)) (word w)).2
              None (r_segm w) (sent w ++ pending w) [] (got w))
(** [try_read_at] then [create_read_segm]. *)
| step_lend_read w d start take :
    r_segm w = None → demand_wf d →
    try_read_at_word (word w) cap d = Ret (Ok (start, take)) →
    step w (World (mem w) (word w) (w_segm w)
              (Some (Recl.new (read_pieces cap start take)))
              (sent w) (pending w) (got w))
(** Items moved out of the read segment, into a buffer of [size] items. *)
| step_take w s size xs s' :
    r_segm w = Some s → 0 ≤ size →
    Recl.move_items_to_buff 2 (mem w) s size = Some (Ret (Some (xs, s'))) →
    step w (World (mem w) (word w) (w_segm w) (Some s')
              (sent w) (pending w) (got w ++ xs))
(** The read segment is dropped: [ReaderReclaim] commits its offset. *)
| step_commit_read w s :
    r_segm w = Some s →
    step w (World (mem w)
              (update_pos_rmw (advance_read_word cap (Recl.offset_ s)) (word w)).2
              (w_segm w) None (sent w) (pending w) (got w))
(** Closing, arming and disarming, by either thread. *)
| step_set_flag w f :
    is_state_flag f →
    step w (World (mem w) (set_flag_rmw f (word w)).2 (w_segm w) (r_segm w)
              (sent w) (pending w) (got w))
| step_standby w f :
    is_state_flag f →
    step w (World (mem w) (set_standby_rmw f (word w)).2 (w_segm w) (r_segm w)
              (sent w) (pending w) (got w))
| step_clear_flag w f :
    is_state_flag f →
    step w (World (mem w) (clear_flag_rmw f (word w)).2 (w_segm w) (r_segm w)
              (sent w) (pending w) (got w)).

Definition reachable (w : world) : Prop := rtc step init_world w.

(** ** Invariant *)

(** [R] and [W] are the counters the state word represents. *)
Record inv_at (R W : Z) (w : world) : Prop := {
  inv_word : is_usize (word w);
  inv_counters : counters cap R W;
  inv_repr : represents (unpack (word w) cap) R W;
  inv_sent : Z.of_nat (length (sent w)) = W;
  inv_writer :
    match w_segm w with
    | None => pending w = []
    | Some s => live_segm cap W (cap - (W - R)) (Z.of_nat (length (pending w))) s
    end;
  inv_reader :
    match r_segm w with
    | None => Z.of_nat (length (got w)) = R
    | Some s => R ≤ Z.of_nat (length (got w)) ∧
                live_segm cap R (W - R) (Z.of_nat (length (got w)) - R) s
    end;
  inv_content : content cap (mem w) R (sent w ++ pending w);
  inv_got : got w `prefix_of` sent w;
}.

Definition inv (w : world) : Prop := ∃ R W, inv_at R W w.

(** ** Preservation *)

Hypothesis Hcap : MIN_CAPACITY ≤ cap ≤ MAX_CAPACITY.

Local Lemma spsc_cap_pos : 0 < cap.
Proof. unfold MIN_CAPACITY in Hcap. lia. Qed.

Lemma word_pos R W s :
  counters cap R W → represents (unpack s cap) R W →
  pos_wf (unpack s cap) ∧ data_size (unpack s cap) = W - R ∧
  free_size (unpack s cap) = cap - (W - R).
Proof.
  intros Hc Hr.
  pose proof (represents_data_size (unpack s cap) R W Hcap Hc Hr) as Hd.
  split_and!; [by apply (represents_wf (unpack s cap) R W Hcap Hc Hr)|done|].
  unfold free_size. rewrite Hd. done.
Qed.

(** The grants of the two loads, in terms of the counters. *)
Lemma lend_write_grant R W s d start take :
  counters cap R W → represents (unpack s cap) R W → demand_wf d →
  try_write_at_word s cap d = Ret (Ok (start, take)) →
  start = W mod cap ∧ 0 < take ≤ cap - (W - R).
Proof.
  intros Hc Hr Hd Heq.
  destruct (word_pos _ _ _ Hc Hr) as (Hwf & Hds & Hfs).
  destruct (try_write_at_word_cases s cap d Hwf Hd) as [[? E]|[(? & ? & E)|(?&?&E)]];
    rewrite E in Heq; simplify_eq.
  rewrite Hfs in *. split; [apply Hr|lia].
Qed.

Lemma lend_read_grant R W s d start take :
  counters cap R W → represents (unpack s cap) R W → demand_wf d →
  try_read_at_word s cap d = Ret (Ok (start, take)) →
  start = R mod cap ∧ 0 < take ≤ W - R.
Proof.
  intros Hc Hr Hd Heq.
  destruct (word_pos _ _ _ Hc Hr) as (Hwf & Hds & Hfs).
  destruct (try_read_at_word_cases s cap d Hwf Hd)
    as [[? E]|[(? & ? & E)|[(?&?&?&E)|(?&?&?&E)]]];
    rewrite E in Heq; simplify_eq.
  rewrite Hds in *. split; [apply Hr|lia].
Qed.

(** A change of the flags only. *)
Lemma inv_at_word R W w s :
  inv_at R W w → is_usize s → unpack s cap = unpack (word w) cap →
  inv_at R W (World (mem w) s (w_segm w) (r_segm w) (sent w) (pending w) (got w)).
Proof. intros [] Hs Heq. constructor; simpl; try done. by rewrite Heq. Qed.

Lemma inv_at_lend_write R W w d start take p :
  inv_at R W w → w_segm w = None → demand_wf d →
  try_write_at_word (word w) cap d = Ret (Ok (start, take)) →
  write_pieces cap start take = Ret p →
  inv_at R W (World (mem w) (word w) (Some (Recl.new p)) (r_segm w)
                (sent w) (pending w) (got w)).
Proof.
  intros [Hw Hc Hr Hs Hwr Hrd Hct Hg] Hnone Hd Hgrant Hp.
  destruct (lend_write_grant _ _ _ _ _ _ Hc Hr Hd Hgrant) as [-> Ht].
  pose proof (Z.mod_pos_bound W cap spsc_cap_pos).
  pose proof Hc as [[? ?] ?].
  destruct (write_pieces_region cap (W mod cap) take) as (p' & Hp' & Hreg); [done|lia|].
  rewrite Hp in Hp'. injection Hp' as <-. rewrite Hnone in Hwr. constructor; simpl; try done.
  exists take. rewrite Hwr. simpl. split; [lia|]. split; [done|]. lia.
Qed.

Lemma inv_at_put R W w s xs mem' s' n :
  inv_at R W w → w_segm w = Some s →
  Recl.move_items_from_buff 2 (mem w) s xs = Some (Ret (mem', s', n)) →
  inv_at R W (World mem' (word w) (Some s') (r_segm w)
                (sent w) (pending w ++ take (Z.to_nat n) xs) (got w)).
Proof.
  intros [Hw Hc Hr Hs Hwr Hrd Hct Hg] Hsome Hmv. rewrite Hsome in Hwr. subst W.
  destruct Hc as [[? ?] ?].
  destruct (live_put cap spsc_cap_pos (mem w) s R (sent w) (pending w) _ xs mem' s' n
    ltac:(done) (Z.le_refl _) Hwr Hct Hmv) as [Hs' Hct'].
  by constructor.
Qed.

Lemma inv_at_commit_write R W w s :
  inv_at R W w → w_segm w = Some s →
  inv_at R (W + Z.of_nat (length (pending w)))
    (World (mem w) (update_pos_rmw (advance_write_word cap (Recl.offset_ s)) (word w)).2
       None (r_segm w) (sent w ++ pending w) [] (got w)).
Proof.
  intros [Hw Hc Hr Hs Hwr Hrd Hct Hg] Hsome. rewrite Hsome in Hwr.
  destruct (word_pos _ _ _ Hc Hr) as (Hpwf & Hds & Hfs).
  destruct Hwr as (take & Htk & Hreg & Ho & Hu). rewrite Ho.
  set (u := Z.of_nat (length (pending w))) in *.
  destruct (represents_advance_wp (unpack (word w) cap) R W Hcap Hc Hr u)
    as [Hc' Hr'].
  { rewrite Hfs. lia. }
  pose proof (represents_wf (advance_wp (unpack (word w) cap) u) _ _ Hcap Hc' Hr') as Hwf'.
  unfold update_pos_rmw, rmw, advance_write_word; simpl.
  constructor; simpl; try done.
  - eauto with cantare.
  - rewrite unpack_pack_fits; eauto with cantare.
  - rewrite length_app. lia.
  - destruct (r_segm w); [|done]. destruct Hrd. split; [done|].
    eapply live_segm_grow; [|done]. lia.
  - rewrite app_nil_r. intros i Hi. apply Hct. lia.
  - etrans; [done|]. by apply prefix_app_r.
Qed.

Lemma inv_at_lend_read R W w d start take :
  inv_at R W w → r_segm w = None → demand_wf d →
  try_read_at_word (word w) cap d = Ret (Ok (start, take)) →
  inv_at R W (World (mem w) (word w) (w_segm w)
                (Some (Recl.new (read_pieces cap start take)))
                (sent w) (pending w) (got w)).
Proof.
  intros [Hw Hc Hr Hs Hwr Hrd Hct Hg] Hnone Hd Hgrant.
  destruct (lend_read_grant _ _ _ _ _ _ Hc Hr Hd Hgrant) as [-> Ht].
  pose proof (Z.mod_pos_bound R cap spsc_cap_pos).
  rewrite Hnone in Hrd. constructor; simpl; try done. rewrite Hrd. split; [lia|].
  exists take. simpl. split; [lia|]. split; [|lia].
  apply read_pieces_region; [done|]. destruct Hc. lia.
Qed.

(** What a live read segment yields: the next items sent. *)
Lemma inv_at_take_exact R W w s size :
  inv_at R W w → r_segm w = Some s → 0 ≤ size →
  let n := Z.min (Recl.least_count s) size in
  Recl.move_items_to_buff 2 (mem w) s size =
    Some (Ret (Some (take (Z.to_nat n) (drop (length (got w)) (sent w)),
                     Recl.mk (Recl.pieces s) (Recl.offset_ s + n)))) ∧
  0 ≤ Recl.least_count s ∧
  Z.of_nat (length (got w)) + Recl.least_count s ≤ Z.of_nat (length (sent w)).
Proof.
  intros [Hw Hc Hr Hs Hwr Hrd Hct Hg] Hsome Hsz n. rewrite Hsome in Hrd. subst W.
  destruct Hrd as [HR Hrd], Hc as [[? ?] ?].
  apply (live_take cap spsc_cap_pos (mem w) s R (sent w) (pending w)); try done. lia.
Qed.

Lemma inv_at_take R W w s size xs s' :
  inv_at R W w → r_segm w = Some s → 0 ≤ size →
  Recl.move_items_to_buff 2 (mem w) s size = Some (Ret (Some (xs, s'))) →
  inv_at R W (World (mem w) (word w) (w_segm w) (Some s')
                (sent w) (pending w) (got w ++ xs)).
Proof.
  intros [Hw Hc Hr Hs Hwr Hrd Hct Hg] Hsome Hsz Hmv. rewrite Hsome in Hrd. subst W.
  destruct Hrd as [HR Hrd]. pose proof Hc as [[? ?] ?].
  destruct (live_take_step cap spsc_cap_pos (mem w) s R (sent w) (pending w) (got w) size xs s')
    as [Hs' Hg']; try done; [lia|].
  constructor; simpl; try done. split; [rewrite length_app; lia|done].
Qed.

Lemma inv_at_commit_read R W w s :
  inv_at R W w → r_segm w = Some s →
  inv_at (Z.of_nat (length (got w))) W
    (World (mem w) (update_pos_rmw (advance_read_word cap (Recl.offset_ s)) (word w)).2
       (w_segm w) None (sent w) (pending w) (got w)).
Proof.
  intros [Hw Hc Hr Hs Hwr Hrd Hct Hg] Hsome. rewrite Hsome in Hrd.
  destruct Hrd as [HR (take & Htk & Hreg & Ho & Hu)].
  destruct (word_pos _ _ _ Hc Hr) as (Hpwf & Hds & Hfs).
  rewrite Ho. set (u := Z.of_nat (length (got w)) - R) in *.
  destruct (represents_advance_rp (unpack (word w) cap) R W Hcap Hc Hr u)
    as [Hc' Hr'].
  { rewrite Hds. lia. }
  pose proof (represents_wf (advance_rp (unpack (word w) cap) u) _ _ Hcap Hc' Hr') as Hwf'.
  replace (R + u) with (Z.of_nat (length (got w))) in * by (unfold u; lia).
  unfold update_pos_rmw, rmw, advance_read_word; simpl.
  constructor; simpl; try done.
  - eauto with cantare.
  - rewrite unpack_pack_fits; eauto with cantare.
  - destruct (w_segm w); [|done]. eapply live_segm_grow; [|done]. lia.
  - intros i Hi. apply Hct. lia.
Qed.

Lemma inv_init : inv init_world.
Proof.
  exists 0, 0. pose proof spsc_cap_pos.
  constructor; cbn -[unpack]; try done; try (unfold counters; lia).
Qed.

Lemma inv_step w w' : step w w' → inv w → inv w'.
Proof.
  intros Hstep (R & W & Hinv). pose proof (inv_word _ _ _ Hinv) as Hus.
  destruct Hstep.
  - exists R, W. by eapply inv_at_lend_write.
  - exists R, W. by eapply inv_at_put.
  - eexists R, _. by apply inv_at_commit_write with (W := W).
  - exists R, W. by eapply inv_at_lend_read.
  - exists R, W. by eapply inv_at_take.
  - eexists _, W. by apply inv_at_commit_read with (R := R).
  - exists R, W. unfold set_flag_rmw, rmw.
    case_match; simpl; (apply inv_at_word; [done|..]); eauto using unpack_set_flag with cantare.
  - exists R, W. unfold set_standby_rmw, rmw; simpl.
    apply inv_at_word; eauto using unpack_set_flag with cantare.
  - exists R, W. unfold clear_flag_rmw, rmw.
    case_match; simpl; (apply inv_at_word; [done|..]); eauto using unpack_clear_flag with cantare.
Qed.

Lemma reachable_inv w : reachable w → inv w.
Proof.
  unfold reachable. intros Hr.
  assert (∀ a b, rtc step a b → inv a → inv b) as Hind.
  { induction 1; eauto using inv_step. }
  eapply Hind; [done|apply inv_init].
Qed.
End spsc.
Arguments World {T} _ _ _ _ _ _ _.
Arguments world : clear implicits.

(** A concrete run, used to exhibit reachable worlds: seven and eight are sent,
    seven is taken, and the ring of three slots lends its free slot while the
    read segment is live. *)
Definition demo : world Z :=
  World (Segm.store ∅ 0 [7; 8]) (pack (mkIoPos false 0 2 3) 0)
    (Some (Recl.new (Recl.One (Slice 2 1)))) (Some (Recl.mk (Recl.One (Slice 0 2)) 1))
    [7; 8] [] [7].

Lemma demo_reachable : reachable 3 demo.
Proof.
  set (m := Segm.store ∅ 0 [7; 8]). set (s := pack (mkIoPos false 0 2 3) 0).
  set (g2 := Some (Recl.new (Recl.One (Slice 2 1)))).
  assert (H1 : reachable 3 (World (∅ : gmap Z Z) 0 (Some (Recl.new (Recl.One (Slice 0 3)))) None [] [] [])).
  { eapply rtc_r_eq; [apply rtc_refl| |reflexivity].
    apply (step_lend_write 3 init_world (LessThan 3) 0 3 (Recl.One (Slice 0 3)));
      vm_compute; reflexivity || (split; congruence). }
  assert (H2 : reachable 3 (World m 0 (Some (Recl.mk (Recl.One (Slice 0 3)) 2)) None [] [7; 8] [])).
  { eapply rtc_r_eq; [exact H1| |].
    - eapply (step_put 3 _ _ [7; 8] m _ 2); [reflexivity|by vm_compute].
    - by vm_compute. }
  assert (H3 : reachable 3 (World m s None None [7; 8] [] [])).
  { eapply rtc_r_eq; [exact H2| |].
    - eapply (step_commit_write 3); reflexivity.
    - by vm_compute. }
  assert (H4 : reachable 3 (World m s g2 None [7; 8] [] [])).
  { eapply rtc_r_eq; [exact H3| |].
    - eapply (step_lend_write 3 _ (AtLeast 1) 2 1 (Recl.One (Slice 2 1))); by vm_compute.
    - done. }
  assert (H5 : reachable 3 (World m s g2 (Some (Recl.new (Recl.One (Slice 0 2)))) [7; 8] [] [])).
  { eapply rtc_r_eq; [exact H4| |].
    - eapply (step_lend_read 3 _ (AtLeast 1) 0 2); by vm_compute.
    - by vm_compute. }
  eapply rtc_r_eq; [exact H5| |].
  - eapply (step_take 3 _ _ 1 [7] (Recl.mk (Recl.One (Slice 0 2)) 1));
      [reflexivity|done|vm_compute; reflexivity].
  - done.
Qed.

(** ** Properties *)

(** C1: first in, first out.  However the two threads interleave, the items the
    consumer has taken are the first items the producer committed, in the same
    order and without loss or duplication, and at most the capacity of items is
    committed but not taken. *)
Theorem spsc_fifo {T} cap (w : world T) :
  MIN_CAPACITY ≤ cap ≤ MAX_CAPACITY → reachable cap w →
  got w `prefix_of` sent w ∧
  Z.of_nat (length (sent w)) - Z.of_nat (length (got w)) ≤ cap.
Proof.
  intros Hcap (R & W & [? [[??]?] ? Hs _ Hr _ Hg])%reachable_inv; [|done].
  split; [done|]. destruct (r_segm w); [destruct Hr|]; lia.
Qed.

Lemma spsc_fifo_witness :
  ∃ w : world Z, got w = [7] ∧ got w `prefix_of` sent w.
Proof.
  exists demo. split; [reflexivity|].
  refine (proj1 (spsc_fifo 3 demo _ demo_reachable)). by vm_compute.
Defined.

(** C2: exclusive access.  A live write segment and a live read segment never
    share a slot of the buffer, whatever happened between the two loads that
    granted them and whatever part of them is already used. *)
Theorem spsc_no_alias {T} cap (w : world T) s s' i j :
  MIN_CAPACITY ≤ cap ≤ MAX_CAPACITY → reachable cap w →
  w_segm w = Some s → r_segm w = Some s' →
  0 ≤ i < Recl.capacity s → 0 ≤ j < Recl.capacity s' →
  Recl.index (Recl.pieces s) i ≠ Recl.index (Recl.pieces s') j.
Proof.
  intros Hcap (R & W & [? [[??]?] ? _ Hw Hr _ _])%reachable_inv Hs Hs' Hi Hj; [|done].
  rewrite Hs in Hw. rewrite Hs' in Hr. destruct Hr as [_ Hr].
  unfold MIN_CAPACITY in Hcap. intros Heq. symmetry in Heq. revert Heq.
  by apply (live_disjoint cap ltac:(lia) _ _ _ _ _ _ _ _ Hr Hw); [lia..| |].
Qed.

Lemma spsc_no_alias_witness :
  Recl.index (Recl.One (Slice 2 1)) 0 ≠ Recl.index (Recl.One (Slice 0 2)) 1.
Proof.
  refine (spsc_no_alias 3 demo _ _ 0 1 _ demo_reachable eq_refl eq_refl _ _);
    by vm_compute.
Defined.

(** A read never fails and is exact.  In every reachable world, moving items
    out of the live read segment into a buffer of [size] items ends within two
    rounds, panics nowhere, reads no uninitialised slot, and yields precisely the
    next items sent that were not taken yet, as many as the segment and the
    buffer allow. *)
Theorem spsc_take_next {T} cap (w : world T) s size :
  MIN_CAPACITY ≤ cap ≤ MAX_CAPACITY → reachable cap w →
  r_segm w = Some s → 0 ≤ size →
  let n := Z.min (Recl.least_count s) size in
  Recl.move_items_to_buff 2 (mem w) s size =
    Some (Ret (Some (take (Z.to_nat n) (drop (length (got w)) (sent w)),
                     Recl.mk (Recl.pieces s) (Recl.offset_ s + n)))) ∧
  Z.of_nat (length (got w)) + n ≤ Z.of_nat (length (sent w)).
Proof.
  intros Hcap (R & W & Hinv)%reachable_inv Hs Hsize n; [|done].
  destruct (inv_at_take_exact cap Hcap R W w s size Hinv Hs Hsize) as (H1 & H2 & H3).
  split; [exact H1|lia].
Qed.

Lemma spsc_take_next_witness :
  Recl.move_items_to_buff 2 (mem demo) (Recl.mk (Recl.One (Slice 0 2)) 1) 5 =
    Some (Ret (Some ([8], Recl.mk (Recl.One (Slice 0 2)) 2))).
Proof.
  assert (Hcap : MIN_CAPACITY ≤ 3 ≤ MAX_CAPACITY) by by vm_compute.
  assert (H5 : 0 ≤ 5) by lia.
  exact (proj1 (spsc_take_next 3 demo _ 5 Hcap demo_reachable eq_refl H5)).
Defined.


