(* ===== verification/BuffIo.v ===== *)
(** * Buffers that lend segments: readers and writers

    Models the traits [TrBuffRead], [TrBuffWrite] and [TrBufferState]
    ([crates/abs_buff/src/reader_.rs], [writer_.rs], [buffer/state_.rs]), the
    default moves of [TrBuffSegmRef] / [TrBuffSegmMut] ([buffer/segm_.rs]) on
    the content of a segment, and the readers and writers that are plain byte
    slices ([slice_impl_.rs]).

    The traits are type classes with a class of laws each; the multipart codec
    ([MpEncode.v], [MpDecode.v]) is written against the first and proved against
    the second. *)

From S2P Require Import Prelude Demand CircEnds.

(** ** The traits *)

(** What [pick_left] and [pick_right] answer on a [SomeOf]. *)
Definition reply (A B : Type) : Type := option A * option B.

Class TrTaggedError (E Tag : Type) : Type := { err_tag : E → Tag }.

(** [read_async], awaited to its end: the reply lends the unconsumed bytes of a
    segment, one list per physical piece.  [drop_ref r n] is the drop of the
    segment last lent, of which [n] bytes were consumed. *)
Class TrBuffRead (R E : Type) : Type := {
  is_drained_closing : R → bool;
  read_async : R → Demand → R * reply (list (list Z)) E;
  drop_ref : R → Z → R;
}.

(** [write_async]: the reply lends the free room of a segment, one size per
    physical piece.  [drop_mut w bs] is the drop of the segment last lent, into
    which the bytes [bs] were moved. *)
Class TrBuffWrite (W E : Type) : Type := {
  is_stuffed_closing : W → bool;
  write_async : W → Demand → W * reply (list Z) E;
  drop_mut : W → list Z → W;
}.

Class TrBufferState (B : Type) : Type := {
  capacity : B → Z;
  data_size : B → Z;
  free_size : B → Z;
  is_producer_closed : B → bool;
  is_consumer_closed : B → bool;
}.

(** The answers of a cancellation token to [is_cancelled], one after the other. *)
Definition token : Type := list bool.
Definition is_cancelled (k : token) : bool := hd false k.

(** ** The default moves, on the content of a segment *)

Definition len (bs : list Z) : Z := Z.of_nat (length bs).

(** [least_count] of a segment to read and of a segment to write. *)
Definition ref_count (pieces : list (list Z)) : Z := len (concat pieces).
Definition mut_count (room : list Z) : Z := foldr Z.add 0 room.

(** [TrBuffSegmRef::move_items_to_buff] into a buffer of [size] bytes, piece by
    piece ([as_segm_ref] is the current piece): the bytes moved. *)
Fixpoint move_items_to_buff (pieces : list (list Z)) (size : Z) : list Z :=
  match pieces with
  | [] => []
  | piece :: rest =>
      let count := Z.min size (len piece) in
      take (Z.to_nat count) piece ++ move_items_to_buff rest (size - count)
  end.

(** [TrBuffSegmMut::move_items_from_buff]: the count moved. *)
Fixpoint move_items_from_buff (room : list Z) (size : Z) : Z :=
  match room with
  | [] => 0
  | piece :: rest =>
      let count := Z.min size piece in
      count + move_items_from_buff rest (size - count)
  end.

(** What is left of the room after a move of [n] bytes. *)
Fixpoint mut_advance (room : list Z) (n : Z) : list Z :=
  match room with
  | [] => []
  | piece :: rest =>
      if n <? piece then (piece - n) :: rest else mut_advance rest (n - piece)
  end.

(** ** Byte slices as readers and writers *)

(** [BorrowedSliceError]. *)
Inductive BorrowedSliceError (Tag : Type) : Type := Empty (tag : Tag).
Arguments Empty {Tag} tag.
#[export] Instance borrowed_tagged {Tag} : TrTaggedError (BorrowedSliceError Tag) Tag :=
  {| err_tag e := match e with Empty tag => tag end |}.

(** [BorrowedReadSegm] and [BorrowedWriteSegm]: the slice the segment was made
    on, the offset and the end; both flavours have the same bookkeeping. *)
Module Borrowed.

Record segm : Type := mk { src : list Z; offset : Z; end_ : Z }.

Definition with_limit (src : list Z) (max : option Z) : segm :=
  let len := len src in
  let end_ := match max with Some m => if m <? len then m else len | None => len end in
  mk src 0 end_.
Definition remaining (s : segm) : outcome (list Z) :=
  sub_slice (src s) (offset s) (end_ s).
Definition is_empty (s : segm) : outcome bool :=
  data ← remaining s; Ret (len data =? 0).
Definition least_count (s : segm) : outcome Z := data ← remaining s; Ret (len data).
Definition iter_slices (s : segm) : outcome (option (list Z)) :=
  data ← remaining s; Ret (if len data =? 0 then None else Some data).
Definition as_segm (s : segm) : outcome (list Z) := remaining s.
Definition take_segm (s : segm) (demand : Demand) : outcome (option (list Z)) :=
  let c := end_ s - offset s in
  if c =? 0 then Ret None
  else
    agreement ← compromise demand (less_than c);
    match agreement with
    | None => Ret None
    | Some agreement =>
        match max agreement with
        | None => Ret None
        | Some max_len => Some <$> sub_slice (src s) (offset s) (offset s + max_len)
        end
    end.

(** [advance_slice] of a slice reference. *)
Definition advance_slice (l : list Z) (amount : Z) : outcome (list Z) :=
  sub_slice l amount (len l).

(** The test that [read_async], [try_read], [write_async] and [try_write] make
    before they lend. *)
Definition lend (l : list Z) (demand : Demand) : option segm :=
  let len := len l in
  let min_len := default 0 (min demand) in
  if (len =? 0) || (len <? min_len) then None
  else Some (with_limit l (max demand)).
End Borrowed.

(** The writing flavour, by its own name. *)
Module BorrowedMut.
Definition segm : Type := Borrowed.segm.
Definition with_limit : list Z → option Z → segm := Borrowed.with_limit.
Definition remaining : segm → outcome (list Z) := Borrowed.remaining.
Definition is_empty : segm → outcome bool := Borrowed.is_empty.
Definition least_count : segm → outcome Z := Borrowed.least_count.
Definition iter_slices : segm → outcome (option (list Z)) := Borrowed.iter_slices.
Definition as_segm_mut : segm → outcome (list Z) := Borrowed.as_segm.
Definition take_segm_mut : segm → Demand → outcome (option (list Z)) := Borrowed.take_segm.
End BorrowedMut.

(** The pieces a borrowed segment lends; [remaining] is in range
    (see [lend_Some]). *)
Definition borrowed_pieces (s : Borrowed.segm) : list (list Z) :=
  match Borrowed.iter_slices s with Ret (Some data) => [data] | _ => [] end.

(** [impl TrBuffRead for &[u8]]: the reference moves past what was consumed. *)
Definition advanced (l : list Z) (amount : Z) : list Z :=
  match Borrowed.advance_slice l amount with Ret l => l | Panic => l end.
Definition slice_read (l : list Z) (d : Demand) :
    list Z * reply (list (list Z)) (BorrowedSliceError ReadErrTag) :=
  match Borrowed.lend l d with
  | None => (l, (None, Some (Empty RClosing)))
  | Some s => (l, (Some (borrowed_pieces s), None))
  end.
(** [try_read]: [ReadySegm] is ready at once, so both are the same. *)
Definition slice_try_read := slice_read.
#[export] Instance slice_reader : TrBuffRead (list Z) (BorrowedSliceError ReadErrTag) :=
  {| is_drained_closing l := len l =? 0;
     read_async := slice_read;
     drop_ref := advanced |}.

(** [impl TrBuffWrite for &mut [u8]]: [passed] are the bytes the reference has
    moved past, [rest] the ones it still covers. *)
Record slice_mut : Type := SliceMut { passed : list Z; rest : list Z }.
Definition slice_write (w : slice_mut) (d : Demand) :
    slice_mut * reply (list Z) (BorrowedSliceError WriteErrTag) :=
  match Borrowed.lend (rest w) d with
  | None => (w, (None, Some (Empty WClosing)))
  | Some s => (w, (Some (map len (borrowed_pieces s)), None))
  end.
Definition slice_try_write := slice_write.
Definition slice_drop_mut (w : slice_mut) (bs : list Z) : slice_mut :=
  SliceMut (passed w ++ bs) (advanced (list_inserts 0 bs (rest w)) (len bs)).
#[export] Instance slice_writer : TrBuffWrite slice_mut (BorrowedSliceError WriteErrTag) :=
  {| is_stuffed_closing w := len (rest w) =? 0;
     write_async := slice_write;
     drop_mut := slice_drop_mut |}.

(** ** Laws *)

(** [is_read_eof_] of the multipart codec ([multipart/mod.rs]). *)
Definition is_read_eof_ {E} `{TrTaggedError E ReadErrTag} (e : E) : bool :=
  match err_tag e with RClosing | RDrained => true | _ => false end.

(** A demand that a caller may make of a buffer, for at least one item. *)
Definition askable (d : Demand) : Prop := demand_wf d ∧ 1 ≤ max_len d.

(** The two answers of a [SomeOf] are never both empty ([read_answers],
    [write_answers]).

    A reader delivers one stream: [stream r] is what is still to come, whether it
    is in the buffer or yet to be written by the peer.  A segment lends a
    non-empty front of it; what an error means is left open ([Drained] may be
    temporary, a cancelled read of the ring is [Closing]).  [ok] is the invariant of
    the reader. *)
Class LawfulReader (R E : Type) `{TrBuffRead R E} `{TrTaggedError E ReadErrTag}
    (ok : R → Prop) (stream : R → list Z) : Prop := {
  read_answers r d : ok r → askable d → (read_async r d).2 ≠ (None, None);
  read_ok r d : ok r → askable d → ok (read_async r d).1;
  read_stream r d : ok r → askable d → stream (read_async r d).1 = stream r;
  read_lends r d pieces :
    ok r → askable d → (read_async r d).2.1 = Some pieces →
    concat pieces `prefix_of` stream r ∧ pieces ≠ [] ∧ Forall (.≠ []) pieces;
  drop_lent r d pieces n :
    ok r → askable d → (read_async r d).2.1 = Some pieces →
    0 ≤ n ≤ ref_count pieces →
    let r' := drop_ref (read_async r d).1 n in
    ok r' ∧ stream r' = drop (Z.to_nat n) (stream r);
}.

(** An error that the codec takes for the end of the stream is reported only when the
    demand cannot be met any more. *)
Class EofReader (R E : Type) `{TrBuffRead R E} `{TrTaggedError E ReadErrTag}
    (ok : R → Prop) (stream : R → list Z) : Prop := {
  read_eof r d e :
    ok r → askable d → (read_async r d).2.2 = Some e → is_read_eof_ e = true →
    (read_async r d).2.1 = None ∧ len (stream r) < Z.max 1 (min_len d);
}.

(** It lends no more than the upper bound of the demand, and no less than its
    lower bound, unless the stream ends before. *)
Class BoundedReader (R E : Type) `{TrBuffRead R E}
    (ok : R → Prop) (stream : R → list Z) : Prop := {
  read_bounds r d pieces :
    ok r → askable d → (read_async r d).2.1 = Some pieces →
    Z.min (min_len d) (len (stream r)) ≤ ref_count pieces ≤ max_len d;
}.

(** It fails only at the end of the stream. *)
Class LiveReader (R E : Type) `{TrBuffRead R E} `{TrTaggedError E ReadErrTag}
    (ok : R → Prop) : Prop := {
  read_live r d :
    ok r → askable d →
    match (read_async r d).2 with
    | (Some _, None) => True
    | (None, Some e) => is_read_eof_ e = true
    | _ => False
    end;
}.

(** Its size queries: what is buffered is a part of the stream, a reader that
    says it is drained has none left, and a read that was answered left something
    in the buffer. *)
Class LawfulSource (R E : Type) `{TrBuffRead R E} `{TrBufferState R}
    (ok : R → Prop) (stream : R → list Z) : Prop := {
  source_size r : ok r → 0 ≤ data_size r ≤ len (stream r);
  source_drained r :
    ok r → is_drained_closing r = true → data_size r = 0 → stream r = [];
  source_waited r d pieces :
    ok r → askable d → (read_async r d).2.1 = Some pieces →
    0 < data_size (drop_ref (read_async r d).1 0);
}.

(** A demand that a writer is able to grant: it insists on at most [grain] items.
    A ring waits for ever for more than its capacity. *)
Definition grantable (grain : Z) (d : Demand) : Prop := askable d ∧ min_len d ≤ grain.

(** A writer keeps what it is given, in order; a lent segment has room. *)
Class LawfulWriter (W E : Type) `{TrBuffWrite W E}
    (ok : W → Prop) (written : W → list Z) (grain : Z) : Prop := {
  write_answers w d : ok w → grantable grain d → (write_async w d).2 ≠ (None, None);
  write_ok w d : ok w → grantable grain d → ok (write_async w d).1;
  write_keeps w d : ok w → grantable grain d → written (write_async w d).1 = written w;
  write_lends w d room :
    ok w → grantable grain d → (write_async w d).2.1 = Some room →
    room ≠ [] ∧ Forall (Z.lt 0) room ∧ min_len d ≤ mut_count room;
  drop_written w d room bs :
    ok w → grantable grain d → (write_async w d).2.1 = Some room →
    len bs ≤ mut_count room →
    let w' := drop_mut (write_async w d).1 bs in
    ok w' ∧ written w' = written w ++ bs;
}.

(** It takes [n] more bytes without an error when [fits w n]. *)
Class LiveWriter (W E : Type) `{TrBuffWrite W E} (ok : W → Prop)
    (fits : W → Z → Prop) (grain : Z) : Prop := {
  write_live w d n :
    ok w → grantable grain d → fits w n → Z.max 1 (min_len d) ≤ n →
    ∃ room, (write_async w d).2 = (Some room, None);
  drop_fits w d n room bs :
    ok w → grantable grain d → fits w n → (write_async w d).2.1 = Some room →
    len bs ≤ mut_count room → len bs ≤ n →
    fits (drop_mut (write_async w d).1 bs) (n - len bs);
}.

(** ** Lemmas: segments *)

Lemma askable_at_least n : is_usize n → askable (at_least n).
Proof. intros Hn. by split. Qed.
Lemma askable_less_than n : 1 ≤ n ≤ USIZE_MAX → askable (less_than n).
Proof. intros Hn. split; [unfold less_than; simpl; unfold is_usize; lia|apply Hn]. Qed.
Lemma grantable_less_than grain n :
  0 ≤ grain → 1 ≤ n ≤ USIZE_MAX → grantable grain (less_than n).
Proof. intros Hg Hn. split; [by apply askable_less_than|done]. Qed.
Lemma grantable_at_least grain n : is_usize n → n ≤ grain → grantable grain (at_least n).
Proof. intros Hn Hg. split; [by apply askable_at_least|done]. Qed.
#[export] Hint Resolve askable_at_least askable_less_than : cantare.

Lemma len_nonneg bs : 0 ≤ len bs.
Proof. unfold len. lia. Qed.
Lemma len_app xs ys : len (xs ++ ys) = len xs + len ys.
Proof. unfold len. rewrite length_app. lia. Qed.
Lemma len_take n bs : 0 ≤ n ≤ len bs → len (take (Z.to_nat n) bs) = n.
Proof. unfold len. intros. rewrite length_take. lia. Qed.
Lemma len_drop n bs : 0 ≤ n ≤ len bs → len (drop (Z.to_nat n) bs) = len bs - n.
Proof. unfold len. intros. rewrite length_drop. lia. Qed.
Lemma len_prefix xs ys : xs `prefix_of` ys → len xs ≤ len ys.
Proof. intros [zs ->]. rewrite len_app. pose proof (len_nonneg zs). lia. Qed.
Lemma len_0 bs : len bs ≤ 0 → bs = [].
Proof. destruct bs; [done|]. unfold len. simpl. lia. Qed.
Lemma len_pos bs : bs ≠ [] → 0 < len bs.
Proof. destruct bs; [done|]. unfold len. simpl. lia. Qed.
#[export] Hint Resolve len_nonneg : cantare.

Lemma take_prefix_eq (xs ys : list Z) n :
  xs `prefix_of` ys → n ≤ len xs → take (Z.to_nat n) xs = take (Z.to_nat n) ys.
Proof. intros [zs ->] Hn. rewrite take_app_le; [done|]. unfold len in Hn. lia. Qed.

Lemma mut_count_nonneg room : Forall (Z.lt 0) room → 0 ≤ mut_count room.
Proof. induction 1; simpl; [done|]. lia. Qed.

Lemma move_from_buff_all room n :
  Forall (Z.lt 0) room → 0 ≤ n ≤ mut_count room → move_items_from_buff room n = n.
Proof.
  intros Hr. revert n. induction Hr as [|a r Ha Hr IH]; simpl; intros n Hn; [lia|].
  pose proof (mut_count_nonneg r Hr). destruct (Z.le_ge_cases n a).
  - rewrite Z.min_l, Z.sub_diag, IH by lia. lia.
  - rewrite Z.min_r, IH by (try fold (mut_count r) in Hn; lia). lia.
Qed.

Lemma mut_advance_head room n :
  Forall (Z.lt 0) room → 0 ≤ n ≤ hd 0 room →
  Forall (Z.lt 0) (mut_advance room n) ∧
  mut_count (mut_advance room n) = mut_count room - n.
Proof.
  intros Hr Hn. destruct Hr as [|a r Ha Hr]; simpl in *; [split; [done|lia]|].
  destruct (Z.ltb_spec n a); [split; [constructor; [lia|done]|simpl; lia]|].
  assert (n = a) as -> by lia. rewrite Z.sub_diag. destruct Hr as [|b r Hb Hr]; simpl.
  - split; [done|lia].
  - rewrite (proj2 (Z.ltb_lt 0 b)) by done. rewrite Z.sub_0_r.
    split; [by constructor|simpl; lia].
Qed.

(** A move out of a segment takes the front of its bytes. *)
Lemma move_to_buff_take pieces n :
  0 ≤ n → move_items_to_buff pieces n = take (Z.to_nat n) (concat pieces).
Proof.
  revert n. induction pieces as [|p r IH]; intros n Hn; simpl; [by rewrite take_nil|].
  destruct (Z.le_ge_cases n (len p)).
  - rewrite Z.min_l, Z.sub_diag, IH by lia. rewrite take_0, app_nil_r.
    unfold len in *. by rewrite take_app_le by lia.
  - rewrite Z.min_r, IH by lia. unfold len in *. rewrite Nat2Z.id, firstn_all.
    rewrite take_app_ge by lia. do 2 f_equal. lia.
Qed.

(** ** Byte slices meet the laws *)

(** A segment made by [with_limit] stays within the slice. *)
Lemma lend_Some l d s :
  Borrowed.lend l d = Some s → len l ≤ USIZE_MAX →
  l ≠ [] ∧ min_len d ≤ len l ∧
  (1 ≤ max_len d → borrowed_pieces s = [take (Z.to_nat (max_len d)) l]).
Proof.
  unfold Borrowed.lend. fold (min_len d). intros Hs Hlen.
  destruct ((len l =? 0) || (len l <? min_len d)) eqn:E; [done|].
  apply orb_false_iff in E as [?%Z.eqb_neq ?%Z.ltb_ge]. injection Hs as <-.
  assert (Hl : l ≠ []) by (intros ->; done). split; [done|]. split; [done|].
  intros Hmax. unfold borrowed_pieces, Borrowed.iter_slices, Borrowed.remaining,
    Borrowed.with_limit. simpl.
  set (e := match max d with Some m => if m <? len l then m else len l | None => len l end).
  assert (He : 1 ≤ e ≤ len l ∧ take (Z.to_nat e) l = take (Z.to_nat (max_len d)) l).
  { pose proof (len_pos l Hl) as Hp. unfold e, max_len in *.
    assert (Hall : ∀ m, len l ≤ m → take (Z.to_nat (len l)) l = take (Z.to_nat m) l).
    { unfold len. intros. by rewrite !take_ge by lia. }
    destruct (max d) as [m|]; simpl in *; [|split; [lia|by apply Hall]].
    destruct (Z.ltb_spec m (len l)); split; (done || lia || by apply Hall). }
  destruct He as [Hr <-]. rewrite sub_slice_Ret by (unfold len in *; lia). simpl.
  rewrite drop_0, Z.sub_0_r, len_take by lia.
  by destruct (Z.eqb_spec e 0); [lia|].
Qed.

Lemma lend_None l d :
  Borrowed.lend l d = None → len l < Z.max 1 (min_len d).
Proof.
  unfold Borrowed.lend. fold (min_len d).
  destruct ((len l =? 0) || (len l <? min_len d)) eqn:E; [|done].
  intros _. apply orb_true_iff in E as [?%Z.eqb_eq|?%Z.ltb_lt]; lia.
Qed.

Lemma advanced_drop l n : 0 ≤ n ≤ len l → advanced l n = drop (Z.to_nat n) l.
Proof.
  intros Hn. unfold advanced, Borrowed.advance_slice.
  rewrite sub_slice_Ret by (unfold len in *; lia).
  by rewrite take_ge by (rewrite length_drop; unfold len in *; lia).
Qed.

Definition slice_ok (l : list Z) : Prop := len l ≤ USIZE_MAX.

Lemma take_max_nonempty (l : list Z) m : l ≠ [] → 1 ≤ m → take (Z.to_nat m) l ≠ [].
Proof.
  intros Hl Hm. destruct l as [|x l]; [done|].
  destruct (Z.to_nat m) eqn:E; [lia|done].
Qed.

#[export] Instance slice_reader_lawful :
  LawfulReader (list Z) (BorrowedSliceError ReadErrTag) slice_ok id.
Proof.
  constructor; simpl; unfold slice_read; intros r d.
  - by destruct (Borrowed.lend r d).
  - by destruct (Borrowed.lend r d).
  - by destruct (Borrowed.lend r d).
  - intros pieces Hok [_ Hm]. destruct (Borrowed.lend r d) eqn:E; [|done]. intros [= <-].
    destruct (lend_Some _ _ _ E Hok) as (Hl & _ & ->); [|done]. simpl. rewrite app_nil_r.
    split; [exists (drop (Z.to_nat (max_len d)) r); by rewrite take_drop|].
    split; [done|]. repeat constructor. by apply take_max_nonempty.
  - intros pieces n Hok [_ Hm]. destruct (Borrowed.lend r d) eqn:E; [|done].
    intros [= <-] Hn. simpl.
    destruct (lend_Some _ _ _ E Hok) as (Hl & _ & Hp).
    rewrite Hp in Hn by done. unfold ref_count in Hn. simpl in Hn.
    rewrite app_nil_r in Hn. unfold len in Hn. rewrite length_take in Hn.
    assert (n ≤ len r) by (unfold len; lia).
    unfold slice_ok in *. rewrite advanced_drop by lia.
    split; [|done]. rewrite len_drop by lia. lia.
Qed.

#[export] Instance slice_reader_eof :
  EofReader (list Z) (BorrowedSliceError ReadErrTag) slice_ok id.
Proof.
  constructor; simpl; unfold slice_read; intros r d e _ _.
  destruct (Borrowed.lend r d) eqn:E; [done|]. intros [= <-] _. simpl.
  split; [done|]. by apply lend_None.
Qed.

#[export] Instance slice_reader_bounded :
  BoundedReader (list Z) (BorrowedSliceError ReadErrTag) slice_ok id.
Proof.
  constructor. simpl. unfold slice_read. intros r d pieces Hok [Hwf Hm].
  destruct (Borrowed.lend r d) eqn:E; [|done]. intros [= <-].
  destruct (lend_Some _ _ _ E Hok) as (Hl & Hmin & ->); [|done].
  pose proof (min_max_len d Hwf).
  unfold ref_count. simpl. rewrite app_nil_r. unfold len in *.
  rewrite length_take. lia.
Qed.

#[export] Instance slice_reader_live :
  LiveReader (list Z) (BorrowedSliceError ReadErrTag) slice_ok.
Proof.
  constructor. simpl. unfold slice_read. intros r d _ _.
  by destruct (Borrowed.lend r d).
Qed.

Definition slice_mut_ok (w : slice_mut) : Prop := len (rest w) ≤ USIZE_MAX.

#[export] Instance slice_writer_lawful grain :
  LawfulWriter slice_mut (BorrowedSliceError WriteErrTag) slice_mut_ok passed grain.
Proof.
  constructor; simpl; unfold slice_write; intros w d.
  - by destruct (Borrowed.lend (rest w) d).
  - by destruct (Borrowed.lend (rest w) d).
  - by destruct (Borrowed.lend (rest w) d).
  - intros room Hok [[Hwf Hm] _]. destruct (Borrowed.lend (rest w) d) eqn:E; [|done].
    intros [= <-]. pose proof (min_max_len d Hwf).
    destruct (lend_Some _ _ _ E Hok) as (Hl & Hmin & ->); [|done]. simpl.
    set (t := take _ _). assert (t ≠ []) as Ht by by apply take_max_nonempty.
    split; [done|]. split; [constructor; [by apply len_pos|done]|].
    unfold t, len in *. rewrite length_take. lia.
  - intros room bs Hok [[_ Hm] _]. destruct (Borrowed.lend (rest w) d) eqn:E; [|done].
    intros [= <-] Hlen. simpl in *.
    destruct (lend_Some _ _ _ E Hok) as (Hl & _ & Hp).
    rewrite Hp in Hlen by done. simpl in Hlen. unfold len in Hlen at 2.
    rewrite length_take in Hlen.
    split; [|done]. unfold slice_mut_ok, slice_drop_mut in *. simpl.
    rewrite advanced_drop by (unfold len in *; rewrite length_inserts; lia).
    unfold len in *. rewrite length_drop, length_inserts. lia.
Qed.

#[export] Instance slice_writer_live grain :
  LiveWriter slice_mut (BorrowedSliceError WriteErrTag) slice_mut_ok
    (λ w n, n ≤ len (rest w)) grain.
Proof.
  constructor; simpl; unfold slice_write; intros w d n.
  - intros Hok _ Hfit Hmin. destruct (Borrowed.lend (rest w) d) eqn:E; [by eexists|].
    apply lend_None in E. lia.
  - intros room bs Hok _ Hfit. destruct (Borrowed.lend (rest w) d) eqn:E; [|done].
    intros [= <-] Hlen Hn. simpl in *.
    rewrite advanced_drop by (unfold len in *; rewrite length_inserts; lia).
    unfold len in *. rewrite length_drop, length_inserts. lia.
Qed.
