(* ===== verification/MpEncode.v ===== *)
(** * The multipart encoder

    Models the prefixes and [multipart_send_async_] of
    [crates/abs_buff_utils/src/multipart] ([prefix.rs], [encode_.rs]): a byte
    stream is cut into chunks, each sent after its length, and a zero length ends
    the stream.  [usize] has 8 bytes. *)

From S2P Require Import Prelude Demand CircEnds BuffIo.

(** ** Prefixes *)

Inductive Prefix : Type := U8Prefix | U16Prefix | U32Prefix.
Definition BITS (P : Prefix) : Z :=
  match P with U8Prefix => 8 | U16Prefix => 16 | U32Prefix => 32 end.
Definition PREFIX_LEN (P : Prefix) : Z := BITS P / 8.
Definition PREFIX_MAX (P : Prefix) : Z := Z.shiftl 1 (BITS P).

(** ** The encoder *)

(** [EncodeError]. *)
Inductive EncodeError (RE WE : Type) : Type :=
| Source (e : RE)
| Target (e : WE)
| Invalid
| Cancelled.
Arguments Source {RE WE} e.
Arguments Target {RE WE} e.
Arguments Invalid {RE WE}.
Arguments Cancelled {RE WE}.

Section encode.
Context {R RE W WE : Type} `{TrBuffRead R RE} `{TrBufferState R}
  `{TrTaggedError RE ReadErrTag} `{TrBuffWrite W WE}.
Variable P : Prefix.

(** [MultipartEncode]: the source and the target. *)
Record MultipartEncode : Type := mkEncode { source_ : R; target_ : W }.
Implicit Types en : MultipartEncode.

(** What [multipart_send_async_] returns, a [SomeOf<usize, EncodeError>]. *)
Definition sent : Type := reply Z (EncodeError RE WE).
Definition new_left (c : Z) : sent := (Some c, None).
Definition new_both (c : Z) (e : EncodeError RE WE) : sent := (Some c, Some e).

(** A part of the loop: it returns from the function or goes on with [a]. *)
Inductive flow (A : Type) : Type :=
| Stop (en : MultipartEncode) (r : sent)
| Next (a : A).
Arguments Stop {A} en r.
Arguments Next {A} a.

(** [write_zero_prefix_async_]: the target and the error, if any. *)
Definition write_zero_prefix_async_ (tgt : W) : exec (W * option WE) :=
  let '(tgt, (left_, right_)) := write_async tgt (at_least (PREFIX_LEN P)) in
  match left_ with
  | Some room =>
      let zero_bytes := take (Z.to_nat (PREFIX_LEN P)) (to_be_bytes 8 0) in
      let moved := move_items_from_buff room (len zero_bytes) in
      if moved =? PREFIX_LEN P then
        Done (drop_mut tgt (take (Z.to_nat moved) zero_bytes), None)
      else Aborted
  | None => Done (tgt, right_)
  end.

(** The end of the stream: the zero prefix, then the result. *)
Definition send_eof en (c : Z) : exec (MultipartEncode * sent) :=
  '(tgt, err) ← write_zero_prefix_async_ (target_ en);
  let en := mkEncode (source_ en) tgt in
  match err with
  | Some e => Done (en, new_both c (Target e))
  | None => Done (en, new_left c)
  end.

(** The length prefix of a chunk of [size] bytes. *)
Definition send_prefix en (c size : Z) : exec (flow MultipartEncode) :=
  let '(tgt, (left_, right_)) := write_async (target_ en) (at_least (PREFIX_LEN P)) in
  tgt ← match left_ with
        | Some room =>
            let be := to_be_bytes 8 size in
            let prefix_src := drop (Z.to_nat (8 - PREFIX_LEN P)) be in
            let moved := move_items_from_buff room (len prefix_src) in
            if moved =? PREFIX_LEN P then
              Done (drop_mut tgt (take (Z.to_nat moved) prefix_src))
            else Aborted
        | None => Done tgt
        end;
  let en := mkEncode (source_ en) tgt in
  match right_ with
  | Some e => Done (Stop en (new_both c (Target e)))
  | None => Done (Next en)
  end.

(** The loop that fills one segment of the target: [room] is what is left of the
    segment, [out] the bytes moved into it so far. *)
Fixpoint fill_segm (fuel : nat) (src : R) (tgt : W) (room : list Z) (out : list Z)
    (c cc size : Z) : exec (flow (MultipartEncode * Z * Z)) :=
  match fuel with
  | O => OutOfFuel
  | S fuel =>
      if negb ((0 <? mut_count room) && (cc <? size)) then
        Done (Next (mkEncode src (drop_mut tgt out), c, cc))
      else
        let '(src, (left_, right_)) :=
          read_async src (less_than (Z.min (mut_count room) (size - cc))) in
        match left_ with
        | Some pieces =>
            let src_child := hd [] pieces in
            let tgt_child := hd 0 room in
            let moved := Z.min (len src_child) tgt_child in
            if 0 <? moved then
              fill_segm fuel (drop_ref src moved) tgt (mut_advance room moved)
                (out ++ take (Z.to_nat moved) src_child) (c + moved) (cc + moved) size
            else Aborted
        | None =>
            match right_ with
            | Some e =>
                Done (Stop (mkEncode src (drop_mut tgt out))
                  (new_both c (if is_read_eof_ e then Invalid else Source e)))
            | None => fill_segm fuel src tgt room out c cc size
            end
        end
  end.

(** The payload of one chunk, segment after segment of the target. *)
Fixpoint send_payload (fuel : nat) en (c cc size : Z) : exec (flow (MultipartEncode * Z)) :=
  match fuel with
  | O => OutOfFuel
  | S fuel =>
      if negb (cc <? size) then Done (Next (en, c))
      else
        let '(tgt, (left_, right_)) := write_async (target_ en) (at_least 1) in
        x ← match left_ with
            | Some room => fill_segm fuel (source_ en) tgt room [] c cc size
            | None => Done (Next (mkEncode (source_ en) tgt, c, cc))
            end;
        match x with
        | Stop en r => Done (Stop en r)
        | Next (en, c, cc) =>
            match right_ with
            | Some e => Done (Stop en (new_both c (Target e)))
            | None => send_payload fuel en c cc size
            end
        end
  end.

(** [multipart_send_async_], from the loop on; [c] counts the payload sent. *)
Fixpoint send_loop (fuel : nat) en (k : token) (c : Z) : exec (MultipartEncode * sent) :=
  match fuel with
  | O => OutOfFuel
  | S fuel =>
      if is_cancelled k then Done (en, new_left c)
      else
        let k := tl k in
        let avail := data_size (source_ en) in
        if avail =? 0 then
          if is_drained_closing (source_ en) then send_eof en c
          else
            let '(src, (left_, right_)) := read_async (source_ en) (at_least 1) in
            let src := match left_ with Some _ => drop_ref src 0 | None => src end in
            let en := mkEncode src (target_ en) in
            match right_ with
            | Some e =>
                if is_read_eof_ e then send_eof en c
                else Done (en, new_both c (Source e))
            | None => send_loop fuel en k c
            end
        else
          let size := Z.min avail (PREFIX_MAX P - 1) in
          if 0 <? size then
            x ← send_prefix en c size;
            match x with
            | Stop en r => Done (en, r)
            | Next en =>
                x ← send_payload fuel en c 0 size;
                match x with
                | Stop en r => Done (en, r)
                | Next (en, c) => send_loop fuel en k c
                end
            end
          else Aborted
  end.
Definition multipart_send_async_ (fuel : nat) en (k : token) :=
  send_loop fuel en k 0.
End encode.
Arguments MultipartEncode : clear implicits.
Arguments Stop {R RE W WE A} en r.
Arguments Next {R RE W WE A} a.

(** ** The wire format *)

(** The big-endian length, a chunk with its length, and the end of the stream. *)
Definition be_prefix (P : Prefix) (size : Z) : list Z :=
  to_be_bytes (Z.to_nat (PREFIX_LEN P)) size.
Definition wire (P : Prefix) (chunk : list Z) : list Z :=
  be_prefix P (len chunk) ++ chunk.
Definition wire_all (P : Prefix) (chunks : list (list Z)) : list Z :=
  concat (map (wire P) chunks).
Definition wire_eof (P : Prefix) : list Z := be_prefix P 0.
Definition chunk_ok (P : Prefix) (chunk : list Z) : Prop :=
  1 ≤ len chunk ≤ PREFIX_MAX P - 1.

Lemma prefix_len_range P : 1 ≤ PREFIX_LEN P ≤ 4.
Proof. by destruct P. Qed.
Lemma prefix_max_range P : 256 ≤ PREFIX_MAX P ≤ 4294967296.
Proof. by destruct P. Qed.
Lemma prefix_max_pow P : PREFIX_MAX P = 256 ^ Z.of_nat (Z.to_nat (PREFIX_LEN P)).
Proof. by destruct P. Qed.
Lemma len_be_prefix P n : len (be_prefix P n) = PREFIX_LEN P.
Proof.
  unfold len, be_prefix. rewrite length_to_be_bytes. pose proof (prefix_len_range P). lia.
Qed.

(** The bytes the code writes are the prefix. *)
Lemma be_tail P n : drop (Z.to_nat (8 - PREFIX_LEN P)) (to_be_bytes 8 n) = be_prefix P n.
Proof. by destruct P. Qed.
Lemma askable_prefix P : askable (at_least (PREFIX_LEN P)).
Proof. apply askable_at_least. pose proof (prefix_len_range P). unfold is_usize, USIZE_MAX. lia. Qed.
Lemma askable_one : askable (at_least 1).
Proof. by apply askable_at_least. Qed.

Lemma be_zero P : take (Z.to_nat (PREFIX_LEN P)) (to_be_bytes 8 0) = wire_eof P.
Proof. by destruct P. Qed.

Lemma wire_all_app P xs ys : wire_all P (xs ++ ys) = wire_all P xs ++ wire_all P ys.
Proof. unfold wire_all. by rewrite map_app, concat_app. Qed.

(** ** What each part of the encoder moves *)

Section sound.
Context {R RE W WE : Type} `{TrBuffRead R RE} `{TrBufferState R}
  `{TrTaggedError RE ReadErrTag} `{TrBuffWrite W WE}.
Context (rok : R → Prop) (stream : R → list Z) (wok : W → Prop) (written : W → list Z)
  (grain : Z).
Context `{!LawfulReader R RE rok stream, !BoundedReader R RE rok stream,
  !LawfulSource R RE rok stream, !LawfulWriter W WE wok written grain}.
Variable P : Prefix.
Context (Hgrain : PREFIX_LEN P ≤ grain).
Implicit Types en : MultipartEncode R W.

(** From [en] to [en'], [payload] has left the source and [bytes] have reached the
    target. *)
Record moved en en' (payload bytes : list Z) : Prop := {
  moved_rok : rok (source_ en');
  moved_wok : wok (target_ en');
  moved_stream : stream (source_ en) = payload ++ stream (source_ en');
  moved_written : written (target_ en') = written (target_ en) ++ bytes;
}.
Definition enc_ok en : Prop := rok (source_ en) ∧ wok (target_ en).

Lemma moved_refl en : enc_ok en → moved en en [] [].
Proof. intros []. constructor; rewrite ?app_nil_r; done. Qed.

Lemma moved_ok en en' p b : moved en en' p b → enc_ok en'.
Proof. intros []. by split. Qed.

Lemma moved_trans en1 en2 en3 p q b c :
  moved en1 en2 p b → moved en2 en3 q c → moved en1 en3 (p ++ q) (b ++ c).
Proof.
  intros [? ? Hs Hw] [? ? Hs' Hw']. constructor; [done|done|..].
  - by rewrite Hs, Hs', app_assoc.
  - by rewrite Hw', Hw, app_assoc.
Qed.

(** What the encoder asks of its target. *)
Lemma ask_prefix : grantable grain (at_least (PREFIX_LEN P)).
Proof using Hgrain.
  apply grantable_at_least; [|done]. pose proof (prefix_len_range P).
  unfold is_usize, USIZE_MAX. lia.
Qed.
Lemma ask_one : grantable grain (at_least 1).
Proof using Hgrain.
  pose proof (prefix_len_range P). by apply grantable_at_least; [|lia].
Qed.

(** Writing a prefix into one segment. *)
Lemma write_prefix tgt n room :
  wok tgt → (write_async tgt (at_least (PREFIX_LEN P))).2.1 = Some room →
  let tgt' := drop_mut (write_async tgt (at_least (PREFIX_LEN P))).1 (be_prefix P n) in
  move_items_from_buff room (len (be_prefix P n)) = PREFIX_LEN P ∧
  take (Z.to_nat (PREFIX_LEN P)) (be_prefix P n) = be_prefix P n ∧
  wok tgt' ∧ written tgt' = written tgt ++ be_prefix P n.
Proof.
  intros Hok Hroom. pose proof (prefix_len_range P) as Hp.
  pose proof (len_be_prefix P n) as Hlen.
  pose proof ask_prefix as Hmax.
  destruct (write_lends tgt _ room Hok Hmax Hroom) as (_ & Hpos & Hr).
  unfold min_len in Hr. simpl in Hr.
  destruct (drop_written tgt _ room (be_prefix P n) Hok Hmax Hroom) as [Hok' Hw]; [lia|].
  split; [rewrite Hlen; apply move_from_buff_all; [done|lia]|].
  split; [apply take_ge; unfold len in Hlen; lia|]. by split.
Qed.

Lemma write_zero_prefix_spec en :
  enc_ok en →
  safe (write_zero_prefix_async_ (WE:=WE) P (target_ en)) (λ '(tgt, err),
    moved en (mkEncode (source_ en) tgt) []
      (match err with Some _ => [] | None => wire_eof P end)).
Proof.
  intros [Hr Hw]. unfold write_zero_prefix_async_. rewrite be_zero. unfold wire_eof.
  pose proof (write_ok (target_ en) (at_least (PREFIX_LEN P)) Hw ask_prefix) as Hok.
  pose proof (write_keeps (target_ en) (at_least (PREFIX_LEN P)) Hw ask_prefix) as Hkeep.
  pose proof (write_answers (target_ en) (at_least (PREFIX_LEN P)) Hw ask_prefix) as Hans.
  pose proof (write_prefix (target_ en) 0) as Hwh.
  destruct (write_async _ _) as [tgt [[room|] [e|]]]; simpl in *; try done.
  3: by constructor; rewrite ?app_nil_r.
  all: destruct (Hwh room) as (-> & Ht & Hok' & Hw'); [done..|];
    rewrite Z.eqb_refl; simpl; rewrite Ht; by constructor.
Qed.

Lemma send_prefix_spec en c size :
  enc_ok en →
  safe (send_prefix (RE:=RE) (WE:=WE) P en c size) (λ x,
    match x with
    | Next en' => moved en en' [] (be_prefix P size)
    | Stop en' r =>
        ∃ e bytes, r = (Some c, Some e) ∧ moved en en' [] bytes ∧
          (bytes = [] ∨ bytes = be_prefix P size)
    end).
Proof.
  intros [Hr Hw]. unfold send_prefix. rewrite be_tail.
  pose proof (write_ok (target_ en) (at_least (PREFIX_LEN P)) Hw ask_prefix) as Hok.
  pose proof (write_keeps (target_ en) (at_least (PREFIX_LEN P)) Hw ask_prefix) as Hkeep.
  pose proof (write_answers (target_ en) (at_least (PREFIX_LEN P)) Hw ask_prefix) as Hans.
  pose proof (write_prefix (target_ en) size) as Hwh.
  destruct (write_async _ _) as [tgt [[room|] right_]]; simpl in *.
  - destruct (Hwh room) as (-> & Ht & Hok' & Hw'); [done..|].
    rewrite Z.eqb_refl. simpl. rewrite Ht. destruct right_ as [e|]; simpl.
    + eexists _, (be_prefix P size). split; [done|]. split; [by constructor|by right].
    + by constructor.
  - destruct right_ as [e|]; [|done]. simpl.
    eexists _, []. split; [done|]. split; [|by left].
    constructor; simpl; rewrite ?app_nil_r; done.
Qed.

(** One read of the fill loop. *)
Lemma fill_read src n pieces room :
  rok src → 1 ≤ n ≤ USIZE_MAX → (read_async src (less_than n)).2.1 = Some pieces →
  Forall (Z.lt 0) room → 0 < mut_count room →
  let child := hd [] pieces in
  let m := Z.min (len child) (hd 0 room) in
  let src' := drop_ref (read_async src (less_than n)).1 m in
  0 < m ≤ n ∧ m ≤ hd 0 room ∧ rok src' ∧
  stream src = take (Z.to_nat m) child ++ stream src'.
Proof.
  intros Hok Hn Hp Hroom Hcount.
  pose proof (askable_less_than n ltac:(lia)) as Hmax.
  destruct (read_lends src _ pieces Hok Hmax Hp) as (Hpre & Hne & Hpos).
  pose proof (read_bounds src _ pieces Hok Hmax Hp) as Hb.
  destruct pieces as [|child pieces]; [done|]. simpl in Hpre.
  apply Forall_cons in Hpos as [Hc _].
  destruct room as [|a room]; simpl in Hcount; [done|].
  apply Forall_cons in Hroom as [Ha _]. intros child0 m src'. simpl in child0, m.
  pose proof (len_pos child Hc) as Hlc. subst child0.
  assert (Hcount' : len child ≤ ref_count (child :: pieces)).
  { unfold ref_count. simpl. rewrite len_app. pose proof (len_nonneg (concat pieces)). lia. }
  assert (Hn' : ref_count (child :: pieces) ≤ n).
  { unfold max_len, min_len in Hb. simpl in Hb. apply Hb. }
  destruct (drop_lent src _ _ m Hok Hmax Hp) as [Hok' Hs]; [lia|].
  split; [lia|]. split; [simpl; lia|]. split; [done|].
  unfold src'. rewrite Hs.
  assert (child `prefix_of` stream src) by (etrans; [by eexists|exact Hpre]).
  rewrite (take_prefix_eq child (stream src)) by (done || lia).
  by rewrite take_drop.
Qed.

(** The common part of the two outcomes of a loop that moves payload: [p] has been
    moved on top of [out]. *)
Definition payload_moved en (out : list Z) (c cc size : Z)
    (x : flow (R:=R) (RE:=RE) (W:=W) (WE:=WE) (MultipartEncode R W * Z * Z)) : Prop :=
  match x with
  | Next (en', c', cc') =>
      ∃ p, moved en en' p (out ++ p) ∧ c' = c + len p ∧ cc' = cc + len p ∧ cc' ≤ size
  | Stop en' r =>
      ∃ p e, moved en en' p (out ++ p) ∧ r = (Some (c + len p), Some e) ∧
        cc + len p ≤ size
  end.

Lemma payload_moved_step src src' tgt t out c cc size x :
  stream src = t ++ stream src' →
  payload_moved (mkEncode src' tgt) (out ++ t) (c + len t) (cc + len t) size x →
  payload_moved (mkEncode src tgt) out c cc size x.
Proof.
  intros Ht. assert (Hm : ∀ en' p, moved (mkEncode src' tgt) en' p ((out ++ t) ++ p) →
    moved (mkEncode src tgt) en' (t ++ p) (out ++ t ++ p)).
  { intros en' p [? ? Hs Hw]. simpl in *. constructor; [done|done|..]; simpl.
    - by rewrite Ht, Hs, app_assoc.
    - by rewrite Hw, <- app_assoc. }
  destruct x as [en' r|[[en' c'] cc']]; simpl.
  - intros (p & e & Hp & -> & Hle). exists (t ++ p), e. rewrite len_app.
    split; [by apply Hm|]. split; [do 2 f_equal; lia|lia].
  - intros (p & Hp & -> & -> & Hle). exists (t ++ p). rewrite len_app.
    split; [by apply Hm|]. lia.
Qed.

Lemma fill_segm_spec size tgt room0 fuel : ∀ src room out c cc,
  wok tgt → (write_async tgt (at_least 1)).2.1 = Some room0 →
  rok src → Forall (Z.lt 0) room → len out + mut_count room ≤ mut_count room0 →
  0 ≤ cc ≤ size → size ≤ USIZE_MAX →
  safe (fill_segm (RE:=RE) (WE:=WE) fuel src (write_async tgt (at_least 1)).1 room out c cc size)
    (payload_moved (mkEncode src tgt) out c cc size).
Proof.
  induction fuel as [|fuel IH]; intros src room out c cc Hw Hroom0 Hr Hroom Hout Hcc Hsz;
    [done|].
  pose proof ask_one as Hmax.
  pose proof (mut_count_nonneg room Hroom) as Hnn.
  destruct (drop_written tgt _ room0 out Hw Hmax Hroom0) as [Hw' Hout']; [lia|].
  assert (Hend : moved (mkEncode src tgt)
    (mkEncode src (drop_mut (write_async tgt (at_least 1)).1 out)) [] (out ++ [])).
  { constructor; simpl; rewrite ?app_nil_r; done. }
  simpl fill_segm. destruct (negb _) eqn:Et.
  { exists []. unfold len. simpl. rewrite !Z.add_0_r. repeat split; (apply Hend || lia). }
  bool_to_prop. set (n := Z.min (mut_count room) (size - cc)).
  pose proof (askable_less_than n ltac:(unfold n; lia)) as Hmaxn.
  pose proof (read_ok src (less_than n) Hr Hmaxn) as Hr'.
  pose proof (read_stream src (less_than n) Hr Hmaxn) as Hs.
  pose proof (read_answers src (less_than n) Hr Hmaxn) as Hans.
  pose proof (λ pieces, fill_read src n pieces room Hr ltac:(lia)) as Hfill.
  destruct (read_async src (less_than n)) as [src' [[pieces|] right_]]; simpl in *.
  - destruct (Hfill pieces) as (Hm & Hhd & Hrok & Hst); [done..|].
    set (child := hd [] pieces) in *. set (m := Z.min (len child) (hd 0 room)) in *.
    destruct (Z.ltb_spec 0 m) as [_|]; [|lia].
    assert (Hlm : len (take (Z.to_nat m) child) = m) by (apply len_take; lia).
    destruct (mut_advance_head room m Hroom) as [Hroom' Hcount]; [lia|].
    eapply safe_mono; [apply IH; try done; rewrite ?len_app; lia|].
    intros x Hx. eapply payload_moved_step; [exact Hst|]. by rewrite Hlm.
  - destruct right_ as [e|]; [|done]. simpl. eexists [], _. split; [|split].
    + constructor; simpl; rewrite ?app_nil_r; done.
    + unfold len. simpl. by rewrite Z.add_0_r.
    + unfold len. simpl. lia.
Qed.

Definition payload_sent en (c cc size : Z)
    (x : flow (R:=R) (RE:=RE) (W:=W) (WE:=WE) (MultipartEncode R W * Z)) : Prop :=
  match x with
  | Next (en', c') => ∃ p, moved en en' p p ∧ c' = c + len p ∧ cc + len p = size
  | Stop en' r =>
      ∃ p e, moved en en' p p ∧ r = (Some (c + len p), Some e) ∧ cc + len p ≤ size
  end.

Lemma payload_sent_step en en1 p c cc size x :
  moved en en1 p p → payload_sent en1 (c + len p) (cc + len p) size x →
  payload_sent en c cc size x.
Proof.
  intros Hp. destruct x as [en' r|[en' c']]; simpl.
  - intros (q & e & Hq & -> & Hle). exists (p ++ q), e. rewrite len_app.
    split; [by eapply moved_trans|]. split; [do 2 f_equal; lia|lia].
  - intros (q & Hq & -> & Hle). exists (p ++ q). rewrite len_app.
    split; [by eapply moved_trans|]. lia.
Qed.

Lemma send_payload_spec size fuel : ∀ en c cc,
  enc_ok en → 0 ≤ cc ≤ size → size ≤ USIZE_MAX →
  safe (send_payload (RE:=RE) (WE:=WE) fuel en c cc size) (payload_sent en c cc size).
Proof.
  induction fuel as [|fuel IH]; intros en c cc Hok Hcc Hsz; [done|].
  simpl send_payload. destruct (Z.ltb_spec cc size); simpl.
  2:{ exists []. split; [by apply moved_refl|]. unfold len. simpl. lia. }
  destruct Hok as [Hr Hw].
  pose proof (write_ok (target_ en) (at_least 1) Hw ask_one) as Hw'.
  pose proof (write_keeps (target_ en) (at_least 1) Hw ask_one) as Hkeep.
  pose proof (λ room, write_lends (target_ en) (at_least 1) room Hw ask_one) as Hl.
  pose proof (λ room, fill_segm_spec size (target_ en) room fuel (source_ en) room [] c cc
    Hw) as Hfill.
  assert (Hen : mkEncode (source_ en) (target_ en) = en) by by destruct en.
  destruct (write_async (target_ en) (at_least 1)) as [tgt [left_ right_]] eqn:E. simpl in *.
  apply (safe_bind _ _ (payload_moved en [] c cc size)).
  - destruct left_ as [room|]; simpl.
    + destruct (Hl room) as (_ & Hpos & _); [done..|].
      rewrite <- Hen. by apply Hfill.
    + exists []. unfold len. simpl. repeat split; simpl; rewrite ?app_nil_r; (done || lia).
  - intros [en' r|[[en' c'] cc']]; simpl; [by intros (p & e & ?); exists p, e|].
    intros (p & Hp & -> & -> & Hle). destruct right_ as [e|]; simpl.
    + by exists p, (Target e).
    + pose proof (len_nonneg p). eapply safe_mono; [apply IH; [by eapply moved_ok|lia|lia]|].
      intros x. by apply payload_sent_step.
Qed.

(** What the encoder has done when it returns: [chunks] are the chunks that are
    complete, [payload] what was sent of one that is not, [bytes] what follows the
    complete chunks on the wire. *)
Definition torn (bytes payload : list Z) : Prop :=
  (bytes = [] ∧ payload = []) ∨
  ∃ size, 1 ≤ size ≤ PREFIX_MAX P - 1 ∧ len payload ≤ size ∧
    bytes = be_prefix P size ++ payload.

(** The source is as it was left by a wait that it answered with an error that passes for
    the end of the stream. *)
Definition told_end en : Prop :=
  ∃ r left_ e, rok r ∧ (read_async r (at_least 1)).2 = (left_, Some e) ∧
    is_read_eof_ (E:=RE) e = true ∧
    source_ en = match left_ with
                 | Some _ => drop_ref (read_async r (at_least 1)).1 0
                 | None => (read_async r (at_least 1)).1
                 end.

(** It is, over a source that reports its end only then. *)
Lemma told_end_exhausted `{!EofReader R RE rok stream} en :
  told_end en → stream (source_ en) = [].
Proof.
  intros (r & l & e & Hr & E & He & ->).
  destruct (read_eof r (at_least 1) e Hr askable_one) as [Hl Hlen]; [by rewrite E|done|].
  rewrite E in Hl. simpl in Hl. subst l. rewrite read_stream by (done || apply askable_one).
  apply len_0. unfold min_len in Hlen. simpl in Hlen. lia.
Qed.

Definition sent_stream en (k : token) (c : Z)
    (x : MultipartEncode R W * sent (RE:=RE) (WE:=WE)) : Prop :=
  let '(en', (count, err)) := x in
  ∃ chunks bytes payload,
    Forall (chunk_ok P) chunks ∧
    moved en en' (concat chunks ++ payload) (wire_all P chunks ++ bytes) ∧
    count = Some (c + len (concat chunks ++ payload)) ∧
    match err with
    | Some _ => torn bytes payload
    | None => payload = [] ∧
        (bytes = [] ∧ true ∈ k ∨
         bytes = wire_eof P ∧ (stream (source_ en') = [] ∨ told_end en'))
    end.

Lemma tl_asked (k : token) : true ∈ tl k → true ∈ k.
Proof. destruct k; [done|]. by right. Qed.

Lemma sent_stream_chunk en en1 chunk k c x :
  chunk_ok P chunk → moved en en1 chunk (wire P chunk) →
  sent_stream en1 (tl k) (c + len chunk) x → sent_stream en k c x.
Proof.
  intros Hc Hm. destruct x as [en' [count err]].
  intros (chunks & bytes & payload & Hall & Hm' & -> & Herr).
  exists (chunk :: chunks), bytes, payload. split; [by constructor|].
  split; [|split].
  - change (wire_all P (chunk :: chunks)) with (wire P chunk ++ wire_all P chunks).
    simpl. rewrite <- !app_assoc. by eapply moved_trans.
  - simpl. rewrite <- app_assoc, !len_app. f_equal. lia.
  - destruct err; [done|]. destruct Herr as [-> [[-> Hk]|He]]; [|by eauto].
    split; [done|]. left. split; [done|]. by apply tl_asked.
Qed.

Lemma sent_stream_wait en en1 k c x :
  moved en en1 [] [] → sent_stream en1 (tl k) c x → sent_stream en k c x.
Proof.
  intros Hm. destruct x as [en' [count err]].
  intros (chunks & bytes & payload & Hall & Hm' & -> & Herr).
  exists chunks, bytes, payload. split; [done|]. split; [|split; [done|]].
  - by apply (moved_trans en en1 en' [] _ [] _).
  - destruct err; [done|]. destruct Herr as [-> [[-> Hk]|He]]; [|by eauto].
    split; [done|]. left. split; [done|]. by apply tl_asked.
Qed.

Lemma send_eof_spec en k c :
  enc_ok en → stream (source_ en) = [] ∨ told_end en →
  safe (send_eof (RE:=RE) (WE:=WE) P en c) (sent_stream en k c).
Proof.
  intros Hok Hend. unfold send_eof.
  eapply safe_bind; [by apply write_zero_prefix_spec|].
  intros [tgt [e|]] Hm; eexists [], _, []; (split; [constructor|]); simpl;
    (split; [exact Hm|]); unfold len; simpl; rewrite Z.add_0_r; (split; [done|]).
  - by left.
  - split; [done|]. by right.
Qed.

(** A request for more leaves the stream where it is. *)
Lemma ask_more en :
  enc_ok en →
  let '(src, (left_, right_)) := read_async (source_ en) (at_least 1) in
  let en1 := mkEncode (match left_ with Some _ => drop_ref src 0 | None => src end)
               (target_ en) in
  moved en en1 [] [] ∧
  (∀ e, right_ = Some e → is_read_eof_ e = true → told_end en1).
Proof.
  intros Hok. pose proof Hok as [Hr Hw].
  pose proof (read_ok (source_ en) (at_least 1) Hr askable_one) as Hr'.
  pose proof (read_stream (source_ en) (at_least 1) Hr askable_one) as Hs.
  pose proof (λ ps, drop_lent (source_ en) (at_least 1) ps 0 Hr askable_one) as Hdrop.
  pose proof (read_answers (source_ en) (at_least 1) Hr askable_one) as Hans.
  destruct (read_async (source_ en) (at_least 1)) as [src [left_ right_]] eqn:Ea. simpl in *.
  assert (Hm : moved en (mkEncode (match left_ with Some _ => drop_ref src 0 | None => src end)
                           (target_ en)) [] []).
  { destruct left_ as [ps|]; [|constructor; simpl; rewrite ?app_nil_r; done].
    destruct (Hdrop ps) as [Hrok Hst]; [done| |].
    { unfold ref_count. pose proof (len_nonneg (concat ps)). lia. }
    constructor; simpl; rewrite ?app_nil_r; done. }
  split; [done|]. intros e -> Hee. exists (source_ en), left_, e. by rewrite Ea.
Qed.

(** A chunk, and whatever goes on after it. *)
Lemma send_chunk_spec loop fuel en k c size :
  enc_ok en → 1 ≤ size ≤ PREFIX_MAX P - 1 →
  (∀ en' c', enc_ok en' → safe (loop en' c') (sent_stream en' (tl k) c')) →
  safe (x ← send_prefix (RE:=RE) (WE:=WE) P en c size;
        match x with
        | Stop en r => Done (en, r)
        | Next en =>
            x ← send_payload fuel en c 0 size;
            match x with Stop en r => Done (en, r) | Next (en, c) => loop en c end
        end) (sent_stream en k c).
Proof.
  intros Hok Hsz Hloop. pose proof (prefix_max_range P) as Hpm.
  eapply safe_bind; [by apply send_prefix_spec|].
  intros [en1 r|en1]; simpl.
  { intros (e & bytes & -> & Hm & Hb). exists [], bytes, []. split; [constructor|].
    split; [done|]. unfold len. simpl. rewrite Z.add_0_r. split; [done|].
    destruct Hb as [->| ->]; [by left|]. right. exists size.
    split; [done|]. split; [unfold len; simpl; lia|by rewrite app_nil_r]. }
  intros Hm1. pose proof (moved_ok _ _ _ _ Hm1) as Hok1.
  eapply safe_bind;
    [apply send_payload_spec; [done|lia|unfold USIZE_MAX; lia]|].
  intros [en2 r|[en2 c2]]; simpl.
  { intros (p & e & Hm & -> & Hle). exists [], (be_prefix P size ++ p), p.
    split; [constructor|]. simpl.
    split; [by apply (moved_trans en en1 en2 [] p _ p)|]. split; [done|].
    right. exists size. split; [done|]. split; [lia|done]. }
  intros (p & Hm & -> & Hp). rewrite Z.add_0_l in Hp.
  assert (Hm2 : moved en en2 p (wire P p)).
  { unfold wire. rewrite Hp. by apply (moved_trans en en1 en2 [] p _ p). }
  eapply safe_mono; [apply Hloop; by eapply moved_ok|].
  intros x. apply sent_stream_chunk; [|done]. unfold chunk_ok. lia.
Qed.

Lemma sent_stream_nothing en k c x :
  enc_ok en → x = (en, new_left c) → true ∈ k → sent_stream en k c x.
Proof.
  intros Hok -> Hk. exists [], [], []. split; [constructor|]. split; [by apply moved_refl|].
  unfold len. simpl. rewrite Z.add_0_r. split; [done|]. split; [done|]. by left.
Qed.

Lemma send_loop_spec fuel : ∀ en k c,
  enc_ok en → safe (send_loop (RE:=RE) (WE:=WE) P fuel en k c) (sent_stream en k c).
Proof.
  induction fuel as [|fuel IH]; intros en k c Hok; [done|].
  simpl send_loop. destruct (is_cancelled k) eqn:Ek.
  { apply sent_stream_nothing; [done..|]. destruct k as [|b k]; [done|].
    simpl in Ek. subst. by left. }
  pose proof (source_size (source_ en) (proj1 Hok)) as Hsize.
  destruct (Z.eqb_spec (data_size (source_ en)) 0) as [Hd|Hd].
  - destruct (is_drained_closing (source_ en)) eqn:Edr.
    { apply send_eof_spec; [done|]. left. destruct Hok as [Hr _]. by apply source_drained. }
    pose proof (ask_more en Hok) as Hask.
    destruct (read_async (source_ en) (at_least 1)) as [src [left_ right_]].
    destruct Hask as [Hm Heof]. pose proof (moved_ok _ _ _ _ Hm) as Hok'.
    destruct right_ as [e|]; [destruct (is_read_eof_ e) eqn:Ee|].
    + eapply safe_mono; [by apply (send_eof_spec _ (tl k)); [|right; apply (Heof e)]|].
      intros x. by apply sent_stream_wait.
    + exists [], [], []. split; [constructor|]. split; [done|].
      unfold len. simpl. rewrite Z.add_0_r. split; [done|by left].
    + eapply safe_mono; [by apply (IH _ (tl k))|]. intros x. by apply sent_stream_wait.
  - pose proof (prefix_max_range P) as Hpm.
    destruct (Z.ltb_spec 0 (Z.min (data_size (source_ en)) (PREFIX_MAX P - 1))); [|lia].
    apply (send_chunk_spec (λ en c, send_loop P fuel en (tl k) c)); [done|lia|].
    intros en' c' Hok'. by apply IH.
Qed.

(** ** The encoder ends *)

Context (fits : W → Z → Prop) `{!EofReader R RE rok stream, !LiveReader R RE rok, !LiveWriter W WE wok fits grain}.

Lemma fill_segm_live size tgt room0 N fuel : ∀ src room out c cc,
  wok tgt → fits tgt N → (write_async tgt (at_least 1)).2.1 = Some room0 →
  rok src → Forall (Z.lt 0) room → len out + mut_count room ≤ mut_count room0 →
  0 ≤ cc ≤ size → size ≤ USIZE_MAX →
  size - cc ≤ len (stream src) → len out + (size - cc) ≤ N →
  size - cc < Z.of_nat fuel →
  ∃ en' c' cc',
    fill_segm (RE:=RE) (WE:=WE) fuel src (write_async tgt (at_least 1)).1 room out c cc size
      = Done (Next (en', c', cc')) ∧
    fits (target_ en') (N - len out - (cc' - cc)) ∧ cc ≤ cc' ∧
    (0 < mut_count room → cc < size → cc < cc').
Proof.
  induction fuel as [|fuel IH];
    intros src room out c cc Hw Hfit Hroom0 Hr Hroom Hout Hcc Hsz Hlen HN Hf; [lia|].
  pose proof ask_one as Hmax.
  pose proof (mut_count_nonneg room Hroom) as Hnn.
  simpl fill_segm. destruct (negb _) eqn:Et.
  { eexists _, _, _. split; [done|]. rewrite Z.sub_diag, Z.sub_0_r. simpl.
    split; [apply (drop_fits tgt _ N room0 out Hw Hmax Hfit Hroom0); lia|].
    split; [done|]. apply negb_true_iff, andb_false_iff in Et as [?|?]; bool_to_prop; lia. }
  bool_to_prop. set (n := Z.min (mut_count room) (size - cc)).
  pose proof (askable_less_than n ltac:(unfold n; lia)) as Hmaxn.
  pose proof (read_live src (less_than n) Hr Hmaxn) as Hlive.
  pose proof (λ e, read_eof src (less_than n) e Hr Hmaxn) as Heof.
  pose proof (λ pieces, fill_read src n pieces room Hr ltac:(lia)) as Hfill.
  destruct (read_async src (less_than n)) as [src' [[pieces|] right_]]; simpl in *.
  - destruct (Hfill pieces) as (Hm & Hhd & Hrok & Hst); [done..|].
    set (child := hd [] pieces) in *. set (m := Z.min (len child) (hd 0 room)) in *.
    destruct (Z.ltb_spec 0 m) as [_|]; [|lia].
    assert (Hlm : len (take (Z.to_nat m) child) = m) by (apply len_take; lia).
    destruct (mut_advance_head room m Hroom) as [Hroom' Hcount]; [lia|].
    rewrite Hst, len_app, Hlm in Hlen.
    edestruct (IH (drop_ref src' m) (mut_advance room m) (out ++ take (Z.to_nat m) child)
      (c + m) (cc + m)) as (en' & c' & cc' & -> & Hfit' & Hle & _);
      try done; rewrite ?len_app; try lia.
    eexists _, _, _. split; [done|]. rewrite len_app, Hlm in Hfit'.
    split; [|lia]. by replace (N - len out - (cc' - cc))
      with (N - (len out + m) - (cc' - (cc + m))) by lia.
  - destruct right_ as [e|]; [|done]. destruct (Heof e) as [_ Hend]; [done..|].
    unfold min_len in Hend. simpl in Hend. lia.
Qed.

Lemma send_payload_live size fuel : ∀ en c cc N,
  enc_ok en → fits (target_ en) N → 0 ≤ cc ≤ size → size ≤ USIZE_MAX →
  size - cc ≤ len (stream (source_ en)) → size - cc ≤ N →
  size - cc + 2 ≤ Z.of_nat fuel →
  ∃ en' c', send_payload (RE:=RE) (WE:=WE) fuel en c cc size = Done (Next (en', c')) ∧
    fits (target_ en') (N - (size - cc)).
Proof.
  induction fuel as [|fuel IH]; intros en c cc N Hok Hfit Hcc Hsz Hlen HN Hf; [lia|].
  simpl send_payload. destruct (Z.ltb_spec cc size); simpl.
  2:{ eexists _, _. split; [done|]. by replace (N - (size - cc)) with N by lia. }
  pose proof Hok as [Hr Hw].
  pose proof ask_one as Hmax.
  destruct (write_live (target_ en) (at_least 1) N Hw ask_one Hfit) as [room Hroom];
    [unfold min_len; simpl; lia|].
  destruct (write_lends (target_ en) (at_least 1) room Hw ask_one) as (Hne & Hpos & Hmin);
    [by rewrite Hroom|].
  unfold min_len in Hmin. simpl in Hmin.
  pose proof (fill_segm_spec size (target_ en) room fuel (source_ en) room [] c cc Hw) as Hspec.
  destruct (fill_segm_live size (target_ en) room N fuel (source_ en) room [] c cc Hw Hfit)
    as (en1 & c1 & cc1 & Hfill & Hfit1 & Hle & Hlt); try done; try (by rewrite Hroom);
    try (unfold len; simpl; lia); [unfold len in *; simpl; lia..|].
  rewrite Hfill in Hspec.
  destruct (write_async (target_ en) (at_least 1)) as [tgt [left_ right_]].
  simpl in Hroom, Hfill. injection Hroom as -> ->. rewrite Hfill. simpl.
  destruct Hspec as (p & Hm & -> & -> & Hle1); try done. destruct en as [src tgt0].
  simpl in *. rewrite Z.sub_0_r in Hfit1.
  destruct (IH en1 (c + len p) (cc + len p) (N - len p)) as (en' & c' & -> & Hfit');
    [by eapply moved_ok| |lia|done| |lia|lia|].
  - by replace (N - len p) with (N - (cc + len p - cc)) by lia.
  - destruct Hm as [_ _ Hst _]. simpl in Hst. rewrite Hst, len_app in Hlen. lia.
  - eexists _, _. split; [done|].
    by replace (N - (size - cc)) with (N - len p - (size - (cc + len p))) by lia.
Qed.

Lemma prefix_room tgt N :
  wok tgt → fits tgt N → PREFIX_LEN P ≤ N →
  ∃ room, (write_async tgt (at_least (PREFIX_LEN P))).2 = (Some room, None) ∧
    ∀ n, fits (drop_mut (write_async tgt (at_least (PREFIX_LEN P))).1 (be_prefix P n))
      (N - PREFIX_LEN P).
Proof.
  intros Hw Hfit HN. pose proof (prefix_len_range P) as Hp.
  pose proof ask_prefix as Hmax.
  destruct (write_live tgt (at_least (PREFIX_LEN P)) N Hw Hmax Hfit) as [room Hroom];
    [unfold min_len; simpl; lia|].
  assert (Hroom1 : (write_async tgt (at_least (PREFIX_LEN P))).2.1 = Some room)
    by by rewrite Hroom.
  exists room. split; [done|]. intros n.
  destruct (write_lends tgt _ room Hw Hmax Hroom1) as (_ & Hpos & Hr).
  unfold min_len in Hr. simpl in Hr. rewrite <- (len_be_prefix P n).
  apply (drop_fits tgt _ N room); rewrite ?len_be_prefix; (done || lia).
Qed.

Lemma send_eof_live en c N :
  enc_ok en → fits (target_ en) N → PREFIX_LEN P ≤ N →
  ∃ en', send_eof (RE:=RE) (WE:=WE) P en c = Done (en', new_left c).
Proof.
  intros [Hr Hw] Hfit HN. destruct (prefix_room _ _ Hw Hfit HN) as (room & Hroom & _).
  pose proof (write_prefix (target_ en) 0 room Hw) as Hwh.
  rewrite Hroom in Hwh. destruct Hwh as (Hmv & _); [done|].
  unfold send_eof, write_zero_prefix_async_. rewrite be_zero. unfold wire_eof.
  destruct (write_async _ _) as [tgt x]. simpl in Hroom. subst x.
  rewrite Hmv, Z.eqb_refl. simpl. by eexists.
Qed.

Lemma send_prefix_live en c size N :
  enc_ok en → fits (target_ en) N → PREFIX_LEN P ≤ N →
  ∃ en', send_prefix (RE:=RE) (WE:=WE) P en c size = Done (Next en') ∧
    fits (target_ en') (N - PREFIX_LEN P).
Proof.
  intros [Hr Hw] Hfit HN. destruct (prefix_room _ _ Hw Hfit HN) as (room & Hroom & Hfit').
  pose proof (write_prefix (target_ en) size room Hw) as Hwh. specialize (Hfit' size).
  rewrite Hroom in Hwh. destruct Hwh as (Hmv & Htk & _); [done|].
  unfold send_prefix. rewrite be_tail.
  destruct (write_async _ _) as [tgt x]. simpl in Hroom, Hfit'. subst x.
  rewrite Hmv, Z.eqb_refl. simpl. rewrite Htk. by eexists.
Qed.

(** The room and the rounds that a stream of [n] bytes needs. *)
Definition wire_room (n : Z) : Z := n * (1 + PREFIX_LEN P) + PREFIX_LEN P.
Definition rounds (en : MultipartEncode R W) : Z :=
  2 * len (stream (source_ en)) + (if data_size (source_ en) =? 0 then 1 else 0) + 3.

(** A chunk has room and rounds. *)
Lemma send_chunk_live fuel en c size N :
  enc_ok en → fits (target_ en) N → wire_room (len (stream (source_ en))) ≤ N →
  1 ≤ size ≤ PREFIX_MAX P - 1 → size ≤ len (stream (source_ en)) → size + 2 ≤ Z.of_nat fuel →
  ∃ en1 en2 p,
    send_prefix (RE:=RE) (WE:=WE) P en c size = Done (Next en1) ∧
    send_payload (RE:=RE) (WE:=WE) fuel en1 c 0 size = Done (Next (en2, c + len p)) ∧
    len p = size ∧ stream (source_ en) = p ++ stream (source_ en2) ∧
    enc_ok en2 ∧ fits (target_ en2) (N - PREFIX_LEN P - size).
Proof.
  intros Hok Hfit HN Hsz Hsl Hf.
  pose proof (prefix_len_range P) as HPL. pose proof (prefix_max_range P) as HPM.
  unfold wire_room in HN.
  pose proof (send_prefix_spec en c size Hok) as Hspec1.
  destruct (send_prefix_live en c size N Hok Hfit) as (en1 & Hp1 & Hfit1); [nia|].
  rewrite Hp1 in Hspec1. simpl in Hspec1. pose proof (moved_ok _ _ _ _ Hspec1) as Hok1.
  assert (Hst1 : stream (source_ en) = stream (source_ en1)) by apply Hspec1.
  pose proof (send_payload_spec size fuel en1 c 0 Hok1) as Hspec2.
  destruct (send_payload_live size fuel en1 c 0 (N - PREFIX_LEN P) Hok1 Hfit1)
    as (en2 & c2 & Hp2 & Hfit2);
    [lia|unfold USIZE_MAX; lia|rewrite <- Hst1; lia|nia|lia|].
  rewrite Hp2 in Hspec2. destruct Hspec2 as (p & Hm & -> & Hp); [lia|unfold USIZE_MAX; lia|].
  exists en1, en2, p. split_and!; [done..|lia|rewrite Hst1; apply Hm|by eapply moved_ok|].
  by replace (N - PREFIX_LEN P - size) with (N - PREFIX_LEN P - (size - 0)) by lia.
Qed.

Lemma send_loop_live fuel : ∀ en k c N,
  enc_ok en → fits (target_ en) N → wire_room (len (stream (source_ en))) ≤ N →
  rounds en ≤ Z.of_nat fuel →
  ∃ en' count, send_loop (RE:=RE) (WE:=WE) P fuel en k c = Done (en', (count, None)).
Proof.
  pose proof (prefix_len_range P) as HPL. pose proof (prefix_max_range P) as HPM.
  induction fuel as [|fuel IH]; intros en k c N Hok Hfit HN Hf;
    pose proof (len_nonneg (stream (source_ en))) as Hl.
  { unfold rounds in Hf. case_match; lia. }
  assert (HNP : PREFIX_LEN P ≤ N) by (unfold wire_room in HN; nia).
  simpl send_loop. destruct (is_cancelled k) eqn:Ek; [by eexists _, _|].
  pose proof Hok as [Hr Hw]. pose proof (source_size (source_ en) Hr) as Hsize.
  unfold rounds in Hf.
  destruct (Z.eqb_spec (data_size (source_ en)) 0) as [Hd|Hd].
  - destruct (is_drained_closing (source_ en)) eqn:Edr.
    { destruct (send_eof_live en c N Hok Hfit HNP) as [en' ->]. by eexists _, _. }
    pose proof (read_ok (source_ en) (at_least 1) Hr askable_one) as Hr'.
    pose proof (read_live (source_ en) (at_least 1) Hr askable_one) as Hlive.
    pose proof (λ ps, drop_lent (source_ en) (at_least 1) ps 0 Hr askable_one) as Hdrop.
    pose proof (λ ps, source_waited (source_ en) (at_least 1) ps Hr askable_one) as Hwait.
    destruct (read_async (source_ en) (at_least 1)) as [src [[ps|] [e|]]]; simpl in *; try done.
    + destruct (Hdrop ps) as [Hrok Hst]; [done| |].
      { unfold ref_count. pose proof (len_nonneg (concat ps)). lia. }
      specialize (Hwait ps eq_refl).
      eapply IH; [by split|done|simpl; by rewrite Hst|].
      unfold rounds. simpl. rewrite Hst, drop_0.
      destruct (Z.eqb_spec (data_size (drop_ref src 0)) 0); lia.
    + rewrite Hlive. assert (enc_ok (mkEncode src (target_ en))) as Hok' by by split.
      destruct (send_eof_live (mkEncode src (target_ en)) c N Hok' Hfit HNP) as [en' ->].
      by eexists _, _.
  - destruct (Z.ltb_spec 0 (Z.min (data_size (source_ en)) (PREFIX_MAX P - 1))); [|lia].
    destruct (send_chunk_live fuel en c (Z.min (data_size (source_ en)) (PREFIX_MAX P - 1)) N
      Hok Hfit HN) as (en1 & en2 & p & -> & Hp2 & Hlp & Hst & Hok2 & Hfit2); [lia..|].
    simpl. rewrite Hp2. simpl. unfold wire_room in HN. rewrite Hst, len_app in HN, Hf.
    eapply IH; [done|exact Hfit2|unfold wire_room; nia|].
    unfold rounds. destruct (_ =? 0); lia.
Qed.
End sound.
