(* ===== verification/MpDecode.v ===== *)
(** * The multipart decoder

    Models [MultipartRecv] and [multipart_decode_read_async_] of
    [crates/abs_buff_utils/src/multipart/decode_.rs]: a reader that strips the
    length prefixes of the reader it wraps.  It is shown to meet the contract of
    a reader ([LawfulReader], [LiveReader] of [BuffIo.v]) whose stream is the
    payload, and with the encoder ([MpEncode.v]) to give the stream back. *)

From S2P Require Import Prelude Demand CircEnds BuffIo MpEncode.

Module Recv.

(** [RecvError]. *)
Inductive RecvError (E : Type) : Type :=
| Source (e : E)
| Invalid
| Eof
| Cancelled.
Arguments Source {E} e.
Arguments Invalid {E}.
Arguments Eof {E}.
Arguments Cancelled {E}.

#[export] Instance recv_tagged {E} `{TrTaggedError E ReadErrTag} :
    TrTaggedError (RecvError E) ReadErrTag :=
  {| err_tag e := match e with
                  | Source e => err_tag e
                  | Invalid => RUnknown
                  | Eof => RClosing
                  | Cancelled => RCancelled
                  end |}.

Definition decode_source_err_ {E} `{TrTaggedError E ReadErrTag} (e : E) : RecvError E :=
  if bool_decide (err_tag e = RCancelled) then Cancelled else Source e.

Section recv.
Context {R E : Type} `{TrBuffRead R E} `{TrTaggedError E ReadErrTag}.
Variable P : Prefix.

Record MultipartRecv : Type := mkRecv {
  source_ : R;
  payload_left_ : Z;
  eof_ : bool;
  read_demand_ : Demand;
}.
Implicit Types r : MultipartRecv.

Definition new (source : R) : MultipartRecv := mkRecv source 0 false (at_least 1).

(** [MultipartRecvSegm]: what is left of the inner segment, and its count when it
    was lent. *)
Record MultipartRecvSegm : Type := mkSegm { inner_ : list (list Z); initial_ : Z }.
Definition segm_new (inner : list (list Z)) : MultipartRecvSegm :=
  mkSegm inner (ref_count inner).

(** Its drop after [consumed] bytes, then the drop of the inner segment. *)
Definition drop_consumed r (consumed : Z) : MultipartRecv :=
  mkRecv (drop_ref (source_ r) consumed) (payload_left_ r - consumed) (eof_ r)
    (read_demand_ r).
Definition segm_drop (s : MultipartRecvSegm) r : MultipartRecv :=
  drop_consumed r (initial_ s - ref_count (inner_ s)).

Definition with_source r (src : R) : MultipartRecv :=
  mkRecv src (payload_left_ r) (eof_ r) (read_demand_ r).

(** The start of a chunk: its prefix is read and dropped.  [inr] is an early
    return with the error. *)
Definition read_prefix r : outcome (MultipartRecv * option (RecvError E)) :=
  if payload_left_ r =? 0 then
    let prefix_len := PREFIX_LEN P in
    let '(src, (left_, right_)) := read_async (source_ r) (at_least prefix_len) in
    match left_ with
    | Some prefix_segm =>
        let prefix_buf := move_items_to_buff prefix_segm prefix_len in
        let moved := len prefix_buf in
        let src := drop_ref src moved in
        if moved <? prefix_len then Ret (with_source r src, Some Invalid)
        else
          let n := foldl be_step 0 prefix_buf in
          if n =? 0 then Ret (mkRecv src 0 true (read_demand_ r), Some Eof)
          else Ret (mkRecv src n (eof_ r) (read_demand_ r), None)
    | None =>
        match right_ with
        | Some e =>
            Ret (with_source r src,
                 Some (if is_read_eof_ e then Invalid else decode_source_err_ e))
        | None => Panic
        end
    end
  else Ret (r, None).

(** The demand passed on to the source. *)
Definition source_demand (demand : Demand) (payload_left : Z) : outcome Demand :=
  match min demand with
  | Some m => if m <? payload_left then between m payload_left
              else Ret (less_than payload_left)
  | None => Ret (less_than payload_left)
  end.

(** [multipart_decode_read_async_]; [cancelled] is what the token answers. *)
Definition multipart_decode_read_async_ r (demand : Demand) (cancelled : bool) :
    outcome (MultipartRecv * reply (list (list Z)) (RecvError E)) :=
  if cancelled then Ret (r, (None, Some Cancelled))
  else if eof_ r then Ret (r, (None, Some Eof))
  else
    '(r, err) ← read_prefix r;
    match err with
    | Some e => Ret (r, (None, Some e))
    | None =>
        d ← source_demand demand (payload_left_ r);
        let '(src, (left_, right_)) := read_async (source_ r) d in
        let r := mkRecv src (payload_left_ r) (eof_ r) d in
        match left_ with
        | Some inner => Ret (r, (Some (inner_ (segm_new inner)), None))
        | None =>
            match right_ with
            | Some e =>
                Ret (r, (None, Some (if is_read_eof_ e then Invalid
                                     else decode_source_err_ e)))
            | None => Panic
            end
        end
    end.
End recv.
Arguments MultipartRecv : clear implicits.

(** [impl TrBuffRead for MultipartRecv], with a token that is not cancelled; the
    panics of the function do not happen ([decode_no_panic]). *)
#[export] Instance recv_reader {R E} `{TrBuffRead R E} `{TrTaggedError E ReadErrTag}
    (P : Prefix) : TrBuffRead (MultipartRecv R) (RecvError E) :=
  {| is_drained_closing := eof_;
     read_async r d :=
       match multipart_decode_read_async_ P r d false with
       | Ret x => x
       | Panic => (r, (None, None))
       end;
     drop_ref := drop_consumed |}.
End Recv.
Import Recv.

(** ** The payload of a stream *)

(** The payload of a byte stream and what follows its end; [None] when the stream
    breaks off before its zero prefix. *)
Fixpoint unwire_fuel (P : Prefix) (fuel : nat) (bs : list Z) : list Z * option (list Z) :=
  match fuel with
  | O => ([], None)
  | S fuel =>
      if len bs <? PREFIX_LEN P then ([], None)
      else
        let n := foldl be_step 0 (take (Z.to_nat (PREFIX_LEN P)) bs) in
        let rest := drop (Z.to_nat (PREFIX_LEN P)) bs in
        if n =? 0 then ([], Some rest)
        else let '(payload, tail) := unwire_fuel P fuel (drop (Z.to_nat n) rest) in
             (take (Z.to_nat n) rest ++ payload, tail)
  end.
Definition unwire (P : Prefix) (bs : list Z) : list Z * option (list Z) :=
  unwire_fuel P (S (length bs)) bs.

Lemma unwire_fuel_enough P f1 : ∀ f2 bs,
  (length bs < f1)%nat → (length bs < f2)%nat →
  unwire_fuel P f1 bs = unwire_fuel P f2 bs.
Proof.
  pose proof (prefix_len_range P) as HP.
  induction f1 as [|f1 IH]; intros [|f2] bs H1 H2; try lia. simpl.
  destruct (Z.ltb_spec (len bs) (PREFIX_LEN P)) as [|Hl]; [done|].
  destruct (_ =? 0); [done|]. rewrite (IH f2); [done|..];
    rewrite !length_drop; unfold len in Hl; lia.
Qed.

Lemma unwire_eq P bs :
  unwire P bs =
    if len bs <? PREFIX_LEN P then ([], None)
    else
      let n := foldl be_step 0 (take (Z.to_nat (PREFIX_LEN P)) bs) in
      let rest := drop (Z.to_nat (PREFIX_LEN P)) bs in
      if n =? 0 then ([], Some rest)
      else let '(payload, tail) := unwire P (drop (Z.to_nat n) rest) in
           (take (Z.to_nat n) rest ++ payload, tail).
Proof.
  pose proof (prefix_len_range P) as HP. unfold unwire. simpl unwire_fuel at 1.
  destruct (Z.ltb_spec (len bs) (PREFIX_LEN P)) as [|Hl]; [done|].
  simpl. destruct (_ =? 0); [done|].
  rewrite (unwire_fuel_enough P (length bs) (S (length (drop
    (Z.to_nat (foldl be_step 0 (take (Z.to_nat (PREFIX_LEN P)) bs)))
    (drop (Z.to_nat (PREFIX_LEN P)) bs))))); [done|..];
    rewrite !length_drop; unfold len in Hl; lia.
Qed.

Lemma be_prefix_value P n :
  0 ≤ n < PREFIX_MAX P → foldl be_step 0 (be_prefix P n) = n.
Proof.
  rewrite prefix_max_pow. unfold be_prefix. intros Hn.
  rewrite foldl_be_step; [|lia|].
  - rewrite Z.mul_0_l, Z.mod_small by lia. lia.
  - rewrite <- prefix_max_pow. pose proof (prefix_max_range P). unfold USIZE_MAX. lia.
Qed.

Lemma take_be_prefix P n bs :
  take (Z.to_nat (PREFIX_LEN P)) (be_prefix P n ++ bs) = be_prefix P n ∧
  drop (Z.to_nat (PREFIX_LEN P)) (be_prefix P n ++ bs) = bs.
Proof.
  assert (Hl : length (be_prefix P n) = Z.to_nat (PREFIX_LEN P))
    by apply length_to_be_bytes.
  rewrite <- Hl. split; [apply take_app_length|apply drop_app_length].
Qed.

(** The decoding of what the encoder sends. *)
Lemma unwire_prefix P n bs :
  0 ≤ n < PREFIX_MAX P →
  unwire P (be_prefix P n ++ bs) =
    if n =? 0 then ([], Some bs)
    else let '(payload, tail) := unwire P (drop (Z.to_nat n) bs) in
         (take (Z.to_nat n) bs ++ payload, tail).
Proof.
  intros Hn. rewrite unwire_eq. destruct (take_be_prefix P n bs) as [-> ->].
  rewrite len_app, len_be_prefix, be_prefix_value by done.
  pose proof (len_nonneg bs). by destruct (Z.ltb_spec (PREFIX_LEN P + len bs) (PREFIX_LEN P)); [lia|].
Qed.

Lemma unwire_wire P chunks extra :
  Forall (chunk_ok P) chunks →
  unwire P (wire_all P chunks ++ wire_eof P ++ extra) = (concat chunks, Some extra).
Proof.
  pose proof (prefix_max_range P) as HP.
  induction 1 as [|ch chunks [H1 H2] Hall IH].
  - unfold wire_all. simpl. unfold wire_eof. rewrite unwire_prefix by lia. done.
  - change (wire_all P (ch :: chunks)) with (wire P ch ++ wire_all P chunks).
    unfold wire. rewrite <- !app_assoc, unwire_prefix by lia.
    destruct (Z.eqb_spec (len ch) 0); [lia|]. unfold len at 1 2.
    rewrite Nat2Z.id, drop_app_length, take_app_length, IH. done.
Qed.

(** ** The decoder as a reader *)

Section laws.
Context {R E : Type} `{TrBuffRead R E} `{TrTaggedError E ReadErrTag}.
Context (ok : R → Prop) (stream : R → list Z).
Context `{!LawfulReader R E ok stream, !EofReader R E ok stream,
  !BoundedReader R E ok stream}.
Variable P : Prefix.
Implicit Types r : MultipartRecv R.

Definition decoding r : list Z * option (list Z) :=
  let s := stream (source_ r) in
  if eof_ r then ([], Some s)
  else let n := Z.to_nat (payload_left_ r) in
       let '(payload, tail) := unwire P (drop n s) in
       (take n s ++ payload, tail).
Definition payload r : list Z := (decoding r).1.
Definition tail r : option (list Z) := (decoding r).2.

Record recv_ok r : Prop := {
  recv_source : ok (source_ r);
  recv_bytes : Forall is_byte (stream (source_ r));
  recv_left : is_usize (payload_left_ r);
}.

Lemma be_step_usize value b : is_byte b → is_usize (be_step value b).
Proof.
  intros Hb. unfold be_step. change USIZE_MAX with (Z.ones 64). rewrite Z.land_ones by lia.
  pose proof (Z.mod_pos_bound (Z.shiftl value 8) (2 ^ 64) ltac:(lia)) as Hm.
  set (x := _ mod _) in *. unfold is_byte in Hb.
  assert (0 ≤ Z.lor x b) as Hx by (apply Z.lor_nonneg; lia).
  split; [done|]. enough (Z.lor x b < 2 ^ 64) by (unfold USIZE_MAX; lia).
  destruct (Z.eq_dec (Z.lor x b) 0) as [->|]; [lia|].
  apply Z.log2_lt_pow2; [lia|]. rewrite Z.log2_lor by lia.
  apply Z.max_lub_lt.
  - destruct (Z.eq_dec x 0) as [->|]; [simpl; lia|]. apply Z.log2_lt_pow2; lia.
  - destruct (Z.eq_dec b 0) as [->|]; [simpl; lia|]. apply Z.log2_lt_pow2; lia.
Qed.

Lemma be_value_usize bs : Forall is_byte bs → ∀ acc, is_usize acc →
  is_usize (foldl be_step acc bs).
Proof.
  induction 1 as [|b bs Hb Hbs IH]; intros acc Hacc; simpl; [done|].
  apply IH. by apply be_step_usize.
Qed.

(** Whether an error can come from a reader that only fails at its end. *)
Definition source_failed (e : RecvError E) : Prop :=
  match e with
  | Recv.Source e => is_read_eof_ e = false
  | Recv.Cancelled => True
  | _ => False
  end.

Lemma decode_source_err_failed (e : E) :
  is_read_eof_ e = false → source_failed (decode_source_err_ e).
Proof. intros He. unfold decode_source_err_. by case_bool_decide. Qed.

Definition prefix_spec r (x : MultipartRecv R * option (RecvError E)) : Prop :=
  let '(r', err) := x in
  recv_ok r' ∧ decoding r' = decoding r ∧
  match err with
  | None => eof_ r' = false ∧ 0 < payload_left_ r'
  | Some Recv.Eof => eof_ r' = true
  | Some Recv.Invalid => decoding r = ([], None)
  | Some e => source_failed e
  end.

(** The prefix is there. *)
Lemma read_prefix_full r pieces :
  recv_ok r → eof_ r = false → payload_left_ r = 0 →
  (read_async (source_ r) (at_least (PREFIX_LEN P))).2.1 = Some pieces →
  prefix_spec r
    (let prefix_buf := move_items_to_buff pieces (PREFIX_LEN P) in
     let src := drop_ref (read_async (source_ r) (at_least (PREFIX_LEN P))).1 (len prefix_buf) in
     if len prefix_buf <? PREFIX_LEN P then (with_source r src, Some Recv.Invalid)
     else
       let n := foldl be_step 0 prefix_buf in
       if n =? 0 then (mkRecv src 0 true (read_demand_ r), Some Recv.Eof)
       else (mkRecv src n (eof_ r) (read_demand_ r), None)).
Proof.
  intros [Hok Hb Hl] Heof Hz Hp. pose proof (prefix_len_range P) as HP.
  set (d := at_least (PREFIX_LEN P)) in *.
  assert (Hmax : askable d) by apply askable_prefix.
  destruct (read_lends _ _ _ Hok Hmax Hp) as (Hpre & _ & _).
  destruct (read_bounds _ _ _ Hok Hmax Hp) as [Hmin _].
  unfold min_len in Hmin. simpl in Hmin.
  pose proof (len_prefix _ _ Hpre) as Hle. fold (ref_count pieces) in Hle.
  assert (Hrc : 0 ≤ ref_count pieces) by apply len_nonneg.
  rewrite move_to_buff_take by lia. set (s := stream (source_ r)) in *.
  set (buf := take (Z.to_nat (PREFIX_LEN P)) (concat pieces)).
  assert (Hbuf : len buf = Z.min (PREFIX_LEN P) (ref_count pieces)).
  { unfold buf, ref_count, len. rewrite length_take. lia. }
  destruct (drop_lent _ _ _ (len buf) Hok Hmax Hp) as [Hok' Hs']; [lia|]. fold s in Hs'.
  set (src := drop_ref _ (len buf)) in *. simpl.
  assert (Hdec : decoding r = unwire P s).
  { unfold decoding. rewrite Heof, Hz. simpl. fold s. rewrite drop_0.
    by destruct (unwire P s). }
  assert (Hbytes : Forall is_byte (stream src)) by (rewrite Hs'; by apply Forall_drop).
  destruct (Z.ltb_spec (len buf) (PREFIX_LEN P)) as [Hlt|Hge].
  - assert (Hshort : len s < PREFIX_LEN P) by lia.
    assert (Hd : decoding r = ([], None)).
    { rewrite Hdec, unwire_eq. by destruct (Z.ltb_spec (len s) (PREFIX_LEN P)); [|lia]. }
    split; [by constructor; simpl; [done|done|done]|]. split; [|done].
    rewrite Hd. unfold decoding, with_source. simpl. rewrite Heof, Hz. simpl.
    fold src. rewrite drop_0, unwire_eq, Hs', len_drop by lia.
    by destruct (Z.ltb_spec (len s - len buf) (PREFIX_LEN P)); [|lia].
  - assert (HL : len buf = PREFIX_LEN P) by lia. rewrite HL in Hs'.
    assert (Hbuf' : buf = take (Z.to_nat (PREFIX_LEN P)) s).
    { unfold buf. apply take_prefix_eq; [done|]. unfold ref_count in *. lia. }
    rewrite unwire_eq in Hdec. rewrite <- Hbuf', <- Hs' in Hdec.
    destruct (Z.ltb_spec (len s) (PREFIX_LEN P)) as [|_]; [lia|]. simpl in Hdec.
    assert (is_usize (foldl be_step 0 buf)).
    { apply be_value_usize; [|done]. rewrite Hbuf'. by apply Forall_take. }
    revert Hdec. destruct (Z.eqb_spec (foldl be_step 0 buf) 0); intros Hdec.
    + split; [by constructor; simpl; [done|done|done]|]. split; [|done]. by rewrite Hdec.
    + split; [by constructor; simpl; [done|done|done]|]. split; [|simpl; split; [done|unfold is_usize in *; lia]].
      rewrite Hdec. unfold decoding. simpl. by rewrite Heof.
Qed.

Lemma read_prefix_spec r :
  recv_ok r → eof_ r = false → ∃ x, read_prefix P r = Ret x ∧ prefix_spec r x.
Proof.
  intros Hr Heof. unfold read_prefix.
  destruct (Z.eqb_spec (payload_left_ r) 0) as [Hz|Hz].
  2:{ eexists. split; [done|]. split; [done|]. split; [done|]. split; [done|].
      destruct Hr as [_ _ Hu]. unfold is_usize in Hu. lia. }
  pose proof (λ pieces, read_prefix_full r pieces Hr Heof Hz) as Hfull.
  destruct Hr as [Hok Hb Hl]. set (d := at_least (PREFIX_LEN P)) in *.
  assert (Hmax : askable d) by apply askable_prefix.
  pose proof (read_ok _ d Hok Hmax) as Hok'. pose proof (read_stream _ d Hok Hmax) as Hs.
  pose proof (λ e, read_eof _ d e Hok Hmax) as He. pose proof (read_answers (source_ r) d Hok Hmax) as Hans.
  destruct (read_async (source_ r) d) as [src [[pieces|] right_]]; simpl in *.
  - specialize (Hfull pieces eq_refl). simpl in Hfull.
    destruct (_ <? _); [by eexists|]. destruct (_ =? 0); by eexists.
  - destruct right_ as [e|]; [|done]. eexists. split; [done|].
    assert (Hd : decoding (with_source r src) = decoding r)
      by (unfold decoding; simpl; by rewrite Hs).
    split; [constructor; simpl; try done; by rewrite Hs|]. split; [done|].
    destruct (is_read_eof_ e) eqn:Ee.
    + destruct (He e) as [_ Hend]; [done..|]. unfold min_len in Hend. simpl in Hend.
      pose proof (prefix_len_range P). unfold decoding. rewrite Heof, Hz. simpl.
      rewrite drop_0, unwire_eq.
      by destruct (Z.ltb_spec (len (stream (source_ r))) (PREFIX_LEN P)); [|lia].
    + pose proof (decode_source_err_failed e Ee). by destruct (decode_source_err_ e).
Qed.

(** The demand on the source stays within the chunk. *)
Lemma source_demand_spec demand n :
  demand_wf demand → 0 < n → is_usize n →
  ∃ d, source_demand demand n = Ret d ∧ askable d ∧ max_len d = n ∧ min_len d < n.
Proof.
  intros Hd Hn Hu. unfold source_demand, between. unfold is_usize in Hu.
  destruct demand as [a|b|a b]; simpl in *; unfold is_usize in Hd;
    try destruct (Z.ltb_spec a n);
    (eexists; split; [done|]; split; [split|]; unfold max_len, min_len;
      simpl; unfold is_usize, USIZE_MAX in *; lia).
Qed.

(** What a read of the decoder lends, and what its drop consumes. *)
Record lent r (pieces : list (list Z)) : Prop := {
  lent_front : concat pieces `prefix_of` payload r;
  lent_some : pieces ≠ [] ∧ Forall (.≠ []) pieces;
  lent_chunk : ref_count pieces ≤ payload_left_ r;
  lent_drop n :
    0 ≤ n ≤ ref_count pieces →
    recv_ok (drop_consumed r n) ∧
    decoding (drop_consumed r n) = (drop (Z.to_nat n) (payload r), tail r);
}.

Lemma recv_lent r d pieces :
  recv_ok r → eof_ r = false → 0 < payload_left_ r → askable d →
  max_len d = payload_left_ r → min_len d < payload_left_ r →
  (read_async (source_ r) d).2.1 = Some pieces →
  lent (mkRecv (read_async (source_ r) d).1 (payload_left_ r) (eof_ r) d) pieces.
Proof.
  intros [Hok Hb Hu] Heof Hl Hd Hmax Hmin Hp.
  pose proof (read_lends _ _ _ Hok Hd Hp) as (Hpre & Hne & Hall).
  pose proof (read_bounds _ _ _ Hok Hd Hp) as [_ Hc].
  pose proof (read_stream _ d Hok Hd) as Hs.
  pose proof (len_prefix _ _ Hpre) as Hle. fold (ref_count pieces) in Hle.
  set (s := stream (source_ r)) in *. set (L := payload_left_ r) in *.
  set (u := unwire P (drop (Z.to_nat L) s)).
  assert (Hdec : decoding (mkRecv (read_async (source_ r) d).1 L (eof_ r) d) =
    (take (Z.to_nat L) s ++ u.1, u.2)).
  { unfold decoding. simpl. rewrite Heof, Hs. fold s u. by destruct u. }
  assert (Hlen : ref_count pieces ≤ len (take (Z.to_nat L) s)).
  { unfold ref_count, len in *. rewrite length_take. lia. }
  constructor; [|done|simpl; lia|].
  - unfold payload. rewrite Hdec. simpl. etrans; [|by eexists].
    destruct Hpre as [t Ht]. rewrite Ht. rewrite take_app_ge by (unfold ref_count, len in *; lia).
    by eexists.
  - intros n Hn. unfold drop_consumed, payload, tail. simpl. rewrite Hdec.
    destruct (drop_lent _ _ _ n Hok Hd Hp Hn) as [Hok' Hs'].
    simpl in Hs'. fold s in Hs'. split.
    + constructor; simpl; [done| |unfold is_usize in *; lia].
      rewrite Hs'. by apply Forall_drop.
    + unfold decoding. simpl. rewrite Heof, Hs'. simpl.
      rewrite drop_drop. replace (Z.to_nat n + Z.to_nat (L - n))%nat with (Z.to_nat L) by lia.
      fold u. destruct u as [pay tl]. simpl. f_equal.
      rewrite drop_app_le by (unfold len in *; lia). f_equal.
      rewrite skipn_firstn_comm. f_equal. lia.
Qed.

Definition decode_spec r (x : MultipartRecv R * reply (list (list Z)) (RecvError E)) : Prop :=
  let '(r', rep) := x in
  recv_ok r' ∧ decoding r' = decoding r ∧
  match rep with
  | (Some pieces, None) => lent r' pieces
  | (None, Some Recv.Eof) => eof_ r' = true
  | (None, Some Recv.Invalid) => tail r = None
  | (None, Some e) => source_failed e
  | _ => False
  end.

(** The payload read, once the prefix is known. *)
Lemma decode_payload r d :
  recv_ok r → eof_ r = false → 0 < payload_left_ r → askable d →
  max_len d = payload_left_ r → min_len d < payload_left_ r →
  let '(src, (left_, right_)) := read_async (source_ r) d in
  let r' := mkRecv src (payload_left_ r) (eof_ r) d in
  match left_, right_ with
  | Some pieces, _ => decode_spec r (r', (Some pieces, None))
  | None, Some e =>
      decode_spec r (r', (None, Some (if is_read_eof_ e then Recv.Invalid
                                      else decode_source_err_ e)))
  | None, None => False
  end.
Proof.
  intros Hr Heof Hl Hask Hmax Hmin. pose proof Hr as [Hok Hb Hu].
  pose proof (λ pieces, recv_lent r d pieces Hr Heof Hl Hask Hmax Hmin) as Hlent.
  pose proof (read_ok _ d Hok Hask) as Hok'. pose proof (read_stream _ d Hok Hask) as Hs.
  pose proof (λ e, read_eof _ d e Hok Hask) as He. pose proof (read_answers (source_ r) d Hok Hask) as Hans.
  assert (Hr' : recv_ok (mkRecv (read_async (source_ r) d).1 (payload_left_ r) (eof_ r) d))
    by (constructor; simpl; [done|by rewrite Hs|done]).
  assert (Hd : decoding (mkRecv (read_async (source_ r) d).1 (payload_left_ r) (eof_ r) d)
    = decoding r) by (unfold decoding; simpl; by rewrite Hs).
  destruct (read_async (source_ r) d) as [src [[pieces|] [e|]]]; simpl in *; try done;
    (split; [done|]); (split; [done|]); [by apply Hlent|by apply Hlent|].
  destruct (is_read_eof_ e) eqn:Ee.
  - destruct (He e) as [_ Hend]; [done..|].
    unfold tail, decoding. rewrite Heof, drop_ge by (unfold len in Hend; lia).
    rewrite unwire_eq. pose proof (prefix_len_range P).
    by destruct (Z.ltb_spec (len []) (PREFIX_LEN P)) as [|Hx]; [|unfold len in Hx; simpl in Hx; lia].
  - pose proof (decode_source_err_failed e Ee). by destruct (decode_source_err_ e).
Qed.

Lemma decode_spec_eq r r1 x :
  decoding r1 = decoding r → decode_spec r1 x → decode_spec r x.
Proof. intros Hd. unfold decode_spec, tail. by rewrite Hd. Qed.

(** Every read returns, and keeps the payload and what follows it. *)
Lemma decode_no_panic r demand :
  recv_ok r → demand_wf demand →
  ∃ x, multipart_decode_read_async_ P r demand false = Ret x ∧ decode_spec r x.
Proof.
  intros Hr Hdem. unfold multipart_decode_read_async_.
  destruct (eof_ r) eqn:Heof.
  { eexists. split; [done|]. by split; [|split]. }
  destruct (read_prefix_spec r Hr Heof) as ([r1 err] & -> & Hr1 & Hd1 & Herr). simpl.
  destruct err as [e|].
  { eexists. split; [done|]. split; [done|]. split; [done|].
    destruct e; try done. unfold tail. by rewrite Herr. }
  destruct Herr as [Heof1 Hl1].
  destruct (source_demand_spec demand _ Hdem Hl1 (recv_left _ Hr1))
    as (d & -> & Hask & Hmax & Hmin). simpl.
  pose proof (decode_payload r1 d Hr1 Heof1 Hl1 Hask Hmax Hmin) as Hp.
  destruct (read_async (source_ r1) d) as [src [[pieces|] [e|]]]; simpl in *; try done;
    eexists; (split; [done|]); by eapply decode_spec_eq.
Qed.

Lemma recv_read_spec r demand :
  recv_ok r → demand_wf demand →
  decode_spec r (read_async (TrBuffRead:=recv_reader P) r demand).
Proof.
  intros Hr Hd. cbn [read_async recv_reader]. by destruct (decode_no_panic r demand Hr Hd) as (x & -> & Hx).
Qed.

(** The decoder is a reader of the payload. *)
#[export] Instance recv_lawful (Q : option (list Z) → Prop) :
  LawfulReader (MultipartRecv R) (RecvError E) (H:=recv_reader P)
    (λ r, recv_ok r ∧ Q (tail r)) payload.
Proof.
  constructor; intros r d;
    [intros [Hr HQ] [Hwf _]..|intros pieces [Hr HQ] [Hwf _]
    |intros pieces n [Hr HQ] [Hwf _]];
    pose proof (recv_read_spec r d Hr Hwf) as Hspec; unfold decode_spec in Hspec;
    destruct (read_async r d) as [r' [left_ right_]]; simpl in *;
    destruct Hspec as (Hr' & Hd & Hx).
  - by intros [= -> ->].
  - split; [done|]. unfold tail. by rewrite Hd.
  - unfold payload. by rewrite Hd.
  - intros ->. destruct right_; [done|]. unfold payload. rewrite <- Hd.
    destruct Hx as [? ? _ _]. done.
  - intros -> Hn. destruct right_; [done|].
    destruct (lent_drop _ _ Hx n Hn) as [Hr2 Hd2]. split.
    + split; [done|]. unfold tail at 1. rewrite Hd2. unfold tail in *. simpl. by rewrite Hd.
    + unfold payload at 1. rewrite Hd2. unfold payload. simpl. by rewrite Hd.
Qed.

#[export] Instance recv_eof (Q : option (list Z) → Prop) :
  EofReader (MultipartRecv R) (RecvError E) (H:=recv_reader P)
    (λ r, recv_ok r ∧ Q (tail r)) payload.
Proof.
  constructor; intros r d e [Hr HQ] [Hwf _].
  pose proof (recv_read_spec r d Hr Hwf) as Hspec; unfold decode_spec in Hspec.
  destruct (read_async r d) as [r' [left_ right_]]; simpl in *.
  destruct Hspec as (Hr' & Hd & Hx). intros -> He. destruct left_; [done|]. split; [done|].
  enough (payload r = []) as -> by (unfold len; simpl; lia).
  destruct e; simpl in Hx; unfold is_read_eof_ in *; simpl in He; try done.
  - by rewrite He in Hx.
  - unfold payload. rewrite <- Hd. unfold decoding. by rewrite Hx.
Qed.

(** On a stream with an end it is live when its source is. *)
Lemma read_prefix_live r x :
  LiveReader R E ok → recv_ok r → read_prefix P r = Ret x →
  match x.2 with Some (Recv.Source _) | Some Recv.Cancelled => False | _ => True end.
Proof.
  intros Hlive [Hok _ _]. unfold read_prefix. destruct (_ =? 0); [|by intros [= <-]].
  pose proof (askable_prefix P) as Hmax.
  pose proof (read_live (source_ r) (at_least (PREFIX_LEN P)) Hok Hmax) as Hl.
  destruct (read_async _ _) as [src [[ps|] [e|]]]; simpl in *; try done.
  - case_match; [by intros [= <-]|]. by case_match; intros [= <-].
  - rewrite Hl. by intros [= <-].
Qed.

Lemma recv_read_live r d r' e :
  LiveReader R E ok → recv_ok r → demand_wf d →
  multipart_decode_read_async_ P r d false = Ret (r', (None, Some e)) →
  e = Recv.Eof ∨ e = Recv.Invalid.
Proof.
  intros Hlive Hr Hd. unfold multipart_decode_read_async_.
  destruct (eof_ r) eqn:Heof; [intros [= <- <-]; by left|].
  destruct (read_prefix_spec r Hr Heof) as ([r1 err] & E1 & Hr1 & Hd1 & Herr).
  pose proof (read_prefix_live r _ Hlive Hr E1) as Hnot. rewrite E1. simpl in *.
  destruct err as [e1|].
  { intros [= <- <-]. destruct e1; auto; done. }
  destruct Herr as [Heof1 Hl1].
  destruct (source_demand_spec d _ Hd Hl1 (recv_left _ Hr1))
    as (d' & -> & Hask & Hmax & Hmin). simpl.
  pose proof (read_live (source_ r1) d' (recv_source _ Hr1) Hask) as Hl.
  destruct (read_async (source_ r1) d') as [src [[pieces|] [e1|]]]; simpl in *; try done.
  rewrite Hl. intros [= <- <-]. by right.
Qed.

#[export] Instance recv_live extra :
  LiveReader R E ok →
  LiveReader (MultipartRecv R) (RecvError E) (H:=recv_reader P)
    (λ r, recv_ok r ∧ tail r = Some extra).
Proof.
  intros Hlive. constructor. intros r d [Hr Ht] [Hwf _].
  destruct (decode_no_panic r d Hr Hwf) as ([r' rep] & E1 & Hspec).
  cbn [read_async recv_reader]. rewrite E1. simpl.
  destruct Hspec as (_ & _ & Hx). destruct rep as [[ps|] [e|]]; try done.
  destruct (recv_read_live r d r' e Hlive Hr Hwf E1) as [-> | ->]; [done|].
  by rewrite Ht in Hx.
Qed.
End laws.
