(* ===== verification/RingIo.v ===== *)
(** * The consumer of a closed ring, as a reader

    The half [Consumer] of a circular buffer ([CircHalf.v]) implements
    [TrBuffRead] and [TrBufferState]
    ([crates/buffex/src/circular_buff/spsc_.rs]).  When the producer has closed,
    the first attempt of [core_passive_read_async_] is its answer, and nothing is
    awaited.  It meets the contracts of [BuffIo.v], so it can feed the multipart
    codec: its stream is what the ring holds. *)

From S2P Require Import Prelude Demand IoPos Segm CircEnds.
From S2P Require Import CircCore CircLaws CircPump CircHalf BuffIo.

Abbreviation ring := (CircCore BufEnd BufEnd Z).

#[export] Instance consumer_tagged : TrTaggedError ConsumerError ReadErrTag :=
  {| err_tag := consumer_err_tag |}.

(** The bytes of the pieces of a lent segment ([iter_slices]). *)
Definition piece_bytes (mem : gmap Z Z) (a : slice) : list Z :=
  default [] (Segm.fetch mem (s_start a) (Z.to_nat (s_len a))).
Definition lent_pieces (mem : gmap Z Z) (s : Recl.t) : list (list Z) :=
  match Recl.iter_slices s with
  | Ret slices => map (piece_bytes mem) slices
  | Panic => []
  end.

Definition ring_read_async (c : ring) (d : Demand) :
    ring * reply (list (list Z)) ConsumerError :=
  match Consumer.try_read 2 c d with
  | Done (c, Ok s) => (c, (Some (lent_pieces (buffer_ c) s), None))
  | Done (c, Err e) => (c, (None, Some e))
  | _ => (c, (None, None))
  end.

(** The drop of the segment: [ReaderReclaim::reclaim]. *)
Definition ring_drop_ref (c : ring) (n : Z) : ring :=
  match advance_read 2 c n with Done c => c | _ => c end.

#[export] Instance ring_reader : TrBuffRead ring ConsumerError :=
  {| is_drained_closing := Consumer.is_drained_closing;
     read_async := ring_read_async;
     drop_ref := ring_drop_ref |}.

#[export] Instance ring_state : TrBufferState ring :=
  {| capacity := Consumer.capacity;
     data_size := Consumer.data_size;
     free_size := Consumer.free_size;
     is_producer_closed := Consumer.is_producer_closed;
     is_consumer_closed := Consumer.is_consumer_closed |}.

(** ** What the ring holds *)

Definition ring_items {P C} (c : CircCore P C Z) : list Z :=
  concat (lent_pieces (buffer_ c)
    (create_read_segm c (rp (core_pos c)) (core_data_size c))).

Lemma piece_bytes_eq mem i n xs :
  0 ≤ n → len xs = n → (∀ k, 0 ≤ k < n → mem !! (i + k) = xs !! Z.to_nat k) →
  piece_bytes mem (Slice i n) = xs.
Proof.
  intros Hn Hl Hk. unfold piece_bytes. simpl.
  rewrite (proj2 (fetch_Some mem (Z.to_nat n) i xs)); [done|].
  unfold len in Hl. split; [lia|]. intros k Hk'. rewrite Hk by lia. f_equal. lia.
Qed.

(** The empty pieces are skipped, which changes nothing. *)
Lemma filled_pieces mem sls bss :
  Forall2 (λ a bs, len bs = s_len a ∧ piece_bytes mem a = bs) sls bss →
  concat (map (piece_bytes mem) (filter (λ p, s_len p ≠ 0) sls)) = concat bss ∧
  Forall (.≠ []) (map (piece_bytes mem) (filter (λ p, s_len p ≠ 0) sls)).
Proof.
  induction 1 as [|a bs sls bss [Hl Hb] _ [IH1 IH2]]; [by split|].
  rewrite filter_cons. case_decide as Hd; simpl.
  - rewrite Hb, IH1. split; [done|]. constructor; [|done]. by intros ->.
  - assert (bs = []) as -> by (apply len_0; lia). by split.
Qed.

Lemma lent_pieces_one mem a xs :
  0 ≤ s_len a → len xs = s_len a → piece_bytes mem a = xs →
  concat (lent_pieces mem (Recl.new (Recl.One a))) = xs ∧
  Forall (.≠ []) (lent_pieces mem (Recl.new (Recl.One a))).
Proof.
  intros H0 Hl Hb. unfold lent_pieces, Recl.iter_slices, Recl.new. simpl.
  unfold slice_from. rewrite decide_True by lia. cbn -[filter].
  rewrite Z.add_0_r, Z.sub_0_r. rewrite <-(app_nil_r xs).
  apply (filled_pieces mem _ [xs; []]). by repeat constructor; destruct a.
Qed.

Lemma lent_pieces_two mem a b xa xb :
  0 ≤ s_len a → 0 ≤ s_len b → len xa = s_len a → len xb = s_len b →
  piece_bytes mem a = xa → piece_bytes mem b = xb →
  concat (lent_pieces mem (Recl.new (Recl.Two a b))) = xa ++ xb ∧
  Forall (.≠ []) (lent_pieces mem (Recl.new (Recl.Two a b))).
Proof.
  intros Ha Hb Hla Hlb Hpa Hpb. unfold lent_pieces, Recl.iter_slices, Recl.new. simpl.
  destruct a as [ia la], b as [ib lb]. simpl in *.
  destruct (Z.ltb_spec 0 la) as [Hlt|Hlt]; unfold slice_from; simpl;
    rewrite decide_True by (simpl; lia); cbn -[filter].
  - rewrite Z.add_0_r, Z.sub_0_r.
    destruct (filled_pieces mem [Slice ia la; Slice ib lb] [xa; xb]) as [H1 H2]; [by repeat constructor|].
    split; [|exact H2]. etrans; [exact H1|]. simpl. by rewrite app_nil_r.
  - replace (ib + (0 - la)) with ib by lia. replace (lb - (0 - la)) with lb by lia.
    assert (xa = []) as -> by (apply len_0; lia).
    rewrite <-(app_nil_r xb). apply (filled_pieces mem _ [xb; []]). by repeat constructor.
Qed.

Lemma lent_pieces_holds mem p xs :
  Recl.slice_ok p → len xs = Recl.len p → holds mem p 0 xs →
  concat (lent_pieces mem (Recl.new p)) = xs ∧
  Forall (.≠ []) (lent_pieces mem (Recl.new p)).
Proof.
  intros Hok Hlen Hh. unfold holds in Hh. fold (len xs) in Hh. rewrite Hlen in Hh.
  change (∀ k, 0 ≤ k < Recl.len p → mem !! Recl.index p k = xs !! Z.to_nat k) in Hh.
  destruct p as [[ia la]|[ia la] [ib lb]]; simpl in *.
  - apply lent_pieces_one; simpl; [lia|done|]. by apply piece_bytes_eq; [lia|done|].
  - pose proof (take_drop (Z.to_nat la) xs) as Hxs.
    assert (Hla : len (take (Z.to_nat la) xs) = la) by (apply len_take; lia).
    assert (Hlb : len (drop (Z.to_nat la) xs) = lb) by (rewrite len_drop by lia; lia).
    destruct (lent_pieces_two mem (Slice ia la) (Slice ib lb)
      (take (Z.to_nat la) xs) (drop (Z.to_nat la) xs)) as [H1 H2]; simpl; try lia.
    + apply piece_bytes_eq; [lia|done|]. intros k Hk.
      rewrite lookup_take_lt, <- Hh by lia. by destruct (Z.ltb_spec k la); [|lia].
    + apply piece_bytes_eq; [lia|done|]. intros k Hk. rewrite lookup_drop.
      replace (Z.to_nat la + Z.to_nat k)%nat with (Z.to_nat (la + k)) by lia.
      rewrite <- Hh by lia. destruct (Z.ltb_spec (la + k) la); [lia|]. f_equal. lia.
    + split; [|exact H2]. by rewrite H1.
Qed.

Lemma ring_items_eq {P C} `{TrProducer P Z} `{TrConsumer C Z} (c : CircCore P C Z) R W items :
  core_ring c R W items → ring_items c = items.
Proof.
  intros Hr. pose proof (ring_length _ _ _ _ Hr) as Hl.
  destruct (ring_sizes _ _ _ _ Hr) as (_ & Hd & _).
  unfold ring_items. rewrite Hd.
  destruct (ring_used_region c R W items (W - R) Hr) as ((Hok & _) & _ & Hlc & Hh); [lia|].
  unfold create_read_segm, Recl.least_count in *. simpl in *. rewrite Z.sub_0_r in Hlc.
  rewrite take_ge in Hh by lia. unfold CircCore.capacity in *.
  apply lent_pieces_holds; [done|unfold len; lia|done].
Qed.

(** The ring whose producer has closed, and its consumer has not. *)
Definition ring_ok (c : ring) : Prop :=
  (∃ R W, core_ring c R W (ring_items c)) ∧ is_tx_closed c = true ∧ is_rx_closed c = false.

Lemma ring_closed_attempt (c : ring) d :
  ring_ok c → askable d →
  try_read_at c d =
    Ret (if len (ring_items c) =? 0 then Err CClosing
         else Ok (rp (core_pos c), Z.min (max_len d) (len (ring_items c)))).
Proof.
  intros [(R & W & Hr) [Hc _]] [_ Hm]. pose proof (ring_length _ _ _ _ Hr) as Hl.
  destruct (ring_sizes _ _ _ _ Hr) as (_ & Hd & _).
  unfold try_read_at, try_read_at_word. fold (core_pos c). fold (is_tx_closed c).
  change (IoPos.data_size (core_pos c)) with (core_data_size c). rewrite Hd, Hc.
  unfold len in *. rewrite Hl. destruct (Z.eqb_spec (W - R) 0); [done|].
  rewrite andb_false_r. simpl. by destruct (Z.ltb_spec 0 (Z.min (max_len d) (W - R))); [|lia].
Qed.

(** One read: the front of the content is lent, or the end is reported. *)
Lemma ring_read_eq (c : ring) d :
  ring_ok c → askable d →
  let n := Z.min (max_len d) (len (ring_items c)) in
  (ring_items c = [] ∧ ring_read_async c d = (c, (None, Some CClosing))) ∨
  (ring_items c ≠ [] ∧ 0 < n ∧ ∃ pieces,
     ring_read_async c d = (c, (Some pieces, None)) ∧ Forall (.≠ []) pieces ∧
     concat pieces = take (Z.to_nat n) (ring_items c)).
Proof.
  intros Hok Hd n. pose proof (ring_closed_attempt c d Hok Hd) as Ha.
  unfold ring_read_async, Consumer.try_read, try_read_. rewrite Ha.
  destruct (Z.eqb_spec (len (ring_items c)) 0) as [H0|H0].
  { left. split; [apply len_0; lia|]. done. }
  right. assert (Hne : ring_items c ≠ []) by (intros E; by rewrite E in H0).
  pose proof (len_pos _ Hne). destruct Hd as [_ Hm].
  split; [done|]. split; [lia|]. fold n.
  eexists. split; [reflexivity|].
  destruct Hok as [(R & W & Hr) _]. pose proof (ring_length _ _ _ _ Hr) as Hl.
  destruct (ring_used_region c R W _ n Hr) as ((Hok & _) & _ & Hlc & Hh);
    [unfold len in *; lia|].
  unfold create_read_segm, Recl.least_count in *. simpl in *. rewrite Z.sub_0_r in Hlc.
  destruct (lent_pieces_holds (buffer_ c) (read_pieces (CircCore.capacity c)
    (rp (core_pos c)) n) (take (Z.to_nat n) (ring_items c))); try done.
  by rewrite len_take by lia.
Qed.

Lemma ring_drop_ok (c : ring) n :
  ring_ok c → 0 ≤ n ≤ len (ring_items c) →
  ring_ok (ring_drop_ref c n) ∧
  ring_items (ring_drop_ref c n) = drop (Z.to_nat n) (ring_items c).
Proof.
  intros [(R & W & Hr) [Hc Hx]] Hn. pose proof (ring_length _ _ _ _ Hr) as Hl.
  unfold ring_drop_ref. rewrite advance_read_passive by (done || lia).
  destruct (commit_read_ring (λ _, []) (λ _, []) c R W _ n Hr) as [Hr' Hm];
    [unfold len in Hn; lia|].
  pose proof (ring_items_eq _ _ _ _ Hr') as Hi. split; [|done].
  split; [eexists _, _; by rewrite Hi|].
  destruct (moved_closed _ _ _ _ _ _ Hm) as [-> ->]. by split.
Qed.

(** ** The contracts *)

#[export] Instance ring_lawful : LawfulReader ring ConsumerError ring_ok ring_items.
Proof.
  constructor; intros c d.
  - intros Hok Hd. simpl. by destruct (ring_read_eq c d Hok Hd) as
      [(_ & ->)|(_ & _ & ps & -> & _)].
  - intros Hok Hd. simpl. by destruct (ring_read_eq c d Hok Hd) as
      [(_ & ->)|(_ & _ & ps & -> & _)].
  - intros Hok Hd. simpl. by destruct (ring_read_eq c d Hok Hd) as
      [(_ & ->)|(_ & _ & ps & -> & _)].
  - intros pieces Hok Hd. simpl.
    destruct (ring_read_eq c d Hok Hd) as [(_ & ->)|(Hne & Hn & ps & -> & Hps & Hc)]; [done|].
    intros [= <-]. split; [|split; [|done]].
    + rewrite Hc. eexists. symmetry. apply take_drop.
    + intros ->. symmetry in Hc. apply take_max_nonempty in Hc; [done|done|lia].
  - intros pieces n Hok Hd. simpl.
    destruct (ring_read_eq c d Hok Hd) as [(_ & ->)|(_ & Hn & ps & -> & _ & Hc)]; [done|].
    intros [= <-] Hn'. apply ring_drop_ok; [done|].
    unfold ref_count in Hn'. rewrite Hc, len_take in Hn' by lia. lia.
Qed.

#[export] Instance ring_eof : EofReader ring ConsumerError ring_ok ring_items.
Proof.
  constructor; intros c d e Hok Hd. simpl.
  destruct (ring_read_eq c d Hok Hd) as [(-> & ->)|(_ & _ & ps & -> & _)]; [|done].
  intros [= <-] _. split; [done|]. unfold len. simpl. lia.
Qed.

#[export] Instance ring_bounded : BoundedReader ring ConsumerError ring_ok ring_items.
Proof.
  constructor. intros c d pieces Hok Hd. simpl.
  destruct (ring_read_eq c d Hok Hd) as [(_ & ->)|(_ & Hn & ps & -> & _ & Hc)]; [done|].
  intros [= <-]. unfold ref_count. rewrite Hc, len_take by lia.
  destruct Hd as [Hwf _]. pose proof (min_max_len d Hwf). lia.
Qed.

#[export] Instance ring_live : LiveReader ring ConsumerError ring_ok.
Proof.
  constructor. intros c d Hok Hd. simpl.
  by destruct (ring_read_eq c d Hok Hd) as [(_ & ->)|(_ & _ & ps & -> & _)].
Qed.

#[export] Instance ring_source : LawfulSource ring ConsumerError ring_ok ring_items.
Proof.
  assert (Hsize : ∀ c, ring_ok c → core_data_size c = len (ring_items c)).
  { intros c [(R & W & Hr) _]. pose proof (ring_length _ _ _ _ Hr) as Hl.
    destruct (ring_sizes _ _ _ _ Hr) as (_ & -> & _). by unfold len. }
  constructor; simpl; unfold Consumer.data_size.
  - intros c Hok. rewrite Hsize by done. pose proof (len_nonneg (ring_items c)). lia.
  - intros c Hok _. rewrite Hsize by done. intros H0. apply len_0. lia.
  - intros c d pieces Hok Hd.
    destruct (ring_read_eq c d Hok Hd) as [(_ & ->)|(Hne & _ & ps & -> & _)]; [done|].
    intros _. simpl. pose proof (len_pos _ Hne).
    destruct (ring_drop_ok c 0 Hok) as [Hok' Hi]; [lia|].
    rewrite Hsize, Hi by done. done.
Qed.

(** ** An example *)

(** A ring of four slots, its counters past one wrap, that holds three bytes and
    whose producer has closed. *)
Definition closed_ring : ring :=
  let c := core_new buf_new buf_new 4 in
  let put (c : ring) (i : Z) (b : Z) := with_buffer c (<[i := b]> (buffer_ c)) in
  let c := commit_write (put (put (put c 0 9) 1 9) 2 9) 3 in
  let c := commit_read c 3 in
  let c := commit_write (put (put (put c 3 7) 0 8) 1 255) 3 in
  set_flag_ c TX_CLOSED.

Lemma closed_ring_ok : ring_ok closed_ring ∧ ring_items closed_ring = [7; 8; 255].
Proof.
  assert (Hr : core_ring closed_ring 3 6 [7; 8; 255]).
  { constructor; try by vm_compute.
    intros k Hk. assert (k = 0 ∨ k = 1 ∨ k = 2) as [-> | [-> | ->]] by lia; by vm_compute. }
  pose proof (ring_items_eq _ _ _ _ Hr) as Hi. split; [|done].
  split; [eexists _, _; by rewrite Hi|]. split; by vm_compute.
Qed.
