(* ===== verification/Join.v ===== *)
(** * Joining a reader to a writer

    Models [pipe_async_] of [crates/abs_buff/src/pipelining/join.rs]: segments of
    the reader are moved, piece by piece, into segments of the writer until one of
    the two ends.  It is written against the classes of [BuffIo.v] and proved
    against their laws; the rings of [RingIo.v] and the byte slices are readers,
    the byte slices writers. *)

From S2P Require Import Prelude Demand CircEnds BuffIo CircCore CircPump CircHalf RingIo.

(** ** The pipe *)

(** [PipeJoinIoResult]. *)
Inductive PipeJoinIoResult (WE RE : Type) : Type :=
| TxErr (count : Z) (err : WE)
| RxErr (count : Z) (err : RE)
| TxBlocked (count : Z)
| RxDrained (count : Z)
| SizeLimit (count : Z)
| NoOps.
Arguments TxErr {WE RE} count err.
Arguments RxErr {WE RE} count err.
Arguments TxBlocked {WE RE} count.
Arguments RxDrained {WE RE} count.
Arguments SizeLimit {WE RE} count.
Arguments NoOps {WE RE}.

(** The segment to read after a move of [n] items out of it. *)
Fixpoint ref_advance (pieces : list (list Z)) (n : Z) : list (list Z) :=
  match pieces with
  | [] => []
  | piece :: rest =>
      if n <? len piece then drop (Z.to_nat n) piece :: rest
      else ref_advance rest (n - len piece)
  end.

Section pipe.
Context {R RE W WE : Type} `{TrBuffRead R RE} `{TrTaggedError RE ReadErrTag}
  `{TrBuffWrite W WE} `{TrTaggedError WE WriteErrTag}.

Record PipeJoin : Type := mkPipe { buff_w_ : W; buff_r_ : R }.
Implicit Types pj : PipeJoin.

(** The inner loop, which empties one segment of the reader: [rx] is what is left
    of it, [n] the items taken out of it so far.  A terminating error of the
    writer comes back with the target. *)
Fixpoint move_segm (fuel : nat) (tgt : W) (rx : list (list Z)) (n c : Z) :
    exec (W * Z * Z * option WE) :=
  match fuel with
  | O => OutOfFuel
  | S fuel =>
      let rx_buf_capacity := ref_count rx in
      if rx_buf_capacity =? 0 then
        if c =? 0 then Aborted else Done (tgt, n, c, None)
      else
        let '(tgt, (left_, right_)) := write_async tgt (less_than rx_buf_capacity) in
        '(tgt, rx, n, c) ←
          match left_ with
          | Some room =>
              let rx_child := hd [] rx in
              let tx_child := hd 0 room in
              let copied := Z.min (len rx_child) tx_child in
              match checked_add c copied with
              | Some c =>
                  Done (drop_mut tgt (take (Z.to_nat copied) rx_child),
                    ref_advance rx copied, n + copied, c)
              | None => Aborted
              end
          | None => Done (tgt, rx, n, c)
          end;
        match right_ with
        | Some tx_err =>
            if write_should_terminate (err_tag tx_err) then Done (tgt, n, c, Some tx_err)
            else move_segm fuel tgt rx n c
        | None => move_segm fuel tgt rx n c
        end
  end.

(** The outer loop; the segment of the reader is dropped before its error is
    looked at. *)
Fixpoint pipe_loop (fuel : nat) pj (c : Z) : exec (PipeJoin * PipeJoinIoResult WE RE) :=
  match fuel with
  | O => OutOfFuel
  | S fuel =>
      if c =? USIZE_MAX then Done (pj, SizeLimit c)
      else if is_stuffed_closing (buff_w_ pj) then Done (pj, TxBlocked c)
      else if is_drained_closing (buff_r_ pj) then Done (pj, RxDrained c)
      else
        let '(src, (left_, right_)) := read_async (buff_r_ pj) (less_than (USIZE_MAX - c)) in
        '(pj, c, tx_err) ←
          match left_ with
          | Some rx_segm =>
              '(tgt, n, c, tx_err) ← move_segm fuel (buff_w_ pj) rx_segm 0 c;
              Done (mkPipe tgt (drop_ref src n), c, tx_err)
          | None => Done (mkPipe (buff_w_ pj) src, c, None)
          end;
        match tx_err with
        | Some tx_err => Done (pj, TxErr c tx_err)
        | None =>
            match right_ with
            | Some rx_err =>
                if read_should_terminate (err_tag rx_err) then Done (pj, RxErr c rx_err)
                else pipe_loop fuel pj c
            | None => pipe_loop fuel pj c
            end
        end
  end.

(** [pipe_async_], for items of [size_of] bytes. *)
Definition pipe_async_ (size_of : Z) (fuel : nat) pj : exec (PipeJoin * PipeJoinIoResult WE RE) :=
  if size_of =? 0 then Done (pj, NoOps) else pipe_loop fuel pj 0.
End pipe.
Arguments PipeJoin : clear implicits.
Arguments mkPipe {R W}.
Arguments buff_w_ {R W}.
Arguments buff_r_ {R W}.

(** What the result says was moved. *)
Definition count_of {WE RE} (r : PipeJoinIoResult WE RE) : Z :=
  match r with
  | TxErr c _ | RxErr c _ | TxBlocked c | RxDrained c | SizeLimit c => c
  | NoOps => 0
  end.

(** ** The size queries a pipe relies on *)

(** A reader says it is drained exactly when its stream has ended. *)
Class DrainedReader (R E : Type) `{TrBuffRead R E}
    (ok : R → Prop) (stream : R → list Z) : Prop := {
  drained_iff r : ok r → is_drained_closing r = true ↔ stream r = [];
}.

(** A writer that says it is stuffed has no room left. *)
Class StuffedWriter (W E : Type) `{TrBuffWrite W E} (ok : W → Prop)
    (fits : W → Z → Prop) : Prop := {
  stuffed_full w n : ok w → is_stuffed_closing w = true → fits w n → n ≤ 0;
}.

#[export] Instance slice_drained :
  DrainedReader (list Z) (BorrowedSliceError ReadErrTag) slice_ok id.
Proof.
  constructor. intros r _. simpl. unfold id. rewrite Z.eqb_eq. split; [|by intros ->].
  intros E. apply len_0. lia.
Qed.

#[export] Instance slice_stuffed :
  StuffedWriter slice_mut (BorrowedSliceError WriteErrTag) slice_mut_ok
    (λ w n, n ≤ len (rest w)).
Proof. constructor. intros w n _ E%Z.eqb_eq Hn. simpl in *. lia. Qed.

#[export] Instance ring_drained : DrainedReader ring ConsumerError ring_ok ring_items.
Proof.
  constructor. intros c [(R & W & Hr) [Hc Hx]]. simpl.
  unfold Consumer.is_drained_closing. rewrite Hc, Hx. simpl.
  destruct (ring_sizes _ _ _ _ Hr) as (_ & -> & _).
  rewrite <- (ring_length _ _ _ _ Hr). fold (len (ring_items c)). rewrite Z.eqb_eq.
  split; [intros E; apply len_0; lia|by intros ->].
Qed.

(** ** What the pipe moves *)

Lemma ref_advance_drop pieces n :
  Forall (.≠ []) pieces → 0 ≤ n →
  concat (ref_advance pieces n) = drop (Z.to_nat n) (concat pieces) ∧
  Forall (.≠ []) (ref_advance pieces n).
Proof.
  intros Hp. revert n. induction Hp as [|p r Hne Hr IH]; intros n Hn; simpl.
  { by rewrite drop_nil. }
  destruct (Z.ltb_spec n (len p)) as [Hlt|Hge]; unfold len in *.
  - simpl. rewrite drop_app_le by lia. split; [done|]. constructor; [|done].
    intros E%(f_equal length). rewrite length_drop in E. simpl in E. lia.
  - destruct (IH (n - Z.of_nat (length p))) as [-> Hf]; [lia|]. split; [|done].
    rewrite drop_app_ge by lia. f_equal. lia.
Qed.

Section sound.
Context {R RE W WE : Type} `{TrBuffRead R RE} `{TrTaggedError RE ReadErrTag}
  `{TrBuffWrite W WE} `{TrTaggedError WE WriteErrTag}.
Context (rok : R → Prop) (stream : R → list Z) (wok : W → Prop) (written : W → list Z)
  (grain : Z) (Hgrain : 0 ≤ grain).
Context `{!LawfulReader R RE rok stream, !BoundedReader R RE rok stream,
  !DrainedReader R RE rok stream, !LawfulWriter W WE wok written grain}.
Implicit Types pj : PipeJoin R W.

(** From [pj] to [pj'], the items [p] have gone from the source to the target. *)
Record carried pj pj' (p : list Z) : Prop := {
  carried_rok : rok (buff_r_ pj');
  carried_wok : wok (buff_w_ pj');
  carried_stream : stream (buff_r_ pj) = p ++ stream (buff_r_ pj');
  carried_written : written (buff_w_ pj') = written (buff_w_ pj) ++ p;
}.
Definition pipe_ok pj : Prop := rok (buff_r_ pj) ∧ wok (buff_w_ pj).

Lemma carried_refl pj : pipe_ok pj → carried pj pj [].
Proof. intros []. constructor; rewrite ?app_nil_r; done. Qed.
Lemma carried_ok pj pj' p : carried pj pj' p → pipe_ok pj'.
Proof. intros []. by split. Qed.
Lemma carried_trans pj1 pj2 pj3 p q :
  carried pj1 pj2 p → carried pj2 pj3 q → carried pj1 pj3 (p ++ q).
Proof.
  intros [? ? Hs Hw] [? ? Hs' Hw']. constructor; [done|done|..].
  - by rewrite Hs, Hs', app_assoc.
  - by rewrite Hw', Hw, app_assoc.
Qed.

(** One move: [m] items leave the front of the segment and reach the target. *)
Lemma move_one tgt rx room :
  wok tgt → Forall (.≠ []) rx → 1 ≤ ref_count rx ≤ USIZE_MAX →
  (write_async tgt (less_than (ref_count rx))).2.1 = Some room →
  let m := Z.min (len (hd [] rx)) (hd 0 room) in
  let tgt' := drop_mut (write_async tgt (less_than (ref_count rx))).1
    (take (Z.to_nat m) (hd [] rx)) in
  1 ≤ m ≤ ref_count rx ∧ m ≤ mut_count room ∧ wok tgt' ∧
  take (Z.to_nat m) (hd [] rx) = take (Z.to_nat m) (concat rx) ∧
  written tgt' = written tgt ++ take (Z.to_nat m) (concat rx).
Proof.
  intros Hw Hrx Hc Hroom m tgt'. pose proof (grantable_less_than _ _ Hgrain Hc) as Hask.
  destruct (write_lends tgt _ room Hw Hask Hroom) as (Hne & Hpos & _).
  destruct rx as [|p rx]; [by destruct Hc as [[] _]|].
  destruct room as [|a room]; [done|]. simpl in m.
  apply Forall_cons in Hpos as [Ha Hpos]. apply Forall_cons in Hrx as [Hp _].
  pose proof (len_pos p Hp). pose proof (mut_count_nonneg room Hpos) as Hmc.
  assert (Hrc : ref_count (p :: rx) = len p + len (concat rx))
    by (unfold ref_count; simpl; apply len_app).
  pose proof (len_nonneg (concat rx)).
  assert (Ht : take (Z.to_nat m) p = take (Z.to_nat m) (concat (p :: rx))).
  { apply take_prefix_eq; [by eexists|lia]. }
  assert (Hm : m ≤ mut_count (a :: room)) by (unfold mut_count in *; simpl; lia).
  destruct (drop_written tgt _ _ (take (Z.to_nat m) p) Hw Hask Hroom) as [Hw' Hwr].
  { rewrite len_take by lia. done. }
  split; [lia|]. split; [done|]. split; [done|]. split; [done|].
  unfold tgt'. simpl hd. by rewrite Hwr, Ht.
Qed.

(** What the inner loop does: [p] leaves the segment, all of it unless the writer
    fails for good. *)
Definition segm_moved tgt (rx : list (list Z)) (n c : Z) (x : W * Z * Z * option WE) : Prop :=
  let '(tgt', n', c', err) := x in
  ∃ p, p `prefix_of` concat rx ∧ wok tgt' ∧ written tgt' = written tgt ++ p ∧
    n' = n + len p ∧ c' = c + len p ∧
    match err with
    | Some e => write_should_terminate (err_tag e) = true
    | None => p = concat rx
    end.

Lemma segm_moved_step tgt tgt1 rx rx1 q n c x :
  concat rx = q ++ concat rx1 → written tgt1 = written tgt ++ q →
  segm_moved tgt1 rx1 (n + len q) (c + len q) x → segm_moved tgt rx n c x.
Proof.
  intros Hq Hw1. destruct x as [[[tgt' n'] c'] err].
  intros (p & Hp & Hok & Hw & -> & -> & He). exists (q ++ p).
  rewrite Hq, len_app. split; [by apply prefix_app|]. split; [done|].
  split; [by rewrite Hw, Hw1, app_assoc|]. split; [lia|]. split; [lia|].
  destruct err; [done|by rewrite He].
Qed.

(** After a grant: the loop goes on, unless the writer has failed for good. *)
Lemma after_grant (right_ : option WE) (tgt : W) (rx : list (list Z)) (n c : Z)
    (tgt2 : W) (rx2 : list (list Z)) (n2 c2 : Z) fuel :
  safe (move_segm (WE:=WE) fuel tgt2 rx2 n2 c2) (segm_moved tgt rx n c) →
  (∀ e, write_should_terminate (err_tag e) = true →
     segm_moved tgt rx n c (tgt2, n2, c2, Some e)) →
  safe (match right_ with
    | Some tx_err =>
        if write_should_terminate (err_tag tx_err)
        then Done (tgt2, n2, c2, Some tx_err) else move_segm fuel tgt2 rx2 n2 c2
    | None => move_segm fuel tgt2 rx2 n2 c2
    end) (segm_moved tgt rx n c).
Proof.
  intros Hgo Hstop. destruct right_ as [e|]; [|done].
  destruct (write_should_terminate (err_tag e)) eqn:Ee; [by apply Hstop|done].
Qed.

Lemma empty_segm rx : Forall (.≠ []) rx → ref_count rx = 0 → rx = [].
Proof.
  intros Hrx E. destruct Hrx as [|p rx Hp]; [done|]. pose proof (len_pos p Hp).
  unfold ref_count in E. simpl in E. rewrite len_app in E.
  pose proof (len_nonneg (concat rx)). lia.
Qed.

Lemma move_segm_spec fuel : ∀ tgt rx n c,
  wok tgt → Forall (.≠ []) rx → 0 ≤ c → c + ref_count rx ≤ USIZE_MAX →
  (c = 0 → rx ≠ []) →
  safe (move_segm (WE:=WE) fuel tgt rx n c) (segm_moved tgt rx n c).
Proof.
  induction fuel as [|fuel IH]; intros tgt rx n c Hw Hrx Hc Hmax Hne; [done|].
  simpl move_segm. destruct (Z.eqb_spec (ref_count rx) 0) as [E|E].
  { apply empty_segm in E as ->; [|done].
    destruct (Z.eqb_spec c 0) as [->|]; [by destruct Hne|]. simpl.
    exists []. unfold len. simpl. rewrite app_nil_r. repeat split; (done || lia). }
  assert (Hrc : 1 ≤ ref_count rx ≤ USIZE_MAX).
  { unfold ref_count in *. pose proof (len_nonneg (concat rx)). lia. }
  pose proof (grantable_less_than _ _ Hgrain Hrc) as Hask.
  pose proof (write_ok tgt _ Hw Hask) as Hw1.
  pose proof (write_keeps tgt _ Hw Hask) as Hkeep.
  pose proof (λ room, move_one tgt rx room Hw Hrx Hrc) as Hone.
  destruct (write_async tgt (less_than (ref_count rx))) as [tgt1 [[room|] right_]]; simpl in *.
  - destruct (Hone room eq_refl) as (Hm & _ & Hw2 & Ht & Hwr).
    set (m := Z.min (len (hd [] rx)) (hd 0 room)) in *.
    rewrite (proj2 (checked_add_Some c m (c + m))) by lia. simpl.
    destruct (ref_advance_drop rx m Hrx) as [Hdrop Hf]; [lia|].
    assert (Hlm : len (take (Z.to_nat m) (concat rx)) = m) by (apply len_take; unfold ref_count in Hm; lia).
    apply after_grant.
    + eapply safe_mono; [apply IH; try done; try lia|].
      * unfold ref_count in *. rewrite Hdrop, len_drop by lia. lia.
      * intros x Hx. eapply segm_moved_step;
          [by rewrite Hdrop, (take_drop (Z.to_nat m) (concat rx))|exact Hwr|by rewrite Hlm].
    + intros e He. exists (take (Z.to_nat m) (concat rx)). rewrite Hlm.
      split; [apply prefix_take|]. by repeat split.
  - apply after_grant.
    + eapply safe_mono; [by apply IH|]. intros x Hx.
      eapply (segm_moved_step tgt tgt1 rx rx []); [done|by rewrite app_nil_r|].
      unfold len. simpl. by rewrite !Z.add_0_r.
    + intros e He. exists []. unfold len. simpl. rewrite app_nil_r, !Z.add_0_r.
      split; [apply prefix_nil|]. by repeat split.
Qed.

(** What the pipe has done when it returns. *)
Definition piped pj (c : Z) (x : PipeJoin R W * PipeJoinIoResult WE RE) : Prop :=
  let '(pj', r) := x in
  ∃ p, carried pj pj' p ∧ count_of r = c + len p ∧
    match r with
    | TxErr _ e => write_should_terminate (err_tag e) = true
    | RxErr _ e => read_should_terminate (err_tag e) = true
    | TxBlocked _ => is_stuffed_closing (buff_w_ pj') = true
    | RxDrained _ => stream (buff_r_ pj') = []
    | SizeLimit n => n = USIZE_MAX
    | NoOps => False
    end.

Lemma piped_now pj c r :
  pipe_ok pj → count_of r = c →
  match r with
  | TxErr _ e => write_should_terminate (err_tag e) = true
  | RxErr _ e => read_should_terminate (err_tag e) = true
  | TxBlocked _ => is_stuffed_closing (buff_w_ pj) = true
  | RxDrained _ => stream (buff_r_ pj) = []
  | SizeLimit n => n = USIZE_MAX
  | NoOps => False
  end → piped pj c (pj, r).
Proof.
  intros Hok Hc Hr. exists []. split; [by apply carried_refl|].
  split; [unfold len; simpl; lia|done].
Qed.

Lemma piped_step pj pj1 p c x :
  carried pj pj1 p → piped pj1 (c + len p) x → piped pj c x.
Proof.
  intros Hp. destruct x as [pj' r]. intros (q & Hq & Hc & Hr).
  exists (p ++ q). rewrite len_app. split; [by eapply carried_trans|].
  split; [lia|done].
Qed.

(** One segment of the reader: what was taken of it has reached the target. *)
Definition round pj (c : Z) (x : PipeJoin R W * Z * option WE) : Prop :=
  let '(pj', c', err) := x in
  ∃ p, carried pj pj' p ∧ c' = c + len p ∧ c' ≤ USIZE_MAX ∧
    match err with Some e => write_should_terminate (err_tag e) = true | None => True end.

Lemma round_spec pj fuel c rx_segm :
  pipe_ok pj → 0 ≤ c < USIZE_MAX →
  (read_async (buff_r_ pj) (less_than (USIZE_MAX - c))).2.1 = Some rx_segm →
  safe ('(tgt, n, c', tx_err) ← move_segm (WE:=WE) fuel (buff_w_ pj) rx_segm 0 c;
        Done (mkPipe tgt (drop_ref (read_async (buff_r_ pj)
          (less_than (USIZE_MAX - c))).1 n), c', tx_err)) (round pj c).
Proof.
  intros [Hr Hw] Hc Hl. assert (Hask : askable (less_than (USIZE_MAX - c))).
  { apply askable_less_than. lia. }
  destruct (read_lends _ _ _ Hr Hask Hl) as (Hpre & Hne & Hpos).
  pose proof (read_bounds _ _ _ Hr Hask Hl) as Hb.
  assert (Hmax : c + ref_count rx_segm ≤ USIZE_MAX).
  { unfold max_len in Hb. simpl in Hb. lia. }
  eapply safe_bind; [by apply move_segm_spec; try lia|].
  intros [[[tgt n] c'] err] (p & Hp & Hw' & Hwr & -> & -> & He). simpl.
  pose proof (len_prefix _ _ Hp) as Hlp. fold (ref_count rx_segm) in Hlp.
  pose proof (len_nonneg p).
  destruct (drop_lent _ _ _ (len p) Hr Hask Hl) as [Hrok Hst]; [lia|].
  exists p. split; [|split; [done|]; split; [lia|by destruct err]].
  rewrite Z.add_0_l.
  constructor; cbn [buff_r_ buff_w_]; [done|done| |done].
  rewrite Hst. destruct (transitivity Hp Hpre) as [q ->].
  f_equal. unfold len. by rewrite Nat2Z.id, drop_app_length.
Qed.

Lemma pipe_loop_spec fuel : ∀ pj c,
  pipe_ok pj → 0 ≤ c ≤ USIZE_MAX → safe (pipe_loop (RE:=RE) (WE:=WE) fuel pj c) (piped pj c).
Proof.
  induction fuel as [|fuel IH]; intros pj c Hok Hc; [done|].
  simpl pipe_loop. destruct (Z.eqb_spec c USIZE_MAX); [by apply piped_now|].
  destruct (is_stuffed_closing (buff_w_ pj)) eqn:Es; [by apply piped_now|].
  destruct (is_drained_closing (buff_r_ pj)) eqn:Ed.
  { apply piped_now; [done..|]. by apply drained_iff; [apply Hok|]. }
  pose proof (λ rx, round_spec pj fuel c rx Hok ltac:(lia)) as Hround.
  assert (Hask : askable (less_than (USIZE_MAX - c))) by (apply askable_less_than; lia).
  destruct Hok as [Hr Hw].
  pose proof (read_ok (buff_r_ pj) _ Hr Hask) as Hr1.
  pose proof (read_stream (buff_r_ pj) _ Hr Hask) as Hs1.
  destruct (read_async _ _) as [src [left_ right_]]. simpl in *.
  apply (safe_bind _ _ (round pj c)).
  { destruct left_ as [rx|]; [by apply Hround|]. exists [].
    split; [|unfold len; simpl; lia]. constructor; rewrite ?app_nil_r; done. }
  intros [[pj1 c1] err] (p & Hp & -> & Hc1 & He). pose proof (len_nonneg p).
  pose proof (carried_ok _ _ _ Hp) as Hok1.
  destruct err as [e|]; cbn beta iota.
  { change (piped pj c (pj1, TxErr (c + len p) e)).
    eapply piped_step; [exact Hp|]. by apply piped_now. }
  assert (Hgo : safe (pipe_loop (RE:=RE) (WE:=WE) fuel pj1 (c + len p)) (piped pj c)).
  { eapply safe_mono; [apply IH; [done|lia]|]. intros x. by apply piped_step. }
  destruct right_ as [e|]; [|done].
  destruct (read_should_terminate (err_tag e)) eqn:Ee; [|done].
  change (piped pj c (pj1, RxErr (c + len p) e)).
  eapply piped_step; [exact Hp|]. by apply piped_now.
Qed.

(** ** The pipe ends *)

Context (fits : W → Z → Prop) `{!EofReader R RE rok stream, !LiveReader R RE rok}
  `{!LiveWriter W WE wok fits grain,
  !StuffedWriter W WE wok fits}.

Lemma move_segm_live fuel : ∀ tgt rx n c N,
  wok tgt → Forall (.≠ []) rx → 0 ≤ c → c + ref_count rx ≤ USIZE_MAX →
  (c = 0 → rx ≠ []) → fits tgt N → ref_count rx ≤ N → ref_count rx < Z.of_nat fuel →
  ∃ tgt', move_segm (WE:=WE) fuel tgt rx n c
            = Done (tgt', n + ref_count rx, c + ref_count rx, None) ∧
    fits tgt' (N - ref_count rx).
Proof.
  induction fuel as [|fuel IH]; intros tgt rx n c N Hw Hrx Hc Hmax Hne Hfit HN Hf;
    pose proof (len_nonneg (concat rx)) as Hnn; fold (ref_count rx) in Hnn; [lia|].
  simpl move_segm. destruct (Z.eqb_spec (ref_count rx) 0) as [E|E].
  { rewrite E, !Z.add_0_r, Z.sub_0_r. destruct (Z.eqb_spec c 0) as [->|]; [|by eexists].
    exfalso. destruct Hrx as [|p rx Hp]; [by destruct Hne|].
    unfold ref_count in E. simpl in E. rewrite len_app in E.
    pose proof (len_pos p Hp). pose proof (len_nonneg (concat rx)). lia. }
  assert (Hrc : 1 ≤ ref_count rx ≤ USIZE_MAX) by lia.
  pose proof (grantable_less_than _ _ Hgrain Hrc) as Hask.
  destruct (write_live tgt _ N Hw Hask Hfit) as [room Hroom]; [unfold min_len; simpl; lia|].
  assert (Hl : (write_async tgt (less_than (ref_count rx))).2.1 = Some room) by by rewrite Hroom.
  pose proof (move_one tgt rx room Hw Hrx Hrc Hl) as Hone.
  pose proof (λ bs, drop_fits tgt _ N room bs Hw Hask Hfit Hl) as Hdf.
  destruct (write_async tgt (less_than (ref_count rx))) as [tgt1 x]. simpl in Hroom. subst x.
  simpl in *. destruct Hone as (Hm & Hmr & Hw2 & Ht & Hwr).
  set (m := Z.min (len (hd [] rx)) (hd 0 room)) in *.
  rewrite (proj2 (checked_add_Some c m (c + m))) by lia. simpl.
  destruct (ref_advance_drop rx m Hrx) as [Hdrop Hff]; [lia|].
  assert (Hlm : len (take (Z.to_nat m) (hd [] rx)) = m) by (apply len_take; lia).
  assert (Hrest : ref_count (ref_advance rx m) = ref_count rx - m).
  { unfold ref_count in *. by rewrite Hdrop, len_drop by lia. }
  specialize (Hdf (take (Z.to_nat m) (hd [] rx))). rewrite Hlm in Hdf.
  destruct (IH (drop_mut tgt1 (take (Z.to_nat m) (hd [] rx))) (ref_advance rx m) (n + m)
    (c + m) (N - m)) as (tgt' & -> & Hfit'); try done; try lia;
    [apply Hdf; [done|lia]|].
  exists tgt'. rewrite Hrest in *.
  assert (Hadd : ∀ a, a + m + (ref_count rx - m) = a + ref_count rx) by lia.
  split; [by rewrite !Hadd|].
  by replace (N - ref_count rx) with (N - m - (ref_count rx - m)) by lia.
Qed.

(** A live pipe returns; [e] is the room the writer has beyond the stream. *)
Lemma pipe_loop_live fuel : ∀ pj c N,
  pipe_ok pj → 0 ≤ c → c + len (stream (buff_r_ pj)) < USIZE_MAX →
  fits (buff_w_ pj) N → len (stream (buff_r_ pj)) ≤ N →
  len (stream (buff_r_ pj)) + 1 < Z.of_nat fuel →
  ∃ pj' r, pipe_loop (RE:=RE) (WE:=WE) fuel pj c = Done (pj', r) ∧
    stream (buff_r_ pj') = [] ∧
    (r = RxDrained (c + len (stream (buff_r_ pj))) ∨
     r = TxBlocked (c + len (stream (buff_r_ pj))) ∧ N ≤ len (stream (buff_r_ pj))).
Proof.
  induction fuel as [|fuel IH]; intros pj c N Hok Hc Hmax Hfit HN Hf;
    pose proof (len_nonneg (stream (buff_r_ pj))) as Hnn; [lia|].
  simpl pipe_loop. destruct (Z.eqb_spec c USIZE_MAX); [lia|].
  destruct (is_stuffed_closing (buff_w_ pj)) eqn:Es.
  { pose proof (stuffed_full _ N (proj2 Hok) Es Hfit).
    assert (Hend : stream (buff_r_ pj) = []) by (apply len_0; lia). rewrite Hend.
    eexists _, _. split; [done|]. split; [exact Hend|].
    right. unfold len. simpl. by rewrite Z.add_0_r. }
  destruct (is_drained_closing (buff_r_ pj)) eqn:Ed.
  { pose proof (proj1 (drained_iff _ (proj1 Hok)) Ed) as Hend. rewrite Hend.
    eexists _, _. split; [done|]. split; [exact Hend|].
    left. unfold len. simpl. by rewrite Z.add_0_r. }
  assert (Hask : askable (less_than (USIZE_MAX - c))) by (apply askable_less_than; lia).
  pose proof (λ rx, round_spec pj fuel c rx Hok ltac:(lia)) as Hround.
  pose proof (read_live _ _ (proj1 Hok) Hask) as Hlive.
  pose proof (λ e, read_eof _ _ e (proj1 Hok) Hask) as Heof.
  pose proof (λ rx, read_lends _ _ rx (proj1 Hok) Hask) as Hlends.
  destruct (read_async _ _) as [src [[rx|] [e|]]]; simpl in Hlive, Heof, Hlends; try done.
  2:{ destruct (Heof e eq_refl Hlive) as [_ Hend]. unfold min_len in Hend. simpl in Hend.
      assert (stream (buff_r_ pj) = []) as Hn by (apply len_0; lia).
      by apply (drained_iff _ (proj1 Hok)) in Hn; rewrite Hn in Ed. }
  destruct (Hlends rx eq_refl) as (Hpre & Hne & Hpos).
  pose proof (len_prefix _ _ Hpre) as Hlp. fold (ref_count rx) in Hlp.
  destruct (move_segm_live fuel (buff_w_ pj) rx 0 c N) as (tgt & Hmv & Hfit');
    try done; try lia; [apply Hok|].
  specialize (Hround rx eq_refl). cbn [fst] in Hround. rewrite Hmv, Z.add_0_l in Hround |- *.
  cbn -[less_than] in Hround |- *. destruct Hround as (p & Hp & Hlen & _).
  assert (Hlp' : len p = ref_count rx) by lia.
  assert (0 < ref_count rx).
  { destruct rx as [|q rx]; [done|]. apply Forall_cons in Hpos as [Hq _].
    unfold ref_count. simpl. rewrite len_app. pose proof (len_pos q Hq).
    pose proof (len_nonneg (concat rx)). lia. }
  assert (Hst : len (stream (buff_r_ pj)) =
    ref_count rx + len (stream (drop_ref src (ref_count rx)))).
  { destruct Hp as [_ _ Hs _]. simpl in Hs. by rewrite Hs, len_app, Hlp'. }
  destruct (IH (mkPipe tgt (drop_ref src (ref_count rx))) (c + ref_count rx)
    (N - ref_count rx)) as (pj' & r & -> & Hend & Hr); simpl; try done; try lia;
    [by eapply carried_ok|].
  exists pj', r. split; [done|]. split; [done|]. simpl in Hr.
  rewrite Hst, Z.add_assoc. destruct Hr as [-> | [-> Hn]]; [by left|right]. split; [done|lia].
Qed.
End sound.

(** ** The properties *)

Section properties.
Context {R RE W WE : Type} `{TrBuffRead R RE} `{TrTaggedError RE ReadErrTag}
  `{TrBuffWrite W WE} `{TrTaggedError WE WriteErrTag}.
Context (rok : R → Prop) (stream : R → list Z) (wok : W → Prop) (written : W → list Z)
  (grain : Z) (Hgrain : 0 ≤ grain).
Context `{!LawfulReader R RE rok stream, !BoundedReader R RE rok stream,
  !DrainedReader R RE rok stream, !LawfulWriter W WE wok written grain}.

(** C12: a pipe neither loses, nor repeats, nor reorders an item, whatever its two
    ends answer and however it ends: the items it took from the reader are the
    front of the stream, they are what the writer got, and the count it reports is
    theirs.  It does not panic (no empty segment, no overflow of the count), it
    stops for an error only when the tag says so, and [RxDrained] means that the
    stream was moved whole. *)
Theorem pipe_moves_exactly (size_of : Z) fuel (pj : PipeJoin R W) :
  pipe_ok rok wok pj →
  safe (pipe_async_ (RE:=RE) (WE:=WE) size_of fuel pj) (λ '(pj', r),
    ∃ p, carried rok stream wok written pj pj' p ∧ count_of r = len p ∧
      match r with
      | TxErr _ e => write_should_terminate (err_tag e) = true
      | RxErr _ e => read_should_terminate (err_tag e) = true
      | TxBlocked _ => is_stuffed_closing (buff_w_ pj') = true
      | RxDrained _ => stream (buff_r_ pj) = p
      | SizeLimit n => n = USIZE_MAX
      | NoOps => size_of = 0 ∧ pj' = pj
      end).
Proof.
  intros Hok. unfold pipe_async_. destruct (Z.eqb_spec size_of 0) as [->|].
  { exists []. split; [by apply carried_refl|done]. }
  eapply safe_mono; [by apply (pipe_loop_spec rok stream wok written grain Hgrain)|].
  intros [pj' r] (p & Hp & Hc & Hr). exists p. split; [done|]. split; [done|].
  destruct r; try done. by rewrite (carried_stream _ _ _ _ _ _ _ Hp), Hr, app_nil_r.
Qed.

Context (fits : W → Z → Prop) `{!EofReader R RE rok stream, !LiveReader R RE rok}
  `{!LiveWriter W WE wok fits grain,
  !StuffedWriter W WE wok fits}.

End properties.

(** ** Witnesses *)

(** The ring of [RingIo.closed_ring], which holds [7; 8; 255], into [n] bytes. *)
Definition ring_to_slice (n : nat) : PipeJoin ring slice_mut :=
  mkPipe (SliceMut [] (replicate n 0)) closed_ring.
Definition fits_slice (w : slice_mut) (n : Z) : Prop := n ≤ len (rest w).

Lemma ring_to_slice_ok n :
  (n < 100)%nat → pipe_ok ring_ok slice_mut_ok (ring_to_slice n).
Proof.
  intros Hn. split; [apply closed_ring_ok|]. unfold slice_mut_ok, len. simpl.
  rewrite length_replicate. unfold USIZE_MAX. simpl. lia.
Qed.

(** A writer that is too small: the two items it got are the front of the three. *)
Lemma pipe_moves_exactly_witness :
  ∃ pj' e, pipe_async_ (RE:=ConsumerError) (WE:=BorrowedSliceError WriteErrTag) 1 9 (ring_to_slice 2)
      = Done (pj', TxErr 2 e) ∧
    ∃ p, passed (buff_w_ pj') = p ∧ len p = 2 ∧
      ring_items closed_ring = p ++ ring_items (buff_r_ pj').
Proof.
  pose proof (pipe_moves_exactly ring_ok ring_items slice_mut_ok passed 0 ltac:(done) 1 9 (ring_to_slice 2)
    (ring_to_slice_ok 2 ltac:(lia))) as H.
  assert (Hrun : ∃ pj' e, pipe_async_ (RE:=ConsumerError)
    (WE:=BorrowedSliceError WriteErrTag) 1 9 (ring_to_slice 2) = Done (pj', TxErr 2 e))
    by (eexists _, _; vm_compute; reflexivity).
  destruct Hrun as (pj' & e & Hrun). rewrite Hrun in H.
  destruct H as (p & [_ _ Hs Hw] & Hc & _).
  exists pj', e. split; [exact Hrun|]. exists p.
  split; [exact Hw|]. split; [symmetry; exact Hc|exact Hs].
Defined.


(** The exact fit: everything is moved, and the pipe says that it was blocked. *)
Example exact_fit :
  ∃ pj', pipe_async_ (RE:=ConsumerError) (WE:=BorrowedSliceError WriteErrTag) 1 9 (ring_to_slice 3)
      = Done (pj', TxBlocked 3) ∧ passed (buff_w_ pj') = [7; 8; 255].
Proof. eexists. split; vm_compute; reflexivity. Qed.
