(* ===== verification/StdIo.v ===== *)
(** * Buffers as [std::io] streams

    Models [AsStdRead::read] and [AsStdWrite::write] of
    [crates/abs_buff_stdio_adapt/src] ([as_std_read.rs], [as_std_write.rs]) against
    the classes of [BuffIo.v]: the adapters wait, with [block_on], for each read or
    write of the buffer.  An [io::Error] is the error of the buffer it was made
    of. *)

From S2P Require Import Prelude Demand CircEnds BuffIo CircCore CircPump CircHalf RingIo Join.

(** ** [AsStdRead] *)

Section read.
Context {R RE : Type} `{TrBuffRead R RE}.

(** The loop of [read] into a buffer of [buf_len] bytes: [out] are the bytes it holds
    so far, [c] their count. *)
Fixpoint std_read_loop (fuel : nat) (r : R) (k : token) (buf_len : Z) (out : list Z) (c : Z) :
    exec (R * list Z * result RE Z) :=
  match fuel with
  | O => OutOfFuel
  | S fuel =>
      if (buf_len <=? c) || is_drained_closing r || is_cancelled k then Done (r, out, Ok c)
      else
        let '(r, (left_, right_)) := read_async r (less_than (buf_len - c)) in
        match left_ with
        | Some segm =>
            let child := hd [] segm in
            let moved := Z.min (buf_len - c) (len child) in
            let out := out ++ take (Z.to_nat moved) child in
            let c := c + moved in
            let r := drop_ref r moved in
            if moved =? 0 then Done (r, out, Ok c)
            else
              match right_ with
              | Some err => Done (r, out, if 0 <? c then Ok c else Err err)
              | None => std_read_loop fuel r (tl k) buf_len out c
              end
        | None =>
            match right_ with
            | Some err => Done (r, out, if 0 <? c then Ok c else Err err)
            | None => std_read_loop fuel r (tl k) buf_len out c
            end
        end
  end.
Definition std_read (fuel : nat) (r : R) (k : token) (buf_len : Z) :=
  std_read_loop fuel r k buf_len [] 0.
End read.

(** ** [AsStdWrite] *)

Section write.
Context {W WE : Type} `{TrBuffWrite W WE}.

(** The loop of [write], of the bytes [buf]. *)
Fixpoint std_write_loop (fuel : nat) (w : W) (k : token) (buf : list Z) (c : Z) :
    exec (W * result WE Z) :=
  match fuel with
  | O => OutOfFuel
  | S fuel =>
      if (len buf <=? c) || is_stuffed_closing w || is_cancelled k then Done (w, Ok c)
      else
        let '(w, (left_, right_)) := write_async w (less_than (len buf - c)) in
        match left_ with
        | Some room =>
            let child := hd 0 room in
            let moved := Z.min child (len buf - c) in
            let w := drop_mut w (take (Z.to_nat moved) (drop (Z.to_nat c) buf)) in
            let c := c + moved in
            if moved =? 0 then Done (w, Ok c)
            else
              match right_ with
              | Some err => Done (w, if 0 <? c then Ok c else Err err)
              | None => std_write_loop fuel w (tl k) buf c
              end
        | None =>
            match right_ with
            | Some err => Done (w, if 0 <? c then Ok c else Err err)
            | None => std_write_loop fuel w (tl k) buf c
            end
        end
  end.
Definition std_write (fuel : nat) (w : W) (k : token) (buf : list Z) :=
  std_write_loop fuel w k buf 0.

(** [flush]: the adapter holds nothing back. *)
Definition std_flush (w : W) : result WE unit := Ok tt.
End write.

(** ** Reading *)

Section read_spec.
Context {R RE : Type} `{TrBuffRead R RE} `{TrTaggedError RE ReadErrTag}.
Context (rok : R → Prop) (stream : R → list Z).
Context `{!LawfulReader R RE rok stream}.

(** One segment of the loop. *)
Lemma std_read_round r n pieces :
  rok r → 1 ≤ n ≤ USIZE_MAX → (read_async r (less_than n)).2.1 = Some pieces →
  let child := hd [] pieces in
  let m := Z.min n (len child) in
  let r' := drop_ref (read_async r (less_than n)).1 m in
  0 < m ≤ n ∧ m ≤ len child ∧ rok r' ∧
  stream r = take (Z.to_nat m) child ++ stream r'.
Proof.
  intros Hr Hn Hp child m r'. pose proof (askable_less_than n Hn) as Hask.
  destruct (read_lends r _ pieces Hr Hask Hp) as (Hpre & Hne & Hpos).
  destruct pieces as [|p pieces]; [done|]. apply Forall_cons in Hpos as [Hc _].
  simpl in child, Hpre. pose proof (len_pos p Hc). subst child.
  assert (Hmr : m ≤ ref_count (p :: pieces)).
  { unfold ref_count. simpl. rewrite len_app. pose proof (len_nonneg (concat pieces)). lia. }
  destruct (drop_lent r _ _ m Hr Hask Hp) as [Hr' Hs]; [lia|].
  split; [lia|]. split; [lia|]. split; [done|]. unfold r'. rewrite Hs.
  assert (p `prefix_of` stream r) by (etrans; [by eexists|exact Hpre]).
  rewrite (take_prefix_eq p (stream r)) by (done || lia). by rewrite take_drop.
Qed.

Definition read_front r (buf_len : Z) (out : list Z) (c : Z)
    (x : R * list Z * result RE Z) : Prop :=
  let '(r', out', res) := x in
  ∃ p, rok r' ∧ stream r = p ++ stream r' ∧ out' = out ++ p ∧ c + len p ≤ buf_len ∧
    match res with Ok n => n = c + len p | Err _ => p = [] ∧ c = 0 end.

Lemma read_front_step r r1 t buf_len out c x :
  stream r = t ++ stream r1 → 0 ≤ c → t ≠ [] →
  read_front r1 buf_len (out ++ t) (c + len t) x → read_front r buf_len out c x.
Proof.
  intros Ht Hc Hne. destruct x as [[r' out'] res]. intros (p & Hr & Hs & -> & Hle & Hres).
  pose proof (len_pos t Hne).
  exists (t ++ p). rewrite len_app. split; [done|]. split; [by rewrite Ht, Hs, app_assoc|].
  split; [by rewrite app_assoc|]. split; [lia|].
  destruct res; [lia|]. destruct Hres. lia.
Qed.

Lemma read_front_now r buf_len out c res :
  rok r → c ≤ buf_len → match res with Ok n => n = c | Err _ => c = 0 end →
  read_front r buf_len out c (r, out, res).
Proof.
  intros Hr Hc Hres. exists []. rewrite app_nil_r. unfold len. simpl.
  rewrite Z.add_0_r. split; [done|]. split; [done|]. split; [done|]. split; [done|].
  by destruct res.
Qed.

Lemma std_read_spec fuel : ∀ r k buf_len out c,
  rok r → 0 ≤ c ≤ buf_len → buf_len ≤ USIZE_MAX →
  safe (std_read_loop (RE:=RE) fuel r k buf_len out c) (read_front r buf_len out c).
Proof.
  induction fuel as [|fuel IH]; intros r k buf_len out c Hr Hc Hb; [done|].
  simpl std_read_loop. destruct (_ || _ || _) eqn:Et; [by apply read_front_now; [done|lia|]|].
  apply orb_false_iff in Et as [[Hlt _]%orb_false_iff _]. apply Z.leb_gt in Hlt.
  assert (Hask : askable (less_than (buf_len - c))) by (apply askable_less_than; lia).
  pose proof (read_ok r _ Hr Hask) as Hr1. pose proof (read_stream r _ Hr Hask) as Hs1.
  pose proof (λ ps, std_read_round r (buf_len - c) ps Hr ltac:(lia)) as Hround.
  destruct (read_async r (less_than (buf_len - c))) as [r1 [[ps|] right_]]; simpl in *.
  - destruct (Hround ps eq_refl) as (Hm & Hmc & Hr2 & Hst).
    set (m := Z.min (buf_len - c) (len (hd [] ps))) in *.
    rewrite (proj2 (Z.eqb_neq m 0)) by lia.
    assert (Hlm : len (take (Z.to_nat m) (hd [] ps)) = m) by (apply len_take; lia).
    assert (Hne : take (Z.to_nat m) (hd [] ps) ≠ []).
    { intros E. rewrite E in Hlm. unfold len in Hlm. simpl in Hlm. lia. }
    destruct right_ as [e|].
    + rewrite (proj2 (Z.ltb_lt 0 (c + m))) by lia.
      eapply (read_front_step r (drop_ref r1 m)); [exact Hst|lia|done|].
      rewrite Hlm. apply read_front_now; [done|lia|done].
    + eapply safe_mono; [apply IH; [done|lia|done]|]. intros x Hx.
      eapply (read_front_step r (drop_ref r1 m)); [exact Hst|lia|done|by rewrite Hlm].
  - assert (Hkeep : ∀ x, read_front r1 buf_len out c x → read_front r buf_len out c x).
    { intros [[r' out'] res] (p & ? & Hs & ?). exists p. by rewrite <- Hs1. }
    destruct right_ as [e|].
    + apply Hkeep. apply read_front_now; [done|lia|].
      destruct (Z.ltb_spec 0 c); [done|lia].
    + eapply safe_mono; [apply IH; [done|lia|done]|exact Hkeep].
Qed.

(** ** A read blocks until the buffer is full *)

Context `{!EofReader R RE rok stream, !DrainedReader R RE rok stream, !LiveReader R RE rok}.

Lemma std_read_live fuel : ∀ r k buf_len out c,
  rok r → 0 ≤ c ≤ buf_len → buf_len ≤ USIZE_MAX → Forall (eq false) k →
  Z.min (buf_len - c) (len (stream r)) < Z.of_nat fuel →
  ∃ r' out', std_read_loop (RE:=RE) fuel r k buf_len out c
    = Done (r', out', Ok (c + Z.min (buf_len - c) (len (stream r)))).
Proof.
  induction fuel as [|fuel IH]; intros r k buf_len out c Hr Hc Hb Hk Hf;
    pose proof (len_nonneg (stream r)); [lia|].
  assert (Hkc : is_cancelled k = false) by by destruct Hk.
  simpl std_read_loop. rewrite Hkc, orb_false_r.
  destruct (Z.leb_spec buf_len c) as [Hge|Hlt]; simpl.
  { eexists _, _. do 3 f_equal. lia. }
  destruct (is_drained_closing r) eqn:Ed.
  { apply (drained_iff r Hr) in Ed. rewrite Ed. eexists _, _. do 3 f_equal.
    unfold len. simpl. lia. }
  assert (Hask : askable (less_than (buf_len - c))) by (apply askable_less_than; lia).
  pose proof (read_live r _ Hr Hask) as Hlive.
  pose proof (λ e, read_eof r _ e Hr Hask) as Heof.
  pose proof (λ ps, std_read_round r (buf_len - c) ps Hr ltac:(lia)) as Hround.
  destruct (read_async r _) as [r1 [[ps|] [e|]]]; simpl in Hlive, Heof, Hround; try done.
  - destruct (Hround ps eq_refl) as (Hm & Hmc & Hr2 & Hst).
    set (m := Z.min (buf_len - c) (len (hd [] ps))) in *.
    rewrite (proj2 (Z.eqb_neq m 0)) by lia.
    assert (Hlen : len (stream r) = m + len (stream (drop_ref r1 m))).
    { rewrite Hst at 1. rewrite len_app, len_take by lia. done. }
    destruct (IH (drop_ref r1 m) (tl k) buf_len
      (out ++ take (Z.to_nat m) (hd [] ps)) (c + m)) as (r' & out' & ->); try done; try lia.
    { by destruct Hk. }
    eexists _, _. do 3 f_equal. lia.
  - destruct (Heof e eq_refl Hlive) as [_ Hend]. unfold min_len in Hend. simpl in Hend.
    assert (stream r = []) as Hn by (apply len_0; lia).
    by apply (drained_iff r Hr) in Hn; rewrite Hn in Ed.
Qed.
End read_spec.

(** ** Writing *)

Section write_spec.
Context {W WE : Type} `{TrBuffWrite W WE}.
Context (wok : W → Prop) (written : W → list Z) (grain : Z) (Hgrain : 0 ≤ grain)
  `{!LawfulWriter W WE wok written grain}.

(** One segment of the loop: [m] more bytes of [buf] are with the buffer. *)
Lemma std_write_round w buf c room :
  wok w → 0 ≤ c < len buf → len buf ≤ USIZE_MAX →
  (write_async w (less_than (len buf - c))).2.1 = Some room →
  let m := Z.min (hd 0 room) (len buf - c) in
  let bs := take (Z.to_nat m) (drop (Z.to_nat c) buf) in
  let w' := drop_mut (write_async w (less_than (len buf - c))).1 bs in
  0 < m ≤ len buf - c ∧ len bs = m ∧ m ≤ mut_count room ∧ wok w' ∧
  written w' = written w ++ bs ∧
  take (Z.to_nat (c + m)) buf = take (Z.to_nat c) buf ++ bs.
Proof.
  intros Hw Hc Hb Hp m bs w'.
  assert (Hask : grantable grain (less_than (len buf - c))) by (apply grantable_less_than; lia).
  destruct (write_lends w _ room Hw Hask Hp) as (Hne & Hpos & _).
  destruct room as [|a room]; [done|]. simpl in m.
  apply Forall_cons in Hpos as [Ha Hpos]. pose proof (mut_count_nonneg room Hpos).
  assert (Hm : m ≤ mut_count (a :: room)) by (unfold mut_count in *; simpl; lia).
  assert (Hbs : len bs = m) by (apply len_take; rewrite len_drop by lia; lia).
  destruct (drop_written w _ _ bs Hw Hask Hp) as [Hw' Hwr]; [lia|].
  split; [lia|]. split; [done|]. split; [done|]. split; [done|]. split; [done|].
  replace (Z.to_nat (c + m)) with (Z.to_nat c + Z.to_nat m)%nat by lia.
  unfold bs. by rewrite take_take_drop.
Qed.

(** The buffer has got the first [n] bytes when [n] is answered, and none of them when
    an error is. *)
Definition wrote w0 (buf : list Z) (x : W * result WE Z) : Prop :=
  let '(w', res) := x in
  wok w' ∧
  match res with
  | Ok n => 0 ≤ n ≤ len buf ∧ written w' = written w0 ++ take (Z.to_nat n) buf
  | Err _ => written w' = written w0
  end.

Lemma wrote_now w0 w buf c res :
  wok w → written w = written w0 ++ take (Z.to_nat c) buf → 0 ≤ c ≤ len buf →
  match res with Ok n => n = c | Err _ => c = 0 end → wrote w0 buf (w, res).
Proof.
  intros Hw Hwr Hc Hres. split; [done|]. destruct res; subst; [done|].
  by rewrite Hwr, app_nil_r.
Qed.

Lemma deferred w0 w buf c (e : WE) :
  wok w → written w = written w0 ++ take (Z.to_nat c) buf → 0 ≤ c ≤ len buf →
  wrote w0 buf (w, if 0 <? c then Ok c else Err e).
Proof.
  intros. eapply wrote_now; [done..|]. destruct (Z.ltb_spec 0 c); [done|lia].
Qed.

Lemma std_write_loop_spec w0 buf fuel : ∀ w k c,
  wok w → written w = written w0 ++ take (Z.to_nat c) buf → 0 ≤ c ≤ len buf →
  len buf ≤ USIZE_MAX → safe (std_write_loop (WE:=WE) fuel w k buf c) (wrote w0 buf).
Proof.
  induction fuel as [|fuel IH]; intros w k c Hw Hwr Hc Hb; [done|].
  simpl std_write_loop. destruct (_ || _ || _) eqn:Et; [by eapply wrote_now|].
  apply orb_false_iff in Et as [[Hlt _]%orb_false_iff _]. apply Z.leb_gt in Hlt.
  assert (Hask : grantable grain (less_than (len buf - c))) by (apply grantable_less_than; lia).
  pose proof (write_ok w _ Hw Hask) as Hw1. pose proof (write_keeps w _ Hw Hask) as Hk1.
  pose proof (λ room, std_write_round w buf c room Hw ltac:(lia) Hb) as Hround.
  destruct (write_async w _) as [w1 [[room|] right_]]; simpl in *.
  - destruct (Hround room eq_refl) as (Hm & Hlen & _ & Hw2 & Hwr2 & Htk).
    rewrite (proj2 (Z.eqb_neq _ 0)) by lia. rewrite Hwr, <- app_assoc, <- Htk in Hwr2.
    destruct right_; [apply deferred|apply IH]; (done || lia).
  - rewrite <- Hk1 in Hwr. destruct right_; [by apply deferred|by apply IH].
Qed.

(** ** A write blocks until everything is written *)

Context (fits : W → Z → Prop) `{!LiveWriter W WE wok fits grain, !StuffedWriter W WE wok fits}.

Lemma std_write_live buf fuel : ∀ w k c n,
  wok w → 0 ≤ c ≤ len buf → len buf ≤ USIZE_MAX → Forall (eq false) k →
  fits w n → len buf - c ≤ n → len buf - c < Z.of_nat fuel →
  ∃ w', std_write_loop (WE:=WE) fuel w k buf c = Done (w', Ok (len buf)).
Proof.
  induction fuel as [|fuel IH]; intros w k c n Hw Hc Hb Hk Hfit Hn Hf; [lia|].
  assert (Hkc : is_cancelled k = false) by by destruct Hk.
  simpl std_write_loop. rewrite Hkc, orb_false_r.
  destruct (Z.leb_spec (len buf) c) as [Hge|Hlt]; simpl.
  { eexists. do 3 f_equal. lia. }
  destruct (is_stuffed_closing w) eqn:Es; [pose proof (stuffed_full w n Hw Es Hfit); lia|].
  assert (Hask : grantable grain (less_than (len buf - c))) by (apply grantable_less_than; lia).
  destruct (write_live w _ n Hw Hask Hfit) as [room Hroom]; [unfold min_len; simpl; lia|].
  pose proof (std_write_round w buf c room Hw ltac:(lia) Hb) as Hround.
  pose proof (λ bs, drop_fits w _ n room bs Hw Hask Hfit) as Hdf.
  destruct (write_async w _) as [w1 x]. simpl in *. subst x. cbn beta iota.
  destruct (Hround eq_refl) as (Hm & Hlen & Hmr & Hw2 & _).
  set (m := Z.min (hd 0 room) (len buf - c)) in *.
  rewrite (proj2 (Z.eqb_neq m 0)) by lia.
  set (bs := take (Z.to_nat m) (drop (Z.to_nat c) buf)) in *.
  apply (IH _ _ _ (n - m)); try done; try lia; [by destruct Hk|].
  rewrite <- Hlen. apply Hdf; (done || lia).
Qed.
End write_spec.

(** ** The properties *)

(** [AsStdRead::read] takes bytes out of its buffer without loss: whatever the
    buffer and the cancellation answer, what it put into the caller's slice is the
    front of the stream, in order, it is what left the buffer, and [Ok] counts it.
    An error is reported only when nothing was read. *)
Theorem std_read_exact {R RE} `{TrBuffRead R RE} `{TrTaggedError RE ReadErrTag}
    (rok : R → Prop) (stream : R → list Z) `{!LawfulReader R RE rok stream}
    fuel r k buf_len :
  rok r → 0 ≤ buf_len ≤ USIZE_MAX →
  safe (std_read (RE:=RE) fuel r k buf_len) (λ '(r', out, res),
    rok r' ∧ stream r = out ++ stream r' ∧ len out ≤ buf_len ∧
    match res with Ok n => n = len out | Err _ => out = [] end).
Proof.
  intros Hr Hb. eapply safe_mono; [apply (std_read_spec rok stream); [done|lia|lia]|].
  intros [[r' out] res] (p & Hr' & Hs & -> & Hl & Hres). simpl in *.
  split; [done|]. split; [done|]. split; [done|]. by destruct res; [|destruct Hres].
Qed.

(** C25: a read of a live buffer that is not cancelled returns, and only with the
    caller's slice full or the stream at its end: it waits for as long as the
    stream is open, although it is documented as non-blocking. *)
Theorem std_read_fills {R RE} `{TrBuffRead R RE} `{TrTaggedError RE ReadErrTag}
    (rok : R → Prop) (stream : R → list Z) `{!LawfulReader R RE rok stream}
    `{!EofReader R RE rok stream, !DrainedReader R RE rok stream, !LiveReader R RE rok}
    fuel r k buf_len :
  rok r → 0 ≤ buf_len ≤ USIZE_MAX → Forall (eq false) k → buf_len < Z.of_nat fuel →
  ∃ r', std_read (RE:=RE) fuel r k buf_len = Done (r', take (Z.to_nat buf_len) (stream r),
      Ok (Z.min buf_len (len (stream r)))) ∧
    rok r' ∧ stream r' = drop (Z.to_nat buf_len) (stream r).
Proof.
  intros Hr Hb Hk Hf. unfold std_read.
  pose proof (std_read_spec rok stream fuel r k buf_len [] 0 Hr) as Hspec.
  destruct (std_read_live rok stream fuel r k buf_len [] 0) as (r' & out & Hrun);
    try done; try lia.
  rewrite Hrun in *. rewrite Z.sub_0_r, Z.add_0_l in *.
  destruct Hspec as (p & Hr' & Hs & -> & Hl & Hn); [lia|lia|]. simpl in *.
  assert (Hp : take (Z.to_nat buf_len) (stream r) = p ∧
    drop (Z.to_nat buf_len) (stream r) = stream r').
  { rewrite Hs in *. rewrite len_app in Hn. pose proof (len_nonneg (stream r')).
    destruct (Z.eq_dec (len p) buf_len) as [<-|].
    - unfold len. rewrite Nat2Z.id. by rewrite take_app_length, drop_app_length.
    - assert (stream r' = []) as -> by (apply len_0; lia). rewrite app_nil_r.
      unfold len in *. rewrite take_ge, drop_ge by lia. done. }
  destruct Hp as [-> ->]. by exists r'.
Qed.

(** C26: [AsStdWrite::write] never loses or repeats a byte: when it answers [Ok n] the
    buffer has got exactly the first [n] bytes of the slice, after an error it has
    got none; and when the buffer has room for the slice, a write that is not
    cancelled returns with all of it written. *)
Theorem std_write_exact {W WE} `{TrBuffWrite W WE}
    (wok : W → Prop) (written : W → list Z) (fits : W → Z → Prop) (grain : Z)
    `{!LawfulWriter W WE wok written grain, !LiveWriter W WE wok fits grain}
    `{!StuffedWriter W WE wok fits} fuel w k buf n :
  0 ≤ grain → wok w → len buf ≤ USIZE_MAX →
  safe (std_write (WE:=WE) fuel w k buf) (wrote wok written w buf) ∧
  (Forall (eq false) k → fits w n → len buf ≤ n → len buf < Z.of_nat fuel →
   ∃ w', std_write (WE:=WE) fuel w k buf = Done (w', Ok (len buf))).
Proof.
  intros Hg Hw Hb. pose proof (len_nonneg buf). split.
  - apply (std_write_loop_spec wok written grain); [done|done|done|by rewrite app_nil_r|lia|done].
  - intros Hk Hfit Hn Hf. eapply (std_write_live wok written grain Hg fits); (done || lia).
Qed.

(** ** Witnesses *)

(** A read of two bytes out of the ring that holds [7; 8; 255] across its end,
    cancelled before its second round. *)
Lemma std_read_exact_witness :
  ∃ r', std_read (RE:=ConsumerError) 9 closed_ring [false; true] 2 = Done (r', [7], Ok 1) ∧
    ring_items closed_ring = [7] ++ ring_items r'.
Proof.
  pose proof (std_read_exact ring_ok ring_items 9 closed_ring [false; true] 2
    (proj1 closed_ring_ok) ltac:(split; vm_compute; discriminate)) as H.
  assert (Hrun : ∃ r', std_read (RE:=ConsumerError) 9 closed_ring [false; true] 2
    = Done (r', [7], Ok 1)) by (eexists; vm_compute; reflexivity).
  destruct Hrun as [r' Hrun]. rewrite Hrun in H. destruct H as (_ & Hs & _).
  exists r'. exact (conj Hrun Hs).
Defined.

(** Five bytes are asked for, three come before the end. *)
Lemma std_read_fills_witness :
  ∃ r', std_read (RE:=ConsumerError) 9 closed_ring [] 5 = Done (r', [7; 8; 255], Ok 3) ∧
    ring_items r' = [].
Proof.
  destruct (std_read_fills ring_ok ring_items 9 closed_ring [] 5 (proj1 closed_ring_ok)
    ltac:(split; vm_compute; discriminate) ltac:(constructor) ltac:(vm_compute; reflexivity))
    as (r' & Hrun & _ & Hs).
  rewrite (proj2 closed_ring_ok) in Hrun, Hs. exists r'. exact (conj Hrun Hs).
Defined.

Lemma std_write_exact_witness :
  ∃ w', std_write (WE:=BorrowedSliceError WriteErrTag) 9 (SliceMut [] [0; 0; 0]) [] [7; 8]
      = Done (w', Ok 2) ∧ passed w' = [7; 8].
Proof.
  destruct (std_write_exact slice_mut_ok passed fits_slice 1 9 (SliceMut [] [0; 0; 0]) []
    [7; 8] 3 ltac:(discriminate) ltac:(vm_compute; discriminate) ltac:(vm_compute; discriminate)) as [Hs Hl].
  destruct (Hl ltac:(constructor) ltac:(vm_compute; discriminate)
    ltac:(vm_compute; discriminate) ltac:(vm_compute; reflexivity)) as [w' Hrun].
  rewrite Hrun in Hs. exists w'. exact (conj Hrun (proj2 (proj2 Hs))).
Defined.

(** A slice that is too small: the first call writes what fits, and the next one
    answers [Ok 0], not the error of the buffer. *)
Example std_write_short :
  let full := SliceMut [7; 8] [] in
  std_write (WE:=BorrowedSliceError WriteErrTag) 9 (SliceMut [] [0; 0]) [] [7; 8; 9]
    = Done (full, Ok 2) ∧
  std_write (WE:=BorrowedSliceError WriteErrTag) 9 full [] [9] = Done (full, Ok 0).
Proof. split; vm_compute; reflexivity. Qed.
