(* ===== verification/Multipart.v ===== *)
(** * The multipart codec: what the two sides promise

    The theorems about the encoder ([MpEncode.v]) and the decoder ([MpDecode.v]),
    against the contracts of [BuffIo.v].  The witnesses run the codec from a ring
    whose producer has closed ([RingIo.v]) into a byte slice and back. *)

From S2P Require Import Prelude Demand IoPos CircEnds CircCore.
From S2P Require Import CircPump BuffIo MpEncode MpDecode RingIo.
Import Recv.

(** A client that reads to the end, asking for at least one byte at a time and
    consuming [choose n] of the [n] it is lent: the reader, what it got and the
    error that stopped it. *)
Fixpoint drain {R E} `{TrBuffRead R E} (choose : Z → Z) (fuel : nat) (r : R) :
    option (R * list Z * option E) :=
  match fuel with
  | O => None
  | S fuel =>
      let '(r, (left_, right_)) := read_async r (at_least 1) in
      match left_ with
      | Some pieces =>
          let n := choose (ref_count pieces) in
          '(r, bs, e) ← drain choose fuel (drop_ref r n);
          Some (r, take (Z.to_nat n) (concat pieces) ++ bs, e)
      | None => Some (r, [], right_)
      end
  end.

Definition chooses (choose : Z → Z) : Prop := ∀ n, 0 < n → 0 < choose n ≤ n.

Section drain.
Context {R E : Type} `{TrBuffRead R E} `{TrTaggedError E ReadErrTag}.
Context (ok : R → Prop) (stream : R → list Z).
Context `{!LawfulReader R E ok stream, !EofReader R E ok stream,
  !BoundedReader R E ok stream, !LiveReader R E ok}.
Variables (P : Prefix) (choose : Z → Z).

Definition drained (r : MultipartRecv R)
    (x : option (MultipartRecv R * list Z * option (RecvError E))) : Prop :=
  match x with
  | Some (r', bs, e) =>
      match tail stream P r with
      | Some extra => bs = payload stream P r ∧ e = Some Eof ∧ stream (source_ r') = extra
      | None => bs `prefix_of` payload stream P r ∧ e = Some Invalid
      end
  | None => False
  end.

Lemma drain_recv fuel : ∀ r,
  chooses choose → recv_ok ok stream r → len (payload stream P r) < Z.of_nat fuel →
  drained r (drain (H:=recv_reader P) choose fuel r).
Proof.
  induction fuel as [|fuel IH]; intros r Hch Hr Hf;
    [pose proof (len_nonneg (payload stream P r)); lia|].
  assert (Hd : demand_wf (at_least 1)) by by vm_compute.
  destruct (decode_no_panic ok stream P r (at_least 1) Hr Hd) as ([r' rep] & Hdec & Hspec).
  cbn [drain read_async drop_ref recv_reader]. rewrite Hdec. destruct Hspec as (Hr' & Hdc & Hx).
  assert (Hpt : payload stream P r' = payload stream P r ∧ tail stream P r' = tail stream P r)
    by (unfold payload, tail; by rewrite Hdc).
  destruct Hpt as [Hp Ht]. destruct rep as [[pieces|] [e|]]; try done.
  - destruct Hx as [Hpre [Hne Hall] _ Hdrop].
    assert (Hcount : 0 < ref_count pieces).
    { destruct pieces as [|p ps]; [done|]. apply Forall_cons in Hall as [Hp' _].
      unfold ref_count. simpl. rewrite len_app. pose proof (len_pos p Hp').
      pose proof (len_nonneg (concat ps)). lia. }
    destruct (Hch _ Hcount) as [Hn1 Hn2]. set (n := choose (ref_count pieces)) in *.
    destruct (Hdrop n) as [Hr2 Hd2]; [lia|].
    assert (Hp2 : payload stream P (drop_consumed r' n) = drop (Z.to_nat n) (payload stream P r))
      by (unfold payload at 1; rewrite Hd2; simpl; by rewrite Hp).
    assert (Ht2 : tail stream P (drop_consumed r' n) = tail stream P r)
      by (unfold tail at 1; rewrite Hd2; simpl; by rewrite Ht).
    rewrite Hp in Hpre.
    pose proof (len_prefix _ _ Hpre) as Hle. fold (ref_count pieces) in Hle.
    specialize (IH (drop_consumed r' n) Hch Hr2). unfold drained in IH.
    rewrite Hp2, Ht2 in IH.
    specialize (IH ltac:(rewrite len_drop by lia; lia)).
    destruct (drain _ _ _) as [[[r3 bs] e]|]; [|done]. simpl.
    rewrite (take_prefix_eq _ _ n Hpre) by (unfold ref_count in *; lia).
    destruct (tail stream P r) as [extra|].
    + destruct IH as (-> & -> & ->). by rewrite take_drop.
    + destruct IH as ([t Ht'] & ->). split; [|done]. exists t.
      by rewrite <- app_assoc, <- Ht', take_drop.
  - destruct (recv_read_live ok stream P r _ r' e _ Hr Hd Hdec) as [-> | ->].
    + simpl in *. rewrite <- Hp, <- Ht. unfold tail, payload, decoding. by rewrite Hx.
    + simpl in *. rewrite Hx. split; [by eexists|done].
Qed.

(** A decoder just made on a source. *)
Lemma recv_new_ok r :
  ok r → Forall is_byte (stream r) → recv_ok ok stream (new r).
Proof. intros Hok Hb. by constructor. Qed.
Lemma decoding_new r : decoding stream P (new r) = unwire P (stream r).
Proof. unfold decoding. simpl. rewrite drop_0. by destruct (unwire P (stream r)). Qed.

(** C39: Reading a decoder to its end over a source that fails only when its
    stream ends gives exactly the payload of that stream, then the normal end,
    and leaves what follows the zero prefix in the source; when the stream breaks
    off before a zero prefix the reads stop with the format error, after a part
    of the payload, and never with the normal end.  This holds however the source
    cuts its segments and however much of each the client consumes. *)
Theorem recv_drains r fuel :
  chooses choose → ok r → Forall is_byte (stream r) →
  len (unwire P (stream r)).1 < Z.of_nat fuel →
  ∃ r' bs e, drain (H:=recv_reader P) choose fuel (new r) = Some (r', bs, Some e) ∧
    match unwire P (stream r) with
    | (payload, Some extra) => bs = payload ∧ e = Eof ∧ stream (source_ r') = extra
    | (payload, None) => bs `prefix_of` payload ∧ e = Invalid
    end.
Proof.
  intros Hch Hok Hb Hf.
  pose proof (drain_recv fuel (new r) Hch (recv_new_ok r Hok Hb)) as Hd.
  unfold drained, payload, tail in Hd. rewrite decoding_new in Hd. specialize (Hd Hf).
  destruct (drain _ _ _) as [[[r' bs] e]|]; [|done].
  destruct (unwire P (stream r)) as [payload [extra|]]; simpl in Hd.
  - destruct Hd as (-> & -> & ?). by eexists _, _, _.
  - destruct Hd as (? & ->). by eexists _, _, _.
Qed.
End drain.

Section encode.
Context {R RE W WE : Type} `{HR : TrBuffRead R RE} `{HS : TrBufferState R}
  `{HE : TrTaggedError RE ReadErrTag} `{HW : TrBuffWrite W WE}.
Context (rok : R → Prop) (stream : R → list Z) (wok : W → Prop) (written : W → list Z)
  (grain : Z) (fits : W → Z → Prop).
Context `{!LawfulReader R RE rok stream, !BoundedReader R RE rok stream,
  !LawfulSource R RE rok stream, !LawfulWriter W WE wok written grain}.
Variable P : Prefix.
Context (Hgrain : PREFIX_LEN P ≤ grain).

(** C33: the encoder over any source and target that keep the contract of lending,
    whatever errors they answer, temporary ones and those of a cancelled read included,
    and whenever the token is cancelled.  It does not panic, and what it has written
    when it returns is a sequence of complete chunks that carry a front of the source
    in order, with the count of payload bytes it reports.  After a normal return the
    zero prefix follows, and then the source is exhausted or it has answered the last
    wait with an error tagged [Closing] or [Drained] ([told_end]: the encoder takes it
    for the end, whatever was still to come); or nothing follows, and the token was
    cancelled.  After an error at most one incomplete chunk follows. *)
Theorem encode_sound fuel en k :
  enc_ok rok wok en →
  safe (multipart_send_async_ (RE:=RE) (WE:=WE) P fuel en k) (λ '(en', (count, err)),
    ∃ chunks bytes part,
      Forall (chunk_ok P) chunks ∧
      stream (MpEncode.source_ en) = concat chunks ++ part ++ stream (MpEncode.source_ en') ∧
      written (target_ en') = written (target_ en) ++ wire_all P chunks ++ bytes ∧
      count = Some (len (concat chunks ++ part)) ∧
      match err with
      | Some _ => torn P bytes part
      | None => part = [] ∧
          (bytes = [] ∧ true ∈ k ∨
           bytes = wire_eof P ∧
             (stream (MpEncode.source_ en') = [] ∨ told_end (RE:=RE) rok en'))
      end).
Proof.
  intros Hok. eapply safe_mono; [by apply (send_loop_spec rok stream wok written grain)|].
  intros [en' [count err]] (chunks & bytes & part & Hall & [_ _ Hs Hw] & -> & Herr).
  exists chunks, bytes, part. rewrite Z.add_0_l, app_assoc.
  by rewrite Hs, Hw.
Qed.

Context `{!EofReader R RE rok stream, !LiveReader R RE rok, !LiveWriter W WE wok fits grain}.

(** The run of the encoder to its end. *)
Lemma encode_ends fuel en k :
  enc_ok rok wok en → fits (target_ en) (wire_room P (len (stream (MpEncode.source_ en)))) →
  rounds stream en ≤ Z.of_nat fuel → true ∉ k →
  ∃ en' chunks,
    multipart_send_async_ (RE:=RE) (WE:=WE) P fuel en k =
      Done (en', new_left (len (stream (MpEncode.source_ en)))) ∧
    Forall (chunk_ok P) chunks ∧ concat chunks = stream (MpEncode.source_ en) ∧
    written (target_ en') = written (target_ en) ++ wire_all P chunks ++ wire_eof P ∧
    enc_ok rok wok en'.
Proof.
  intros Hok Hfit Hf Hk.
  destruct (send_loop_live rok stream wok written grain P Hgrain fits fuel en k 0 _ Hok Hfit
    ltac:(done) Hf) as (en' & count & Hrun).
  pose proof (send_loop_spec (RE:=RE) (WE:=WE) rok stream wok written grain P Hgrain fuel en k 0 Hok) as Hspec.
  rewrite Hrun in Hspec.
  destruct Hspec as (chunks & bytes & part & Hall & [? ? Hs Hw] & -> & -> & [[_ ?]|[-> Hend]]);
    [done|].
  assert (Hnil : stream (MpEncode.source_ en') = [])
    by (destruct Hend as [?|Ht]; [done|by eapply told_end_exhausted]).
  rewrite Hnil, !app_nil_r in Hs. exists en', chunks. split; [|by rewrite Hs].
  unfold multipart_send_async_. rewrite Hrun. by rewrite Hs, app_nil_r.
Qed.

(** When the source fails only at its end, the target has room and the token
    is not cancelled, the encoder returns after a bounded number of rounds, sends
    all of the source as chunks of 1 to [PREFIX_MAX - 1] bytes, ends the stream
    with the zero prefix and reports the size of the payload. *)
Theorem encode_complete fuel en k :
  enc_ok rok wok en → fits (target_ en) (wire_room P (len (stream (MpEncode.source_ en)))) →
  2 * len (stream (MpEncode.source_ en)) + 4 ≤ Z.of_nat fuel → true ∉ k →
  ∃ en' chunks,
    multipart_send_async_ (RE:=RE) (WE:=WE) P fuel en k =
      Done (en', new_left (len (stream (MpEncode.source_ en)))) ∧
    Forall (chunk_ok P) chunks ∧ concat chunks = stream (MpEncode.source_ en) ∧
    written (target_ en') = written (target_ en) ++ wire_all P chunks ++ wire_eof P.
Proof.
  intros Hok Hfit Hf Hk. destruct (encode_ends fuel en k Hok Hfit) as
    (en' & chunks & ? & ? & ? & ? & _); [unfold rounds; case_match; lia|done|].
  by exists en', chunks.
Qed.

Context {R2 E2 : Type} `{HR2 : TrBuffRead R2 E2} `{HE2 : TrTaggedError E2 ReadErrTag}.
Context (ok2 : R2 → Prop) (stream2 : R2 → list Z).
Context `{!LawfulReader R2 E2 ok2 stream2, !BoundedReader R2 E2 ok2 stream2,
  !EofReader R2 E2 ok2 stream2, !LiveReader R2 E2 ok2}.

(** A client that reads the wire form of [chunks] gets their bytes, and no more. *)
Lemma wire_drains fuel choose chunks r extra :
  chooses choose → Forall (chunk_ok P) chunks → Forall is_byte (concat chunks) →
  len (concat chunks) < Z.of_nat fuel →
  ok2 r → stream2 r = (wire_all P chunks ++ wire_eof P) ++ extra → Forall is_byte extra →
  ∃ r', drain (H:=recv_reader P) choose fuel (new r) = Some (r', concat chunks, Some Eof) ∧
    stream2 (source_ r') = extra.
Proof.
  intros Hch Hall Hb Hf Hr Hs Hextra.
  assert (Hun : unwire P (stream2 r) = (concat chunks, Some extra)).
  { by rewrite Hs, <- app_assoc, unwire_wire. }
  assert (Hb2 : Forall is_byte (stream2 r)).
  { rewrite Hs. repeat apply Forall_app_2; try done.
    - clear -Hb. induction chunks as [|ch chs IH]; [constructor|].
      simpl in Hb. apply Forall_app in Hb as [H1 H2].
      change (wire_all P (ch :: chs)) with (wire P ch ++ wire_all P chs).
      apply Forall_app_2; [|by apply IH]. apply Forall_app_2; [apply to_be_bytes_byte|done].
    - apply to_be_bytes_byte. }
  pose proof (drain_recv ok2 stream2 P choose fuel (new r) Hch
    (recv_new_ok ok2 stream2 r Hr Hb2)) as Hd.
  unfold drained, payload, tail in Hd. rewrite decoding_new, Hun in Hd. simpl in Hd.
  specialize (Hd Hf). destruct (drain _ _ _) as [[[r' bs] e]|]; [|done].
  destruct Hd as (-> & -> & ?). by exists r'.
Qed.

(** C9: what the encoder sends decodes to what it was given.  Let the token not be
    cancelled, the source fail only at the end of its stream, and the target, in which
    nothing has been written yet, take without an error as many bytes as the wire form
    of the stream can need ([wire_room]: the payload, a prefix for each of its bytes and
    the closing one).  Then the encoder ends, within a number of rounds linear in the
    stream, and reports the size of the stream; and a client that reads a decoder over
    any reader of the bytes it wrote, one that fails only at its end too, gets back
    exactly the stream, then the normal end, and finds untouched whatever follows on the
    wire, however both buffers cut their segments and however much of each lent segment
    the client consumes. *)
Theorem multipart_roundtrip fuel en k choose :
  enc_ok rok wok en → fits (target_ en) (wire_room P (len (stream (MpEncode.source_ en)))) →
  2 * len (stream (MpEncode.source_ en)) + 4 ≤ Z.of_nat fuel → true ∉ k →
  written (target_ en) = [] → Forall is_byte (stream (MpEncode.source_ en)) →
  chooses choose →
  ∃ en', multipart_send_async_ (RE:=RE) (WE:=WE) P fuel en k =
      Done (en', new_left (len (stream (MpEncode.source_ en)))) ∧
    ∀ r extra, ok2 r → stream2 r = written (target_ en') ++ extra → Forall is_byte extra →
      ∃ r', drain (H:=recv_reader P) choose fuel (new r) =
          Some (r', stream (MpEncode.source_ en), Some Eof) ∧
        stream2 (source_ r') = extra.
Proof.
  intros Hok Hfit Hf Hk Hw Hb Hch. destruct (encode_ends fuel en k Hok Hfit) as
    (en' & chunks & Hrun & Hall & Hc & Hw' & _); [unfold rounds; case_match; lia|done|].
  exists en'. split; [done|]. intros r extra Hr Hs Hextra.
  pose proof (len_nonneg (stream (MpEncode.source_ en))). rewrite <- Hc.
  apply wire_drains; rewrite ?Hc; try done; [lia|]. by rewrite Hs, Hw', Hw.
Qed.
End encode.

(** The upper bound of the caller's demand is not looked at: a decoder lends up to
    the rest of its chunk. *)
Lemma recv_ignores_max {R E} `{TrBuffRead R E} `{TrTaggedError E ReadErrTag} P
    (r : MultipartRecv R) d1 d2 c :
  Demand.min d1 = Demand.min d2 →
  multipart_decode_read_async_ P r d1 c = multipart_decode_read_async_ P r d2 c.
Proof. intros Hd. unfold multipart_decode_read_async_, source_demand. by rewrite Hd. Qed.

(** ** Witnesses *)

(** The ring of [RingIo.closed_ring], which holds [7; 8; 255]. *)
Definition closed_source : MultipartEncode ring slice_mut :=
  mkEncode closed_ring (SliceMut [] (replicate 9 0)).
Definition fits_rest (w : slice_mut) (n : Z) : Prop := n ≤ len (rest w).
Definition half (n : Z) : Z := (n + 1) / 2.

Lemma closed_source_ok : enc_ok ring_ok slice_mut_ok closed_source.
Proof. split; [apply closed_ring_ok|by vm_compute]. Qed.

Lemma encode_sound_witness :
  ∃ en' chunks,
    multipart_send_async_ U8Prefix 20 closed_source [false] = Done (en', (Some 3, None)) ∧
    Forall (chunk_ok U8Prefix) chunks ∧
    passed (target_ en') = wire_all U8Prefix chunks ++ wire_eof U8Prefix.
Proof.
  pose proof (encode_sound ring_ok ring_items slice_mut_ok passed 1 U8Prefix ltac:(done) 20 closed_source
    [false] closed_source_ok) as H.
  assert (Hrun : ∃ en', multipart_send_async_ U8Prefix 20 closed_source [false] =
    Done (en', (Some 3, None))) by (eexists; vm_compute; reflexivity).
  destruct Hrun as (en' & Hrun). rewrite Hrun in H.
  destruct H as (chunks & bytes & part & Hall & _ & Hw & _ & _ & [[_ Hk]|[-> _]]).
  - exfalso. clear -Hk. apply list_elem_of_singleton in Hk. discriminate Hk.
  - exists en', chunks. exact (conj Hrun (conj Hall Hw)).
Defined.

Lemma encode_complete_witness :
  ∃ en' chunks,
    multipart_send_async_ U8Prefix 20 closed_source [] = Done (en', new_left 3) ∧
    concat chunks = [7; 8; 255] ∧
    passed (target_ en') = wire_all U8Prefix chunks ++ wire_eof U8Prefix.
Proof.
  assert (Hi : ring_items (MpEncode.source_ closed_source) = [7; 8; 255])
    by apply closed_ring_ok.
  destruct (encode_complete ring_ok ring_items slice_mut_ok passed 1 fits_rest U8Prefix ltac:(done) 20
    closed_source [] closed_source_ok) as (en' & chunks & Hrun & _ & Hc & Hw).
  - rewrite Hi. by vm_compute.
  - rewrite Hi. by vm_compute.
  - apply not_elem_of_nil.
  - exists en', chunks. rewrite Hi in Hrun, Hc. exact (conj Hrun (conj Hc Hw)).
Defined.

(** The wire is read back from a slice, two bytes of another message behind it,
    by a client that takes half of what it is lent. *)
Lemma multipart_roundtrip_witness :
  ∃ en', multipart_send_async_ U8Prefix 20 closed_source [] = Done (en', new_left 3) ∧
    ∃ r', drain (H:=recv_reader U8Prefix) half 20 (new (passed (target_ en') ++ [1; 2])) =
      Some (r', [7; 8; 255], Some Eof) ∧ source_ r' = [1; 2].
Proof.
  assert (Hi : ring_items (MpEncode.source_ closed_source) = [7; 8; 255])
    by apply closed_ring_ok.
  destruct (multipart_roundtrip ring_ok ring_items slice_mut_ok passed 1 fits_rest U8Prefix
    ltac:(done) slice_ok id 20 closed_source [] half closed_source_ok) as (en' & Hrun & Hback).
  - rewrite Hi. by vm_compute.
  - rewrite Hi. by vm_compute.
  - apply not_elem_of_nil.
  - done.
  - rewrite Hi. repeat constructor; by vm_compute.
  - intros n Hn. unfold half. split; [apply Z.div_str_pos; lia|].
    apply Z.div_le_upper_bound; lia.
  - exists en'. rewrite Hi in Hrun, Hback. split; [exact Hrun|].
    apply (Hback (passed (target_ en') ++ [1; 2]) [1; 2]); [|done|repeat constructor; by vm_compute].
    unfold slice_ok. rewrite len_app.
    assert (len (passed (target_ en')) = 5) as ->; [|by vm_compute].
    assert (∃ en2, multipart_send_async_ U8Prefix 20 closed_source [] = Done (en2, new_left 3) ∧
      len (passed (target_ en2)) = 5) as (en2 & Hrun2 & <-)
      by (eexists; split; vm_compute; reflexivity).
    rewrite Hrun in Hrun2. injection Hrun2 as ->. reflexivity.
Defined.

(** Two chunks of a stream that breaks off inside the second. *)
Lemma recv_drains_witness :
  ∃ r' bs e, drain (H:=recv_reader U8Prefix) half 5 (new [2; 7; 8; 3; 9]) =
    Some (r', bs, Some e) ∧ bs `prefix_of` [7; 8; 9] ∧ e = Invalid.
Proof.
  destruct (recv_drains slice_ok id U8Prefix half [2; 7; 8; 3; 9] 5)
    as (r' & bs & e & Hd & Hx).
  - intros n Hn. unfold half. split; [apply Z.div_str_pos; lia|].
    apply Z.div_le_upper_bound; lia.
  - by vm_compute.
  - repeat constructor; by vm_compute.
  - by vm_compute.
  - exists r', bs, e. split; [done|]. exact Hx.
Defined.
