(* ===== verification/RingOut.v ===== *)
(** * The producer of a ring over an active consumer, as a writer

    The half [Producer] of a circular buffer ([CircHalf.v]) implements
    [TrBuffWrite] ([crates/buffex/src/circular_buff/spsc_.rs]).  Over a device that
    makes progress its awaited write is granted ([CircAsync.v]), the drop of the
    lent segment commits what was moved into it, and the pump of the commit hands
    the items to the device.  It meets the contract of a writer of [BuffIo.v]: what
    it has written is what the device has taken and the ring still holds.  So the
    multipart encoder and the pipe run over it, and closing delivers the rest. *)

From S2P Require Import Prelude Demand IoPos Segm CircEnds CircCore CircLaws.
From S2P Require Import CircPump CircDev CircAsync CircHalf BuffIo RingIo MpEncode Multipart.

Section out.
Context {C : Type} `{HC : TrConsumer C Z}.

(** The half, with the segment it has lent, if any. *)
Record ring_out : Type := mkOut { core_ : CircCore BufEnd C Z; lent_ : option Recl.t }.
Implicit Types w : ring_out.

(** The sizes of the pieces of a lent segment ([iter_slices]). *)
Definition lent_room (s : Recl.t) : list Z :=
  match Recl.iter_slices s with Ret slices => map s_len slices | Panic => [] end.

(** [Producer::write_async], that is [core_passive_write_async_]: as many rounds as
    the ring has slots are enough ([write_async_run]). *)
Definition ring_write_async w (d : Demand) : ring_out * reply (list Z) ProducerError :=
  let cap := Z.to_nat (CircCore.capacity (core_ w)) in
  match core_passive_write_async_ (S cap) (cap + 6) (core_ w) d with
  | Done (c, Answered (Ok s)) => (mkOut c (Some s), (Some (lent_room s), None))
  | Done (c, Answered (Err e)) => (mkOut c None, (None, Some e))
  | _ => (w, (None, None))
  end.

(** The bytes are moved into the segment; its drop is [WriterReclaim::reclaim]. *)
Definition ring_drop_mut w (bs : list Z) : ring_out :=
  match lent_ w with
  | None => w
  | Some s =>
      match Recl.move_items_from_buff 2 (buffer_ (core_ w)) s bs with
      | Some (Ret (mem, s, _)) =>
          let c := with_buffer (core_ w) mem in
          match advance_write (Z.to_nat (CircCore.capacity c) + 6) c (Recl.offset_ s) with
          | Done c => mkOut c None
          | _ => w
          end
      | _ => w
      end
  end.

#[export] Instance ring_writer : TrBuffWrite ring_out ProducerError :=
  {| is_stuffed_closing w :=
       match Producer.is_stuffed_closing (core_ w) with Ret b => b | Panic => false end;
     write_async := ring_write_async;
     drop_mut := ring_drop_mut |}.

(** ** The contract *)

Context (accepted : C → list Z) (live : C → Prop).
Context `{!LawfulConsumer C Z accepted} `{!WillingConsumer C Z live}.

(** What has been written: what the consumer took, then what the ring holds. *)
Definition ring_written w : list Z :=
  accepted (consumer_ (core_ w)) ++ ring_items (core_ w).

(** An open ring over a live active consumer, with at least [grain] slots. *)
Record out_ok (grain : Z) w : Prop := {
  out_ring : ∃ R W, core_ring (core_ w) R W (ring_items (core_ w));
  out_active : c_is_passive (consumer_ (core_ w)) = false;
  out_live : live (consumer_ (core_ w));
  out_open : is_tx_closed (core_ w) = false;
  out_grain : grain ≤ cap_ (core_ w);
}.

Lemma lent_room_new p :
  Recl.slice_ok p → 0 < Recl.len p →
  lent_room (Recl.new p) ≠ [] ∧ Forall (Z.lt 0) (lent_room (Recl.new p)) ∧
  mut_count (lent_room (Recl.new p)) = Recl.len p.
Proof.
  intros Hok Hp. unfold lent_room, Recl.iter_slices, Recl.new. cbn [Recl.pieces Recl.offset_].
  destruct p as [a|a b]; simpl in *.
  - unfold slice_from. rewrite decide_True by lia. cbn -[filter].
    rewrite filter_cons, decide_True by (simpl; lia). simpl.
    split; [done|]. split; [|lia]. repeat constructor. lia.
  - destruct (Z.ltb_spec 0 (s_len a)) as [Ha|Ha].
    + unfold slice_from. rewrite decide_True by (simpl; lia). cbn -[filter].
      rewrite filter_cons, decide_True by (simpl; lia). rewrite filter_cons.
      destruct (decide (s_len b ≠ 0)) as [H0|H0]; simpl.
      * split; [done|]. split; [|lia]. repeat constructor; lia.
      * split; [done|]. split; [|lia]. repeat constructor; lia.
    + unfold slice_from. rewrite decide_True by (simpl; lia). cbn -[filter].
      rewrite filter_cons, decide_True by (simpl; lia). simpl.
      split; [done|]. split; [|lia]. repeat constructor; lia.
Qed.

Lemma ends_moved_out (c c' : CircCore BufEnd C Z) grain lent lent' R W items ys :
  out_ok grain (mkOut c lent) → core_ring c' R W items →
  ends_moved (λ _, []) accepted c c' [] ys →
  out_ok grain (mkOut c' lent') ∧ ring_written (mkOut c' lent') = accepted (consumer_ c) ++ ys ++ items.
Proof.
  intros [_ Hact Hlive Hopen Hg] Hr [Hcap [Htx _] _ Hacc _ Hpas Hkeep]. simpl in *.
  pose proof (ring_items_eq _ _ _ _ Hr) as Hi. split.
  - constructor; simpl; [by rewrite Hi; eauto|congruence|by apply Hkeep; [apply willing_keeps|]
      |congruence|by rewrite Hcap].
  - unfold ring_written. simpl. by rewrite Hi, Hacc, app_assoc.
Qed.

(** One awaited write. *)
Lemma ring_write_run grain w d :
  out_ok grain w → grantable grain d →
  ∃ c' R W p take,
    ring_write_async w d = (mkOut c' (Some (Recl.new p)), (Some (lent_room (Recl.new p)), None)) ∧
    out_ok grain (mkOut c' (Some (Recl.new p))) ∧
    ring_written (mkOut c' (Some (Recl.new p))) = ring_written w ∧
    core_ring c' R W (ring_items c') ∧
    ring_region (cap_ c') (wp (core_pos c')) take p ∧ index_inj p ∧
    0 < take ∧ min_len d ≤ take ≤ cap_ c' - (W - R).
Proof.
  intros Hok [[Hd Hm] Hmin]. pose proof Hok as [(R & W & Hr) Hact Hlive Hopen Hg].
  pose proof (ring_counters _ _ _ _ Hr) as [[??]?].
  pose proof (ring_cap _ _ _ _ Hr) as Hcap. unfold MIN_CAPACITY in Hcap.
  destruct (write_async_run accepted live (Z.to_nat (cap_ (core_ w)) + 6) d
    (S (Z.to_nat (cap_ (core_ w)))) (core_ w) R W _ Hr Hact Hlive Hopen Hd)
    as (c' & n & s & Hrun & Hn & Hr' & Hmv & p & take & -> & Hreg & Hinj & Ht & Hmt);
    [lia..|].
  pose proof (ring_items_eq _ _ _ _ Hr') as Hi.
  destruct w as [c lent]. simpl in *.
  destruct (ends_moved_out c c' grain lent (Some (Recl.new p)) _ _ _ _ Hok Hr' Hmv) as [Hok' Hw].
  exists c', (R + n), W, p, take. unfold ring_write_async, CircCore.capacity. simpl.
  rewrite Hrun. split; [done|]. split; [done|].
  split; [rewrite Hw, take_drop; done|]. rewrite Hi. split; [done|].
  split; [done|]. split; [done|]. lia.
Qed.

(** The drop of what it lent. *)
Lemma ring_drop_run grain c' R W p take bs :
  out_ok grain (mkOut c' (Some (Recl.new p))) → core_ring c' R W (ring_items c') →
  ring_region (cap_ c') (wp (core_pos c')) take p → index_inj p →
  0 < take ≤ cap_ c' - (W - R) → len bs ≤ take →
  out_ok grain (ring_drop_mut (mkOut c' (Some (Recl.new p))) bs) ∧
  ring_written (ring_drop_mut (mkOut c' (Some (Recl.new p))) bs) =
    ring_written (mkOut c' (Some (Recl.new p))) ++ bs.
Proof.
  intros Hok Hr Hreg Hinj Htake Hbs. pose proof Hreg as (Hso & Hlen & _).
  pose proof (len_nonneg bs) as Hbs0. unfold len in Hbs, Hbs0.
  unfold ring_drop_mut. cbn [lent_ core_].
  assert (Hwf : Recl.wf (Recl.new p)) by (split; [done|simpl; lia]).
  destruct (move_from_buff_loop 2 (buffer_ c') (Recl.new p) bs Hwf Hinj
    (pieces_left_bound _)) as (mem & -> & Hfill).
  unfold Recl.least_count in *. simpl in Hfill. rewrite Z.sub_0_r in *.
  rewrite Z.min_r in * by (simpl; lia). simpl.
  rewrite (take_ge bs) in Hfill by lia. 
  destruct (ring_fill c' R W _ take p mem bs Hr Hreg) as [Hr0 Hslots]; [lia|lia|done|].
  destruct (commit_write_ring (λ _, []) accepted (with_buffer c' mem) R W _ bs Hr0)
    as [Hr1 Hm1]; [simpl; lia|done|].
  set (c1 := commit_write _ _) in *.
  pose proof (ring_cap _ _ _ _ Hr) as Hcap.
  pose proof (ring_counters _ _ _ _ Hr1) as [[??]?].
  rewrite (moved_cap _ _ _ _ _ _ Hm1) in *. simpl in *.
  destruct (pump_output_sync_spec (λ _, []) accepted (Z.to_nat (cap_ c') + 5) c1 R _ _ Hr1)
    as (c2 & n & E & Hn & Hr2 & Hm2);
    [by rewrite (moved_p_passive _ _ _ _ _ _ Hm1)|lia|].
  rewrite Z.add_0_l.
  replace (Z.to_nat (cap_ c') + 6)%nat with (S (Z.to_nat (cap_ c') + 5)) by lia.
  rewrite (advance_write_pumped _ _ _ _ _ E).
  assert (Hm : ends_moved (λ _, []) accepted c' c2 [] (list.take (Z.to_nat n) (ring_items c' ++ bs))).
  { apply (ends_moved_after _ _ c' (with_buffer c' mem)).
    - split; simpl; rewrite ?app_nil_r; by try split.
    - by eapply ends_moved_after. }
  destruct (ends_moved_out c' c2 grain (Some (Recl.new p)) None _ _ _ _ Hok Hr2 Hm) as [Hok2 ->].
  split; [done|]. rewrite take_drop. unfold ring_written. simpl. by rewrite app_assoc.
Qed.

Section laws.
Variable grain : Z.

#[export] Instance ring_lawful_writer :
  LawfulWriter ring_out ProducerError (out_ok grain) ring_written grain.
Proof.
  constructor; intros w d; [..|intros room|intros room bs].
  1-5: intros Hok Hd; destruct (ring_write_run grain w d Hok Hd)
    as (c' & R & W & p & take & Hrun & Hok' & Hw & Hr & Hreg & Hinj & Ht & Hmin);
    cbn [write_async drop_mut ring_writer]; rewrite Hrun; try done.
  - intros [= <-]. pose proof Hreg as (Hso & Hlen & _).
    destruct (lent_room_new p Hso) as (H1 & H2 & ->); [lia|]. split; [done|]. split; [done|]. lia.
  - intros [= <-] Hbs. pose proof Hreg as (Hso & Hlen & _).
    destruct (lent_room_new p Hso) as (_ & _ & Hmc); [lia|]. rewrite Hmc in Hbs.
    destruct (ring_drop_run grain c' R W p take bs Hok' Hr Hreg Hinj) as [Hok2 Hw2]; [lia|lia|].
    split; [exact Hok2|]. rewrite <- Hw. exact Hw2.
Qed.

(** A write waits for the device, so there is always room. *)
Definition unlimited w (n : Z) : Prop := True.

#[export] Instance ring_live_writer :
  LiveWriter ring_out ProducerError (out_ok grain) unlimited grain.
Proof.
  constructor; [|done]. intros w d n Hok Hd _ _.
  destruct (ring_write_run grain w d Hok Hd) as (c' & R & W & p & take & Hrun & _).
  cbn [write_async ring_writer]. rewrite Hrun. by eexists.
Qed.
End laws.
End out.
Arguments ring_out C : clear implicits.

(** ** Properties *)

Section through.
Context {C : Type} `{HC : TrConsumer C Z} (accepted : C → list Z) (live : C → Prop).
Context `{!LawfulConsumer C Z accepted} `{!WillingConsumer C Z live}.

(** Closing the half over a live device: what is left goes out. *)
Lemma ring_out_close grain (w : ring_out C) fuel k :
  out_ok live grain w → Forall (λ b, b = false) k →
  (Z.to_nat (core_data_size (core_ w)) + 5 ≤ fuel)%nat →
  ∃ c', close_tx_async fuel (core_ w) k = Done (c', Ready tt) ∧
    is_tx_closed c' = true ∧ ring_items c' = [] ∧
    accepted (consumer_ c') = ring_written accepted w.
Proof.
  intros [(R & W & Hr) Hact Hlive Hopen _] Hk Hf.
  destruct (ring_sizes _ _ _ _ Hr) as (_ & Hds & _). rewrite Hds in Hf.
  destruct (close_tx_async_run (HP:=buf_producer) (λ _, []) accepted live fuel (core_ w) k R W _
    Hr eq_refl Hact Hlive Hk Hf) as (c' & Hrun & Htx & Hr' & _ & Hacc).
  exists c'. split; [done|]. split; [done|]. split; [by eapply ring_items_eq|done].
Qed.

Context {R RE : Type} `{HR : TrBuffRead R RE} `{HS : TrBufferState R}
  `{HE : TrTaggedError RE ReadErrTag}.
Context (rok : R → Prop) (stream : R → list Z).
Context `{!LawfulReader R RE rok stream, !BoundedReader R RE rok stream,
  !EofReader R RE rok stream, !LawfulSource R RE rok stream, !LiveReader R RE rok}.
Context {R2 E2 : Type} `{HR2 : TrBuffRead R2 E2} `{HE2 : TrTaggedError E2 ReadErrTag}.
Context (ok2 : R2 → Prop) (stream2 : R2 → list Z).
Context `{!LawfulReader R2 E2 ok2 stream2, !BoundedReader R2 E2 ok2 stream2,
  !EofReader R2 E2 ok2 stream2, !LiveReader R2 E2 ok2}.

End through.

(** ** An example *)

(** A ring of two slots over a device that takes one byte at a time, fed by an
    encoder whose source is [RingIo.closed_ring]: the message is longer than the
    ring. *)
Definition two_slots : ring_out (DevEnd slow_output) :=
  mkOut (core_new buf_new (dev_new []) 2) None.
Definition through_two_slots : MultipartEncode ring (ring_out (DevEnd slow_output)) :=
  mkEncode closed_ring two_slots.

Lemma two_slots_ok :
  out_ok (λ k : DevEnd slow_output, slow_live (device_ k)) (PREFIX_LEN U8Prefix) two_slots ∧
  ring_written (λ k : DevEnd slow_output, delivered (device_ k)) two_slots = [].
Proof.
  assert (Hcap : MIN_CAPACITY ≤ 2 ≤ MAX_CAPACITY) by by vm_compute.
  pose proof (core_ring_new (T:=Z) (HP:=buf_producer) (HC:=dev_consumer) buf_new
    (dev_new (D:=slow_output) []) 2 Hcap) as Hr.
  pose proof (ring_items_eq _ _ _ _ Hr) as Hi. split; [|by vm_compute].
  constructor; [|done|done|by vm_compute|by vm_compute].
  exists 0, 0. exact (eq_ind_r (core_ring (core_ two_slots) 0 0) Hr Hi).
Qed.

