(* ===== verification/RbState.v ===== *)
(** * The ring buffer: the state word and the operations

    Models [crates/buffex/src/ring_buffer]: [RingBuffer] and [RingCore]
    ([state_.rs]), the halves [RingTx] / [RingRx] ([tx_.rs], [rx_.rs]) and the error
    types ([error_.rs]).  Two positions of 30 bits and four flags share one
    [AtomicUsize]; one slot is always left unused, so the positions alone tell a
    full ring from an empty one.  Besides the two halves of the user, a runtime can
    reserve the readable or the writable region for a kernel call and return it.

    Every update of the word is one atomic step (its compare-exchange loop is
    [Atomex.v]); a debug assertion that fails is a [Panic].  The segments are the
    two-piece segments of [Segm.v]: [reclaim_.rs] of this module has the same code
    as the one of the circular buffer ([RbIo.v] adds the reclaimers). *)

From S2P Require Import Prelude Demand IoPos Segm CircEnds CircCore.

(** ** Layout *)

Definition FLAG_BITS : Z := 4.
Definition POS_BITS : Z := (USIZE_BITS - FLAG_BITS) / 2.
Definition POS_MASK : Z := Z.shiftl 1 POS_BITS - 1.
Definition MAX_CAPACITY : Z := POS_MASK.
Definition TX_CLOSED : Z := Z.shiftl 1 (USIZE_BITS - 1).
Definition RX_CLOSED : Z := Z.shiftl 1 (USIZE_BITS - 2).
Definition SEND_IN_FLIGHT : Z := Z.shiftl 1 (USIZE_BITS - 3).
Definition RECV_IN_FLIGHT : Z := Z.shiftl 1 (USIZE_BITS - 4).
Definition FLAG_MASK : Z :=
  Z.lor (Z.lor (Z.lor TX_CLOSED RX_CLOSED) SEND_IN_FLIGHT) RECV_IN_FLIGHT.

Definition unpack (state : Z) : Z * Z :=
  (Z.land state POS_MASK, Z.land (Z.shiftr state POS_BITS) POS_MASK).
Definition pack (rp wp : Z) : Z := Z.lor rp (Z.shiftl wp POS_BITS).
Definition has_flag (state flag : Z) : bool := negb (Z.land state flag =? 0).

(** ** Errors *)

Inductive RxError : Type := RxArgument | RxCancelled | RxClosing | RxDrained (p : Z).
Inductive TxError : Type := TxArgument | TxCancelled | TxClosing | TxStuffed (p : Z).

Definition rx_err_tag (e : RxError) : ReadErrTag :=
  match e with
  | RxClosing => RClosing
  | RxCancelled => RCancelled
  | RxArgument => RUnknown
  | RxDrained _ => RDrained
  end.
Definition tx_err_tag (e : TxError) : WriteErrTag :=
  match e with
  | TxClosing => WClosing
  | TxCancelled => WCancelled
  | TxArgument => WUnknown
  | TxStuffed _ => WStuffed
  end.

(** ** The core *)

(** [RingBuffer::try_new]: the word of a fresh ring over a buffer of [cap] slots. *)
Definition try_new (cap : Z) : result Z Z :=
  if (2 <=? cap) && (cap <=? MAX_CAPACITY) then Ok 0 else Err cap.

Section ring.
Variable cap : Z.

Definition data_ (rp wp : Z) : Z := (wp + cap - rp) mod cap.
Definition free_ (rp wp : Z) : Z := cap - 1 - data_ rp wp.

Definition data_size (state : Z) : Z := let '(rp, wp) := unpack state in data_ rp wp.
Definition free_size (state : Z) : Z := let '(rp, wp) := unpack state in free_ rp wp.
Definition is_tx_closed (state : Z) : bool := has_flag state TX_CLOSED.
Definition is_rx_closed (state : Z) : bool := has_flag state RX_CLOSED.

(** The updates of [update_state_], as functions of the word. *)
Definition set_flag_ (flag state : Z) : Z := Z.lor state flag.
Definition close_tx (state : Z) : Z := set_flag_ TX_CLOSED state.
Definition close_rx (state : Z) : Z := set_flag_ RX_CLOSED state.

Definition advance_write (amount state : Z) : outcome Z :=
  let '(rp, wp) := unpack state in
  if (rp <? cap) && (wp <? cap) then
    Ret (Z.lor (pack rp ((wp + amount) mod cap)) (Z.land state FLAG_MASK))
  else Panic.
Definition advance_read (amount state : Z) : outcome Z :=
  let '(rp, wp) := unpack state in
  if (rp <? cap) && (wp <? cap) then
    Ret (Z.lor (pack ((rp + amount) mod cap) wp) (Z.land state FLAG_MASK))
  else Panic.

(** The borrows of the user side. *)
Definition try_write_at (state length : Z) : outcome (result TxError (Z * Z)) :=
  let '(rp, wp) := unpack state in
  let free := free_ rp wp in
  if (free =? 0) || has_flag state RECV_IN_FLIGHT then
    if has_flag state TX_CLOSED then Ret (Err TxClosing) else Ret (Err (TxStuffed wp))
  else
    let take := Z.min length free in
    if 0 <? take then Ret (Ok (wp, take)) else Panic.

Definition try_read_at (state length : Z) : outcome (result RxError (Z * Z)) :=
  let '(rp, wp) := unpack state in
  let data := data_ rp wp in
  if (data =? 0) || has_flag state SEND_IN_FLIGHT then
    if has_flag state RX_CLOSED then Ret (Err RxClosing) else Ret (Err (RxDrained rp))
  else
    let take := Z.min length data in
    if 0 <? take then Ret (Ok (rp, take)) else Panic.

Definition try_peek_at (state : Z) : outcome (result RxError (Z * Z)) :=
  let '(rp, wp) := unpack state in
  let data := data_ rp wp in
  if (data =? 0) || has_flag state SEND_IN_FLIGHT then
    if has_flag state RX_CLOSED then Ret (Err RxClosing) else Ret (Err (RxDrained rp))
  else if 0 <? data then Ret (Ok (rp, data)) else Panic.

(** The reservations of the runtime side. *)
Definition readable_slices_ (rp len : Z) : slice * slice :=
  let first := Z.min len (cap - rp) in
  (Slice rp first, if first <? len then Slice 0 (len - first) else Slice 0 0).
Definition writable_slices_ (wp len : Z) : slice * slice :=
  let first := Z.min len (cap - wp) in
  (Slice wp first, if first <? len then Slice 0 (len - first) else Slice 0 0).

Definition take_send_iovecs (state : Z) : option (Z * (slice * slice)) :=
  let '(rp, wp) := unpack state in
  let data := data_ rp wp in
  if (data =? 0) || has_flag state SEND_IN_FLIGHT then None
  else Some (Z.lor state SEND_IN_FLIGHT, readable_slices_ rp data).

Definition put_back_send (written state : Z) : outcome Z :=
  let '(rp, wp) := unpack state in
  if has_flag state SEND_IN_FLIGHT then
    let nr := (rp + written) mod cap in
    Ret (Z.lor (pack nr wp)
      (Z.land (Z.land state FLAG_MASK) (usize_not SEND_IN_FLIGHT)))
  else Panic.

Definition take_recv_iovecs (state : Z) : option (Z * (slice * slice)) :=
  let '(rp, wp) := unpack state in
  let free := free_ rp wp in
  if (free =? 0) || has_flag state RECV_IN_FLIGHT then None
  else Some (Z.lor state RECV_IN_FLIGHT, writable_slices_ wp free).

Definition put_back_recv (received state : Z) : outcome Z :=
  let '(rp, wp) := unpack state in
  if has_flag state RECV_IN_FLIGHT then
    let nw := (wp + received) mod cap in
    Ret (Z.lor (pack rp nw)
      (Z.land (Z.land state FLAG_MASK) (usize_not RECV_IN_FLIGHT)))
  else Panic.

(** The queries of the halves and of the waits. *)
Definition has_tx_space (state : Z) : outcome bool :=
  r ← try_write_at state 1; Ret (is_ok r).
Definition has_tx_data (state : Z) : bool :=
  let '(rp, wp) := unpack state in
  (0 <? data_ rp wp) && negb (has_flag state SEND_IN_FLIGHT).
Definition has_recv_space (state : Z) : bool :=
  let '(rp, wp) := unpack state in
  (0 <? free_ rp wp) && negb (has_flag state RECV_IN_FLIGHT).
Definition has_free_at_least (amount state : Z) : bool :=
  let '(rp, wp) := unpack state in
  (amount <=? free_ rp wp) && negb (has_flag state RECV_IN_FLIGHT).
Definition has_data_at_least (amount state : Z) : bool :=
  let '(rp, wp) := unpack state in
  (amount <=? data_ rp wp) && negb (has_flag state SEND_IN_FLIGHT).

(** The segments over a granted region. *)
Definition write_segm (start take : Z) : outcome Recl.t :=
  Recl.new <$> write_pieces cap start take.
Definition read_segm (start take : Z) : Recl.t := Recl.new (read_pieces cap start take).
Definition peek_segm (start take : Z) : Recl.t := Recl.new (read_pieces cap start take).

(** The drop of the ring: its debug assertion. *)
Definition ring_drop (state : Z) : outcome unit :=
  if negb (has_flag state SEND_IN_FLIGHT) && negb (has_flag state RECV_IN_FLIGHT) then Ret tt
  else Panic.

(** ** The halves *)

(** [RingTx].  Every call makes one load, except [is_blocked_closing], whose two see
    the same word here, and the [try_write] and [try_read] of the traits, which load
    the word again, [later], to tell two errors apart. *)
Definition is_blocked_closing (state : Z) : outcome bool :=
  space ← has_tx_space state; Ret (negb space || is_tx_closed state).
Definition try_write_at_most (state length : Z) : outcome (result TxError Recl.t) :=
  r ← try_write_at state length;
  match r with
  | Ok (start, take) => Ok <$> write_segm start take
  | Err e => Ret (Err e)
  end.
Definition try_write (state later : Z) (demand : Demand) : outcome (result TxError Recl.t) :=
  let min_len := min_len demand in
  let max_len := max_len demand in
  r ← try_write_at state max_len;
  match r with
  | Ok (start, take) =>
      if take <? min_len then
        Ret (Err (if is_tx_closed later then TxClosing else TxStuffed start))
      else Ok <$> write_segm start take
  | Err e => Ret (Err e)
  end.
(** The drop of the half; [auto_close] is its flag. *)
Definition tx_drop (auto_close : bool) (state : Z) : Z :=
  if auto_close then close_tx state else state.

(** [RingRx]. *)
Definition is_drained_closing (state : Z) : bool :=
  (data_size state =? 0) && is_rx_closed state.
Definition try_read_at_most (state length : Z) : outcome (result RxError Recl.t) :=
  r ← try_read_at state length;
  Ret (match r with Ok (start, take) => Ok (read_segm start take) | Err e => Err e end).
Definition try_read (state later : Z) (demand : Demand) : outcome (result RxError Recl.t) :=
  let min_len := min_len demand in
  let max_len := max_len demand in
  r ← try_read_at state max_len;
  Ret (match r with
       | Ok (start, take) =>
           if take <? min_len then
             Err (if is_rx_closed later then RxClosing else RxDrained start)
           else Ok (read_segm start take)
       | Err e => Err e
       end).
Definition try_peek (state : Z) : outcome (result RxError Recl.t) :=
  r ← try_peek_at state;
  Ret (match r with Ok (start, take) => Ok (peek_segm start take) | Err e => Err e end).
Definition rx_drop (auto_close : bool) (state : Z) : Z :=
  if auto_close then close_rx state else state.
End ring.

(** [try_split_shared]: the counts of the handle decide. *)
Definition try_split_shared (strong_count weak_count : Z) : bool :=
  (strong_count =? 1) && (weak_count =? 0).

(** ** Bits of the word *)

Definition is_ring_flag (f : Z) : Prop :=
  f = TX_CLOSED ∨ f = RX_CLOSED ∨ f = SEND_IN_FLIGHT ∨ f = RECV_IN_FLIGHT.

(** A flag is one of the four bits above the positions. *)
Lemma ring_flag_bit f : is_ring_flag f → ∃ k, 60 ≤ k < 64 ∧ f = Z.shiftl 1 k.
Proof.
  intros [-> | [-> | [-> | ->]]];
    [exists 63|exists 62|exists 61|exists 60]; by split.
Qed.

Lemma pos_field_high x n : 0 ≤ x ≤ POS_MASK → POS_BITS ≤ n → Z.testbit x n = false.
Proof.
  change POS_MASK with 1073741823. change POS_BITS with 30. intros Hx Hn.
  destruct (Z.eq_dec x 0) as [->|]; [apply Z.bits_0|].
  apply Z.bits_above_log2; [lia|]. apply Z.log2_lt_pow2; [lia|].
  apply Z.lt_le_trans with (2 ^ 30); [lia|]. by apply Z.pow_le_mono_r.
Qed.

Lemma pos_field_mask x : 0 ≤ x ≤ POS_MASK → Z.land x POS_MASK = x.
Proof.
  intros Hx. change POS_MASK with (Z.ones 30) in *. rewrite Z.land_ones by lia.
  apply Z.mod_small. change (Z.ones 30) with 1073741823 in Hx. lia.
Qed.

Lemma unpack_range s : 0 ≤ (unpack s).1 ≤ POS_MASK ∧ 0 ≤ (unpack s).2 ≤ POS_MASK.
Proof.
  unfold unpack. simpl. change POS_MASK with (Z.ones 30).
  rewrite !Z.land_ones by lia. change (Z.ones 30) with (2 ^ 30 - 1).
  pose proof (Z.mod_pos_bound s (2 ^ 30) ltac:(lia)).
  pose proof (Z.mod_pos_bound (s ≫ POS_BITS) (2 ^ 30) ltac:(lia)). lia.
Qed.

Lemma testbit_ring_mask n : 0 ≤ n → Z.testbit POS_MASK n = (n <? POS_BITS).
Proof.
  intros Hn. change POS_MASK with (Z.ones 30). change POS_BITS with 30.
  rewrite Z.testbit_ones by lia. destruct (Z.ltb_spec n 30); lia.
Qed.

(** Words that agree below the flags have the same positions. *)
Lemma unpack_low s s' :
  (∀ n, 0 ≤ n < 60 → Z.testbit s n = Z.testbit s' n) → unpack s = unpack s'.
Proof.
  intros Hs. unfold unpack. f_equal; apply Z.bits_inj'; intros n Hn;
    rewrite !Z.land_spec, testbit_ring_mask by done; change POS_BITS with 30;
    destruct (Z.ltb_spec n 30); rewrite ?andb_false_r; try done.
  - by rewrite Hs by lia.
  - rewrite !Z.shiftr_spec by done. by rewrite Hs by lia.
Qed.

Lemma pack_bit rp wp n :
  0 ≤ rp ≤ POS_MASK → 0 ≤ wp ≤ POS_MASK → 0 ≤ n →
  Z.testbit (pack rp wp) n =
    if n <? POS_BITS then Z.testbit rp n else Z.testbit wp (n - POS_BITS).
Proof.
  intros Hr Hw Hn. unfold pack. rewrite Z.lor_spec, Z.shiftl_spec by done.
  destruct (Z.ltb_spec n POS_BITS).
  - by rewrite (Z.testbit_neg_r wp), orb_false_r by lia.
  - by rewrite (pos_field_high rp).
Qed.

Lemma unpack_packed rp wp m :
  0 ≤ rp ≤ POS_MASK → 0 ≤ wp ≤ POS_MASK → (∀ n, 0 ≤ n < 60 → Z.testbit m n = false) →
  unpack (Z.lor (pack rp wp) m) = (rp, wp).
Proof.
  intros Hr Hw Hm. etrans; [apply (unpack_low _ (pack rp wp))|].
  { intros n Hn. by rewrite Z.lor_spec, Hm, orb_false_r. }
  unfold unpack. f_equal; apply Z.bits_inj'; intros n Hn;
    rewrite Z.land_spec, testbit_ring_mask by done.
  - rewrite pack_bit by done. destruct (Z.ltb_spec n POS_BITS); [by rewrite andb_true_r|].
    by rewrite andb_false_r, (pos_field_high rp).
  - rewrite Z.shiftr_spec, pack_bit by (done || change POS_BITS with 30; lia).
    destruct (Z.ltb_spec (n + POS_BITS) POS_BITS); [change POS_BITS with 30 in *; lia|].
    replace (n + POS_BITS - POS_BITS) with n by lia.
    destruct (Z.ltb_spec n POS_BITS); [by rewrite andb_true_r|].
    by rewrite andb_false_r, (pos_field_high wp).
Qed.

Lemma has_flag_bit s k : 0 ≤ k → has_flag s (Z.shiftl 1 k) = Z.testbit s k.
Proof. intros Hk. unfold has_flag. by rewrite land_bit_eqb, negb_involutive. Qed.

Lemma has_flag_packed rp wp m f :
  0 ≤ rp ≤ POS_MASK → 0 ≤ wp ≤ POS_MASK → is_ring_flag f →
  has_flag (Z.lor (pack rp wp) m) f = has_flag m f.
Proof.
  intros Hr Hw (k & Hk & ->)%ring_flag_bit. rewrite !has_flag_bit by lia.
  rewrite Z.lor_spec, pack_bit by (done || lia). change POS_BITS with 30.
  destruct (Z.ltb_spec k 30); [lia|]. by rewrite (pos_field_high wp) by (done || change POS_BITS with 30; lia).
Qed.

Lemma shiftl_1_inj j k : 0 ≤ j → 0 ≤ k → Z.shiftl 1 j = Z.shiftl 1 k → j = k.
Proof.
  intros Hj Hk E. assert (Z.testbit (1 ≪ j) j = Z.testbit (1 ≪ k) j) as Hb by by rewrite E.
  rewrite !testbit_shiftl_1, Z.eqb_refl in Hb by done. symmetry in Hb. by apply Z.eqb_eq in Hb.
Qed.

(** What an update keeps of the flags: all, or all but the one it clears. *)
Definition kept (cleared : option Z) (state : Z) : Z :=
  match cleared with
  | None => Z.land state FLAG_MASK
  | Some f => Z.land (Z.land state FLAG_MASK) (usize_not f)
  end.

Lemma flag_mask_bit n : 0 ≤ n → Z.testbit FLAG_MASK n = (60 <=? n) && (n <? 64).
Proof.
  intros Hn. unfold FLAG_MASK, TX_CLOSED, RX_CLOSED, SEND_IN_FLIGHT, RECV_IN_FLIGHT.
  rewrite !Z.lor_spec, !testbit_shiftl_1 by done. unfold USIZE_BITS. lia.
Qed.

Lemma kept_low c s n : 0 ≤ n < 60 → Z.testbit (kept c s) n = false.
Proof.
  intros Hn. assert (Z.testbit (Z.land s FLAG_MASK) n = false) as H0.
  { rewrite Z.land_spec, flag_mask_bit by lia. destruct (Z.leb_spec 60 n); [lia|].
    apply andb_false_r. }
  destruct c as [f|]; simpl; [|done]. by rewrite Z.land_spec, H0.
Qed.

Lemma kept_flag c s f :
  is_ring_flag f → (∀ g, c = Some g → is_ring_flag g) →
  has_flag (kept c s) f = has_flag s f && negb (bool_decide (c = Some f)).
Proof.
  intros (k & Hk & ->)%ring_flag_bit Hc. rewrite !has_flag_bit by lia.
  assert (Hm : Z.testbit (Z.land s FLAG_MASK) k = Z.testbit s k).
  { rewrite Z.land_spec, flag_mask_bit by lia.
    replace ((60 <=? k) && (k <? 64)) with true by lia. apply andb_true_r. }
  destruct c as [g|]; simpl; [|by rewrite Hm, andb_true_r].
  destruct (ring_flag_bit g (Hc g eq_refl)) as (j & Hj & ->).
  rewrite Z.land_spec, Hm, testbit_usize_not by (unfold USIZE_BITS; lia). f_equal. f_equal.
  rewrite testbit_shiftl_1 by lia. destruct (Z.eqb_spec k j) as [->|Hne].
  - by rewrite bool_decide_true.
  - rewrite bool_decide_false; [done|]. intros [= E]. apply Hne.
    by apply shiftl_1_inj; [lia..|].
Qed.

Lemma kept_usize c s : is_usize (kept c s).
Proof.
  apply usize_of_testbit.
  - assert (0 ≤ Z.land s FLAG_MASK) by (apply Z.land_nonneg; right; by vm_compute).
    destruct c as [f|]; simpl; [|done]. apply Z.land_nonneg. by left.
  - intros n Hn. assert (Z.testbit (Z.land s FLAG_MASK) n = false) as H0.
    { unfold USIZE_BITS in Hn. rewrite Z.land_spec, flag_mask_bit by lia.
      replace ((60 <=? n) && (n <? 64)) with false by lia. apply andb_false_r. }
    destruct c as [f|]; simpl; [|done]. by rewrite Z.land_spec, H0.
Qed.

Lemma lor_usize a b : is_usize a → is_usize b → is_usize (Z.lor a b).
Proof.
  intros Ha Hb. apply usize_of_testbit.
  - apply Z.lor_nonneg. split; [apply Ha|apply Hb].
  - intros n Hn. by rewrite Z.lor_spec, !testbit_high.
Qed.

Lemma ring_pack_usize rp wp : 0 ≤ rp ≤ POS_MASK → 0 ≤ wp ≤ POS_MASK → is_usize (pack rp wp).
Proof.
  intros Hr Hw. apply usize_of_testbit.
  - apply Z.lor_nonneg. rewrite Z.shiftl_nonneg. lia.
  - intros n Hn. unfold USIZE_BITS in Hn. rewrite pack_bit by (done || lia).
    change POS_BITS with 30. destruct (Z.ltb_spec n 30); [lia|].
    apply pos_field_high; [done|]. change POS_BITS with 30. lia.
Qed.

(** Setting a flag. *)
Lemma unpack_set s f : is_ring_flag f → unpack (Z.lor s f) = unpack s.
Proof.
  intros (k & Hk & ->)%ring_flag_bit. apply unpack_low. intros n Hn.
  rewrite Z.lor_spec, testbit_shiftl_1 by lia.
  destruct (Z.eqb_spec n k); [lia|]. apply orb_false_r.
Qed.

Lemma ring_flag_set s f g :
  is_ring_flag f → is_ring_flag g →
  has_flag (Z.lor s f) g = has_flag s g || bool_decide (f = g).
Proof.
  intros (j & Hj & ->)%ring_flag_bit (k & Hk & ->)%ring_flag_bit.
  rewrite !has_flag_bit by lia. rewrite Z.lor_spec, testbit_shiftl_1 by lia. f_equal.
  destruct (Z.eqb_spec k j) as [->|Hne]; [by rewrite bool_decide_true|].
  rewrite bool_decide_false; [done|]. intros E. apply Hne.
  by apply shiftl_1_inj; [lia..|].
Qed.

Lemma flag_usize f : is_ring_flag f → is_usize f.
Proof. intros [-> | [-> | [-> | ->]]]; by vm_compute. Qed.
#[export] Hint Resolve lor_usize ring_pack_usize kept_usize flag_usize : cantare.

(** ** The word as two counters *)

Section counters.
Variable cap : Z.
Hypothesis Hcap : 2 ≤ cap ≤ MAX_CAPACITY.

(** [R] items were read and [W] written so far; one slot stays free. *)
Record ring_at (R W s : Z) : Prop := {
  at_usize : is_usize s;
  at_counts : 0 ≤ R ≤ W ∧ W - R ≤ cap - 1;
  at_pos : unpack s = (R mod cap, W mod cap);
}.

Local Lemma cleared_other (f g : Z) :
  negb (bool_decide (Some g = Some f)) = bool_decide (f ≠ g).
Proof.
  destruct (decide (f = g)) as [->|Hne].
  - by rewrite bool_decide_true, bool_decide_false by tauto.
  - by rewrite bool_decide_false, bool_decide_true by congruence.
Qed.

Local Lemma at_fields R W : 0 ≤ R mod cap < cap ∧ 0 ≤ W mod cap < cap.
Proof using Hcap. split; apply Z.mod_pos_bound; lia. Qed.

Lemma data_at R W : 0 ≤ R ≤ W → W - R ≤ cap - 1 → data_ cap (R mod cap) (W mod cap) = W - R.
Proof using Hcap.
  intros H1 H2. unfold data_.
  rewrite <- (Z.mod_small (W - R) cap) by lia. rewrite (Zminus_mod W R).
  replace (W mod cap + cap - R mod cap) with (W mod cap - R mod cap + 1 * cap) by lia.
  by rewrite Z.mod_add by lia.
Qed.

Lemma sizes_at R W s :
  ring_at R W s → data_size cap s = W - R ∧ free_size cap s = cap - 1 - (W - R).
Proof using Hcap.
  intros [_ [H1 H2] Hp]. unfold data_size, free_size, free_. rewrite Hp.
  by rewrite data_at by lia.
Qed.

(** The updates: the positions move, the flags stay, but the one that is cleared. *)
Lemma moved_at R W R' W' s c :
  ring_at R W s → 0 ≤ R' ≤ W' → W' - R' ≤ cap - 1 → (∀ g, c = Some g → is_ring_flag g) →
  let s' := Z.lor (pack (R' mod cap) (W' mod cap)) (kept c s) in
  ring_at R' W' s' ∧
  ∀ f, is_ring_flag f → has_flag s' f = has_flag s f && negb (bool_decide (c = Some f)).
Proof using Hcap.
  intros _ H1 H2 Hc s'. destruct (at_fields R' W') as [Hr Hw]. unfold MAX_CAPACITY in Hcap.
  split; [constructor; [|done|]|].
  - apply lor_usize; [apply ring_pack_usize; lia|apply kept_usize].
  - apply unpack_packed; [lia..|]. apply kept_low.
  - intros f Hf. unfold s'. rewrite has_flag_packed by (done || lia). by apply kept_flag.
Qed.

Lemma advance_write_at R W s n :
  ring_at R W s → 0 ≤ n ≤ cap - 1 - (W - R) →
  ∃ s', advance_write cap n s = Ret s' ∧ ring_at R (W + n) s' ∧
    ∀ f, is_ring_flag f → has_flag s' f = has_flag s f.
Proof using Hcap.
  intros Hs Hn. pose proof Hs as [_ [H1 H2] Hp]. destruct (at_fields R W) as [Hr Hw].
  unfold advance_write. rewrite Hp. rewrite !(proj2 (Z.ltb_lt _ _)) by lia. simpl.
  rewrite Zplus_mod_idemp_l.
  destruct (moved_at R W R (W + n) s None Hs) as [Ha Hf]; [lia|lia|done|].
  eexists. split; [reflexivity|]. split; [exact Ha|]. intros f Hff.
  etrans; [exact (Hf f Hff)|]. apply andb_true_r.
Qed.

Lemma advance_read_at R W s n :
  ring_at R W s → 0 ≤ n ≤ W - R →
  ∃ s', advance_read cap n s = Ret s' ∧ ring_at (R + n) W s' ∧
    ∀ f, is_ring_flag f → has_flag s' f = has_flag s f.
Proof using Hcap.
  intros Hs Hn. pose proof Hs as [_ [H1 H2] Hp]. destruct (at_fields R W) as [Hr Hw].
  unfold advance_read. rewrite Hp. rewrite !(proj2 (Z.ltb_lt _ _)) by lia. simpl.
  rewrite Zplus_mod_idemp_l.
  destruct (moved_at R W (R + n) W s None Hs) as [Ha Hf]; [lia|lia|done|].
  eexists. split; [reflexivity|]. split; [exact Ha|]. intros f Hff.
  etrans; [exact (Hf f Hff)|]. apply andb_true_r.
Qed.

Lemma put_back_recv_at R W s n :
  ring_at R W s → 0 ≤ n ≤ cap - 1 - (W - R) → has_flag s RECV_IN_FLIGHT = true →
  ∃ s', put_back_recv cap n s = Ret s' ∧ ring_at R (W + n) s' ∧
    ∀ f, is_ring_flag f → has_flag s' f = has_flag s f && bool_decide (f ≠ RECV_IN_FLIGHT).
Proof using Hcap.
  intros Hs Hn Hfl. pose proof Hs as [_ [H1 H2] Hp].
  unfold put_back_recv. rewrite Hp, Hfl. rewrite Zplus_mod_idemp_l.
  destruct (moved_at R W R (W + n) s (Some RECV_IN_FLIGHT) Hs) as [Ha Hf]; [lia|lia| |].
  { intros g [= <-]. unfold is_ring_flag. auto. }
  eexists. split; [reflexivity|]. split; [exact Ha|]. intros f Hff.
  etrans; [exact (Hf f Hff)|]. by rewrite cleared_other.
Qed.

Lemma put_back_send_at R W s n :
  ring_at R W s → 0 ≤ n ≤ W - R → has_flag s SEND_IN_FLIGHT = true →
  ∃ s', put_back_send cap n s = Ret s' ∧ ring_at (R + n) W s' ∧
    ∀ f, is_ring_flag f → has_flag s' f = has_flag s f && bool_decide (f ≠ SEND_IN_FLIGHT).
Proof using Hcap.
  intros Hs Hn Hfl. pose proof Hs as [_ [H1 H2] Hp].
  unfold put_back_send. rewrite Hp, Hfl. rewrite Zplus_mod_idemp_l.
  destruct (moved_at R W (R + n) W s (Some SEND_IN_FLIGHT) Hs) as [Ha Hf]; [lia|lia| |].
  { intros g [= <-]. unfold is_ring_flag. auto. }
  eexists. split; [reflexivity|]. split; [exact Ha|]. intros f Hff.
  etrans; [exact (Hf f Hff)|]. by rewrite cleared_other.
Qed.

Lemma set_flag_at R W s f : ring_at R W s → is_ring_flag f → ring_at R W (Z.lor s f).
Proof using Hcap.
  intros [Hu Hc Hp] Hf. constructor; [auto with cantare|done|by rewrite unpack_set].
Qed.

(** The grants, in terms of the counters. *)
Lemma try_write_at_at R W s l :
  ring_at R W s →
  let free := cap - 1 - (W - R) in
  try_write_at cap s l =
    if (free =? 0) || has_flag s RECV_IN_FLIGHT then
      Ret (Err (if has_flag s TX_CLOSED then TxClosing else TxStuffed (W mod cap)))
    else if 0 <? Z.min l free then Ret (Ok (W mod cap, Z.min l free)) else Panic.
Proof using Hcap.
  intros [_ [H1 H2] Hp] free. unfold try_write_at. rewrite Hp. unfold free_.
  rewrite data_at by lia. fold free. by case_match; [destruct (has_flag s TX_CLOSED)|].
Qed.

Lemma try_read_at_at R W s l :
  ring_at R W s →
  try_read_at cap s l =
    if (W - R =? 0) || has_flag s SEND_IN_FLIGHT then
      Ret (Err (if has_flag s RX_CLOSED then RxClosing else RxDrained (R mod cap)))
    else if 0 <? Z.min l (W - R) then Ret (Ok (R mod cap, Z.min l (W - R))) else Panic.
Proof using Hcap.
  intros [_ [H1 H2] Hp]. unfold try_read_at. rewrite Hp. rewrite data_at by lia.
  by case_match; [destruct (has_flag s RX_CLOSED)|].
Qed.

Lemma try_peek_at_at R W s :
  ring_at R W s →
  try_peek_at cap s =
    Ret (if (W - R =? 0) || has_flag s SEND_IN_FLIGHT then
           Err (if has_flag s RX_CLOSED then RxClosing else RxDrained (R mod cap))
         else Ok (R mod cap, W - R)).
Proof using Hcap.
  intros [_ [H1 H2] Hp]. unfold try_peek_at. rewrite Hp. rewrite data_at by lia.
  destruct (Z.eqb_spec (W - R) 0); cbn [orb]; [by destruct (has_flag s RX_CLOSED)|].
  destruct (has_flag s SEND_IN_FLIGHT); [by destruct (has_flag s RX_CLOSED)|].
  by destruct (Z.ltb_spec 0 (W - R)); [|lia].
Qed.

(** The reserved slices are the whole region, in order. *)
Lemma two_slices_region start len :
  0 ≤ start < cap → 0 ≤ len ≤ cap →
  ring_region cap start len
    (let first := Z.min len (cap - start) in
     Recl.Two (Slice start first) (if first <? len then Slice 0 (len - first) else Slice 0 0)).
Proof using Hcap.
  intros Hs Hl. cbn zeta. destruct (Z.ltb_spec (Z.min len (cap - start)) len).
  - replace (Z.min len (cap - start)) with (cap - start) by lia.
    apply two_pieces_region; lia.
  - replace (Z.min len (cap - start)) with len by lia.
    unfold ring_region. simpl. split; [lia|]. split; [lia|]. intros k Hk.
    destruct (Z.ltb_spec k len); [|lia]. by rewrite Z.mod_small by lia.
Qed.

Lemma take_recv_at R W s :
  ring_at R W s →
  let free := cap - 1 - (W - R) in
  if (free =? 0) || has_flag s RECV_IN_FLIGHT then take_recv_iovecs cap s = None
  else ∃ a b, take_recv_iovecs cap s = Some (Z.lor s RECV_IN_FLIGHT, (a, b)) ∧
    ring_region cap (W mod cap) free (Recl.Two a b).
Proof using Hcap.
  intros [_ [H1 H2] Hp] free. destruct (at_fields R W) as [_ Hw].
  unfold take_recv_iovecs. rewrite Hp. unfold free_. rewrite data_at by lia. fold free.
  case_match; [done|]. eexists _, _. split; [reflexivity|].
  apply (two_slices_region (W mod cap) free); lia.
Qed.

Lemma take_send_at R W s :
  ring_at R W s →
  if (W - R =? 0) || has_flag s SEND_IN_FLIGHT then take_send_iovecs cap s = None
  else ∃ a b, take_send_iovecs cap s = Some (Z.lor s SEND_IN_FLIGHT, (a, b)) ∧
    ring_region cap (R mod cap) (W - R) (Recl.Two a b).
Proof using Hcap.
  intros [_ [H1 H2] Hp]. destruct (at_fields R W) as [Hr _].
  unfold take_send_iovecs. rewrite Hp. rewrite data_at by lia.
  case_match; [done|]. eexists _, _. split; [reflexivity|].
  apply (two_slices_region (R mod cap) (W - R)); lia.
Qed.
End counters.
