(* ===== verification/RbHandoff.v ===== *)
(** * The ring buffer between a user and a runtime

    The interleaving of the parties that share one ring of
    [crates/buffex/src/ring_buffer] ([RbState.v]): on the writing side the user, who
    lends a segment and commits it by dropping it, or the runtime, who reserves the
    whole free region for a kernel [readv] and returns it; on the reading side the
    user, who reads or peeks, or the runtime, who reserves the readable region for a
    [writev].  The kernel fills and drains the two slices of a reservation in order.

    The protocol of the module is that one party at a time holds the writing side,
    and one the reading side: [&mut self] of the halves for the user, an obligation of
    the caller for the runtime.  Here it is a guard of the steps; the last section
    shows what the ring does without it. *)

From S2P Require Import Prelude Demand IoPos Segm CircEnds CircCore LiveSegm RbState.

(** Who holds a side. *)
Inductive holder : Type := User | Runtime | Peek.
#[export] Instance holder_eq_dec : EqDecision holder.
Proof. solve_decision. Defined.

Section handoff.
Context {T : Type}.
Variable cap : Z.

(** The memory, the word, the segment each side has out, and the histories: items
    committed, items put in the live segment, items taken. *)
Record world : Type := World {
  mem : gmap Z T;
  word : Z;
  prod : option (holder * Recl.t);
  cons : option (holder * Recl.t);
  sent : list T;
  pending : list T;
  got : list T;
}.

Definition init_world : world := World ∅ 0 None None [] [] [].
Definition with_word w s : world :=
  World (mem w) s (prod w) (cons w) (sent w) (pending w) (got w).

Inductive step : world → world → Prop :=
(** The writing side. *)
| step_lend_write w length start take s :
    prod w = None → try_write_at cap (word w) length = Ret (Ok (start, take)) →
    write_segm cap start take = Ret s →
    step w (World (mem w) (word w) (Some (User, s)) (cons w) (sent w) (pending w) (got w))
| step_reserve_write w s' a b :
    prod w = None → take_recv_iovecs cap (word w) = Some (s', (a, b)) →
    step w (World (mem w) s' (Some (Runtime, Recl.new (Recl.Two a b))) (cons w)
              (sent w) (pending w) (got w))
| step_put w h s xs mem' s' n :
    prod w = Some (h, s) →
    Recl.move_items_from_buff 2 (mem w) s xs = Some (Ret (mem', s', n)) →
    step w (World mem' (word w) (Some (h, s')) (cons w)
              (sent w) (pending w ++ take (Z.to_nat n) xs) (got w))
| step_commit_write w s s' :
    prod w = Some (User, s) → advance_write cap (Recl.offset_ s) (word w) = Ret s' →
    step w (World (mem w) s' None (cons w) (sent w ++ pending w) [] (got w))
| step_return_write w s s' :
    prod w = Some (Runtime, s) → put_back_recv cap (Recl.offset_ s) (word w) = Ret s' →
    step w (World (mem w) s' None (cons w) (sent w ++ pending w) [] (got w))
(** The reading side. *)
| step_lend_read w length start take :
    cons w = None → try_read_at cap (word w) length = Ret (Ok (start, take)) →
    step w (World (mem w) (word w) (prod w) (Some (User, read_segm cap start take))
              (sent w) (pending w) (got w))
| step_lend_peek w start take :
    cons w = None → try_peek_at cap (word w) = Ret (Ok (start, take)) →
    step w (World (mem w) (word w) (prod w) (Some (Peek, peek_segm cap start take))
              (sent w) (pending w) (got w))
| step_reserve_read w s' a b :
    cons w = None → take_send_iovecs cap (word w) = Some (s', (a, b)) →
    step w (World (mem w) s' (prod w) (Some (Runtime, Recl.new (Recl.Two a b)))
              (sent w) (pending w) (got w))
| step_take w h s size xs s' :
    cons w = Some (h, s) → h ≠ Peek → 0 ≤ size →
    Recl.move_items_to_buff 2 (mem w) s size = Some (Ret (Some (xs, s'))) →
    step w (World (mem w) (word w) (prod w) (Some (h, s')) (sent w) (pending w) (got w ++ xs))
| step_commit_read w s s' :
    cons w = Some (User, s) → advance_read cap (Recl.offset_ s) (word w) = Ret s' →
    step w (World (mem w) s' (prod w) None (sent w) (pending w) (got w))
| step_return_read w s s' :
    cons w = Some (Runtime, s) → put_back_send cap (Recl.offset_ s) (word w) = Ret s' →
    step w (World (mem w) s' (prod w) None (sent w) (pending w) (got w))
| step_drop_peek w s :
    cons w = Some (Peek, s) →
    step w (World (mem w) (word w) (prod w) None (sent w) (pending w) (got w))
(** Closing, by anybody. *)
| step_close_tx w : step w (with_word w (close_tx (word w)))
| step_close_rx w : step w (with_word w (close_rx (word w))).

Definition reachable (w : world) : Prop := rtc step init_world w.

(** ** Invariant *)

Definition is_runtime (x : option (holder * Recl.t)) : bool :=
  match x with Some (Runtime, _) => true | _ => false end.

Record inv_at (R W : Z) (w : world) : Prop := {
  inv_ring : ring_at cap R W (word w);
  inv_sent : Z.of_nat (length (sent w)) = W;
  inv_prod :
    match prod w with
    | None => pending w = []
    | Some (h, s) =>
        h ≠ Peek ∧ live_segm cap W (cap - 1 - (W - R)) (Z.of_nat (length (pending w))) s
    end;
  inv_cons :
    match cons w with
    | None => Z.of_nat (length (got w)) = R
    | Some (Peek, s) => Z.of_nat (length (got w)) = R ∧ live_segm cap R (W - R) 0 s
    | Some (_, s) =>
        R ≤ Z.of_nat (length (got w)) ∧
        live_segm cap R (W - R) (Z.of_nat (length (got w)) - R) s
    end;
  inv_recv : has_flag (word w) RECV_IN_FLIGHT = is_runtime (prod w);
  inv_send : has_flag (word w) SEND_IN_FLIGHT = is_runtime (cons w);
  inv_content : content cap (mem w) R (sent w ++ pending w);
  inv_got : got w `prefix_of` sent w;
}.

Definition inv (w : world) : Prop := ∃ R W, inv_at R W w.

(** A borrow that answers an error. *)
Definition refused {E A} (x : outcome (result E A)) : Prop := ∃ e, x = Ret (Err e).

(** ** Preservation *)

Hypothesis Hcap : 2 ≤ cap ≤ MAX_CAPACITY.

Local Lemma slots_pos : 0 < cap. Proof using Hcap. lia. Qed.

Local Lemma flags_ok :
  is_ring_flag TX_CLOSED ∧ is_ring_flag RX_CLOSED ∧
  is_ring_flag SEND_IN_FLIGHT ∧ is_ring_flag RECV_IN_FLIGHT.
Proof. unfold is_ring_flag. auto 10. Qed.

Lemma handoff_inv_lend_write R W w length start take s :
  inv_at R W w → prod w = None → try_write_at cap (word w) length = Ret (Ok (start, take)) →
  write_segm cap start take = Ret s →
  inv_at R W (World (mem w) (word w) (Some (User, s)) (cons w) (sent w) (pending w) (got w)).
Proof using Hcap.
  intros [Hr Hs Hp Hc Hrf Hsf Hct Hg] Hnone Hgr Hseg. pose proof (at_counts _ _ _ _ Hr).
  rewrite (try_write_at_at cap Hcap R W _ length Hr), Hrf, Hnone, orb_false_r in Hgr.
  destruct (Z.eqb_spec (cap - 1 - (W - R)) 0); [done|].
  destruct (Z.ltb_spec 0 (Z.min length (cap - 1 - (W - R)))); [|done].
  injection Hgr as <- <-. pose proof (Z.mod_pos_bound W cap slots_pos).
  destruct (write_pieces_region cap (W mod cap) (Z.min length (cap - 1 - (W - R))))
    as (p & Hpp & Hreg); [done|lia|].
  unfold write_segm in Hseg. rewrite Hpp in Hseg. injection Hseg as <-.
  rewrite Hnone in Hp, Hrf. constructor; simpl; try done.
  split; [done|]. rewrite Hp. by apply (live_segm_new cap _ _ _ p Hreg); lia.
Qed.

Lemma handoff_inv_reserve_write R W w s' a b :
  inv_at R W w → prod w = None → take_recv_iovecs cap (word w) = Some (s', (a, b)) →
  inv_at R W (World (mem w) s' (Some (Runtime, Recl.new (Recl.Two a b))) (cons w)
                (sent w) (pending w) (got w)).
Proof using Hcap.
  intros [Hr Hs Hp Hc Hrf Hsf Hct Hg] Hnone Ht. pose proof (at_counts _ _ _ _ Hr).
  destruct flags_ok as (_ & _ & F3 & F4).
  pose proof (take_recv_at cap Hcap R W _ Hr) as Hx. cbn zeta in Hx.
  destruct ((cap - 1 - (W - R) =? 0) || has_flag (word w) RECV_IN_FLIGHT); [congruence|]. destruct Hx as (a' & b' & E & Hreg).
  rewrite E in Ht. injection Ht as <- <- <-. rewrite Hnone in Hp.
  constructor; simpl; try done.
  - by apply set_flag_at.
  - split; [done|]. rewrite Hp. by apply (live_segm_new cap _ _ _ _ Hreg); lia.
  - rewrite ring_flag_set, bool_decide_true by done. apply orb_true_r.
  - rewrite ring_flag_set, bool_decide_false by done. by rewrite orb_false_r.
Qed.

Lemma handoff_inv_put R W w h s xs mem' s' n :
  inv_at R W w → prod w = Some (h, s) →
  Recl.move_items_from_buff 2 (mem w) s xs = Some (Ret (mem', s', n)) →
  inv_at R W (World mem' (word w) (Some (h, s')) (cons w)
                (sent w) (pending w ++ take (Z.to_nat n) xs) (got w)).
Proof using Hcap.
  intros [Hr Hs Hp Hc Hrf Hsf Hct Hg] Hsome Hmv. rewrite Hsome in Hp, Hrf. subst W.
  pose proof (at_counts _ _ _ _ Hr). destruct Hp as [Hh Hp].
  destruct (live_put cap slots_pos (mem w) s R (sent w) (pending w)
    (cap - 1 - (Z.of_nat (length (sent w)) - R)) xs mem' s' n) as [Hs' Hct'];
    [lia|lia|done..|by constructor].
Qed.

(** A commit of the writing side, by either holder. *)
Lemma handoff_inv_commit_write R W w h s s' :
  inv_at R W w → prod w = Some (h, s) →
  ring_at cap R (W + Recl.offset_ s) s' →
  has_flag s' RECV_IN_FLIGHT = false → has_flag s' SEND_IN_FLIGHT = has_flag (word w) SEND_IN_FLIGHT →
  inv_at R (W + Recl.offset_ s) (World (mem w) s' None (cons w) (sent w ++ pending w) [] (got w)).
Proof using Hcap.
  intros [Hr Hs Hp Hc Hrf Hsf Hct Hg] Hsome Hr' Hf1 Hf2. rewrite Hsome in Hp.
  destruct Hp as [_ Hp]. destruct (live_segm_used _ _ _ _ _ Hp) as [Ho Hu].
  constructor; simpl; try done.
  - rewrite length_app. lia.
  - destruct (cons w) as [[[] s0]|]; [| |destruct Hc as [? Hc]|]; try done.
    + destruct Hc as [? Hc]. split; [done|]. eapply live_segm_grow; [|done]. lia.
    + destruct Hc as [? Hc]. split; [done|]. eapply live_segm_grow; [|done]. lia.
    + split; [done|]. eapply live_segm_grow; [|done]. lia.
  - by rewrite Hf2.
  - by rewrite app_nil_r.
  - etrans; [done|]. by apply prefix_app_r.
Qed.

Lemma handoff_inv_lend_read R W w h start take :
  inv_at R W w → cons w = None → h ≠ Runtime →
  start = R mod cap → 0 ≤ take ≤ W - R →
  inv_at R W (World (mem w) (word w) (prod w) (Some (h, Recl.new (read_pieces cap start take)))
                (sent w) (pending w) (got w)).
Proof using Hcap.
  intros [Hr Hs Hp Hc Hrf Hsf Hct Hg] Hnone Hh -> Ht. pose proof (at_counts _ _ _ _ Hr).
  pose proof (Z.mod_pos_bound R cap slots_pos).
  assert (Hl : live_segm cap R (W - R) 0 (Recl.new (read_pieces cap (R mod cap) take))).
  { eapply live_segm_new; [apply read_pieces_region|]; lia. }
  rewrite Hnone in Hc, Hsf. constructor; simpl; try done.
  - destruct h; [|done|done]. rewrite Hc, Z.sub_diag. split; [lia|done].
  - by destruct h.
Qed.

Lemma handoff_inv_reserve_read R W w s' a b :
  inv_at R W w → cons w = None → take_send_iovecs cap (word w) = Some (s', (a, b)) →
  inv_at R W (World (mem w) s' (prod w) (Some (Runtime, Recl.new (Recl.Two a b)))
                (sent w) (pending w) (got w)).
Proof using Hcap.
  intros [Hr Hs Hp Hc Hrf Hsf Hct Hg] Hnone Ht. pose proof (at_counts _ _ _ _ Hr).
  destruct flags_ok as (_ & _ & F3 & F4).
  pose proof (take_send_at cap Hcap R W _ Hr) as Hx.
  destruct ((W - R =? 0) || has_flag (word w) SEND_IN_FLIGHT); [congruence|]. destruct Hx as (a' & b' & E & Hreg).
  rewrite E in Ht. injection Ht as <- <- <-. rewrite Hnone in Hc.
  constructor; simpl; try done.
  - by apply set_flag_at.
  - rewrite Hc, Z.sub_diag. split; [lia|]. by apply (live_segm_new cap _ _ _ _ Hreg); lia.
  - rewrite ring_flag_set, bool_decide_false by done. by rewrite orb_false_r.
  - rewrite ring_flag_set, bool_decide_true by done. apply orb_true_r.
Qed.

Lemma handoff_inv_take R W w h s size xs s' :
  inv_at R W w → cons w = Some (h, s) → h ≠ Peek → 0 ≤ size →
  Recl.move_items_to_buff 2 (mem w) s size = Some (Ret (Some (xs, s'))) →
  inv_at R W (World (mem w) (word w) (prod w) (Some (h, s')) (sent w) (pending w) (got w ++ xs)).
Proof using Hcap.
  intros [Hr Hs Hp Hc Hrf Hsf Hct Hg] Hsome Hh Hsz Hmv. rewrite Hsome in Hc, Hsf. subst W.
  pose proof (at_counts _ _ _ _ Hr).
  assert (Hl : R ≤ Z.of_nat (length (got w)) ∧
    live_segm cap R (Z.of_nat (length (sent w)) - R) (Z.of_nat (length (got w)) - R) s)
    by by destruct h. destruct Hl as [HR Hl].
  destruct (live_take_step cap slots_pos (mem w) s R (sent w) (pending w) (got w) size xs s')
    as [Hs' Hg']; [lia|lia|done..|].
  constructor; simpl; try done.
  destruct h; [|..|done]; (split; [rewrite length_app; lia|done]).
Qed.

(** A commit of the reading side, by either holder. *)
Lemma handoff_inv_commit_read R W w h s s' :
  inv_at R W w → cons w = Some (h, s) → h ≠ Peek →
  ring_at cap (R + Recl.offset_ s) W s' →
  has_flag s' SEND_IN_FLIGHT = false → has_flag s' RECV_IN_FLIGHT = has_flag (word w) RECV_IN_FLIGHT →
  inv_at (R + Recl.offset_ s) W (World (mem w) s' (prod w) None (sent w) (pending w) (got w)).
Proof using Hcap.
  intros [Hr Hs Hp Hc Hrf Hsf Hct Hg] Hsome Hh Hr' Hf1 Hf2. rewrite Hsome in Hc.
  assert (Hl : live_segm cap R (W - R) (Z.of_nat (length (got w)) - R) s)
    by (destruct h; [apply Hc|apply Hc|done]).
  destruct (live_segm_used _ _ _ _ _ Hl) as [Ho Hu].
  constructor; simpl; try done.
  - destruct (prod w) as [[h0 s0]|]; [|done]. destruct Hp as [? Hp]. split; [done|].
    eapply live_segm_grow; [|done]. lia.
  - lia.
  - by rewrite Hf2.
  - intros i Hi. apply Hct. lia.
Qed.

Lemma handoff_inv_close R W w f :
  inv_at R W w → f = TX_CLOSED ∨ f = RX_CLOSED → inv_at R W (with_word w (Z.lor (word w) f)).
Proof using Hcap.
  intros [Hr Hs Hp Hc Hrf Hsf Hct Hg] Hf. destruct flags_ok as (F1 & F2 & F3 & F4).
  assert (Hff : is_ring_flag f) by by destruct Hf as [-> | ->].
  constructor; simpl; try done; [by apply set_flag_at|..];
    (rewrite ring_flag_set by done; rewrite bool_decide_false by (by destruct Hf as [-> | ->]);
     by rewrite orb_false_r).
Qed.

(** The four commits succeed, and what they leave of the flags. *)
Lemma commit_write_ok R W w s :
  inv_at R W w → prod w = Some (User, s) →
  ∃ s', advance_write cap (Recl.offset_ s) (word w) = Ret s' ∧
    inv_at R (W + Recl.offset_ s) (World (mem w) s' None (cons w) (sent w ++ pending w) [] (got w)).
Proof using Hcap.
  intros Hi Hsome. pose proof Hi as [Hr _ Hp _ Hrf _ _ _]. rewrite Hsome in Hp, Hrf.
  destruct Hp as [_ Hp]. destruct (live_segm_used _ _ _ _ _ Hp) as [Ho Hu].
  destruct flags_ok as (_ & _ & F3 & F4).
  destruct (advance_write_at cap Hcap R W (word w) (Recl.offset_ s) Hr) as (s' & E & Hr' & Hf);
    [lia|].
  exists s'. split; [done|]. eapply handoff_inv_commit_write; try done; by rewrite Hf.
Qed.

Lemma return_write_ok R W w s :
  inv_at R W w → prod w = Some (Runtime, s) →
  ∃ s', put_back_recv cap (Recl.offset_ s) (word w) = Ret s' ∧
    inv_at R (W + Recl.offset_ s) (World (mem w) s' None (cons w) (sent w ++ pending w) [] (got w)).
Proof using Hcap.
  intros Hi Hsome. pose proof Hi as [Hr _ Hp _ Hrf _ _ _]. rewrite Hsome in Hp, Hrf.
  destruct Hp as [_ Hp]. destruct (live_segm_used _ _ _ _ _ Hp) as [Ho Hu].
  destruct flags_ok as (_ & _ & F3 & F4).
  destruct (put_back_recv_at cap Hcap R W (word w) (Recl.offset_ s) Hr) as (s' & E & Hr' & Hf);
    [lia|done|].
  exists s'. split; [done|]. eapply handoff_inv_commit_write; try done; rewrite Hf by done.
  - rewrite bool_decide_false by (by intros H; apply H). apply andb_false_r.
  - rewrite bool_decide_true by done. apply andb_true_r.
Qed.

Lemma commit_read_ok R W w s :
  inv_at R W w → cons w = Some (User, s) →
  ∃ s', advance_read cap (Recl.offset_ s) (word w) = Ret s' ∧
    inv_at (R + Recl.offset_ s) W (World (mem w) s' (prod w) None (sent w) (pending w) (got w)).
Proof using Hcap.
  intros Hi Hsome. pose proof Hi as [Hr _ _ Hc _ Hsf _ _]. rewrite Hsome in Hc, Hsf.
  destruct Hc as [_ Hc]. destruct (live_segm_used _ _ _ _ _ Hc) as [Ho Hu].
  destruct flags_ok as (_ & _ & F3 & F4).
  destruct (advance_read_at cap Hcap R W (word w) (Recl.offset_ s) Hr) as (s' & E & Hr' & Hf);
    [lia|].
  exists s'. split; [done|]. eapply handoff_inv_commit_read; try done; by rewrite Hf.
Qed.

Lemma return_read_ok R W w s :
  inv_at R W w → cons w = Some (Runtime, s) →
  ∃ s', put_back_send cap (Recl.offset_ s) (word w) = Ret s' ∧
    inv_at (R + Recl.offset_ s) W (World (mem w) s' (prod w) None (sent w) (pending w) (got w)).
Proof using Hcap.
  intros Hi Hsome. pose proof Hi as [Hr _ _ Hc _ Hsf _ _]. rewrite Hsome in Hc, Hsf.
  destruct Hc as [_ Hc]. destruct (live_segm_used _ _ _ _ _ Hc) as [Ho Hu].
  destruct flags_ok as (_ & _ & F3 & F4).
  destruct (put_back_send_at cap Hcap R W (word w) (Recl.offset_ s) Hr) as (s' & E & Hr' & Hf);
    [lia|done|].
  exists s'. split; [done|]. eapply handoff_inv_commit_read; try done; rewrite Hf by done.
  - rewrite bool_decide_false by (by intros H; apply H). apply andb_false_r.
  - rewrite bool_decide_true by done. apply andb_true_r.
Qed.

(** Every borrow of a side in flight, by the ring or by its half, is refused. *)
Lemma write_side_refused R W s :
  ring_at cap R W s → has_flag s RECV_IN_FLIGHT = true →
  take_recv_iovecs cap s = None ∧
  (∀ length, refused (try_write_at cap s length)) ∧
  (∀ length, refused (try_write_at_most cap s length)) ∧
  (∀ later d, refused (try_write cap s later d)).
Proof using Hcap.
  intros Hr Hf.
  assert (∀ l, refused (try_write_at cap s l)) as Hw
    by (intros l; rewrite (try_write_at_at cap Hcap R W _ l Hr), Hf, orb_true_r; by eexists).
  split_and!; [|done|intros l|intros later d].
  - pose proof (take_recv_at cap Hcap R W _ Hr) as Ht. cbn zeta in Ht.
    by rewrite Hf, orb_true_r in Ht.
  - unfold try_write_at_most. destruct (Hw l) as [e ->]. by eexists.
  - unfold try_write. destruct (Hw (max_len d)) as [e ->]. by eexists.
Qed.

Lemma read_side_refused R W s :
  ring_at cap R W s → has_flag s SEND_IN_FLIGHT = true →
  take_send_iovecs cap s = None ∧
  (∀ length, refused (try_read_at cap s length)) ∧
  (∀ length, refused (try_read_at_most cap s length)) ∧
  (∀ later d, refused (try_read cap s later d)) ∧
  refused (try_peek_at cap s) ∧ refused (try_peek cap s).
Proof using Hcap.
  intros Hr Hf.
  assert (∀ l, refused (try_read_at cap s l)) as Hw
    by (intros l; rewrite (try_read_at_at cap Hcap R W _ l Hr), Hf, orb_true_r; by eexists).
  assert (refused (try_peek_at cap s)) as Hp
    by (rewrite (try_peek_at_at cap Hcap R W _ Hr), Hf, orb_true_r; by eexists).
  split_and!; [|done|intros l|intros later d|done|].
  - pose proof (take_send_at cap Hcap R W _ Hr) as Ht. by rewrite Hf, orb_true_r in Ht.
  - unfold try_read_at_most. destruct (Hw l) as [e ->]. by eexists.
  - unfold try_read. destruct (Hw (max_len d)) as [e ->]. by eexists.
  - unfold try_peek. destruct Hp as [e ->]. by eexists.
Qed.

Lemma handoff_inv_init : inv init_world.
Proof using Hcap.
  exists 0, 0. constructor; simpl; try done.
  constructor; [by vm_compute|lia|]. rewrite Z.mod_0_l by lia. done.
Qed.

Lemma handoff_inv_step w w' : step w w' → inv w → inv w'.
Proof using Hcap.
  intros Hstep (R & W & Hinv). pose proof (inv_ring _ _ _ Hinv) as Hr.
  pose proof (at_counts _ _ _ _ Hr).
  destruct Hstep.
  - exists R, W. by eapply handoff_inv_lend_write.
  - exists R, W. by eapply handoff_inv_reserve_write.
  - exists R, W. by eapply handoff_inv_put.
  - destruct (commit_write_ok R W w s) as (x & E & Hx); [done..|].
    assert (x = s') as -> by congruence. eexists _, _. exact Hx.
  - destruct (return_write_ok R W w s) as (x & E & Hx); [done..|].
    assert (x = s') as -> by congruence. eexists _, _. exact Hx.
  - exists R, W. rewrite (try_read_at_at cap Hcap R W _ length Hr) in *.
    destruct ((W - R =? 0) || has_flag (word w) SEND_IN_FLIGHT); [done|].
    destruct (Z.ltb_spec 0 (Z.min length (W - R))); [|done].
    simplify_eq. apply handoff_inv_lend_read; try done. lia.
  - exists R, W. rewrite (try_peek_at_at cap Hcap R W _ Hr) in *.
    destruct ((W - R =? 0) || has_flag (word w) SEND_IN_FLIGHT); [done|]. simplify_eq. apply handoff_inv_lend_read; try done. lia.
  - exists R, W. by eapply handoff_inv_reserve_read.
  - exists R, W. by eapply handoff_inv_take.
  - destruct (commit_read_ok R W w s) as (x & E & Hx); [done..|].
    assert (x = s') as -> by congruence. eexists _, _. exact Hx.
  - destruct (return_read_ok R W w s) as (x & E & Hx); [done..|].
    assert (x = s') as -> by congruence. eexists _, _. exact Hx.
  - exists R, W. destruct Hinv as [? ? ? Hc ? Hsf ? ?].
    match goal with E : cons w = _ |- _ => rewrite E in Hc, Hsf end.
    destruct Hc. by constructor.
  - exists R, W. apply handoff_inv_close; auto.
  - exists R, W. apply handoff_inv_close; auto.
Qed.

Lemma handoff_reachable_inv w : reachable w → inv w.
Proof using Hcap.
  intros Hr. assert (∀ a b, rtc step a b → inv a → inv b) as Hind
    by (induction 1; eauto using handoff_inv_step).
  eapply Hind; [done|apply handoff_inv_init].
Qed.
End handoff.
Arguments World {T} _ _ _ _ _ _ _.
Arguments world : clear implicits.

(** A run: the kernel receives seven and eight, the user lends both and takes one,
    and the kernel gets the free slot meanwhile. *)
Definition demo : world Z :=
  World (Segm.store ∅ 0 [7; 8]) (Z.lor (pack 0 2) RECV_IN_FLIGHT)
    (Some (Runtime, Recl.new (Recl.Two (Slice 2 1) (Slice 0 0))))
    (Some (User, Recl.mk (Recl.One (Slice 0 2)) 1)) [7; 8] [] [7].

Lemma handoff_demo_reachable : reachable 4 demo.
Proof.
  set (m := Segm.store ∅ 0 [7; 8]). set (s1 := RECV_IN_FLIGHT). set (s2 := pack 0 2).
  set (p1 := Recl.Two (Slice 0 3) (Slice 0 0)).
  set (g2 := Some (User, Recl.mk (Recl.One (Slice 0 2)) 1)).
  assert (H1 : reachable 4 (World (∅ : gmap Z Z) s1 (Some (Runtime, Recl.new p1)) None [] [] [])).
  { eapply rtc_r_eq; [apply rtc_refl| |reflexivity].
    by apply (step_reserve_write 4 (init_world (T:=Z)) s1 (Slice 0 3) (Slice 0 0)). }
  assert (H2 : reachable 4 (World m s1 (Some (Runtime, Recl.mk p1 2)) None [] [7; 8] [])).
  { eapply rtc_r_eq; [exact H1| |].
    - eapply (step_put 4 _ _ _ [7; 8] m _ 2); [reflexivity|by vm_compute].
    - by vm_compute. }
  assert (H3 : reachable 4 (World m s2 None None [7; 8] [] [])).
  { eapply rtc_r_eq; [exact H2| |].
    - eapply (step_return_write 4 _ _ s2); [reflexivity|by vm_compute].
    - by vm_compute. }
  assert (H4 : reachable 4 (World m s2 None (Some (User, Recl.new (Recl.One (Slice 0 2)))) [7; 8] [] [])).
  { eapply rtc_r_eq; [exact H3| |].
    - eapply (step_lend_read 4 _ 9 0 2); [reflexivity|by vm_compute].
    - by vm_compute. }
  assert (H5 : reachable 4 (World m s2 None g2 [7; 8] [] [7])).
  { eapply rtc_r_eq; [exact H4| |].
    - eapply (step_take 4 _ _ _ 1 [7]); [reflexivity|done|done|by vm_compute].
    - by vm_compute. }
  eapply rtc_r_eq; [exact H5| |].
  - eapply (step_reserve_write 4 _ (Z.lor s2 RECV_IN_FLIGHT)); [reflexivity|by vm_compute].
  - by vm_compute.
Qed.

(** ** Properties *)

(** C13: the ring is one queue for both modes: whether the user or the runtime holds a
    side, and however their lending, moving, committing and closing interleave, what
    was taken is the front of what was committed, item for item; between two reads
    the ring reports exactly the items not taken, and at most [cap - 1] of them, one
    slot being kept free. *)
Theorem handoff_fifo {T} cap (w : world T) :
  2 ≤ cap ≤ MAX_CAPACITY → reachable cap w →
  got w `prefix_of` sent w ∧
  Z.of_nat (length (sent w)) - Z.of_nat (length (got w)) ≤ cap - 1 ∧
  (cons w = None →
     data_size cap (word w) = Z.of_nat (length (sent w)) - Z.of_nat (length (got w)) ∧
     free_size cap (word w) = cap - 1 - data_size cap (word w)).
Proof.
  intros Hcap (R & W & [Hr Hs _ Hc _ _ _ Hg])%handoff_reachable_inv; [|done].
  destruct (sizes_at cap Hcap _ _ _ Hr) as [-> ->]. pose proof (at_counts _ _ _ _ Hr).
  split; [done|]. split.
  - destruct (cons w) as [[[] s]|]; [destruct Hc..|]; lia.
  - intros Hn. rewrite Hn in Hc. lia.
Qed.

Lemma handoff_fifo_witness :
  got demo `prefix_of` sent demo ∧ got demo = [7] ∧ sent demo = [7; 8].
Proof.
  assert (Hcap : 2 ≤ 4 ≤ MAX_CAPACITY) by by vm_compute.
  exact (conj (proj1 (handoff_fifo 4 demo Hcap handoff_demo_reachable)) (conj eq_refl eq_refl)).
Defined.

(** C14: under the protocol nobody touches what another holds: the region out on the
    writing side and the one out on the reading side share no slot; the two in-flight
    flags say exactly which side the runtime holds; while it holds one, every borrow
    of that side (for writing; for reading and peeking; of the ring and of its half) and
    every further reservation of it is refused; and no commit, no return and no drop of
    an idle ring fails a debug assertion. *)
Theorem handoff_exclusive {T} cap (w : world T) :
  2 ≤ cap ≤ MAX_CAPACITY → reachable cap w →
  has_flag (word w) RECV_IN_FLIGHT = is_runtime (prod w) ∧
  has_flag (word w) SEND_IN_FLIGHT = is_runtime (cons w) ∧
  (is_runtime (prod w) = true → take_recv_iovecs cap (word w) = None ∧
     (∀ length, refused (try_write_at cap (word w) length)) ∧
     (∀ length, refused (try_write_at_most cap (word w) length)) ∧
     (∀ later d, refused (try_write cap (word w) later d))) ∧
  (is_runtime (cons w) = true → take_send_iovecs cap (word w) = None ∧
     (∀ length, refused (try_read_at cap (word w) length)) ∧
     (∀ length, refused (try_read_at_most cap (word w) length)) ∧
     (∀ later d, refused (try_read cap (word w) later d)) ∧
     refused (try_peek_at cap (word w)) ∧ refused (try_peek cap (word w))) ∧
  (∀ h s h' s' i j, prod w = Some (h, s) → cons w = Some (h', s') →
     0 ≤ i < Recl.capacity s → 0 ≤ j < Recl.capacity s' →
     Recl.index (Recl.pieces s) i ≠ Recl.index (Recl.pieces s') j) ∧
  (∀ h s, prod w = Some (h, s) → h ≠ Peek ∧
     match h with
     | User => advance_write cap (Recl.offset_ s) (word w)
     | _ => put_back_recv cap (Recl.offset_ s) (word w)
     end ≠ Panic) ∧
  (∀ h s, cons w = Some (h, s) → h ≠ Peek →
     match h with
     | User => advance_read cap (Recl.offset_ s) (word w)
     | _ => put_back_send cap (Recl.offset_ s) (word w)
     end ≠ Panic) ∧
  (prod w = None → cons w = None → ring_drop (word w) = Ret tt).
Proof.
  intros Hcap (R & W & Hi)%handoff_reachable_inv; [|done].
  pose proof Hi as [Hr _ Hp Hc Hrf Hsf _ _]. pose proof (at_counts _ _ _ _ Hr).
  split; [done|]. split; [done|]. split.
  { intros Hx. rewrite Hx in Hrf. by eapply write_side_refused. }
  split.
  { intros Hx. rewrite Hx in Hsf. by eapply read_side_refused. }
  split.
  { intros h s h' s' i j E E' Hi' Hj Heq. rewrite E in Hp. rewrite E' in Hc.
    destruct Hp as [_ Hp].
    assert (∃ u, live_segm cap R (W - R) u s') as [u Hl] by (destruct h'; destruct Hc; eauto).
    symmetry in Heq. revert Heq.
    apply (live_disjoint cap ltac:(lia) _ _ _ _ _ _ _ _ Hl Hp); lia || done. }
  split.
  { intros h s E. pose proof Hp as Hp'. rewrite E in Hp'. destruct Hp' as [Hh _].
    split; [done|]. destruct h; [| |done].
    - by destruct (commit_write_ok cap Hcap R W w s Hi E) as (x & -> & _).
    - by destruct (return_write_ok cap Hcap R W w s Hi E) as (x & -> & _). }
  split.
  { intros h s E Hh. destruct h; [| |done].
    - by destruct (commit_read_ok cap Hcap R W w s Hi E) as (x & -> & _).
    - by destruct (return_read_ok cap Hcap R W w s Hi E) as (x & -> & _). }
  intros E E'. rewrite E in Hrf. rewrite E' in Hsf. unfold ring_drop. by rewrite Hrf, Hsf.
Qed.

Lemma handoff_exclusive_witness :
  take_recv_iovecs 4 (word demo) = None ∧
  Recl.index (Recl.Two (Slice 2 1) (Slice 0 0)) 0 ≠ Recl.index (Recl.One (Slice 0 2)) 1.
Proof.
  assert (Hcap : 2 ≤ 4 ≤ MAX_CAPACITY) by by vm_compute.
  destruct (handoff_exclusive 4 demo Hcap handoff_demo_reachable)
    as (_ & _ & Hw & _ & Hx & _).
  split; [apply Hw; reflexivity|].
  apply (Hx Runtime (Recl.new (Recl.Two (Slice 2 1) (Slice 0 0))) User
    (Recl.mk (Recl.One (Slice 0 2)) 1) 0 1 eq_refl eq_refl);
    vm_compute; (split; [discriminate|reflexivity]).
Defined.

(** ** Without the protocol

    A borrow of the user leaves no mark in the word, so the runtime reserves the same
    region while the user's segment is alive.  Two items are then delivered twice, and
    after both commits the ring reports two items that nobody wrote. *)
Example reservation_over_borrow :
  ∃ s0 s1 s2 s3,
    advance_write 4 2 0 = Ret s0 ∧ data_size 4 s0 = 2 ∧
    try_read_at 4 s0 2 = Ret (Ok (0, 2)) ∧
    take_send_iovecs 4 s0 = Some (s1, (Slice 0 2, Slice 0 0)) ∧
    advance_read 4 2 s1 = Ret s2 ∧ put_back_send 4 2 s2 = Ret s3 ∧
    data_size 4 s3 = 2.
Proof.
  exists (pack 0 2), (Z.lor (pack 0 2) SEND_IN_FLIGHT), (Z.lor (pack 2 2) SEND_IN_FLIGHT),
    (pack 0 2).
  by vm_compute.
Qed.
