(* ===== verification/RbPark.v ===== *)
(** * Waiting on the ring buffer

    Models the waits of [crates/buffex/src/ring_buffer]: the slot of a side
    ([DemandSlot] of [state_.rs]), [Park::poll] with its check functions, and the
    polls of [WriteFuture], [ReadFuture], [PeekFuture] and of the waits of the runtime
    ([futures_.rs]).

    The machine below is one future against everybody else.  Every load of the word,
    every exchange on the slot, and the two halves of a signal (the swap of the slot,
    and the access to the waiter found in it) are steps of their own; the others
    update the word at any moment, and each update is followed, later, by its signal.
    [signal_all] signals the four slots one after the other; only the one of this
    future matters to it. *)

From S2P Require Import Prelude Demand IoPos RbState.

(** ** The checks *)

Inductive ParkCheck : Type :=
| check_tx_writable | check_rx_readable | check_rx_peekable
| check_tx_writable_at_least | check_rx_readable_at_least
| check_tx_flushed | check_rx_idle.

Definition granted {E A} (r : outcome (result E A)) : bool :=
  match r with Ret (Ok _) => true | _ => false end.

(** A check is the disjunction of one or two loads, made in this order.  (The debug
    assertion of a borrow of length 0 is not modelled: no caller makes one.) *)
Definition loads (cap : Z) (check : ParkCheck) (arg : Z) : list (Z → bool) :=
  match check with
  | check_tx_writable => [λ s, granted (try_write_at cap s (Z.max arg 1))]
  | check_rx_readable => [λ s, granted (try_read_at cap s arg); is_rx_closed]
  | check_rx_peekable => [λ s, granted (try_peek_at cap s); is_rx_closed]
  | check_tx_writable_at_least => [has_free_at_least cap (Z.max arg 1)]
  | check_rx_readable_at_least => [has_data_at_least cap (Z.max arg 1); is_rx_closed]
  | check_tx_flushed => [has_tx_data cap; is_tx_closed]
  | check_rx_idle => [has_recv_space cap; is_rx_closed]
  end.

(** ** The polls before they park

    [s1] is the word that the borrow loads, [s2] and [s3] the ones of the two queries
    that may follow; [None] goes on to [Park::poll]. *)

Definition write_poll (cap min_len max_len s1 : Z) (cancelled : bool) :
    outcome (option (result TxError (Z * Z))) :=
  r ← try_write_at cap s1 max_len;
  Ret (match r with
       | Ok (start, take) =>
           if take <? min_len then
             if cancelled then Some (Err (TxStuffed 0)) else None
           else Some (Ok (start, take))
       | Err (TxStuffed _) => if cancelled then Some (Err TxCancelled) else None
       | Err _ => Some (Err TxClosing)
       end).

Definition read_poll (cap min_len max_len s1 s2 s3 : Z) (cancelled : bool) :
    outcome (option (result RxError (Z * Z))) :=
  r ← try_read_at cap s1 max_len;
  Ret (match r with
       | Ok (start, take) =>
           if take <? min_len then
             if is_tx_closed s2 || is_rx_closed s3 then Some (Ok (start, take))
             else if cancelled then Some (Err RxCancelled) else None
           else Some (Ok (start, take))
       | Err (RxDrained _) =>
           if cancelled then Some (Err (RxDrained 0))
           else if is_tx_closed s2 || is_rx_closed s3 then Some (Err RxClosing)
           else None
       | Err _ => Some (Err RxClosing)
       end).

Definition peek_poll (cap s1 : Z) (cancelled : bool) :
    outcome (option (result RxError (Z * Z))) :=
  r ← try_peek_at cap s1;
  Ret (match r with
       | Ok (start, take) => Some (Ok (start, take))
       | Err (RxDrained _) => if cancelled then Some (Err RxCancelled) else None
       | Err _ => Some (Err RxClosing)
       end).

(** The updates of the word that a signal follows, and the silent ones. *)
Inductive signalled (cap : Z) : Z → Z → Prop :=
| upd_write n s s' : advance_write cap n s = Ret s' → signalled cap s s'
| upd_read n s s' : advance_read cap n s = Ret s' → signalled cap s s'
| upd_back_send n s s' : put_back_send cap n s = Ret s' → signalled cap s s'
| upd_back_recv n s s' : put_back_recv cap n s = Ret s' → signalled cap s s'
| upd_close_tx s : signalled cap s (close_tx s)
| upd_close_rx s : signalled cap s (close_rx s).

Inductive silent (cap : Z) : Z → Z → Prop :=
| upd_take_send s s' x : take_send_iovecs cap s = Some (s', x) → silent cap s s'
| upd_take_recv s s' x : take_recv_iovecs cap s = Some (s', x) → silent cap s s'.

(** ** The machine *)

Section park.
Context {A : Type}.

(** A future: what it does before it parks, its check with the argument, and what it
    answers when the park is ready; a [None] polls again. *)
Record future : Type := mkFuture {
  f_poll : Z → Z → Z → bool → outcome (option A);
  f_check : ParkCheck;
  f_arg : Z;
  f_ready : option A;
}.
Variables (cap : Z) (fut : future).

(** Where the future is.  [Check todo] and [Recheck todo] have the loads of the check
    still to make before and after the registration. *)
Inductive pc : Type :=
| Start
| Loaded (s1 : Z)
| Loaded2 (s1 s2 : Z)
| Check (todo : list (Z → bool))
| Register
| Recheck (todo : list (Z → bool))
| Asleep
| Finished (a : outcome A)
| Dropped.

(** The word, whether the slot holds this waiter, [Park::registered], the signals still
    to come for updates made, the signals that took the waiter out of the slot and have
    not yet touched it, whether the task was woken, and whether a signal has touched
    the waiter after it was gone. *)
Record world : Type := World {
  word : Z;
  slot : bool;
  registered : bool;
  pending : nat;
  waking : nat;
  woken : bool;
  at_ : pc;
  freed_access : bool;
}.
Implicit Types w : world.

Definition goto w p : world :=
  World (word w) (slot w) (registered w) (pending w) (waking w) (woken w) p (freed_access w).

(** [Park::deregister]: the slot is cleared if it holds this waiter. *)
Definition deregister w : world :=
  if registered w then
    World (word w) false false (pending w) (waking w) (woken w) (at_ w) (freed_access w)
  else w.

(** The park is ready: the loop polls again, or the wait answers. *)
Definition park_ready w : world :=
  goto (deregister w) (match f_ready fut with None => Start | Some a => Finished (Ret a) end).

Definition all_loads : list (Z → bool) := loads cap (f_check fut) (f_arg fut).

(** Whether the waiter is still there for a signal that holds its address. *)
Definition gone (p : pc) : bool :=
  match p with Finished _ | Dropped => true | _ => false end.

Inductive label : Type := Own | Update | Signal | Wake | Poll | Drop.

Inductive step : label → world → world → Prop :=
(** The poll, up to [Park::poll]. *)
| step_load w : at_ w = Start → step Own w (goto w (Loaded (word w)))
| step_load2 w s1 : at_ w = Loaded s1 → step Own w (goto w (Loaded2 s1 (word w)))
| step_decide w s1 s2 cancelled :
    at_ w = Loaded2 s1 s2 →
    step Own w
      (match f_poll fut s1 s2 (word w) cancelled with
       | Ret None => goto w (Check all_loads)
       | Ret (Some a) => goto (deregister w) (Finished (Ret a))
       | Panic => goto w (Finished Panic)
       end)
(** [Park::poll]. *)
| step_check w l todo :
    at_ w = Check (l :: todo) →
    step Own w (if l (word w) then park_ready w else goto w (Check todo))
| step_checked w : at_ w = Check [] → step Own w (goto w Register)
| step_register w :
    at_ w = Register →
    step Own w (World (word w) true true (pending w) (waking w) (woken w)
                  (Recheck all_loads) (freed_access w))
| step_recheck w l todo :
    at_ w = Recheck (l :: todo) →
    step Own w (if l (word w) then park_ready w else goto w (Recheck todo))
| step_sleep w : at_ w = Recheck [] → step Own w (goto w Asleep)
(** The task is polled again, after a wake or for another reason. *)
| step_poll_woken w :
    at_ w = Asleep → woken w = true →
    step Own w (World (word w) (slot w) (registered w) (pending w) (waking w) false Start
                  (freed_access w))
| step_poll_again w :
    at_ w = Asleep →
    step Poll w (World (word w) (slot w) (registered w) (pending w) (waking w) false Start
                   (freed_access w))
(** The future is dropped while it sleeps. *)
| step_drop w : at_ w = Asleep → step Drop w (goto (deregister w) Dropped)
(** The others. *)
| step_update w s' :
    signalled cap (word w) s' →
    step Update w (World s' (slot w) (registered w) (S (pending w)) (waking w) (woken w) (at_ w)
                     (freed_access w))
| step_silent w s' :
    silent cap (word w) s' →
    step Update w (World s' (slot w) (registered w) (pending w) (waking w) (woken w) (at_ w)
                     (freed_access w))
| step_signal w n :
    pending w = S n →
    step Signal w (World (word w) false (registered w) n
                     (if slot w then S (waking w) else waking w) (woken w) (at_ w)
                     (freed_access w))
| step_wake w n :
    waking w = S n →
    step Wake w (World (word w) (slot w) (registered w) (pending w) n true (at_ w)
                   (freed_access w || gone (at_ w))).

Definition any_step w w' : Prop := ∃ l, step l w w'.
Definition init_world (s : Z) : world := World s false false 0 0 false Start false.
Definition reachable (s : Z) w : Prop := rtc any_step (init_world s) w.
End park.
Arguments future : clear implicits.
Arguments world : clear implicits.
Arguments pc : clear implicits.

(** The futures. *)
Definition WriteFuture (cap min_len max_len : Z) : future (result TxError (Z * Z)) :=
  mkFuture (λ s1 _ _ c, write_poll cap min_len max_len s1 c)
    check_tx_writable_at_least min_len None.
Definition ReadFuture (cap min_len max_len : Z) : future (result RxError (Z * Z)) :=
  mkFuture (read_poll cap min_len max_len) check_rx_readable_at_least min_len None.
Definition PeekFuture (cap : Z) : future (result RxError (Z * Z)) :=
  mkFuture (λ s1 _ _ c, peek_poll cap s1 c) check_rx_peekable 0 None.
(** The waits poll the park at once. *)
Definition wait_future (check : ParkCheck) (arg : Z) : future unit :=
  mkFuture (λ _ _ _ _, Ret None) check arg (Some tt).
Definition WaitFlushedFuture : future unit := wait_future check_tx_flushed 0.
Definition WaitRxIdleFuture : future unit := wait_future check_rx_idle 0.
Definition WaitTxIdleFuture : future unit := wait_future check_tx_writable 1.

(** ** Running the machine *)

Inductive update : Type :=
| UWrite (n : Z) | URead (n : Z) | UBackSend (n : Z) | UBackRecv (n : Z)
| UCloseTx | UCloseRx.

Definition apply_update (cap : Z) (u : update) (s : Z) : outcome Z :=
  match u with
  | UWrite n => advance_write cap n s
  | URead n => advance_read cap n s
  | UBackSend n => put_back_send cap n s
  | UBackRecv n => put_back_recv cap n s
  | UCloseTx => Ret (close_tx s)
  | UCloseRx => Ret (close_rx s)
  end.

(** What happens next: the future goes on (with the answer of its token), the others
    update the word, a signal is made or delivered, the future is polled or dropped. *)
Inductive event : Type :=
| Go (cancelled : bool) | Upd (u : update) | Sig | Wk | Repoll | Cut.

Section run.
Context {A : Type} (cap : Z) (fut : future A).
#[local] Abbreviation world := (world A).
#[local] Abbreviation step := (step cap fut).

(** The future's own step, where it has one. *)
Definition own (cancelled : bool) (w : world) : option world :=
  match at_ w with
  | Start => Some (goto w (Loaded (word w)))
  | Loaded s1 => Some (goto w (Loaded2 s1 (word w)))
  | Loaded2 s1 s2 =>
      Some (match f_poll fut s1 s2 (word w) cancelled with
            | Ret None => goto w (Check (all_loads cap fut))
            | Ret (Some a) => goto (deregister w) (Finished (Ret a))
            | Panic => goto w (Finished Panic)
            end)
  | Check (l :: todo) => Some (if l (word w) then park_ready fut w else goto w (Check todo))
  | Check [] => Some (goto w Register)
  | Register =>
      Some (World (word w) true true (pending w) (waking w) (woken w)
              (Recheck (all_loads cap fut)) (freed_access w))
  | Recheck (l :: todo) => Some (if l (word w) then park_ready fut w else goto w (Recheck todo))
  | Recheck [] => Some (goto w Asleep)
  | Asleep =>
      if woken w then
        Some (World (word w) (slot w) (registered w) (pending w) (waking w) false Start
                (freed_access w))
      else None
  | Finished _ | Dropped => None
  end.

Definition run1 (e : event) (w : world) : option world :=
  match e with
  | Go cancelled => own cancelled w
  | Upd u =>
      match apply_update cap u (word w) with
      | Ret s' => Some (World s' (slot w) (registered w) (S (pending w)) (waking w) (woken w)
                          (at_ w) (freed_access w))
      | Panic => None
      end
  | Sig =>
      match pending w with
      | S n => Some (World (word w) false (registered w) n
                       (if slot w then S (waking w) else waking w) (woken w) (at_ w)
                       (freed_access w))
      | O => None
      end
  | Wk =>
      match waking w with
      | S n => Some (World (word w) (slot w) (registered w) (pending w) n true (at_ w)
                       (freed_access w || gone (at_ w)))
      | O => None
      end
  | Repoll =>
      match at_ w with
      | Asleep => Some (World (word w) (slot w) (registered w) (pending w) (waking w) false Start
                          (freed_access w))
      | _ => None
      end
  | Cut => match at_ w with Asleep => Some (goto (deregister w) Dropped) | _ => None end
  end.

Fixpoint run (es : list event) (w : world) : option world :=
  match es with
  | [] => Some w
  | e :: es => match run1 e w with Some w' => run es w' | None => None end
  end.

Lemma own_step c w w' : own c w = Some w' → step Own w w'.
Proof.
  unfold own. destruct (at_ w) as [|s1|s1 s2|[|l todo]| |[|l todo]| |a|] eqn:E;
    intros H; simplify_eq; try by constructor.
  destruct (woken w) eqn:Ew; [|done]. simplify_eq. by constructor.
Qed.

Lemma run1_step e w w' : run1 e w = Some w' → any_step cap fut w w'.
Proof.
  destruct e as [c|u| | | |]; simpl.
  - intros H. exists Own. by eapply own_step.
  - destruct (apply_update cap u (word w)) as [s'|] eqn:E; intros H; simplify_eq.
    exists Update. constructor. destruct u; simpl in E; simplify_eq; by econstructor.
  - destruct (pending w) eqn:E; intros H; simplify_eq. exists Signal. by constructor.
  - destruct (waking w) eqn:E; intros H; simplify_eq. exists Wake. by constructor.
  - destruct (at_ w) eqn:E; intros H; simplify_eq. exists Poll. by constructor.
  - destruct (at_ w) eqn:E; intros H; simplify_eq. exists Drop. by constructor.
Qed.

Lemma run_reaches es w w' : run es w = Some w' → rtc (any_step cap fut) w w'.
Proof.
  revert w. induction es as [|e es IH]; simpl; intros w; [by intros [= <-]; constructor|].
  destruct (run1 e w) as [w1|] eqn:E; [|done]. intros H.
  eapply rtc_l; [by eapply run1_step|]. by apply IH.
Qed.
End run.

(** ** The reservations wake nobody and have nobody to wake *)

(** A load that fails still fails after a reservation. *)
Definition steady (l : Z → bool) : Prop :=
  ∀ s f, f = SEND_IN_FLIGHT ∨ f = RECV_IN_FLIGHT → l s = false → l (Z.lor s f) = false.

Lemma reservation_flag f : f = SEND_IN_FLIGHT ∨ f = RECV_IN_FLIGHT → is_ring_flag f.
Proof. unfold is_ring_flag. tauto. Qed.

Lemma silent_lor cap s s' :
  silent cap s s' → ∃ f, (f = SEND_IN_FLIGHT ∨ f = RECV_IN_FLIGHT) ∧ s' = Z.lor s f.
Proof.
  destruct 1 as [s s' x H|s s' x H]; revert H;
    unfold take_send_iovecs, take_recv_iovecs; destruct (unpack s) as [rp wp];
    destruct (_ || _); intros [=]; eauto.
Qed.

Lemma steady_data cap g : steady (λ s, let '(rp, wp) := unpack s in
  g (data_ cap rp wp) && negb (has_flag s SEND_IN_FLIGHT)).
Proof.
  intros s f Hf%reservation_flag. rewrite unpack_set by done. destruct (unpack s) as [rp wp].
  rewrite ring_flag_set by (done || (unfold is_ring_flag; tauto)).
  destruct (g _), (has_flag s _); simpl; try done; intros; by destruct (bool_decide _).
Qed.

Lemma steady_free cap g : steady (λ s, let '(rp, wp) := unpack s in
  g (free_ cap rp wp) && negb (has_flag s RECV_IN_FLIGHT)).
Proof.
  intros s f Hf%reservation_flag. rewrite unpack_set by done. destruct (unpack s) as [rp wp].
  rewrite ring_flag_set by (done || (unfold is_ring_flag; tauto)).
  destruct (g _), (has_flag s _); simpl; try done; intros; by destruct (bool_decide _).
Qed.

Lemma steady_ext l l' : (∀ s, l s = l' s) → steady l → steady l'.
Proof. intros E H s f Hf. rewrite <-!E. by apply H. Qed.

Lemma steady_flag g :
  g = TX_CLOSED ∨ g = RX_CLOSED → steady (λ s, has_flag s g).
Proof.
  intros Hg s f Hf. rewrite ring_flag_set by (unfold is_ring_flag; tauto). intros ->. simpl.
  apply bool_decide_false. by destruct Hf as [-> | ->], Hg as [-> | ->].
Qed.

Lemma steady_write cap n : steady (λ s, granted (try_write_at cap s n)).
Proof.
  eapply steady_ext, (steady_free cap (λ x, negb (x =? 0) && (0 <? Z.min n x))).
  intros s. unfold try_write_at. destruct (unpack s) as [rp wp].
  destruct (free_ cap rp wp =? 0), (has_flag s RECV_IN_FLIGHT); simpl;
    rewrite ?andb_false_r, ?andb_true_r;
    try (destruct (has_flag s TX_CLOSED); done); by destruct (0 <? _).
Qed.

Lemma steady_read cap n : steady (λ s, granted (try_read_at cap s n)).
Proof.
  eapply steady_ext, (steady_data cap (λ x, negb (x =? 0) && (0 <? Z.min n x))).
  intros s. unfold try_read_at. destruct (unpack s) as [rp wp].
  destruct (data_ cap rp wp =? 0), (has_flag s SEND_IN_FLIGHT); simpl;
    rewrite ?andb_false_r, ?andb_true_r;
    try (destruct (has_flag s RX_CLOSED); done); by destruct (0 <? _).
Qed.

Lemma steady_peek cap : steady (λ s, granted (try_peek_at cap s)).
Proof.
  eapply steady_ext, (steady_data cap (λ x, negb (x =? 0) && (0 <? x))).
  intros s. unfold try_peek_at. destruct (unpack s) as [rp wp].
  destruct (data_ cap rp wp =? 0), (has_flag s SEND_IN_FLIGHT); simpl;
    rewrite ?andb_false_r, ?andb_true_r;
    try (destruct (has_flag s RX_CLOSED); done); by destruct (0 <? _).
Qed.

Lemma loads_steady cap check arg : Forall steady (loads cap check arg).
Proof.
  pose proof (steady_flag TX_CLOSED (or_introl eq_refl)).
  pose proof (steady_flag RX_CLOSED (or_intror eq_refl)).
  destruct check; repeat (apply List.Forall_cons || apply List.Forall_nil); try assumption.
  - apply steady_write.
  - apply steady_read.
  - apply steady_peek.
  - exact (steady_free cap (Z.leb _)).
  - exact (steady_data cap (Z.leb _)).
  - exact (steady_data cap (Z.ltb 0)).
  - exact (steady_free cap (Z.ltb 0)).
Qed.

Lemma steady_silent cap ls s s' :
  Forall steady ls → silent cap s s' →
  Forall (λ l, l s = false) ls → Forall (λ l, l s' = false) ls.
Proof.
  intros Hs (f & Hf & ->)%silent_lor Hl. rewrite Forall_forall in *. intros l Hin.
  by apply Hs; auto.
Qed.

(** ** No wake is lost *)

(** What the check asks of the word. *)
Definition check_holds (cap : Z) (check : ParkCheck) (arg s : Z) : bool :=
  existsb (λ l, l s) (loads cap check arg).

Section wakes.
Context {A : Type} (cap : Z) (fut : future A).
#[local] Abbreviation world := (world A).
#[local] Abbreviation step := (step cap fut).
Implicit Types w : world.

(** The loads [passed] since the registration failed: they fail on the word as it is,
    unless a signal is to come, is under way, or has arrived. *)
Record parked w (passed : list (Z → bool)) : Prop := {
  parked_waiting : slot w = true → pending w = 0%nat → Forall (λ l, l (word w) = false) passed;
  parked_signalled : slot w = false → (0 < waking w)%nat ∨ woken w = true;
}.

Definition park_inv w : Prop :=
  match at_ w with
  | Recheck todo => ∃ passed, all_loads cap fut = passed ++ todo ∧ parked w passed
  | Asleep => parked w (all_loads cap fut)
  | _ => True
  end.

Lemma parked_keep w w' :
  at_ w' = at_ w → (∀ p, Forall steady p → parked w p → parked w' p) →
  park_inv w → park_inv w'.
Proof.
  intros E H. pose proof (loads_steady cap (f_check fut) (f_arg fut)) as Hall.
  unfold park_inv. rewrite E. destruct (at_ w); auto.
  intros (p & Hp & Hk). exists p. split; [done|]. apply H; [|done].
  fold (all_loads cap fut) in Hall. rewrite Hp in Hall. by apply Forall_app in Hall as [? _].
Qed.

Lemma ready_inv w : park_inv (park_ready fut w).
Proof. unfold park_inv, park_ready. simpl. by destruct (f_ready fut). Qed.

Lemma park_inv_step l w w' : step l w w' → park_inv w → park_inv w'.
Proof.
  destruct 1 as [w E|w s1 E|w s1 s2 c E|w l todo E|w E|w E|w l todo E|w E|w E Ew|w E|w E
                |w s' Hu|w s' Hu|w n E|w n E]; intros Hw; try exact I.
  - by destruct (f_poll _ _ _ _) as [[a|]|].
  - destruct (l (word w)); [apply ready_inv|exact I].
  - exists []. split; [done|]. split; [constructor|done].
  - destruct (l (word w)) eqn:El; [apply ready_inv|].
    unfold park_inv in Hw |- *. rewrite E in Hw. destruct Hw as (p & Hp & [Hk1 Hk2]).
    exists (p ++ [l]). rewrite <-app_assoc. split; [done|]. split; [|done].
    intros Hs Hn. apply Forall_app. split; [by apply Hk1|]. by constructor.
  - unfold park_inv in Hw |- *. rewrite E in Hw. destruct Hw as (p & Hp & Hk).
    rewrite app_nil_r in Hp. rewrite <-Hp in Hk. simpl. destruct Hk. by split.
  - eapply parked_keep, Hw; [done|]. intros p _ [_ Hk]. by split.
  - eapply parked_keep, Hw; [done|]. intros p Hp [Hk1 Hk2]. split; [|done].
    intros Hs Hn. by eapply steady_silent, Hk1.
  - eapply parked_keep, Hw; [done|]. intros p _ [_ Hk]. split; [done|]. intros _.
    simpl. destruct (slot w); [left; lia|by apply Hk].
  - eapply parked_keep, Hw; [done|]. intros p _ [Hk _]. split; [done|]. by right.
Qed.

Lemma park_reachable_inv s w : reachable cap fut s w → park_inv w.
Proof.
  assert (∀ a b, rtc (any_step cap fut) a b → park_inv a → park_inv b) as Hind.
  { induction 1 as [|a b c [l Hl]]; [done|]. eauto using park_inv_step. }
  intros H. by apply (Hind _ _ H).
Qed.

(** A signal made or delivered. *)
Definition deliver w w' : Prop := step Signal w w' ∨ step Wake w w'.

(** The deliveries still to come. *)
Definition undelivered w : nat := (2 * pending w + waking w)%nat.

Lemma deliver_facts w w' :
  deliver w w' →
  word w' = word w ∧ at_ w' = at_ w ∧ (undelivered w' < undelivered w)%nat.
Proof.
  unfold undelivered.
  intros [H|H]; inversion H; subst; simpl; split_and!; auto; destruct (slot w); lia.
Qed.

Lemma deliver_some w : undelivered w ≠ 0%nat → ∃ w', deliver w w'.
Proof.
  unfold undelivered. intros H. destruct (pending w) as [|n] eqn:E.
  - destruct (waking w) as [|n] eqn:Ew; [lia|]. eexists. right. by apply (step_wake _ _ _ n).
  - eexists. left. by apply (step_signal _ _ _ n).
Qed.

Lemma check_fails w :
  Forall (λ l, l (word w) = false) (all_loads cap fut) →
  check_holds cap (f_check fut) (f_arg fut) (word w) = false.
Proof.
  unfold check_holds, all_loads. induction 1 as [|l ls Hl _ IH]; simpl; [done|].
  by rewrite Hl.
Qed.

(** C15: No wake-up is lost.  While the task sleeps on a condition that holds, it has
    been woken or a signal is on its way; the deliveries are bounded, and however they are
    interleaved with each other the task is woken at the end of them. *)
Theorem park_no_lost_wakeup s w :
  reachable cap fut s w → at_ w = Asleep →
  check_holds cap (f_check fut) (f_arg fut) (word w) = true →
  ∀ n w', nsteps deliver n w w' →
    (n ≤ undelivered w)%nat ∧ (woken w' = true ∨ ∃ w'', deliver w' w'').
Proof.
  intros Hr%park_reachable_inv Ha Hc n w' Hn. revert Hr Ha Hc.
  induction Hn as [w|n w w1 w' Hd Hn IH]; intros Hi Ha Hc.
  - split; [lia|]. destruct (decide (undelivered w = 0%nat)) as [E|E];
      [left|by right; apply deliver_some].
    unfold park_inv in Hi. rewrite Ha in Hi. destruct Hi as [Hi1 Hi2].
    unfold undelivered in E. destruct (slot w) eqn:Hs.
    + rewrite check_fails in Hc; [done|]. apply Hi1; [done|lia].
    + destruct Hi2 as [?|?]; [done|lia|done].
  - destruct (deliver_facts _ _ Hd) as (Ew & Ea & Hlt).
    destruct IH as [IH1 IH2]; [|by rewrite Ea|by rewrite Ew|split; [lia|done]].
    destruct Hd as [Hd|Hd]; by eapply park_inv_step.
Qed.
End wakes.

(** ** Runs *)

(** The poll that finds nothing, the first check of [n] loads, the registration, the
    second check, and the sleep. *)
Definition to_sleep (n : nat) : list event := repeat (Go false) (3 + (n + 1) + 1 + (n + 1)).

(** A writer on a full ring of 4 sleeps; the reader then frees a slot. *)
Definition slept_writer : world (result TxError (Z * Z)) :=
  World (pack 1 3) true true 1 0 false Asleep false.

Lemma slept_writer_reachable : reachable 4 (WriteFuture 4 1 2) (pack 0 3) slept_writer.
Proof. apply (run_reaches _ _ (to_sleep 1 ++ [Upd (URead 1)])). by vm_compute. Qed.

Lemma park_no_lost_wakeup_witness :
  check_holds 4 check_tx_writable_at_least 1 (word slept_writer) = true ∧
  ∃ w', nsteps (deliver 4 (WriteFuture 4 1 2)) 2 slept_writer w' ∧ woken w' = true.
Proof.
  split; [by vm_compute|].
  assert (∃ w', nsteps (deliver 4 (WriteFuture 4 1 2)) 2 slept_writer w' ∧ undelivered w' = 0%nat)
    as (w' & Hn & Hu).
  { exists (World (pack 1 3) false true 0 0 true Asleep false). split; [|reflexivity].
    eapply nsteps_l; [left; by apply (step_signal _ _ _ 0)|].
    eapply nsteps_l; [right; by apply (step_wake _ _ _ 0)|]. constructor. }
  exists w'. split; [exact Hn|].
  destruct (park_no_lost_wakeup 4 (WriteFuture 4 1 2) (pack 0 3) slept_writer
              slept_writer_reachable eq_refl ltac:(by vm_compute) 2 w' Hn) as [_ [?|[w'' Hd]]];
    [done|].
  apply deliver_facts in Hd as (_ & _ & Hlt). lia.
Defined.

(** Where the check does not ask about an event, the event can be missed. *)
Definition asleep_for_good {A} cap (fut : future A) (w : world A) : Prop :=
  at_ w = Asleep ∧ woken w = false ∧ undelivered w = 0%nat ∧
  check_holds cap (f_check fut) (f_arg fut) (word w) = false.

(** Only a new update, a spurious poll or the drop of the future go on from there. *)
Lemma asleep_for_good_steps {A} cap (fut : future A) (w w' : world A) l :
  asleep_for_good cap fut w → step cap fut l w w' → l = Update ∨ l = Poll ∨ l = Drop.
Proof.
  intros (Ha & Hw & Hu & _) H. unfold undelivered in Hu.
  inversion H; subst; auto; exfalso; first [congruence|lia].
Qed.

Lemma data_zero cap : 0 < cap → data_ cap 0 0 = 0.
Proof. intros H. unfold data_. rewrite Z.add_0_l, Z.sub_0_r. by apply Z_mod_same_full. Qed.

(** The reader's poll of an empty ring, the writer's close with its signal, and the
    registration after it. *)
Definition missed_close : list event :=
  repeat (Go false) 6 ++ [Upd UCloseTx; Sig] ++ repeat (Go false) 4.

(** A reader can sleep through the close of the other end: the end of the writer is
    closed and the ring is empty, [ReadFuture::poll] would answer [Closing] at once, but
    the check of its park asks only about data and about the reader's own end, so the
    re-check after the registration lets it sleep, and nobody is left to wake it. *)
Theorem reader_sleeps_through_close cap min_len max_len :
  2 ≤ cap →
  ∃ w, reachable cap (ReadFuture cap min_len max_len) 0 w ∧
    asleep_for_good cap (ReadFuture cap min_len max_len) w ∧
    (∀ c, read_poll cap min_len max_len (word w) (word w) (word w) c =
          Ret (Some (if c then Err (RxDrained 0) else Err RxClosing))).
Proof.
  intros Hc. pose proof (data_zero cap ltac:(lia)) as Hd.
  assert (Hr : ∀ s, unpack s = (0, 0) → has_flag s RX_CLOSED = false →
    try_read_at cap s max_len = Ret (Err (RxDrained 0))).
  { intros s Hu Hf. unfold try_read_at. by rewrite Hu, Hd, Hf. }
  assert (Ha : ∀ s, unpack s = (0, 0) → has_data_at_least cap (Z.max min_len 1) s = false).
  { intros s Hu. unfold has_data_at_least. rewrite Hu, Hd.
    by replace (Z.max min_len 1 <=? 0) with false by lia. }
  assert (Hp : ∀ c, read_poll cap min_len max_len 0 0 0 c =
                    Ret (if c then Some (Err (RxDrained 0)) else None)).
  { intros c. unfold read_poll. rewrite Hr by done. by destruct c. }
  exists (World TX_CLOSED true true 0 0 false Asleep false). split_and!.
  - apply (run_reaches _ _ missed_close).
    repeat (cbn -[read_poll has_data_at_least Z.max]; 
      first [rewrite Hp | rewrite Ha by done | progress change (is_rx_closed 0) with false
            | progress change (is_rx_closed (close_tx 0)) with false]).
    reflexivity.
  - split_and!; try done. unfold check_holds. cbn -[has_data_at_least Z.max]. by rewrite Ha.
  - intros c. unfold read_poll. rewrite Hr by done. by destruct c.
Qed.

Lemma reader_sleeps_through_close_witness :
  ∃ w, reachable 16 (ReadFuture 16 4 8) 0 w ∧ asleep_for_good 16 (ReadFuture 16 4 8) w.
Proof.
  destruct (reader_sleeps_through_close 16 4 8 ltac:(lia)) as (w & Hr & Hs & _).
  exists w. by split.
Defined.

(** A writer registers, is signalled, sees the free slot at the re-check and completes;
    the signal then touches the waiter it took from the slot. *)
Definition early_completion : list event :=
  repeat (Go false) 6 ++ [Upd (URead 1); Sig] ++ repeat (Go false) 4 ++ [Wk].

(** A signal can touch a waiter that is gone: [DemandSlot::signal] takes the waiter
    out of the slot and then reads its waker, while the future that owns the waiter,
    polled between the two, finds the slot cleared and completes; what awaited it drops it. *)
Theorem signal_after_completion :
  ∃ w, reachable 4 (WriteFuture 4 1 2) (pack 0 3) w ∧
    at_ w = Finished (Ret (Ok (3, 1))) ∧ freed_access w = true.
Proof.
  eexists. split; [apply (run_reaches _ _ early_completion)|]; by vm_compute.
Qed.
