(* ===== verification/RbIo.v ===== *)
(** * The halves of the ring buffer as a reader and a writer

    Models the reclaimers and the drops of the segments of the ring buffer
    ([crates/buffex/src/ring_buffer/reclaim_.rs]) and the halves [RingRx] and [RingTx]
    ([rx_.rs], [tx_.rs]) as [TrBuffRead] and [TrBuffWrite].  The state word is the one
    of [RbState.v], the polls of the futures are those of [RbPark.v], and the segments
    are those of [Segm.v].

    The reading half of a ring whose writer has closed never waits: it meets the
    contract of a reader.  The writing half waits when the ring is full; the reader at
    the other end then takes what it likes, at least one item, and its commit signals
    the writer.  Against any such reader it meets the contract of a writer.  So the
    codec and the pipe run over this ring too. *)

From S2P Require Import Prelude Demand IoPos Segm CircEnds CircCore LiveSegm BuffIo RingIo.
From S2P Require Import MpEncode Multipart RingOut RbState RbPark.

(** ** Reclaimers *)

Module Reclaim.
Record WriterReclaim : Type := mkWriter { w_cap : Z }.
Record ReaderReclaim : Type := mkReader { r_cap : Z }.
Inductive ReadReclaim : Type := Consume (r : ReaderReclaim) | Peek.

(** [TrReclaim::reclaim]: the new word, and the answer. *)
Definition reclaim_write (r : WriterReclaim) (amount word : Z) : outcome (Z * Z) :=
  word ← advance_write (w_cap r) amount word; Ret (word, 0).
Definition reclaim_read (r : ReaderReclaim) (amount word : Z) : outcome (Z * Z) :=
  word ← advance_read (r_cap r) amount word; Ret (word, 0).
End Reclaim.
Import Reclaim.

(** [ReclSliceMut] and [ReclSliceRef]: a two-piece segment with its reclaimer.  A segment is
    made with its reclaimer, and the drop takes it; what is in between is the segment of
    [Segm.v]. *)
Module RingSliceMut.
Record t : Type := mk { segm_ : Recl.t; reclaim_ : option WriterReclaim }.
Definition new (pieces : Recl.SegmSlices) (reclaim : WriterReclaim) : t :=
  mk (Recl.new pieces) (Some reclaim).
Definition least_count (s : t) : Z := Recl.least_count (segm_ s).
Definition is_empty (s : t) : bool := least_count s =? 0.
Definition capacity (s : t) : Z := Recl.capacity (segm_ s).
Definition iter_slices_mut (s : t) : outcome (list slice) := Recl.iter_slices (segm_ s).
Definition as_segm_mut (s : t) : outcome Segm.t := Recl.as_segm (segm_ s).
Definition take_segm_mut (s : t) (demand : Demand) : outcome (option Segm.t) :=
  Recl.take_segm (segm_ s) demand.
Definition move_items_from_buff {T} (mem : gmap Z T) (s : t) (src : list T) :
    option (outcome (gmap Z T * t)) :=
  match Recl.move_items_from_buff 2 mem (segm_ s) src with
  | Some (Ret (mem, segm, _)) => Some (Ret (mem, mk segm (reclaim_ s)))
  | Some Panic => Some Panic
  | None => None
  end.
Definition drop (s : t) (word : Z) : outcome Z :=
  match reclaim_ s with
  | None => Ret word
  | Some r => '(word, _) ← reclaim_write r (Recl.offset_ (segm_ s)) word; Ret word
  end.
End RingSliceMut.

Module RingSliceRef.
Record t : Type := mk { segm_ : Recl.t; reclaim_ : option ReadReclaim }.
Definition new (pieces : Recl.SegmSlices) (reclaim : ReadReclaim) : t :=
  mk (Recl.new pieces) (Some reclaim).
Definition least_count (s : t) : Z := Recl.least_count (segm_ s).
Definition is_empty (s : t) : bool := least_count s =? 0.
Definition capacity (s : t) : Z := Recl.capacity (segm_ s).
Definition iter_slices (s : t) : outcome (list slice) := Recl.iter_slices (segm_ s).
Definition as_segm_ref (s : t) : outcome Segm.t := Recl.as_segm (segm_ s).
Definition take_segm_ref (s : t) (demand : Demand) : outcome (option Segm.t) :=
  Recl.take_segm (segm_ s) demand.
Definition move_items_to_buff {T} (mem : gmap Z T) (s : t) (size : Z) :
    option (outcome (option (list T * t))) :=
  match Recl.move_items_to_buff 2 mem (segm_ s) size with
  | Some (Ret (Some (xs, segm))) => Some (Ret (Some (xs, mk segm (reclaim_ s))))
  | Some (Ret None) => Some (Ret None)
  | Some Panic => Some Panic
  | None => None
  end.
Definition drop (s : t) (word : Z) : outcome Z :=
  match reclaim_ s with
  | None => Ret word
  | Some (Consume r) => '(word, _) ← reclaim_read r (Recl.offset_ (segm_ s)) word; Ret word
  | Some Peek => Ret word
  end.
End RingSliceRef.

(** ** The halves *)

(** [RingBuffer]: the buffer and the word. *)
Record RingBuffer : Type := mkRing { cap_ : Z; buf_ : gmap Z Z; word_ : Z }.
Definition with_word (r : RingBuffer) (s : Z) : RingBuffer := mkRing (cap_ r) (buf_ r) s.

Definition rb_write_segm (r : RingBuffer) (start take : Z) : outcome RingSliceMut.t :=
  (λ p, RingSliceMut.new p (mkWriter (cap_ r))) <$> write_pieces (cap_ r) start take.
Definition rb_read_segm (r : RingBuffer) (start take : Z) : RingSliceRef.t :=
  RingSliceRef.new (read_pieces (cap_ r) start take) (Consume (mkReader (cap_ r))).
Definition rb_peek_segm (r : RingBuffer) (start take : Z) : RingSliceRef.t :=
  RingSliceRef.new (read_pieces (cap_ r) start take) Peek.

(** [RingRx::read_async] with the first poll of its future, all of whose loads see the
    same word; it awaits nothing when it answers. *)
Definition rx_read_async (r : RingBuffer) (d : Demand) :
    RingBuffer * reply (list (list Z)) RxError :=
  let s := word_ r in
  match read_poll (cap_ r) (min_len d) (max_len d) s s s false with
  | Ret (Some (Ok (start, take))) =>
      (r, (Some (lent_pieces (buf_ r) (RingSliceRef.segm_ (rb_read_segm r start take))), None))
  | Ret (Some (Err e)) => (r, (None, Some e))
  | _ => (r, (None, None))
  end.

(** The drop of a read segment of which [n] items were consumed. *)
Definition rx_drop_ref (r : RingBuffer) (n : Z) : RingBuffer :=
  match reclaim_read (mkReader (cap_ r)) n (word_ r) with
  | Ret (s, _) => with_word r s
  | Panic => r
  end.

#[export] Instance rb_rx_tagged : TrTaggedError RxError ReadErrTag :=
  {| err_tag := rx_err_tag |}.
#[export] Instance rb_reader : TrBuffRead RingBuffer RxError :=
  {| BuffIo.is_drained_closing r := RbState.is_drained_closing (cap_ r) (word_ r);
     read_async := rx_read_async;
     drop_ref := rx_drop_ref |}.

(** One read by the other end: [RingRx::try_read_at_most], everything it lent moved out,
    and the drop.  [None]: nothing was lent. *)
Definition rx_take (length : Z) (r : RingBuffer) : option (RingBuffer * list Z) :=
  match try_read_at (cap_ r) (word_ r) length with
  | Ret (Ok (start, take)) =>
      let segm := rb_read_segm r start take in
      match RingSliceRef.move_items_to_buff (buf_ r) segm take with
      | Some (Ret (Some (xs, segm))) =>
          match RingSliceRef.drop segm (word_ r) with
          | Ret w => Some (with_word r w, xs)
          | Panic => None
          end
      | _ => None
      end
  | _ => None
  end.

(** The writing half, with what the other end has taken so far and the segment that is
    lent, if any. *)
Record RingTx : Type := mkTx { ring_ : RingBuffer; taken_ : list Z; lent_ : option RingSliceMut.t }.

Section tx.
(** How much the other end takes when it reads, of what is there. *)
Variable choose : Z → Z.

(** [RingTx::write_async], awaited: a poll that does not answer parks, the other end
    reads, and its commit signals the writer. *)
Fixpoint tx_write_loop (fuel : nat) (w : RingTx) (d : Demand) :
    option (RingTx * reply (list Z) TxError) :=
  let r := ring_ w in
  match write_poll (cap_ r) (min_len d) (max_len d) (word_ r) false with
  | Ret (Some (Ok (start, take))) =>
      match rb_write_segm r start take with
      | Ret s => Some (mkTx r (taken_ w) (Some s), (Some (lent_room (RingSliceMut.segm_ s)), None))
      | Panic => None
      end
  | Ret (Some (Err e)) => Some (mkTx r (taken_ w) None, (None, Some e))
  | Ret None =>
      match fuel with
      | O => None
      | S fuel =>
          '(r, xs) ← rx_take (choose (data_size (cap_ r) (word_ r))) r;
          tx_write_loop fuel (mkTx r (taken_ w ++ xs) (lent_ w)) d
      end
  | Panic => None
  end.
Definition tx_write_async (w : RingTx) (d : Demand) : RingTx * reply (list Z) TxError :=
  default (w, (None, None)) (tx_write_loop (Z.to_nat (cap_ (ring_ w))) w d).

(** The items are moved into the segment, and the segment is dropped. *)
Definition tx_drop_mut (w : RingTx) (bs : list Z) : RingTx :=
  let r := ring_ w in
  match lent_ w with
  | None => w
  | Some s =>
      match RingSliceMut.move_items_from_buff (buf_ r) s bs with
      | Some (Ret (mem, s)) =>
          match RingSliceMut.drop s (word_ r) with
          | Ret word => mkTx (mkRing (cap_ r) mem word) (taken_ w) None
          | Panic => w
          end
      | _ => w
      end
  end.

#[export] Instance rb_writer : TrBuffWrite RingTx TxError :=
  {| BuffIo.is_stuffed_closing w :=
       match is_blocked_closing (cap_ (ring_ w)) (word_ (ring_ w)) with Ret b => b | Panic => false end;
     write_async := tx_write_async;
     drop_mut := tx_drop_mut |}.
End tx.

(** [RingTx::close]: the half hands the ring to its reader. *)
Definition tx_close (w : RingTx) : RingBuffer :=
  with_word (ring_ w) (close_tx (word_ (ring_ w))).

(** ** What the ring holds *)

(** Items [R] and on of [log] are in the ring, and no side is with the runtime. *)
Record rb_holds (r : RingBuffer) (R : Z) (log : list Z) : Prop := {
  holds_cap : 2 ≤ cap_ r ≤ MAX_CAPACITY;
  holds_ring : ring_at (cap_ r) R (len log) (word_ r);
  holds_content : content (cap_ r) (buf_ r) R log;
  holds_send : has_flag (word_ r) SEND_IN_FLIGHT = false;
  holds_recv : has_flag (word_ r) RECV_IN_FLIGHT = false;
}.

Definition rb_items (r : RingBuffer) : list Z :=
  let '(rp, wp) := unpack (word_ r) in
  concat (lent_pieces (buf_ r)
    (RingSliceRef.segm_ (rb_read_segm r rp (data_ (cap_ r) rp wp)))).

Lemma flags_are_flags :
  is_ring_flag TX_CLOSED ∧ is_ring_flag RX_CLOSED ∧
  is_ring_flag SEND_IN_FLIGHT ∧ is_ring_flag RECV_IN_FLIGHT.
Proof. unfold is_ring_flag. auto 10. Qed.

(** A region of the ring to read, and its items. *)
Lemma rb_region r R log n :
  rb_holds r R log → 0 ≤ n ≤ len log - R →
  let p := read_pieces (cap_ r) (R mod cap_ r) n in
  let xs := take (Z.to_nat n) (drop (Z.to_nat R) log) in
  ring_region (cap_ r) (R mod cap_ r) n p ∧ len xs = n ∧ holds (buf_ r) p 0 xs.
Proof.
  intros [Hcap Hr Hc _ _] Hn p xs. pose proof (at_counts _ _ _ _ Hr).
  pose proof (Z.mod_pos_bound R (cap_ r) ltac:(lia)).
  assert (Hreg : ring_region (cap_ r) (R mod cap_ r) n p)
    by (apply read_pieces_region; lia).
  assert (Hx : len xs = n) by (unfold xs; rewrite len_take; [done|rewrite len_drop; lia]).
  split; [done|]. split; [done|]. intros k Hk. fold (len xs) in Hk. rewrite Hx in Hk.
  destruct Hreg as (_ & _ & Hidx). rewrite Z.add_0_l, Hidx by done.
  rewrite Zplus_mod_idemp_l, Hc by (fold (len log); lia).
  unfold xs. rewrite lookup_take_lt, lookup_drop by lia. f_equal. lia.
Qed.

Lemma rb_lent r R log n :
  rb_holds r R log → 0 ≤ n ≤ len log - R →
  let ps := lent_pieces (buf_ r) (RingSliceRef.segm_ (rb_read_segm r (R mod cap_ r) n)) in
  concat ps = take (Z.to_nat n) (drop (Z.to_nat R) log) ∧ Forall (.≠ []) ps.
Proof.
  intros Hh Hn ps. destruct (rb_region r R log n Hh Hn) as ((Hok & Hl & _) & Hx & Hp).
  by apply lent_pieces_holds; [done|rewrite Hx, Hl|done].
Qed.

Lemma rb_items_eq r R log : rb_holds r R log → rb_items r = drop (Z.to_nat R) log.
Proof.
  intros Hh. pose proof Hh as [Hcap Hr _ _ _]. pose proof (at_counts _ _ _ _ Hr).
  unfold rb_items. rewrite (at_pos _ _ _ _ Hr), data_at by (done || lia).
  destruct (rb_lent r R log (len log - R) Hh) as [-> _]; [lia|].
  apply take_ge. rewrite length_drop. unfold len. lia.
Qed.

Lemma rb_items_len r R log : rb_holds r R log → len (rb_items r) = len log - R.
Proof.
  intros Hh. rewrite (rb_items_eq _ _ _ Hh). pose proof (at_counts _ _ _ _ (holds_ring _ _ _ Hh)).
  apply len_drop. lia.
Qed.

(** The commit of a read moves the reader, and nothing else. *)
Lemma rb_advance_read r R log n :
  rb_holds r R log → 0 ≤ n ≤ len log - R →
  ∃ s, advance_read (cap_ r) n (word_ r) = Ret s ∧ rb_holds (with_word r s) (R + n) log ∧
    ∀ f, is_ring_flag f → has_flag s f = has_flag (word_ r) f.
Proof.
  intros [Hcap Hr Hc Hs Hv] Hn. pose proof (at_counts _ _ _ _ Hr).
  destruct flags_are_flags as (_ & _ & F3 & F4).
  destruct (advance_read_at _ Hcap R (len log) (word_ r) n Hr Hn) as (s & E & Hr' & Hf).
  exists s. split; [done|]. split; [|done].
  constructor; simpl; try done; try by rewrite Hf. intros i Hi. apply Hc. lia.
Qed.

(** ** The reading half of a ring whose writer has closed *)

Definition rx_ok (r : RingBuffer) : Prop :=
  (∃ R log, rb_holds r R log) ∧ is_tx_closed (word_ r) = true.

Lemma rx_read_eq r d :
  rx_ok r → askable d →
  let n := Z.min (max_len d) (len (rb_items r)) in
  (rb_items r = [] ∧ rx_read_async r d = (r, (None, Some RxClosing))) ∨
  (rb_items r ≠ [] ∧ 0 < n ∧ ∃ pieces,
     rx_read_async r d = (r, (Some pieces, None)) ∧ Forall (.≠ []) pieces ∧
     concat pieces = take (Z.to_nat n) (rb_items r)).
Proof.
  intros [(R & log & Hh) Hc] [_ Hm] n. pose proof Hh as [Hcap Hr _ Hs _].
  pose proof (rb_items_len _ _ _ Hh) as Hl. pose proof (rb_items_eq _ _ _ Hh) as Hi.
  unfold rx_read_async, read_poll.
  rewrite (try_read_at_at _ Hcap _ _ _ (max_len d) Hr), Hs, Hc, orb_false_r, <- Hl.
  fold n. destruct (Z.eqb_spec (len (rb_items r)) 0) as [H0|H0].
  { left. split; [apply len_0; lia|]. by destruct (has_flag (word_ r) RX_CLOSED). }
  right. pose proof (len_nonneg (rb_items r)). assert (0 < n) by lia.
  split; [by intros E; rewrite E in H0|]. split; [done|].
  rewrite (proj2 (Z.ltb_lt 0 n)) by done. destruct (rb_lent r R log n Hh) as [E Hne]; [lia|].
  eexists. split; [|by rewrite Hi]. cbn [mbind outcome_bind].
  destruct (n <? min_len d); reflexivity.
Qed.

Lemma rx_drop_ok r n :
  rx_ok r → 0 ≤ n ≤ len (rb_items r) →
  rx_ok (rx_drop_ref r n) ∧ rb_items (rx_drop_ref r n) = drop (Z.to_nat n) (rb_items r).
Proof.
  intros [(R & log & Hh) Hc] Hn. rewrite (rb_items_len _ _ _ Hh) in Hn.
  pose proof (at_counts _ _ _ _ (holds_ring _ _ _ Hh)).
  destruct (rb_advance_read r R log n Hh Hn) as (s & E & Hh' & Hf).
  unfold rx_drop_ref, reclaim_read. simpl. rewrite E. simpl. split.
  - split; [by eexists _, _|]. etrans; [apply Hf, flags_are_flags|done].
  - rewrite (rb_items_eq _ _ _ Hh'), (rb_items_eq _ _ _ Hh), drop_drop. f_equal. lia.
Qed.

#[export] Instance rb_lawful_reader : LawfulReader RingBuffer RxError rx_ok rb_items.
Proof.
  constructor; intros r d; [..|intros pieces|intros pieces n]; intros Hok Hd;
    cbn [read_async drop_ref rb_reader];
    destruct (rx_read_eq r d Hok Hd) as [(H0 & ->)|(Hne & Hn & ps & -> & Hps & Hc)]; try done.
  - intros [= <-]. split; [|split; [|done]].
    + rewrite Hc. eexists. symmetry. apply take_drop.
    + intros ->. symmetry in Hc. apply take_max_nonempty in Hc; [done|done|lia].
  - intros [= <-] Hn'. apply rx_drop_ok; [done|].
    unfold ref_count in Hn'. rewrite Hc, len_take in Hn' by lia. lia.
Qed.

#[export] Instance rb_eof_reader : EofReader RingBuffer RxError rx_ok rb_items.
Proof.
  constructor; intros r d e Hok Hd. cbn [read_async rb_reader].
  destruct (rx_read_eq r d Hok Hd) as [(H0 & ->)|(_ & _ & ps & -> & _)]; [|done].
  intros [= <-] _. rewrite H0. split; [done|]. unfold len. simpl. lia.
Qed.

#[export] Instance rb_bounded_reader : BoundedReader RingBuffer RxError rx_ok rb_items.
Proof.
  constructor. intros r d pieces Hok Hd. cbn [read_async rb_reader].
  destruct (rx_read_eq r d Hok Hd) as [(_ & ->)|(_ & Hn & ps & -> & _ & Hc)]; [done|].
  intros [= <-]. unfold ref_count. rewrite Hc, len_take by lia.
  destruct Hd as [Hwf _]. pose proof (min_max_len d Hwf). lia.
Qed.

#[export] Instance rb_live_reader : LiveReader RingBuffer RxError rx_ok.
Proof.
  constructor. intros r d Hok Hd. cbn [read_async rb_reader].
  by destruct (rx_read_eq r d Hok Hd) as [(_ & ->)|(_ & _ & ps & -> & _)].
Qed.

(** ** The writing half *)

Lemma rx_take_run r R log k :
  rb_holds r R log → 0 < k ≤ len log - R →
  ∃ s, rx_take k r = Some (with_word r s, take (Z.to_nat k) (drop (Z.to_nat R) log)) ∧
    rb_holds (with_word r s) (R + k) log ∧
    ∀ f, is_ring_flag f → has_flag s f = has_flag (word_ r) f.
Proof.
  intros Hh Hk. pose proof Hh as [Hcap Hr _ Hs _]. pose proof (at_counts _ _ _ _ Hr).
  destruct (rb_region r R log k Hh) as ((Hok & Hl & _) & Hx & Hp); [lia|].
  destruct (rb_advance_read r R log k Hh) as (s & E & Hh' & Hf); [lia|].
  exists s. split; [|done]. unfold rx_take.
  rewrite (try_read_at_at _ Hcap _ _ _ k Hr), Hs, orb_false_r, Z.min_l by lia.
  rewrite (proj2 (Z.eqb_neq _ _)), (proj2 (Z.ltb_lt 0 k)) by lia.
  unfold rb_read_segm, RingSliceRef.new, RingSliceRef.move_items_to_buff.
  cbn [RingSliceRef.segm_].
  set (p := read_pieces _ _ _) in *.
  rewrite (move_to_buff_loop 2 (buf_ r) (Recl.new p) k (take (Z.to_nat k) (drop (Z.to_nat R) log)));
    [|by split; [|simpl; lia]|apply pieces_left_bound|lia|..].
  - unfold Recl.least_count, advance. cbn [Recl.pieces Recl.offset_ Recl.new].
    rewrite Hl, Z.sub_0_r, Z.min_id, Z.add_0_l. unfold RingSliceRef.drop, reclaim_read.
    cbn [RingSliceRef.segm_ RingSliceRef.reclaim_ Recl.offset_ r_cap]. by rewrite E.
  - unfold Recl.least_count. cbn [Recl.pieces Recl.offset_ Recl.new]. fold (len (take (Z.to_nat k) (drop (Z.to_nat R) log))). lia.
  - exact Hp.
Qed.

Section tx_laws.
Variable choose : Z → Z.
Hypothesis Hchoose : chooses choose.

(** What was written: what the other end took, then what the ring holds. *)
Definition tx_written (w : RingTx) : list Z := taken_ w ++ rb_items (ring_ w).

(** The writing half of a ring of more than [grain] slots, not closed. *)
Record tx_ok (grain : Z) (w : RingTx) : Prop := {
  tx_holds : ∃ R log, rb_holds (ring_ w) R log;
  tx_open : is_tx_closed (word_ (ring_ w)) = false;
  tx_grain : grain ≤ cap_ (ring_ w) - 1;
}.

Lemma tx_moved grain w w' R log :
  tx_ok grain w → rb_holds (ring_ w') R log → cap_ (ring_ w') = cap_ (ring_ w) →
  has_flag (word_ (ring_ w')) TX_CLOSED = has_flag (word_ (ring_ w)) TX_CLOSED →
  tx_ok grain w'.
Proof.
  intros [_ Ho Hg] Hh Hc Hf. split; [by eexists _, _|by rewrite <- Ho|by rewrite Hc].
Qed.

(** A poll of the write, by the counters. *)
Lemma write_poll_eq r R log d :
  rb_holds r R log → is_tx_closed (word_ r) = false → askable d →
  let free := cap_ r - 1 - (len log - R) in
  write_poll (cap_ r) (min_len d) (max_len d) (word_ r) false =
    Ret (if Z.min (max_len d) free <? Z.max 1 (min_len d) then None
         else Some (Ok (len log mod cap_ r, Z.min (max_len d) free))).
Proof.
  intros [Hcap Hr _ _ Hv] Ho [Hd Hm] free. pose proof (at_counts _ _ _ _ Hr).
  unfold is_tx_closed in Ho. unfold write_poll.
  rewrite (try_write_at_at _ Hcap _ _ _ (max_len d) Hr), Hv, Ho, orb_false_r. fold free.
  destruct (Z.eqb_spec free 0) as [H0|H0].
  - cbn [mbind outcome_bind]. by rewrite (proj2 (Z.ltb_lt _ _)) by lia.
  - rewrite (proj2 (Z.ltb_lt 0 _)) by lia. cbn [mbind outcome_bind]. f_equal.
    destruct (Z.ltb_spec (Z.min (max_len d) free) (min_len d));
      destruct (Z.ltb_spec (Z.min (max_len d) free) (Z.max 1 (min_len d))); lia || done.
Qed.

(** The write is granted, however little the other end takes at a time. *)
Lemma tx_write_loop_run grain d fuel : ∀ w R log,
  tx_ok grain w → rb_holds (ring_ w) R log → grantable grain d →
  len log - R ≤ Z.of_nat fuel →
  ∃ r R' taken p n,
    let s := RingSliceMut.new p (mkWriter (cap_ r)) in
    tx_write_loop choose fuel w d =
      Some (mkTx r taken (Some s), (Some (lent_room (Recl.new p)), None)) ∧
    tx_ok grain (mkTx r taken (Some s)) ∧ rb_holds r R' log ∧
    taken ++ rb_items r = tx_written w ∧
    ring_region (cap_ r) (len log mod cap_ r) n p ∧
    0 < n ∧ min_len d ≤ n ≤ cap_ r - 1 - (len log - R').
Proof using Hchoose.
  induction fuel as [|fuel IH]; intros w R log Hw Hh Hd Hf;
    pose proof (tx_open _ _ Hw) as Ho; pose proof (tx_grain _ _ Hw) as Hg;
    pose proof (at_counts _ _ _ _ (holds_ring _ _ _ Hh)) as [??];
    pose proof (holds_cap _ _ _ Hh) as Hcap; pose proof Hd as [[Hwf Hm] Hmin];
    pose proof (min_max_len d Hwf);
    cbn [tx_write_loop]; rewrite (write_poll_eq _ R log d Hh Ho (proj1 Hd)).
  1: rewrite (proj2 (Z.ltb_ge _ _)) by lia.
  2: destruct (Z.ltb_spec (Z.min (max_len d) (cap_ (ring_ w) - 1 - (len log - R)))
       (Z.max 1 (min_len d))) as [Hwait|Hgo].
  2: { destruct (Hchoose (len log - R)) as [Hk1 Hk2]; [lia|].
       destruct (sizes_at _ Hcap _ _ _ (holds_ring _ _ _ Hh)) as [-> _].
       destruct (rx_take_run (ring_ w) R log _ Hh (conj Hk1 Hk2)) as (s & -> & Hh' & Hfl).
       set (k := choose (len log - R)) in *. cbn [mbind option_bind].
       assert (Hw' : tx_ok grain (mkTx (with_word (ring_ w) s)
           (taken_ w ++ take (Z.to_nat k) (drop (Z.to_nat R) log)) (lent_ w)))
         by (eapply tx_moved; [done|exact Hh'|done|apply Hfl, flags_are_flags]).
       destruct (IH _ (R + k) log Hw' Hh' Hd) as (r & R' & taken & p & n & -> & Ha & Hb & Hx & Hc);
         [lia|].
       exists r, R', taken, p, n. split; [done|]. split; [done|]. split; [done|]. split; [|done].
       rewrite Hx. unfold tx_written. simpl. rewrite <- app_assoc. f_equal.
       rewrite (rb_items_eq _ _ _ Hh), (rb_items_eq _ _ _ Hh').
       replace (Z.to_nat (R + k)) with (Z.to_nat R + Z.to_nat k)%nat by lia.
       by rewrite <- drop_drop, take_drop. }
  all: set (n := Z.min _ _) in *;
    pose proof (Z.mod_pos_bound (len log) (cap_ (ring_ w)) ltac:(lia));
    destruct (write_pieces_region (cap_ (ring_ w)) (len log mod cap_ (ring_ w)) n)
      as (p & Hp & Hreg); [lia|lia|];
    unfold rb_write_segm; rewrite Hp; exists (ring_ w), R, (taken_ w), p, n;
    split; [done|]; split; [by destruct Hw|]; split; [done|]; split; [done|]; split; [done|]; lia.
Qed.

(** The drop of what was lent. *)
Lemma tx_drop_run grain r R log taken p n bs :
  let w := mkTx r taken (Some (RingSliceMut.new p (mkWriter (cap_ r)))) in
  tx_ok grain w → rb_holds r R log → ring_region (cap_ r) (len log mod cap_ r) n p →
  n ≤ cap_ r - 1 - (len log - R) → len bs ≤ n →
  tx_ok grain (tx_drop_mut w bs) ∧ tx_written (tx_drop_mut w bs) = tx_written w ++ bs.
Proof.
  intros w Hw Hh Hreg Hn Hbs. pose proof Hh as [Hcap Hr Hc Hs Hv].
  pose proof (at_counts _ _ _ _ Hr) as [??]. pose proof (len_nonneg bs) as Hb0.
  destruct flags_are_flags as (F1 & _ & F3 & F4).
  pose proof Hreg as (Hok & Hl & _). assert (Hcpos : 0 < cap_ r) by lia.
  assert (Hlive : live_segm (cap_ r) (len log) (cap_ r - 1 - (len log - R)) 0 (Recl.new p))
    by (apply (live_segm_new _ _ _ n); [done|lia]).
  assert (Hinj : index_inj p) by (eapply ring_region_inj; [done| |done]; lia).
  assert (Hwf : Recl.wf (Recl.new p)) by (split; [done|simpl; lia]).
  destruct (move_from_buff_loop 2 (buf_ r) (Recl.new p) bs Hwf Hinj (pieces_left_bound _))
    as (mem & Hmv & _).
  assert (Hlc : Recl.least_count (Recl.new p) = n)
    by (unfold Recl.least_count; simpl; lia).
  rewrite Hlc in Hmv. fold (len bs) in Hmv. rewrite (Z.min_r n) in Hmv by lia.
  assert (Hc0 : content (cap_ r) (buf_ r) R (log ++ [])) by by rewrite app_nil_r.
  destruct (live_put (cap_ r) Hcpos (buf_ r) (Recl.new p) R log [] (cap_ r - 1 - (len log - R)) bs _ _ _
    ltac:(unfold len in *; lia) ltac:(unfold len in *; lia) Hlive Hc0 Hmv) as [_ Hct].
  rewrite app_nil_l, take_ge in Hct by (unfold len; lia).
  destruct (advance_write_at _ Hcap R (len log) (word_ r) (len bs) Hr) as (s & E & Hr' & Hf); [lia|].
  unfold tx_drop_mut, w, RingSliceMut.move_items_from_buff.
  cbn [lent_ ring_ RingSliceMut.segm_ RingSliceMut.new]. rewrite Hmv.
  unfold RingSliceMut.drop, reclaim_write, advance.
  cbn [RingSliceMut.new RingSliceMut.segm_ RingSliceMut.reclaim_ Recl.offset_ Recl.new w_cap].
  rewrite Z.add_0_l, E. cbn [mbind outcome_bind].
  assert (Hh' : rb_holds (mkRing (cap_ r) mem s) R (log ++ bs)).
  { constructor; simpl; rewrite ?len_app; try done; by rewrite Hf. }
  split; [eapply tx_moved; [exact Hw|exact Hh'|done|by apply Hf]|].
  unfold tx_written. simpl. rewrite (rb_items_eq _ _ _ Hh'), (rb_items_eq _ _ _ Hh).
  rewrite drop_app_le by (unfold len in *; lia). apply app_assoc.
Qed.

Section grain.
Variable grain : Z.

Lemma tx_write_run w d :
  tx_ok grain w → grantable grain d →
  ∃ r R log taken p n,
    let w' := mkTx r taken (Some (RingSliceMut.new p (mkWriter (cap_ r)))) in
    tx_write_async choose w d = (w', (Some (lent_room (Recl.new p)), None)) ∧
    tx_ok grain w' ∧ rb_holds r R log ∧ tx_written w' = tx_written w ∧
    ring_region (cap_ r) (len log mod cap_ r) n p ∧
    0 < n ∧ min_len d ≤ n ≤ cap_ r - 1 - (len log - R).
Proof using Hchoose.
  intros Hw Hd. destruct (tx_holds _ _ Hw) as (R & log & Hh).
  pose proof (at_counts _ _ _ _ (holds_ring _ _ _ Hh)). pose proof (holds_cap _ _ _ Hh).
  destruct (tx_write_loop_run grain d (Z.to_nat (cap_ (ring_ w))) w R log Hw Hh Hd)
    as (r & R' & taken & p & n & Hrun & H'); [lia|].
  exists r, R', log, taken, p, n. unfold tx_write_async. by rewrite Hrun.
Qed.

#[export] Instance rb_lawful_writer :
  @LawfulWriter RingTx TxError (rb_writer choose) (tx_ok grain) tx_written grain.
Proof using Hchoose.
  constructor; intros w d; [..|intros room|intros room bs]; intros Hok Hd;
    destruct (tx_write_run w d Hok Hd)
      as (r & R & log & taken & p & n & Hrun & Hok' & Hh & Hw & Hreg & Hn & Hmin & Hmax);
    cbn [write_async drop_mut rb_writer]; rewrite Hrun; try done;
    pose proof Hreg as (Hso & Hlen & _); destruct (lent_room_new p Hso) as (H1 & H2 & Hmc); try lia.
  - intros [= <-]. rewrite Hmc. split; [done|]. split; [done|]. lia.
  - intros [= <-] Hbs. rewrite Hmc, Hlen in Hbs.
    destruct (tx_drop_run grain r R log taken p n bs Hok' Hh Hreg Hmax Hbs) as [Hok2 Hw2].
    split; [exact Hok2|]. simpl. rewrite <- Hw. exact Hw2.
Qed.

(** A write waits for the other end, so there is always room. *)
#[export] Instance rb_live_writer :
  @LiveWriter RingTx TxError (rb_writer choose) (tx_ok grain) (λ _ _, True) grain.
Proof using Hchoose.
  constructor; [|done]. intros w d n Hok Hd _ _.
  destruct (tx_write_run w d Hok Hd) as (r & R & log & taken & p & m & Hrun & _).
  cbn [write_async rb_writer]. rewrite Hrun. by eexists.
Qed.
End grain.
End tx_laws.

(** ** Properties *)

(** A client that drains a live reader gets its stream, then the end of it. *)
Lemma drain_all {R E} `{HR : TrBuffRead R E} `{HE : TrTaggedError E ReadErrTag}
    (ok : R → Prop) (stream : R → list Z)
    `{!LawfulReader R E ok stream, !EofReader R E ok stream, !LiveReader R E ok} choose fuel : ∀ r,
  chooses choose → ok r → len (stream r) < Z.of_nat fuel →
  ∃ r' e, drain choose fuel r = Some (r', stream r, Some e) ∧ is_read_eof_ e = true.
Proof.
  induction fuel as [|fuel IH]; intros r Hch Hok Hf;
    [pose proof (len_nonneg (stream r)); lia|].
  assert (Hd : askable (at_least 1)) by by vm_compute.
  pose proof (read_live r (at_least 1) Hok Hd) as Hlive.
  pose proof (read_lends r (at_least 1)) as Hlend. pose proof (read_eof r (at_least 1)) as Heof.
  pose proof (drop_lent r (at_least 1)) as Hdrop. cbn [drain].
  destruct (read_async r (at_least 1)) as [r1 [[pieces|] [e|]]]; try done; simpl in *.
  - destruct (Hlend pieces Hok Hd eq_refl) as (Hpre & Hne & Hall).
    assert (Hcount : 0 < ref_count pieces).
    { destruct Hall as [|p ps Hp _]; [done|]. unfold ref_count. simpl. rewrite len_app.
      pose proof (len_pos p Hp). pose proof (len_nonneg (concat ps)). lia. }
    destruct (Hch _ Hcount) as [Hn1 Hn2]. set (n := choose (ref_count pieces)) in *.
    pose proof (len_prefix _ _ Hpre) as Hle. fold (ref_count pieces) in Hle.
    destruct (Hdrop pieces n Hok Hd eq_refl) as [Hok' Hs]; [lia|].
    destruct (IH (drop_ref r1 n) Hch Hok') as (r' & e & -> & He);
      [rewrite Hs, len_drop by lia; lia|].
    exists r', e. split; [|done]. cbn [mbind option_bind].
    rewrite Hs, (take_prefix_eq _ _ n Hpre) by (unfold ref_count in *; lia). by rewrite take_drop.
  - destruct (Heof e Hok Hd eq_refl Hlive) as [_ Hs].
    rewrite (len_0 (stream r)) by (unfold min_len in Hs; simpl in Hs; lia). by exists r1, e.
Qed.

(** The closing hands the reader what is left. *)
Lemma tx_close_ok grain w :
  tx_ok grain w → rx_ok (tx_close w) ∧ rb_items (tx_close w) = rb_items (ring_ w).
Proof.
  intros [(R & log & Hh) _ _]. pose proof Hh as [Hcap Hr Hc Hs Hv].
  destruct flags_are_flags as (F1 & _ & F3 & F4).
  assert (Hh' : rb_holds (tx_close w) R log).
  { constructor; simpl; try done; unfold close_tx, set_flag_; [by apply set_flag_at|..];
      by rewrite ring_flag_set, bool_decide_false, orb_false_r. }
  split; [|by rewrite (rb_items_eq _ _ _ Hh), (rb_items_eq _ _ _ Hh')].
  split; [by eexists _, _|]. simpl. unfold is_tx_closed, close_tx, set_flag_.
  rewrite ring_flag_set, bool_decide_true by done. apply orb_true_r.
Qed.

Section through.
Context {R RE : Type} `{HR : TrBuffRead R RE} `{HS : TrBufferState R}
  `{HE : TrTaggedError RE ReadErrTag}.
Context (rok : R → Prop) (stream : R → list Z).
Context `{!LawfulReader R RE rok stream, !BoundedReader R RE rok stream,
  !EofReader R RE rok stream, !LawfulSource R RE rok stream, !LiveReader R RE rok}.
Context {R2 E2 : Type} `{HR2 : TrBuffRead R2 E2} `{HE2 : TrTaggedError E2 ReadErrTag}.
Context (ok2 : R2 → Prop) (stream2 : R2 → list Z).
Context `{!LawfulReader R2 E2 ok2 stream2, !BoundedReader R2 E2 ok2 stream2,
  !EofReader R2 E2 ok2 stream2, !LiveReader R2 E2 ok2}.

End through.

(** ** An example *)

(** A ring of three slots, so of two items, whose reader takes one item at a time. *)
Definition one_at_a_time (n : Z) : Z := 1.
Definition three_slots : RingTx := mkTx (mkRing 3 ∅ 0) [] None.
Definition through_three_slots : MpEncode.MultipartEncode ring RingTx :=
  MpEncode.mkEncode closed_ring three_slots.

Lemma three_slots_ok : tx_ok (PREFIX_LEN U8Prefix) three_slots.
Proof.
  constructor; [|by vm_compute|by vm_compute]. exists 0, [].
  constructor; by vm_compute.
Qed.

