(* ===== verification/RingTests.v ===== *)
(** * The tests of the ring buffer

    The single-threaded [#[test]] functions of
    [crates/buffex/src/ring_buffer/tests_/sync_.rs] and [smoke_tests_.rs], with the
    helpers of [tests_/mod.rs], run on the model of the ring.  A ring is its buffer and
    its word, which the halves share; a future is the machine of [RbPark.v], polled by
    hand.  What the threaded tests check is [RbHandoff.v]. *)

From S2P Require Import Prelude Testing Demand Segm SegmTests CircEnds RbState RbPark RbIo.
Import RbIo.Reclaim.

Definition seq_byte (i : Z) : Z := i mod 256.
Definition pat_byte (i : Z) : Z := (i * 7) mod 256.
Definition RING_CAP : Z := 16.
Definition loops : nat := 64.

Implicit Types r : RingBuffer.

Definition ring_of (cap : Z) : exec RingBuffer :=
  word ← unwrap_ok (try_new cap); Done (mkRing cap ∅ word).

(** A fresh [Arc] is the only one: the split is granted. *)
Definition make_ring (cap : Z) : exec RingBuffer :=
  r ← ring_of cap;
  assert (try_split_shared 1 0);;
  Done r.

(** [fill_segm] and [take_segm]; a read of a slot that was never written is a
    failure. *)
Definition fill_segm r (segm : RingSliceMut.t) (data : list Z) :
    exec (RingBuffer * RingSliceMut.t) :=
  assert (Z.of_nat (length data) <=? RingSliceMut.least_count segm);;
  match RingSliceMut.move_items_from_buff (buf_ r) segm data with
  | None => OutOfFuel
  | Some o =>
      '(mem, segm') ← lift o;
      assert_eq (RingSliceMut.least_count segm - RingSliceMut.least_count segm')
        (Z.of_nat (length data));;
      Done (mkRing (cap_ r) mem (word_ r), segm')
  end.
Definition take_segm r (segm : RingSliceRef.t) (len : Z) :
    exec (list Z * RingSliceRef.t) :=
  assert (len <=? RingSliceRef.least_count segm);;
  match RingSliceRef.move_items_to_buff (buf_ r) segm len with
  | None => OutOfFuel
  | Some o =>
      x ← lift o;
      '(items, segm) ← unwrap x;
      assert_eq (Z.of_nat (length items)) len;;
      Done (items, segm)
  end.

(** The drops of the segments. *)
Definition drop_mut r (segm : RingSliceMut.t) : exec RingBuffer :=
  with_word r <$> lift (RingSliceMut.drop segm (word_ r)).
Definition drop_ref r (segm : RingSliceRef.t) : exec RingBuffer :=
  with_word r <$> lift (RingSliceRef.drop segm (word_ r)).

(** What the halves lend. *)
Definition try_write_at_most r (n : Z) : exec (result TxError RingSliceMut.t) :=
  x ← lift (try_write_at (cap_ r) (word_ r) n);
  match x with
  | Ok (start, take) => Ok <$> lift (rb_write_segm r start take)
  | Err e => Done (Err e)
  end.
Definition try_read_at_most r (n : Z) : exec (result RxError RingSliceRef.t) :=
  x ← lift (try_read_at (cap_ r) (word_ r) n);
  Done (match x with
        | Ok (start, take) => Ok (rb_read_segm r start take)
        | Err e => Err e
        end).
Definition try_peek r : exec (result RxError RingSliceRef.t) :=
  x ← lift (try_peek_at (cap_ r) (word_ r));
  Done (match x with
        | Ok (start, take) => Ok (rb_peek_segm r start take)
        | Err e => Err e
        end).
Definition try_write r (d : Demand) : exec (result TxError RingSliceMut.t) :=
  x ← lift (RbState.try_write (cap_ r) (word_ r) (word_ r) d);
  Done (match x with
        | Ok segm => Ok (RingSliceMut.mk segm (Some (mkWriter (cap_ r))))
        | Err e => Err e
        end).
Definition try_read r (d : Demand) : exec (result RxError RingSliceRef.t) :=
  x ← lift (RbState.try_read (cap_ r) (word_ r) (word_ r) d);
  Done (match x with
        | Ok segm => Ok (RingSliceRef.mk segm (Some (Consume (mkReader (cap_ r)))))
        | Err e => Err e
        end).

Definition data r : Z := data_size (cap_ r) (word_ r).
Definition free r : Z := free_size (cap_ r) (word_ r).
Definition close_tx r : RingBuffer := with_word r (RbState.close_tx (word_ r)).
Definition close_rx r : RingBuffer := with_word r (RbState.close_rx (word_ r)).

(** Lend at most [n] slots, fill all of [xs] and drop; lend at most [n] items, of which
    there must be [xs], take and drop. *)
Definition write r (n : Z) (xs : list Z) : exec RingBuffer :=
  x ← try_write_at_most r n;
  segm ← unwrap_ok x;
  '(r, segm) ← fill_segm r segm xs;
  drop_mut r segm.
Definition read r (n : Z) (xs : list Z) : exec RingBuffer :=
  x ← try_read_at_most r n;
  segm ← unwrap_ok x;
  '(got, segm) ← take_segm r segm (RingSliceRef.least_count segm);
  assert_eq got xs;;
  drop_ref r segm.

Definition is_drained {A} (x : result RxError A) : bool :=
  match x with Err (RxDrained _) => true | _ => false end.
Definition is_closing {A} (x : result RxError A) : bool :=
  match x with Err RxClosing => true | _ => false end.
Definition is_stuffed {A} (x : result TxError A) : bool :=
  match x with Err (TxStuffed _) => true | _ => false end.

(** The loop that fills the ring: [ask] is the length it asks for, [byte] the item at
    an offset. *)
Fixpoint fill_loop (fuel : nat) r (off total : Z) (ask byte : Z → Z) : exec RingBuffer :=
  match fuel with
  | O => OutOfFuel
  | S fuel =>
      if off <? total then
        x ← try_write_at_most r (ask off);
        segm ← unwrap_ok x;
        let len := RingSliceMut.least_count segm in
        assert (0 <? len);;
        '(r, segm) ← fill_segm r segm (map byte (upto off (off + len)));
        r ← drop_mut r segm;
        fill_loop fuel r (off + len) total ask byte
      else Done r
  end.

(** The loop that reads until nothing is lent. *)
Fixpoint drain_loop (fuel : nat) r (n : Z) (total : list Z) : exec (RingBuffer * list Z) :=
  match fuel with
  | O => OutOfFuel
  | S fuel =>
      x ← try_read_at_most r n;
      match x with
      | Err _ => Done (r, total)
      | Ok segm =>
          '(got, segm) ← take_segm r segm (RingSliceRef.least_count segm);
          r ← drop_ref r segm;
          drain_loop fuel r n (total ++ got)
      end
  end.

(** One poll of a future: its steps until it answers or has none; [r] is what it sees. *)
Section poll.
Context {A : Type}.
Fixpoint poll_steps (fuel : nat) cap (fut : future A) (w : world A) :
    exec (world A * CircEnds.Poll A) :=
  match fuel with
  | O => OutOfFuel
  | S fuel =>
      match at_ w with
      | Finished o => a ← lift o; Done (w, Ready a)
      | _ => match own cap fut false w with
             | Some w => poll_steps fuel cap fut w
             | None => Done (w, Pending)
             end
      end
  end.
Definition first_poll r (fut : future A) : exec (world A * CircEnds.Poll A) :=
  poll_steps loops (cap_ r) fut (init_world (word_ r)).
Definition next_poll r (fut : future A) (w : world A) : exec (world A * CircEnds.Poll A) :=
  w ← unwrap (run1 (cap_ r) fut Repoll
                (World (word_ r) (slot w) (registered w) (pending w) (waking w)
                   (woken w) (at_ w) (freed_access w)));
  poll_steps loops (cap_ r) fut w.
End poll.
Definition is_pending {A} (x : CircEnds.Poll A) : bool := match x with Pending => true | _ => false end.
Definition ready_ok {E A} (x : CircEnds.Poll (result E A)) : exec A :=
  match x with Ready (Ok a) => Done a | _ => Aborted end.
Definition ReadAsync r (min max : Z) := ReadFuture (cap_ r) min max.
Definition WriteAsync r (min max : Z) := WriteFuture (cap_ r) min max.

(** ** [sync_.rs] *)

Module RingSyncTests.

Definition segm_borrow_roundtrip_and_wrap : exec unit :=
  r ← make_ring RING_CAP;
  x ← try_write_at_most r 3; segm ← unwrap_ok x;
  assert_eq (RingSliceMut.least_count segm) 3;;
  r ← write r 3 (map seq_byte (upto 0 3));
  assert_eq (data r) 3;;
  x ← try_write_at_most r 5; segm ← unwrap_ok x;
  assert_eq (RingSliceMut.least_count segm) 5;;
  r ← write r 5 (map seq_byte (upto 3 8));
  assert_eq (data r) 8;;
  r ← read r 4 (map seq_byte (upto 0 4));
  r ← read r 4 (map seq_byte (upto 4 8));
  assert_eq (data r) 0;;
  let total := RING_CAP - 1 in
  r ← fill_loop loops r 0 total (λ off, total - off) (λ i, seq_byte (100 + i));
  assert ((unpack (word_ r)).2 <? RING_CAP);;
  assert_eq (data r) (RING_CAP - 1);;
  x ← try_write_at_most r 1;
  assert (is_stuffed x);;
  '(r, got) ← drain_loop loops r 7 [];
  assert_eq got (map (λ i, seq_byte (100 + i)) (upto 0 total)).

Definition peek_does_not_consume : exec unit :=
  r ← make_ring RING_CAP;
  r ← write r 4 [10; 11; 12; 13];
  x ← try_peek r; segm ← unwrap_ok x;
  slices ← lift (RingSliceRef.iter_slices segm);
  assert_eq (length slices) 1%nat;;
  xs ← SegmentTests.recl_view (buf_ r) (RingSliceRef.segm_ segm);
  assert_eq xs [10; 11; 12; 13];;
  r ← drop_ref r segm;
  x ← try_peek r; segm ← unwrap_ok x;
  assert_eq (RingSliceRef.least_count segm) 4;;
  r ← drop_ref r segm;
  x ← try_read_at_most r 16; segm ← unwrap_ok x;
  assert_eq (RingSliceRef.least_count segm) 4;;
  r ← read r 16 [10; 11; 12; 13];
  x ← try_read_at_most r 1;
  assert (is_drained x).

Definition read_async_honours_at_least : exec unit :=
  r ← make_ring RING_CAP;
  r ← write r 2 [1; 2];
  let fut := ReadAsync r 4 USIZE_MAX in
  '(w, x) ← first_poll r fut;
  assert (is_pending x);;
  r ← write r 3 [3; 4; 5];
  '(w, x) ← next_poll r fut w;
  '(start, take) ← ready_ok x;
  let segm := rb_read_segm r start take in
  assert (4 <=? RingSliceRef.least_count segm);;
  '(got, segm) ← take_segm r segm (RingSliceRef.least_count segm);
  drop_ref r segm;;
  assert_eq got [1; 2; 3; 4; 5].

Definition write_async_honours_at_least : exec unit :=
  r ← make_ring RING_CAP;
  r ← fill_loop loops r 0 12 (λ off, 12 - off) seq_byte;
  assert_eq (free r) 3;;
  let fut := WriteAsync r 5 USIZE_MAX in
  '(w, x) ← first_poll r fut;
  assert (is_pending x);;
  r ← read r 3 (map seq_byte (upto 0 3));
  '(w, x) ← next_poll r fut w;
  '(start, take) ← ready_ok x;
  segm ← lift (rb_write_segm r start take);
  assert (5 <=? RingSliceMut.least_count segm);;
  drop_mut r segm;;
  Done ().

Definition try_read_honours_at_least : exec unit :=
  r ← make_ring RING_CAP;
  r ← write r 2 [1; 2];
  x ← try_read r (at_least 4);
  assert (is_drained x).

Definition try_write_honours_at_least : exec unit :=
  r ← make_ring RING_CAP;
  r ← fill_loop loops r 0 12 (λ off, 12 - off) seq_byte;
  assert_eq (free r) 3;;
  x ← try_write r (at_least 4);
  assert (is_stuffed x).

Definition read_async_at_least_returns_partial_on_eof : exec unit :=
  r ← make_ring RING_CAP;
  r ← write r 2 [7; 8];
  let r := with_word r (tx_drop true (word_ r)) in
  let r := close_rx r in
  '(w, x) ← first_poll r (ReadAsync r 4 USIZE_MAX);
  '(start, take) ← ready_ok x;
  let segm := rb_read_segm r start take in
  assert_eq (RingSliceRef.least_count segm) 2;;
  '(got, segm) ← take_segm r segm 2;
  assert_eq got [7; 8].

Definition read_async_less_than_still_partial : exec unit :=
  r ← make_ring RING_CAP;
  r ← write r 2 [1; 2];
  '(w, x) ← first_poll r (ReadAsync r 0 8);
  '(start, take) ← ready_ok x;
  assert_eq (RingSliceRef.least_count (rb_read_segm r start take)) 2.

Definition write_one_shot_satisfies_wrapped_free_space : exec unit :=
  r ← make_ring 10;
  r ← fill_loop loops r 0 8 (λ off, 8 - off) seq_byte;
  assert_eq (data r) 8;;
  r ← read r 3 (map seq_byte (upto 0 3));
  assert_eq (data r) 5;;
  assert_eq (unpack (word_ r)) (3, 8);;
  assert_eq (free r) 4;;
  x ← try_write_at_most r 4; segm ← unwrap_ok x;
  assert_eq (RingSliceMut.least_count segm) 4;;
  r ← write r 4 [100; 101; 102; 103];
  assert_eq (data r) 9;;
  '(r, got) ← drain_loop loops r 5 [];
  assert_eq got (map seq_byte (upto 3 8) ++ [100; 101; 102; 103]).

Definition error_semantics : exec unit :=
  r ← make_ring RING_CAP;
  x ← try_read_at_most r 1;
  assert (is_drained x);;
  x ← try_write_at_most r RING_CAP; segm ← unwrap_ok x;
  assert_eq (RingSliceMut.least_count segm) (RING_CAP - 1);;
  r ← write r RING_CAP (replicate 15 0);
  x ← try_write_at_most r 1;
  assert (is_stuffed x);;
  r ← read r RING_CAP (replicate 15 0);
  x ← try_read_at_most r 1;
  assert (is_drained x);;
  let r := close_rx r in
  x ← try_read_at_most r 1;
  assert (is_closing x);;
  x ← try_peek r;
  assert (is_closing x);;
  let r := close_tx r in
  r ← write r 1 [0];
  Done ().

Definition tr_ring_buffer_trait : exec unit :=
  r ← ring_of RING_CAP;
  assert_eq (cap_ r) RING_CAP;;
  assert_eq (data r) 0;;
  x ← try_write r (less_than 4); segm ← unwrap_ok x;
  '(r, segm) ← fill_segm r segm (map seq_byte (upto 0 4));
  r ← drop_mut r segm;
  assert_eq (data r) 4;;
  x ← try_read r (less_than 16); segm ← unwrap_ok x;
  '(got, segm) ← take_segm r segm (RingSliceRef.least_count segm);
  r ← drop_ref r segm;
  assert_eq got [0; 1; 2; 3];;
  x ← try_write r (less_than 4); segm ← unwrap_ok x;
  '(r, segm) ← fill_segm r segm [4; 5; 6; 7];
  r ← drop_mut r segm;
  x ← try_peek r; segm ← unwrap_ok x;
  xs ← SegmentTests.recl_view (buf_ r) (RingSliceRef.segm_ segm);
  assert_eq (head xs) (Some 4);;
  r ← drop_ref r segm;
  let r := with_word r (rx_drop true (tx_drop true (word_ r))) in
  assert_eq (cap_ r) RING_CAP.

(** The bytes of a slice of iovecs. *)
Definition bytes r (a : slice) : exec (list Z) :=
  unwrap (Segm.fetch (buf_ r) (s_start a) (Z.to_nat (s_len a))).
Definition fill_slice r (a : slice) (xs : list Z) : RingBuffer :=
  mkRing (cap_ r) (Segm.store (buf_ r) (s_start a) xs) (word_ r).
Definition take_send r : exec (RingBuffer * (slice * slice)) :=
  '(s, ab) ← unwrap (take_send_iovecs (cap_ r) (word_ r)); Done (with_word r s, ab).
Definition take_recv r : exec (RingBuffer * (slice * slice)) :=
  '(s, ab) ← unwrap (take_recv_iovecs (cap_ r) (word_ r)); Done (with_word r s, ab).
Definition back_send r (n : Z) : exec RingBuffer :=
  with_word r <$> lift (put_back_send (cap_ r) n (word_ r)).
Definition back_recv r (n : Z) : exec RingBuffer :=
  with_word r <$> lift (put_back_recv (cap_ r) n (word_ r)).

Definition iovec_take_put : exec unit :=
  r ← ring_of RING_CAP;
  r ← write r 6 (map (λ i, 10 + i) (upto 0 6));
  '(r, (a, b)) ← take_send r;
  xs ← bytes r a; assert_eq xs [10; 11; 12; 13; 14; 15];;
  assert_eq (s_len b) 0;;
  r ← back_send r 6;
  assert_eq (data r) 0;;
  r ← fill_loop loops r 0 (RING_CAP - 1) (λ off, RING_CAP - off) (λ i, 20 + i);
  '(r, (a, b)) ← take_send r;
  assert ((0 <? s_len a) && (0 <? s_len b));;
  xs ← bytes r a; ys ← bytes r b;
  assert_eq (xs ++ ys) (map (λ i, 20 + i) (upto 0 (RING_CAP - 1)));;
  r ← back_send r (Z.of_nat (length (xs ++ ys)));
  '(r, (a, b)) ← take_recv r;
  let n := s_len a + s_len b in
  assert_eq n (RING_CAP - 1);;
  let r := fill_slice r a (map pat_byte (upto 0 (s_len a))) in
  let r := fill_slice r b (map pat_byte (upto (s_len a) n)) in
  r ← back_recv r n;
  assert_eq (data r) n;;
  '(r, (c, _)) ← take_send r;
  xs ← bytes r c; assert_eq (take 4 xs) [0; 7; 14; 21];;
  r ← back_send r 0;
  lift (ring_drop (word_ r)).

Definition kernel_reservation_blocks_user : exec unit :=
  r ← ring_of RING_CAP;
  r ← write r 4 [1; 2; 3; 4];
  '(r, _) ← take_send r;
  x ← try_read_at_most r 1;
  assert (is_drained x);;
  r ← back_send r 4;
  x ← try_read_at_most r 1;
  assert (is_drained x);;
  '(r, (a, _)) ← take_recv r;
  let r := fill_slice r a [42; 43; 44] in
  x ← try_write_at_most r 1;
  assert (is_stuffed x);;
  r ← back_recv r 3;
  r ← read r 3 [42; 43; 44];
  lift (ring_drop (word_ r)).

Definition split_borrowed_halves : exec unit :=
  r ← ring_of RING_CAP;
  r ← write r 2 [1; 2];
  read r 2 [1; 2];;
  Done ().

(** The handles of an [Arc] are counted: the split moves one into the halves, which
    hold two. *)
Definition split_shared_succeeds_for_sole_owner : exec unit :=
  r ← ring_of RING_CAP;
  let strong := 1 in
  assert (try_split_shared strong 0);;
  r ← write r 2 [1; 2];
  read r 2 [1; 2];;
  Done ().
Definition split_shared_rejects_non_sole_owner : exec unit :=
  r ← ring_of RING_CAP;
  let strong := 1 + 1 in
  assert (negb (try_split_shared strong 0));;
  assert_eq (cap_ r) RING_CAP.
Definition split_shared_rejects_second_pair_until_halves_dropped : exec unit :=
  r ← ring_of RING_CAP;
  let strong := 1 in
  assert (try_split_shared strong 0);;
  let halves := 2 in
  let strong := halves + 1 in
  assert (negb (try_split_shared strong 0));;
  assert (2 <=? strong);;
  let r := with_word r (rx_drop true (tx_drop true (word_ r))) in
  let strong := strong - halves in
  assert (try_split_shared strong 0);;
  r ← write r 1 [7];
  read r 1 [7];;
  Done ().

(** A ring that holds [expect], and the segment it lends of it. *)
Definition source (expect : list Z) : exec (RingBuffer * RingSliceRef.t) :=
  r ← make_ring RING_CAP;
  r ← write r 15 expect;
  x ← try_read_at_most r 15; segm ← unwrap_ok x;
  Done (r, segm).
Definition target : exec (RingBuffer * RingSliceMut.t) :=
  r ← make_ring RING_CAP;
  x ← try_write_at_most r 15; segm ← unwrap_ok x;
  Done (r, segm).
Definition with_segm_ref (s : RingSliceRef.t) (segm : Recl.t) : RingSliceRef.t :=
  RingSliceRef.mk segm (RingSliceRef.reclaim_ s).
Definition with_segm_mut (s : RingSliceMut.t) (segm : Recl.t) : RingSliceMut.t :=
  RingSliceMut.mk segm (RingSliceMut.reclaim_ s).

(** What the two directions have in common: both segments are dropped, and the target
    is read back. *)
Definition moved_over (src_ring : RingBuffer) src_segm (dst_ring : RingBuffer) dst_segm
    (x : Recl.t * gmap Z Z * Recl.t * Z) (expect : list Z) : exec unit :=
  let '(src, mem, dst, moved) := x in
  assert_eq moved 15;;
  src_ring ← drop_ref src_ring (with_segm_ref src_segm src);
  dst_ring ← drop_mut (mkRing (cap_ dst_ring) mem (word_ dst_ring)) (with_segm_mut dst_segm dst);
  assert_eq (data src_ring) 0;;
  assert_eq (data dst_ring) 15;;
  '(_, got) ← drain_loop loops dst_ring 8 [];
  assert_eq got expect.

Definition recl_segm_move_items_trait_defaults : exec unit :=
  let expect := upto 0 15 in
  '(src_ring, src) ← source expect;
  '(dst_ring, dst) ← target;
  x ← SegmentTests.test_move_items_to_segm (buf_ src_ring) (RingSliceRef.segm_ src)
        (buf_ dst_ring) (RingSliceMut.segm_ dst) expect;
  moved_over src_ring src dst_ring dst x expect;;
  '(src_ring, src) ← source expect;
  '(dst_ring, dst) ← target;
  x ← SegmentTests.test_move_items_from_segm (buf_ src_ring) (RingSliceRef.segm_ src)
        (buf_ dst_ring) (RingSliceMut.segm_ dst) expect;
  moved_over src_ring src dst_ring dst x expect;;
  '(src_ring, src) ← source expect;
  '(items, segm) ← SegmentTests.test_move_items_to_buff (buf_ src_ring) (RingSliceRef.segm_ src)
                     15 expect;
  assert_eq (length items) 15%nat;;
  drop_ref src_ring (with_segm_ref src segm);;
  let expect := upto 100 115 in
  '(dst_ring, dst) ← target;
  '(mem, segm, moved) ← SegmentTests.test_move_items_from_buff (buf_ dst_ring)
                          (RingSliceMut.segm_ dst) expect;
  assert_eq moved 15;;
  dst_ring ← drop_mut (mkRing (cap_ dst_ring) mem (word_ dst_ring)) (with_segm_mut dst segm);
  '(_, got) ← drain_loop loops dst_ring 8 [];
  assert_eq got expect.

(** Both storages are the same to the model. *)
Definition move_data_between_u8_slice_and_maybe_uninit_slice_rings : exec unit :=
  let expected := upto 0 8 in
  src ← make_ring 16;
  x ← try_write src (less_than 8); segm ← unwrap_ok x;
  assert_eq (RingSliceMut.least_count segm) 8;;
  '(src, segm) ← fill_segm src segm expected;
  src ← drop_mut src segm;
  let src := close_tx src in
  dst ← make_ring 16;
  x ← try_read src (less_than 8); rseg ← unwrap_ok x;
  let n := RingSliceRef.least_count rseg in
  assert_eq n 8;;
  '(bs, rseg) ← take_segm src rseg n;
  x ← try_write dst (less_than n); wseg ← unwrap_ok x;
  assert (n <=? RingSliceMut.least_count wseg);;
  '(dst, wseg) ← fill_segm dst wseg bs;
  src ← drop_ref src rseg;
  dst ← drop_mut dst wseg;
  let dst := close_tx dst in
  x ← try_read dst (less_than 8); rseg ← unwrap_ok x;
  let n := RingSliceRef.least_count rseg in
  assert_eq n 8;;
  '(got, rseg) ← take_segm dst rseg n;
  dst ← drop_ref dst rseg;
  assert_eq got expected.

Definition suite : list (exec unit) :=
  [segm_borrow_roundtrip_and_wrap; peek_does_not_consume; read_async_honours_at_least;
   write_async_honours_at_least; try_read_honours_at_least; try_write_honours_at_least;
   read_async_at_least_returns_partial_on_eof; read_async_less_than_still_partial;
   write_one_shot_satisfies_wrapped_free_space; error_semantics; tr_ring_buffer_trait;
   iovec_take_put; kernel_reservation_blocks_user; split_borrowed_halves;
   split_shared_succeeds_for_sole_owner; split_shared_rejects_non_sole_owner;
   split_shared_rejects_second_pair_until_halves_dropped;
   recl_segm_move_items_trait_defaults;
   move_data_between_u8_slice_and_maybe_uninit_slice_rings].

Theorem ring_sync_tests_pass : Forall passes suite.
Proof. run_tests. Qed.

End RingSyncTests.

(** ** [smoke_tests_.rs] *)

Module SmokeTests.

(** [wait_write] and [wait_read]: there is nobody else, so a wait would not end. *)
Definition wait_write r (len : Z) : exec RingSliceMut.t :=
  if len <=? free r then x ← try_write_at_most r len; unwrap_ok x else OutOfFuel.
Definition wait_read r (len : Z) : exec RingSliceRef.t :=
  if len <=? data r then x ← try_read_at_most r len; unwrap_ok x else OutOfFuel.

Fixpoint write_all (fuel : nat) r (xs : list Z) : exec RingBuffer :=
  match fuel with
  | O => OutOfFuel
  | S fuel =>
      match xs with
      | [] => Done r
      | _ =>
          segm ← wait_write r (Z.of_nat (length xs));
          let n := RingSliceMut.least_count segm in
          assert (0 <? n);;
          '(r, segm) ← fill_segm r segm (take (Z.to_nat n) xs);
          r ← drop_mut r segm;
          write_all fuel r (drop (Z.to_nat n) xs)
      end
  end.
Fixpoint read_all (fuel : nat) r (len : Z) (out : list Z) : exec (RingBuffer * list Z) :=
  match fuel with
  | O => OutOfFuel
  | S fuel =>
      if Z.of_nat (length out) <? len then
        segm ← wait_read r (len - Z.of_nat (length out));
        let n := RingSliceRef.least_count segm in
        assert (0 <? n);;
        '(got, segm) ← take_segm r segm n;
        r ← drop_ref r segm;
        read_all fuel r len (out ++ got)
      else Done (r, out)
  end.
Definition put_all r (xs : list Z) : exec RingBuffer := write_all loops r xs.
Definition get_all r (xs : list Z) : exec RingBuffer :=
  '(r, got) ← read_all loops r (Z.of_nat (length xs)) [];
  assert_eq got xs;;
  Done r.

Definition single_byte_roundtrip : exec unit :=
  r ← make_ring 4;
  r ← write r 1 [42];
  assert_eq (data r) 1;;
  r ← read r 1 [42];
  x ← try_read_at_most r 1;
  assert (is_drained x).

Definition full_then_read_then_write_again : exec unit :=
  r ← make_ring 4;
  r ← put_all r [1; 2; 3];
  assert_eq (free r) 0;;
  x ← try_write_at_most r 1;
  assert (is_stuffed x);;
  r ← get_all r [1];
  assert_eq (free r) 1;;
  r ← write r 1 [4];
  get_all r [2; 3; 4];;
  Done ().

Definition wrapped_write_read_smoke : exec unit :=
  r ← make_ring 8;
  r ← put_all r [0; 1; 2; 3; 4; 5; 6];
  assert_eq (data r) 7;;
  r ← get_all r [0; 1];
  assert_eq (data r) 5;;
  x ← try_write_at_most r 2; segm ← unwrap_ok x;
  assert_eq (RingSliceMut.least_count segm) 2;;
  r ← write r 2 [7; 8];
  r ← get_all r [2; 3; 4; 5; 6; 7; 8];
  x ← try_read_at_most r 1;
  assert (is_drained x).

Definition close_and_drain_smoke : exec unit :=
  r ← make_ring 4;
  r ← put_all r [1; 2; 3];
  let r := close_tx r in
  r ← get_all r [1; 2; 3];
  let r := close_rx r in
  assert (is_drained_closing (cap_ r) (word_ r));;
  x ← try_read_at_most r 1;
  assert (is_closing x).

Definition peek_does_not_consume_external_api : exec unit :=
  r ← make_ring 8;
  r ← put_all r [10; 11; 12];
  x ← try_peek r; peeked ← unwrap_ok x;
  slices ← lift (RingSliceRef.iter_slices peeked);
  assert_eq (length slices) 1%nat;;
  xs ← SegmentTests.recl_view (buf_ r) (RingSliceRef.segm_ peeked);
  assert_eq xs [10; 11; 12];;
  r ← drop_ref r peeked;
  assert_eq (data r) 3;;
  get_all r [10; 11; 12];;
  Done ().

Definition suite : list (exec unit) :=
  [single_byte_roundtrip; full_then_read_then_write_again; wrapped_write_read_smoke;
   close_and_drain_smoke; peek_does_not_consume_external_api].

Theorem smoke_tests_pass : Forall passes suite.
Proof. run_tests. Qed.

End SmokeTests.
