(* ===== verification/IoTests.v ===== *)
(** * The tests of the readers and the writers

    The [#[test]] functions of [crates/abs_buff/src/pipelining/join.rs] and
    [slice_impl_.rs], of [crates/abs_buff_utils/src/multipart/tests_/] and of
    [crates/abs_buff_stdio_adapt/src/tests_.rs], run on the model; those with threads
    or with two futures at once are left out. *)

From S2P Require Import Prelude Testing Demand CircEnds CircCore CircHalf Builder CircTests.
From S2P Require Import BuffIo RingIo RingOut Join StdIo MpEncode MpDecode.

Definition io_rounds : nat := 256.
Definition iota (a b : Z) : list Z := seqZ a (b - a).

(** ** [join.rs] *)

Module JoinTests.

Inductive TestErr : Type := Stuffed.
#[export] Instance test_err_read : TrTaggedError TestErr ReadErrTag :=
  {| err_tag _ := RUnknown |}.
#[export] Instance test_err_write : TrTaggedError TestErr WriteErrTag :=
  {| err_tag _ := WUnknown |}.

(** [TestRx] and [TestTx]. *)
Record TestRx : Type := mkRx { rx_data : list Z; rx_pos : Z; chunk : Z; closed : bool }.
Definition rx_new (data : list Z) (closed : bool) : TestRx := mkRx data 0 0 closed.
Definition rx_new_chunked (data : list Z) (closed : bool) (chunk : Z) : TestRx :=
  mkRx data 0 chunk closed.
Definition rx_is_drained_closing (r : TestRx) : bool :=
  closed r && (rx_pos r =? len (rx_data r)).
Definition rx_read_async (r : TestRx) (demand : Demand) :
    TestRx * reply (list (list Z)) TestErr :=
  let take_ := max_len demand in
  let take_ := if 0 <? chunk r then Z.min take_ (chunk r) else take_ in
  let take_ := Z.min take_ (len (rx_data r) - rx_pos r) in
  (r, (Some [take (Z.to_nat take_) (drop (Z.to_nat (rx_pos r)) (rx_data r))], None)).
#[export] Instance rx_reader : TrBuffRead TestRx TestErr :=
  {| is_drained_closing := rx_is_drained_closing;
     read_async := rx_read_async;
     drop_ref r n := mkRx (rx_data r) (rx_pos r + n) (chunk r) (closed r) |}.

Record TestTx : Type := mkTx { tx_cap : Z; collected : list Z }.
Definition tx_with_capacity (cap : Z) : TestTx := mkTx cap [].
Definition tx_is_stuffed_closing (w : TestTx) : bool := len (collected w) =? tx_cap w.
Definition tx_write_async (w : TestTx) (demand : Demand) :
    TestTx * reply (list Z) TestErr :=
  let free := tx_cap w - len (collected w) in
  if free =? 0 then (w, (None, Some Stuffed))
  else (w, (Some [Z.min (max_len demand) free], None)).
#[export] Instance tx_writer : TrBuffWrite TestTx TestErr :=
  {| is_stuffed_closing := tx_is_stuffed_closing;
     write_async := tx_write_async;
     drop_mut w bs := mkTx (tx_cap w) (collected w ++ bs) |}.

(** [PipeJoin::new(&mut tx, &mut rx).pipe_async()]. *)
Definition pipe (tx : TestTx) (rx : TestRx) :=
  pipe_async_ (WE:=TestErr) (RE:=TestErr) 1 io_rounds (mkPipe tx rx).
Definition is_drained (r : PipeJoinIoResult TestErr TestErr) (n : Z) : bool :=
  match r with RxDrained c => c =? n | _ => false end.

Definition pipe_transfers_all_data_and_reports_drained : exec unit :=
  let expected := iota 0 100 in
  '(pj, result) ← pipe (tx_with_capacity (100 + 32)) (rx_new expected true);
  assert (is_drained result 100);;
  assert_eq (rx_pos (buff_r_ pj)) 100;;
  assert_eq (collected (buff_w_ pj)) expected.

Definition pipe_reads_in_chunks_next_chunk_is_next_content : exec unit :=
  let expected := iota 0 100 in
  '(pj, result) ← pipe (tx_with_capacity (100 + 32)) (rx_new_chunked expected true 30);
  assert (is_drained result 100);;
  assert_eq (collected (buff_w_ pj)) expected.

Definition pipe_partial_transfer_then_retry_no_dup_no_loss : exec unit :=
  let expected := iota 0 100 in
  '(pj, result) ← pipe (tx_with_capacity 16) (rx_new expected true);
  assert (match result with TxErr count Stuffed => count =? 16 | _ => false end);;
  assert_eq (rx_pos (buff_r_ pj)) 16;;
  assert_eq (collected (buff_w_ pj)) (take 16 expected);;
  '(pj, result) ← pipe (tx_with_capacity (100 + 32)) (buff_r_ pj);
  assert (is_drained result (100 - 16));;
  assert_eq (collected (buff_w_ pj)) (drop 16 expected).

Definition pipe_blocked_tx_reports_blocked_without_consuming : exec unit :=
  '(pj, result) ← pipe (tx_with_capacity 0) (rx_new [1; 2; 3] true);
  assert (match result with TxBlocked c => c =? 0 | _ => false end);;
  assert_eq (rx_pos (buff_r_ pj)) 0.

Definition pipe_drained_rx_reports_drained : exec unit :=
  '(pj, result) ← pipe (tx_with_capacity 8) (rx_new [] true);
  assert (is_drained result 0);;
  assert_eq (collected (buff_w_ pj)) [].

Definition pipe_zst_returns_no_ops : exec unit :=
  '(pj, result) ← pipe_async_ (WE:=TestErr) (RE:=TestErr) 0 io_rounds
                    (mkPipe (tx_with_capacity 4) (rx_new [0; 0; 0; 0] true));
  assert (match result with NoOps => true | _ => false end);;
  assert_eq (rx_pos (buff_r_ pj)) 0;;
  assert_eq (collected (buff_w_ pj)) [].

Definition suite : list (exec unit) :=
  [pipe_transfers_all_data_and_reports_drained;
   pipe_reads_in_chunks_next_chunk_is_next_content;
   pipe_partial_transfer_then_retry_no_dup_no_loss;
   pipe_blocked_tx_reports_blocked_without_consuming; pipe_drained_rx_reports_drained;
   pipe_zst_returns_no_ops].

Theorem join_tests_pass : Forall passes suite.
Proof. run_tests. Qed.

End JoinTests.

(** ** [slice_impl_.rs] *)

Module SliceTests.

(** Lend, move at most [size] bytes out of the child, drop both. *)
Definition read_some (l : list Z) (d : Demand) (size : Z) : exec (list Z * list Z) :=
  let '(l, (left_, _)) := slice_try_read l d in
  segm ← unwrap left_;
  let dst := move_items_to_buff segm size in
  Done (drop_ref l (len dst), dst).

(** The bytes of [b"hello"]. *)
Definition hello : list Z := [104; 101; 108; 108; 111].

Definition read_borrowed_slice_advances_like_std : exec unit :=
  '(data, dst) ← read_some hello (less_than 5) 2;
  assert_eq (len dst) 2;;
  assert_eq data [108; 108; 111];;
  assert (negb (is_drained_closing data)).

Definition read_borrowed_mut_slice_advances : exec unit :=
  '(data, dst) ← read_some [1; 2; 3; 4] (less_than 4) 3;
  assert_eq (len dst) 3;;
  assert_eq data [4].

Definition write_borrowed_mut_slice_advances_like_std : exec unit :=
  let '(data, (left_, _)) := slice_try_write (SliceMut [] [0; 0; 0; 0; 0]) (less_than 5) in
  segm ← unwrap left_;
  let src := [97; 98; 99] in
  let n := move_items_from_buff segm (len src) in
  assert_eq n 3;;
  let data := drop_mut data (take (Z.to_nat n) src) in
  assert_eq (rest data) [0; 0];;
  assert_eq (take 3 (passed data ++ rest data)) [97; 98; 99].

Definition suite : list (exec unit) :=
  [read_borrowed_slice_advances_like_std; read_borrowed_mut_slice_advances;
   write_borrowed_mut_slice_advances_like_std].

Theorem slice_tests_pass : Forall passes suite.
Proof. run_tests. Qed.

End SliceTests.

(** ** [multipart/tests_] *)

Module MultipartTests.
Import Recv.

(** The halves of a pair of passive ends: both see the one core. *)
Abbreviation target := (ring_out BufEnd).

(** [feed_], [drain_all_] and [new_enc8_]. *)
Fixpoint feed (fuel : nat) (c : ring) (data : list Z) : exec ring :=
  match fuel with
  | O => OutOfFuel
  | S fuel =>
      match data with
      | [] => Done c
      | _ =>
          '(c, r) ← try_write c (at_least 1);
          segm ← unwrap_ok r;
          let n := Z.to_nat (Z.min (Segm.Recl.least_count segm) (len data)) in
          c ← fill_drop c segm (take n data);
          feed fuel c (drop n data)
      end
  end.
Definition drain_all (c : ring) : exec (list Z) :=
  '(_, out) ← CircTests.read_all io_rounds c [] (λ _, true); Done out.
Definition encode (P : Prefix) (src tgt : ring) (k : token) :
    exec (MultipartEncode ring target *
          reply Z (EncodeError ConsumerError ProducerError)) :=
  multipart_send_async_ P io_rounds (mkEncode src (mkOut tgt None)) k.

(** [drain_decode_to_writer_async_]: the bytes moved, or the error that is not the end
    of the stream. *)
Fixpoint write_out (fuel : nat) (out : target) (segm : list (list Z)) (c : Z) :
    exec (target * Z) :=
  match fuel with
  | O => OutOfFuel
  | S fuel =>
      if ref_count segm =? 0 then Done (out, c)
      else
        let '(out, (left_, _)) := write_async out (at_least 1) in
        room ← unwrap left_;
        let moved := Z.min (len (hd [] segm)) (hd 0 room) in
        assert (0 <? moved);;
        let out := drop_mut out (take (Z.to_nat moved) (hd [] segm)) in
        write_out fuel out (ref_advance segm moved) (c + moved)
  end.
Fixpoint drain_decode (fuel : nat) (P : Prefix) (r : MultipartRecv ring) (out : target)
    (c : Z) : exec (target * result (RecvError ConsumerError) Z) :=
  match fuel with
  | O => OutOfFuel
  | S fuel =>
      '(r, (left_, right_)) ← lift (multipart_decode_read_async_ P r (at_least 1) false);
      match left_ with
      | Some segm =>
          '(out, c) ← write_out fuel out segm c;
          drain_decode fuel P (drop_consumed r (ref_count segm)) out c
      | None =>
          match right_ with
          | Some Eof => Done (out, Ok c)
          | Some err => Done (out, Err err)
          | None => Aborted
          end
      end
  end.
Definition decode_stream (stream : list Z) :
    exec (result (RecvError ConsumerError) Z) :=
  tgt ← make_pair 16;
  out ← make_pair 16;
  tgt ← feed io_rounds tgt stream;
  tgt ← Producer.close CircTests.rounds tgt;
  '(_, res) ← drain_decode io_rounds U16Prefix (new tgt) (mkOut out None) 0;
  Done res.

Definition decode_invalid_on_truncated_stream_ : exec unit :=
  res ← decode_stream [0x00; 0x05; 1; 2; 3];
  assert (match res with Err Recv.Invalid => true | _ => false end).

Definition decode_empty_stream_ends_cleanly_ : exec unit :=
  res ← decode_stream [0x00; 0x00];
  assert (match res with Ok n => n =? 0 | _ => false end).

Definition decode_returns_zero_on_cancel_ : exec unit :=
  tgt ← make_pair 64;
  '(_, res) ← lift (multipart_decode_read_async_ U16Prefix (new tgt) (at_least 1) true);
  assert (match res.2 with Some Recv.Cancelled => true | _ => false end).

(** The check of the wire format: chunks until the zero prefix; what they held, and
    where they end. *)
Fixpoint unwire8 (fuel : nat) (wire : list Z) (recon : list Z) : exec (list Z * list Z) :=
  match fuel with
  | O => OutOfFuel
  | S fuel =>
      match wire with
      | [] => Aborted
      | size :: wire =>
          if size =? 0 then Done (recon, wire)
          else
            assert ((size <=? 255) && (size <=? len wire));;
            unwire8 fuel (drop (Z.to_nat size) wire) (recon ++ take (Z.to_nat size) wire)
      end
  end.

Definition encode_wire_format_chunks_and_eof_ : exec unit :=
  src ← make_pair 1024;
  tgt ← make_pair 1024;
  let data := map (λ i, i mod 251) (iota 0 600) in
  src ← feed io_rounds src data;
  src ← Producer.close CircTests.rounds src;
  '(en, res) ← encode U8Prefix src tgt [];
  assert_eq res.1 (Some 600);;
  wire ← drain_all (core_ (target_ en));
  '(recon, left_over) ← unwire8 io_rounds wire [];
  assert_eq left_over [];;
  assert_eq recon data.

Definition encode_returns_zero_on_cancel_ : exec unit :=
  src ← make_pair 64;
  tgt ← make_pair 64;
  '(_, res) ← encode U16Prefix src tgt [true];
  assert_eq res.1 (Some 0).

Definition prefix_max_by_bits_ : exec unit :=
  assert_eq (PREFIX_MAX U8Prefix) (Z.shiftl 1 8);;
  assert_eq (PREFIX_MAX U16Prefix) (Z.shiftl 1 16);;
  assert_eq (PREFIX_MAX U32Prefix) (Z.shiftl 1 32);;
  assert ((PREFIX_MAX U8Prefix <? PREFIX_MAX U16Prefix) &&
          (PREFIX_MAX U16Prefix <? PREFIX_MAX U32Prefix)).

Definition prefix_len_is_bytes_ : exec unit :=
  assert_eq (PREFIX_LEN U8Prefix) 1;;
  assert_eq (PREFIX_LEN U16Prefix) 2;;
  assert_eq (PREFIX_LEN U32Prefix) 4.

Definition suite : list (exec unit) :=
  [decode_invalid_on_truncated_stream_; decode_empty_stream_ends_cleanly_;
   decode_returns_zero_on_cancel_; encode_wire_format_chunks_and_eof_;
   encode_returns_zero_on_cancel_; prefix_max_by_bits_; prefix_len_is_bytes_].

Theorem multipart_tests_pass : Forall passes suite.
Proof. run_tests. Qed.

End MultipartTests.

(** ** [abs_buff_stdio_adapt] *)

Module StdIoTests.

Definition cb_sync_write_then_read_roundtrip : exec unit :=
  c ← make_pair 64;
  let payload := map (λ i, i * 7 + 1) (iota 0 32) in
  '(w, r) ← std_write io_rounds (mkOut c None) [] payload;
  n ← unwrap_ok r;
  assert_eq n 32;;
  c ← Producer.close CircTests.rounds (core_ w);
  '(_, buf, r) ← std_read (R:=ring) io_rounds c [] 64;
  rn ← unwrap_ok r;
  assert_eq rn 32;;
  assert_eq buf payload.

Definition suite : list (exec unit) := [cb_sync_write_then_read_roundtrip].

Theorem stdio_tests_pass : Forall passes suite.
Proof. run_tests. Qed.

End StdIoTests.
