(* ===== verification/Mcf.v ===== *)
(** * The attribute macro for cancellable futures

    Models [crates/gen_mcf_macro/src/lib.rs]: what [gen_may_cancel_future] makes of an
    [async fn] (the lifetimes, generics, fields and where clauses of the types it
    generates), and how the generated future runs.

    The syntax trees are those of [syn], cut to the constructors and fields that the
    macro takes apart; what it only copies is a leaf of an abstract type [Opaque].
    Punctuation, visibility and attributes are left out, and a lifetime or identifier
    is its name.  In the second half the [async fn] and its future are parameters. *)

From S2P Require Import Prelude.
From stdpp Require Import strings.

(** ** Syntax *)

Inductive GenericArgument (O T : Type) : Type :=
| ArgLifetime (lt : string) | ArgType (ty : T) | ArgOther (o : O).
Arguments ArgLifetime {O T}. Arguments ArgType {O T}. Arguments ArgOther {O T}.

Inductive PathArguments (O T : Type) : Type :=
| NoArgs | AngleBracketed (args : list (GenericArgument O T)) | Parenthesized (o : O).
Arguments NoArgs {O T}. Arguments AngleBracketed {O T}. Arguments Parenthesized {O T}.

Record PathSegment (O T : Type) : Type := Segment {
  seg_ident : string;
  arguments : PathArguments O T;
}.
Arguments Segment {O T}. Arguments seg_ident {O T}. Arguments arguments {O T}.

Section syntax.
Variable Opaque : Type.

#[local] Set Warnings "-register-all".

(** [qself] is the [<Q as ...>] of a path. *)
Inductive Type_ : Type :=
| TReference (lifetime : option string) (mutability : bool) (elem : Type_)
| TPath (qself : option Type_) (segments : list (PathSegment Opaque Type_))
| TTuple (elems : list Type_)
| TArray (elem : Type_) (len : Opaque)
| TSlice (elem : Type_)
| TParen (elem : Type_)
| TGroup (elem : Type_)
| TOther (o : Opaque).

Definition Path : Type := list (PathSegment Opaque Type_).

Inductive TypeParamBound : Type :=
| BoundLifetime (lt : string) | BoundTrait (path : Path) | BoundOther (o : Opaque).

Inductive WherePredicate : Type :=
| PredLifetime (lifetime : string) (bounds : list string)
| PredType (bounded_ty : Type_) (bounds : list TypeParamBound)
| PredOther (o : Opaque).

Inductive GenericParam : Type :=
| ParamLifetime (lt : string) | ParamType (ident : string) | ParamConst (o : Opaque).

Inductive FnArg : Type := FnTyped (pat : Opaque) (ty : Type_) | FnReceiver (o : Opaque).

Record ItemFn : Type := mkItemFn {
  asyncness : bool;
  fn_ident : string;
  generics : list GenericParam;
  where_clause : option (list WherePredicate);
  inputs : list FnArg;
  output : option Type_;
}.
End syntax.
Arguments TReference {Opaque}. Arguments TPath {Opaque}. Arguments TTuple {Opaque}.
Arguments TArray {Opaque}. Arguments TSlice {Opaque}. Arguments TParen {Opaque}.
Arguments TGroup {Opaque}. Arguments TOther {Opaque}.
Arguments BoundLifetime {Opaque}. Arguments BoundTrait {Opaque}. Arguments BoundOther {Opaque}.
Arguments PredLifetime {Opaque}. Arguments PredType {Opaque}. Arguments PredOther {Opaque}.
Arguments ParamLifetime {Opaque}. Arguments ParamType {Opaque}. Arguments ParamConst {Opaque}.
Arguments FnTyped {Opaque}. Arguments FnReceiver {Opaque}.
Arguments mkItemFn {Opaque}. Arguments asyncness {Opaque}. Arguments fn_ident {Opaque}.
Arguments generics {Opaque}. Arguments where_clause {Opaque}. Arguments inputs {Opaque}.
Arguments output {Opaque}.

Section expand.
Context {Opaque : Type}.
#[local] Abbreviation Ty := (Type_ Opaque).
#[local] Abbreviation Pred := (WherePredicate Opaque).
#[local] Abbreviation Fn := (ItemFn Opaque).
Implicit Types (ty : Ty) (lt : string).

(** ** Looking for a name *)

Definition any_arg (l : string → bool) (t : Ty → bool) (seg : PathSegment Opaque Ty) : bool :=
  match arguments seg with
  | AngleBracketed args =>
      existsb (λ a, match a with
                    | ArgLifetime lt => l lt
                    | ArgType ty => t ty
                    | ArgOther _ => false
                    end) args
  | _ => false
  end.

Fixpoint ty_contains_lifetime ty (target_lt : string) : bool :=
  match ty with
  | TReference lifetime _ elem =>
      (if lifetime is Some lt then String.eqb lt target_lt else false)
      || ty_contains_lifetime elem target_lt
  | TPath _ segments =>
      existsb (any_arg (λ lt, String.eqb lt target_lt)
                 (λ ty, ty_contains_lifetime ty target_lt)) segments
  | TTuple elems => existsb (λ ty, ty_contains_lifetime ty target_lt) elems
  | TArray elem _ | TSlice elem | TParen elem | TGroup elem =>
      ty_contains_lifetime elem target_lt
  | TOther _ => false
  end.

Definition ty_contains_lifetime_skip_outer_ref ty target_lt : bool :=
  match ty with
  | TReference _ _ elem => ty_contains_lifetime elem target_lt
  | _ => ty_contains_lifetime ty target_lt
  end.

Definition predicate_contains_lifetime (pred : Pred) (target_lt : string) : bool :=
  match pred with
  | PredLifetime lifetime bounds =>
      String.eqb lifetime target_lt || existsb (λ b, String.eqb b target_lt) bounds
  | PredType bounded_ty bounds =>
      ty_contains_lifetime bounded_ty target_lt
      || existsb (λ b, match b with
                       | BoundLifetime lt => String.eqb lt target_lt
                       | BoundTrait path =>
                           existsb (any_arg (λ lt, String.eqb lt target_lt) (λ _, false)) path
                       | BoundOther _ => false
                       end) bounds
  | PredOther _ => false
  end.

Definition predicate_is_lifetime_related (pred : Pred) (target_lt : string) : bool :=
  match pred with
  | PredLifetime _ _ => predicate_contains_lifetime pred target_lt
  | _ => false
  end.

Definition collect_used_lifetimes (types : list Ty) (all_lifetimes : list string) :
    list string :=
  List.filter (λ lt, existsb (λ ty, ty_contains_lifetime ty lt) types) all_lifetimes.

Definition pred_uses_lifetime (lt : string) (pred : Pred) : bool :=
  match pred with
  | PredType bounded_ty bounds =>
      ty_contains_lifetime_skip_outer_ref bounded_ty lt
      || existsb (λ b, match b with
                       | BoundLifetime l => String.eqb l lt
                       | BoundTrait path => ty_contains_lifetime (TPath None path) lt
                       | BoundOther _ => false
                       end) bounds
  | _ => false
  end.

Definition collect_used_lifetimes_from_where (preds : list Pred) (all_lifetimes : list string) :
    list string :=
  List.filter (λ lt, existsb (pred_uses_lifetime lt) preds) all_lifetimes.

(** A type parameter is the last segment of a path. *)
Fixpoint ty_contains_type_param ty (target : string) : bool :=
  match ty with
  | TPath _ segments =>
      (if last segments is Some seg then String.eqb (seg_ident seg) target else false)
      || existsb (any_arg (λ lt, String.eqb lt target)
                    (λ ty, ty_contains_type_param ty target)) segments
  | TReference _ _ elem | TSlice elem => ty_contains_type_param elem target
  | TTuple elems => existsb (λ ty, ty_contains_type_param ty target) elems
  | _ => false
  end.

Definition predicate_contains_type_param (pred : Pred) (target : string) : bool :=
  match pred with
  | PredType bounded_ty bounds =>
      ty_contains_type_param bounded_ty target
      || existsb (λ b, match b with
                       | BoundTrait path =>
                           existsb (λ seg, String.eqb (seg_ident seg) target
                             || any_arg (λ _, false) (λ ty, ty_contains_type_param ty target) seg)
                             path
                       | _ => false
                       end) bounds
  | PredLifetime lifetime bounds =>
      String.eqb lifetime target || existsb (λ b, String.eqb b target) bounds
  | PredOther _ => false
  end.

(** ** Rewriting lifetimes *)

Definition map_args (l : string → string) (t : Ty → Ty) (seg : PathSegment Opaque Ty) :
    PathSegment Opaque Ty :=
  Segment (seg_ident seg)
    (match arguments seg with
     | AngleBracketed args =>
         AngleBracketed (map (λ a, match a with
                                   | ArgLifetime lt => ArgLifetime (l lt)
                                   | ArgType ty => ArgType (t ty)
                                   | ArgOther o => ArgOther o
                                   end) args)
     | other => other
     end).

Fixpoint transform_type_outer_lifetime_inner ty (new_lt : string) (is_outermost : bool) : Ty :=
  match ty with
  | TReference lifetime m elem =>
      TReference (if is_outermost then Some new_lt else lifetime) m
        (transform_type_outer_lifetime_inner elem new_lt false)
  | TTuple elems =>
      TTuple (map (λ ty, transform_type_outer_lifetime_inner ty new_lt false) elems)
  | TArray elem len => TArray (transform_type_outer_lifetime_inner elem new_lt false) len
  | TSlice elem => TSlice (transform_type_outer_lifetime_inner elem new_lt false)
  | TParen elem => TParen (transform_type_outer_lifetime_inner elem new_lt is_outermost)
  | TGroup elem => TGroup (transform_type_outer_lifetime_inner elem new_lt is_outermost)
  | TPath qself segments =>
      TPath qself
        (map (map_args (λ lt, lt)
                (λ ty, transform_type_outer_lifetime_inner ty new_lt false)) segments)
  | TOther o => TOther o
  end.
Definition transform_type_outer_lifetime ty (new_lt : string) : Ty :=
  transform_type_outer_lifetime_inner ty new_lt true.

(** The closure [is_user_lt] and what is done where it holds. *)
Definition is_user_lt (user_lifetimes : list string) (last_lt lt : string) : bool :=
  negb (String.eqb lt last_lt) && existsb (λ u, String.eqb u lt) user_lifetimes.
Definition unify_lt (user_lifetimes : list string) (last_lt lt : string) : string :=
  if is_user_lt user_lifetimes last_lt lt then last_lt else lt.

Fixpoint transform_output_lifetimes ty (user_lifetimes : list string) (last_lt : string) : Ty :=
  match ty with
  | TReference lifetime m elem =>
      TReference (unify_lt user_lifetimes last_lt <$> lifetime) m
        (transform_output_lifetimes elem user_lifetimes last_lt)
  | TTuple elems =>
      TTuple (map (λ ty, transform_output_lifetimes ty user_lifetimes last_lt) elems)
  | TArray elem len => TArray (transform_output_lifetimes elem user_lifetimes last_lt) len
  | TSlice elem => TSlice (transform_output_lifetimes elem user_lifetimes last_lt)
  | TParen elem => TParen (transform_output_lifetimes elem user_lifetimes last_lt)
  | TGroup elem => TGroup (transform_output_lifetimes elem user_lifetimes last_lt)
  | TPath qself segments =>
      TPath qself
        (map (map_args (unify_lt user_lifetimes last_lt)
                (λ ty, transform_output_lifetimes ty user_lifetimes last_lt)) segments)
  | TOther o => TOther o
  end.
(** ** The expansion *)

Definition where_static : list Pred := [PredLifetime "static" ["static"]].

Definition add_async_lifetime_bounds (preds : list Pred) (lifetimes : list string)
    (last_lt : string) : list Pred :=
  preds ++ map (λ lt, PredLifetime lt [last_lt])
             (List.filter (λ lt, negb (String.eqb lt last_lt)) lifetimes).

(** The parameters of a generated type: lifetimes, then types. *)
Definition build_generic_params (lifetimes type_params : list string) :
    list (GenericParam Opaque) :=
  map ParamLifetime lifetimes ++ map ParamType type_params.

(** The loop over the generic parameters; the last one is taken for the token's type. *)
Fixpoint split_generics (params : list (GenericParam Opaque)) :
    list string * list string * list string :=
  match params with
  | [] => ([], [], [])
  | param :: rest =>
      let '(generics_all, generics_no_cancel, lifetimes_all) := split_generics rest in
      match param with
      | ParamType ident =>
          (ident :: generics_all,
           if rest is [] then generics_no_cancel else ident :: generics_no_cancel,
           lifetimes_all)
      | ParamLifetime lt => (generics_all, generics_no_cancel, lt :: lifetimes_all)
      | ParamConst _ => (generics_all, generics_no_cancel, lifetimes_all)
      end
  end.

(** The checks on the type of the last argument: [&'last mut C]. *)
Definition check_cancel_type ty (generics_all : list string) (last_lt : string) : bool :=
  match ty with
  | TReference (Some lt_arg) true (TPath _ [seg]) =>
      String.eqb lt_arg last_lt && existsb (String.eqb (seg_ident seg)) generics_all
  | _ => false
  end.

(** The loop over the arguments: the rewritten types of all but the last, and the type
    of the last. *)
Fixpoint split_inputs (args : list (FnArg Opaque)) (generics_all : list string)
    (last_lt : string) : outcome (list Ty * option Ty) :=
  match args with
  | [] => Ret ([], None)
  | FnReceiver _ :: _ => Panic
  | [FnTyped _ ty] =>
      if check_cancel_type ty generics_all last_lt then Ret ([], Some ty) else Panic
  | FnTyped _ ty :: rest =>
      '(fields, cancel_type) ← split_inputs rest generics_all last_lt;
      Ret (transform_type_outer_lifetime ty last_lt :: fields, cancel_type)
  end.

(** What is generated.  [x_lifetimes] are the lifetime parameters of every item; the
    markers are fields of type [PhantomData<&'lt ()>]; [x_where_async] stands on the struct
    with the arguments, [x_where_future] on the future, [x_where_factory] on the factory. *)
Record Expansion : Type := mkExpansion {
  async_struct : string;
  future_struct : string;
  factory_trait : string;
  x_lifetimes : list string;
  generics_no_cancel : list string;
  generics_all : list string;
  fields : list Ty;
  markers : list string;
  x_where_async : list Pred;
  x_where_future : list Pred;
  x_where_factory : list Pred;
  cancel_type : Ty;
  output_ty : Ty;
}.

Definition async_generics (e : Expansion) : list (GenericParam Opaque) :=
  build_generic_params (x_lifetimes e) (generics_no_cancel e).
Definition future_generics (e : Expansion) : list (GenericParam Opaque) :=
  build_generic_params (x_lifetimes e) (generics_all e).

(** The macro; an argument of the attribute is [None] when it is not a plain identifier. *)
Definition gen_may_cancel_future (prefix_args : list (option string)) (f : Fn) :
    outcome Expansion :=
  match prefix_args, asyncness f, where_clause f, split_generics (generics f) with
  | [Some prefix], true, Some preds, (generics_all, generics_no_cancel, lifetimes_all) =>
      match last generics_all, last lifetimes_all with
      | Some cancel_type_param, Some last_lt =>
          let no_cancel := List.filter (λ pred,
            negb (predicate_contains_type_param pred cancel_type_param)
            && negb (predicate_is_lifetime_related pred last_lt)) preds in
          let no_cancel_no_lt_base := if no_cancel is [] then where_static else no_cancel in
          let no_lt_base :=
            List.filter (λ pred, negb (predicate_is_lifetime_related pred last_lt)) preds in
          '(types, cancel_type) ← split_inputs (inputs f) generics_all last_lt;
          match output f, cancel_type with
          | Some out, Some cancel_type =>
              let field_lifetimes := collect_used_lifetimes types lifetimes_all in
              let where_lifetimes := collect_used_lifetimes_from_where preds lifetimes_all in
              let contains l lt := existsb (String.eqb lt) l in
              let all_lifetimes := List.filter (λ lt,
                contains field_lifetimes lt || contains where_lifetimes lt) lifetimes_all in
              let where_only_lifetimes :=
                List.filter (λ lt, negb (contains field_lifetimes lt)) all_lifetimes in
              Ret (mkExpansion
                (prefix ++ "Async") (prefix ++ "Future") ("__" ++ prefix ++ "FutureFactory")
                all_lifetimes generics_no_cancel generics_all
                types where_only_lifetimes
                (add_async_lifetime_bounds no_cancel_no_lt_base all_lifetimes last_lt)
                (add_async_lifetime_bounds no_lt_base all_lifetimes last_lt)
                (add_async_lifetime_bounds no_lt_base all_lifetimes last_lt)
                (transform_type_outer_lifetime cancel_type last_lt)
                (transform_output_lifetimes out lifetimes_all last_lt))
          | _, _ => Panic
          end
      | _, _ => Panic
      end
  | _, _, _, _ => Panic
  end.
End expand.
Arguments Expansion : clear implicits.

(** ** What a type mentions *)

Section scope.
Context {Opaque : Type} (hidden : Opaque → list string).
#[local] Abbreviation Ty := (Type_ Opaque).
#[local] Abbreviation Pred := (WherePredicate Opaque).
#[local] Abbreviation Fn := (ItemFn Opaque).
Implicit Types (ty : Ty) (lt : string).

Definition lts_args (t : Ty → list string) (seg : PathSegment Opaque Ty) : list string :=
  match arguments seg with
  | NoArgs => []
  | AngleBracketed args =>
      concat (map (λ a, match a with
                        | ArgLifetime lt => [lt]
                        | ArgType ty => t ty
                        | ArgOther o => hidden o
                        end) args)
  | Parenthesized o => hidden o
  end.

(** Every lifetime that a type mentions, in order; [hidden] are those of a leaf. *)
Fixpoint lifetimes_of ty : list string :=
  match ty with
  | TReference lifetime _ elem => option_list lifetime ++ lifetimes_of elem
  | TPath qself segments =>
      match qself with Some q => lifetimes_of q | None => [] end
      ++ concat (map (lts_args lifetimes_of) segments)
  | TTuple elems => concat (map lifetimes_of elems)
  | TArray elem len => lifetimes_of elem ++ hidden len
  | TSlice elem | TParen elem | TGroup elem => lifetimes_of elem
  | TOther o => hidden o
  end.

Definition is_nil {A} (l : list A) : bool := if l is [] then true else false.

Definition plain_args (t : Ty → bool) (seg : PathSegment Opaque Ty) : bool :=
  match arguments seg with
  | NoArgs => true
  | AngleBracketed args =>
      forallb (λ a, match a with
                    | ArgLifetime _ => true
                    | ArgType ty => t ty
                    | ArgOther o => is_nil (hidden o)
                    end) args
  | Parenthesized o => is_nil (hidden o)
  end.

(** No lifetime where the macro does not look: in a leaf, in the type in front of a
    path, in the arguments of an [Fn] bound. *)
Fixpoint plain ty : bool :=
  match ty with
  | TReference _ _ elem => plain elem
  | TPath qself segments =>
      match qself with Some q => is_nil (lifetimes_of q) | None => true end
      && forallb (plain_args plain) segments
  | TTuple elems => forallb plain elems
  | TArray elem len => plain elem && is_nil (hidden len)
  | TSlice elem | TParen elem | TGroup elem => plain elem
  | TOther o => is_nil (hidden o)
  end.

(** ** Induction on types *)

Definition seg_all (P : Ty → Prop) (seg : PathSegment Opaque Ty) : Prop :=
  match arguments seg with
  | AngleBracketed args =>
      Forall (λ a, match a with ArgType ty => P ty | _ => True end) args
  | _ => True
  end.

Lemma type_nested_ind (P : Ty → Prop) :
  (∀ l m elem, P elem → P (TReference l m elem)) →
  (∀ qself segs, Forall (seg_all P) segs → P (TPath qself segs)) →
  (∀ elems, Forall P elems → P (TTuple elems)) →
  (∀ elem len, P elem → P (TArray elem len)) →
  (∀ elem, P elem → P (TSlice elem)) →
  (∀ elem, P elem → P (TParen elem)) →
  (∀ elem, P elem → P (TGroup elem)) →
  (∀ o, P (TOther o)) →
  ∀ ty, P ty.
Proof.
  intros HR HP HT HA HS HPa HG HO. fix IH 1. intros [lt m e|q segs|es|e n|e|e|e|o].
  - apply HR, IH.
  - apply HP. induction segs as [|[i [|args|o]] segs IHs]; constructor; try exact IHs;
      unfold seg_all; simpl; try exact I.
    induction args as [|[l|t|o] args IHa]; constructor; try exact IHa; [exact I|apply IH|exact I].
  - apply HT. induction es as [|e es IHs]; constructor; [apply IH|exact IHs].
  - apply HA, IH.
  - apply HS, IH.
  - apply HPa, IH.
  - apply HG, IH.
  - apply HO.
Qed.

Lemma is_nil_true {A} (l : list A) : is_nil l = true → l = [].
Proof. by destruct l. Qed.

Lemma existsb_elem {A} (f : A → bool) (l : list A) : existsb f l = true ↔ ∃ x, x ∈ l ∧ f x = true.
Proof. rewrite existsb_exists. by setoid_rewrite list_elem_of_In. Qed.

Lemma existsb_eqb lt (l : list string) : existsb (String.eqb lt) l = true ↔ lt ∈ l.
Proof.
  rewrite existsb_elem. split.
  - by intros (x & Hx & ->%String.eqb_eq).
  - intros H. exists lt. by rewrite String.eqb_refl.
Qed.

Lemma elem_of_concat_map {A B} (f : A → list B) (l : list A) b :
  b ∈ concat (map f l) ↔ ∃ a, a ∈ l ∧ b ∈ f a.
Proof.
  induction l as [|a l IH]; simpl.
  - split; [by intros ?%not_elem_of_nil|by intros (? & ?%not_elem_of_nil & _)].
  - rewrite elem_of_app, IH. split.
    + intros [H|(x & Hx & H)]; [exists a|exists x]; split; auto; rewrite elem_of_cons; auto.
    + intros (x & [-> | Hx]%elem_of_cons & H); eauto.
Qed.

(** What the macro finds in a path is what it finds in its segments. *)
Lemma contains_sound ty lt : ty_contains_lifetime ty lt = true → lt ∈ lifetimes_of ty.
Proof.
  induction ty as [l m e IH|q segs IH|es IH|e n IH|e IH|e IH|e IH|o] using type_nested_ind;
    simpl; auto; try done.
  - rewrite orb_true_iff, elem_of_app. intros [H|H]; [left|right; by apply IH].
    destruct l as [l|]; [|done]. apply String.eqb_eq in H as ->. by apply list_elem_of_singleton.
  - rewrite existsb_elem, elem_of_app, elem_of_concat_map. intros (seg & Hin & H). right.
    exists seg. split; [done|]. rewrite Forall_forall in IH. specialize (IH seg Hin).
    revert H IH. unfold any_arg, lts_args, seg_all. destruct (arguments seg) as [|args|]; try done.
    rewrite existsb_elem, elem_of_concat_map, Forall_forall. intros (a & Ha & H) IH.
    exists a. split; [done|]. specialize (IH a Ha). destruct a as [l|ty|]; [|by apply IH|done].
    apply String.eqb_eq in H as ->. by apply list_elem_of_singleton.
  - rewrite existsb_elem, elem_of_concat_map. intros (t & Hin & H). exists t.
    rewrite Forall_forall in IH. split; [done|]. by apply IH.
  - rewrite elem_of_app. intros H. left. by apply IH.
Qed.

Lemma forallb_elem {A} (f : A → bool) (l : list A) x : forallb f l = true → x ∈ l → f x = true.
Proof. rewrite forallb_forall. setoid_rewrite <-list_elem_of_In. auto. Qed.

Lemma contains_complete ty lt :
  plain ty = true → lt ∈ lifetimes_of ty → ty_contains_lifetime ty lt = true.
Proof.
  induction ty as [l m e IH|q segs IH|es IH|e n IH|e IH|e IH|e IH|o] using type_nested_ind;
    simpl; auto; rewrite ?andb_true_iff, ?elem_of_app, ?orb_true_iff, ?existsb_elem,
    ?elem_of_concat_map.
  - intros Hp [H|H]; [left|right; by apply IH]. destruct l as [l|]; simpl in H.
    + apply list_elem_of_singleton in H as ->. apply String.eqb_refl.
    + by apply not_elem_of_nil in H.
  - intros [Hq Hp] [H|(seg & Hin & H)].
    { destruct q as [q|]; [apply is_nil_true in Hq; rewrite Hq in H|]; by apply not_elem_of_nil in H. }
    exists seg. split; [done|]. rewrite Forall_forall in IH. specialize (IH seg Hin).
    apply (forallb_elem _ _ seg) in Hp; [|done]. revert H IH Hp.
    unfold any_arg, lts_args, seg_all, plain_args. destruct (arguments seg) as [|args|o].
    + by intros ?%not_elem_of_nil.
    + rewrite existsb_elem, elem_of_concat_map, Forall_forall. intros (a & Ha & H) IH Hp.
      exists a. split; [done|]. apply (forallb_elem _ _ a) in Hp; [|done]. specialize (IH a Ha).
      destruct a as [l|ty|o]; [|by apply IH|].
      * apply list_elem_of_singleton in H as ->. apply String.eqb_refl.
      * apply is_nil_true in Hp. rewrite Hp in H. by apply not_elem_of_nil in H.
    + intros H _ Hp. apply is_nil_true in Hp. rewrite Hp in H. by apply not_elem_of_nil in H.
  - intros Hp (t & Hin & H). exists t. rewrite Forall_forall in IH. split; [done|].
    apply IH; auto. by eapply forallb_elem.
  - intros [Hp Hn] [H|H]; [by apply IH|]. apply is_nil_true in Hn. rewrite Hn in H.
    by apply not_elem_of_nil in H.
  - intros Hn H. apply is_nil_true in Hn. rewrite Hn in H. by apply not_elem_of_nil in H.
Qed.

(** ** The rewritings *)

Lemma map_fixes {A} (f : A → A) (l : list A) : Forall (λ x, f x = x) l → map f l = l.
Proof. induction 1 as [|x l Hx _ IH]; simpl; [done|]. by rewrite Hx, IH. Qed.

Lemma map_args_id (t : Ty → Ty) seg :
  seg_all (λ ty, t ty = ty) seg → map_args (λ lt, lt) t seg = seg.
Proof.
  unfold seg_all, map_args. destruct seg as [i [|args|o]]; simpl; try done.
  intros H. do 2 f_equal. apply map_fixes. eapply Forall_impl; [exact H|].
  by intros [l|ty|o] E; [|rewrite E|].
Qed.

(** Below the outermost reference nothing is rewritten. *)
Lemma transform_inner_id ty new_lt : transform_type_outer_lifetime_inner ty new_lt false = ty.
Proof.
  induction ty as [l m e IH|q segs IH|es IH|e n IH|e IH|e IH|e IH|o] using type_nested_ind;
    simpl; rewrite ?IH; try done; f_equal; apply map_fixes; [|done].
  eapply Forall_impl; [exact IH|]. intros seg. apply map_args_id.
Qed.

(** What [transform_type_outer_lifetime] comes to. *)
Fixpoint set_outer ty (new_lt : string) : Ty :=
  match ty with
  | TReference _ m elem => TReference (Some new_lt) m elem
  | TParen elem => TParen (set_outer elem new_lt)
  | TGroup elem => TGroup (set_outer elem new_lt)
  | _ => ty
  end.

Lemma transform_outer_eq ty new_lt : transform_type_outer_lifetime ty new_lt = set_outer ty new_lt.
Proof.
  unfold transform_type_outer_lifetime.
  induction ty as [l m e IH|q segs IH|es IH|e n IH|e IH|e IH|e IH|o] using type_nested_ind;
    simpl; rewrite ?transform_inner_id, ?IH; try done.
  - f_equal. apply map_fixes. apply Forall_forall. intros seg _. apply map_args_id.
    unfold seg_all. destruct (arguments seg) as [|args|]; try done.
    apply Forall_forall. intros [|ty|] _; try done. apply transform_inner_id.
  - f_equal. apply map_fixes. apply Forall_forall. intros. apply transform_inner_id.
Qed.

Lemma plain_set_outer ty new_lt : plain (set_outer ty new_lt) = plain ty.
Proof. by induction ty. Qed.

Lemma lifetimes_set_outer ty new_lt lt :
  lt ∈ lifetimes_of (set_outer ty new_lt) → lt = new_lt ∨ lt ∈ lifetimes_of ty.
Proof.
  induction ty; simpl; auto. rewrite elem_of_cons, elem_of_app. intros [H|H]; auto.
Qed.

(** An output type mentions what it did, with the user's lifetimes unified. *)
Lemma lifetimes_output ty user last_lt :
  plain ty = true →
  lifetimes_of (transform_output_lifetimes ty user last_lt) =
    map (unify_lt user last_lt) (lifetimes_of ty).
Proof.
  induction ty as [l m e IH|q segs IH|es IH|e n IH|e IH|e IH|e IH|o] using type_nested_ind;
    simpl; rewrite ?andb_true_iff; auto.
  - intros Hp. rewrite map_app, IH by done. by destruct l.
  - intros [Hq Hp]. rewrite map_app. f_equal.
    { destruct q as [q|]; [|done]. apply is_nil_true in Hq. by rewrite Hq. }
    rewrite concat_map, !map_map. f_equal. apply map_ext_in. intros seg Hin%list_elem_of_In.
    rewrite Forall_forall in IH. specialize (IH seg Hin).
    apply (forallb_elem _ _ seg) in Hp; [|done]. revert IH Hp.
    unfold lts_args, seg_all, plain_args. destruct seg as [i [|args|o]]; simpl; try done.
    + intros IH Hp. rewrite concat_map, !map_map. f_equal. apply map_ext_in.
      intros a Ha%list_elem_of_In. rewrite Forall_forall in IH. specialize (IH a Ha).
      apply (forallb_elem _ _ a) in Hp; [|done]. destruct a as [l|ty|o]; [done|by apply IH|].
      apply is_nil_true in Hp. simpl. by rewrite Hp.
    + intros _ Hp. apply is_nil_true in Hp. by rewrite Hp.
  - intros Hp. rewrite concat_map, !map_map. f_equal. apply map_ext_in.
    intros t Hin%list_elem_of_In. rewrite Forall_forall in IH. apply IH; [done|].
    by eapply forallb_elem.
  - intros [Hp Hn]. apply is_nil_true in Hn. rewrite Hn, !app_nil_r. by apply IH.
  - intros Hn. apply is_nil_true in Hn. by rewrite Hn.
Qed.
(** ** Where lifetimes are declared *)

Definition bound_lts (b : TypeParamBound Opaque) : list string :=
  match b with
  | BoundLifetime lt => [lt]
  | BoundTrait path => lifetimes_of (TPath None path)
  | BoundOther o => hidden o
  end.
Definition pred_lts (pred : Pred) : list string :=
  match pred with
  | PredLifetime lifetime bounds => lifetime :: bounds
  | PredType ty bounds => lifetimes_of ty ++ concat (map bound_lts bounds)
  | PredOther o => hidden o
  end.

(** Every lifetime that the generated items mention. *)
Definition mentioned (e : Expansion Opaque) : list string :=
  concat (map lifetimes_of (fields e))
  ++ concat (map pred_lts (x_where_async e ++ x_where_future e ++ x_where_factory e))
  ++ lifetimes_of (cancel_type e) ++ lifetimes_of (output_ty e).

(** A clause that the macro can carry over: a lifetime is compared with the last one, and
    what is bounded is not itself a reference. *)
Definition clause_ok (last_lt : string) (pred : Pred) : bool :=
  match pred with
  | PredLifetime _ _ => predicate_contains_lifetime pred last_lt
  | PredType ty bounds =>
      (if ty is TReference _ _ _ then false else plain ty)
      && forallb (λ b, match b with
                       | BoundLifetime _ => true
                       | BoundTrait path => plain (TPath None path)
                       | BoundOther o => is_nil (hidden o)
                       end) bounds
  | PredOther o => is_nil (hidden o)
  end.

Definition declared (f : Fn) : list string := (split_generics (generics f)).2.
Definition arg_types (f : Fn) : list Ty :=
  omap (λ a, match a with FnTyped _ ty => Some ty | FnReceiver _ => None end) (inputs f).

(** The rules of use of the README, 0 to 3: an [async fn]; a last lifetime; a last argument
    [&'last mut C] with [C] the last type parameter; and a where clause that bounds [C] by
    [TrCancellationToken]. *)
Definition token_path (C : string) : Ty := TPath None [Segment C NoArgs].
Record readme_rules (f : Fn) (preds : list Pred) (last_lt C : string) : Prop := {
  rule_0 : asyncness f = true;
  rule_1 : last (declared f) = Some last_lt;
  rule_2 : last (split_generics (generics f)).1.1 = Some C ∧
    last (arg_types f) = Some (TReference (Some last_lt) true (token_path C));
  rule_3 : where_clause f = Some preds ∧
    ∃ bounds path, PredType (token_path C) bounds ∈ preds ∧ BoundTrait path ∈ bounds ∧
      seg_ident <$> last path = Some "TrCancellationToken";
}.

(** What the rules do not say: the function is free standing and has a return type; no
    lifetime hides where the macro does not look (function pointers, trait objects and the
    like); a clause on a lifetime names the last one, and no clause bounds a reference. *)
Record spelled_out (f : Fn) (preds : list Pred) (out : Ty) (last_lt : string) : Prop := {
  sp_free : Forall (λ a : FnArg Opaque, if a is FnTyped _ _ then True else False) (inputs f);
  sp_output : output f = Some out;
  sp_args : Forall (λ ty, plain ty = true) (arg_types f);
  sp_plain : plain out = true;
  sp_static : "static" ∉ declared f;
  sp_clauses : forallb (clause_ok last_lt) preds = true;
}.

(** An argument before the token mentions the last lifetime once its outer reference is
    unified, or a bound does. *)
Definition last_used (f : Fn) (preds : list Pred) (last_lt : string) : Prop :=
  Exists (λ ty, last_lt ∈ lifetimes_of (set_outer ty last_lt)) (removelast (arg_types f))
  ∨ existsb (pred_uses_lifetime last_lt) preds = true.

Lemma split_inputs_spec args gens last_lt types tok :
  split_inputs args gens last_lt = Ret (types, Some tok) →
  ∃ tys, omap (λ a : FnArg Opaque, match a with FnTyped _ ty => Some ty | FnReceiver _ => None end)
           args = tys ++ [tok] ∧
    types = map (λ ty, set_outer ty last_lt) tys ∧
    check_cancel_type tok gens last_lt = true.
Proof.
  revert types. induction args as [|[pat ty|o] args IH]; simpl; intros types H; try done.
  destruct args as [|a args].
  - destruct (check_cancel_type ty gens last_lt) eqn:E; [|done]. simplify_eq.
    by exists [].
  - destruct (split_inputs (a :: args) gens last_lt) as [[fs c]|] eqn:E; [|done].
    simpl in H. simplify_eq. destruct (IH fs eq_refl) as (tys & Ho & -> & Hc).
    exists (ty :: tys). rewrite <-app_comm_cons, <-Ho. split_and!; [done| |done].
    simpl. by rewrite transform_outer_eq.
Qed.

(** Free standing functions with the token last are accepted. *)
Lemma split_inputs_ret args gens last_lt tok :
  Forall (λ a : FnArg Opaque, if a is FnTyped _ _ then True else False) args →
  last (omap (λ a : FnArg Opaque, match a with FnTyped _ ty => Some ty | FnReceiver _ => None end)
          args) = Some tok →
  check_cancel_type tok gens last_lt = true →
  ∃ types, split_inputs args gens last_lt = Ret (types, Some tok).
Proof.
  intros Hf Hl Hc. induction Hf as [|[pat ty|o] args Ha Hf IH]; simpl in *; [done| |done].
  destruct args as [|a args].
  - injection Hl as <-. rewrite Hc. by eexists.
  - destruct IH as [types ->].
    + inversion Hf as [|[? ty'|?] ? Ha' ?]; subst; [|done]. exact Hl.
    + by eexists.
Qed.

Lemma filter_elem {A} (f : A → bool) (l : list A) x :
  x ∈ List.filter f l ↔ x ∈ l ∧ f x = true.
Proof. rewrite !list_elem_of_In. apply filter_In. Qed.

(** The lifetimes of a clause that may be kept are collected, or are the last one. *)
Lemma clause_lts last_lt pred lt :
  clause_ok last_lt pred = true → predicate_is_lifetime_related pred last_lt = false →
  lt ∈ pred_lts pred → pred_uses_lifetime lt pred = true.
Proof.
  destruct pred as [l bs|ty bounds|o]; simpl.
  - intros H1 H2. by rewrite H1 in H2.
  - rewrite andb_true_iff, elem_of_app, orb_true_iff. intros [Ht Hb] _ [H|H].
    + left. unfold ty_contains_lifetime_skip_outer_ref. destruct ty; try done; by apply contains_complete.
    + right. apply elem_of_concat_map in H as (b & Hin & H). apply existsb_elem.
      exists b. split; [done|]. apply (forallb_elem _ _ b) in Hb; [|done].
      destruct b as [l|path|o]; simpl in H.
      * apply list_elem_of_singleton in H as ->. apply String.eqb_refl.
      * by apply (contains_complete (TPath None path)).
      * apply is_nil_true in Hb. rewrite Hb in H. by apply not_elem_of_nil in H.
  - intros Hn _ H. apply is_nil_true in Hn. rewrite Hn in H. by apply not_elem_of_nil in H.
Qed.
Lemma elem_of_bounds (pred : Pred) preds lts last_lt :
  pred ∈ add_async_lifetime_bounds preds lts last_lt ↔
    pred ∈ preds ∨ ∃ lt, lt ∈ lts ∧ lt ≠ last_lt ∧ pred = PredLifetime lt [last_lt].
Proof.
  unfold add_async_lifetime_bounds. rewrite elem_of_app. f_equiv.
  rewrite list_elem_of_In, in_map_iff. setoid_rewrite <-list_elem_of_In.
  setoid_rewrite filter_elem. setoid_rewrite negb_true_iff. setoid_rewrite String.eqb_neq.
  split; intros (lt & ?); exists lt; intuition.
Qed.

Lemma elem_of_or_static (pred : Pred) preds :
  pred ∈ (if preds is [] then where_static else preds) →
  pred = PredLifetime "static" ["static"] ∨ pred ∈ preds.
Proof. destruct preds; [|by right]. intros H%list_elem_of_singleton. by left. Qed.

Lemma sublist_filter {A} (f : A → bool) (l : list A) : List.filter f l `sublist_of` l.
Proof. induction l as [|x l IH]; simpl; [done|]. destruct (f x); by constructor. Qed.

(** What a successful expansion has done. *)
Lemma expand_inv prefix f preds out last_lt e :
  gen_may_cancel_future prefix f = Ret e →
  where_clause f = Some preds → output f = Some out → last (declared f) = Some last_lt →
  ∃ tys tok cparam,
    arg_types f = tys ++ [tok] ∧ check_cancel_type tok (generics_all e) last_lt = true ∧
    last (generics_all e) = Some cparam ∧
    fields e = map (λ ty, set_outer ty last_lt) tys ∧
    cancel_type e = set_outer tok last_lt ∧
    output_ty e = transform_output_lifetimes out (declared f) last_lt ∧
    (∀ lt, lt ∈ x_lifetimes e ↔ lt ∈ declared f ∧
       (existsb (λ ty, ty_contains_lifetime ty lt) (fields e) = true
        ∨ existsb (pred_uses_lifetime lt) preds = true)) ∧
    (∀ pred, pred ∈ x_where_async e ++ x_where_future e ++ x_where_factory e →
       pred = PredLifetime "static" ["static"]
       ∨ (pred ∈ preds ∧ predicate_is_lifetime_related pred last_lt = false)
       ∨ ∃ lt, lt ∈ x_lifetimes e ∧ lt ≠ last_lt ∧ pred = PredLifetime lt [last_lt]) ∧
    (∀ lt w, lt ∈ x_lifetimes e → lt ≠ last_lt →
       w ∈ [x_where_async e; x_where_future e; x_where_factory e] →
       PredLifetime lt [last_lt] ∈ w) ∧
    x_lifetimes e `sublist_of` declared f.
Proof.
  unfold gen_may_cancel_future, declared. intros H Hw Ho Hl.
  destruct prefix as [|[prefix|] [|]]; try done. destruct (asyncness f); [|done].
  rewrite Hw, Ho in H.
  destruct (split_generics (generics f)) as [[gens nocancel] lts]. simpl in *.
  destruct (last gens) as [cparam|] eqn:Hg; [|done]. rewrite Hl in H.
  destruct (split_inputs (inputs f) gens last_lt) as [[types [tok|]]|] eqn:Hs; try done.
  simpl in H. simplify_eq. simpl.
  apply split_inputs_spec in Hs as (tys & Ha & -> & Hc).
  exists tys, tok, cparam. split_and!; try done.
  - apply transform_outer_eq.
  - intros lt. unfold collect_used_lifetimes, collect_used_lifetimes_from_where.
    rewrite filter_elem, orb_true_iff, !existsb_eqb, !filter_elem. naive_solver.
  - intros pred. rewrite !elem_of_app, !elem_of_bounds.
    intros [[[?|H]%elem_of_or_static|H]|[[H|H]|[H|H]]]; auto; right; left;
      apply filter_elem in H as [H1 H2]; split; auto.
    + by apply andb_true_iff in H2 as [_ ->%negb_true_iff].
    + by apply negb_true_iff in H2.
    + by apply negb_true_iff in H2.
  - intros lt w Hin Hne Hw'. rewrite !elem_of_cons in Hw'.
    destruct Hw' as [-> |[-> |[-> |[]%not_elem_of_nil]]]; apply elem_of_bounds; eauto.
  - apply sublist_filter.
Qed.
Lemma last_in {A} (l : list A) x : last l = Some x → x ∈ l.
Proof. intros (l' & ->)%last_Some. apply elem_of_app. right. by apply list_elem_of_singleton. Qed.

Lemma unify_declared user last_lt lt l :
  lt = unify_lt user last_lt l → lt ∈ user → lt = last_lt.
Proof.
  unfold unify_lt, is_user_lt. intros -> . destruct (String.eqb_spec l last_lt) as [->|Hne]; [done|].
  simpl. destruct (existsb (λ u, String.eqb u l) user) eqn:E; [done|]. intros Hl.
  assert (existsb (λ u, String.eqb u l) user = true) as E'; [|by rewrite E' in E].
  apply existsb_elem. exists l. by rewrite String.eqb_refl.
Qed.

Lemma expansion_exists prefix f preds out last_lt C :
  readme_rules f preds last_lt C → spelled_out f preds out last_lt →
  ∃ e, gen_may_cancel_future [Some prefix] f = Ret e.
Proof.
  intros [Ha Hl [Hg Htok] [Hw _]] [Hfree Ho _ _ _ _]. unfold gen_may_cancel_future, declared in *.
  rewrite Ha, Hw, Ho. destruct (split_generics (generics f)) as [[gens nocancel] lts].
  simpl in *. rewrite Hg, Hl.
  destruct (split_inputs_ret (inputs f) gens last_lt _ Hfree Htok) as [types ->].
  - simpl. rewrite String.eqb_refl. apply existsb_elem. exists C.
    split; [by apply last_in|apply String.eqb_refl].
  - by eexists.
Qed.

(** Whatever is mentioned is declared, but for the last lifetime. *)
Lemma expansion_mentions prefix f preds out last_lt C e :
  last (declared f) = Some last_lt →
  last (arg_types f) = Some (TReference (Some last_lt) true (token_path C)) →
  where_clause f = Some preds → spelled_out f preds out last_lt →
  gen_may_cancel_future prefix f = Ret e →
  ∀ lt, lt ∈ mentioned e → lt ∈ declared f → lt ∈ x_lifetimes e ∨ lt = last_lt.
Proof.
  intros Hl Htok Hw [_ Ho Hargs Hout Hst Hcl] He.
  destruct (expand_inv _ _ _ _ _ _ He Hw Ho Hl)
    as (tys & tok & cp & Ha & Hc & Hcp & Hf & Ht & Hoe & Hx & Hpr & Hb & Hsub).
  rewrite Ha in Hargs, Htok. rewrite last_snoc in Htok. injection Htok as ->.
  apply Forall_app in Hargs as [Hargs _]. rewrite Forall_forall in Hargs.
  intros lt Hlt Hd. unfold mentioned in Hlt.
  rewrite !elem_of_app, !elem_of_concat_map in Hlt.
  destruct Hlt as [(ty & Hty & Hlt)|[(pred & Hp & Hlt)|[Hlt|Hlt]]].
  - left. apply Hx. split; [done|]. left. apply existsb_elem. exists ty. split; [done|].
    rewrite Hf in Hty. apply list_elem_of_In, in_map_iff in Hty as (ty' & <- & Hty).
    apply contains_complete; [|done]. rewrite plain_set_outer. by apply Hargs, list_elem_of_In.
  - destruct (Hpr pred Hp) as [->|[[Hin Hr]|(l & Hin & Hne & ->)]]; simpl in Hlt.
    + rewrite !elem_of_cons in Hlt. by destruct Hlt as [-> |[-> |[]%not_elem_of_nil]].
    + left. apply Hx. split; [done|]. right. apply existsb_elem. exists pred. split; [done|].
      eapply clause_lts; [|done|done]. by eapply forallb_elem.
    + rewrite !elem_of_cons in Hlt. destruct Hlt as [-> |[-> |[]%not_elem_of_nil]]; auto.
  - right. rewrite Ht in Hlt. simpl in Hlt. by apply list_elem_of_singleton in Hlt as ->.
  - right. rewrite Hoe, lifetimes_output in Hlt by done.
    apply list_elem_of_In, in_map_iff in Hlt as (l & <- & _).
    by apply (unify_declared (declared f) last_lt _ l eq_refl).
Qed.

(** The token's type mentions the last lifetime in any case; what declares it is an
    argument or a bound. *)
Theorem last_lifetime_declared prefix f preds out last_lt e :
  gen_may_cancel_future prefix f = Ret e →
  where_clause f = Some preds → output f = Some out → last (declared f) = Some last_lt →
  Forall (λ ty, plain ty = true) (arg_types f) →
  last_lt ∈ lifetimes_of (cancel_type e) ∧
  (last_lt ∈ x_lifetimes e ↔
     Exists (λ ty, last_lt ∈ lifetimes_of (set_outer ty last_lt)) (removelast (arg_types f))
     ∨ existsb (pred_uses_lifetime last_lt) preds = true).
Proof.
  intros He Hw Ho Hl Hp.
  destruct (expand_inv _ _ _ _ _ _ He Hw Ho Hl)
    as (tys & tok & cp & Ha & Hc & _ & Hf & Ht & _ & Hx & _).
  rewrite Ha in Hp |- *. rewrite removelast_last. apply Forall_app in Hp as [Hp _].
  rewrite Forall_forall in Hp. split.
  - rewrite Ht. destruct tok as [[l|] [] e'| | | | | | |]; try done. simpl. apply elem_of_cons. by left.
  - rewrite Hx, Hf, Exists_exists, existsb_elem. split.
    + intros [_ [(ty & (ty' & <- & Hin%list_elem_of_In)%list_elem_of_In%in_map_iff & H)|H]]; [left|by right].
      exists ty'. split; [done|]. by apply contains_sound.
    + intros H. split; [by apply last_in|]. destruct H as [(ty & Hin & H)|H]; [left|by right].
      exists (set_outer ty last_lt). split.
      * apply list_elem_of_In, in_map_iff. exists ty. by rewrite <-list_elem_of_In.
      * apply contains_complete; [|done]. rewrite plain_set_outer. by apply Hp.
Qed.
(** C20: The scope of the generated items.  For a function that follows the four rules of
    use of the README and that spells its types out (no receiver, a return type, no lifetime
    hidden in a function pointer or a trait object, no clause between two lifetimes other
    than the last, no bounded reference), the expansion exists.  It declares, in the order
    of the function, every lifetime of the function that it mentions anywhere (in the
    fields, the where clauses, the token and the output), the last one excepted: that one
    is declared exactly if an argument before the token or a bound mentions it, and the
    expansion is well scoped exactly then.  In every where clause each other lifetime is
    required to outlive the last. *)
Theorem expansion_scoped prefix f preds out last_lt C :
  readme_rules f preds last_lt C → spelled_out f preds out last_lt →
  ∃ e, gen_may_cancel_future [Some prefix] f = Ret e ∧
  (∀ lt, lt ∈ mentioned e → lt ∈ declared f → lt ∈ x_lifetimes e ∨ lt = last_lt) ∧
  x_lifetimes e `sublist_of` declared f ∧
  (last_lt ∈ x_lifetimes e ↔ last_used f preds last_lt) ∧
  ((∀ lt, lt ∈ mentioned e → lt ∈ declared f → lt ∈ x_lifetimes e) ↔
     last_used f preds last_lt) ∧
  (∀ lt w, lt ∈ x_lifetimes e → lt ≠ last_lt →
     w ∈ [x_where_async e; x_where_future e; x_where_factory e] → PredLifetime lt [last_lt] ∈ w).
Proof.
  intros Hr Hs. destruct (expansion_exists prefix _ _ _ _ _ Hr Hs) as [e He].
  exists e. split; [done|].
  destruct Hr as [_ Hl [_ Htok] [Hw _]]. pose proof Hs as [_ Ho Hp _ _ _].
  pose proof (expansion_mentions _ _ _ _ _ _ _ Hl Htok Hw Hs He) as Hm.
  destruct (last_lifetime_declared _ _ _ _ _ _ He Hw Ho Hl Hp) as [Hc Hlast].
  destruct (expand_inv _ _ _ _ _ _ He Hw Ho Hl) as (_&_&_&_&_&_&_&_&_&_&_& Hb & Hsub).
  split_and!; [done|done|done| |done]. fold (last_used f preds last_lt) in Hlast.
  rewrite <- Hlast. split.
  - intros Hall. apply Hall; [|by apply last_in]. unfold mentioned. rewrite !elem_of_app. auto.
  - intros Hin lt H1 H2. by destruct (Hm lt H1 H2) as [?| ->].
Qed.
End scope.

(** The function [do_thing_async] of the tests of [gen_mcf_test]. *)
Definition path1 (name : string) (args : list (GenericArgument unit (Type_ unit))) :
    Type_ unit :=
  TPath None [Segment name (if args is [] then NoArgs else AngleBracketed args)].
Definition bound1 (name : string) : TypeParamBound unit := BoundTrait [Segment name NoArgs].
Definition do_thing_async : ItemFn unit :=
  mkItemFn true "do_thing_async"
    [ParamLifetime "a"; ParamLifetime "b"; ParamLifetime "x"; ParamLifetime "c";
     ParamType "A"; ParamType "B"; ParamType "C"]
    (Some [PredLifetime "a" ["c"]; PredLifetime "b" ["c"]; PredLifetime "x" ["c"];
           PredType (path1 "A" []) [bound1 "Send"]; PredType (path1 "B" []) [bound1 "Sync"];
           PredType (path1 "C" []) [bound1 "TrCancellationToken"]])
    [FnTyped tt (TReference (Some "a") true (path1 "A" []));
     FnTyped tt (TReference (Some "b") true (path1 "B" []));
     FnTyped tt (path1 "usize" []);
     FnTyped tt (path1 "Iter" [ArgLifetime "x"; ArgType (path1 "A" [])]);
     FnTyped tt (TReference (Some "c") true (path1 "C" []))]
    (Some (path1 "usize" [])).

(** The path keeps its lifetime, the references have lost theirs. *)
Example do_thing_lifetimes :
  match gen_may_cancel_future [Some "DoThing"] do_thing_async with
  | Ret e => async_struct e = "DoThingAsync" ∧ x_lifetimes e = ["x"; "c"] ∧
             generics_no_cancel e = ["A"; "B"] ∧ markers e = []
  | Panic => False
  end.
Proof. by vm_compute. Qed.

Lemma expansion_scoped_witness :
  match gen_may_cancel_future [Some "DoThing"] do_thing_async with
  | Ret e => ∀ lt, lt ∈ mentioned (λ _ : unit, []) e → lt ∈ declared do_thing_async →
                   lt ∈ ["x"; "c"]
  | Panic => False
  end.
Proof.
  destruct (expansion_scoped (λ _ : unit, []) "DoThing" do_thing_async
    (default [] (where_clause do_thing_async)) (path1 "usize" []) "c" "C")
    as (e & He & _ & _ & _ & Hs & _).
  - split; try done. split; [done|].
    exists [bound1 "TrCancellationToken"], [Segment "TrCancellationToken" NoArgs].
    split; [|by split; [apply list_elem_of_singleton|]]. do 5 apply list_elem_of_further. apply list_elem_of_here.
  - split; try done; [by repeat constructor|by repeat constructor|by vm_compute; set_solver].
  - rewrite He. assert (Hx : x_lifetimes e = ["x"; "c"]) by (vm_compute in He; by injection He as <-).
    rewrite <- Hx. apply Hs. left. apply Exists_cons. left. vm_compute. set_solver.
Defined.

(** ** Where the rules do not help *)

(** By-value arguments only: the four rules are followed, and nothing declares the
    lifetime of the token. *)
Definition by_value : ItemFn unit :=
  mkItemFn true "add_async" [ParamLifetime "f"; ParamType "C"]
    (Some [PredType (path1 "C" []) [bound1 "TrCancellationToken"]])
    [FnTyped tt (path1 "usize" []); FnTyped tt (TReference (Some "f") true (path1 "C" []))]
    (Some (path1 "usize" [])).
Example by_value_follows :
  readme_rules by_value [PredType (path1 "C" []) [bound1 "TrCancellationToken"]] "f" "C".
Proof.
  split; try done. split; [done|].
  exists [bound1 "TrCancellationToken"], [Segment "TrCancellationToken" NoArgs].
  split; [|split]; [apply list_elem_of_here..|done].
Qed.
Example by_value_unscoped :
  match gen_may_cancel_future [Some "Add"] by_value with
  | Ret e => x_lifetimes e = [] ∧ lifetimes_of (λ _ : unit, []) (cancel_type e) = ["f"]
  | Panic => False
  end.
Proof. by vm_compute. Qed.

(** A clause between two other lifetimes survives the lifetimes. *)
Definition chained : ItemFn unit :=
  mkItemFn true "two_async"
    [ParamLifetime "a"; ParamLifetime "b"; ParamLifetime "f"; ParamType "C"]
    (Some [PredLifetime "a" ["b"]; PredLifetime "b" ["f"];
           PredType (path1 "C" []) [bound1 "TrCancellationToken"]])
    [FnTyped tt (TReference (Some "a") false (path1 "u8" []));
     FnTyped tt (TReference (Some "b") false (path1 "u8" []));
     FnTyped tt (TReference (Some "f") true (path1 "C" []))]
    (Some (path1 "usize" [])).
Example chained_unscoped :
  match gen_may_cancel_future [Some "Two"] chained with
  | Ret e => x_lifetimes e = ["f"] ∧ x_where_async e = [PredLifetime "a" ["b"]]
  | Panic => False
  end.
Proof. by vm_compute. Qed.

(** ** The generated future *)

Section future.
Context {Args Tok F Out : Type}.
(** The [async fn], which only makes its future, and the poll of that future. *)
Variables (async_fn : Args → Tok → F) (fpoll : F → F * option Out).

(** [MaybeUninit]: reading it moves the arguments out. *)
Inductive Slot : Type := Init (a : Args) | Moved.

Record GenFuture : Type := mkGenFuture {
  params_ : Slot;
  cancel_ : Tok;
  future_ : option F;
}.

Definition may_cancel_with (args : Args) (cancel : Tok) : GenFuture :=
  mkGenFuture (Init args) cancel None.
Definition into_future (non_cancellable : Tok) (args : Args) : GenFuture :=
  mkGenFuture (Init args) non_cancellable None.

(** [assume_init_read] of arguments that have been moved out is undefined behaviour: a
    [Panic] here. *)
Definition make_future (g : GenFuture) : outcome (GenFuture * F) :=
  match params_ g with
  | Init args => Ret (mkGenFuture Moved (cancel_ g) (future_ g), async_fn args (cancel_ g))
  | Moved => Panic
  end.

(** The loop of [poll]; [None] is out of fuel. *)
Fixpoint poll_loop (fuel : nat) (g : GenFuture) : option (outcome (GenFuture * option Out)) :=
  match fuel with
  | O => None
  | S fuel =>
      match future_ g with
      | Some fut =>
          let '(fut, r) := fpoll fut in
          Some (Ret (mkGenFuture (params_ g) (cancel_ g) (Some fut), r))
      | None =>
          match make_future g with
          | Ret (g, fut) => poll_loop fuel (mkGenFuture (params_ g) (cancel_ g) (Some fut))
          | Panic => Some Panic
          end
      end
  end.

(** Two rounds are enough. *)
Definition gen_poll (g : GenFuture) : option (outcome (GenFuture * option Out)) := poll_loop 2 g.

Fixpoint polls (n : nat) (g : GenFuture) : option (outcome (GenFuture * list (option Out))) :=
  match n with
  | O => Some (Ret (g, []))
  | S n =>
      match gen_poll g with
      | Some (Ret (g, r)) =>
          match polls n g with
          | Some (Ret (g, rs)) => Some (Ret (g, r :: rs))
          | other => other
          end
      | Some Panic => Some Panic
      | None => None
      end
  end.

(** The drop of the generated future drops [future_]; a [MaybeUninit] drops nothing. *)
Definition leaked (g : GenFuture) : option Args :=
  match params_ g with Init args => Some args | Moved => None end.

(** The same polls of the future of the [async fn]. *)
Fixpoint fn_polls (n : nat) (fut : F) : list (option Out) :=
  match n with
  | O => []
  | S n => let '(fut, r) := fpoll fut in r :: fn_polls n fut
  end.

Lemma polls_running n slot tok fut :
  ∃ fut', polls n (mkGenFuture slot tok (Some fut)) =
          Some (Ret (mkGenFuture slot tok (Some fut'), fn_polls n fut)).
Proof.
  revert fut. induction n as [|n IH]; intros fut; [by exists fut|].
  unfold polls; fold polls. unfold gen_poll. simpl. destruct (fpoll fut) as [fut1 r].
  destruct (IH fut1) as (fut' & ->). by exists fut'.
Qed.

(** C21: The generated future is the future of the [async fn].  However often it is polled,
    it answers what the future of the call with its arguments and its token would answer, and the
    arguments are moved out exactly once, by the first poll: a future dropped before
    it drops them nowhere. *)
Theorem generated_future_refines args cancel n :
  ∃ g, polls n (may_cancel_with args cancel) = Some (Ret (g, fn_polls n (async_fn args cancel))) ∧
    cancel_ g = cancel ∧
    leaked g = (if n is O then Some args else None).
Proof.
  destruct n as [|n]; [by exists (may_cancel_with args cancel)|].
  simpl. unfold gen_poll. simpl. destruct (fpoll (async_fn args cancel)) as [fut r].
  destruct (polls_running n Moved cancel fut) as (fut' & ->). by eexists.
Qed.
End future.
