(* ===== verification/Combin.v ===== *)
(** * Small combinators

    Models the parts of the abstract crates that are more than declarations: [OkOr] and
    [TrMayBreak] with [Completed] ([crates/abs_sync/src/ok_or.rs], [may_break.rs]), the
    two constant tokens ([crates/abs_cancel/src/cancellation.rs]), the view of a [str]
    by characters ([crates/abs_iter/src/iter_.rs]), [write_cloned_async] and the null device
    ([crates/abs_buff/src/io.rs]), and [TaggedError] ([crates/abs_buff/src/error.rs]). *)

From S2P Require Import Prelude CircEnds.

(** ** [OkOr]: the first of two futures *)

Section ok_or.
Context {F G A B : Type}.
(** The polls of the two futures; [None] is [Pending]. *)
Variables (poll_succ : F → F * option A) (poll_fail : G → G * option B).

Record OkOr : Type := mkOkOr { succ_ : F; fail_ : G; done_ : bool }.
Definition ok_or (succeed : F) (otherwise : G) : OkOr := mkOkOr succeed otherwise false.

Definition ok_or_poll (o : OkOr) : outcome (OkOr * option (A + B)) :=
  if done_ o then Panic
  else
    let '(f, x) := poll_succ (succ_ o) in
    match x with
    | Some x => Ret (mkOkOr f (fail_ o) true, Some (inl x))
    | None =>
        let '(g, e) := poll_fail (fail_ o) in
        match e with
        | Some e => Ret (mkOkOr f g true, Some (inr e))
        | None => Ret (mkOkOr f g false, None)
        end
    end.

(** The executor polls until the future is ready, at most [n] times. *)
Fixpoint ok_or_run (n : nat) (o : OkOr) : outcome (OkOr * option (A + B)) :=
  match n with
  | O => Ret (o, None)
  | S n => '(o, r) ← ok_or_poll o; if r is Some _ then Ret (o, r) else ok_or_run n o
  end.

(** The poll at which a future is ready, and with what. *)
Fixpoint ready {St X} (poll : St → St * option X) (n : nat) (s : St) : option (nat * X) :=
  match n with
  | O => None
  | S n =>
      let '(s, x) := poll s in
      match x with
      | Some x => Some (0%nat, x)
      | None => prod_map S id <$> ready poll n s
      end
  end.

(** The answer is that of the future that is ready first; a tie goes to the first one. *)
Definition race {X Y} (x : option (nat * X)) (y : option (nat * Y)) : option (X + Y) :=
  match x, y with
  | Some (i, x), Some (j, y) => Some (if (i <=? j)%nat then inl x else inr y)
  | Some (_, x), None => Some (inl x)
  | None, Some (_, y) => Some (inr y)
  | None, None => None
  end.

Lemma race_later {X Y} (x : option (nat * X)) (y : option (nat * Y)) :
  race (prod_map S id <$> x) (prod_map S id <$> y) = race x y.
Proof. by destruct x as [[i x]|], y as [[j y]|]. Qed.

Lemma ok_or_first n f g :
  ∃ o, ok_or_run n (ok_or f g) = Ret (o, race (ready poll_succ n f) (ready poll_fail n g)) ∧
    done_ o = bool_decide (race (ready poll_succ n f) (ready poll_fail n g) ≠ None).
Proof.
  revert f g. induction n as [|n IH]; intros f g; [by exists (ok_or f g)|].
  cbn [ok_or_run ready]. unfold ok_or_poll, ok_or in *. cbn [done_ succ_ fail_].
  destruct (poll_succ f) as [f' [x|]], (poll_fail g) as [g' [e|]]; cbn [mbind exec_bind].
  - eexists. split; [done|]. by rewrite bool_decide_true.
  - eexists. split; [simpl; by destruct (ready poll_fail n g') as [[]|]|]. rewrite bool_decide_true; [done|].
    simpl. by destruct (ready poll_fail n g') as [[]|].
  - eexists. split; [simpl; by destruct (ready poll_succ n f') as [[]|]|]. rewrite bool_decide_true; [done|].
    simpl. by destruct (ready poll_succ n f') as [[]|].
  - destruct (IH f' g') as (o & Ho & Hd). exists o. rewrite race_later. split; [exact Ho|exact Hd].
Qed.

(** A future that has answered must not be polled again. *)
Lemma ok_or_done_panics o : done_ o = true → ok_or_poll o = Panic.
Proof. unfold ok_or_poll. by intros ->. Qed.
End ok_or.
Arguments OkOr : clear implicits.

(** ** [TrMayBreak] *)

(** [branch] of the output, a [Try] type: the value or the early exit. *)
Definition wait_or {Out X R} (may_break_with : bool → Out) (branch : Out → X + R)
    (f : unit → X) : X :=
  match branch (may_break_with false) with inl x => x | inr _ => f tt end.

Definition completed_may_break_with {T} (value : T) (_ : bool) : T := value.

(** ** Tokens *)

Inductive const_token : Type := CancelledToken | NonCancellableToken.

Definition token_is_cancelled (t : const_token) : bool :=
  match t with CancelledToken => true | NonCancellableToken => false end.
Definition token_can_be_cancelled (t : const_token) : bool := false.
Definition token_child (t : const_token) : const_token := t.
(** [cancellation]: whether the future is ready. *)
Definition token_cancellation (t : const_token) : option unit :=
  match t with CancelledToken => Some tt | NonCancellableToken => None end.

(** The two ways to ask agree, for the token and for all its descendants. *)
Lemma token_consistent t n :
  let t' := Nat.iter n token_child t in
  token_is_cancelled t' = token_is_cancelled t ∧
  (token_cancellation t' = Some tt ↔ token_is_cancelled t = true) ∧
  token_can_be_cancelled t' = false.
Proof.
  assert (Nat.iter n token_child t = t) as ->.
  { induction n as [|n IH]; [done|]. simpl. by rewrite IH. }
  by destruct t.
Qed.

(** ** The view of a [str] *)

(** A [str] by its characters, each as the bytes that encode it; the bytes of the [str] are
    the concatenation.  [char_indices] gives the offset of each character. *)
Fixpoint char_indices (start : nat) (chars : list (list Z)) : list nat :=
  match chars with
  | [] => []
  | c :: chars => start :: char_indices (start + length c) chars
  end.

Definition slice (bytes : list Z) (start stop : nat) : list Z :=
  take (stop - start) (drop start bytes).

(** The iterator: the offset of this character to that of the next, or to the end. *)
Fixpoint items_loop (bytes : list Z) (idx : list nat) : list (list Z) :=
  match idx with
  | [] => []
  | start :: rest =>
      slice bytes start (if rest is stop :: _ then stop else length bytes)
      :: items_loop bytes rest
  end.
Definition items_ref_view (chars : list (list Z)) : list (list Z) :=
  items_loop (concat chars) (char_indices 0 chars).

Lemma items_loop_chars pre chars :
  items_loop (pre ++ concat chars) (char_indices (length pre) chars) = chars.
Proof.
  revert pre. induction chars as [|c chars IH]; intros pre; simpl; [done|].
  rewrite <-length_app. rewrite app_assoc. f_equal; [|apply IH].
  unfold slice. rewrite <-app_assoc, drop_app_length.
  destruct chars as [|c' chars]; simpl.
  - rewrite app_nil_r, length_app. by rewrite take_ge by lia.
  - rewrite length_app. replace (length pre + length c - length pre)%nat with (length c) by lia.
    by rewrite take_app_length.
Qed.

(** The items of a [str] are its characters, and together they are the [str]. *)
Lemma items_ref_view_chars chars : items_ref_view chars = chars.
Proof. apply (items_loop_chars [] chars). Qed.

(** ** Devices *)

(** [write_cloned_async]: what it hands to [write_async] of the device, for items of
    [size_of] bytes; the index of an empty slice panics. *)
Definition write_cloned_async {T} (size_of : Z) (source : list T) : outcome (list T) :=
  if size_of =? 0 then Ret []
  else match source with [] => Panic | _ => Ret source end.

Lemma write_cloned_async_spec {T} size_of (source : list T) :
  write_cloned_async size_of source =
    if decide (size_of = 0) then Ret [] else if decide (source = []) then Panic else Ret source.
Proof.
  unfold write_cloned_async. destruct (Z.eqb_spec size_of 0), source; repeat case_decide; done.
Qed.

(** The null device answers an error that ends every loop. *)
Inductive BlackholeIoError : Type := Blackhole.
Definition blackhole_read_tag (_ : BlackholeIoError) : ReadErrTag := RClosing.
Definition blackhole_write_tag (_ : BlackholeIoError) : WriteErrTag := WClosing.
Definition blackhole_io : option Z * option BlackholeIoError := (None, Some Blackhole).

Lemma blackhole_terminates e :
  read_should_terminate (blackhole_read_tag e) = true ∧
  write_should_terminate (blackhole_write_tag e) = true.
Proof. by destruct e. Qed.

(** ** [TaggedError] *)

Section tagged.
Context {E Tag : Type}.
Record TaggedError : Type := mkTagged { err_ : E; tag_ : Tag }.
Definition tagged_new (err : E) (tag : Tag) : TaggedError := mkTagged err tag.
Definition tagged_from (value : E * Tag) : TaggedError :=
  let '(err, tag) := value in mkTagged err tag.
Definition propagated_err (e : TaggedError) : result TaggedError E := Ok (err_ e).

Lemma tagged_roundtrip e : tagged_from (err_ e, tag_ e) = e ∧ propagated_err e = Ok (err_ e).
Proof. by destruct e. Qed.
End tagged.
