(* ===== verification/Words.v ===== *)
(** * Unsigned words of any width

    The locks are generic in the unsigned type [D] of their atomic cell; a word
    of [w] bits is a [Z] in [0 .. 2^w - 1].  This file has the operations of such
    a type that the locks use ([D::MAX], [!s], one bit), and what the single-bit
    idioms of the code ([s & K == K], [s | K], [s & !K]) do. *)

From S2P Require Import Prelude.

(** [D::MAX], [D::ONE << k] and [!s] at width [w]. *)
Definition word_max (w : Z) : Z := 2 ^ w - 1.
Definition word_bit (k : Z) : Z := Z.shiftl 1 k.
Definition word_not (w s : Z) : Z := Z.lxor s (word_max w).

Definition is_word (w s : Z) : Prop := 0 ≤ s < 2 ^ w.
#[export] Instance is_word_dec w s : Decision (is_word w s).
Proof. unfold is_word; apply _. Defined.

Section words.
Context (w : Z) (Hw : 0 ≤ w).

Lemma word_max_testbit n : 0 ≤ n → Z.testbit (word_max w) n = (n <? w).
Proof.
  intros. replace (word_max w) with (Z.ones w)
    by (rewrite Z.ones_equiv; unfold word_max; lia).
  destruct (Z.ltb_spec n w); [apply Z.ones_spec_low|apply Z.ones_spec_high]; lia.
Qed.

Lemma word_not_testbit s n :
  0 ≤ n → Z.testbit (word_not w s) n = xorb (Z.testbit s n) (n <? w).
Proof. intros. unfold word_not. by rewrite Z.lxor_spec, word_max_testbit. Qed.

Lemma is_word_testbit s n : is_word w s → w ≤ n → Z.testbit s n = false.
Proof.
  intros [Hs Hs'] Hn. destruct (decide (s = 0)) as [->|]; [apply Z.bits_0|].
  apply Z.bits_above_log2; [done|].
  apply Z.lt_le_trans with w; [|done]. apply Z.log2_lt_pow2; lia.
Qed.

Lemma word_bit_testbit k n : 0 ≤ k → Z.testbit (word_bit k) n = (n =? k).
Proof. apply testbit_shiftl_1. Qed.

(** [s & K == K]: the test of one bit. *)
Lemma word_bit_test s k :
  0 ≤ k → (Z.land s (word_bit k) =? word_bit k) = Z.testbit s k.
Proof.
  intros Hk. destruct (Z.testbit s k) eqn:E.
  - apply Z.eqb_eq, Z.bits_inj'. intros n Hn.
    rewrite Z.land_spec, word_bit_testbit by done.
    destruct (Z.eqb_spec n k) as [->|]; [by rewrite E|apply andb_false_r].
  - apply Z.eqb_neq. intros Heq.
    assert (Z.testbit (Z.land s (word_bit k)) k = true) as Hb
      by by rewrite Heq, word_bit_testbit, Z.eqb_refl by done.
    rewrite Z.land_spec, E in Hb. done.
Qed.

(** [s | K] sets the bit. *)
Lemma word_bit_set s k :
  0 ≤ k → Z.lor s (word_bit k) = s + (if Z.testbit s k then 0 else 2 ^ k).
Proof.
  intros Hk. pose proof (Z.add_lor_land s (word_bit k)) as Ha.
  pose proof (word_bit_test s k Hk) as Ht.
  unfold word_bit in *. rewrite Z.shiftl_1_l in *.
  destruct (Z.testbit s k) eqn:E.
  - apply Z.eqb_eq in Ht. lia.
  - replace (Z.land s (2 ^ k)) with 0 in Ha; [lia|]. symmetry.
    apply Z.bits_inj'. intros n Hn.
    rewrite Z.land_spec, Z.pow2_bits_eqb, Z.bits_0 by done.
    destruct (Z.eqb_spec k n) as [<-|]; [by rewrite E|apply andb_false_r].
Qed.

(** [s & !K] clears it. *)
Lemma word_bit_clear s k :
  0 ≤ k < w → is_word w s →
  Z.land s (word_not w (word_bit k)) = s - (if Z.testbit s k then 2 ^ k else 0).
Proof.
  intros Hk Hs.
  assert (Z.land s (word_not w (word_bit k)) + Z.land s (word_bit k) = s) as Ha.
  { rewrite Z.add_nocarry_lxor.
    - apply Z.bits_inj'. intros n Hn.
      rewrite Z.lxor_spec, !Z.land_spec, word_not_testbit, word_bit_testbit by lia.
      destruct (Z.ltb_spec n w), (Z.eqb_spec n k); try lia;
        rewrite ?(is_word_testbit s n) by done; by destruct (Z.testbit s n).
    - apply Z.bits_inj'. intros n Hn.
      rewrite !Z.land_spec, word_not_testbit, word_bit_testbit, Z.bits_0 by lia.
      destruct (Z.ltb_spec n w), (Z.eqb_spec n k); try lia;
        by destruct (Z.testbit s n). }
  pose proof (word_bit_test s k ltac:(lia)) as Ht.
  unfold word_bit in *. rewrite Z.shiftl_1_l in *.
  destruct (Z.testbit s k) eqn:E.
  - apply Z.eqb_eq in Ht. lia.
  - replace (Z.land s (2 ^ k)) with 0 in Ha; [lia|]. symmetry.
    apply Z.bits_inj'. intros n Hn.
    rewrite Z.land_spec, Z.pow2_bits_eqb, Z.bits_0 by lia.
    destruct (Z.eqb_spec k n) as [<-|]; [by rewrite E|apply andb_false_r].
Qed.

(** Setting a clear bit, then clearing it. *)
Lemma word_bit_set_clear s k :
  0 ≤ k < w → is_word w s → Z.testbit s k = false →
  Z.land (Z.lor s (word_bit k)) (word_not w (word_bit k)) = s.
Proof.
  intros Hk Hs Hbit. apply Z.bits_inj'. intros n Hn.
  rewrite Z.land_spec, Z.lor_spec, word_not_testbit, word_bit_testbit by lia.
  destruct (Z.eqb_spec n k) as [->|]; rewrite ?Hbit.
  - by destruct (Z.ltb_spec k w); [|lia].
  - rewrite orb_false_r. destruct (Z.ltb_spec n w); simpl; [apply andb_true_r|].
    by rewrite (is_word_testbit s n).
Qed.
End words.
