(* ===== verification/RwWord.v ===== *)
(** * [atomic_sync]: the state word of the reader/writer lock

    Models [RwLockState] ([crates/atomic_sync/src/rwlock/preemptive/rwlock_.rs]):
    one word with a writer bit, a writer-queued bit, an upgrade bit and the count
    of readers, and the operations that update it.  Each operation is one spin
    loop of [Atomex.v], so by its refinement one [rmw] of the word; [try_write]
    is two.  The lemmas give the effect of every operation on the four fields. *)

From S2P Require Import Prelude Atomex Words.

Section state.
(** [D::BITS]. *)
Context (w : Z).

Definition K_WRITER_ACTIVE : Z := word_bit (w - 1).
Definition K_WRITER_QUEUED : Z := word_bit (w - 2).
Definition K_UPGRADE_ACTIVE : Z := word_bit (w - 3).
Definition K_MAX_READER_COUNT : Z := Z.shiftr (word_max w) 3.

Definition try_spin_update_ (expect : Z → bool) (desire : Z → Z) (s : Z) :
    result Z Z * Z :=
  let '(r, s') := rmw expect desire s in (to_result r, s').

Definition expect_writer_active (s : Z) : bool :=
  Z.land s K_WRITER_ACTIVE =? K_WRITER_ACTIVE.
Definition expect_writer_inactive (s : Z) : bool := negb (expect_writer_active s).
Definition desire_writer_active (s : Z) : Z := Z.lor s K_WRITER_ACTIVE.
Definition desire_writer_inactive (s : Z) : Z := Z.land s (word_not w K_WRITER_ACTIVE).

Definition expect_writer_queued (s : Z) : bool :=
  Z.land s K_WRITER_QUEUED =? K_WRITER_QUEUED.
Definition expect_writer_not_queued (s : Z) : bool := negb (expect_writer_queued s).
Definition desire_writer_queued (s : Z) : Z := Z.lor s K_WRITER_QUEUED.
Definition desire_writer_not_queued (s : Z) : Z :=
  Z.land s (word_not w K_WRITER_QUEUED).

Definition expect_upgrade_active (s : Z) : bool :=
  Z.land s K_UPGRADE_ACTIVE =? K_UPGRADE_ACTIVE.
Definition expect_upgrade_inactive (s : Z) : bool := negb (expect_upgrade_active s).
Definition desire_upgrade_inactive (s : Z) : Z :=
  Z.land s (word_not w K_UPGRADE_ACTIVE).
Definition desire_upgrade_active (s : Z) : Z := Z.lor s K_UPGRADE_ACTIVE.

Definition get_reader_count (s : Z) : Z := Z.land s K_MAX_READER_COUNT.
Definition expect_reader_lt_max (s : Z) : bool :=
  get_reader_count s <? K_MAX_READER_COUNT.
Definition expect_reader_gt_min (s : Z) : bool := 0 <? get_reader_count s.
(** [s + D::ONE] and [s - D::ONE], at the width of the word. *)
Definition desire_inc_reader (s : Z) : Z := (s + 1) mod 2 ^ w.
Definition desire_dec_reader (s : Z) : Z := (s - 1) mod 2 ^ w.

Definition desire_writer_not_queued_inactive_ (s : Z) : Z :=
  desire_writer_not_queued (desire_writer_inactive s).
Definition on_writer_guard_drop (s : Z) : result Z Z * Z :=
  try_spin_update_ expect_writer_active desire_writer_not_queued_inactive_ s.

Definition decrease_reader_count (s : Z) : result Z Z * Z :=
  let '(r, s') := try_spin_update_ expect_reader_gt_min desire_dec_reader s in
  (match r with Ok x => Ok (get_reader_count x) | Err x => Err (get_reader_count x) end,
   s').

Definition expect_can_read (s : Z) : bool :=
  expect_reader_lt_max s && expect_writer_not_queued s && expect_writer_inactive s.
Definition try_read (s : Z) : bool * Z :=
  let '(r, s') := try_spin_update_ expect_can_read desire_inc_reader s in
  (is_ok r, s').

(** [try_write] makes two updates, between which other threads may run: the
    attempt, and the request that a failed attempt leaves. *)
Definition expect_can_write (s : Z) : bool :=
  (get_reader_count s =? 0) && expect_writer_inactive s.
Definition try_write_attempt (s : Z) : bool * Z :=
  let '(r, s') := try_spin_update_ expect_can_write desire_writer_active s in
  (is_ok r, s').
Definition try_write_request (s : Z) : Z :=
  (try_spin_update_ expect_writer_not_queued desire_writer_queued s).2.
Definition try_write (s : Z) : bool * Z :=
  match try_write_attempt s with
  | (true, s') => (true, s')
  | (false, s') => (false, try_write_request s')
  end.

Definition expect_write_not_queued_and_upgrade_inactive (s : Z) : bool :=
  expect_writer_not_queued s && expect_writer_inactive s && expect_upgrade_inactive s.
Definition desire_upgrade_active_and_reader_inc (s : Z) : Z :=
  desire_inc_reader (desire_upgrade_active s).
Definition try_upgradable_read (s : Z) : bool * Z :=
  let '(r, s') := try_spin_update_ expect_write_not_queued_and_upgrade_inactive
                    desire_upgrade_active_and_reader_inc s in
  (is_ok r, s').

Definition desire_upgrade_inactive_and_reader_dec (s : Z) : Z :=
  desire_dec_reader (desire_upgrade_inactive s).
Definition on_upgradable_read_drop (s : Z) : bool * Z :=
  let '(r, s') := try_spin_update_ expect_upgrade_active
                    desire_upgrade_inactive_and_reader_dec s in
  (is_ok r, s').

Definition desire_write_to_read_ (s : Z) : Z :=
  desire_inc_reader (desire_writer_inactive s).
Definition try_downgrade_write_to_read (s : Z) : bool * Z :=
  let '(r, s') := try_spin_update_ expect_writer_active desire_write_to_read_ s in
  (is_ok r, s').

Definition desire_write_to_upgradable_ (s : Z) : Z :=
  desire_inc_reader (desire_upgrade_active (desire_writer_inactive s)).
Definition try_downgrade_write_to_upgradable (s : Z) : bool * Z :=
  let '(r, s') := try_spin_update_ expect_writer_active desire_write_to_upgradable_ s in
  (is_ok r, s').

Definition expect_can_downgrade_to_read_ (s : Z) : bool :=
  expect_upgrade_active s && expect_writer_inactive s && (0 <? get_reader_count s).
Definition try_downgrade_upgradable_to_read (s : Z) : bool * Z :=
  let '(r, s') := try_spin_update_ expect_can_downgrade_to_read_
                    desire_upgrade_inactive s in
  (is_ok r, s').

Definition expect_can_upgrade_ (s : Z) : bool :=
  expect_upgrade_active s && (get_reader_count s =? 1).
Definition desire_upgradable_to_write_ (s : Z) : Z := desire_writer_active s.
Definition try_upgrade_upgradable_to_write (s : Z) : bool * Z :=
  let '(r, s') := try_spin_update_ expect_can_upgrade_ desire_upgradable_to_write_ s in
  (is_ok r, s').
End state.

(** ** The word as four fields *)

(** What the [Debug] of [RwLockState] shows: W, Q, U and R. *)
Record rw_view : Type := RwView { W : bool; Q : bool; U : bool; R : Z }.

Definition encode (w : Z) (v : rw_view) : Z :=
  R v + 2 ^ (w - 3) * (Z.b2z (U v) + 2 * Z.b2z (Q v) + 4 * Z.b2z (W v)).

(** The largest count of readers a word of this width can show. *)
Definition view_ok (w : Z) (v : rw_view) : Prop := 0 ≤ R v < 2 ^ (w - 3).

Definition decode (w s : Z) : rw_view :=
  RwView (expect_writer_active w s) (expect_writer_queued w s)
         (expect_upgrade_active w s) (get_reader_count w s).

Section fields.
Context (w : Z) (Hw : 4 ≤ w).

Lemma pow_split : 2 ^ w = 8 * 2 ^ (w - 3).
Proof. replace w with (3 + (w - 3)) at 1 by lia. by rewrite Z.pow_add_r by lia. Qed.

Lemma pow_pos : 2 ≤ 2 ^ (w - 3).
Proof.
  replace (w - 3) with (1 + (w - 4)) by lia. rewrite Z.pow_add_r by lia.
  pose proof (Z.pow_pos_nonneg 2 (w - 4)). lia.
Qed.

Lemma max_reader_count : K_MAX_READER_COUNT w = 2 ^ (w - 3) - 1.
Proof.
  unfold K_MAX_READER_COUNT, word_max. pose proof pow_split. pose proof pow_pos.
  rewrite Z.shiftr_div_pow2 by lia. change (2 ^ 3) with 8.
  symmetry. apply (Z.div_unique _ _ _ 7); lia.
Qed.

Lemma encode_word v : view_ok w v → is_word w (encode w v).
Proof.
  intros Hv. unfold is_word, encode, view_ok in *. pose proof pow_split.
  destruct (W v), (Q v), (U v); simpl; nia.
Qed.

Lemma encode_testbit v i :
  view_ok w v → 0 ≤ i →
  Z.testbit (encode w v) (i + (w - 3)) =
  Z.testbit (Z.b2z (U v) + 2 * Z.b2z (Q v) + 4 * Z.b2z (W v)) i.
Proof.
  intros Hv Hi. rewrite <- Z.shiftr_spec by done. f_equal.
  rewrite Z.shiftr_div_pow2 by lia. unfold encode, view_ok in *.
  symmetry. apply (Z.div_unique _ _ _ (R v)); lia.
Qed.

Lemma encode_upgrade v : view_ok w v → Z.testbit (encode w v) (w - 3) = U v.
Proof.
  intros Hv. pose proof (encode_testbit v 0 Hv ltac:(lia)) as E.
  rewrite Z.add_0_l in E. rewrite E. by destruct (U v), (Q v), (W v).
Qed.
Lemma encode_queued v : view_ok w v → Z.testbit (encode w v) (w - 2) = Q v.
Proof.
  intros Hv. replace (w - 2) with (1 + (w - 3)) by lia.
  rewrite encode_testbit by (done || lia). by destruct (U v), (Q v), (W v).
Qed.
Lemma encode_writer v : view_ok w v → Z.testbit (encode w v) (w - 1) = W v.
Proof.
  intros Hv. replace (w - 1) with (2 + (w - 3)) by lia.
  rewrite encode_testbit by (done || lia). by destruct (U v), (Q v), (W v).
Qed.

Lemma writer_active_encode v : view_ok w v → expect_writer_active w (encode w v) = W v.
Proof.
  intros. unfold expect_writer_active, K_WRITER_ACTIVE.
  rewrite word_bit_test by lia. by apply encode_writer.
Qed.
Lemma writer_queued_encode v : view_ok w v → expect_writer_queued w (encode w v) = Q v.
Proof.
  intros. unfold expect_writer_queued, K_WRITER_QUEUED.
  rewrite word_bit_test by lia. by apply encode_queued.
Qed.
Lemma upgrade_active_encode v : view_ok w v → expect_upgrade_active w (encode w v) = U v.
Proof.
  intros. unfold expect_upgrade_active, K_UPGRADE_ACTIVE.
  rewrite word_bit_test by lia. by apply encode_upgrade.
Qed.
Lemma reader_count_encode v : view_ok w v → get_reader_count w (encode w v) = R v.
Proof.
  intros Hv. unfold get_reader_count. rewrite max_reader_count.
  replace (2 ^ (w - 3) - 1) with (Z.ones (w - 3)) by (rewrite Z.ones_equiv; lia).
  rewrite Z.land_ones by lia. unfold encode, view_ok in *.
  rewrite Z.mul_comm, Z.mod_add by lia. by apply Z.mod_small.
Qed.

Lemma decode_encode v : view_ok w v → decode w (encode w v) = v.
Proof.
  intros. unfold decode. rewrite writer_active_encode, writer_queued_encode,
    upgrade_active_encode, reader_count_encode by done. by destruct v.
Qed.

(** The updates of the code on the four fields. *)
Lemma pow_upgrade : 2 ^ (w - 2) = 2 * 2 ^ (w - 3).
Proof. replace (w - 2) with (1 + (w - 3)) by lia. by rewrite Z.pow_add_r by lia. Qed.
Lemma pow_writer : 2 ^ (w - 1) = 4 * 2 ^ (w - 3).
Proof. replace (w - 1) with (2 + (w - 3)) by lia. by rewrite Z.pow_add_r by lia. Qed.

Ltac fields :=
  intros; unfold encode; simpl W; simpl Q; simpl U; simpl R;
  rewrite ?pow_upgrade, ?pow_writer;
  repeat match goal with v : rw_view |- _ => destruct v as [[] [] [] ?] end;
  simpl; lia.

Lemma set_writer v :
  view_ok w v → desire_writer_active w (encode w v) = encode w (RwView true (Q v) (U v) (R v)).
Proof.
  intros. unfold desire_writer_active, K_WRITER_ACTIVE.
  rewrite word_bit_set, encode_writer by (done || lia). fields.
Qed.
Lemma clear_writer v :
  view_ok w v → desire_writer_inactive w (encode w v) = encode w (RwView false (Q v) (U v) (R v)).
Proof.
  intros. unfold desire_writer_inactive, K_WRITER_ACTIVE.
  rewrite word_bit_clear, encode_writer by (done || (by apply encode_word) || lia). fields.
Qed.
Lemma set_queued v :
  view_ok w v → desire_writer_queued w (encode w v) = encode w (RwView (W v) true (U v) (R v)).
Proof.
  intros. unfold desire_writer_queued, K_WRITER_QUEUED.
  rewrite word_bit_set, encode_queued by (done || lia). fields.
Qed.
Lemma clear_queued v :
  view_ok w v →
  desire_writer_not_queued w (encode w v) = encode w (RwView (W v) false (U v) (R v)).
Proof.
  intros. unfold desire_writer_not_queued, K_WRITER_QUEUED.
  rewrite word_bit_clear, encode_queued by (done || (by apply encode_word) || lia). fields.
Qed.
Lemma set_upgrade v :
  view_ok w v → desire_upgrade_active w (encode w v) = encode w (RwView (W v) (Q v) true (R v)).
Proof.
  intros. unfold desire_upgrade_active, K_UPGRADE_ACTIVE.
  rewrite word_bit_set, encode_upgrade by (done || lia). fields.
Qed.
Lemma clear_upgrade v :
  view_ok w v → desire_upgrade_inactive w (encode w v) = encode w (RwView (W v) (Q v) false (R v)).
Proof.
  intros. unfold desire_upgrade_inactive, K_UPGRADE_ACTIVE.
  rewrite word_bit_clear, encode_upgrade by (done || (by apply encode_word) || lia). fields.
Qed.
Lemma inc_reader v :
  view_ok w v → R v < K_MAX_READER_COUNT w →
  desire_inc_reader w (encode w v) = encode w (RwView (W v) (Q v) (U v) (R v + 1)).
Proof.
  rewrite max_reader_count. intros Hv Hm. unfold desire_inc_reader.
  rewrite Z.mod_small; [fields|].
  assert (view_ok w (RwView (W v) (Q v) (U v) (R v + 1))) as Hv'
    by (unfold view_ok in *; simpl; lia).
  apply encode_word in Hv'. unfold is_word, encode in *. simpl in *. lia.
Qed.
Lemma dec_reader v :
  view_ok w v → 0 < R v →
  desire_dec_reader w (encode w v) = encode w (RwView (W v) (Q v) (U v) (R v - 1)).
Proof.
  intros Hv Hm. unfold desire_dec_reader.
  rewrite Z.mod_small; [fields|].
  assert (view_ok w (RwView (W v) (Q v) (U v) (R v - 1))) as Hv'
    by (unfold view_ok in *; simpl; lia).
  apply encode_word in Hv'. unfold is_word, encode in *. simpl in *. lia.
Qed.

(** ** The operations on the four fields

    One lemma per operation: whether it succeeds, and the word it leaves. *)

Lemma try_spin_update_if expect desire s :
  try_spin_update_ expect desire s =
  if expect s then (Ok s, desire s) else (Err s, s).
Proof. unfold try_spin_update_, rmw. by destruct (expect s). Qed.

Lemma try_read_encode v :
  view_ok w v →
  try_read w (encode w v) =
  if (R v <? K_MAX_READER_COUNT w) && negb (Q v) && negb (W v)
  then (true, encode w (RwView false false (U v) (R v + 1)))
  else (false, encode w v).
Proof.
  intros Hv. unfold try_read. rewrite try_spin_update_if.
  unfold expect_can_read, expect_reader_lt_max, expect_writer_not_queued,
    expect_writer_inactive.
  rewrite reader_count_encode, writer_queued_encode, writer_active_encode by done.
  destruct (Z.ltb_spec (R v) (K_MAX_READER_COUNT w)), (Q v) eqn:HQ, (W v) eqn:HW; simpl; try done.
  rewrite inc_reader by done. by rewrite HQ, HW.
Qed.

Lemma try_write_attempt_encode v :
  view_ok w v →
  try_write_attempt w (encode w v) =
  if (R v =? 0) && negb (W v)
  then (true, encode w (RwView true (Q v) (U v) (R v)))
  else (false, encode w v).
Proof.
  intros Hv. unfold try_write_attempt. rewrite try_spin_update_if.
  unfold expect_can_write, expect_writer_inactive.
  rewrite reader_count_encode, writer_active_encode by done.
  destruct ((R v =? 0) && negb (W v)); simpl; [|done]. by rewrite set_writer.
Qed.

Lemma try_write_request_encode v :
  view_ok w v →
  try_write_request w (encode w v) = encode w (RwView (W v) true (U v) (R v)).
Proof.
  intros Hv. unfold try_write_request. rewrite try_spin_update_if.
  unfold expect_writer_not_queued. rewrite writer_queued_encode by done.
  destruct (Q v) eqn:HQ; simpl; [|by rewrite set_queued].
  destruct v; simpl in *; by subst.
Qed.

Lemma try_upgradable_read_encode v :
  view_ok w v → R v < K_MAX_READER_COUNT w →
  try_upgradable_read w (encode w v) =
  if negb (Q v) && negb (W v) && negb (U v)
  then (true, encode w (RwView false false true (R v + 1)))
  else (false, encode w v).
Proof.
  intros Hv Hm. unfold try_upgradable_read. rewrite try_spin_update_if.
  unfold expect_write_not_queued_and_upgrade_inactive, expect_writer_not_queued,
    expect_writer_inactive, expect_upgrade_inactive.
  rewrite writer_queued_encode, writer_active_encode, upgrade_active_encode by done.
  destruct (Q v) eqn:HQ, (W v) eqn:HW, (U v) eqn:HU; simpl; try done.
  unfold desire_upgrade_active_and_reader_inc.
  rewrite set_upgrade, inc_reader by done. simpl. by rewrite HQ, HW.
Qed.

Lemma on_upgradable_read_drop_encode v :
  view_ok w v → 0 < R v →
  on_upgradable_read_drop w (encode w v) =
  if U v then (true, encode w (RwView (W v) (Q v) false (R v - 1)))
  else (false, encode w v).
Proof.
  intros Hv Hm. unfold on_upgradable_read_drop. rewrite try_spin_update_if.
  rewrite upgrade_active_encode by done. destruct (U v) eqn:HU; simpl; [|done].
  unfold desire_upgrade_inactive_and_reader_dec.
  by rewrite clear_upgrade, dec_reader by done.
Qed.

Lemma decrease_reader_count_encode v :
  view_ok w v →
  decrease_reader_count w (encode w v) =
  if 0 <? R v then (Ok (R v), encode w (RwView (W v) (Q v) (U v) (R v - 1)))
  else (Err 0, encode w v).
Proof.
  intros Hv. unfold decrease_reader_count. rewrite try_spin_update_if.
  unfold expect_reader_gt_min. rewrite reader_count_encode by done.
  destruct (Z.ltb_spec 0 (R v)); cbn iota beta; rewrite reader_count_encode by done.
  - by rewrite dec_reader.
  - f_equal. f_equal. unfold view_ok in Hv. lia.
Qed.

Lemma on_writer_guard_drop_encode v :
  view_ok w v →
  on_writer_guard_drop w (encode w v) =
  if W v then (Ok (encode w v), encode w (RwView false false (U v) (R v)))
  else (Err (encode w v), encode w v).
Proof.
  intros Hv. unfold on_writer_guard_drop. rewrite try_spin_update_if.
  rewrite writer_active_encode by done. destruct (W v); [|done].
  unfold desire_writer_not_queued_inactive_. by rewrite clear_writer, clear_queued.
Qed.

Lemma downgrade_write_to_read_encode v :
  view_ok w v → R v < K_MAX_READER_COUNT w →
  try_downgrade_write_to_read w (encode w v) =
  if W v then (true, encode w (RwView false (Q v) (U v) (R v + 1)))
  else (false, encode w v).
Proof.
  intros Hv Hm. unfold try_downgrade_write_to_read. rewrite try_spin_update_if.
  rewrite writer_active_encode by done. destruct (W v); [|done].
  unfold desire_write_to_read_. by rewrite clear_writer, inc_reader.
Qed.

Lemma downgrade_write_to_upgradable_encode v :
  view_ok w v → R v < K_MAX_READER_COUNT w →
  try_downgrade_write_to_upgradable w (encode w v) =
  if W v then (true, encode w (RwView false (Q v) true (R v + 1)))
  else (false, encode w v).
Proof.
  intros Hv Hm. unfold try_downgrade_write_to_upgradable. rewrite try_spin_update_if.
  rewrite writer_active_encode by done. destruct (W v); [|done].
  unfold desire_write_to_upgradable_. by rewrite clear_writer, set_upgrade, inc_reader.
Qed.

Lemma downgrade_upgradable_to_read_encode v :
  view_ok w v →
  try_downgrade_upgradable_to_read w (encode w v) =
  if U v && negb (W v) && (0 <? R v)
  then (true, encode w (RwView (W v) (Q v) false (R v)))
  else (false, encode w v).
Proof.
  intros Hv. unfold try_downgrade_upgradable_to_read. rewrite try_spin_update_if.
  unfold expect_can_downgrade_to_read_, expect_writer_inactive.
  rewrite upgrade_active_encode, writer_active_encode, reader_count_encode by done.
  destruct (U v && negb (W v) && (0 <? R v)); [|done]. by rewrite clear_upgrade.
Qed.

Lemma upgrade_upgradable_to_write_encode v :
  view_ok w v →
  try_upgrade_upgradable_to_write w (encode w v) =
  if U v && (R v =? 1)
  then (true, encode w (RwView true (Q v) (U v) (R v)))
  else (false, encode w v).
Proof.
  intros Hv. unfold try_upgrade_upgradable_to_write. rewrite try_spin_update_if.
  unfold expect_can_upgrade_. rewrite upgrade_active_encode, reader_count_encode by done.
  destruct (U v && (R v =? 1)); [|done].
  unfold desire_upgradable_to_write_. by rewrite set_writer.
Qed.
End fields.
