(* ===== verification/RwLock.v ===== *)
(** * [atomic_sync]: the reader/writer lock and its guards

    Models [Acquire] and the guards of
    [crates/atomic_sync/src/rwlock/preemptive] ([rwlock_.rs], [reader_.rs],
    [writer_.rs], [upgrade_.rs]) over the word of [RwWord.v].  Any number of
    handles share one lock.  A handle holds a stack of guards, since a guard
    mutably borrows its handle, or the guard it was made from: the writer guard of
    [Upgrade::try_upgrade] lies on the upgradable guard it borrows.  Handles
    interleave at each update of the word. *)

From S2P Require Import Prelude Atomex Words RwWord.

Inductive guard : Type := ReaderGuard | UpgradableReaderGuard | WriterGuard.
#[export] Instance guard_eq_dec : EqDecision guard.
Proof. solve_decision. Defined.

(** A call of the handle between two updates of the word: [try_write] before its
    request, and [try_upgrade] by value before it drops the guard it consumed. *)
Inductive in_call : Type := NoCall | RequestWrite | DropBase.

(** The live guards of a handle, the innermost first. *)
Record handle : Type := Handle { guards : list guard; call : in_call }.

Record lock : Type := Lock { stat_ : Z; handles : list handle }.

(** The methods of the handle and of the innermost guard; [Resume] continues the
    call in progress. *)
Inductive action : Type :=
| TryRead | TryWrite | TryUpgradableRead
| DropGuard | Downgrade | TryUpgrade | TryUpgradeMut
| DowngradeToReader | DowngradeToUpgradable | Resume.

Section lock.
(** The width of the word, and whether debug assertions are compiled in. *)
Context (w : Z) (debug : bool).

Definition debug_assert {A} (b : bool) (k : A) : outcome A :=
  if debug && negb b then Panic else Ret k.

(** [drop_reader_guard], [drop_writer_guard], [drop_upgradable_read_guard]. *)
Definition drop_reader_guard (s : Z) : outcome Z :=
  let '(x, s') := decrease_reader_count w s in debug_assert (is_ok x) s'.
Definition drop_writer_guard (s : Z) : outcome Z :=
  let '(r, s') := on_writer_guard_drop w s in debug_assert (is_ok r) s'.
Definition drop_upgradable_read_guard (s : Z) : outcome Z :=
  let '(x, s') := on_upgradable_read_drop w s in debug_assert x s'.

(** The downgrades: [unreachable!] when the update is refused. *)
Definition or_unreachable (r : bool * Z) : outcome Z :=
  let '(b, s') := r in if b then Ret s' else Panic.
Definition downgrade_writer_to_reader (s : Z) : outcome Z :=
  or_unreachable (try_downgrade_write_to_read w s).
Definition downgrade_writer_to_upgradable (s : Z) : outcome Z :=
  or_unreachable (try_downgrade_write_to_upgradable w s).
Definition downgrade_upgradable_to_reader (s : Z) : outcome Z :=
  or_unreachable (try_downgrade_upgradable_to_read w s).

(** [try_read], [try_write], [try_upgradable_read] of a handle with no guard: the
    guard when the update succeeds. *)
Definition acquire_guard (g : guard) (on_fail : in_call) (r : bool * Z) :
    outcome (handle * Z) :=
  let '(b, s') := r in
  Ret (if b then Handle [g] NoCall else Handle [] on_fail, s').

(** [try_upgrade_to_writer] and [try_upgrade_mut_to_writer]: the writer guard lies
    on the upgradable one; the first then drops what it consumed. *)
Definition upgrade_guard (gs : list guard) (on_success : in_call) (r : bool * Z) :
    outcome (handle * Z) :=
  let '(b, s') := r in
  Ret (if b then Handle (WriterGuard :: UpgradableReaderGuard :: gs) on_success
       else Handle (UpgradableReaderGuard :: gs) NoCall, s').

Definition replace_guard (gs : list guard) (o : outcome Z) : outcome (handle * Z) :=
  s' ← o; Ret (Handle gs NoCall, s').

(** One update of the word by a handle; [None]: the types do not allow the call. *)
Definition act (a : action) (h : handle) (s : Z) : option (outcome (handle * Z)) :=
  match call h, a, guards h with
  | NoCall, TryRead, [] => Some (acquire_guard ReaderGuard NoCall (try_read w s))
  | NoCall, TryWrite, [] =>
      Some (acquire_guard WriterGuard RequestWrite (try_write_attempt w s))
  | RequestWrite, Resume, gs => Some (Ret (Handle gs NoCall, try_write_request w s))
  | NoCall, TryUpgradableRead, [] =>
      Some (acquire_guard UpgradableReaderGuard NoCall (try_upgradable_read w s))
  | NoCall, DropGuard, ReaderGuard :: gs =>
      Some (replace_guard gs (drop_reader_guard s))
  | NoCall, DropGuard, UpgradableReaderGuard :: gs =>
      Some (replace_guard gs (drop_upgradable_read_guard s))
  | NoCall, DropGuard, WriterGuard :: gs =>
      Some (replace_guard gs (drop_writer_guard s))
  | NoCall, Downgrade, UpgradableReaderGuard :: gs =>
      Some (replace_guard (ReaderGuard :: gs) (downgrade_upgradable_to_reader s))
  | NoCall, TryUpgrade, UpgradableReaderGuard :: gs =>
      Some (upgrade_guard gs DropBase (try_upgrade_upgradable_to_write w s))
  | NoCall, TryUpgradeMut, UpgradableReaderGuard :: gs =>
      Some (upgrade_guard gs NoCall (try_upgrade_upgradable_to_write w s))
  | DropBase, Resume, WriterGuard :: UpgradableReaderGuard :: gs =>
      Some (replace_guard (WriterGuard :: gs) (drop_upgradable_read_guard s))
  | NoCall, DowngradeToReader, WriterGuard :: gs =>
      Some (replace_guard (ReaderGuard :: gs) (downgrade_writer_to_reader s))
  | NoCall, DowngradeToUpgradable, WriterGuard :: gs =>
      Some (replace_guard (UpgradableReaderGuard :: gs) (downgrade_writer_to_upgradable s))
  | _, _, _ => None
  end.

(** [SpinningRwLock::new] over a zeroed cell, with [n] handles ([acquire]). *)
Definition new_lock (n : nat) : lock := Lock 0 (replicate n (Handle [] NoCall)).

Definition lock_step (s : lock) (i : nat) (a : action) : option (outcome lock) :=
  h ← handles s !! i;
  o ← act a h (stat_ s);
  Some ('(h', w') ← o; Ret (Lock w' (<[i := h']> (handles s)))).

(** A run of the handles: [None] when a call is not allowed, [Panic] when one
    panics. *)
Fixpoint run (acts : list (nat * action)) (s : lock) : option (outcome lock) :=
  match acts with
  | [] => Some (Ret s)
  | (i, a) :: acts' =>
      match lock_step s i a with
      | None => None
      | Some Panic => Some Panic
      | Some (Ret s') => run acts' s'
      end
  end.

(** [try_upgradable_read] does not compare the count with its maximum; a run is
    unsaturated when it never calls it with the count at the maximum. *)
Fixpoint unsaturated (acts : list (nat * action)) (s : lock) : bool :=
  match acts with
  | [] => true
  | (i, a) :: acts' =>
      match a with
      | TryUpgradableRead => expect_reader_lt_max w (stat_ s)
      | _ => true
      end &&
      match lock_step s i a with
      | Some (Ret s') => unsaturated acts' s'
      | _ => true
      end
  end.

(** A run in which no writer guard that was obtained by an upgrade is downgraded
    to an upgradable one, so that no two upgradable guards are alive. *)
Definition stacked (s : lock) (i : nat) : bool :=
  match handles s !! i with Some (Handle (_ :: _ :: _) _) => true | _ => false end.
Fixpoint single_upgradable (acts : list (nat * action)) (s : lock) : bool :=
  match acts with
  | [] => true
  | (i, a) :: acts' =>
      match a with DowngradeToUpgradable => negb (stacked s i) | _ => true end &&
      match lock_step s i a with
      | Some (Ret s') => single_upgradable acts' s'
      | _ => true
      end
  end.
End lock.

(** [may_break_with_impl_]: try, then ask the token, until one of the two ends the
    loop.  [env] lists the answers of the token and what the other handles do to
    the word after each round; [None]: the answers given are over. *)
Fixpoint may_break_with_impl_ (try_acquire : Z → bool * Z)
    (env : list (bool * (Z → Z))) (s : Z) : option (bool * Z) :=
  match env with
  | [] => None
  | (is_cancelled, others) :: env' =>
      match try_acquire s with
      | (true, s') => Some (true, s')
      | (false, s') =>
          if is_cancelled then Some (false, s')
          else may_break_with_impl_ try_acquire env' (others s')
      end
  end.

(** [Upgrade::upgrade_with_cancel] has a loop of its own, of the same shape. *)
Fixpoint upgrade_with_cancel (w : Z) (env : list (bool * (Z → Z))) (s : Z) :
    option (bool * Z) :=
  match env with
  | [] => None
  | (is_cancelled, others) :: env' =>
      match try_upgrade_upgradable_to_write w s with
      | (true, s') => Some (true, s')
      | (false, s') =>
          if is_cancelled then Some (false, s')
          else upgrade_with_cancel w env' (others s')
      end
  end.

(** ** The lock on the four fields of its word *)

Definition idle (gs : list guard) : handle := Handle gs NoCall.

(** What one update, made by a call, does to a handle and to the fields of the
    word. *)
Inductive moves (a : action) (v : rw_view) : handle → handle → rw_view → Prop :=
| mv_stay h : moves a v h h v
| mv_read : Q v = false → W v = false →
    moves a v (idle []) (idle [ReaderGuard]) (RwView false false (U v) (R v + 1))
| mv_write : R v = 0 → W v = false →
    moves a v (idle []) (idle [WriterGuard]) (RwView true (Q v) (U v) (R v))
| mv_write_fail :
    moves a v (idle []) (Handle [] RequestWrite) v
| mv_request gs :
    moves a v (Handle gs RequestWrite) (idle gs) (RwView (W v) true (U v) (R v))
| mv_upread : Q v = false → W v = false → U v = false →
    moves a v (idle []) (idle [UpgradableReaderGuard]) (RwView false false true (R v + 1))
| mv_drop_reader gs :
    moves a v (idle (ReaderGuard :: gs)) (idle gs) (RwView (W v) (Q v) (U v) (R v - 1))
| mv_drop_upg gs : U v = true →
    moves a v (idle (UpgradableReaderGuard :: gs)) (idle gs)
          (RwView (W v) (Q v) false (R v - 1))
| mv_drop_upg_lost gs : U v = false →
    moves a v (idle (UpgradableReaderGuard :: gs)) (idle gs) v
| mv_drop_writer gs : W v = true →
    moves a v (idle (WriterGuard :: gs)) (idle gs) (RwView false false (U v) (R v))
| mv_downgrade gs : U v = true → W v = false →
    moves a v (idle (UpgradableReaderGuard :: gs)) (idle (ReaderGuard :: gs))
          (RwView (W v) (Q v) false (R v))
| mv_upgrade gs c : U v = true → R v = 1 → c ≠ RequestWrite →
    moves a v (idle (UpgradableReaderGuard :: gs))
          (Handle (WriterGuard :: UpgradableReaderGuard :: gs) c)
          (RwView true (Q v) (U v) (R v))
| mv_drop_base gs : U v = true →
    moves a v (Handle (WriterGuard :: UpgradableReaderGuard :: gs) DropBase)
          (idle (WriterGuard :: gs)) (RwView (W v) (Q v) false (R v - 1))
| mv_to_reader gs : W v = true →
    moves a v (idle (WriterGuard :: gs)) (idle (ReaderGuard :: gs))
          (RwView false (Q v) (U v) (R v + 1))
| mv_to_upgradable gs : W v = true → a = DowngradeToUpgradable →
    moves a v (idle (WriterGuard :: gs)) (idle (UpgradableReaderGuard :: gs))
          (RwView false (Q v) true (R v + 1)).

(** The guards of a handle that read: each holds one unit of the count. *)
Fixpoint reading (gs : list guard) : Z :=
  match gs with
  | [] => 0
  | WriterGuard :: gs' => reading gs'
  | _ :: gs' => 1 + reading gs'
  end.
Fixpoint upgradables (gs : list guard) : Z :=
  match gs with
  | [] => 0
  | UpgradableReaderGuard :: gs' => 1 + upgradables gs'
  | _ :: gs' => upgradables gs'
  end.
Definition total (f : list guard → Z) (hs : list handle) : Z :=
  foldr (λ h n, f (guards h) + n) 0 hs.

(** A writer guard excludes every guard of every other handle; on its own handle
    it is alone, or lies on the upgradable guard it was made from. *)
Definition writer_stack (u : bool) (gs : list guard) : Prop :=
  gs = [WriterGuard] ∨ (gs = [WriterGuard; UpgradableReaderGuard] ∧ u = true).
Definition exclusive (hs : list handle) : Prop :=
  ∀ i h, hs !! i = Some h → WriterGuard ∈ guards h →
    (guards h = [WriterGuard] ∨ guards h = [WriterGuard; UpgradableReaderGuard]) ∧
    ∀ j h', hs !! j = Some h' → j ≠ i → guards h' = [].

(** The fields of the word against the guards alive. *)
Definition writer_inv (v : rw_view) (hs : list handle) : Prop :=
  if W v then
    ∃ i h, hs !! i = Some h ∧ writer_stack (U v) (guards h) ∧
           R v = reading (guards h) ∧
           (∀ j h', hs !! j = Some h' → j ≠ i → guards h' = [])
  else ∀ i h, hs !! i = Some h → WriterGuard ∉ guards h.
Definition call_inv (hs : list handle) : Prop :=
  ∀ i h, hs !! i = Some h →
    match call h with
    | NoCall => True
    | RequestWrite => guards h = []
    | DropBase => guards h = [WriterGuard; UpgradableReaderGuard]
    end.
Record view_inv (v : rw_view) (hs : list handle) : Prop := {
  vi_readers : total reading hs ≤ R v;
  vi_writer : writer_inv v hs;
  vi_calls : call_inv hs;
}.
Definition lock_inv (w : Z) (s : lock) : Prop :=
  ∃ v, view_ok w v ∧ stat_ s = encode w v ∧ view_inv v (handles s).

(** ... and exactly, when no two upgradable guards are alive. *)
Definition exact (v : rw_view) (hs : list handle) : Prop :=
  R v = total reading hs ∧ Z.b2z (U v) = total upgradables hs.

(** ** Counting guards *)

Lemma reading_nonneg gs : 0 ≤ reading gs.
Proof. induction gs as [|[] gs IH]; simpl; lia. Qed.
Lemma upgradables_bound gs : 0 ≤ upgradables gs ≤ reading gs.
Proof. induction gs as [|[] gs IH]; simpl; lia. Qed.

Lemma upgradables_in gs : UpgradableReaderGuard ∈ gs → 0 < upgradables gs.
Proof.
  induction gs as [|g gs IH]; [by intros ?%not_elem_of_nil|].
  intros [<-|Hin]%elem_of_cons; simpl; [pose proof (upgradables_bound gs); lia|].
  specialize (IH Hin). destruct g; lia.
Qed.

Lemma total_insert f hs : ∀ i h h',
  hs !! i = Some h →
  total f (<[i := h']> hs) = total f hs - f (guards h) + f (guards h').
Proof.
  induction hs as [|k hs IH]; intros [|i] h h' Hi; simplify_eq/=; [lia|].
  rewrite (IH i h h' Hi). lia.
Qed.

Lemma total_lookup f hs : ∀ i h,
  (∀ gs, 0 ≤ f gs) → hs !! i = Some h → f (guards h) ≤ total f hs.
Proof.
  induction hs as [|k hs IH]; intros [|i] h Hf Hi; simplify_eq/=.
  - enough (0 ≤ total f hs) by lia. clear -Hf. induction hs; simpl; [done|].
    pose proof (Hf (guards a)). lia.
  - pose proof (Hf (guards k)). pose proof (IH i h Hf Hi). lia.
Qed.

Lemma total_zero f hs :
  (∀ h, h ∈ hs → f (guards h) = 0) → total f hs = 0.
Proof.
  induction hs as [|k hs IH]; intros Hz; simpl; [done|].
  rewrite (Hz k), IH; [done| |apply elem_of_cons; by left].
  intros h Hh. apply Hz, elem_of_cons. by right.
Qed.

(** Only the [i]th handle has guards. *)
Lemma total_alone f hs i h :
  f [] = 0 → hs !! i = Some h →
  (∀ j h', hs !! j = Some h' → j ≠ i → guards h' = []) →
  total f hs = f (guards h).
Proof.
  intros Hf Hi Hothers.
  pose proof (total_insert f hs i h (idle []) Hi) as E. simpl in E.
  rewrite (total_zero f (<[i := idle []]> hs)) in E; [lia|].
  intros k [j Hj]%list_elem_of_lookup. destruct (decide (j = i)) as [->|].
  - rewrite list_lookup_insert_eq in Hj by by eapply lookup_lt_Some. by simplify_eq/=.
  - rewrite list_lookup_insert_ne in Hj by done. by rewrite (Hothers j k).
Qed.

(** ** Every update is a move *)

Section refinement.
Context (w : Z) (Hw : 8 ≤ w) (debug : bool).
Implicit Types (v : rw_view) (h : handle) (s : lock).

(** What the invariant says of the handle that makes the update. *)
Record local_ok v h : Prop := {
  lo_view : view_ok w v;
  lo_readers : reading (guards h) ≤ R v;
  lo_writer : WriterGuard ∈ guards h → W v = true ∧ R v ≤ 1;
  lo_upg gs : guards h = UpgradableReaderGuard :: gs → W v = false;
  lo_base : call h = DropBase → U v = true;
}.

Lemma max_readers_large : 31 ≤ K_MAX_READER_COUNT w.
Proof.
  rewrite max_reader_count by lia.
  assert (2 ^ 5 ≤ 2 ^ (w - 3)) by (apply Z.pow_le_mono_r; lia). lia.
Qed.

Lemma view_ok_intro v : 0 ≤ R v ≤ K_MAX_READER_COUNT w ↔ view_ok w v.
Proof. unfold view_ok. rewrite max_reader_count by lia. lia. Qed.

(** The outcome of an update is some move. *)
Definition is_move a v h (o : outcome (handle * Z)) : Prop :=
  match o with
  | Ret (h', s') => ∃ v', view_ok w v' ∧ s' = encode w v' ∧ moves a v h h' v'
  | Panic => U v = false ∧ UpgradableReaderGuard ∈ guards h
  end.

Lemma is_move_intro a v h h' v' :
  0 ≤ R v' ≤ K_MAX_READER_COUNT w → moves a v h h' v' →
  is_move a v h (Ret (h', encode w v')).
Proof. intros. exists v'. by rewrite <- view_ok_intro. Qed.

Lemma is_move_replace a v h gs (b : bool) v' :
  (b = false → U v = false ∧ UpgradableReaderGuard ∈ guards h) →
  0 ≤ R v' ≤ K_MAX_READER_COUNT w → moves a v h (idle gs) v' →
  is_move a v h (replace_guard gs (debug_assert debug b (encode w v'))).
Proof.
  intros Hb Hr Hm. unfold replace_guard, debug_assert.
  destruct b; [|destruct debug eqn:E]; rewrite ?andb_false_r; simpl;
    [by apply is_move_intro|by auto|by apply is_move_intro].
Qed.

Lemma drop_is_move a v g gs :
  local_ok v (idle (g :: gs)) →
  is_move a v (idle (g :: gs))
    (replace_guard gs
      (match g with
       | ReaderGuard => drop_reader_guard w debug
       | UpgradableReaderGuard => drop_upgradable_read_guard w debug
       | WriterGuard => drop_writer_guard w debug
       end (encode w v))).
Proof.
  intros [Hv Hr Hwr _ _]. simpl in *. pose proof Hv as Hb. rewrite <- view_ok_intro in Hb.
  pose proof (reading_nonneg gs).
  destruct g; unfold drop_reader_guard, drop_upgradable_read_guard, drop_writer_guard.
  - rewrite decrease_reader_count_encode by (done || lia).
    destruct (Z.ltb_spec 0 (R v)); [|simpl in *; lia].
    apply is_move_replace; [done|simpl; lia|constructor].
  - rewrite on_upgradable_read_drop_encode by (done || simpl in *; lia).
    destruct (U v) eqn:HU; apply is_move_replace; simpl in *;
      [done|lia|by constructor| |lia|by constructor].
    intros _. split; [done|]. apply elem_of_cons; by left.
  - rewrite on_writer_guard_drop_encode by (done || lia).
    destruct Hwr as [HW ?]; [apply elem_of_cons; by left|]. rewrite HW.
    apply is_move_replace; [done|simpl; lia|by constructor].
Qed.

Lemma upgrade_is_move a v gs c :
  view_ok w v → c ≠ RequestWrite →
  is_move a v (idle (UpgradableReaderGuard :: gs))
    (upgrade_guard gs c (try_upgrade_upgradable_to_write w (encode w v))).
Proof.
  intros Hv Hc. rewrite upgrade_upgradable_to_write_encode by (done || lia).
  rewrite <- view_ok_intro in Hv.
  destruct (U v && (R v =? 1)) eqn:E; simpl; [|apply is_move_intro; [done|constructor]].
  bool_to_prop. apply is_move_intro; [done|by constructor].
Qed.

Lemma act_is_move a v h o :
  local_ok v h →
  (a = TryUpgradableRead → R v < K_MAX_READER_COUNT w) →
  act w debug a h (encode w v) = Some o →
  is_move a v h o.
Proof.
  intros Hl Hs Ha. pose proof Hl as [Hv Hr Hwr Hupg Hbase]. pose proof max_readers_large.
  pose proof Hv as Hb. rewrite <- view_ok_intro in Hb.
  destruct h as [gs c]. unfold act in Ha. simpl call in *; simpl guards in *.
  destruct c, a; try discriminate Ha; simplify_eq/=.
  - destruct gs; simplify_eq/=. rewrite try_read_encode by (done || lia).
    destruct (Z.ltb_spec (R v) (K_MAX_READER_COUNT w)), (Q v) eqn:?, (W v) eqn:?; simpl;
      try (apply is_move_intro; [done|constructor]).
    apply is_move_intro; [simpl; lia|by constructor].
  - destruct gs; simplify_eq/=. rewrite try_write_attempt_encode by (done || lia).
    destruct (Z.eqb_spec (R v) 0), (W v) eqn:?; simpl; apply is_move_intro; simpl;
      try lia; by constructor.
  - destruct gs; simplify_eq/=. rewrite try_upgradable_read_encode by (auto; lia).
    destruct (Q v) eqn:?, (W v) eqn:?, (U v) eqn:?; simpl;
      try (apply is_move_intro; [done|constructor]).
    apply is_move_intro; [simpl; specialize (Hs eq_refl); lia|by constructor].
  - destruct gs as [|g gs]; [done|].
    pose proof (drop_is_move DropGuard v g gs Hl) as Hd. by destruct g; simplify_eq/=.
  - destruct gs as [|[] gs]; simplify_eq/=. unfold downgrade_upgradable_to_reader.
    rewrite downgrade_upgradable_to_read_encode by (done || lia).
    pose proof (reading_nonneg gs). rewrite (Hupg gs eq_refl).
    destruct (U v) eqn:HU, (Z.ltb_spec 0 (R v)); simpl; try lia;
      [|split; [done|apply elem_of_cons; by left]].
    apply is_move_intro; [simpl; lia|]. rewrite <- (Hupg gs eq_refl) at 1.
    constructor; [done|by apply (Hupg gs)].
  - destruct gs as [|[] gs]; simplify_eq/=. by apply upgrade_is_move.
  - destruct gs as [|[] gs]; simplify_eq/=. by apply upgrade_is_move.
  - destruct gs as [|[] gs]; simplify_eq/=. unfold downgrade_writer_to_reader.
    destruct Hwr as [HW ?]; [apply elem_of_cons; by left|].
    rewrite downgrade_write_to_read_encode, HW by (done || lia). simpl.
    apply is_move_intro; [simpl; lia|by constructor].
  - destruct gs as [|[] gs]; simplify_eq/=. unfold downgrade_writer_to_upgradable.
    destruct Hwr as [HW ?]; [apply elem_of_cons; by left|].
    rewrite downgrade_write_to_upgradable_encode, HW by (done || lia). simpl.
    apply is_move_intro; [simpl; lia|by constructor].
  - rewrite try_write_request_encode by (done || lia).
    apply is_move_intro; [simpl; lia|constructor].
  - destruct gs as [|[] [|[] gs]]; simplify_eq/=. unfold drop_upgradable_read_guard.
    pose proof (reading_nonneg gs).
    rewrite on_upgradable_read_drop_encode, (Hbase eq_refl) by (done || lia).
    apply is_move_replace; [done|simpl; lia|by constructor; auto].
Qed.
End refinement.

(** ** Moves keep the invariant *)

Section invariant.
Implicit Types (v : rw_view) (h : handle) (hs : list handle).

Lemma no_guards gs : reading gs ≤ 0 → WriterGuard ∉ gs → gs = [].
Proof.
  destruct gs as [|[] gs]; simpl; [done|pose proof (reading_nonneg gs); lia..|].
  intros _ Hw. destruct Hw. apply elem_of_cons; by left.
Qed.

Lemma not_writer_cons g gs :
  g ≠ WriterGuard → WriterGuard ∉ gs → WriterGuard ∉ g :: gs.
Proof. by intros Hg Hgs [<-|?]%elem_of_cons. Qed.

Lemma writer_held_inv v hs i h :
  writer_inv v hs → hs !! i = Some h → WriterGuard ∈ guards h →
  W v = true ∧ writer_stack (U v) (guards h) ∧ R v = reading (guards h) ∧
  ∀ j h', hs !! j = Some h' → j ≠ i → guards h' = [].
Proof.
  unfold writer_inv. intros Hinv Hi Hin. destruct (W v); [|by destruct (Hinv i h)].
  split; [done|]. destruct Hinv as (i' & h' & Hi' & Hst & HR & Ho).
  destruct (decide (i = i')) as [<-|Hne]; [by simplify_eq|].
  rewrite (Ho i h Hi Hne) in Hin. by apply not_elem_of_nil in Hin.
Qed.

(** While a writer is active, a handle has no guard or the writer guard. *)
Lemma writer_active_inv v hs i h :
  writer_inv v hs → hs !! i = Some h → W v = true →
  guards h = [] ∨ writer_stack (U v) (guards h).
Proof.
  unfold writer_inv. intros Hinv Hi HW. rewrite HW in Hinv.
  destruct Hinv as (i' & h' & Hi' & Hst & HR & Ho).
  destruct (decide (i = i')) as [<-|Hne]; [|left; by eapply Ho].
  simplify_eq. by right.
Qed.

Lemma writer_stack_in u gs : writer_stack u gs → WriterGuard ∈ gs.
Proof. intros [->|[-> _]]; apply elem_of_cons; by left. Qed.

Lemma local_of_inv w v hs i h :
  view_ok w v → view_inv v hs → hs !! i = Some h → local_ok w v h.
Proof.
  intros Hv [Hr Hwr Hc] Hi. split; [done| | | |].
  - pose proof (total_lookup reading hs i h reading_nonneg Hi). lia.
  - intros Hin. destruct (writer_held_inv v hs i h Hwr Hi Hin) as (-> & Hst & -> & _).
    split; [done|]. by destruct Hst as [->|[-> _]].
  - intros gs Hgs. destruct (W v) eqn:HW; [|done].
    destruct (writer_active_inv v hs i h Hwr Hi HW) as [E|[E|[E _]]]; congruence.
  - intros Hcall. pose proof (Hc i h Hi) as Hg. rewrite Hcall in Hg.
    destruct (writer_held_inv v hs i h Hwr Hi) as (_ & Hst & _).
    + rewrite Hg. apply elem_of_cons; by left.
    + rewrite Hg in Hst. by destruct Hst as [|[_ ?]].
Qed.

(** When one handle has the whole count, the others have nothing. *)
Lemma others_empty v hs i h :
  W v = false → writer_inv v hs → hs !! i = Some h →
  total reading hs ≤ reading (guards h) →
  ∀ j h', hs !! j = Some h' → j ≠ i → guards h' = [].
Proof.
  unfold writer_inv. intros HW Hinv Hi Ht j h' Hj Hne. rewrite HW in Hinv.
  apply no_guards; [|by eapply Hinv].
  pose proof (total_insert reading hs i h (idle []) Hi) as E. simpl in E.
  assert (<[i:=idle []]> hs !! j = Some h') as Hj'
    by by rewrite list_lookup_insert_ne by done.
  pose proof (total_lookup reading _ j h' reading_nonneg Hj'). lia.
Qed.

Lemma writer_inv_free v hs i h' :
  W v = false → WriterGuard ∉ guards h' →
  (∀ j k, hs !! j = Some k → j ≠ i → WriterGuard ∉ guards k) →
  writer_inv v (<[i := h']> hs).
Proof.
  unfold writer_inv. intros -> Hh Ho j k Hj.
  apply list_lookup_insert_Some in Hj as [(-> & -> & _)|[Hne Hj]]; [done|].
  by eapply Ho.
Qed.

Lemma writer_inv_held v hs i h h' :
  hs !! i = Some h → W v = true →
  writer_stack (U v) (guards h') → R v = reading (guards h') →
  (∀ j k, hs !! j = Some k → j ≠ i → guards k = []) →
  writer_inv v (<[i := h']> hs).
Proof.
  unfold writer_inv. intros Hi -> Hst HR Ho. exists i, h'.
  split; [apply list_lookup_insert_eq; by eapply lookup_lt_Some|].
  split; [done|]. split; [done|]. intros j k Hj Hne.
  rewrite list_lookup_insert_ne in Hj by done. by eapply Ho.
Qed.

(** The guards of the others, and of this handle, without a writer. *)
Lemma writer_free_others v hs i h :
  writer_inv v hs → hs !! i = Some h →
  W v = false ∨ WriterGuard ∈ guards h →
  ∀ j k, hs !! j = Some k → j ≠ i → WriterGuard ∉ guards k.
Proof.
  intros Hinv Hi [HW|Hin] j k Hj Hne.
  - unfold writer_inv in Hinv. rewrite HW in Hinv. by eapply Hinv.
  - destruct (writer_held_inv v hs i h Hinv Hi Hin) as (_ & _ & _ & Ho).
    rewrite (Ho j k Hj Hne). apply not_elem_of_nil.
Qed.

Lemma writer_free_tail v hs i h g gs :
  writer_inv v hs → hs !! i = Some h → guards h = g :: gs → WriterGuard ∉ gs.
Proof.
  intros Hinv Hi Hg Hin.
  assert (WriterGuard ∈ guards h) as Hin' by (rewrite Hg; apply elem_of_cons; by right).
  destruct (writer_held_inv v hs i h Hinv Hi Hin') as (_ & [E|[E _]] & _);
    rewrite Hg in E; injection E as -> ->;
    [by apply not_elem_of_nil in Hin|by apply list_elem_of_singleton in Hin].
Qed.

Lemma call_inv_insert hs i h' :
  call_inv hs →
  match call h' with
  | NoCall => True
  | RequestWrite => guards h' = []
  | DropBase => guards h' = [WriterGuard; UpgradableReaderGuard]
  end →
  call_inv (<[i := h']> hs).
Proof.
  intros Hc Hh j k Hj.
  apply list_lookup_insert_Some in Hj as [(-> & -> & _)|[Hne Hj]]; [done|by eapply Hc].
Qed.

Lemma moves_readers v v' hs i h h' :
  total reading hs ≤ R v → hs !! i = Some h →
  reading (guards h') - reading (guards h) ≤ R v' - R v →
  total reading (<[i := h']> hs) ≤ R v'.
Proof. intros Hr Hi Hd. rewrite (total_insert reading hs i h h' Hi). lia. Qed.

Lemma writer_inv_same v v' hs i h h' :
  writer_inv v hs → hs !! i = Some h → guards h' = guards h →
  W v' = W v → U v' = U v → R v' = R v → writer_inv v' (<[i := h']> hs).
Proof.
  intros Hinv Hi Hg HW HU HR. destruct (decide (WriterGuard ∈ guards h)) as [Hin|Hni].
  - destruct (writer_held_inv v hs i h Hinv Hi Hin) as (HW' & Hst & HR' & Ho).
    eapply writer_inv_held; rewrite ?Hg, ?HU, ?HR; (done || congruence).
  - unfold writer_inv in *. rewrite HW, HU, HR. destruct (W v).
    + destruct Hinv as (i' & k & Hi' & Hst & HR' & Ho).
      assert (i' ≠ i) as Hne
        by (intros ->; simplify_eq; by apply Hni, (writer_stack_in (U v))).
      exists i', k. rewrite list_lookup_insert_ne by done. split; [done|].
      split; [done|]. split; [done|]. intros j k'.
      intros [(-> & -> & _)|[? ?]]%list_lookup_insert_Some Hj'; [|by eapply Ho].
      rewrite Hg. by eapply Ho; [exact Hi|].
    + intros j k [(-> & -> & _)|[? ?]]%list_lookup_insert_Some; [by rewrite Hg|].
      by eapply Hinv.
Qed.

(** A reading guard on top: no writer is active. *)
Lemma reading_top_inactive v hs i h g gs :
  writer_inv v hs → hs !! i = Some h → guards h = g :: gs → g ≠ WriterGuard →
  W v = false.
Proof.
  intros Hinv Hi Hg Hne. destruct (W v) eqn:HW; [|done].
  destruct (writer_active_inv v hs i h Hinv Hi HW) as [E|[E|[E _]]]; congruence.
Qed.

Lemma moves_writer a v h h' v' hs i :
  view_inv v hs → hs !! i = Some h → moves a v h h' v' → writer_inv v' (<[i := h']> hs).
Proof.
  intros [Hr Hwr Hc] Hi Hm.
  pose proof (writer_free_others v hs i h Hwr Hi) as Hfree.
  pose proof (λ g gs, writer_free_tail v hs i h g gs Hwr Hi) as Htail.
  pose proof (λ g gs, reading_top_inactive v hs i h g gs Hwr Hi) as Htop.
  pose proof (λ HW, others_empty v hs i h HW Hwr Hi) as Hempty.
  pose proof (writer_held_inv v hs i h Hwr Hi) as Hheld.
  destruct Hm; simpl in *.
  - by rewrite list_insert_id.
  - apply writer_inv_free; simpl; [done|apply not_writer_cons; [done|apply not_elem_of_nil]|apply Hfree; auto].
  - eapply writer_inv_held; simpl; [done|done|by left|done|apply Hempty; [done|lia]].
  - by eapply writer_inv_same.
  - by eapply writer_inv_same.
  - apply writer_inv_free; simpl; [done|apply not_writer_cons; [done|apply not_elem_of_nil]|apply Hfree; auto].
  - pose proof (Htop _ gs eq_refl ltac:(done)) as HW.
    apply writer_inv_free; simpl; [done|by eapply Htail|apply Hfree; auto].
  - pose proof (Htop _ gs eq_refl ltac:(done)) as HW.
    apply writer_inv_free; simpl; [done|by eapply Htail|apply Hfree; auto].
  - pose proof (Htop _ gs eq_refl ltac:(done)) as HW.
    apply writer_inv_free; simpl; [done|by eapply Htail|apply Hfree; auto].
  - apply writer_inv_free; simpl; [done|by eapply Htail|].
    apply Hfree. right. apply elem_of_cons; by left.
  - apply writer_inv_free; simpl; [done| |apply Hfree; auto].
    apply not_writer_cons; [done|by eapply Htail].
  - pose proof (Htop _ gs eq_refl ltac:(done)) as HW.
    pose proof (total_lookup reading hs i _ reading_nonneg Hi). simpl in *.
    pose proof (reading_nonneg gs).
    assert (gs = []) as ->
      by (apply no_guards; [lia|by eapply Htail]).
    eapply writer_inv_held; simpl; [done|done|by right|done|apply Hempty; [done|lia]].
  - destruct Hheld as (HW & Hst & HR & Ho); [apply elem_of_cons; by left|].
    destruct Hst as [|[Hst _]]; [done|]. simplify_eq/=.
    eapply writer_inv_held; simpl; [done|done|by left|lia|done].
  - apply writer_inv_free; simpl; [done| |].
    + apply not_writer_cons; [done|by eapply Htail].
    + apply Hfree. right. apply elem_of_cons; by left.
  - apply writer_inv_free; simpl; [done| |].
    + apply not_writer_cons; [done|by eapply Htail].
    + apply Hfree. right. apply elem_of_cons; by left.
Qed.

Lemma moves_calls a v h h' v' hs i :
  view_inv v hs → hs !! i = Some h → moves a v h h' v' → call_inv (<[i := h']> hs).
Proof.
  intros [Hr Hwr Hc] Hi Hm. apply call_inv_insert; [done|].
  pose proof (Hc i h Hi) as Hh.
  destruct Hm as [| | | | | | | | | | |gs c HU HR Hne| | |]; simpl in *; try done.
  destruct c; try done.
  pose proof (writer_free_tail v hs i _ _ gs Hwr Hi eq_refl).
  pose proof (total_lookup reading hs i _ reading_nonneg Hi). simpl in *.
  rewrite (no_guards gs); [done|lia|done].
Qed.

Lemma moves_inv a v h h' v' hs i :
  view_inv v hs → hs !! i = Some h → moves a v h h' v' → view_inv v' (<[i := h']> hs).
Proof.
  intros Hinv Hi Hm. pose proof Hinv as [Hr Hwr Hc].
  split; [|by eapply moves_writer|by eapply moves_calls].
  eapply moves_readers; [done..|]. destruct Hm; simpl; lia.
Qed.
End invariant.

(** ** Runs *)

Section runs.
Context (w : Z) (Hw : 8 ≤ w) (debug : bool).
Implicit Types (s : lock).

(** [exact] is kept too, unless a second upgradable guard is made. *)
Lemma moves_exact a v h h' v' hs i :
  view_inv v hs → exact v hs → hs !! i = Some h → moves a v h h' v' →
  (a = DowngradeToUpgradable → length (guards h) ≤ 1)%nat →
  exact v' (<[i := h']> hs).
Proof.
  intros Hinv [HR HU] Hi Hm Hs.
  pose proof (total_lookup upgradables hs i h (λ gs, proj1 (upgradables_bound gs)) Hi) as Hup.
  unfold exact. rewrite !(total_insert _ hs i h h' Hi).
  destruct Hm; simpl in *; repeat match goal with
    | H : U _ = _ |- _ => rewrite H in * end; simpl in *;
    try match goal with
    | H : 1 + upgradables ?gs ≤ _ |- _ => pose proof (upgradables_bound gs) end;
    split; try lia.
  destruct gs; [|specialize (Hs ltac:(done)); simpl in Hs; lia].
  destruct (writer_held_inv v hs i (idle [WriterGuard]) (vi_writer _ _ Hinv) Hi)
    as (_ & _ & _ & Ho); [apply elem_of_cons; by left|].
  rewrite (total_alone upgradables hs i _ eq_refl Hi Ho). done.
Qed.

Lemma lock_step_moves s i a o v :
  view_ok w v → stat_ s = encode w v → view_inv v (handles s) →
  match a with TryUpgradableRead => expect_reader_lt_max w (stat_ s) | _ => true end = true →
  lock_step w debug s i a = Some o →
  ∃ h, handles s !! i = Some h ∧
  match o with
  | Ret s' => ∃ h' v', view_ok w v' ∧ s' = Lock (encode w v') (<[i := h']> (handles s)) ∧
                       moves a v h h' v'
  | Panic => U v = false ∧ UpgradableReaderGuard ∈ guards h
  end.
Proof.
  intros Hv Hst Hinv Hsat Hstep. unfold lock_step in Hstep.
  destruct (handles s !! i) as [h|] eqn:Hi; [|done]. exists h. split; [done|].
  simpl in Hstep. rewrite Hst in *.
  destruct (act w debug a h (encode w v)) as [o'|] eqn:Ha; simplify_eq/=.
  pose proof (local_of_inv w v _ i h Hv Hinv Hi) as Hl.
  eapply act_is_move in Ha; [|done..|].
  - destruct o' as [[h' s']|]; simpl in *; [|done].
    destruct Ha as (v' & Hv' & -> & Hm). eauto.
  - intros ->. unfold expect_reader_lt_max in Hsat.
    rewrite reader_count_encode in Hsat by (done || lia). by bool_to_prop.
Qed.

Lemma run_inv acts : ∀ s o,
  lock_inv w s → unsaturated w debug acts s = true → run w debug acts s = Some o →
  match o with Ret s' => lock_inv w s' | Panic => True end.
Proof.
  induction acts as [|[i a] acts IH]; intros s o Hinv Hun Hrun; simpl in *.
  { by simplify_eq. }
  apply andb_true_iff in Hun as [Hsat Hun].
  destruct (lock_step w debug s i a) as [[s'|]|] eqn:Hstep; simplify_eq/=; [|done].
  eapply IH; [|done..]. destruct Hinv as (v & Hv & Hst & Hvi).
  destruct (lock_step_moves s i a _ v Hv Hst Hvi Hsat Hstep)
    as (h & Hi & h' & v' & Hv' & -> & Hm).
  exists v'. split; [done|]. split; [done|]. by eapply moves_inv.
Qed.

Lemma run_exact acts : ∀ s o v,
  view_ok w v → stat_ s = encode w v → view_inv v (handles s) → exact v (handles s) →
  unsaturated w debug acts s = true → single_upgradable w debug acts s = true →
  run w debug acts s = Some o →
  ∃ s' v', o = Ret s' ∧ view_ok w v' ∧ stat_ s' = encode w v' ∧
           view_inv v' (handles s') ∧ exact v' (handles s').
Proof.
  induction acts as [|[i a] acts IH]; intros s o v Hv Hst Hvi Hex Hun Hsg Hrun;
    simpl in *; simplify_eq; [eauto 10|].
  apply andb_true_iff in Hun as [Hsat Hun]. apply andb_true_iff in Hsg as [Hnest Hsg].
  destruct (lock_step w debug s i a) as [o'|] eqn:Hstep; [|done].
  destruct (lock_step_moves s i a _ v Hv Hst Hvi Hsat Hstep) as (h & Hi & Ho).
  destruct o' as [s'|].
  - destruct Ho as (h' & v' & Hv' & -> & Hm).
    apply (IH (Lock (encode w v') (<[i := h']> (handles s))) _ v' Hv' eq_refl
             (moves_inv _ _ _ _ _ _ _ Hvi Hi Hm)); [|done..]. simpl.
    eapply moves_exact; try done. intros ->. unfold stacked in Hnest.
    rewrite Hi in Hnest. destruct h as [[|? [|]] ?]; simpl in *; (lia || done).
  - destruct Ho as [HU Hin], Hex as [_ HU']. rewrite HU in HU'. simpl in HU'.
    pose proof (total_lookup upgradables _ i h (λ gs, proj1 (upgradables_bound gs)) Hi).
    pose proof (upgradables_in _ Hin). lia.
Qed.

Definition free_view : rw_view := RwView false false false 0.

Lemma new_lock_views n :
  view_ok w free_view ∧ stat_ (new_lock n) = encode w free_view ∧
  view_inv free_view (handles (new_lock n)) ∧ exact free_view (handles (new_lock n)).
Proof.
  assert (∀ f, f [] = 0 → total f (handles (new_lock n)) = 0) as Hz.
  { intros f Hf. apply total_zero. intros h [-> _]%elem_of_replicate. done. }
  split; [|split; [|split; [split|]]].
  - unfold view_ok. simpl. pose proof (pow_pos w). lia.
  - unfold encode. simpl. lia.
  - by rewrite Hz.
  - intros i h [-> _]%lookup_replicate. apply not_elem_of_nil.
  - intros i h [-> _]%lookup_replicate. done.
  - split; by rewrite Hz.
Qed.

Lemma new_lock_inv n : lock_inv w (new_lock n).
Proof. destruct (new_lock_views n) as (? & ? & ? & _). by exists free_view. Qed.

Lemma writer_alive v hs :
  view_inv v hs → W v = true ↔ ∃ i h, hs !! i = Some h ∧ WriterGuard ∈ guards h.
Proof.
  intros [_ Hwr _]. split.
  - intros HW. unfold writer_inv in Hwr. rewrite HW in Hwr.
    destruct Hwr as (i & h & Hi & Hst & _). exists i, h.
    split; [done|]. by eapply writer_stack_in.
  - intros (i & h & Hi & Hin). by destruct (writer_held_inv v hs i h Hwr Hi Hin).
Qed.
End runs.

(** The calls that only try to read. *)
Definition reads (x : nat * action) : bool :=
  match x.2 with TryRead | TryUpgradableRead => true | _ => false end.

Lemma queued_refuses_reads w debug acts : ∀ s o,
  expect_writer_queued w (stat_ s) = true → forallb reads acts = true →
  run w debug acts s = Some o → o = Ret s.
Proof.
  induction acts as [|[i a] acts IH]; intros s o HQ Hr Hrun; simpl in *; [by simplify_eq|].
  apply andb_true_iff in Hr as [Ha Hr].
  assert (∀ o', lock_step w debug s i a = Some o' → o' = Ret s) as Hstep.
  { unfold lock_step. intros o' Hs.
    destruct (handles s !! i) as [[gs c]|] eqn:Hi; [simpl in Hs|done].
    assert (∀ g, acquire_guard g NoCall (false, stat_ s) = Ret (idle [], stat_ s)) as Hg
      by done.
    destruct c, a, gs; simpl in *; try done.
    all: unfold try_read, try_upgradable_read in Hs; rewrite try_spin_update_if in Hs;
      unfold expect_can_read, expect_write_not_queued_and_upgrade_inactive,
        expect_writer_not_queued in Hs; rewrite HQ, ?andb_false_r in Hs;
      simpl in Hs; simplify_eq; by rewrite list_insert_id by done; destruct s. }
  destruct (lock_step w debug s i a) as [o'|]; [|done].
  specialize (Hstep o' eq_refl). subst o'. by apply IH.
Qed.

Lemma may_break_refused try_acquire (P : Z → Prop) env : ∀ s s',
  (∀ s b s', try_acquire s = (b, s') → b = false → P s') →
  may_break_with_impl_ try_acquire env s = Some (false, s') → P s'.
Proof.
  induction env as [|[c others] env IH]; intros s s' Htry Hloop; simpl in *; [done|].
  destruct (try_acquire s) as [[] s1] eqn:E; [done|].
  destruct c; [|by eapply IH]. simplify_eq. by eapply Htry.
Qed.

Lemma refused_write_queues w s b s' :
  2 ≤ w → try_write w s = (b, s') → b = false → expect_writer_queued w s' = true.
Proof.
  intros Hw Htry ->. unfold try_write in Htry.
  destruct (try_write_attempt w s) as [[] s1]; simplify_eq.
  unfold try_write_request. rewrite try_spin_update_if.
  unfold expect_writer_not_queued. destruct (expect_writer_queued w s1) eqn:E; simpl; [done|].
  unfold expect_writer_queued, desire_writer_queued, K_WRITER_QUEUED.
  rewrite word_bit_test, Z.lor_spec, word_bit_testbit, Z.eqb_refl by lia.
  apply orb_true_r.
Qed.

(** ** Properties *)

(** C16: the reader/writer lock excludes.  However any number of handles
    interleave their calls and their drops, a writer guard never coexists with a
    guard of another handle, and on its own handle it is alone or lies on the
    upgradable guard it was made from; for words of any width from 8 bits on, and
    whatever failed attempts, cancelled waits and downgrades occur.  The run must
    not call [try_upgradable_read] with the count of readers at its maximum. *)
Theorem rw_exclusion w debug n acts s' :
  8 ≤ w → unsaturated w debug acts (new_lock n) = true →
  run w debug acts (new_lock n) = Some (Ret s') →
  exclusive (handles s').
Proof.
  intros Hw Hun Hrun.
  pose proof (run_inv w Hw debug acts _ _ (new_lock_inv w Hw n) Hun Hrun)
    as (v & _ & _ & [_ Hwr _]).
  intros i h Hi Hin. destruct (writer_held_inv v _ i h Hwr Hi Hin) as (_ & Hst & _ & Ho).
  split; [destruct Hst as [|[? _]]; auto|done].
Qed.

(** C34: the word accounts for the guards.  In a run in which [try_upgradable_read]
    is never called with the count of readers at its maximum (which it does not check:
    [upgradable_read_wraps]) and no writer guard obtained by an upgrade is downgraded
    to an upgradable one, no call panics, debug assertions included; the count is the
    number of guards that read, the upgrade bit tells whether an upgradable guard is
    alive, so that there is at most one, and the writer bit whether a writer guard is. *)
Theorem rw_accounting w debug n acts o :
  8 ≤ w → unsaturated w debug acts (new_lock n) = true →
  single_upgradable w debug acts (new_lock n) = true →
  run w debug acts (new_lock n) = Some o →
  ∃ s', o = Ret s' ∧
    let v := decode w (stat_ s') in
    R v = total reading (handles s') ∧
    Z.b2z (U v) = total upgradables (handles s') ∧
    (W v = true ↔ ∃ i h, handles s' !! i = Some h ∧ WriterGuard ∈ guards h).
Proof.
  intros Hw Hun Hsg Hrun.
  destruct (new_lock_views w Hw n) as (Hv & Hst & Hvi & Hex).
  destruct (run_exact w Hw debug acts _ _ _ Hv Hst Hvi Hex Hun Hsg Hrun)
    as (s' & v' & -> & Hv' & Hst' & Hvi' & [HR HU]).
  exists s'. split; [done|]. rewrite Hst', decode_encode by (done || lia).
  simpl. split; [done|]. split; [done|]. by apply writer_alive.
Qed.

(** A write that gives up leaves its request.  When the loop of [write] ends
    by its cancellation token, whatever happened to the word meanwhile, the queued
    bit stays set with nobody waiting, and from then on no sequence of [try_read]
    and [try_upgradable_read] calls, by any handles, obtains a guard or changes
    anything. *)
Theorem abandoned_write_blocks_readers w debug env s s' hs acts o :
  8 ≤ w → may_break_with_impl_ (try_write w) env s = Some (false, s') →
  forallb reads acts = true → run w debug acts (Lock s' hs) = Some o →
  o = Ret (Lock s' hs).
Proof.
  intros Hw Hloop Hr Hrun. eapply queued_refuses_reads; [|done..]. simpl.
  apply (may_break_refused _ (λ s', expect_writer_queued w s' = true) _ _ _
           (λ s b s' , refused_write_queues w s b s' ltac:(lia)) Hloop).
Qed.

(** C37: the missing bound of [try_upgradable_read].  With the count of readers
    at its maximum the call still succeeds: the increment carries out of the count
    and of the upgrade bit into the queued bit, the word shows no reader, and a
    [try_write] then succeeds while every reader is alive. *)
Theorem upgradable_read_wraps w s :
  8 ≤ w → s = encode w (RwView false false false (K_MAX_READER_COUNT w)) →
  (try_upgradable_read w s).1 = true ∧
  decode w (try_upgradable_read w s).2 = RwView false true false 0 ∧
  (try_write w (try_upgradable_read w s).2).1 = true.
Proof.
  intros Hw ->. pose proof (pow_split w ltac:(lia)). pose proof (pow_pos w ltac:(lia)).
  assert (view_ok w (RwView false false false (K_MAX_READER_COUNT w))) as Hv
    by (unfold view_ok; rewrite max_reader_count by lia; simpl; lia).
  assert (view_ok w (RwView false true false 0)) as Hv'
    by (unfold view_ok; simpl; lia).
  assert (try_upgradable_read w (encode w (RwView false false false (K_MAX_READER_COUNT w)))
          = (true, encode w (RwView false true false 0))) as ->.
  { unfold try_upgradable_read. rewrite try_spin_update_if.
    unfold expect_write_not_queued_and_upgrade_inactive, expect_writer_not_queued,
      expect_writer_inactive, expect_upgrade_inactive.
    rewrite writer_queued_encode, writer_active_encode, upgrade_active_encode
      by (done || lia). simpl. f_equal.
    unfold desire_upgrade_active_and_reader_inc. rewrite set_upgrade by (done || lia).
    unfold desire_inc_reader, encode. simpl. rewrite max_reader_count by lia.
    rewrite Z.mod_small by lia. lia. }
  simpl. split; [done|]. rewrite decode_encode by (done || lia). split; [done|].
  unfold try_write. by rewrite try_write_attempt_encode by (done || lia).
Qed.

(** ** Witnesses *)

(** An upgradable guard upgrades once the reader beside it has left. *)
Definition upgrade_run : list (nat * action) :=
  [(0%nat, TryUpgradableRead); (1%nat, TryRead); (0%nat, TryUpgradeMut);
   (2%nat, TryWrite); (2%nat, Resume); (1%nat, DropGuard); (0%nat, TryUpgrade);
   (1%nat, TryRead); (0%nat, Resume)].
Definition upgraded_lock : lock :=
  Lock 192 [idle [WriterGuard]; idle []; idle []].

Lemma rw_exclusion_witness :
  run 8 true upgrade_run (new_lock 3) = Some (Ret upgraded_lock) ∧
  exclusive (handles upgraded_lock).
Proof.
  split; [vm_compute; reflexivity|].
  exact (rw_exclusion 8 true 3 upgrade_run upgraded_lock ltac:(lia)
           ltac:(vm_compute; reflexivity) ltac:(vm_compute; reflexivity)).
Defined.

Lemma rw_accounting_witness :
  ∃ s', Ret upgraded_lock = Ret s' ∧
    let v := decode 8 (stat_ s') in
    R v = total reading (handles s') ∧
    Z.b2z (U v) = total upgradables (handles s') ∧
    (W v = true ↔ ∃ i h, handles s' !! i = Some h ∧ WriterGuard ∈ guards h).
Proof.
  exact (rw_accounting 8 true 3 upgrade_run (Ret upgraded_lock) ltac:(lia)
           ltac:(vm_compute; reflexivity) ltac:(vm_compute; reflexivity)
           ltac:(vm_compute; reflexivity)).
Defined.

(** A reader holds the lock, a write is cancelled in its second round. *)
Lemma abandoned_write_blocks_readers_witness :
  Ret (Lock 65 [idle [ReaderGuard]; idle []]) =
  Ret (Lock 65 [idle [ReaderGuard]; idle []]).
Proof.
  exact (abandoned_write_blocks_readers 8 true [(false, id); (true, id)] 1 65
           [idle [ReaderGuard]; idle []]
           [(1%nat, TryRead); (1%nat, TryUpgradableRead)] _ ltac:(lia)
           ltac:(vm_compute; reflexivity) ltac:(vm_compute; reflexivity)
           ltac:(vm_compute; reflexivity)).
Defined.

(** Thirty-one readers of a lock over an [AtomicU8]. *)
Lemma upgradable_read_wraps_witness :
  (try_upgradable_read 8 31).1 = true ∧
  decode 8 (try_upgradable_read 8 31).2 = RwView false true false 0 ∧
  (try_write 8 (try_upgradable_read 8 31).2).1 = true.
Proof.
  exact (upgradable_read_wraps 8 31 ltac:(lia) ltac:(vm_compute; reflexivity)).
Defined.

(** Two upgradable guards share one bit: dropping both panics under debug
    assertions, and otherwise leaves one reader in the count for ever. *)
Definition nested_run : list (nat * action) :=
  [(0%nat, TryUpgradableRead); (0%nat, TryUpgradeMut); (0%nat, DowngradeToUpgradable);
   (0%nat, DropGuard); (0%nat, DropGuard)].
Lemma nested_downgrade :
  run 8 true nested_run (new_lock 1) = Some Panic ∧
  run 8 false nested_run (new_lock 1) = Some (Ret (Lock 1 [idle []])).
Proof. split; vm_compute; reflexivity. Qed.

(** The readers' exclusion is lost without the bound: 31 readers, then an upgradable
    one, then a writer. *)
Definition saturating_run : list (nat * action) :=
  ((λ i, (i, TryRead)) <$> seq 0 31) ++ [(31%nat, TryUpgradableRead); (32%nat, TryWrite)].
Lemma saturation_breaks_exclusion :
  match run 8 true saturating_run (new_lock 33) with
  | Some (Ret s) => guards <$> handles s =
      replicate 31 [ReaderGuard] ++ [[UpgradableReaderGuard]; [WriterGuard]]
  | _ => False
  end.
Proof. vm_compute. reflexivity. Qed.
