(* ===== verification/RwLive.v ===== *)
(** * [atomic_sync]: what a queued write request guarantees

    Progress of the writers of the lock of [RwLock.v]: once a [try_write] has left
    its request in the word, readers that come later are turned away, so the guards
    alive only become fewer until a writer gets in; and when they are gone the next
    [try_write] succeeds. *)

From S2P Require Import Prelude Atomex Words RwWord RwLock.

(** The guards alive, the calls that drop one, and whether a writer is in. *)
Definition held (s : lock) : Z := total (λ gs, Z.of_nat (length gs)) (handles s).
Definition is_drop (x : nat * action) : bool :=
  match x.2 with DropGuard => true | _ => false end.
Definition drops (acts : list (nat * action)) : Z :=
  foldr (λ x n, (if is_drop x then 1 else 0) + n) 0 acts.
Definition writer_in (s : lock) : Prop :=
  ∃ i h, handles s !! i = Some h ∧ WriterGuard ∈ guards h.

Section progress.
Context (w : Z) (Hw : 8 ≤ w) (debug : bool).
Implicit Types (s : lock) (v : rw_view).

(** The word is [v], and accounts for every guard. *)
Definition accounted v s : Prop :=
  view_ok w v ∧ stat_ s = encode w v ∧ view_inv v (handles s) ∧ exact v (handles s).

(** A request is queued and no writer is in. *)
Definition queued s : Prop := ∃ v, accounted v s ∧ Q v = true ∧ W v = false.

Lemma reading_length gs : reading gs ≤ Z.of_nat (length gs).
Proof. induction gs as [|[] gs IH]; simpl; lia. Qed.

Lemma total_le f g hs : (∀ gs, f gs ≤ g gs) → total f hs ≤ total g hs.
Proof. intros Hle. induction hs as [|h hs IH]; simpl; [done|]. pose proof (Hle (guards h)). lia. Qed.

Lemma insert_inj (hs : list handle) i h h1 h2 :
  hs !! i = Some h → <[i := h1]> hs = <[i := h2]> hs → h1 = h2.
Proof.
  intros Hi E. apply (f_equal (lookup i)) in E.
  rewrite !list_lookup_insert_eq in E by by eapply lookup_lt_Some. by simplify_eq.
Qed.

Lemma act_drops h h' (x x' : Z) :
  act w debug DropGuard h x = Some (Ret (h', x')) →
  length (guards h) = S (length (guards h')).
Proof.
  destruct h as [gs []]; [|done..]. unfold act, replace_guard. simpl.
  destruct gs as [|[] gs]; [done|..]; intros E; injection E as E;
    match type of E with (_ ← ?x; _) = _ => destruct x end; by simplify_eq/=.
Qed.

(** A move while a request is queued lets a writer in, or no guard at all. *)
Lemma moves_queued a v h h' v' :
  moves a v h h' v' → Q v = true → W v = false →
  W v' = true ∨
  (Q v' = true ∧ W v' = false ∧ (length (guards h') ≤ length (guards h))%nat).
Proof. intros Hm HQ HW. destruct Hm; simpl in *; (congruence || auto 6). Qed.

Lemma step_queued s i a s' :
  queued s →
  match a with TryUpgradableRead => expect_reader_lt_max w (stat_ s) | _ => true end = true →
  match a with DowngradeToUpgradable => negb (stacked s i) | _ => true end = true →
  lock_step w debug s i a = Some (Ret s') →
  writer_in s' ∨ (queued s' ∧ held s' + (if is_drop (i, a) then 1 else 0) ≤ held s).
Proof.
  intros (v & (Hv & Hst & Hvi & Hex) & HQ & HW) Hsat Hnest Hstep.
  destruct (lock_step_moves w Hw debug s i a _ v Hv Hst Hvi Hsat Hstep)
    as (h & Hi & h' & v' & Hv' & Es & Hm).
  pose proof (moves_inv _ _ _ _ _ _ _ Hvi Hi Hm) as Hvi'.
  destruct (moves_queued _ _ _ _ _ Hm HQ HW) as [HW'|(HQ' & HW' & Hlen)].
  { left. subst s'. by apply (writer_alive v' _ Hvi'). }
  right. split.
  { exists v'. subst s'. split; [|done]. split; [done|]. split; [done|]. split; [done|].
    eapply moves_exact; try done. intros ->. unfold stacked in Hnest. rewrite Hi in Hnest.
    destruct h as [[|? [|]] ?]; simpl in *; (lia || done). }
  unfold held. rewrite Es. simpl. rewrite (total_insert _ _ i h h' Hi).
  assert (a = DropGuard → length (guards h) = S (length (guards h'))) as Hd.
  { intros ->. unfold lock_step in Hstep. rewrite Hi in Hstep. simpl in Hstep.
    destruct (act w debug DropGuard h (stat_ s)) as [[[h1 s1]|]|] eqn:E; simplify_eq/=.
    assert (h1 = h') as -> by by eapply insert_inj.
    by eapply act_drops. }
  unfold is_drop. simpl. destruct a; try lia. specialize (Hd eq_refl). lia.
Qed.

(** A run from a queued lock: until the first writer gets in, if one does, every guard
    dropped is one of those alive at its start. *)
Definition until_writer (acts : list (nat * action)) s s' : Prop :=
  (∃ k s0 s1, run w debug (take k acts) s = Some (Ret s0) ∧ queued s0 ∧
     held s0 + drops (take k acts) ≤ held s ∧
     run w debug (take (S k) acts) s = Some (Ret s1) ∧ writer_in s1) ∨
  (queued s' ∧ held s' + drops acts ≤ held s).

Lemma run_queued acts : ∀ s s',
  queued s → unsaturated w debug acts s = true → single_upgradable w debug acts s = true →
  run w debug acts s = Some (Ret s') → until_writer acts s s'.
Proof.
  induction acts as [|[i a] acts IH]; intros s s' Hq Hun Hsg Hrun; simpl in Hun, Hsg, Hrun.
  { right. simplify_eq. split; [done|]. unfold drops. simpl. lia. }
  apply andb_true_iff in Hun as [Hsat Hun]. apply andb_true_iff in Hsg as [Hnest Hsg].
  destruct (lock_step w debug s i a) as [[s2|]|] eqn:Hstep; [|done..].
  destruct (step_queued s i a s2 Hq Hsat Hnest Hstep) as [Hin|[Hq2 Hd]].
  { left. exists 0%nat, s, s2. simpl. rewrite Hstep.
    split_and!; [done|done|unfold drops; simpl; lia|by destruct acts|done]. }
  destruct (IH s2 s' Hq2 Hun Hsg Hrun)
    as [(k & s0 & s1 & Hk & Hq0 & Hd0 & Hk1 & Hin)|[Hq' Hd']].
  { left. exists (S k), s0, s1. cbn [take run]. rewrite Hstep.
    split_and!; [done|done|simpl drops; lia|done|done]. }
  right. split; [done|]. simpl drops. lia.
Qed.

(** With no guard left, an idle handle gets the writer guard. *)
Lemma queued_free s i :
  queued s → held s = 0 → handles s !! i = Some (idle []) →
  ∃ s', lock_step w debug s i TryWrite = Some (Ret s') ∧
        handles s' !! i = Some (idle [WriterGuard]).
Proof.
  intros (v & (Hv & Hst & Hvi & [HR _]) & HQ & HW) Hh Hi.
  assert (R v = 0) as HR0.
  { pose proof (total_le reading (λ gs, Z.of_nat (length gs)) (handles s) reading_length).
    unfold held in Hh, Hv, Hst |- *. unfold view_ok in Hv. lia. }
  unfold lock_step. rewrite Hi. simpl. rewrite Hst.
  rewrite try_write_attempt_encode, HR0, HW by (done || lia). simpl.
  eexists. split; [reflexivity|]. simpl.
  by rewrite list_lookup_insert_eq by by eapply lookup_lt_Some.
Qed.

Lemma queued_no_writer s : queued s → ¬ writer_in s.
Proof.
  intros (v & (_ & _ & Hvi & _) & _ & HW) Hin.
  apply (writer_alive v _ Hvi) in Hin. congruence.
Qed.
End progress.

(** ** Properties *)

(** C17: the readers do not starve a writer.  Let a [try_write] have left its request
    in the word of a lock that any number of handles use and on which no writer guard
    is alive, and let the handles go on with any calls, in any order.  Until a writer
    gets in no new guard is granted: every guard dropped is one of those that were alive
    at the request.  Either some writer gets in on the way, or none does, and then the
    next [try_write] of an idle handle succeeds once those guards have all been dropped.
    (As in the other theorems on this lock, [try_upgradable_read] is not called with the
    count at its maximum, nor an upgraded guard downgraded to an upgradable one.  A
    request made while a writer is in is lost with that writer's guard:
    [request_cleared_by_writer].) *)
Theorem queued_writer_served w debug n pre acts s s' :
  8 ≤ w →
  unsaturated w debug pre (new_lock n) = true →
  single_upgradable w debug pre (new_lock n) = true →
  run w debug pre (new_lock n) = Some (Ret s) →
  expect_writer_queued w (stat_ s) = true → ¬ writer_in s →
  unsaturated w debug acts s = true → single_upgradable w debug acts s = true →
  run w debug acts s = Some (Ret s') →
  (∃ k s0 s1, run w debug (take k acts) s = Some (Ret s0) ∧ ¬ writer_in s0 ∧
     held s0 + drops (take k acts) ≤ held s ∧
     run w debug (take (S k) acts) s = Some (Ret s1) ∧ writer_in s1) ∨
  (¬ writer_in s' ∧ held s' + drops acts ≤ held s ∧
   (held s ≤ drops acts → ∀ i, handles s' !! i = Some (idle []) →
      ∃ s2, lock_step w debug s' i TryWrite = Some (Ret s2) ∧
            handles s2 !! i = Some (idle [WriterGuard]))).
Proof.
  intros Hw Hun Hsg Hpre HQ Hno Hun' Hsg' Hrun.
  destruct (new_lock_views w Hw n) as (Hv & Hst & Hvi & Hex).
  destruct (run_exact w Hw debug pre _ _ _ Hv Hst Hvi Hex Hun Hsg Hpre)
    as (s0 & v & E & Hv1 & Hst1 & Hvi1 & Hex1). injection E as <-.
  assert (queued w s) as Hq.
  { exists v. split; [done|]. split; [by rewrite Hst1, writer_queued_encode in HQ by (done || lia)|].
    destruct (W v) eqn:HW; [|done]. destruct Hno. by apply (writer_alive v _ Hvi1). }
  destruct (run_queued w Hw debug acts s s' Hq Hun' Hsg' Hrun)
    as [(k & s0 & s1 & Hk & Hq0 & Hd & Hk1 & Hin)|[Hq' Hd]].
  { left. exists k, s0, s1. split_and!; [done|by eapply queued_no_writer|done..]. }
  right. split; [by eapply queued_no_writer|]. split; [done|].
  intros Hall i Hi. apply (queued_free w Hw debug s' i Hq'); [|done].
  assert (0 ≤ held s'); [|lia]. unfold held. clear.
  induction (handles s') as [|h hs IH]; simpl; lia.
Qed.

(** The drop of a writer guard clears the request with the writer bit: a request made
    while a writer is in is lost with it, and readers are granted again. *)
Theorem request_cleared_by_writer w debug s i gs s' :
  8 ≤ w → handles s !! i = Some (idle (WriterGuard :: gs)) →
  (∃ v, view_ok w v ∧ stat_ s = encode w v ∧ W v = true) →
  lock_step w debug s i DropGuard = Some (Ret s') →
  expect_writer_queued w (stat_ s') = false.
Proof.
  intros Hw Hi (v & Hv & Hst & HW) Hstep. unfold lock_step in Hstep. rewrite Hi in Hstep.
  simpl in Hstep. unfold drop_writer_guard in Hstep.
  rewrite Hst, on_writer_guard_drop_encode, HW in Hstep by (done || lia). simpl in Hstep.
  unfold debug_assert in Hstep. rewrite andb_false_r in Hstep. simplify_eq/=.
  rewrite writer_queued_encode by (done || lia). done.
Qed.

Lemma request_cleared_by_writer_witness :
  ∃ s s1 s2, run 8 true [(0%nat, TryWrite); (1%nat, TryWrite); (1%nat, Resume)] (new_lock 3)
    = Some (Ret s) ∧ expect_writer_queued 8 (stat_ s) = true ∧
  lock_step 8 true s 0 DropGuard = Some (Ret s1) ∧ expect_writer_queued 8 (stat_ s1) = false ∧
  lock_step 8 true s1 2 TryRead = Some (Ret s2) ∧
  handles s2 !! 2%nat = Some (idle [ReaderGuard]).
Proof.
  do 3 eexists. split; [vm_compute; reflexivity|]. split; [reflexivity|].
  split; [vm_compute; reflexivity|].
  split; [|split; [vm_compute; reflexivity|reflexivity]].
  eapply (request_cleared_by_writer 8 true
    (Lock 192 [idle [WriterGuard]; idle []; idle []]) 0 []); [lia|reflexivity| |].
  - exists (RwView true true false 0). vm_compute. repeat split; congruence.
  - vm_compute. reflexivity.
Defined.

(** ** Witnesses *)

(** Two readers, a write that is refused and leaves its request, a reader that is
    turned away; the readers leave. *)
Definition request_run : list (nat * action) :=
  [(0%nat, TryRead); (1%nat, TryRead); (2%nat, TryWrite); (2%nat, Resume)].
Definition leave_run : list (nat * action) :=
  [(0%nat, DropGuard); (0%nat, TryRead); (1%nat, DropGuard)].
Definition requested_lock : lock :=
  Lock 66 [idle [ReaderGuard]; idle [ReaderGuard]; idle []].
Definition left_lock : lock := Lock 64 [idle []; idle []; idle []].

Lemma requested_no_writer : ¬ writer_in requested_lock.
Proof.
  intros (i & h & Hi & Hw). destruct i as [|[|[|i]]]; simplify_eq/=;
    repeat (apply elem_of_cons in Hw as [?|Hw]; [done|]); by apply elem_of_nil in Hw.
Qed.

Lemma queued_writer_served_witness :
  ∃ s2, lock_step 8 true left_lock 2 TryWrite = Some (Ret s2) ∧
        handles s2 !! 2%nat = Some (idle [WriterGuard]).
Proof.
  destruct (queued_writer_served 8 true 3 request_run leave_run requested_lock left_lock
    ltac:(lia) ltac:(vm_compute; reflexivity) ltac:(vm_compute; reflexivity)
    ltac:(vm_compute; reflexivity) ltac:(vm_compute; reflexivity)
    requested_no_writer ltac:(vm_compute; reflexivity) ltac:(vm_compute; reflexivity)
    ltac:(vm_compute; reflexivity)) as [(k & s0 & s1 & Hk & Hin)|(_ & _ & Hs)].
  - eexists. split; [vm_compute; reflexivity|reflexivity].
  - apply Hs; [vm_compute; congruence|reflexivity].
Defined.
