(* ===== verification/Mutex.v ===== *)
(** * [atomic_sync]: the spinning mutex

    Models [crates/atomic_sync/src/mutex/preemptive.rs].  The mutex borrows one
    bit of a word that may carry something else: [TrMutexSignal] says which values
    are acquired and how to mark them, with two implementations.  Threads
    interleave at each access of the word, weak exchanges may fail spuriously, and
    the token of a waiting thread may be cancelled at any poll. *)

From S2P Require Import Prelude Atomex Words.

(** ** [TrMutexSignal] *)

Class TrMutexSignal (V : Type) : Type := {
  is_acquired : V → bool;
  make_acquired : V → V;
  make_released : V → V;
}.
Definition is_released {V} `{!TrMutexSignal V} (val : V) : bool := negb (is_acquired val).

(** What the mutex asks of a signal, on the values the word can take. *)
Class LawfulSignal (V : Type) `{!TrMutexSignal V} (valid : V → Prop) : Prop := {
  acquire_marks v : valid v → is_acquired v = false → is_acquired (make_acquired v) = true;
  release_restores v : valid v → is_acquired v = false → make_released (make_acquired v) = v;
}.

(** [MsbAsMutexSignal]: the most significant bit. *)
Definition K_MSB_FLAG (w : Z) : Z := word_bit (w - 1).
Definition MsbAsMutexSignal (w : Z) : TrMutexSignal Z := {|
  is_acquired val := Z.land val (K_MSB_FLAG w) =? K_MSB_FLAG w;
  make_acquired val := Z.lor val (K_MSB_FLAG w);
  make_released val := Z.land val (word_not w (K_MSB_FLAG w));
|}.

(** [PtrAsMutexSignal]: the parity of an address; the arithmetic is on [usize]. *)
Definition K_MOD : Z := 2.
Definition K_RES : Z := 1.
Definition PtrAsMutexSignal : TrMutexSignal Z := {|
  is_acquired val := val mod K_MOD =? K_RES;
  make_acquired val := (val + K_RES) mod 2 ^ USIZE_BITS;
  make_released val := (val - K_RES) mod 2 ^ USIZE_BITS;
|}.

#[export] Instance msb_lawful w :
  1 ≤ w → @LawfulSignal Z (MsbAsMutexSignal w) (is_word w).
Proof.
  intros Hw. split; unfold is_acquired, make_acquired, make_released, MsbAsMutexSignal, K_MSB_FLAG;
    intros v Hv; rewrite word_bit_test by lia; intros Hr.
  - rewrite word_bit_test, Z.lor_spec, word_bit_testbit, Z.eqb_refl by lia.
    apply orb_true_r.
  - by apply word_bit_set_clear; [lia..| |].
Qed.

#[export] Instance ptr_lawful : @LawfulSignal Z PtrAsMutexSignal is_usize.
Proof.
  split; unfold is_acquired, make_acquired, make_released, PtrAsMutexSignal, K_MOD, K_RES,
    is_usize, USIZE_MAX, USIZE_BITS; intros v Hv Hr; bool_to_prop;
    pose proof (Z.mod_pos_bound v 2 ltac:(lia));
    pose proof (Z.div_mod v 2 ltac:(lia));
    rewrite (Z.mod_small (v + 1)) by lia.
  - apply Z.eqb_eq. replace (v + 1) with (1 + v / 2 * 2) by lia.
    by rewrite Z.mod_add by lia.
  - rewrite Z.mod_small by lia. lia.
Qed.

Section mutex.
Context {V : Type} `{EqDecision V} {SG : TrMutexSignal V} {T : Type}.

(** Where a thread is: outside, in [try_lock] after its load, at the top of the
    loop of [try_spin_acquire_], before its exchange, before its reload, inside
    the critical section with what it last read of the data, or in the loop of
    [try_spin_release_] that the drop of its guard runs. *)
Inductive phase : Type :=
| Outside
| TryLocking (current : V)
| SpinPoll (current : V)
| SpinExchange (current : V)
| SpinReload
| Guarded (seen : option T)
| Releasing (current : V).

(** What a thread does next: a call of [try_lock] or [lock], the drop of its
    guard, a read or a write of the data through the guard, or the next access of
    the call in progress, with the answer of the token and of the weak exchange. *)
Inductive event : Type :=
| CallTryLock
| CallLock
| DropGuard
| ReadData
| WriteData (f : T → T)
| Continue (is_cancelled spurious : bool).

(** [log]: the functions written so far, the last one first. *)
Record mutex : Type := Mutex { state_ : V; value_ : T; threads : list phase;
                               log : list (T → T) }.

(** One access of the word by a thread. *)
Definition try_lock_exchange (sp : bool) (cell current : V) : phase * V :=
  match try_once_compare_exchange_weak is_released make_acquired sp cell current with
  | (Succ _, cell') => (Guarded None, cell')
  | (_, cell') => (Outside, cell')
  end.
Definition try_spin_acquire_round (sp : bool) (cell current : V) : phase * V :=
  match try_once_compare_exchange_weak is_released make_acquired sp cell current with
  | (Unexpected _, cell') => (SpinReload, cell')
  | (Succ _, cell') => (Guarded None, cell')
  | (Fail x, cell') => (SpinPoll x, cell')
  end.
Definition try_spin_release_round (sp : bool) (cell current : V) : phase * V :=
  match try_once_compare_exchange_weak is_acquired make_released sp cell current with
  | (Fail x, cell') => (Releasing x, cell')
  | (_, cell') => (Outside, cell')
  end.

Definition word_step (p : phase) (e : event) (cell : V) : option (phase * V) :=
  match p, e with
  | Outside, CallTryLock => Some (TryLocking cell, cell)
  | TryLocking current, Continue _ sp => Some (try_lock_exchange sp cell current)
  | Outside, CallLock => Some (SpinPoll cell, cell)
  | SpinPoll current, Continue is_cancelled _ =>
      Some (if is_cancelled then Outside else SpinExchange current, cell)
  | SpinExchange current, Continue _ sp => Some (try_spin_acquire_round sp cell current)
  | SpinReload, Continue _ _ => Some (SpinPoll cell, cell)
  | Guarded _, DropGuard => Some (Releasing cell, cell)
  | Releasing current, Continue _ sp => Some (try_spin_release_round sp cell current)
  | _, _ => None
  end.

(** One step of a thread: on the data through its guard ([deref], [deref_mut]), or
    on the word.  A write stores what the thread computed from its last read. *)
Definition mutex_step (s : mutex) (i : nat) (e : event) : option mutex :=
  p ← threads s !! i;
  match p, e with
  | Guarded _, ReadData =>
      Some (Mutex (state_ s) (value_ s) (<[i := Guarded (Some (value_ s))]> (threads s))
                  (log s))
  | Guarded (Some x), WriteData f =>
      Some (Mutex (state_ s) (f x) (<[i := Guarded (Some (f x))]> (threads s))
                  (f :: log s))
  | _, _ =>
      '(p', cell) ← word_step p e (state_ s);
      Some (Mutex cell (value_ s) (<[i := p']> (threads s)) (log s))
  end.

Fixpoint run (es : list (nat * event)) (s : mutex) : option mutex :=
  match es with
  | [] => Some s
  | (i, e) :: es' => s' ← mutex_step s i e; run es' s'
  end.

(** [SpinningMutex::new] with [n] threads. *)
Definition new_mutex (data : T) (cell : V) (n : nat) : mutex :=
  Mutex cell data (replicate n Outside) [].

Definition holds (p : phase) : bool :=
  match p with Guarded _ | Releasing _ => true | _ => false end.
Definition inside (p : phase) : bool :=
  match p with Guarded _ => true | _ => false end.
End mutex.
Arguments phase : clear implicits.
Arguments event : clear implicits.
Arguments mutex : clear implicits.

(** ** The lock invariant *)

Section invariant.
Context {V : Type} `{EqDecision V} {SG : TrMutexSignal V} {T : Type}.
Context (valid : V → Prop) `{!LawfulSignal V valid}.
Context (v0 : V) (Hv0 : valid v0) (Hr0 : is_acquired v0 = false).
Implicit Types (p : phase V T) (ps : list (phase V T)) (i j : nat) (e : event T).
Implicit Types (s : mutex V T).

(** The phase against the cell: a holder left it marked, and a releasing thread
    expects exactly that. *)
Definition phase_ok (cell : V) (p : phase V T) : Prop :=
  (holds p = true → cell = make_acquired v0) ∧
  ∀ c, p = Releasing c → c = make_acquired v0.

Definition fresh (p : phase V T) : Prop := ∀ x, p ≠ Guarded (Some x).

(** One access of the word keeps the holder, acquires it, or releases it. *)
Inductive word_move (cell : V) (p p' : phase V T) (cell' : V) : Prop :=
| wm_keep : cell' = cell → holds p' = holds p → word_move cell p p' cell'
| wm_acquire : cell = v0 → cell' = make_acquired v0 → holds p = false →
    holds p' = true → word_move cell p p' cell'
| wm_release : cell = make_acquired v0 → cell' = v0 → holds p = true →
    holds p' = false → word_move cell p p' cell'.

Lemma marked : is_acquired (make_acquired v0) = true.
Proof. by apply (acquire_marks (valid := valid)). Qed.
Lemma restored : make_released (make_acquired v0) = v0.
Proof. by apply (release_restores (valid := valid)). Qed.
Lemma v0_released : is_released v0 = true.
Proof. unfold is_released. by rewrite Hr0. Qed.

Lemma acquire_exchange sp cell current :
  cell = v0 ∨ cell = make_acquired v0 →
  match try_once_compare_exchange_weak is_released make_acquired sp cell current with
  | (Succ _, cell') => cell = v0 ∧ cell' = make_acquired v0
  | (_, cell') => cell' = cell
  end.
Proof.
  intros Hc.
  destruct (try_once_cases is_released make_acquired sp cell current)
    as [(_ & ->)|[(He & <- & _ & ->)|(_ & _ & ->)]]; [done| |done].
  destruct Hc as [->| ->]; [done|]. unfold is_released in He. by rewrite marked in He.
Qed.

Lemma word_step_move p e cell p' cell' :
  cell = v0 ∨ cell = make_acquired v0 → phase_ok cell p →
  word_step p e cell = Some (p', cell') →
  word_move cell p p' cell' ∧ fresh p' ∧ ∀ c, p' = Releasing c → c = make_acquired v0.
Proof.
  intros Hc [Hh Hrel] Hstep.
  destruct p as [|cur|cur|cur| |x|cur], e as [| | | |f|b sp]; simplify_eq/=;
    try (split; [by apply wm_keep|done]).
  - unfold try_lock_exchange in *. pose proof (acquire_exchange sp cell cur Hc) as Ha.
    destruct (try_once_compare_exchange_weak _ _ _ _ _) as [[] c]; simplify_eq/=;
      (split; [|done]); [by destruct Ha; apply wm_acquire|by apply wm_keep..].
  - split; [|by destruct b]. by destruct b; apply wm_keep.
  - unfold try_spin_acquire_round in *. pose proof (acquire_exchange sp cell cur Hc) as Ha.
    destruct (try_once_compare_exchange_weak _ _ _ _ _) as [[] c]; simplify_eq/=;
      (split; [|done]); [by destruct Ha; apply wm_acquire|by apply wm_keep..].
  - split; [by apply wm_keep|]. split; [done|]. intros c [= <-]. by apply Hh.
  - rewrite (Hrel cur eq_refl), (Hh eq_refl) in *. unfold try_spin_release_round in *.
    destruct (try_once_cases is_acquired make_released sp (make_acquired v0) (make_acquired v0))
      as [(He & _)|[(_ & _ & _ & E)|(_ & _ & E)]];
      [by rewrite marked in He|rewrite E in *; simplify_eq..].
    + split; [|done]. apply wm_release; (done || apply restored).
    + split; [by apply wm_keep|]. split; [done|]. by intros c [= <-].
Qed.

Definition at_most_one (ps : list (phase V T)) : Prop :=
  ∀ i j p q, ps !! i = Some p → ps !! j = Some q → holds p = true → holds q = true → i = j.
Definition none (ps : list (phase V T)) : Prop :=
  ∀ i p, ps !! i = Some p → holds p = false.

Record mutex_inv (data : T) (s : mutex V T) : Prop := {
  mi_one : at_most_one (threads s);
  mi_cell : (state_ s = v0 ∧ none (threads s)) ∨
            (state_ s = make_acquired v0 ∧
             ∃ i p, threads s !! i = Some p ∧ holds p = true);
  mi_phase : ∀ i c, threads s !! i = Some (Releasing c) → c = make_acquired v0;
  mi_seen : ∀ i x, threads s !! i = Some (Guarded (Some x)) → x = value_ s;
  mi_value : value_ s = foldr (λ f x, f x) data (log s);
}.

Lemma mutex_inv_phase data s i p :
  mutex_inv data s → threads s !! i = Some p → phase_ok (state_ s) p.
Proof.
  intros [_ Hc Hrel _ _] Hi. split; [|intros c ->; by eapply Hrel].
  intros Hp. destruct Hc as [[_ Hn]|[Hc _]]; [|done].
  by rewrite (Hn i p Hi) in Hp.
Qed.

(** Replacing the phase of one thread. *)
Lemma at_most_one_insert ps i p p' :
  at_most_one ps → ps !! i = Some p → (holds p' = true → holds p = true ∨ none ps) →
  at_most_one (<[i := p']> ps).
Proof.
  intros Hone Hi Hp j k q r [(<- & <- & _)|[Hj Hjq]]%list_lookup_insert_Some
    [(<- & <- & _)|[Hk Hkr]]%list_lookup_insert_Some Hq Hr; [done| | |by eapply Hone].
  - destruct (Hp Hq) as [Hold|Hn]; [by eapply Hone|by rewrite (Hn k r Hkr) in Hr].
  - destruct (Hp Hr) as [Hold|Hn]; [by eapply Hone|by rewrite (Hn j q Hjq) in Hq].
Qed.

Lemma none_insert ps i p p' :
  at_most_one ps → ps !! i = Some p → holds p = true ∨ none ps → holds p' = false →
  none (<[i := p']> ps).
Proof.
  intros Hone Hi Hp Hp' j q [(_ & <- & _)|[Hj Hjq]]%list_lookup_insert_Some; [done|].
  destruct Hp as [Hp|Hn]; [|by eapply Hn]. destruct (holds q) eqn:Hq; [|done].
  destruct Hj. by eapply Hone.
Qed.

Lemma some_insert ps i p p' :
  ps !! i = Some p → holds p' = true ∨ (holds p = false ∧ ∃ j q, ps !! j = Some q ∧ holds q = true) →
  ∃ j q, <[i := p']> ps !! j = Some q ∧ holds q = true.
Proof.
  intros Hi [Hp|(Hp & j & q & Hj & Hq)].
  - exists i, p'. split; [|done]. apply list_lookup_insert_eq. by eapply lookup_lt_Some.
  - exists j, q. split; [|done]. rewrite list_lookup_insert_ne; [done|].
    intros ->. congruence.
Qed.

Lemma word_step_inv data s i p e p' cell' :
  mutex_inv data s → threads s !! i = Some p →
  word_step p e (state_ s) = Some (p', cell') →
  mutex_inv data (Mutex cell' (value_ s) (<[i := p']> (threads s)) (log s)).
Proof.
  intros Hinv Hi Hstep. pose proof (mutex_inv_phase data s i p Hinv Hi) as Hp.
  destruct Hinv as [Hone Hcell Hrel Hseen Hval].
  assert (state_ s = v0 ∨ state_ s = make_acquired v0) as Hc by tauto.
  destruct (word_step_move p e _ p' cell' Hc Hp Hstep) as (Hm & Hfresh & Hrel').
  assert (v0 ≠ make_acquired v0) as Hne.
  { intros E. pose proof marked as Hm'. rewrite <- E in Hm'. congruence. }
  split; simpl; [| | | |done].
  - eapply at_most_one_insert; [done..|]. intros Hp'.
    destruct Hm as [_ Hh|Hcv _ _ _|]; [rewrite <- Hh; by left| |congruence].
    right. destruct Hcell as [[_ ?]|[? _]]; [done|congruence].
  - destruct Hm as [-> Hh|Hcv -> Hh Hh'|Hcv -> Hh Hh'].
    + destruct Hcell as [[Hcv Hn]|[Hcv Hs]]; [left|right]; (split; [done|]).
      * eapply none_insert; [done..|by right|]. rewrite Hh. by eapply Hn.
      * eapply some_insert; [done|]. destruct (holds p) eqn:E; [by left|].
        right. by split.
    + right. split; [done|]. eapply some_insert; [done|by left].
    + left. split; [done|]. eapply none_insert; [done..|by left|done].
  - intros j c [(_ & -> & _)|[_ Hj]]%list_lookup_insert_Some; [by apply Hrel'|by eapply Hrel].
  - intros j x [(_ & -> & _)|[_ Hj]]%list_lookup_insert_Some; [by destruct (Hfresh x)|].
    by eapply Hseen.
Qed.

(** An access of the data through a guard. *)
Lemma data_step_inv data s i x x' y log' :
  mutex_inv data s → threads s !! i = Some (Guarded x) →
  x' = y → y = foldr (λ f x, f x) data log' →
  mutex_inv data (Mutex (state_ s) y (<[i := Guarded (Some x')]> (threads s)) log').
Proof.
  intros [Hone Hcell Hrel Hseen Hval] Hi -> Hy. split; simpl; [| | | |done].
  - eapply at_most_one_insert; [done..|by left].
  - destruct Hcell as [[Hcv Hn]|[Hcv Hs]]; [by specialize (Hn i _ Hi)|].
    right. split; [done|]. eapply some_insert; [done|by left].
  - intros j c [(_ & ? & _)|[_ Hj]]%list_lookup_insert_Some; [done|by eapply Hrel].
  - intros j z [(_ & ? & _)|[Hne Hj]]%list_lookup_insert_Some; [by simplify_eq|].
    destruct Hne. by eapply Hone.
Qed.

Lemma mutex_step_inv data s i e s' :
  mutex_inv data s → mutex_step s i e = Some s' → mutex_inv data s'.
Proof.
  intros Hinv Hstep. unfold mutex_step in Hstep.
  destruct (threads s !! i) as [p|] eqn:Hi; [simpl in Hstep|done].
  assert (∀ r, r = Some s' → r = ('(p', cell) ← word_step p e (state_ s);
      Some (Mutex cell (value_ s) (<[i := p']> (threads s)) (log s))) → mutex_inv data s')
    as Hword.
  { intros r -> Hr. destruct (word_step p e (state_ s)) as [[p' cell]|] eqn:E;
      simplify_eq/=. by eapply word_step_inv. }
  destruct p as [|cur|cur|cur| |[x|]|cur], e as [| | | |f|b sp];
    try (eapply Hword; [exact Hstep|done]); simplify_eq/=.
  - eapply data_step_inv; [done..|by destruct Hinv].
  - pose proof (mi_seen _ _ Hinv i x Hi) as ->.
    eapply data_step_inv; [done..|]. simpl. by rewrite <- (mi_value _ _ Hinv).
  - eapply data_step_inv; [done..|by destruct Hinv].
Qed.

Lemma run_mutex_inv data es : ∀ s s',
  mutex_inv data s → run es s = Some s' → mutex_inv data s'.
Proof.
  induction es as [|[i e] es IH]; intros s s' Hinv Hrun; simpl in *; [by simplify_eq|].
  destruct (mutex_step s i e) as [s1|] eqn:E; [simpl in Hrun|done].
  eapply IH; [|done]. by eapply mutex_step_inv.
Qed.

Lemma new_mutex_inv data n : mutex_inv data (new_mutex data v0 n).
Proof.
  split; simpl; [..|done].
  - intros i j p q [-> _]%lookup_replicate. done.
  - left. split; [done|]. by intros i p [-> _]%lookup_replicate.
  - by intros i c [? _]%lookup_replicate.
  - by intros i c [? _]%lookup_replicate.
Qed.
End invariant.

(** ** Properties *)

(** C19: the mutex excludes, for every lawful signal.  Whatever the interleaving,
    the spurious failures and the cancellations, at most one thread is between the
    success of its exchange and the release by its guard; the word is marked
    exactly while there is one; and the word is otherwise untouched, so that what
    it carried is restored. *)
Theorem mutex_exclusion {V T} `{EqDecision V} `{!TrMutexSignal V} (valid : V → Prop)
    `{!LawfulSignal V valid} (v0 : V) (data : T) n es s :
  valid v0 → is_acquired v0 = false → run es (new_mutex data v0 n) = Some s →
  at_most_one (threads s) ∧
  (is_acquired (state_ s) = true ↔ ∃ i p, threads s !! i = Some p ∧ holds p = true) ∧
  state_ s = (if is_acquired (state_ s) then make_acquired v0 else v0).
Proof.
  intros Hv Hr Hrun.
  pose proof (run_mutex_inv valid v0 Hv Hr data es _ _ (new_mutex_inv v0 data n) Hrun)
    as [Hone Hcell _ _ _].
  pose proof (marked valid v0 Hv Hr) as Hm.
  split; [done|]. destruct Hcell as [[-> Hn]|[-> Hs]].
  - rewrite Hr. split; [|done]. split; [done|].
    intros (i & p & Hi & Hp). by rewrite (Hn i p Hi) in Hp.
  - rewrite Hm. done.
Qed.

(** C36: updates under the mutex are not lost.  Threads that read the data through
    their guard, compute, and write in a later step leave the data as if their
    writes had been applied one after the other, in the order they were made. *)
Theorem mutex_serializes {V T} `{EqDecision V} `{!TrMutexSignal V} (valid : V → Prop)
    `{!LawfulSignal V valid} (v0 : V) (data : T) n es s :
  valid v0 → is_acquired v0 = false → run es (new_mutex data v0 n) = Some s →
  value_ s = foldr (λ f x, f x) data (log s) ∧
  ∀ i x, threads s !! i = Some (Guarded (Some x)) → x = value_ s.
Proof.
  intros Hv Hr Hrun.
  by destruct (run_mutex_inv valid v0 Hv Hr data es _ _ (new_mutex_inv v0 data n) Hrun).
Qed.

Lemma continue_spin {V T} `{EqDecision V} `{!TrMutexSignal V} (s : mutex V T) i p p' cell' b sp :
  threads s !! i = Some p → inside p = false →
  word_step p (Continue b sp) (state_ s) = Some (p', cell') →
  mutex_step s i (Continue b sp) =
  Some (Mutex cell' (value_ s) (<[i := p']> (threads s)) (log s)).
Proof.
  intros Hi Hp Hstep. unfold mutex_step. rewrite Hi. simpl.
  destruct p; try done; by rewrite Hstep.
Qed.

(** The exchange of a thread that expects the released value in the cell. *)
Lemma exchange_released {V T} `{EqDecision V} `{!TrMutexSignal V} (cell : V) :
  is_acquired cell = false →
  try_spin_acquire_round (T := T) false cell cell = (Guarded None, make_acquired cell).
Proof.
  intros Hr. unfold try_spin_acquire_round, try_once_compare_exchange_weak,
    compare_exchange_weak, is_released. rewrite Hr. simpl. by rewrite decide_True.
Qed.

(** With any other expectation the loop comes back with the value of the cell. *)
Lemma exchange_stale {V T} `{EqDecision V} `{!TrMutexSignal V} (cell current : V) :
  current ≠ cell →
  try_spin_acquire_round (T := T) false cell current =
  (if is_acquired current then SpinReload else SpinPoll cell, cell).
Proof.
  intros Hne. unfold try_spin_acquire_round, try_once_compare_exchange_weak,
    compare_exchange_weak, is_released.
  destruct (is_acquired current); simpl; [done|]. by rewrite decide_False.
Qed.

(** A thread that runs alone, undisturbed. *)
Fixpoint solo {V T} `{EqDecision V} `{!TrMutexSignal V} (k : nat) (p : phase V T) (cell : V) :
    option (phase V T * V) :=
  match k with
  | O => Some (p, cell)
  | S k' => '(p', cell') ← word_step p (Continue false false) cell; solo k' p' cell'
  end.

Lemma run_solo {V T} `{EqDecision V} `{!TrMutexSignal V} k : ∀ (s : mutex V T) i p p' cell',
  threads s !! i = Some p → solo k p (state_ s) = Some (p', cell') →
  run (replicate k (i, Continue false false)) s =
  Some (Mutex cell' (value_ s) (<[i := p']> (threads s)) (log s)).
Proof.
  induction k as [|k IH]; intros s i p p' cell' Hi Hsolo; simpl in *.
  { simplify_eq. rewrite list_insert_id by done. by destruct s. }
  destruct (word_step p (Continue false false) (state_ s)) as [[p1 c1]|] eqn:Hw; [|done].
  simpl in Hsolo. erewrite continue_spin; [|done| |done]; [|by destruct p]. simpl.
  erewrite IH; [|by apply list_lookup_insert_eq; eapply lookup_lt_Some|done].
  simpl. by rewrite list_insert_insert_eq.
Qed.

Lemma solo_acquires {V T} `{EqDecision V} `{!TrMutexSignal V} (cell current : V) :
  is_acquired cell = false →
  ∃ k, (k ≤ 5)%nat ∧
       solo (T := T) k (SpinPoll current) cell = Some (Guarded None, make_acquired cell).
Proof.
  intros Hr. assert (solo (T := T) 2 (SpinPoll cell) cell = Some (Guarded None, make_acquired cell))
    as H2 by (simpl; by rewrite exchange_released).
  destruct (decide (current = cell)) as [->|Hne]; [exists 2%nat; split; [lia|done]|].
  exists (if is_acquired current then 5%nat else 4%nat).
  split; [destruct (is_acquired current); lia|].
  pose proof (exchange_stale (T := T) cell current Hne) as Hs.
  destruct (is_acquired current); simpl; rewrite Hs; simpl; by rewrite exchange_released.
Qed.

(** A waiting thread gets a released mutex.  From any round of the loop of
    [lock], and whatever stale value it expects the word to hold, a thread that
    runs with the mutex released, without cancellation, interference or spurious
    failure, holds the mutex after at most five accesses; a poll that finds the
    token cancelled ends the call without touching the word. *)
Theorem mutex_lock_progress {V T} `{EqDecision V} `{!TrMutexSignal V}
    (s : mutex V T) i current :
  threads s !! i = Some (SpinPoll current) →
  (is_acquired (state_ s) = false →
   ∃ k, (k ≤ 5)%nat ∧
   run (replicate k (i, Continue false false)) s =
   Some (Mutex (make_acquired (state_ s)) (value_ s) (<[i := Guarded None]> (threads s)) (log s))) ∧
  ∀ sp, mutex_step s i (Continue true sp) =
        Some (Mutex (state_ s) (value_ s) (<[i := Outside]> (threads s)) (log s)).
Proof.
  intros Hi. split; [|intros sp; by erewrite continue_spin].
  intros Hr. destruct (solo_acquires (T := T) (state_ s) current Hr) as (k & Hk & Hsolo).
  exists k. split; [done|]. by eapply run_solo.
Qed.

(** ** Witnesses *)

(** Two threads increment the data under a mutex in the top bit of a byte that
    carries 5: the second waits, reloads a stale expectation, and the run ends with
    both updates made. *)
Definition increments_run : list (nat * event Z) :=
  [(0%nat, CallLock); (1%nat, CallLock); (0%nat, Continue false false);
   (1%nat, Continue false false); (0%nat, Continue false true);
   (0%nat, Continue false false); (0%nat, Continue false false); (0%nat, ReadData);
   (1%nat, Continue false false); (1%nat, Continue false false);
   (1%nat, Continue false false); (0%nat, WriteData (Z.add 1));
   (0%nat, DropGuard); (1%nat, Continue false false); (0%nat, Continue false false);
   (1%nat, Continue false false); (1%nat, Continue false false);
   (1%nat, Continue false false); (1%nat, Continue false false);
   (1%nat, Continue false false); (1%nat, ReadData); (1%nat, WriteData (Z.add 1))].
Definition increments_end : mutex Z Z :=
  Mutex 133 2 [Outside; Guarded (Some 2)] [Z.add 1; Z.add 1].

Lemma mutex_exclusion_witness :
  at_most_one (threads increments_end) ∧
  ((Z.land (state_ increments_end) 128 =? 128) = true ↔
   ∃ i p, threads increments_end !! i = Some p ∧ holds p = true) ∧
  state_ increments_end = (if true then Z.lor 5 128 else 5).
Proof.
  exact (@mutex_exclusion Z Z _ (MsbAsMutexSignal 8) (is_word 8) (msb_lawful 8 ltac:(lia))
           5 0 2 increments_run increments_end ltac:(unfold is_word; lia)
           ltac:(vm_compute; reflexivity) ltac:(vm_compute; reflexivity)).
Defined.

Lemma mutex_serializes_witness :
  value_ increments_end = foldr (λ f x, f x) 0 (log increments_end) ∧
  ∀ i x, threads increments_end !! i = Some (Guarded (Some x)) → x = value_ increments_end.
Proof.
  exact (@mutex_serializes Z Z _ (MsbAsMutexSignal 8) (is_word 8) (msb_lawful 8 ltac:(lia))
           5 0 2 increments_run increments_end ltac:(unfold is_word; lia)
           ltac:(vm_compute; reflexivity) ltac:(vm_compute; reflexivity)).
Defined.

(** The mutex in the low bit of an address. *)
Lemma mutex_lock_progress_witness :
  let s : mutex Z Z := Mutex 8 0 [Outside; SpinPoll 9] [] in
  (false = false →
   ∃ k, (k ≤ 5)%nat ∧
   @run Z _ PtrAsMutexSignal Z (replicate k (1%nat, Continue false false)) s =
   Some (Mutex 9 0 [Outside; Guarded None] [])) ∧
  ∀ sp, @mutex_step Z _ PtrAsMutexSignal Z s 1 (Continue true sp) =
        Some (Mutex 8 0 [Outside; Outside] []).
Proof.
  intros s. exact (@mutex_lock_progress Z Z _ PtrAsMutexSignal s 1 9 eq_refl).
Defined.
