(* ===== verification/CancelSrc.v ===== *)
(** * [cancel_src]: cancellation sources, tokens and callbacks

    Models [crates/cancel_src/src/lib.rs].  A source and its tokens share one
    reference-counted [Inner]; a callback is the caller's own or cancels the child
    it refers to weakly.  Each critical section of the internal lock is one step;
    what a step leaves to do outside the lock, the callbacks of [cancel] above all,
    is put in front of the thread's agenda, so that the steps of other threads come
    between them.  What a caller's callback does is a script of calls. *)

From S2P Require Import Prelude Atomex.

(** ** The internal lock *)

(** [SpinMutex::lock] ([spin_mutex.rs]): exchange [false] for [true] until it
    succeeds; [unlock] is the drop of its guard.  [None]: still spinning when the
    attempts given are over. *)
Fixpoint spin_mutex_lock (env : list (attempt bool)) (locked : bool) : option bool :=
  match env with
  | [] => None
  | a :: env' =>
      let locked := interference a locked in
      match compare_exchange_weak (spurious a) locked false true with
      | (Ok _, locked') => Some locked'
      | (Err _, locked') => spin_mutex_lock env' locked'
      end
  end.
Definition spin_mutex_unlock (locked : bool) : bool := false.

(** The lock is taken when it was free, and only then: the critical sections below
    are single steps. *)
Lemma spin_mutex_lock_takes env : ∀ locked locked',
  spin_mutex_lock env locked = Some locked' → locked' = true ∧ false ∈ seen env locked.
Proof.
  induction env as [|a env IH]; intros locked locked'; simpl; [done|].
  unfold compare_exchange_weak. rewrite elem_of_cons.
  destruct (interference a locked) eqn:E; simpl.
  - intros [? ?]%IH. auto.
  - destruct (spurious a); [|intros [= <-]; auto].
    intros [? ?]%IH. auto.
Qed.

(** ** The state behind the lock *)

(** [Box<dyn FnMut()>]: a callback passed to [register], by its name, or the one
    that [spawn_child_token] makes from a weak reference. *)
Inductive Callback : Type :=
| User (k : nat)
| CancelChild (weak : nat).

(** [oneshot::Sender]s are named by their receiver. *)
Record State : Type := MkState {
  cancelled : bool;
  next_id : Z;
  callbacks : list (Z * Callback);
  cancel_senders : list nat;
}.
Definition State_new : State := MkState false 0 [] [].

(** The critical section of [cancel]: [None] when already cancelled, otherwise the
    callbacks taken and the senders dropped. *)
Definition cancel_locked (st : State) : option (State * list (Z * Callback) * list nat) :=
  if cancelled st then None
  else Some (MkState true (next_id st) [] [], callbacks st, cancel_senders st).

(** That of [register]: [Ok None] when already cancelled; the increment of the
    [u64] may overflow, which is a panic. *)
Definition register_locked (st : State) (callback : Callback) :
    outcome (option Z * State) :=
  if cancelled st then Ret (None, st)
  else
    match checked_add (next_id st) 1 with
    | None => Panic
    | Some n =>
        Ret (Some (next_id st),
             MkState false n (callbacks st ++ [(next_id st, callback)]) (cancel_senders st))
    end.

(** [unregister]: [retain] the others. *)
Definition keeps (id : Z) (x : Z * Callback) : bool := negb (x.1 =? id).
Definition unregister (st : State) (id : Z) : State :=
  MkState (cancelled st) (next_id st) (filter (keeps id) (callbacks st)) (cancel_senders st).

(** That of [cancel_future]: the new state, and the sender when it is dropped. *)
Definition cancel_future_locked (st : State) (tx : nat) : State * list nat :=
  if cancelled st then (st, [tx])
  else (MkState false (next_id st) (callbacks st) (cancel_senders st ++ [tx]), []).

(** [Arc<Inner>]: the state and the number of strong references. *)
Record Inner : Type := MkInner { strong : nat; state : State }.
Definition Inner_new : Inner := MkInner 1 State_new.

(** ** The calls of a client, and what is left to do *)

Inductive op : Type :=
| NewSource (i : nat)                 (* [CancellationTokenSource::new] *)
| CloneHandle (i : nat)               (* [token], [clone] *)
| DropHandle (i : nat)                (* a source or a token is dropped *)
| Cancel (i : nat)
| Register (i k h : nat)              (* [h]: the registration returned *)
| Dispose (h : nat)                   (* a registration is dropped *)
| Cancellation (i r : nat)            (* [r]: the receiver returned *)
| SpawnChild (i c : nat).             (* [c]: the child returned *)

Inductive task : Type :=
| Op (o : op)
| Call (cb : Callback)
| CancelUpgraded (c : nat).           (* [child.cancel()] after the upgrade *)

(** The store, and the history the properties speak of: the caller's callbacks
    that ran, those handed to [register] and those dropped without running, the
    explicit cancellations, the children spawned, the receivers issued. *)
Record world : Type := World {
  inners : gmap nat Inner;
  regs : gmap nat (nat * option Z);
  resolved : list nat;
  ran : list nat;
  registered : list nat;
  discarded : list nat;
  requested : list nat;
  children : list (nat * nat);
  issued : gmap nat nat;
}.

Definition user_of (x : Z * Callback) : option nat :=
  match x.2 with User k => Some k | CancelChild _ => None end.
Definition users (l : list (Z * Callback)) : list nat := omap user_of l.

(** [Arc::clone], [Weak::upgrade] and the drop of a strong reference. *)
Definition live (inn : Inner) : bool := negb (Nat.eqb (strong inn) 0).
Definition retain_strong (inn : Inner) : Inner := MkInner (S (strong inn)) (state inn).
Definition release_strong (inn : Inner) : Inner :=
  match strong inn with
  | S (S n) => MkInner (S n) (state inn)
  | _ => MkInner 0 (MkState (cancelled (state inn)) (next_id (state inn)) [] [])
  end.
(** What the drop of the last reference drops with it. *)
Definition dropped_state (inn : Inner) : State :=
  match strong inn with S (S _) => State_new | _ => state inn end.

Section world.
Context (script : nat → list op).
Implicit Types (w : world).

Definition set_inner w (i : nat) (inn : Inner) : world :=
  World (<[i := inn]> (inners w)) (regs w) (resolved w) (ran w) (registered w)
        (discarded w) (requested w) (children w) (issued w).

(** The inner of a call on a handle, which the types keep alive. *)
Definition inner_of w (i : nat) : option Inner :=
  inn ← inners w !! i; if live inn then Some inn else None.

Definition do_new w i : option (world * list task) :=
  match inners w !! i with
  | Some _ => None
  | None => Some (set_inner w i Inner_new, [])
  end.

Definition do_clone w i : option (world * list task) :=
  inn ← inner_of w i; Some (set_inner w i (retain_strong inn), []).

Definition do_drop w i : option (world * list task) :=
  inn ← inner_of w i;
  let d := dropped_state inn in
  Some (World (<[i := release_strong inn]> (inners w)) (regs w)
              (resolved w ++ cancel_senders d) (ran w) (registered w)
              (discarded w ++ users (callbacks d)) (requested w) (children w) (issued w), []).

(** [Inner::cancel]: the critical section, then the callbacks in order. *)
Definition do_cancel w i : option (world * list task) :=
  inn ← inner_of w i;
  match cancel_locked (state inn) with
  | None => Some (w, [])
  | Some (st, cbs, txs) =>
      Some (World (<[i := MkInner (strong inn) st]> (inners w)) (regs w)
                  (resolved w ++ txs) (ran w) (registered w) (discarded w)
                  (requested w) (children w) (issued w),
            (λ x, Call x.2) <$> cbs)
  end.

Definition request w i : world :=
  World (inners w) (regs w) (resolved w) (ran w) (registered w) (discarded w)
        (i :: requested w) (children w) (issued w).

(** [Inner::register]: the callback runs at once when the source is cancelled. *)
Definition do_register w i cb : option (world * option Z * list task) :=
  inn ← inner_of w i;
  match register_locked (state inn) cb with
  | Panic => None
  | Ret (None, _) => Some (w, None, [Call cb])
  | Ret (Some id, st) => Some (set_inner w i (MkInner (strong inn) st), Some id, [])
  end.

(** [CancellationToken::register]. *)
Definition token_register w i k h : option (world * list task) :=
  match regs w !! h with
  | Some _ => None
  | None =>
      '(w', id, ts) ← do_register w i (User k);
      Some (World (inners w') (<[h := (i, id)]> (regs w')) (resolved w') (ran w')
                  (k :: registered w') (discarded w') (requested w') (children w')
                  (issued w'), ts)
  end.

(** The drop of a [CancellationTokenRegistration]. *)
Definition registration_drop w h : option (world * list task) :=
  '(i, oid) ← regs w !! h;
  let w' := World (inners w) (delete h (regs w)) (resolved w) (ran w) (registered w)
                  (discarded w) (requested w) (children w) (issued w) in
  match oid, inner_of w i with
  | Some id, Some inn =>
      let gone := filter (λ x, negb (keeps id x)) (callbacks (state inn)) in
      Some (World (<[i := MkInner (strong inn) (unregister (state inn) id)]> (inners w'))
                  (regs w') (resolved w') (ran w') (registered w')
                  (discarded w' ++ users gone) (requested w') (children w') (issued w'), [])
  | _, _ => Some (w', [])
  end.

(** [cancel_future]. *)
Definition do_cancel_future w i r : option (world * list task) :=
  match issued w !! r with
  | Some _ => None
  | None =>
      inn ← inner_of w i;
      let '(st, txs) := cancel_future_locked (state inn) r in
      Some (World (<[i := MkInner (strong inn) st]> (inners w)) (regs w)
                  (resolved w ++ txs) (ran w) (registered w) (discarded w)
                  (requested w) (children w) (<[r := i]> (issued w)), [])
  end.

(** [spawn_child_token]. *)
Definition spawn_child_token w i c : option (world * list task) :=
  match inners w !! c with
  | Some _ => None
  | None =>
      _ ← inner_of w i;
      '(w', _, ts) ← do_register (set_inner w c Inner_new) i (CancelChild c);
      Some (World (inners w') (regs w') (resolved w') (ran w') (registered w')
                  (discarded w') (requested w') ((i, c) :: children w') (issued w'), ts)
  end.

(** A callback is called: the caller's runs its script; that of a child cancels it
    if the weak reference can be upgraded, and drops the reference afterwards. *)
Definition call_user w k : option (world * list task) :=
  Some (World (inners w) (regs w) (resolved w) (k :: ran w) (registered w) (discarded w)
              (requested w) (children w) (issued w), Op <$> script k).
Definition call_child w c : option (world * list task) :=
  match inner_of w c with
  | None => Some (w, [])
  | Some inn => Some (set_inner w c (retain_strong inn), [CancelUpgraded c; Op (DropHandle c)])
  end.

Definition exec (t : task) w : option (world * list task) :=
  match t with
  | Op (NewSource i) => do_new w i
  | Op (CloneHandle i) => do_clone w i
  | Op (DropHandle i) => do_drop w i
  | Op (Cancel i) => do_cancel (request w i) i
  | Op (Register i k h) => token_register w i k h
  | Op (Dispose h) => registration_drop w h
  | Op (Cancellation i r) => do_cancel_future w i r
  | Op (SpawnChild i c) => spawn_child_token w i c
  | Call (User k) => call_user w k
  | Call (CancelChild c) => call_child w c
  | CancelUpgraded c => do_cancel w c
  end.

(** Threads, each with what it has left to do, the next thing first. *)
Record config : Type := Config { store : world; agendas : list (list task) }.

Definition sched_step (c : config) (t : nat) : option config :=
  ag ← agendas c !! t;
  match ag with
  | [] => None
  | x :: rest =>
      '(w', ts) ← exec x (store c);
      Some (Config w' (<[t := ts ++ rest]> (agendas c)))
  end.

Fixpoint run_sched (sched : list nat) (c : config) : option config :=
  match sched with
  | [] => Some c
  | t :: sched' => c' ← sched_step c t; run_sched sched' c'
  end.
End world.

Definition empty_world : world := World ∅ ∅ [] [] [] [] [] [] ∅.
(** The threads start with their programs. *)
Definition start (programs : list (list op)) : config :=
  Config empty_world (map (map Op) programs).

(** ** What each step does, branch by branch *)

Definition cancel_world (w : world) (i : nat) (inn : Inner) : world :=
  World (<[i := MkInner (strong inn) (MkState true (next_id (state inn)) [] [])]> (inners w))
        (regs w) (resolved w ++ cancel_senders (state inn)) (ran w) (registered w)
        (discarded w) (requested w) (children w) (issued w).
Definition added (inn : Inner) (cb : Callback) : Inner :=
  MkInner (strong inn)
    (MkState false (next_id (state inn) + 1)
             (callbacks (state inn) ++ [(next_id (state inn), cb)])
             (cancel_senders (state inn))).
Definition removed (inn : Inner) (id : Z) : Inner :=
  MkInner (strong inn) (unregister (state inn) id).
Definition awaited (inn : Inner) (r : nat) : Inner :=
  MkInner (strong inn)
    (MkState false (next_id (state inn)) (callbacks (state inn))
             (cancel_senders (state inn) ++ [r])).

(** A handle on [i] exists. *)
Definition held (w : world) (i : nat) (inn : Inner) : Prop :=
  inners w !! i = Some inn ∧ strong inn ≠ O.

Inductive exec_spec (script : nat → list op) (w : world) :
    task → world → list task → Prop :=
| es_new i : inners w !! i = None →
    exec_spec script w (Op (NewSource i)) (set_inner w i Inner_new) []
| es_clone i inn : held w i inn →
    exec_spec script w (Op (CloneHandle i)) (set_inner w i (retain_strong inn)) []
| es_drop i inn : held w i inn →
    exec_spec script w (Op (DropHandle i))
      (World (<[i := release_strong inn]> (inners w)) (regs w)
             (resolved w ++ cancel_senders (dropped_state inn)) (ran w) (registered w)
             (discarded w ++ users (callbacks (dropped_state inn)))
             (requested w) (children w) (issued w)) []
| es_cancel_again i inn : held w i inn → cancelled (state inn) = true →
    exec_spec script w (Op (Cancel i)) (request w i) []
| es_cancel i inn : held w i inn → cancelled (state inn) = false →
    exec_spec script w (Op (Cancel i)) (cancel_world (request w i) i inn)
      ((λ x, Call x.2) <$> callbacks (state inn))
| es_upgraded_again i inn : held w i inn → cancelled (state inn) = true →
    exec_spec script w (CancelUpgraded i) w []
| es_upgraded i inn : held w i inn → cancelled (state inn) = false →
    exec_spec script w (CancelUpgraded i) (cancel_world w i inn)
      ((λ x, Call x.2) <$> callbacks (state inn))
| es_register_late i k h inn : held w i inn → cancelled (state inn) = true →
    regs w !! h = None →
    exec_spec script w (Op (Register i k h))
      (World (inners w) (<[h := (i, None)]> (regs w)) (resolved w) (ran w)
             (k :: registered w) (discarded w) (requested w) (children w) (issued w))
      [Call (User k)]
| es_register i k h inn : held w i inn → cancelled (state inn) = false →
    regs w !! h = None →
    exec_spec script w (Op (Register i k h))
      (World (<[i := added inn (User k)]> (inners w))
             (<[h := (i, Some (next_id (state inn)))]> (regs w)) (resolved w) (ran w)
             (k :: registered w) (discarded w) (requested w) (children w) (issued w))
      []
| es_dispose_none h i oid : regs w !! h = Some (i, oid) →
    exec_spec script w (Op (Dispose h))
      (World (inners w) (delete h (regs w)) (resolved w) (ran w) (registered w)
             (discarded w) (requested w) (children w) (issued w)) []
| es_dispose h i id inn : regs w !! h = Some (i, Some id) → held w i inn →
    exec_spec script w (Op (Dispose h))
      (World (<[i := removed inn id]> (inners w)) (delete h (regs w)) (resolved w) (ran w)
             (registered w)
             (discarded w ++ users (filter (λ x, negb (keeps id x)) (callbacks (state inn))))
             (requested w) (children w) (issued w)) []
| es_future_late i r inn : held w i inn → cancelled (state inn) = true →
    issued w !! r = None →
    exec_spec script w (Op (Cancellation i r))
      (World (<[i := inn]> (inners w)) (regs w) (resolved w ++ [r]) (ran w) (registered w)
             (discarded w) (requested w) (children w) (<[r := i]> (issued w))) []
| es_future i r inn : held w i inn → cancelled (state inn) = false →
    issued w !! r = None →
    exec_spec script w (Op (Cancellation i r))
      (World (<[i := awaited inn r]> (inners w)) (regs w) (resolved w ++ []) (ran w)
             (registered w) (discarded w) (requested w) (children w)
             (<[r := i]> (issued w))) []
| es_spawn_late i c inn : inners w !! c = None → held w i inn →
    cancelled (state inn) = true →
    exec_spec script w (Op (SpawnChild i c))
      (World (<[c := Inner_new]> (inners w)) (regs w) (resolved w) (ran w) (registered w)
             (discarded w) (requested w) ((i, c) :: children w) (issued w))
      [Call (CancelChild c)]
| es_spawn i c inn : inners w !! c = None → held w i inn →
    cancelled (state inn) = false →
    exec_spec script w (Op (SpawnChild i c))
      (World (<[i := added inn (CancelChild c)]> (<[c := Inner_new]> (inners w))) (regs w)
             (resolved w) (ran w) (registered w) (discarded w) (requested w)
             ((i, c) :: children w) (issued w)) []
| es_user k :
    exec_spec script w (Call (User k))
      (World (inners w) (regs w) (resolved w) (k :: ran w) (registered w) (discarded w)
             (requested w) (children w) (issued w)) (Op <$> script k)
| es_child_dead c : (∀ inn, inners w !! c = Some inn → strong inn = O) →
    exec_spec script w (Call (CancelChild c)) w []
| es_child c inn : held w c inn →
    exec_spec script w (Call (CancelChild c)) (set_inner w c (retain_strong inn))
      [CancelUpgraded c; Op (DropHandle c)].

Section steps.
Implicit Types (w : world).

Lemma inner_of_Some w i inn :
  inner_of w i = Some inn ↔ inners w !! i = Some inn ∧ strong inn ≠ O.
Proof.
  unfold inner_of, live. destruct (inners w !! i) as [inn'|]; simpl;
    [|by split; [|intros [? _]]].
  destruct (Nat.eqb_spec (strong inn') 0); simpl; split; [done| |by intros [= ->]|];
    by intros [[= ->] ?].
Qed.
Lemma inner_of_held w i inn : inner_of w i = Some inn → held w i inn.
Proof. apply inner_of_Some. Qed.
Lemma inner_of_None w i inn :
  inner_of w i = None → inners w !! i = Some inn → strong inn = O.
Proof.
  unfold inner_of, live. intros Hn Hi. rewrite Hi in Hn. simpl in Hn.
  destruct (Nat.eqb_spec (strong inn) 0); simpl in *; done.
Qed.

(** The two shared critical sections. *)
Lemma do_cancel_cases w i w' ts :
  do_cancel w i = Some (w', ts) →
  ∃ inn, held w i inn ∧
    ((cancelled (state inn) = true ∧ w' = w ∧ ts = []) ∨
     (cancelled (state inn) = false ∧ w' = cancel_world w i inn ∧
      ts = (λ x, Call x.2) <$> callbacks (state inn))).
Proof.
  unfold do_cancel. destruct (inner_of w i) as [inn|] eqn:Hi; [simpl|done].
  apply inner_of_held in Hi. unfold cancel_locked. intros H. exists inn. split; [done|].
  destruct (cancelled (state inn)); simplify_eq; [by left|by right].
Qed.

Lemma do_register_cases w i cb w' oid ts :
  do_register w i cb = Some (w', oid, ts) →
  ∃ inn, held w i inn ∧
    ((cancelled (state inn) = true ∧ w' = w ∧ oid = None ∧ ts = [Call cb]) ∨
     (cancelled (state inn) = false ∧ w' = set_inner w i (added inn cb) ∧
      oid = Some (next_id (state inn)) ∧ ts = [])).
Proof.
  unfold do_register. destruct (inner_of w i) as [inn|] eqn:Hi; [simpl|done].
  apply inner_of_held in Hi. unfold register_locked. intros H. exists inn. split; [done|].
  destruct (cancelled (state inn)); simplify_eq; [by left|].
  destruct (checked_add (next_id (state inn)) 1) as [n|] eqn:E; simplify_eq.
  apply checked_add_Some in E as [-> _]. by right.
Qed.

Lemma held_fresh w i c inn inn' :
  inners w !! c = None → held (set_inner w c inn') i inn → i ≠ c → held w i inn.
Proof. unfold held. simpl. intros Hc [Hi Hs] Hne. by rewrite lookup_insert_ne in Hi. Qed.

Lemma exec_sound script t w w' ts :
  exec script t w = Some (w', ts) → exec_spec script w t w' ts.
Proof.
  destruct t as [[i|i|i|i|i k h|h|i r|i c]|[k|c]|c]; simpl.
  - unfold do_new. destruct (inners w !! i) eqn:E; intros; simplify_eq. by constructor.
  - unfold do_clone. destruct (inner_of w i) as [inn|] eqn:E; intros; simplify_eq/=.
    constructor. by apply inner_of_held.
  - unfold do_drop. destruct (inner_of w i) as [inn|] eqn:E; intros; simplify_eq/=.
    constructor. by apply inner_of_held.
  - intros (inn & Hi & [(Hc & -> & ->)|(Hc & -> & ->)])%do_cancel_cases;
      [eapply es_cancel_again|eapply es_cancel]; done.
  - unfold token_register. destruct (regs w !! h) eqn:Eh; [done|].
    destruct (do_register w i (User k)) as [[[w1 oid] ts1]|] eqn:E; intros; simplify_eq/=.
    apply do_register_cases in E
      as (inn & Hi & [(Hc & -> & -> & ->)|(Hc & -> & -> & ->)]).
    + exact (es_register_late _ _ _ _ _ _ Hi Hc Eh).
    + exact (es_register _ _ _ _ _ _ Hi Hc Eh).
  - unfold registration_drop. destruct (regs w !! h) as [[i oid]|] eqn:Eh; [simpl|done].
    destruct oid as [id|]; [|intros; simplify_eq; by eapply es_dispose_none].
    destruct (inner_of w i) as [inn|] eqn:E; intros; simplify_eq;
      [|by eapply es_dispose_none].
    eapply es_dispose; [done|by apply inner_of_held].
  - unfold do_cancel_future. destruct (issued w !! r) eqn:Er; [done|].
    destruct (inner_of w i) as [inn|] eqn:E; [simpl|done].
    apply inner_of_held in E. unfold cancel_future_locked.
    destruct (cancelled (state inn)) eqn:Hc; intros; simplify_eq.
    + destruct inn. by eapply (es_future_late _ _ _ _ (MkInner _ _)).
    + by eapply es_future.
  - unfold spawn_child_token. destruct (inners w !! c) eqn:Ec; [done|].
    destruct (inner_of w i) as [inn0|] eqn:E0; [simpl|done]. apply inner_of_held in E0.
    assert (i ≠ c) as Hne by (intros ->; by destruct E0; simplify_eq).
    destruct (do_register _ i _) as [[[w1 oid] ts1]|] eqn:E; intros; simplify_eq/=.
    apply do_register_cases in E as (inn & Hi & Hcase).
    apply held_fresh in Hi; [|done..].
    destruct Hcase as [(Hc & -> & -> & ->)|(Hc & -> & -> & ->)].
    + exact (es_spawn_late _ _ _ _ _ Ec Hi Hc).
    + exact (es_spawn _ _ _ _ _ Ec Hi Hc).
  - unfold call_user. intros. simplify_eq. constructor.
  - unfold call_child. destruct (inner_of w c) as [inn|] eqn:E; intros; simplify_eq.
    + apply es_child. by apply inner_of_held.
    + apply es_child_dead. intros inn. by apply inner_of_None.
  - intros (inn & Hi & [(Hc & -> & ->)|(Hc & -> & ->)])%do_cancel_cases;
      [eapply es_upgraded_again|eapply es_upgraded]; done.
Qed.
End steps.
