(* ===== verification/CancelInv.v ===== *)
(** * [cancel_src]: what every execution keeps, and the properties

    The invariants of [CancelSrc.v] over any interleaving of any programs: the
    store is well formed, every child of a cancelled source is cancelled, gone or
    about to be cancelled, every cancellation has an explicit request above it, no
    callback is lost or run twice, and receivers follow their source. *)

From S2P Require Import Prelude CancelSrc.

(** ** Well-formed stores *)

(** A cancelled or a dead source holds nothing; identifiers are below the next one
    and distinct. *)
Definition empty_state (st : State) : Prop := callbacks st = [] ∧ cancel_senders st = [].
Record inner_ok (inn : Inner) : Prop := {
  io_cancelled : cancelled (state inn) = true → empty_state (state inn);
  io_dead : strong inn = O → empty_state (state inn);
  io_below : Forall (λ x, x.1 < next_id (state inn)) (callbacks (state inn));
  io_nodup : NoDup ((callbacks (state inn)).*1);
}.

(** A registration refers to a callback of the caller. *)
Definition regs_ok (w : world) : Prop :=
  ∀ h i id, regs w !! h = Some (i, Some id) →
    ∃ inn, inners w !! i = Some inn ∧ id < next_id (state inn) ∧
           ∀ c, (id, CancelChild c) ∉ callbacks (state inn).
Definition world_ok (w : world) : Prop :=
  map_Forall (λ _, inner_ok) (inners w) ∧ regs_ok w.

Section ok.
Implicit Types (w : world) (inn : Inner).

Lemma inner_new_ok : inner_ok Inner_new.
Proof. split; simpl; [done|done|constructor|constructor]. Qed.
Lemma retain_ok inn : strong inn ≠ O → inner_ok inn → inner_ok (retain_strong inn).
Proof. by intros Hs [Hc Hd Hb Hn]; split. Qed.
Lemma release_ok inn : inner_ok inn → inner_ok (release_strong inn).
Proof.
  intros [Hc Hd Hb Hn]. unfold release_strong.
  destruct (strong inn) as [|[|n]]; split; simpl; try done; constructor.
Qed.
Lemma cancel_ok n st : inner_ok (MkInner n (MkState true st [] [])).
Proof. split; simpl; [done|done|constructor|constructor]. Qed.
Lemma added_ok inn cb : strong inn ≠ O → inner_ok inn → inner_ok (added inn cb).
Proof.
  intros Hs [Hc Hd Hb Hn]. split; simpl; [done|done| |].
  - apply Forall_app. split; [|by constructor; [simpl; lia|]].
    eapply Forall_impl; [done|]. simpl. lia.
  - rewrite fmap_app. apply NoDup_app. split; [done|]. split; [|apply NoDup_singleton].
    simpl. intros id (x & -> & Hx)%list_elem_of_fmap Hin%list_elem_of_singleton.
    rewrite Forall_forall in Hb. specialize (Hb x Hx). lia.
Qed.
Lemma removed_ok inn id : inner_ok inn → inner_ok (removed inn id).
Proof.
  intros [Hc Hd Hb Hn].
  assert (∀ st, empty_state st → empty_state (unregister st id)) as He
    by (unfold empty_state; simpl; by intros st [-> ->]).
  split; simpl; [auto|auto| |].
  - rewrite Forall_forall in *. intros x [_ Hx]%list_elem_of_filter. auto.
  - eapply sublist_NoDup; [done|]. apply fmap_sublist, sublist_filter.
Qed.
Lemma awaited_ok inn r :
  strong inn ≠ O → cancelled (state inn) = false → inner_ok inn → inner_ok (awaited inn r).
Proof. by intros Hs Hf [Hc Hd Hb Hn]; split. Qed.

Lemma exec_inner_ok script w t w' ts :
  exec_spec script w t w' ts →
  map_Forall (λ _, inner_ok) (inners w) → map_Forall (λ _, inner_ok) (inners w').
Proof.
  intros Hex Hok.
  assert (∀ i inn, held w i inn → inner_ok inn ∧ strong inn ≠ O) as Hheld
    by (intros i inn [Hi Hs]; split; [by eapply Hok|done]).
  destruct Hex; simpl; try done;
    try (match goal with H : held _ _ _ |- _ => destruct (Hheld _ _ H) as [Hio Hs] end);
    repeat apply map_Forall_insert_2; try done;
    auto using inner_new_ok, retain_ok, release_ok, cancel_ok, added_ok, removed_ok,
      awaited_ok.
Qed.

(** How a step changes one [Inner]: flags only rise, what a cancellation takes is
    in the tasks it leaves, and otherwise only callers' callbacks are removed; [N] are the children linked to it. *)
Record inner_step (N : nat → Prop) (ts : list task) (inn inn' : Inner) : Prop := {
  st_cancelled : cancelled (state inn) = true → cancelled (state inn') = true;
  st_dead : strong inn = O → strong inn' = O;
  st_next : next_id (state inn) ≤ next_id (state inn');
  st_taken : cancelled (state inn') = true → cancelled (state inn) = true ∨
    (strong inn ≠ O ∧
     ∀ id c, (id, CancelChild c) ∈ callbacks (state inn) → Call (CancelChild c) ∈ ts);
  st_kept : cancelled (state inn') = false → strong inn' ≠ O →
    ∀ id c, (id, CancelChild c) ∈ callbacks (state inn) →
            (id, CancelChild c) ∈ callbacks (state inn');
  st_new : ∀ id c, (id, CancelChild c) ∈ callbacks (state inn') →
    (id, CancelChild c) ∈ callbacks (state inn) ∨ (next_id (state inn) ≤ id ∧ N c);
}.
Arguments st_cancelled {N ts inn inn'} _.
Arguments st_dead {N ts inn inn'} _.
Arguments st_next {N ts inn inn'} _.
Arguments st_taken {N ts inn inn'} _.
Arguments st_kept {N ts inn inn'} _.
Arguments st_new {N ts inn inn'} _.

Lemma inner_step_refl N ts inn : inner_step N ts inn inn.
Proof. split; [done|done|done|by left|done|by left]. Qed.

Lemma inner_steps_insert N ts (m : gmap nat Inner) i inn inn' :
  m !! i = Some inn → inner_step (N i) ts inn inn' →
  ∀ j k, m !! j = Some k → ∃ k', <[i := inn']> m !! j = Some k' ∧ inner_step (N j) ts k k'.
Proof.
  intros Hi Hs j k Hj. destruct (decide (i = j)) as [<-|Hne].
  - exists inn'. rewrite lookup_insert_eq. by simplify_eq.
  - exists k. rewrite lookup_insert_ne by done. eauto using inner_step_refl.
Qed.

Lemma retain_step N ts inn : strong inn ≠ O → inner_step N ts inn (retain_strong inn).
Proof. split; simpl; [done|done|lia|by left|done|by left]. Qed.
Lemma release_step N ts inn : inner_step N ts inn (release_strong inn).
Proof.
  unfold release_strong. destruct (strong inn) as [|[|n]] eqn:Hs;
    split; rewrite ?Hs; simpl; first [done|lia|by left|by intros ?? ?%not_elem_of_nil].
Qed.
Lemma cancel_step N ts inn n :
  strong inn ≠ O → n = strong inn →
  (∀ id c, (id, CancelChild c) ∈ callbacks (state inn) → Call (CancelChild c) ∈ ts) →
  inner_step N ts inn (MkInner n (MkState true (next_id (state inn)) [] [])).
Proof.
  intros Hs -> Hts. split; simpl; [done|done|lia|by right|done|].
  by intros id c ?%not_elem_of_nil.
Qed.
Lemma added_step (N : nat → Prop) ts inn cb :
  cancelled (state inn) = false → (∀ c, cb = CancelChild c → N c) → inner_step N ts inn (added inn cb).
Proof.
  intros Hc HN. split; simpl; [congruence|done|lia|done| |].
  - intros _ _ id c Hin. apply elem_of_app. by left.
  - intros id c [?|Heq%list_elem_of_singleton]%elem_of_app; [by left|right].
    simplify_eq. split; [done|auto].
Qed.
Lemma awaited_step N ts inn r :
  cancelled (state inn) = false → inner_step N ts inn (awaited inn r).
Proof. intros Hc. split; simpl; [congruence|done|lia|done|done|by left]. Qed.
Lemma removed_step N ts inn id :
  (∀ c, (id, CancelChild c) ∉ callbacks (state inn)) → inner_step N ts inn (removed inn id).
Proof.
  intros Hno. split; simpl; [done|done|lia|by left| |].
  - intros _ _ id' c Hin. apply list_elem_of_filter. split; [|done].
    unfold keeps. simpl. destruct (Z.eqb_spec id' id) as [->|]; [by destruct (Hno c)|done].
  - intros id' c [_ Hin]%list_elem_of_filter. by left.
Qed.

Lemma taken_calls (cbs : list (Z * Callback)) id c :
  (id, CancelChild c) ∈ cbs → Call (CancelChild c) ∈ (λ x : Z * Callback, Call x.2) <$> cbs.
Proof. intros Hin. apply list_elem_of_fmap. by exists (id, CancelChild c). Qed.

Lemma exec_inner_step script w t w' ts :
  regs_ok w → exec_spec script w t w' ts →
  ∀ j inn, inners w !! j = Some inn →
    ∃ inn', inners w' !! j = Some inn' ∧
            inner_step (λ c, t = Op (SpawnChild j c)) ts inn inn'.
Proof.
  intros Hregs Hex. destruct Hex; simpl;
    try match goal with H : held _ _ _ |- _ => destruct H as [Hi Hs] end;
    try (by eauto using inner_step_refl);
    try (eapply (inner_steps_insert (λ j c, _ = Op (SpawnChild j c))); [done|];
         solve [auto using retain_step, release_step, awaited_step,
           inner_step_refl]).
  - intros j inn Hj. exists inn. split; [|apply inner_step_refl].
    rewrite lookup_insert_ne; [done|congruence].
  - eapply (inner_steps_insert (λ j c, _ = Op (SpawnChild j c))); [done|]. apply cancel_step; [done..|]. apply taken_calls.
  - eapply (inner_steps_insert (λ j c, _ = Op (SpawnChild j c))); [done|]. apply cancel_step; [done..|]. apply taken_calls.
  - eapply (inner_steps_insert (λ j c, _ = Op (SpawnChild j c))); [done|]. apply added_step; [done|].
    by intros c [=].
  - eapply (inner_steps_insert (λ j c, _ = Op (SpawnChild j c))); [done|]. apply removed_step.
    destruct (Hregs h i id) as (inn' & Hi' & _ & Hno); [done|]. by simplify_eq.
  - intros j k Hj. exists k. split; [|apply inner_step_refl].
    rewrite lookup_insert_ne; [done|congruence].
  - intros j k Hj. eapply (inner_steps_insert (λ j c, _ = Op (SpawnChild j c))).
    + rewrite lookup_insert_ne; [done|congruence].
    + apply added_step; [done|]. by intros c' [= <-].
    + rewrite lookup_insert_ne; [done|congruence].
Qed.

Lemma exec_regs_ok script w t w' ts :
  world_ok w → exec_spec script w t w' ts → regs_ok w'.
Proof.
  intros [Hin Hregs] Hex h j id Hh.
  pose proof (exec_inner_step script w t w' ts Hregs Hex) as Hstep.
  assert (regs w !! h = Some (j, Some id) ∨
          ∃ inn k, held w j inn ∧ id = next_id (state inn) ∧
                   inners w' = <[j := added inn (User k)]> (inners w)) as [Hold|Hnew].
  { destruct Hex; simpl in Hh; try (by left).
    - apply lookup_insert_Some in Hh as [[_ ?]|[_ ?]]; [done|by left].
    - apply lookup_insert_Some in Hh as [[_ [= <- <-]]|[_ ?]]; [right; eauto|by left].
    - apply lookup_delete_Some in Hh as [_ ?]. by left.
    - apply lookup_delete_Some in Hh as [_ ?]. by left. }
  - destruct (Hregs h j id Hold) as (inn & Hj & Hlt & Hno).
    destruct (Hstep j inn Hj) as (inn' & Hj' & Hs). exists inn'. split; [done|].
    split; [pose proof (st_next Hs); lia|].
    intros c Hc. destruct (st_new Hs id c Hc) as [?|[? _]]; [by destruct (Hno c)|lia].
  - destruct Hnew as (inn & k & [Hj Hs] & -> & ->).
    exists (added inn (User k)). rewrite lookup_insert_eq. split; [done|]. simpl.
    split; [lia|]. intros c [Hc|Hc%list_elem_of_singleton]%elem_of_app; [|done].
    pose proof (io_below _ (Hin j inn Hj)) as Hb. rewrite Forall_forall in Hb.
    specialize (Hb _ Hc). simpl in Hb. lia.
Qed.

Lemma exec_world_ok script w t w' ts :
  world_ok w → exec_spec script w t w' ts → world_ok w'.
Proof.
  intros Hok Hex. split; [|by eapply exec_regs_ok].
  eapply exec_inner_ok; [done|apply Hok].
Qed.
End ok.
Arguments st_cancelled {N ts inn inn'} _.
Arguments st_dead {N ts inn inn'} _.
Arguments st_taken {N ts inn inn'} _.
Arguments st_kept {N ts inn inn'} _.
Arguments st_new {N ts inn inn'} _.

(** ** Propagation *)

(** A task that will cancel [c], if it is alive. *)
Definition cancels (c : nat) (x : task) : Prop :=
  x = Call (CancelChild c) ∨ x = CancelUpgraded c.
Definition down (w : world) (c : nat) : Prop :=
  ∃ inn, inners w !! c = Some inn ∧ (cancelled (state inn) = true ∨ strong inn = O).

(** For every child: when its parent is cancelled it is down, or a task is left
    that will cancel it; when its parent is alive and not cancelled, the parent
    holds its callback. *)
Definition linked (w : world) (tasks : list task) (p c : nat) : Prop :=
  ∃ ip ic, inners w !! p = Some ip ∧ inners w !! c = Some ic ∧
    (cancelled (state ip) = true → down w c ∨ ∃ x, x ∈ tasks ∧ cancels c x) ∧
    (cancelled (state ip) = false → strong ip ≠ O →
     ∃ id, (id, CancelChild c) ∈ callbacks (state ip)).
Definition propagates (w : world) (tasks : list task) : Prop :=
  ∀ p c, (p, c) ∈ children w → linked w tasks p c.

(** A child is there to be cancelled, and it is cancelled only on behalf of an
    explicit request on it or on an ancestor. *)
Definition justified (w : world) (c : nat) : Prop :=
  ∃ r, r ∈ requested w ∧ rtc (λ a b, (a, b) ∈ children w) r c.
Record sound (w : world) (tasks : list task) : Prop := {
  so_cancelled i inn : inners w !! i = Some inn → cancelled (state inn) = true → justified w i;
  so_task c x : x ∈ tasks → cancels c x → justified w c;
  so_edge p ip id c : inners w !! p = Some ip →
    (id, CancelChild c) ∈ callbacks (state ip) → (p, c) ∈ children w;
}.

Section invariants.
Implicit Types (w : world) (inn : Inner) (T ts : list task).

(** A task does its work: what it was to cancel is down, or it left a task. *)
Lemma exec_cancels script w t w' ts c :
  exec_spec script w t w' ts → cancels c t → inners w !! c ≠ None →
  down w' c ∨ ∃ x, x ∈ ts ∧ cancels c x.
Proof.
  intros Hex [-> | ->] Hc; inversion Hex as [| | | | |i inn Hi Hcc|i inn Hi Hcc| | | | | | | | | |c' Hd|c' inn Hi]; subst.
  - left. destruct (inners w' !! c) as [inn|] eqn:E; [|done]. exists inn. eauto.
  - right. exists (CancelUpgraded c). split; [apply elem_of_cons; by left|by right].
  - left. destruct Hi as [Hi _]. exists inn. eauto.
  - left. eexists. simpl. rewrite lookup_insert_eq. split; [done|]. by left.
Qed.

Lemma down_step script w t w' ts c :
  regs_ok w → exec_spec script w t w' ts → down w c → down w' c.
Proof.
  intros Hregs Hex (inn & Hc & Hd).
  destruct (exec_inner_step script w t w' ts Hregs Hex c inn Hc) as (inn' & Hc' & Hs).
  exists inn'. split; [done|].
  destruct Hd; [left; by apply (st_cancelled Hs)|right; by apply (st_dead Hs)].
Qed.

Lemma cancels_step script w t w' ts T c :
  regs_ok w → exec_spec script w t w' ts → inners w !! c ≠ None →
  (down w c ∨ ∃ x, x ∈ t :: T ∧ cancels c x) →
  down w' c ∨ ∃ x, x ∈ ts ++ T ∧ cancels c x.
Proof.
  intros Hregs Hex Hc [Hd|(x & [->|Hx]%elem_of_cons & Hcx)].
  - left. by eapply down_step.
  - destruct (exec_cancels script w t w' ts c Hex Hcx Hc) as [?|(y & Hy & Hcy)]; [by left|].
    right. exists y. split; [|done]. apply elem_of_app. by left.
  - right. exists x. split; [|done]. apply elem_of_app. by right.
Qed.

Lemma linked_step script w t w' ts T p c :
  regs_ok w → exec_spec script w t w' ts →
  linked w (t :: T) p c → linked w' (ts ++ T) p c.
Proof.
  intros Hregs Hex (ip & ic & Hp & Hc & Hdone & Hkeep).
  destruct (exec_inner_step script w t w' ts Hregs Hex p ip Hp) as (ip' & Hp' & Hs).
  destruct (exec_inner_step script w t w' ts Hregs Hex c ic Hc) as (ic' & Hc' & Hsc).
  exists ip', ic'. split; [done|]. split; [done|].
  pose proof (cancels_step script w t w' ts T c Hregs Hex ltac:(congruence)) as Hgo.
  destruct (cancelled (state ip)) eqn:Hcp.
  { split; [auto|]. intros Hcp'. by rewrite (st_cancelled Hs Hcp) in Hcp'. }
  split.
  - intros Hcp'. destruct (st_taken Hs Hcp') as [?|[Hsp Htaken]]; [congruence|].
    destruct (Hkeep eq_refl Hsp) as (id & Hin). right.
    exists (Call (CancelChild c)). split; [|by left]. apply elem_of_app. left.
    by eapply Htaken.
  - intros Hcp' Hsp'. destruct Hkeep as (id & Hin); [done| |].
    + intros Hd. by apply Hsp', (st_dead Hs).
    + exists id. by eapply (st_kept Hs).
Qed.

(** The child just spawned is linked. *)
Lemma spawned_linked script w t w' ts T p c :
  exec_spec script w t w' ts → (p, c) ∈ children w' → (p, c) ∉ children w →
  linked w' (ts ++ T) p c.
Proof.
  intros Hex Hin Hni. destruct Hex as [| | | | | | | | | | | | |i c' inn Hc [Hi Hs] Hcc|i c' inn Hc [Hi Hs] Hcc| | |];
    simpl in *; try done; apply elem_of_cons in Hin as [[= -> ->]|]; try done.
  - exists inn, Inner_new. unfold linked. simpl.
    rewrite lookup_insert_eq, lookup_insert_ne by congruence.
    split; [done|]. split; [done|]. split; [|congruence]. intros _. right.
    exists (Call (CancelChild c')). split; [apply elem_of_cons; by left|by left].
  - exists (added inn (CancelChild c')), Inner_new. unfold linked. simpl.
    rewrite lookup_insert_eq. rewrite lookup_insert_ne, lookup_insert_eq by congruence.
    split; [done|]. split; [done|]. split; [done|]. intros _ _. simpl.
    exists (next_id (state inn)). apply elem_of_app. right. by apply list_elem_of_singleton.
Qed.

Lemma propagates_step script w t w' ts T :
  regs_ok w → exec_spec script w t w' ts → propagates w (t :: T) → propagates w' (ts ++ T).
Proof.
  intros Hregs Hex Hprop p c Hin. destruct (decide ((p, c) ∈ children w)) as [Hold|Hnew].
  - eapply linked_step; [done..|]. by apply Hprop.
  - by eapply spawned_linked.
Qed.

(** ** Soundness *)

Lemma history_grows script w t w' ts :
  exec_spec script w t w' ts →
  (∀ r, r ∈ requested w → r ∈ requested w') ∧
  (∀ e, e ∈ children w → e ∈ children w').
Proof.
  intros Hex; destruct Hex; simpl; split; try done; intros; apply elem_of_cons; by right.
Qed.

Lemma justified_step script w t w' ts c :
  exec_spec script w t w' ts → justified w c → justified w' c.
Proof.
  intros Hex (r & Hr & Hpath). destruct (history_grows script w t w' ts Hex) as [Hq Hch].
  exists r. split; [auto|]. eapply rtc_subrel; [|done]. auto.
Qed.

Lemma justified_child w p c : justified w p → (p, c) ∈ children w → justified w c.
Proof. intros (r & Hr & Hpath) Hpc. exists r. split; [done|]. by eapply rtc_r. Qed.

Lemma exec_edge script w t w' ts :
  regs_ok w → exec_spec script w t w' ts →
  (∀ p ip id c, inners w !! p = Some ip →
     (id, CancelChild c) ∈ callbacks (state ip) → (p, c) ∈ children w) →
  ∀ p ip id c, inners w' !! p = Some ip →
     (id, CancelChild c) ∈ callbacks (state ip) → (p, c) ∈ children w'.
Proof.
  intros Hregs Hex Hedge p ip' id c Hp' Hin.
  destruct (inners w !! p) as [ip|] eqn:Hp.
  - destruct (exec_inner_step script w t w' ts Hregs Hex p ip Hp) as (ip2 & Hp2 & Hs).
    simplify_eq. destruct (st_new Hs id c Hin) as [Hold|[_ ->]].
    + eapply history_grows; [done|]. by eapply Hedge.
    + inversion Hex; simplify_eq/=; apply elem_of_cons; by left.
  - assert (ip' = Inner_new) as ->; [|by apply not_elem_of_nil in Hin].
    destruct Hex; simpl in *; repeat match goal with H : held _ _ _ |- _ => destruct H end;
      try congruence;
      repeat match goal with
      | H : <[_ := _]> _ !! _ = Some _ |- _ => apply lookup_insert_Some in H as [[? ?]|[? H]]
      end; congruence.
Qed.

Lemma newly_cancelled script w t w' ts i inn' :
  exec_spec script w t w' ts → inners w' !! i = Some inn' → cancelled (state inn') = true →
  (∃ inn, inners w !! i = Some inn ∧ cancelled (state inn) = true) ∨
  t = Op (Cancel i) ∨ t = CancelUpgraded i.
Proof.
  intros Hex Hi Hc.
  destruct Hex; simpl in *; repeat match goal with H : held _ _ _ |- _ => destruct H end;
    repeat match goal with
    | H : <[_ := _]> _ !! _ = Some _ |- _ => apply lookup_insert_Some in H as [[<- <-]|[? H]]
    end; simpl in *; try done; eauto.
  left. exists inn. split; [done|]. unfold release_strong in Hc.
  by destruct (strong inn) as [|[|n]].
Qed.

(** The tasks a step leaves are on behalf of its own cancellation. *)
Lemma left_justified script w t w' ts T c x :
  sound w (t :: T) → exec_spec script w t w' ts →
  (∀ i inn, inners w' !! i = Some inn → cancelled (state inn) = true → justified w' i) →
  x ∈ ts → cancels c x → justified w' c.
Proof.
  intros [Hcan Htask Hedge] Hex Hcan' Hx Hcx.
  pose proof (λ c, justified_step script w t w' ts c Hex) as Hmono.
  assert (∀ i inn, held w i inn → ∀ w'', inners w'' = <[i := MkInner (strong inn)
      (MkState true (next_id (state inn)) [] [])]> (inners w) → children w'' = children w →
    (∀ j k, inners w'' !! j = Some k → cancelled (state k) = true → justified w'' j) →
    x ∈ (λ y : Z * Callback, Call y.2) <$> callbacks (state inn) → justified w'' c) as Htaken.
  { intros i inn [Hi Hs] w'' Hins Hch Hj ([id cb] & -> & Hin)%list_elem_of_fmap.
    destruct Hcx as [[= ->]|[=]]. apply (justified_child w'' i).
    - eapply Hj; [by rewrite Hins, lookup_insert_eq|done].
    - rewrite Hch. by eapply Hedge. }
  destruct Hex as [| | | |i inn Hi Hc| |i inn Hi Hc| | | | | | |i c' inn Hf Hi Hc| |k| |c' inn Hi];
    try (by apply not_elem_of_nil in Hx).
  - by eapply (Htaken i inn Hi).
  - by eapply (Htaken i inn Hi).
  - apply list_elem_of_singleton in Hx as ->. by destruct Hcx.
  - apply list_elem_of_singleton in Hx as ->. destruct Hcx as [[= ->]|[=]].
    apply (justified_child _ i); [|apply elem_of_cons; by left].
    apply Hmono. destruct Hi as [Hi _]. by eapply Hcan.
  - apply list_elem_of_fmap in Hx as (o & -> & _). by destruct Hcx.
  - apply elem_of_cons in Hx as [-> | ->%list_elem_of_singleton]; destruct Hcx; simplify_eq.
    apply Hmono. eapply Htask; [apply elem_of_cons; by left|by left].
Qed.

Lemma sound_step script w t w' ts T :
  regs_ok w → exec_spec script w t w' ts → sound w (t :: T) → sound w' (ts ++ T).
Proof.
  intros Hregs Hex Hsound. pose proof Hsound as [Hcan Htask Hedge].
  assert (∀ i inn, inners w' !! i = Some inn → cancelled (state inn) = true → justified w' i)
    as Hcan'.
  { intros i inn' Hi Hc.
    destruct (newly_cancelled script w t w' ts i inn' Hex Hi Hc) as [(inn & Hi0 & Hc0)|[-> | ->]].
    - eapply justified_step; [done|]. by eapply Hcan.
    - exists i. split; [|done]. inversion Hex; simplify_eq/=; apply elem_of_cons; by left.
    - eapply justified_step; [done|]. eapply Htask; [apply elem_of_cons; by left|by right]. }
  split; [done| |].
  - intros c x [Hx|Hx]%elem_of_app Hcx; [by eapply left_justified|].
    eapply justified_step; [done|]. eapply Htask; [apply elem_of_cons; by right|done].
  - by eapply exec_edge.
Qed.
End invariants.

(** ** Where the callers' callbacks are *)

(** Those stored behind the locks, and those on the agendas. *)
Definition held_callbacks (m : gmap nat Inner) : list (Z * Callback) :=
  map_to_list m ≫= λ x, callbacks (state x.2).
Definition stored (m : gmap nat Inner) : list nat := users (held_callbacks m).
Definition task_user (x : task) : option nat :=
  match x with Call (User k) => Some k | _ => None end.
Definition conserved (w : world) (T : list task) : Prop :=
  registered w ≡ₚ ran w ++ omap task_user T ++ stored (inners w) ++ discarded w.

Section conservation.
Implicit Types (w : world) (inn : Inner) (T ts : list task) (m : gmap nat Inner).

Lemma users_app l l' : users (l ++ l') = users l ++ users l'.
Proof. apply omap_app. Qed.

Lemma held_delete m i inn :
  m !! i = Some inn →
  held_callbacks m ≡ₚ callbacks (state inn) ++ held_callbacks (delete i m).
Proof. intros Hi. unfold held_callbacks. by rewrite <- (map_to_list_delete m i inn Hi). Qed.

Lemma held_update m i inn inn' :
  m !! i = Some inn →
  held_callbacks (<[i := inn']> m) ≡ₚ callbacks (state inn') ++ held_callbacks (delete i m).
Proof.
  intros Hi. rewrite (held_delete _ i inn') by apply lookup_insert_eq.
  by rewrite delete_insert_eq.
Qed.

Lemma held_fresh_inner m i :
  m !! i = None → held_callbacks (<[i := Inner_new]> m) ≡ₚ held_callbacks m.
Proof. intros Hi. unfold held_callbacks. by rewrite map_to_list_insert. Qed.

Lemma stored_delete m i inn :
  m !! i = Some inn → stored m ≡ₚ users (callbacks (state inn)) ++ stored (delete i m).
Proof.
  intros Hi. unfold stored. rewrite <- users_app. apply omap_Permutation.
  by apply held_delete.
Qed.

Lemma stored_update m i inn inn' :
  m !! i = Some inn →
  stored (<[i := inn']> m) ≡ₚ users (callbacks (state inn')) ++ stored (delete i m).
Proof.
  intros Hi. unfold stored. rewrite <- users_app. apply omap_Permutation.
  by eapply held_update.
Qed.

(** A store in which one inner changed, and its callbacks of the caller did not. *)
Lemma stored_same m i inn inn' :
  m !! i = Some inn → users (callbacks (state inn')) = users (callbacks (state inn)) →
  stored (<[i := inn']> m) ≡ₚ stored m.
Proof.
  intros Hi Hu. by rewrite (stored_update m i inn inn' Hi), (stored_delete m i inn Hi), Hu.
Qed.

Lemma stored_fresh m i : m !! i = None → stored (<[i := Inner_new]> m) ≡ₚ stored m.
Proof. intros Hi. by apply omap_Permutation, held_fresh_inner. Qed.

Lemma users_calls (cbs : list (Z * Callback)) :
  omap task_user ((λ x, Call x.2) <$> cbs) = users cbs.
Proof.
  unfold users. induction cbs as [|[id [k|c]] cbs IH]; [done| |]; csimpl; [by f_equal|done].
Qed.

Lemma users_filter id (cbs : list (Z * Callback)) :
  users (filter (keeps id) cbs) ++ users (filter (λ x, negb (keeps id x)) cbs) ≡ₚ users cbs.
Proof.
  rewrite <- users_app. apply omap_Permutation.
  induction cbs as [|x cbs IH]; [done|]. rewrite !filter_cons.
  destruct (keeps id x); simpl; [by constructor|].
  by rewrite <- Permutation_middle, IH.
Qed.

Lemma omap_ops (l : list op) : omap task_user (Op <$> l) = [].
Proof. by induction l. Qed.

Lemma stored_release m i inn :
  m !! i = Some inn →
  stored (<[i := release_strong inn]> m) ++ users (callbacks (dropped_state inn)) ≡ₚ stored m.
Proof.
  intros Hi. rewrite (stored_update m i inn _ Hi), (stored_delete m i inn Hi).
  unfold release_strong, dropped_state. destruct (strong inn) as [|[|n]]; simpl;
    solve_Permutation.
Qed.

Lemma stored_removed m i inn id :
  m !! i = Some inn →
  stored (<[i := removed inn id]> m) ++
    users (filter (λ x, negb (keeps id x)) (callbacks (state inn))) ≡ₚ stored m.
Proof.
  intros Hi. rewrite (stored_update m i inn _ Hi), (stored_delete m i inn Hi).
  rewrite <- (users_filter id (callbacks (state inn))). simpl. solve_Permutation.
Qed.

Lemma conserved_step script w t w' ts T :
  exec_spec script w t w' ts → conserved w (t :: T) → conserved w' (ts ++ T).
Proof.
  unfold conserved. intros Hex Hcons. rewrite omap_app.
  rewrite (omap_app task_user [t] T : omap task_user (t :: T) = _) in Hcons.
  destruct Hex; cbn [inners regs resolved ran registered discarded requested children
                      request set_inner cancel_world];
    csimpl in Hcons; csimpl;
    repeat match goal with H : held _ _ _ |- _ => destruct H as [Hi Hs] end;
    rewrite ?stored_fresh, ?omap_ops, ?app_nil_l by done; try done.
  - by rewrite (stored_same _ _ _ (retain_strong inn) Hi).
  - rewrite Hcons, <- (stored_release _ _ _ Hi). solve_Permutation.
  - rewrite Hcons, users_calls, (stored_update _ _ _ _ Hi), (stored_delete _ _ _ Hi).
    simpl. solve_Permutation.
  - rewrite Hcons, users_calls, (stored_update _ _ _ _ Hi), (stored_delete _ _ _ Hi).
    simpl. solve_Permutation.
  - rewrite Hcons. solve_Permutation.
  - rewrite Hcons, (stored_update _ _ _ _ Hi), (stored_delete _ _ _ Hi). simpl.
    rewrite users_app. simpl. solve_Permutation.
  - rewrite Hcons, <- (stored_removed _ _ _ id Hi). solve_Permutation.
  - by rewrite (stored_same _ _ _ inn Hi).
  - by rewrite (stored_same _ _ _ (awaited inn r) Hi).
  - rewrite Hcons.
    rewrite (stored_same _ i inn); [by rewrite stored_fresh| |].
    + rewrite lookup_insert_ne; [done|congruence].
    + simpl. rewrite users_app. apply app_nil_r.
  - rewrite Hcons. solve_Permutation.
  - by rewrite (stored_same _ _ _ (retain_strong inn) Hi).
Qed.
End conservation.

(** ** Receivers *)

Definition is_down (inn : Inner) : bool := cancelled (state inn) || negb (live inn).

(** A receiver is resolved exactly when its source is cancelled or gone; until then
    the source holds its sender. *)
Record futures_ok (w : world) : Prop := {
  fo_issued r i : issued w !! r = Some i →
    ∃ inn, inners w !! i = Some inn ∧
      if is_down inn then r ∈ resolved w
      else r ∈ cancel_senders (state inn) ∧ r ∉ resolved w;
  fo_senders i inn r : inners w !! i = Some inn → r ∈ cancel_senders (state inn) →
    issued w !! r = Some i;
  fo_resolved r : r ∈ resolved w → is_Some (issued w !! r);
}.

Section futures.
Implicit Types (w : world) (inn : Inner).

(** An inner that keeps its senders and its status, or that goes down and drops its
    senders. *)
Definition senders_move (inn inn' : Inner) (txs : list nat) : Prop :=
  (cancel_senders (state inn') = cancel_senders (state inn) ∧ is_down inn' = is_down inn ∧
   txs = []) ∨
  (cancel_senders (state inn') = [] ∧ is_down inn' = true ∧ txs = cancel_senders (state inn)).

Lemma futures_move w w' i inn inn' txs :
  futures_ok w → inners w !! i = Some inn → inners w' = <[i := inn']> (inners w) →
  issued w' = issued w → resolved w' = resolved w ++ txs → senders_move inn inn' txs →
  futures_ok w'.
Proof.
  intros [Hiss Hsend Hres] Hi Hins His' Hres' Hmv. split.
  - intros r j Hr. rewrite His' in Hr. destruct (Hiss r j Hr) as (k & Hj & Hk).
    rewrite Hins, Hres'. destruct (decide (i = j)) as [<-|Hne].
    + exists inn'. rewrite lookup_insert_eq. split; [done|]. simplify_eq.
      destruct Hmv as [(-> & -> & ->)|(_ & -> & ->)]; [by rewrite app_nil_r|].
      apply elem_of_app. destruct (is_down inn); [by left|right; by destruct Hk].
    + exists k. rewrite lookup_insert_ne by done. split; [done|].
      destruct (is_down k); [apply elem_of_app; by left|].
      destruct Hk as [Hin Hnr]. split; [done|]. intros [?|Htx]%elem_of_app; [done|].
      destruct Hmv as [(_ & _ & ->)|(_ & _ & ->)]; [by apply not_elem_of_nil in Htx|].
      apply Hne. pose proof (Hsend i inn r Hi Htx). congruence.
  - intros j k r. rewrite Hins, His'.
    intros [(<- & <-)|(Hne & Hj)]%lookup_insert_Some Hr; [|by eapply Hsend].
    destruct Hmv as [(E & _ & _)|(E & _ & _)]; rewrite E in Hr; [by eapply Hsend|].
    by apply not_elem_of_nil in Hr.
  - intros r. rewrite Hres', His'. intros [?|Htx]%elem_of_app; [by apply Hres|].
    destruct Hmv as [(_ & _ & ->)|(_ & _ & ->)]; [by apply not_elem_of_nil in Htx|].
    rewrite (Hsend i inn r Hi Htx). done.
Qed.

Lemma futures_kept w w' i inn inn' :
  futures_ok w → inners w !! i = Some inn → inners w' = <[i := inn']> (inners w) →
  issued w' = issued w → resolved w' = resolved w →
  cancel_senders (state inn') = cancel_senders (state inn) → is_down inn' = is_down inn →
  futures_ok w'.
Proof.
  intros Hf Hi Hins Hs Hr Hsend Hd. eapply (futures_move _ _ i inn inn' []); try done.
  - by rewrite app_nil_r.
  - by left.
Qed.

Lemma futures_same w w' :
  futures_ok w → inners w' = inners w → issued w' = issued w → resolved w' = resolved w →
  futures_ok w'.
Proof.
  intros [Hiss Hsend Hres] Hi Hs Hr.
  split; rewrite ?Hi, ?Hs, ?Hr; done.
Qed.

Lemma futures_fresh w w' i :
  futures_ok w → inners w !! i = None → inners w' = <[i := Inner_new]> (inners w) →
  issued w' = issued w → resolved w' = resolved w → futures_ok w'.
Proof.
  intros [Hiss Hsend Hres] Hi Hins Hs Hr. split; rewrite ?Hins, ?Hs, ?Hr; [| |done].
  - intros r j Hrj. destruct (Hiss r j Hrj) as (k & Hj & Hk). exists k.
    rewrite lookup_insert_ne by congruence. done.
  - intros j k r [(<- & <-)|(Hne & Hj)]%lookup_insert_Some Hrj; [|by eapply Hsend].
    by apply not_elem_of_nil in Hrj.
Qed.

(** A new receiver. *)
Lemma futures_issue w w' i inn inn' txs r :
  futures_ok w → inners w !! i = Some inn → inners w' = <[i := inn']> (inners w) →
  issued w !! r = None → issued w' = <[r := i]> (issued w) → resolved w' = resolved w ++ txs →
  is_down inn' = is_down inn →
  (if is_down inn then cancel_senders (state inn') = cancel_senders (state inn) ∧ txs = [r]
   else cancel_senders (state inn') = cancel_senders (state inn) ++ [r] ∧ txs = []) →
  futures_ok w'.
Proof.
  intros [Hiss Hsend Hres] Hi Hins Hfr His' Hres' Hd Hcase.
  assert (r ∉ resolved w) as Hnr
    by (intros Hin; destruct (Hres r Hin) as [? ?]; congruence).
  split.
  - intros r' j. rewrite His', Hins, Hres'.
    intros [(<- & <-)|(Hne & Hr')]%lookup_insert_Some.
    + exists inn'. rewrite lookup_insert_eq. split; [done|]. rewrite Hd.
      destruct (is_down inn).
      * destruct Hcase as [_ ->]. apply elem_of_app. right. by apply list_elem_of_singleton.
      * destruct Hcase as [-> ->]. rewrite app_nil_r. split; [|done].
        apply elem_of_app. right. by apply list_elem_of_singleton.
    + destruct (Hiss r' j Hr') as (k & Hj & Hk).
      assert (r' ∉ txs) as Htx
        by (destruct (is_down inn), Hcase as [_ ->];
            [by intros ->%list_elem_of_singleton|apply not_elem_of_nil]).
      destruct (decide (i = j)) as [<-|Hij].
      * exists inn'. rewrite lookup_insert_eq. split; [done|]. simplify_eq. rewrite Hd.
        destruct (is_down inn); [apply elem_of_app; by left|].
        destruct Hcase as [-> ->], Hk as [Hin Hn]. rewrite app_nil_r.
        split; [apply elem_of_app; by left|done].
      * exists k. rewrite lookup_insert_ne by done. split; [done|].
        destruct (is_down k); [apply elem_of_app; by left|].
        destruct Hk as [Hin Hn]. split; [done|]. by intros [?|?]%elem_of_app.
  - intros j k r'. rewrite Hins, His'.
    intros [(<- & <-)|(Hne & Hj)]%lookup_insert_Some Hr'.
    + destruct (decide (r' = r)) as [->|Hrr]; [by rewrite lookup_insert_eq|].
      rewrite lookup_insert_ne by done. eapply Hsend; [done|].
      destruct (is_down inn), Hcase as [E _]; rewrite E in Hr'; [done|].
      by apply elem_of_app in Hr' as [?|?%list_elem_of_singleton].
    + pose proof (Hsend j k r' Hj Hr'). by rewrite lookup_insert_ne by congruence.
  - intros r'. rewrite Hres', His'. intros Hin.
    destruct (decide (r' = r)) as [->|Hrr]; [by rewrite lookup_insert_eq|].
    rewrite lookup_insert_ne by done.
    apply elem_of_app in Hin as [?|Htx]; [by apply Hres|].
    destruct (is_down inn), Hcase as [_ ->];
      [by apply list_elem_of_singleton in Htx|by apply not_elem_of_nil in Htx].
Qed.

Lemma release_senders inn :
  inner_ok inn → strong inn ≠ O →
  senders_move inn (release_strong inn) (cancel_senders (dropped_state inn)).
Proof.
  intros Hok Hs. unfold senders_move, release_strong, dropped_state, is_down, live.
  destruct (strong inn) as [|[|n]]; simpl; [done| |by left].
  right. by rewrite orb_true_r.
Qed.

Lemma is_down_live inn : strong inn ≠ O → is_down inn = cancelled (state inn).
Proof. unfold is_down, live. intros Hs. destruct (Nat.eqb_spec (strong inn) 0); [done|]. apply orb_false_r. Qed.

Lemma futures_step script w t w' ts :
  world_ok w → exec_spec script w t w' ts → futures_ok w → futures_ok w'.
Proof.
  intros [Hin _] Hex Hf.
  destruct Hex; repeat match goal with H : held _ _ _ |- _ => destruct H as [Hi Hs] end;
    try (by eapply futures_same);
    try (by eapply futures_fresh).
  - eapply futures_kept; [done..|done|]. by rewrite !is_down_live.
  - eapply futures_move; [done..|]. apply release_senders; [by eapply Hin|done].
  - eapply futures_move; [done..|]. right. by rewrite is_down_live.
  - eapply futures_move; [done..|]. right. by rewrite is_down_live.
  - eapply futures_kept; [done..|done|]. by rewrite !is_down_live.
  - eapply futures_kept; [done..|done|]. by rewrite !is_down_live.
  - eapply (futures_issue _ _ i inn inn); [done..|]. by rewrite is_down_live, H0.
  - eapply (futures_issue _ _ i inn); [done..| |]; rewrite !is_down_live by done;
      [done|by rewrite H0].
  - assert (i ≠ c) by congruence.
    eapply (futures_kept (set_inner w c Inner_new) _ i inn); [by eapply futures_fresh| |done..|];
      [simpl; by rewrite lookup_insert_ne|]. by rewrite !is_down_live.
  - eapply futures_kept; [done..|done|]. by rewrite !is_down_live.
Qed.
End futures.

(** ** Termination *)

Section termination.
Context (script : nat → list op).
(** A weight for the callers' callbacks: the script of each weighs no more than it,
    so that no callback registers itself again, directly or not. *)
Context (wt : nat → nat).

Definition cb_weight (x : Z * Callback) : nat :=
  match x.2 with User k => S (wt k) | CancelChild _ => 3 end.
Definition op_weight (o : op) : nat :=
  match o with Register _ k _ => S (S (wt k)) | SpawnChild _ _ => 4 | _ => 1 end.
Definition task_weight (x : task) : nat :=
  match x with
  | Op o => op_weight o
  | Call cb => cb_weight (0, cb)
  | CancelUpgraded _ => 1
  end.
Definition measure (w : world) (T : list task) : nat :=
  sum_list_with task_weight T + sum_list_with cb_weight (held_callbacks (inners w)).

Definition ranked : Prop := ∀ k, (sum_list_with op_weight (script k) ≤ wt k)%nat.

Implicit Types (w : world) (inn : Inner) (T ts : list task) (m : gmap nat Inner).

Definition held_weight m : nat := sum_list_with cb_weight (held_callbacks m).

Lemma held_weight_update m i inn inn' :
  m !! i = Some inn →
  (held_weight (<[i := inn']> m) + sum_list_with cb_weight (callbacks (state inn)) =
   held_weight m + sum_list_with cb_weight (callbacks (state inn')))%nat.
Proof.
  intros Hi. unfold held_weight.
  rewrite (held_update m i inn inn' Hi), (held_delete m i inn Hi), !sum_list_with_app. lia.
Qed.

Lemma held_weight_fresh m i :
  m !! i = None → held_weight (<[i := Inner_new]> m) = held_weight m.
Proof. intros Hi. unfold held_weight. by rewrite held_fresh_inner. Qed.

Lemma weight_calls (cbs : list (Z * Callback)) :
  sum_list_with task_weight ((λ x, Call x.2) <$> cbs) = sum_list_with cb_weight cbs.
Proof. induction cbs as [|[id cb] cbs IH]; [done|]. csimpl. by rewrite IH. Qed.

Lemma weight_ops (l : list op) :
  sum_list_with task_weight (Op <$> l) = sum_list_with op_weight l.
Proof. induction l as [|o l IH]; [done|]. csimpl. by rewrite IH. Qed.

Lemma weight_removed inn id :
  (sum_list_with cb_weight (callbacks (state (removed inn id))) ≤
   sum_list_with cb_weight (callbacks (state inn)))%nat.
Proof.
  simpl. induction (callbacks (state inn)) as [|x l IH]; [done|].
  rewrite filter_cons. case_decide; simpl; lia.
Qed.

Lemma weight_release inn :
  (sum_list_with cb_weight (callbacks (state (release_strong inn))) ≤
   sum_list_with cb_weight (callbacks (state inn)))%nat.
Proof. unfold release_strong. destruct (strong inn) as [|[|n]]; simpl; lia. Qed.

Lemma measure_step w t w' ts T :
  ranked → exec_spec script w t w' ts → (measure w' (ts ++ T) < measure w (t :: T))%nat.
Proof.
  intros Hrank Hex. unfold measure. rewrite sum_list_with_app.
  fold (held_weight (inners w)) (held_weight (inners w')). cbn [sum_list_with].
  destruct Hex; cbn [inners set_inner request cancel_world];
    repeat match goal with H : held _ _ _ |- _ => destruct H as [Hi Hs] end;
    rewrite ?held_weight_fresh by done;
    try match goal with
    | Hi : inners ?w !! ?i = Some ?inn |- context [held_weight (<[?i := ?inn']> (inners ?w))] =>
        pose proof (held_weight_update (inners w) i inn inn' Hi)
    end; simpl in *; try lia.
  - pose proof (weight_release inn). lia.
  - rewrite weight_calls. lia.
  - rewrite weight_calls. lia.
  - rewrite sum_list_with_app in *. simpl in *. lia.
  - pose proof (weight_removed inn id). simpl in *. lia.
  - pose proof (held_weight_update (<[c := Inner_new]> (inners w)) i inn
      (added inn (CancelChild c))) as E.
    rewrite held_weight_fresh in E by done. simpl in E.
    rewrite sum_list_with_app in E. simpl in E.
    rewrite lookup_insert_ne in E by congruence. specialize (E Hi). lia.
  - rewrite weight_ops. pose proof (Hrank k). lia.
Qed.
End termination.

(** ** Executions *)

Definition tasks_left (c : config) : list task := concat (agendas c).
Definition idle (c : config) : Prop := tasks_left c = [].

Lemma concat_insert {A} (ls : list (list A)) i l l' :
  ls !! i = Some l → ∃ T, concat ls ≡ₚ l ++ T ∧ concat (<[i := l']> ls) ≡ₚ l' ++ T.
Proof.
  revert i. induction ls as [|k ls IH]; intros [|i] Hi; simplify_eq/=; [by exists (concat ls)|].
  destruct (IH i Hi) as (T & H1 & H2). exists (k ++ T).
  rewrite H1, H2. split; solve_Permutation.
Qed.

Section executions.
Context (script : nat → list op).

Lemma sched_step_spec c t c' :
  sched_step script c t = Some c' →
  ∃ x ts T, exec_spec script (store c) x (store c') ts ∧
    tasks_left c ≡ₚ x :: T ∧ tasks_left c' ≡ₚ ts ++ T.
Proof.
  unfold sched_step. destruct (agendas c !! t) as [[|x rest]|] eqn:Ht; try done. simpl.
  destruct (exec script x (store c)) as [[w' ts]|] eqn:Hex; [|done]. intros [= <-].
  destruct (concat_insert (agendas c) t _ (ts ++ rest) Ht) as (T & H1 & H2).
  exists x, ts, (rest ++ T). split; [by apply exec_sound|]. split; [done|].
  unfold tasks_left. simpl. by rewrite H2, <- app_assoc.
Qed.

Record invariant (w : world) (T : list task) : Prop := {
  in_ok : world_ok w;
  in_propagates : propagates w T;
  in_sound : sound w T;
  in_conserved : conserved w T;
  in_futures : futures_ok w;
}.

Lemma invariant_perm w T T' : T ≡ₚ T' → invariant w T → invariant w T'.
Proof.
  intros Hp [Hok Hpr [Hs1 Hs2 Hs3] Hc Hf]. split; [done| | | |done].
  - intros p c Hin. destruct (Hpr p c Hin) as (ip & ic & H1 & H2 & H3 & H4).
    exists ip, ic. split; [done|]. split; [done|]. split; [|done].
    intros Hcp. destruct (H3 Hcp) as [?|(x & Hx & ?)]; [by left|right].
    exists x. by rewrite <- Hp.
  - split; [done| |done]. intros c x Hx. eapply Hs2. by rewrite Hp.
  - unfold conserved in *. by rewrite Hc, (omap_Permutation task_user _ _ Hp).
Qed.

Lemma invariant_step w t w' ts T :
  exec_spec script w t w' ts → invariant w (t :: T) → invariant w' (ts ++ T).
Proof.
  intros Hex [Hok Hpr Hs Hc Hf]. pose proof Hok as [_ Hregs]. split.
  - by eapply exec_world_ok.
  - by eapply propagates_step.
  - by eapply sound_step.
  - by eapply conserved_step.
  - by eapply futures_step.
Qed.

Lemma run_invariant sched : ∀ c c',
  invariant (store c) (tasks_left c) → run_sched script sched c = Some c' →
  invariant (store c') (tasks_left c').
Proof.
  induction sched as [|t sched IH]; intros c c' Hinv Hrun; simpl in *; [by simplify_eq|].
  destruct (sched_step script c t) as [c1|] eqn:E; [simpl in Hrun|done].
  apply sched_step_spec in E as (x & ts & T & Hex & H1 & H2).
  eapply IH; [|done]. eapply invariant_perm; [symmetry; exact H2|].
  eapply invariant_step; [exact Hex|]. by eapply invariant_perm.
Qed.

Lemma run_measure wt sched : ranked script wt → ∀ c c',
  run_sched script sched c = Some c' →
  (length sched + measure wt (store c') (tasks_left c') ≤ measure wt (store c) (tasks_left c))%nat.
Proof.
  intros Hrank. induction sched as [|t sched IH]; intros c c' Hrun; simpl in *; [by simplify_eq|].
  destruct (sched_step script c t) as [c1|] eqn:E; [simpl in Hrun|done].
  apply sched_step_spec in E as (x & ts & T & Hex & H1 & H2).
  apply (measure_step script wt _ _ _ _ T Hrank) in Hex. specialize (IH c1 c' Hrun).
  unfold measure in *. rewrite H1. rewrite H2 in IH. lia.
Qed.

Lemma start_tasks programs x : x ∈ tasks_left (start programs) → ∃ o, x = Op o.
Proof.
  unfold tasks_left, start. simpl. rewrite <- concat_map. intros Hx.
  apply list_elem_of_fmap in Hx as (o & -> & _). by exists o.
Qed.

Lemma start_invariant programs :
  invariant (store (start programs)) (tasks_left (start programs)).
Proof.
  split.
  - split; [apply map_Forall_empty|]. intros h i id Hh. simpl in Hh.
    by apply lookup_empty_Some in Hh.
  - simpl. by intros p c ?%not_elem_of_nil.
  - split.
    + simpl. intros i inn Hi. by apply lookup_empty_Some in Hi.
    + intros c x Hx. destruct (start_tasks programs x Hx) as [o ->]. by intros [|].
    + simpl. intros p ip id c Hp. by apply lookup_empty_Some in Hp.
  - unfold conserved, tasks_left, start, stored, held_callbacks. simpl.
    rewrite map_to_list_empty, <- concat_map. simpl. by rewrite omap_ops.
  - split; simpl; [by intros r i ?%lookup_empty_Some|by intros i inn r ?%lookup_empty_Some|].
    by intros r ?%not_elem_of_nil.
Qed.
End executions.

(** ** Properties *)

Definition alive (w : world) (i : nat) : Prop :=
  ∃ inn, inners w !! i = Some inn ∧ strong inn ≠ O.
Definition is_cancelled (w : world) (i : nat) : Prop :=
  ∃ inn, inners w !! i = Some inn ∧ cancelled (state inn) = true.

(** C18: cancellation reaches exactly the descendants.  In every interleaving of any
    programs, a source or token is cancelled only if an explicit cancellation was
    requested on it or on an ancestor, so that a child never cancels its parent;
    and once the threads have nothing left to do, a cancelled one has cancelled
    every descendant reached through children that are alive. *)
Theorem cancellation_propagates script programs sched c :
  run_sched script sched (start programs) = Some c →
  (∀ i, is_cancelled (store c) i → justified (store c) i) ∧
  (idle c → ∀ p q, is_cancelled (store c) p →
   rtc (λ a b, (a, b) ∈ children (store c) ∧ alive (store c) b) p q →
   is_cancelled (store c) q).
Proof.
  intros Hrun. pose proof (run_invariant script sched _ _ (start_invariant programs) Hrun)
    as [_ Hpr [Hs _ _] _ _].
  split; [intros i (inn & Hi & Hc); by eapply Hs|].
  intros Hidle p q Hp Hpath. induction Hpath as [|a b q [Hab Hal] _ IH]; [done|]. apply IH.
  destruct (Hpr a b Hab) as (ia & ib & Ha & Hb & Hdone & _), Hp as (ia' & Ha' & Hca).
  simplify_eq. destruct (Hdone Hca) as [(ib' & Hb' & Hd)|(x & Hx & _)].
  - destruct Hal as (ib'' & Hb'' & Hsb). simplify_eq. exists ib''.
    split; [done|]. by destruct Hd.
  - rewrite Hidle in Hx. by apply not_elem_of_nil in Hx.
Qed.

(** C35: callbacks run exactly once.  At every moment the callbacks handed to
    [register] are, with multiplicities, those that ran, those a thread is about to
    run, those waiting behind a lock and those dropped unrun (their registration or
    their source was dropped); and a cancelled source keeps none waiting. *)
Theorem callbacks_run_once script programs sched c :
  run_sched script sched (start programs) = Some c →
  registered (store c) ≡ₚ ran (store c) ++ omap task_user (tasks_left c) ++
                          stored (inners (store c)) ++ discarded (store c) ∧
  ∀ i inn, inners (store c) !! i = Some inn → cancelled (state inn) = true →
    callbacks (state inn) = [] ∧ cancel_senders (state inn) = [].
Proof.
  intros Hrun. pose proof (run_invariant script sched _ _ (start_invariant programs) Hrun)
    as [[Hok _] _ _ Hc _].
  split; [done|]. intros i inn Hi Hcan. by apply (io_cancelled _ (Hok i inn Hi)).
Qed.

(** A cancellation future resolves exactly when its source is cancelled, or
    when the last handle on the source is dropped. *)
Theorem cancellation_future_resolves script programs sched c r i :
  run_sched script sched (start programs) = Some c → issued (store c) !! r = Some i →
  (r ∈ resolved (store c) ↔ is_cancelled (store c) i ∨ ¬ alive (store c) i).
Proof.
  intros Hrun Hr. pose proof (run_invariant script sched _ _ (start_invariant programs) Hrun)
    as [_ _ _ _ [Hiss _ _]].
  destruct (Hiss r i Hr) as (inn & Hi & Hcase). unfold is_down, live in Hcase.
  destruct (cancelled (state inn)) eqn:Hc; simpl in Hcase.
  { split; [intros _; left; by exists inn|done]. }
  destruct (Nat.eqb_spec (strong inn) 0) as [Hs|Hs]; simpl in Hcase.
  { split; [intros _; right|done]. intros (inn' & Hi' & Hs'). congruence. }
  destruct Hcase as [_ Hn]. split; [done|].
  intros [(inn' & Hi' & Hc')|Hd]; [congruence|]. destruct Hd. by exists inn.
Qed.

(** C38: every execution ends.  When the callers' callbacks can be ranked so that the
    script of each registers only callbacks of lower ranks, no interleaving takes
    more steps than the weight of the programs. *)
Theorem cancel_terminates script wt programs sched c :
  ranked script wt → run_sched script sched (start programs) = Some c →
  (length sched ≤ measure wt (store (start programs)) (tasks_left (start programs)))%nat.
Proof. intros Hrank Hrun. pose proof (run_measure script wt sched Hrank _ _ Hrun). lia. Qed.

(** ** Witnesses *)

(** A source, a child and a grandchild, a callback on the grandchild whose script
    registers another one on the source, and a second thread that waits. *)
Definition demo_script (k : nat) : list op :=
  match k with 1%nat => [Register 0 2 1] | _ => [] end.
Definition demo_programs : list (list op) :=
  [[NewSource 0; SpawnChild 0 1; SpawnChild 1 2; Register 2 1 0; Cancel 0];
   [Cancellation 2 0]].
Definition demo_sched : list nat :=
  [0; 0; 0; 0; 1; 0; 0; 0; 0; 0; 0; 0; 0; 0; 0]%nat.
Definition demo_end : config :=
  default (start []) (run_sched demo_script demo_sched (start demo_programs)).

Lemma cancellation_propagates_witness :
  (∀ i, is_cancelled (store demo_end) i → justified (store demo_end) i) ∧
  (idle demo_end → ∀ p q, is_cancelled (store demo_end) p →
   rtc (λ a b, (a, b) ∈ children (store demo_end) ∧ alive (store demo_end) b) p q →
   is_cancelled (store demo_end) q).
Proof.
  exact (cancellation_propagates demo_script demo_programs demo_sched demo_end
           ltac:(vm_compute; reflexivity)).
Defined.

Lemma callbacks_run_once_witness :
  registered (store demo_end) ≡ₚ ran (store demo_end) ++ omap task_user (tasks_left demo_end) ++
    stored (inners (store demo_end)) ++ discarded (store demo_end) ∧
  ∀ i inn, inners (store demo_end) !! i = Some inn → cancelled (state inn) = true →
    callbacks (state inn) = [] ∧ cancel_senders (state inn) = [].
Proof.
  exact (callbacks_run_once demo_script demo_programs demo_sched demo_end
           ltac:(vm_compute; reflexivity)).
Defined.

Lemma cancellation_future_resolves_witness :
  0%nat ∈ resolved (store demo_end) ↔
  is_cancelled (store demo_end) 2 ∨ ¬ alive (store demo_end) 2.
Proof.
  exact (cancellation_future_resolves demo_script demo_programs demo_sched demo_end 0 2
           ltac:(vm_compute; reflexivity) ltac:(vm_compute; reflexivity)).
Defined.

Lemma cancel_terminates_witness :
  (length demo_sched ≤
   measure (λ k, if Nat.eqb k 1 then 2 else 0) (store (start demo_programs))
     (tasks_left (start demo_programs)))%nat.
Proof.
  apply (cancel_terminates demo_script (λ k, if Nat.eqb k 1 then 2 else 0)%nat
           demo_programs demo_sched demo_end).
  - intros [|[|k]]; simpl; lia.
  - vm_compute. reflexivity.
Defined.

(** Propagation needs the children between to be alive: once the token of the child
    is dropped, cancelling the source no longer reaches the grandchild. *)
Lemma dropped_child_cuts_propagation :
  match run_sched (λ _, []) (replicate 6 0%nat)
          (start [[NewSource 0; SpawnChild 0 1; SpawnChild 1 2; DropHandle 1; Cancel 0]]) with
  | Some c => tasks_left c = [] ∧
      (cancelled ∘ state <$> inners (store c) !! 0%nat) = Some true ∧
      (cancelled ∘ state <$> inners (store c) !! 2%nat) = Some false
  | None => False
  end.
Proof. vm_compute. repeat split. Qed.

(** A registration dropped by a callback of the same cancellation does not stop the
    later callback: it was already taken from the list. *)
Lemma dispose_during_cancel_runs :
  match run_sched (λ k, if Nat.eqb k 1 then [Dispose 1] else []) (replicate 7 0%nat)
          (start [[NewSource 0; Register 0 1 0; Register 0 2 1; Cancel 0]]) with
  | Some c => tasks_left c = [] ∧ ran (store c) = [2; 1]%nat ∧ discarded (store c) = []
  | None => False
  end.
Proof. vm_compute. repeat split. Qed.

(** The future of a source that nobody can cancel any more resolves all the same. *)
Lemma dropped_source_resolves :
  match run_sched (λ _, []) (replicate 3 0%nat)
          (start [[NewSource 0; Cancellation 0 7; DropHandle 0]]) with
  | Some c => resolved (store c) = [7%nat] ∧
      (cancelled ∘ state <$> inners (store c) !! 0%nat) = Some false
  | None => False
  end.
Proof. vm_compute. repeat split. Qed.
