(* ===== verification/LockTests.v ===== *)
(** * The tests of the locks

    The [#[test]] functions of [crates/atomic_sync/src/mutex/preemptive_tests_.rs] and
    [rwlock/preemptive/tests_.rs], and the generic ones of [mutex/smoke_tests_.rs], run
    on the models.  A test of one thread
    runs each call to its end; the two regression tests of the mutex that use a second
    thread are run with the schedule that their sleeps bring about.  No weak exchange
    fails spuriously here: [Mutex.v] and [RwLock.v] have the theorems for those that
    do. *)

From S2P Require Import Prelude Testing Atomex Words RwWord RwLock Mutex.

(** ** The mutex *)

Module MutexTests.

(** [usize] words. *)
#[local] Instance Sig : TrMutexSignal Z := MsbAsMutexSignal USIZE_BITS.
Abbreviation mutex := (mutex Z Z).
Implicit Types s : mutex.

(** [new_owned] and [new_embedded] store the default in the cell, [new] keeps it;
    the handles are the threads. *)
Definition new_owned (data : Z) : mutex := new_mutex data 0 4.
Definition new_embedded (data dirty : Z) : mutex := new_mutex data 0 4.
Definition lock_is_acquired s : bool := is_acquired (state_ s).
Definition into_inner s : Z := value_ s.

Definition exchange : list (event Z) := [Continue false false].
Definition calls (i : nat) (es : list (event Z)) s : exec mutex :=
  unwrap (run (map (pair i) es) s).
Definition has_guard s (i : nat) : bool :=
  match threads s !! i with Some p => inside p | None => false end.
(** [try_lock]: its load and its exchange; [lock().wait()] with nobody else: its
    load, the token, its exchange. *)
Definition try_lock (i : nat) s : exec (mutex * bool) :=
  s ← calls i (CallTryLock :: exchange) s; Done (s, has_guard s i).
Definition wait (i : nat) s : exec mutex :=
  s ← calls i (CallLock :: exchange ++ exchange) s; assert (has_guard s i);; Done s.
Definition drop_guard (i : nat) s : exec mutex := calls i (DropGuard :: exchange) s.
(** The data read and written through the guard. *)
Definition deref (i : nat) s : exec (mutex * Z) :=
  s ← calls i [ReadData] s;
  match threads s !! i with Some (Guarded (Some x)) => Done (s, x) | _ => Aborted end.
Definition deref_mut (i : nat) (f : Z → Z) s : exec mutex :=
  calls i [ReadData; WriteData f] s.

Definition msb_signal_boundaries : exec unit :=
  let msb := K_MSB_FLAG USIZE_BITS in
  assert (negb (is_acquired 0));;
  assert (is_released 0);;
  assert_eq (make_acquired 0) msb;;
  assert (is_acquired msb);;
  assert_eq (make_released msb) 0;;
  let data := 0x0F0F in
  assert_eq (Z.land (make_acquired data) (word_not USIZE_BITS msb)) data;;
  assert_eq (make_released (make_acquired data)) data;;
  let all_data := word_not USIZE_BITS msb in
  assert (negb (is_acquired all_data));;
  assert (is_acquired USIZE_MAX);;
  assert_eq (make_released USIZE_MAX) all_data;;
  assert (is_acquired (make_acquired msb)).

Definition ptr_signal_boundaries : exec unit :=
  let S := PtrAsMutexSignal in
  let null := 0 in let even := 0x10 in let odd := 0x11 in
  assert (is_released (TrMutexSignal0 := S) null);;
  assert (is_released (TrMutexSignal0 := S) even);;
  assert (is_acquired (TrMutexSignal := S) (make_acquired (TrMutexSignal := S) even));;
  assert_eq (make_released (TrMutexSignal := S) (make_acquired (TrMutexSignal := S) even)) even;;
  assert_eq (make_acquired (TrMutexSignal := S) null) 1;;
  assert (is_acquired (TrMutexSignal := S) odd);;
  assert_eq (make_released (TrMutexSignal := S) odd) 0x10.

Definition ptr_signal_odd_cell_breaks_mutex : exec unit :=
  let S := PtrAsMutexSignal in
  let lock := new_mutex 7 0x3 1 in
  assert (is_acquired (TrMutexSignal := S) (state_ lock));;
  s ← unwrap (Mutex.run (SG := S) (map (pair 0%nat) (CallTryLock :: exchange)) lock);
  assert (negb (has_guard s 0)).

Definition try_lock_lifecycle : exec unit :=
  let mutex := new_owned 42 in
  assert (negb (lock_is_acquired mutex));;
  '(mutex, g) ← try_lock 1 mutex;
  assert g;;
  assert (lock_is_acquired mutex);;
  '(mutex, x) ← deref 1 mutex;
  assert_eq x 42;;
  '(mutex, g) ← try_lock 2 mutex;
  assert (negb g);;
  mutex ← drop_guard 1 mutex;
  assert (negb (lock_is_acquired mutex));;
  '(mutex, g) ← try_lock 2 mutex;
  assert g;;
  '(_, x) ← deref 2 mutex;
  assert_eq x 42.

Definition lock_wait_single_thread : exec unit :=
  let mutex := new_owned 1 in
  mutex ← wait 0 mutex;
  mutex ← deref_mut 0 (λ g, g + 1) mutex;
  '(mutex, x) ← deref 0 mutex;
  assert_eq x 2;;
  mutex ← drop_guard 0 mutex;
  mutex ← wait 0 mutex;
  '(mutex, x) ← deref 0 mutex;
  assert_eq x 2.

Definition embedded_new_resets_cell_to_default : exec unit :=
  let lock := new_embedded 9 USIZE_MAX in
  assert (negb (lock_is_acquired lock));;
  '(lock, g) ← try_lock 0 lock;
  assert g;;
  '(_, x) ← deref 0 lock;
  assert_eq x 9.

Definition into_inner_roundtrip : exec unit := assert_eq (into_inner (new_owned 3)) 3.

Definition may_break_precancelled_token_never_acquires : exec unit :=
  let mutex := new_owned 3 in
  mutex ← calls 0 [CallLock; Continue true false] mutex;
  assert (negb (has_guard mutex 0));;
  assert (negb (lock_is_acquired mutex)).

(** The waiter spins while the guard is held: the token, an exchange refused before it
    touches the word, the reload; then the holder drops its guard. *)
Definition spin_round : list (event Z) := exchange ++ exchange ++ exchange.
Definition lock_wait_acquires_after_holder_releases : exec unit :=
  let mutex := new_owned 0 in
  mutex ← wait 0 mutex;
  mutex ← calls 1 (CallLock :: spin_round ++ spin_round ++ spin_round) mutex;
  assert (negb (has_guard mutex 1));;
  mutex ← drop_guard 0 mutex;
  mutex ← calls 1 (spin_round ++ exchange ++ exchange) mutex;
  assert (has_guard mutex 1).

Definition may_break_with_cancelled_token_returns_none_while_held : exec unit :=
  let mutex := new_owned 0 in
  mutex ← wait 0 mutex;
  mutex ← calls 1 [CallLock; Continue true false] mutex;
  assert (negb (has_guard mutex 1));;
  assert (match threads mutex !! 1%nat with Some Outside => true | _ => false end).

(** [smoke_tests_.rs]: the data is also reached through [as_mut_ptr]. *)
Definition write_ptr s (x : Z) : mutex := Mutex (state_ s) x (threads s) (log s).
Definition usize_smoke_test (new_mutex : Z → mutex) : exec unit :=
  let mutex := new_mutex 42 in
  mutex ← wait 0 mutex;
  assert_eq (value_ mutex) 42;;
  let mutex := write_ptr mutex 58 in
  mutex ← drop_guard 0 mutex;
  mutex ← wait 0 mutex;
  '(_, x) ← deref 0 mutex;
  assert_eq x 58.
Definition try_acquired_smoke (new_mutex : Z → mutex) : exec unit :=
  let mutex := new_mutex 1 in
  '(mutex, guard) ← try_lock 0 mutex;
  assert guard;;
  '(mutex, x) ← deref 0 mutex;
  assert_eq x 1;;
  mutex ← drop_guard 0 mutex;
  Done ().

Definition suite : list (exec unit) :=
  [msb_signal_boundaries; ptr_signal_boundaries; ptr_signal_odd_cell_breaks_mutex;
   try_lock_lifecycle; lock_wait_single_thread; embedded_new_resets_cell_to_default;
   into_inner_roundtrip; may_break_precancelled_token_never_acquires;
   lock_wait_acquires_after_holder_releases;
   may_break_with_cancelled_token_returns_none_while_held;
   usize_smoke_test new_owned; try_acquired_smoke new_owned].

Theorem mutex_tests_pass : Forall passes suite.
Proof. run_tests. Qed.

End MutexTests.

(** ** The reader/writer lock *)

Module RwTests.

Abbreviation W := USIZE_BITS.

(** The lock with the data behind its guards. *)
Record rwlock : Type := mkRwlock { lock_ : lock; value_ : Z }.
Implicit Types r : rwlock.
Definition new_owned (data : Z) : rwlock := mkRwlock (new_lock 3) data.
Definition reader_count r : Z := get_reader_count W (stat_ (lock_ r)).
Definition into_inner r : Z := value_ r.

Definition top (i : nat) r : option guard :=
  match handles (lock_ r) !! i with Some h => head (guards h) | None => None end.
Definition calls (i : nat) (acts : list action) r : exec rwlock :=
  o ← unwrap (RwLock.run W true (map (pair i) acts) (lock_ r));
  l ← lift o;
  Done (mkRwlock l (value_ r)).
(** [try_write] that fails goes on to queue the writer. *)
Definition try_write (i : nat) r : exec (rwlock * bool) :=
  r ← calls i [TryWrite] r;
  match handles (lock_ r) !! i with
  | Some (Handle _ RequestWrite) => r ← calls i [Resume] r; Done (r, false)
  | _ => Done (r, bool_decide (top i r = Some WriterGuard))
  end.
(** [wait]: the first round of its loop, which is the only one when it succeeds. *)
Definition wait (i : nat) (a : action) (g : guard) r : exec rwlock :=
  r ← calls i [a] r; assert_eq (top i r) (Some g);; Done r.
Definition drop_guard (i : nat) r : exec rwlock := calls i [RwLock.DropGuard] r.
Definition deref (i : nat) r : exec Z := _ ← unwrap (top i r); Done (value_ r).
Definition store_mut (i : nat) (x : Z) r : exec rwlock :=
  assert_eq (top i r) (Some WriterGuard);; Done (mkRwlock (lock_ r) x).

Definition ANSWER : Z := 42.
Definition MYSTERY : Z := ANSWER * ANSWER.

Definition rwlock_default_test : exec unit :=
  let rwlock := new_owned ANSWER in
  assert_eq (reader_count rwlock) 0;;
  assert_eq (into_inner rwlock) ANSWER.

Definition acquire_reader_guard_should_block_acq_writer_guard : exec unit :=
  let rwlock := new_owned ANSWER in
  rwlock ← wait 0 TryRead ReaderGuard rwlock;
  r0 ← deref 0 rwlock;
  assert_eq r0 ANSWER;;
  assert_eq (reader_count rwlock) 1;;
  rwlock ← wait 1 TryRead ReaderGuard rwlock;
  r1 ← deref 1 rwlock;
  assert_eq r1 r0;;
  assert_eq (reader_count rwlock) 2;;
  '(rwlock, opt_w) ← try_write 2 rwlock;
  assert (negb opt_w);;
  rwlock ← drop_guard 0 rwlock;
  assert_eq (reader_count rwlock) 1;;
  '(rwlock, opt_w) ← try_write 2 rwlock;
  assert (negb opt_w);;
  rwlock ← drop_guard 1 rwlock;
  assert_eq (reader_count rwlock) 0;;
  '(rwlock, opt_w) ← try_write 2 rwlock;
  assert opt_w;;
  w ← deref 2 rwlock;
  assert_eq w ANSWER;;
  rwlock ← store_mut 2 MYSTERY rwlock;
  rwlock ← drop_guard 2 rwlock;
  assert_eq (into_inner rwlock) MYSTERY.

Definition acquire_reader_guard_should_block_upgrade : exec unit :=
  let rwlock := new_owned ANSWER in
  rwlock ← wait 0 TryRead ReaderGuard rwlock;
  r0 ← deref 0 rwlock;
  assert_eq r0 ANSWER;;
  assert_eq (reader_count rwlock) 1;;
  rwlock ← wait 1 TryUpgradableRead UpgradableReaderGuard rwlock;
  r1 ← deref 1 rwlock;
  assert_eq r1 r0;;
  assert_eq (reader_count rwlock) 2;;
  rwlock ← calls 1 [TryUpgradeMut] rwlock;
  assert_eq (top 1 rwlock) (Some UpgradableReaderGuard);;
  rwlock ← drop_guard 0 rwlock;
  assert_eq (reader_count rwlock) 1;;
  rwlock ← wait 1 TryUpgradeMut WriterGuard rwlock;
  assert_eq (reader_count rwlock) 1;;
  w ← deref 1 rwlock;
  assert_eq w ANSWER;;
  rwlock ← store_mut 1 MYSTERY rwlock;
  rwlock ← drop_guard 1 rwlock;
  assert_eq (value_ rwlock) MYSTERY.

Definition suite : list (exec unit) :=
  [rwlock_default_test; acquire_reader_guard_should_block_acq_writer_guard;
   acquire_reader_guard_should_block_upgrade].

Theorem rwlock_tests_pass : Forall passes suite.
Proof. run_tests. Qed.

End RwTests.
