(* ===== verification/CancelTests.v ===== *)
(** * The tests of the cancellation source

    The [#[test]] functions of [crates/cancel_src/src/lib.rs], run on the model by one
    thread: a call is done when all that it left to do is done.  The tests that only
    format a value or count the allocations are left out. *)

From S2P Require Import CancelSrc Prelude Testing.

Implicit Types w : world.

(** The callbacks of the tests count their runs and call nothing. *)
Definition no_script (k : nat) : list op := [].
Fixpoint settle (fuel : nat) (ts : list task) w : exec world :=
  match ts, fuel with
  | [], _ => Done w
  | _, O => OutOfFuel
  | t :: ts, S fuel =>
      '(w, more) ← unwrap (CancelSrc.exec no_script t w);
      settle fuel (more ++ ts) w
  end.
Definition call (o : op) w : exec world := settle 64 [Op o] w.
Definition calls (os : list op) w : exec world := settle 64 (map Op os) w.

(** [Inner::is_cancelled], which [is_cancellation_requested] calls too; a token can
    always be cancelled.  [cancel] tells whether this call was the one. *)
Definition is_cancelled w (i : nat) : exec bool :=
  inn ← unwrap (inner_of w i); Done (cancelled (state inn)).
Definition can_be_cancelled w (i : nat) : bool := true.
Definition cancel (i : nat) w : exec (world * bool) :=
  inn ← unwrap (inner_of w i);
  w ← call (CancelSrc.Cancel i) w;
  Done (w, is_some (cancel_locked (state inn))).
Definition strong_count w (i : nat) : exec nat :=
  inn ← unwrap (inner_of w i); Done (CancelSrc.strong inn).

(** [poll_once] of a receiver: [true] for [Ready(Err(Canceled))], when its sender is
    gone, and [false] for [Pending]. *)
Definition poll_once w (r : nat) : exec bool :=
  _ ← unwrap (issued w !! r);
  Done (bool_decide (r ∈ resolved w)).
Definition assert_all w (tokens : list nat) (b : bool) : exec unit :=
  for_each tokens (λ i, c ← is_cancelled w i; assert_eq c b).

(** A source, named 0, with some tokens: one more reference for each. *)
Definition source_with (tokens : nat) : exec world :=
  calls (NewSource 0 :: replicate tokens (CloneHandle 0)) empty_world.
(** The counter of the tests is the number of runs of callback 7. *)
Definition hits w : nat := length (filter (λ k, bool_decide (k = 7%nat)) (ran w)).

Module SourceTests.

Definition tokens_share_state_and_cancel_is_idempotent : exec unit :=
  w ← source_with 2;
  assert_all w [0%nat; 0%nat] false;;
  assert (can_be_cancelled w 0);;
  '(w, first) ← cancel 0 w;
  assert first;;
  '(w, second) ← cancel 0 w;
  assert (negb second);;
  assert_all w [0%nat; 0%nat] true.

Definition token_clone_is_arc_cheap_and_shares_state : exec unit :=
  w ← source_with 1;
  strong ← strong_count w 0;
  w ← call (CloneHandle 0) w;
  strong' ← strong_count w 0;
  assert_eq strong' (S strong).

Definition cancellation_future_resolves_on_cancel : exec unit :=
  w ← source_with 1;
  w ← call (Cancellation 0 10) w;
  p ← poll_once w 10;
  assert (negb p);;
  '(w, _) ← cancel 0 w;
  p ← poll_once w 10;
  assert p.

Definition cancellation_future_after_cancel_resolves_immediately : exec unit :=
  w ← source_with 1;
  '(w, _) ← cancel 0 w;
  w ← call (Cancellation 0 10) w;
  p ← poll_once w 10;
  assert p.

Definition multiple_cancellation_futures_all_resolve : exec unit :=
  w ← source_with 1;
  w ← calls [Cancellation 0 10; Cancellation 0 11] w;
  for_each [10%nat; 11%nat] (λ r, p ← poll_once w r; assert (negb p));;
  '(w, _) ← cancel 0 w;
  for_each [10%nat; 11%nat] (λ r, p ← poll_once w r; assert p).

Definition child_token_is_cancelled_with_parent : exec unit :=
  w ← source_with 1;
  w ← calls [SpawnChild 0 1; SpawnChild 1 2] w;
  assert_all w [0%nat; 1%nat; 2%nat] false;;
  '(w, _) ← cancel 0 w;
  assert_all w [0%nat; 1%nat; 2%nat] true.

Definition child_token_born_cancelled_when_parent_already_cancelled : exec unit :=
  w ← source_with 1;
  '(w, _) ← cancel 0 w;
  w ← call (SpawnChild 0 1) w;
  assert_all w [0%nat; 1%nat] true.

Definition child_token_via_trait_is_cancelled_with_parent : exec unit :=
  w ← source_with 1;
  w ← call (SpawnChild 0 1) w;
  assert_all w [1%nat] false;;
  '(w, _) ← cancel 0 w;
  assert_all w [0%nat; 1%nat] true.

Definition register_callback_fires_on_cancel : exec unit :=
  w ← source_with 1;
  w ← call (Register 0 7 20) w;
  assert_eq (hits w) 0%nat;;
  '(w, _) ← cancel 0 w;
  assert_eq (hits w) 1%nat;;
  '(w, _) ← cancel 0 w;
  assert_eq (hits w) 1%nat.

Definition register_after_cancel_runs_immediately : exec unit :=
  w ← source_with 1;
  '(w, _) ← cancel 0 w;
  w ← call (Register 0 7 20) w;
  assert_eq (hits w) 1%nat;;
  registration ← unwrap (regs w !! 20%nat);
  assert (is_none registration.2).

Definition registration_drop_unregisters : exec unit :=
  w ← source_with 1;
  w ← calls [Register 0 7 20; Dispose 20] w;
  '(w, _) ← cancel 0 w;
  assert_eq (hits w) 0%nat.

Definition registration_keeps_working_after_token_dropped : exec unit :=
  w ← source_with 1;
  w ← calls [Register 0 7 20; DropHandle 0] w;
  '(w, _) ← cancel 0 w;
  assert_eq (hits w) 1%nat;;
  w ← call (Dispose 20) w;
  Done ().

(** A child dropped right away: its callback stays registered and finds nobody. *)
Definition satisfies_tr_cancellation_token : exec unit :=
  w ← source_with 1;
  _ ← is_cancelled w 0;
  w ← calls [SpawnChild 0 1; DropHandle 1; Cancellation 0 10] w;
  assert_all w [0%nat] false.

Definition cancel_through_any_clone_is_observed_by_all : exec unit :=
  w ← source_with 1;
  w ← calls [CloneHandle 0; CloneHandle 0; Cancellation 0 10] w;
  p ← poll_once w 10;
  assert (negb p);;
  '(w, _) ← cancel 0 w;
  assert_all w [0%nat; 0%nat; 0%nat] true;;
  p ← poll_once w 10;
  assert p.

Definition generic_source_defaults_to_global : exec unit :=
  w ← source_with 1;
  w ← call (SpawnChild 0 1) w;
  assert_all w [0%nat] false;;
  '(w, _) ← cancel 0 w;
  assert_all w [0%nat] true.

Definition suite : list (exec unit) :=
  [tokens_share_state_and_cancel_is_idempotent; token_clone_is_arc_cheap_and_shares_state;
   cancellation_future_resolves_on_cancel;
   cancellation_future_after_cancel_resolves_immediately;
   multiple_cancellation_futures_all_resolve; child_token_is_cancelled_with_parent;
   child_token_born_cancelled_when_parent_already_cancelled;
   child_token_via_trait_is_cancelled_with_parent; register_callback_fires_on_cancel;
   register_after_cancel_runs_immediately; registration_drop_unregisters;
   registration_keeps_working_after_token_dropped; satisfies_tr_cancellation_token;
   cancel_through_any_clone_is_observed_by_all; generic_source_defaults_to_global].

Theorem cancel_tests_pass : Forall passes suite.
Proof. run_tests. Qed.

End SourceTests.
