(* ===== verification/HsOpts.v ===== *)
(** * Handshake options and errors of smux v1

    Models [crates/smux_v1/src/handshake/opts.rs] (the negotiated options and the
    header byte of an entry) and the error mappings of
    [crates/smux_v1/src/handshake/error.rs]. *)

From S2P Require Import Prelude CircEnds.

(** [core::time::Duration]. *)
Record Duration : Type := mkDuration { secs : Z; nanos : Z }.
Definition from_secs (s : Z) : Duration := mkDuration s 0.
Definition as_secs (d : Duration) : Z := secs d.

Record BasicOpts : Type := mkBasicOpts {
  max_packet_size : Z;
  max_channel_count : Z;
  max_dock_chan_count : Z;
  max_channel_timeout : Duration;
}.

(** [BasicOpts::DEFAULT], also [Default::default]. *)
Definition DEFAULT : BasicOpts := {|
  max_packet_size := 4096;
  max_channel_count := Z.shiftl 1 28;
  max_dock_chan_count := Z.shiftl 1 28;
  max_channel_timeout := from_secs 30;
|}.

Record HandshakeOpts : Type := mkHandshakeOpts { basic_opts : BasicOpts }.

(** The key, in the low half of an entry's header byte. *)
Inductive NegotiationKey : Type :=
| MaxPacketSize | MaxChannelCount | MaxDockChanCount | MaxChannelTimeout | Checksum.

Definition KEY_MASK : Z := 0x0F.
Definition key_discriminant (k : NegotiationKey) : Z :=
  match k with
  | MaxPacketSize => 0x00
  | MaxChannelCount => 0x01
  | MaxDockChanCount => 0x02
  | MaxChannelTimeout => 0x03
  | Checksum => 0x0C
  end.
Definition key_try_from (value : Z) : result Z NegotiationKey :=
  match Z.land value KEY_MASK with
  | 0x00 => Ok MaxPacketSize
  | 0x01 => Ok MaxChannelCount
  | 0x02 => Ok MaxDockChanCount
  | 0x03 => Ok MaxChannelTimeout
  | 0x0C => Ok Checksum
  | _ => Err value
  end.
Definition u8_from_key (k : NegotiationKey) : Z := Z.land (key_discriminant k) KEY_MASK.

(** The value type, in the high half. *)
Inductive NegotiationValType : Type := BeU8 | BeU16 | BeU32 | BeU64.

Definition VAL_MASK : Z := 0x30.
Definition val_discriminant (t : NegotiationValType) : Z :=
  match t with BeU8 => 0x00 | BeU16 => 0x10 | BeU32 => 0x20 | BeU64 => 0x30 end.
Definition val_try_from (value : Z) : result Z NegotiationValType :=
  match Z.land value VAL_MASK with
  | 0x00 => Ok BeU8
  | 0x10 => Ok BeU16
  | 0x20 => Ok BeU32
  | 0x30 => Ok BeU64
  | _ => Err value
  end.
Definition u8_from_val (t : NegotiationValType) : Z := Z.land (val_discriminant t) VAL_MASK.

(** [opts_key] is the whole header byte. *)
Record NegotiationBasicEntry : Type := mkEntry { opts_key : Z; val_data : Z }.

(** [BasicOpts::from_entries]. *)
Definition set_entry (x : BasicOpts) (key : NegotiationKey) (v : Z) : BasicOpts :=
  match key with
  | MaxPacketSize =>
      mkBasicOpts v (max_channel_count x) (max_dock_chan_count x) (max_channel_timeout x)
  | MaxChannelCount =>
      mkBasicOpts (max_packet_size x) v (max_dock_chan_count x) (max_channel_timeout x)
  | MaxDockChanCount =>
      mkBasicOpts (max_packet_size x) (max_channel_count x) v (max_channel_timeout x)
  | MaxChannelTimeout =>
      mkBasicOpts (max_packet_size x) (max_channel_count x) (max_dock_chan_count x)
        (from_secs v)
  | Checksum => x
  end.

Fixpoint from_entries_loop (x : BasicOpts) (entries : list NegotiationBasicEntry) :
    result NegotiationBasicEntry BasicOpts :=
  match entries with
  | [] => Ok x
  | entry :: rest =>
      match key_try_from (opts_key entry) with
      | Err _ => Err entry
      | Ok key => from_entries_loop (set_entry x key (val_data entry)) rest
      end
  end.
Definition from_entries := from_entries_loop DEFAULT.

(** ** Errors *)

Inductive HandshakeError (RE WE : Type) : Type :=
| Rejected
| PeerRejected
| Cancelled
| RxErr (e : RE)
| TxErr (e : WE)
| InvalidMagic
| ChecksumErr
| FrameTooLarge
| MalformedBody
| UnsupportedOption
| Inconsistent
| PeerClosed.
Arguments Rejected {RE WE}.
Arguments PeerRejected {RE WE}.
Arguments Cancelled {RE WE}.
Arguments RxErr {RE WE} e.
Arguments TxErr {RE WE} e.
Arguments InvalidMagic {RE WE}.
Arguments ChecksumErr {RE WE}.
Arguments FrameTooLarge {RE WE}.
Arguments MalformedBody {RE WE}.
Arguments UnsupportedOption {RE WE}.
Arguments Inconsistent {RE WE}.
Arguments PeerClosed {RE WE}.

(** [map_read_err_] / [map_write_err_], over the tags of the transport errors
    ([TrTaggedError]). *)
Definition map_read_err_ {RE WE} (err_tag : RE → ReadErrTag) (err : RE) :
    HandshakeError RE WE :=
  match err_tag err with
  | RCancelled => Cancelled
  | RClosing => PeerClosed
  | _ => RxErr err
  end.
Definition map_write_err_ {RE WE} (err_tag : WE → WriteErrTag) (err : WE) :
    HandshakeError RE WE :=
  match err_tag err with
  | WCancelled => Cancelled
  | _ => TxErr err
  end.


