(* ===== verification/HsCodec.v ===== *)
(** * Encoding and parsing of smux v1 handshake frames

    Models [crates/smux_v1/src/handshake/codec_.rs] (pure functions on bytes) and
    the magics of [handshake/mod.rs].  The two CRC algorithms are the [crc]
    crate's: they are parameters, and no property of them is used. *)

From S2P Require Import Prelude HsOpts.

Definition K_INVITE_MAGIC : list Z := [95; 27; 0x01; 105].
Definition K_ACCEPT_MAGIC : list Z := [95; 27; 0x01; 65].
Definition K_REJECT_MAGIC : list Z := [95; 27; 0x01; 74].
Definition K_CONFRM_MAGIC : list Z := [95; 27; 0x01; 99].

Definition K_MAX_HANDSHAKE_FRAME : Z := 64.
Definition K_CHECKSUM_HEADER_CRC16 : Z := 0x1C.
Definition K_CHECKSUM_HEADER_CRC32 : Z := 0x2C.
Definition K_BASIC_KEY_COUNT : Z := 4.

(** The four optional entries of a frame, indexed by key. *)
Abbreviation Entries := (list (option NegotiationBasicEntry)).
Abbreviation Values := (list (option Z)).

Record ParsedFrame : Type := mkFrame { magic : list Z; entries : Entries }.

Inductive ParseFrameError : Type :=
| NeedMore (need : Z)
| PInvalidMagic
| PUnsupportedOption
| PMalformedBody
| PFrameTooLarge
| PChecksumErr.

(** [encode_basic_entry_]: the smallest width that holds the value.  [out] is the
    destination slice; the result is its new content and the count written. *)
Definition basic_width (value : Z) : Z * Z :=
  if value <=? 0xFF then (0x00, 1)
  else if value <=? 0xFFFF then (0x10, 2)
  else if value <=? 0xFFFFFFFF then (0x20, 4)
  else (0x30, 8).
Definition encode_basic_entry_ (key value : Z) (out : list Z) : option (list Z * Z) :=
  let '(val_type, width) := basic_width value in
  if Z.of_nat (length out) <? 1 + width then None
  else
    let bytes := to_be_bytes 8 value in
    let out := list_inserts 0 [Z.lor val_type (Z.land key 0x0F)] out in
    let out := list_inserts 1 (drop (Z.to_nat (8 - width)) bytes) out in
    Some (out, 1 + width).

(** [decode_value_]. *)
Definition decode_value_ (width : Z) (bytes : list Z) : outcome (option Z) :=
  if width =? Z.of_nat (length bytes) then
    let value := foldl be_step 0 bytes in
    Ret (if value <=? USIZE_MAX then Some value else None)
  else Panic.

(** The entry loop of [build_frame_], from key [key] on. *)
Fixpoint build_entries (key : Z) (values : Values) (out : list Z) (pos : Z) :
    option (list Z * Z) :=
  match values with
  | [] => Some (out, pos)
  | None :: rest => build_entries (key + 1) rest out pos
  | Some value :: rest =>
      '(room, written) ← encode_basic_entry_ key value (drop (Z.to_nat pos) out);
      build_entries (key + 1) rest (take (Z.to_nat pos) out ++ room) (pos + written)
  end.

Section codec.
Variables crc16 crc32 : list Z → Z.

(** [build_frame_]: the new content of [out] and the length of the frame. *)
Definition build_frame_ (magic : list Z) (values : Values) (out : list Z) :
    option (list Z * Z) :=
  if Z.of_nat (length out) <? 4 then None
  else
    let out := list_inserts 0 magic out in
    '(out, pos) ← build_entries 0 values out 4;
    if Z.of_nat (length out) <? pos + 3 then None
    else
      let out := list_inserts (Z.to_nat pos) [K_CHECKSUM_HEADER_CRC16] out in
      let pos := pos + 1 in
      let crc := crc16 (take (Z.to_nat pos) out) in
      let out := list_inserts (Z.to_nat pos) (to_be_bytes 2 crc) out in
      Some (out, pos + 2).

(** One round of the loop of [parse_frame_]: it returns from the function, or
    goes on with new values of [pos], [entries] and [seen]. *)
Inductive round : Type :=
| Return (r : result ParseFrameError (ParsedFrame * Z))
| Again (pos : Z) (entries : Entries) (seen : Z).

Definition width_of (val_type : Z) : Z :=
  match val_type with 0x00 => 1 | 0x10 => 2 | 0x20 => 4 | _ => 8 end.

Definition parse_round (buf : list Z) (max_size : Z) (magic : list Z)
    (pos : Z) (entries : Entries) (seen : Z) : outcome round :=
  let len := Z.of_nat (length buf) in
  if len <? pos + 1 then Ret (Return (Err (NeedMore (pos + 1))))
  else if max_size <? pos + 1 then Ret (Return (Err PFrameTooLarge))
  else
    header ← index_byte buf pos;
    let pos := pos + 1 in
    let key := Z.land header 0x0F in
    let val_type := Z.land header 0x30 in
    let width := width_of val_type in
    if key =? 0x0C then
      match (if header =? K_CHECKSUM_HEADER_CRC16 then Some 2
             else if header =? K_CHECKSUM_HEADER_CRC32 then Some 4 else None) with
      | None => Ret (Return (Err PUnsupportedOption))
      | Some crc_len =>
          if len <? pos + crc_len then Ret (Return (Err (NeedMore (pos + crc_len))))
          else if max_size <? pos + crc_len then Ret (Return (Err PFrameTooLarge))
          else
            covered ← sub_slice buf 0 pos;
            expect ← sub_slice buf pos (pos + crc_len);
            let computed := if crc_len =? 2 then to_be_bytes 2 (crc16 covered)
                            else to_be_bytes 4 (crc32 covered) in
            if negb (bool_decide (computed = expect)) then
              Ret (Return (Err PChecksumErr))
            else Ret (Return (Ok (mkFrame magic entries, pos + crc_len)))
      end
    else if K_BASIC_KEY_COUNT <=? key then Ret (Return (Err PUnsupportedOption))
    else if len <? pos + width then Ret (Return (Err (NeedMore (pos + width))))
    else if max_size <? pos + width then Ret (Return (Err PFrameTooLarge))
    else
      bytes ← sub_slice buf pos (pos + width);
      value ← decode_value_ width bytes;
      match value with
      | None => Ret (Return (Err PMalformedBody))
      | Some value =>
          let pos := pos + width in
          if value =? 0 then Ret (Return (Err PMalformedBody))
          else
            let bit := Z.shiftl 1 key in
            if negb (Z.land seen bit =? 0) then Ret (Return (Err PMalformedBody))
            else Ret (Again pos (<[Z.to_nat key := Some (mkEntry header value)]> entries)
                        (Z.lor seen bit))
      end.

Fixpoint parse_loop (fuel : nat) (buf : list Z) (max_size : Z) (magic : list Z)
    (pos : Z) (entries : Entries) (seen : Z) :
    exec (result ParseFrameError (ParsedFrame * Z)) :=
  match fuel with
  | O => OutOfFuel
  | S fuel =>
      r ← lift (parse_round buf max_size magic pos entries seen);
      match r with
      | Return r => Done r
      | Again pos entries seen => parse_loop fuel buf max_size magic pos entries seen
      end
  end.

Definition no_entries : Entries := [None; None; None; None].

(** [parse_frame_].  Each of the four keys is accepted once, so five rounds are
    enough ([parse_total]). *)
Definition parse_frame_ (buf : list Z) (max_size : Z) :
    exec (result ParseFrameError (ParsedFrame * Z)) :=
  if Z.of_nat (length buf) <? 4 then Done (Err (NeedMore 4))
  else if max_size <? 4 then Done (Err PFrameTooLarge)
  else
    magic ← lift (sub_slice buf 0 4);
    if bool_decide (magic ≠ K_INVITE_MAGIC ∧ magic ≠ K_ACCEPT_MAGIC ∧
                    magic ≠ K_CONFRM_MAGIC ∧ magic ≠ K_REJECT_MAGIC) then
      Done (Err PInvalidMagic)
    else parse_loop 5 buf max_size magic 4 no_entries 0.
End codec.

(** ** From entries to options *)

Definition value_at (values : Values) (k : nat) : option Z :=
  match values !! k with Some v => v | None => None end.

Definition values_to_basic_ (values : Values) : BasicOpts := {|
  max_packet_size := default (max_packet_size DEFAULT) (value_at values 0);
  max_channel_count := default (max_channel_count DEFAULT) (value_at values 1);
  max_dock_chan_count := default (max_dock_chan_count DEFAULT) (value_at values 2);
  max_channel_timeout := from_secs (default 30 (value_at values 3));
|}.

Definition basic_to_values_ (opts : BasicOpts) : Values :=
  [Some (max_packet_size opts); Some (max_channel_count opts);
   Some (max_dock_chan_count opts); Some (as_secs (max_channel_timeout opts))].

Definition is_complete_ (values : Values) : bool :=
  forallb (λ v, bool_decide (is_Some v)) values.

(** [complete_invite_]: the entries mentioned override the local values. *)
Fixpoint override (values : Values) (entries : Entries) : Values :=
  match values, entries with
  | v :: values, e :: entries =>
      (match e with Some e => Some (val_data e) | None => v end) :: override values entries
  | values, _ => values
  end.
Definition complete_invite_ (local : BasicOpts) (entries : Entries) : Values :=
  override (basic_to_values_ local) entries.

Definition complete_values_ (entries : Entries) : option Values :=
  let values := map (option_map val_data) entries in
  if is_complete_ values then Some values else None.

Definition confirm_matches_ (entries : Entries) (expected : Values) : bool :=
  match complete_values_ entries with
  | None => false
  | Some values => forallb (λ '(a, b), bool_decide (a = b)) (zip values expected)
  end.

(** ** Lemmas: the parser *)

(** Where a round ends in the buffer, when it consumed something. *)
Definition round_end (r : round) : option Z :=
  match r with
  | Return (Ok (_, n)) => Some n
  | Return (Err _) => None
  | Again pos _ _ => Some pos
  end.

Lemma width_of_bounds t : 1 ≤ width_of t ≤ 8.
Proof. unfold width_of. repeat case_match; lia. Qed.

Lemma land_0F_bounds x : 0 ≤ Z.land x 0x0F < 16.
Proof.
  change 0x0F with (Z.ones 4). rewrite Z.land_ones by lia. apply Z.mod_pos_bound. lia.
Qed.

Lemma decode_value_width width bytes :
  width = Z.of_nat (length bytes) → ∃ v, decode_value_ width bytes = Ret v.
Proof. intros ->. unfold decode_value_. rewrite Z.eqb_refl. by eexists. Qed.

(** The bits of [seen] not set yet: the rounds that remain possible. *)
Definition keys_left (seen : Z) : nat :=
  length (filter (λ k, Z.testbit seen k = false) [0; 1; 2; 3]).

Lemma keys_left_set seen key :
  0 ≤ key < 4 → Z.testbit seen key = false →
  keys_left seen = S (keys_left (Z.lor seen (Z.shiftl 1 key))).
Proof.
  intros Hk Hb. unfold keys_left.
  assert (∀ j, 0 ≤ j → Z.testbit (Z.lor seen (Z.shiftl 1 key)) j =
                       Z.testbit seen j || (j =? key)) as Hset.
  { intros j Hj. by rewrite Z.lor_spec, testbit_shiftl_1 by lia. }
  assert (key = 0 ∨ key = 1 ∨ key = 2 ∨ key = 3) as [-> | [-> | [-> | ->]]] by lia;
    rewrite !filter_cons, !filter_nil, !Hset, Hb by lia; simpl;
    repeat (case_decide; simpl; try done);
    repeat match goal with
    | H : (_ || false) = false → False |- _ => rewrite orb_false_r in H
    | H : ¬ (_ || false) = false |- _ => rewrite orb_false_r in H
    | H : (_ || false) = false |- _ => rewrite orb_false_r in H
    end; congruence.
Qed.

Section parser.
Variables crc16 crc32 : list Z → Z.
Implicit Types (buf : list Z).

Local Abbreviation round_ := (parse_round crc16 crc32).
Local Abbreviation loop_ := (parse_loop crc16 crc32).
Local Abbreviation frame_ := (parse_frame_ crc16 crc32).

Lemma crc_len_cases header crc_len :
  (if header =? K_CHECKSUM_HEADER_CRC16 then Some 2
   else if header =? K_CHECKSUM_HEADER_CRC32 then Some 4 else None) = Some crc_len →
  2 ≤ crc_len ≤ 4.
Proof. destruct (_ =? _); [|destruct (_ =? _)]; intros [= <-]; lia. Qed.

(** One round: it never panics, and what each answer says. *)
Lemma parse_round_spec buf max_size magic pos entries seen :
  0 ≤ pos →
  ∃ r, round_ buf max_size magic pos entries seen = Ret r ∧
    match r with
    | Return (Err (NeedMore k)) => Z.of_nat (length buf) < k ≤ pos + 9
    | Return (Err _) => True
    | Return (Ok (f, n)) =>
        f = mkFrame magic entries ∧
        n ≤ Z.of_nat (length buf) ∧ n ≤ max_size ∧ pos + 3 ≤ n ≤ pos + 5
    | Again pos' entries' seen' =>
        pos + 2 ≤ pos' ≤ pos + 9 ∧ pos' ≤ Z.of_nat (length buf) ∧ pos' ≤ max_size ∧
        ∃ key header value, 0 ≤ key < 4 ∧ Z.testbit seen key = false ∧
          Z.land header 0x0F = key ∧ value ≠ 0 ∧ value ≤ USIZE_MAX ∧
          entries' = <[Z.to_nat key := Some (mkEntry header value)]> entries ∧
          seen' = Z.lor seen (Z.shiftl 1 key)
    end.
Proof.
  intros Hpos. unfold parse_round.
  destruct (Z.ltb_spec (Z.of_nat (length buf)) (pos + 1)); [eexists; split; [done|]; simpl; lia|].
  destruct (Z.ltb_spec max_size (pos + 1)); [by eexists|].
  destruct (index_byte_Ret buf pos) as (header & -> & _); [lia|]. simpl.
  pose proof (width_of_bounds (Z.land header 48)) as Hw.
  pose proof (land_0F_bounds header) as Hk. simpl in Hk.
  set (width := width_of _) in *. set (key := Z.land header 15) in *.
  destruct (Z.eqb_spec key 12) as [Hc|Hc].
  - match goal with |- context [match ?x with Some _ => _ | None => _ end] =>
      destruct x as [crc_len|] eqn:Hx; [|by eexists] end.
    apply crc_len_cases in Hx as Hcl.
    destruct (Z.ltb_spec (Z.of_nat (length buf)) (pos + 1 + crc_len));
      [eexists; split; [done|]; simpl; lia|].
    destruct (Z.ltb_spec max_size (pos + 1 + crc_len)); [by eexists|].
    rewrite !sub_slice_Ret by lia. cbn [mbind outcome_bind].
    destruct (negb _); (eexists; split; [done|]); simpl; [done|].
    split_and!; (done || lia).
  - unfold K_BASIC_KEY_COUNT. destruct (Z.leb_spec 4 key); [by eexists|].
    destruct (Z.ltb_spec (Z.of_nat (length buf)) (pos + 1 + width));
      [eexists; split; [done|]; simpl; lia|].
    destruct (Z.ltb_spec max_size (pos + 1 + width)); [by eexists|].
    rewrite sub_slice_Ret by lia. simpl.
    unfold decode_value_. rewrite length_take, length_drop.
    replace (width =? _) with true by (symmetry; apply Z.eqb_eq; lia). simpl.
    match goal with |- context [if ?v <=? USIZE_MAX then _ else _] =>
      destruct (Z.leb_spec v USIZE_MAX) as [Hv|Hv]; [|by eexists];
      destruct (Z.eqb_spec v 0) as [Hv0|Hv0]; [by eexists|] end.
    rewrite land_bit_eqb, negb_involutive by lia.
    destruct (Z.testbit seen key) eqn:Hb; (eexists; split; [done|]); [done|].
    split_and!; try lia. eexists key, header, _. split_and!; (done || lia).
Qed.

Local Ltac round_inv H :=
  repeat match type of H with
  | (if ?b then _ else _) = _ => destruct b
  | sub_slice ?l ?i ?j ≫= _ = _ => destruct (sub_slice l i j)
  | decode_value_ ?w ?l ≫= _ = _ => destruct (decode_value_ w l) as [[?|]|]
  | _ => progress cbn [mbind outcome_bind] in H
  end; simplify_eq/=.

(** A round on a prefix of the buffer: the same answer, or a request for bytes
    beyond the prefix but not beyond what the round uses. *)
Lemma parse_round_cut m buf max_size magic pos entries seen r :
  0 ≤ pos → (m ≤ length buf)%nat →
  round_ buf max_size magic pos entries seen = Ret r →
  round_ (take m buf) max_size magic pos entries seen = Ret r ∨
  ∃ k, round_ (take m buf) max_size magic pos entries seen =
         Ret (Return (Err (NeedMore k))) ∧ Z.of_nat m < k ∧
       (∀ e, round_end r = Some e → k ≤ e).
Proof.
  intros Hpos Hm. unfold parse_round. rewrite length_take, Nat.min_l by lia.
  set (len := Z.of_nat (length buf)).
  destruct (Z.ltb_spec (Z.of_nat m) (pos + 1)) as [Hm1|Hm1].
  { intros Hr. right. exists (pos + 1). split_and!; [done|lia|]. intros e He.
    destruct (parse_round_spec buf max_size magic pos entries seen Hpos) as (r' & Hr' & Hs).
    unfold parse_round in Hr'. fold len in Hr'. rewrite Hr in Hr'.
    injection Hr' as <-. destruct r as [[[f n]|e']|p ? ?]; simplify_eq/=; lia. }
  replace (len <? pos + 1) with false by lia.
  destruct (max_size <? pos + 1); [by left|].
  rewrite index_byte_take by lia.
  destruct (index_byte_Ret buf pos) as (header & -> & _); [lia|]. simpl.
  pose proof (width_of_bounds (Z.land header 48)) as Hw.
  set (width := width_of _) in *. set (key := Z.land header 15) in *.
  destruct (key =? 12).
  - match goal with |- context [match ?x with Some _ => _ | None => _ end] =>
      destruct x as [crc_len|] eqn:Hx; [|by left] end.
    apply crc_len_cases in Hx as Hcl.
    destruct (Z.ltb_spec (Z.of_nat m) (pos + 1 + crc_len)) as [Hm2|Hm2].
    + intros Hr. right. eexists. split; [done|]. split; [lia|]. intros e He.
      round_inv Hr. lia.
    + replace (len <? pos + 1 + crc_len) with false by lia.
      destruct (max_size <? pos + 1 + crc_len); [by left|].
      rewrite !sub_slice_take by lia. by left.
  - destruct (K_BASIC_KEY_COUNT <=? key); [by left|].
    destruct (Z.ltb_spec (Z.of_nat m) (pos + 1 + width)) as [Hm2|Hm2].
    + intros Hr. right. eexists. split; [done|]. split; [lia|]. intros e He.
      round_inv Hr. lia.
    + replace (len <? pos + 1 + width) with false by lia.
      destruct (max_size <? pos + 1 + width); [by left|].
      rewrite !sub_slice_take by lia. by left.
Qed.

(** The entries a parse may produce. *)
Definition entries_ok (es : Entries) : Prop :=
  length es = 4%nat ∧
  ∀ k e, es !! k = Some (Some e) →
    Z.land (opts_key e) 0x0F = Z.of_nat k ∧ val_data e ≠ 0 ∧ val_data e ≤ USIZE_MAX.

Lemma entries_ok_insert es key header value :
  entries_ok es → 0 ≤ key < 4 → Z.land header 0x0F = key → value ≠ 0 →
  value ≤ USIZE_MAX →
  entries_ok (<[Z.to_nat key := Some (mkEntry header value)]> es).
Proof.
  intros [Hl Hes] Hk Hh Hv Hu. split; [by rewrite length_insert|]. intros k e.
  destruct (decide (k = Z.to_nat key)) as [->|Hne].
  - rewrite list_lookup_insert_eq by lia. intros [= <-]. simpl. lia.
  - rewrite list_lookup_insert_ne by done. apply Hes.
Qed.

Definition loop_answer (buf : list Z) (max_size : Z) (magic_ : list Z) (pos last : Z)
    (r : result ParseFrameError (ParsedFrame * Z)) : Prop :=
  match r with
  | Ok (f, n) =>
      magic f = magic_ ∧ entries_ok (entries f) ∧
      pos + 3 ≤ n ≤ last ∧ n ≤ Z.of_nat (length buf) ∧ n ≤ max_size
  | Err (NeedMore k) => Z.of_nat (length buf) < k ≤ last + 4
  | Err _ => True
  end.

Lemma parse_loop_spec fuel : ∀ buf max_size magic pos es seen,
  0 ≤ pos → entries_ok es → (keys_left seen < fuel)%nat →
  ∃ r, loop_ fuel buf max_size magic pos es seen = Done r ∧
       loop_answer buf max_size magic pos
         (pos + 9 * Z.of_nat (keys_left seen) + 5) r.
Proof.
  induction fuel as [|fuel IH]; intros buf max_size magic pos es seen Hpos Hes Hf; [lia|].
  simpl. destruct (parse_round_spec buf max_size magic pos es seen Hpos) as (r & -> & Hr).
  simpl. destruct r as [r|pos' es' seen'].
  - eexists; split; [done|]. destruct r as [[f n]|[]]; simpl in *; try done; [|lia].
    destruct Hr as (-> & ?). simpl. split_and!; try (done || lia).
  - destruct Hr as (Hp & Hl & Hm & key & header & value & Hk & Hb & Hh & Hv & Hu & -> & ->).
    pose proof (keys_left_set _ _ Hk Hb) as Hleft.
    edestruct (IH buf max_size magic pos') as (r & -> & Hr); [lia| | |].
    + by apply entries_ok_insert.
    + rewrite Hleft in Hf. apply Nat.succ_lt_mono in Hf. exact Hf.
    + eexists; split; [done|]. rewrite Hleft.
      destruct r as [[f n]|[]]; simpl in *; try done; [|lia].
      destruct Hr as (? & ? & ? & ? & ?). split_and!; (done || lia).
Qed.

Lemma parse_loop_end fuel : ∀ buf max_size magic pos es seen f n,
  0 ≤ pos → loop_ fuel buf max_size magic pos es seen = Done (Ok (f, n)) → pos ≤ n.
Proof.
  induction fuel as [|fuel IH]; intros buf max_size magic pos es seen f n Hpos; simpl; [done|].
  destruct (parse_round_spec buf max_size magic pos es seen Hpos) as (r & -> & Hr).
  simpl. destruct r as [r|pos' es' seen'].
  - intros [= ->]. lia.
  - intros H%IH; lia.
Qed.

Lemma parse_loop_cut fuel : ∀ m buf max_size magic pos es seen r,
  0 ≤ pos → (m ≤ length buf)%nat →
  loop_ fuel buf max_size magic pos es seen = Done r →
  loop_ fuel (take m buf) max_size magic pos es seen = Done r ∨
  ∃ k, loop_ fuel (take m buf) max_size magic pos es seen = Done (Err (NeedMore k)) ∧
       Z.of_nat m < k ∧ (∀ f n, r = Ok (f, n) → k ≤ n).
Proof.
  induction fuel as [|fuel IH]; intros m buf max_size magic pos es seen r Hpos Hm; simpl; [done|].
  destruct (parse_round_spec buf max_size magic pos es seen Hpos) as (o & Ho & Hs).
  rewrite Ho. cbn [lift mbind exec_bind].
  destruct (parse_round_cut m buf max_size magic pos es seen o Hpos Hm Ho)
    as [-> | (k & -> & Hk & He)]; cbn [lift mbind exec_bind].
  - destruct o; [by left|]. apply IH; lia.
  - intros Hr. right. exists k. split_and!; [done..|]. intros f n ->.
    destruct o as [o|pos' es' seen'].
    + injection Hr as ->. by apply He.
    + apply parse_loop_end in Hr; [|lia]. specialize (He pos' eq_refl). lia.
Qed.

Lemma no_entries_ok : entries_ok no_entries.
Proof.
  split; [done|]. intros k e. unfold no_entries.
  do 4 (destruct k as [|k]; [done|]). done.
Qed.

(** The whole frame: [parse_frame_] answers on every input. *)
Lemma parse_frame_answer buf max_size :
  ∃ r, frame_ buf max_size = Done r ∧
    match r with
    | Ok (f, n) =>
        magic f = take 4 buf ∧
        (magic f = K_INVITE_MAGIC ∨ magic f = K_ACCEPT_MAGIC ∨
         magic f = K_CONFRM_MAGIC ∨ magic f = K_REJECT_MAGIC) ∧
        entries_ok (entries f) ∧
        7 ≤ n ≤ 45 ∧ n ≤ Z.of_nat (length buf) ∧ n ≤ max_size
    | Err (NeedMore k) => Z.of_nat (length buf) < k ≤ 49
    | Err _ => True
    end.
Proof.
  unfold parse_frame_.
  destruct (Z.ltb_spec (Z.of_nat (length buf)) 4); [eexists; split; [done|]; simpl; lia|].
  destruct (Z.ltb_spec max_size 4); [by eexists|].
  rewrite sub_slice_Ret by lia. cbn [lift mbind exec_bind].
  case_bool_decide as Hmg; [by eexists|].
  destruct (parse_loop_spec 5 buf max_size (take (Z.to_nat (4 - 0)) (drop (Z.to_nat 0) buf))
              4 no_entries 0) as (r & -> & Hr); [lia|apply no_entries_ok|vm_compute; lia|].
  change (4 + 9 * Z.of_nat (keys_left 0) + 5) with 45 in Hr.
  eexists; split; [done|]. destruct r as [[f n]|[]]; unfold loop_answer in Hr; try done.
  destruct Hr as (-> & Hes & ? & ? & ?).
  change (Z.to_nat (4 - 0)) with 4%nat in *. change (Z.to_nat 0) with 0%nat in *.
  rewrite drop_0 in *. split; [done|]. split; [|split; [done|lia]].
  destruct (decide (take 4 buf = K_INVITE_MAGIC)); [by left|].
  destruct (decide (take 4 buf = K_ACCEPT_MAGIC)); [by right; left|].
  destruct (decide (take 4 buf = K_CONFRM_MAGIC)); [by right; right; left|].
  destruct (decide (take 4 buf = K_REJECT_MAGIC)); [by right; right; right|].
  exfalso. by apply Hmg.
Qed.

Lemma parse_frame_cut m buf max_size r :
  (m ≤ length buf)%nat → frame_ buf max_size = Done r →
  frame_ (take m buf) max_size = Done r ∨
  ∃ k, frame_ (take m buf) max_size = Done (Err (NeedMore k)) ∧
       Z.of_nat m < k ∧ (∀ f n, r = Ok (f, n) → k ≤ n).
Proof.
  intros Hm Hr. pose proof (parse_frame_answer buf max_size) as (r' & Hr' & Hs).
  rewrite Hr in Hr'. injection Hr' as <-. revert Hr.
  unfold parse_frame_. rewrite length_take, Nat.min_l by lia.
  destruct (Z.ltb_spec (Z.of_nat m) 4).
  { intros _. right. exists 4. split_and!; [done..|]. intros f n ->. lia. }
  replace (Z.of_nat (length buf) <? 4) with false by lia.
  destruct (max_size <? 4); [by left|].
  rewrite sub_slice_take by lia. destruct (sub_slice buf 0 4); [|done].
  cbn [lift mbind exec_bind].
  destruct (bool_decide _); [by left|]. apply parse_loop_cut; lia.
Qed.
End parser.

(** ** Lemmas: the encoder *)

(** The bytes of one entry and of a whole frame. *)
Definition entry_header (key value : Z) : Z :=
  Z.lor (basic_width value).1 (Z.land key 0x0F).
Definition entry_bytes (key value : Z) : list Z :=
  entry_header key value :: to_be_bytes (Z.to_nat (basic_width value).2) value.
Fixpoint values_bytes (key : Z) (values : Values) : list Z :=
  match values with
  | [] => []
  | None :: rest => values_bytes (key + 1) rest
  | Some value :: rest => entry_bytes key value ++ values_bytes (key + 1) rest
  end.
Definition frame_bytes (crc16 : list Z → Z) (magic : list Z) (values : Values) : list Z :=
  let covered := magic ++ values_bytes 0 values ++ [K_CHECKSUM_HEADER_CRC16] in
  covered ++ to_be_bytes 2 (crc16 covered).

Lemma basic_width_cases v :
  v ≤ USIZE_MAX →
  let '(t, w) := basic_width v in
  (t = 0 ∧ w = 1 ∨ t = 16 ∧ w = 2 ∨ t = 32 ∧ w = 4 ∨ t = 48 ∧ w = 8) ∧
  w = width_of t ∧ v < 256 ^ w.
Proof.
  unfold basic_width, USIZE_MAX. intros.
  destruct (Z.leb_spec v 255); [|destruct (Z.leb_spec v 65535);
    [|destruct (Z.leb_spec v 4294967295)]]; simpl; lia.
Qed.

Lemma basic_width_range v : 1 ≤ (basic_width v).2 ≤ 8.
Proof. unfold basic_width. repeat case_match; simpl; lia. Qed.

Lemma length_entry_bytes k v : Z.of_nat (length (entry_bytes k v)) = 1 + (basic_width v).2.
Proof.
  pose proof (basic_width_range v). unfold entry_bytes. simpl.
  rewrite length_to_be_bytes. lia.
Qed.

Lemma encode_basic_entry_bytes k v out :
  encode_basic_entry_ k v out =
    if Z.of_nat (length out) <? 1 + (basic_width v).2 then None
    else Some (entry_bytes k v ++ drop (length (entry_bytes k v)) out,
               1 + (basic_width v).2).
Proof.
  pose proof (basic_width_range v) as Hw. pose proof (length_entry_bytes k v) as Hl.
  unfold encode_basic_entry_, entry_bytes, entry_header in *.
  destruct (basic_width v) as [t w]; cbn [fst snd] in *.
  destruct (Z.ltb_spec (Z.of_nat (length out)) (1 + w)) as [?|Hle]; [done|]. f_equal. f_equal.
  assert (drop (Z.to_nat (8 - w)) (to_be_bytes 8 v) = to_be_bytes (Z.to_nat w) v) as ->.
  { rewrite <- (drop_to_be_bytes (Z.to_nat (8 - w)) (Z.to_nat w) v).
    f_equal. f_equal. lia. }
  destruct out as [|o out]; simpl in Hle; [lia|]. simpl list_inserts at 2.
  rewrite list_inserts_split by (simpl; rewrite length_to_be_bytes; lia).
  simpl. by rewrite length_to_be_bytes.
Qed.

Lemma build_entries_bytes values : ∀ key pre room pos,
  pos = Z.of_nat (length pre) →
  build_entries key values (pre ++ room) pos =
    let enc := values_bytes key values in
    if (length room <? length enc)%nat then None
    else Some (pre ++ enc ++ drop (length enc) room, pos + Z.of_nat (length enc)).
Proof.
  induction values as [|[v|] values IH]; intros key pre room pos Hpos;
    cbn [build_entries values_bytes].
  - simpl. by rewrite Z.add_0_r.
  - rewrite Hpos, Nat2Z.id, drop_app_length, take_app_length, encode_basic_entry_bytes.
    pose proof (length_entry_bytes key v) as Hl.
    set (eb := entry_bytes key v) in *. cbn zeta. rewrite length_app.
    destruct (Z.ltb_spec (Z.of_nat (length room)) (1 + (basic_width v).2)).
    { by rewrite (proj2 (Nat.ltb_lt _ _)) by lia. }
    cbn [mbind option_bind].
    rewrite app_assoc, IH by (rewrite length_app; lia). cbn zeta.
    rewrite length_drop.
    destruct (Nat.ltb_spec (length room - length eb) (length (values_bytes (key + 1) values))),
      (Nat.ltb_spec (length room) (length eb + length (values_bytes (key + 1) values)));
      (done || lia || idtac).
    rewrite drop_drop, <- !app_assoc. f_equal. f_equal. lia.
  - by rewrite IH.
Qed.

Lemma build_frame_bytes crc16 magic values out :
  length magic = 4%nat →
  let frame := frame_bytes crc16 magic values in
  build_frame_ crc16 magic values out =
    if (length out <? length frame)%nat then None
    else Some (frame ++ drop (length frame) out, Z.of_nat (length frame)).
Proof.
  intros Hm frame. unfold build_frame_.
  set (enc := values_bytes 0 values).
  assert (Hlen : length frame = (7 + length enc)%nat).
  { unfold frame, frame_bytes. rewrite !length_app, length_to_be_bytes. simpl.
    fold enc. lia. }
  rewrite Hlen. destruct (Z.ltb_spec (Z.of_nat (length out)) 4).
  { by rewrite (proj2 (Nat.ltb_lt _ _)) by lia. }
  rewrite list_inserts_split by lia. rewrite take_0, app_nil_l. simpl plus. rewrite Hm.
  rewrite build_entries_bytes by (rewrite Hm; done). cbn zeta. fold enc.
  rewrite length_drop.
  destruct (Nat.ltb_spec (length out - 4) (length enc)).
  { by rewrite (proj2 (Nat.ltb_lt _ _)) by lia. }
  cbn [mbind option_bind]. rewrite !length_app, Hm, !length_drop.
  destruct (Z.ltb_spec (Z.of_nat (4 + (length enc + (length out - 4 - length enc))))
              (4 + Z.of_nat (length enc) + 3)).
  { by rewrite (proj2 (Nat.ltb_lt _ _)) by lia. }
  rewrite (proj2 (Nat.ltb_ge _ _)) by lia. f_equal.
  set (rest := drop (length enc) (drop 4 out)).
  assert (Hrest : (3 ≤ length rest)%nat) by (unfold rest; rewrite !length_drop; lia).
  assert (Hpos : Z.to_nat (4 + Z.of_nat (length enc)) = length (magic ++ enc))
    by (rewrite length_app; lia).
  assert (Hpos1 : Z.to_nat (4 + Z.of_nat (length enc) + 1) =
                  length (magic ++ enc ++ [K_CHECKSUM_HEADER_CRC16]))
    by (rewrite !length_app; simpl; lia).
  rewrite Hpos, Hpos1.
  rewrite (app_assoc magic enc rest), list_inserts_at by (simpl; lia).
  rewrite <- (app_assoc magic enc), !(app_assoc _ _ (drop _ rest)).
  rewrite take_app_length.
  rewrite list_inserts_at by (rewrite length_to_be_bytes, length_drop; simpl; lia).
  rewrite length_to_be_bytes, drop_drop. unfold frame, frame_bytes. fold enc.
  rewrite <- !app_assoc. unfold rest. rewrite !drop_drop. f_equal; [|lia].
  do 4 f_equal. simpl length. f_equal; lia.
Qed.

(** ** Lemmas: parsing what was encoded *)

Lemma entry_header_fields key v :
  0 ≤ key < 4 → v ≤ USIZE_MAX →
  Z.land (entry_header key v) 0x0F = key ∧
  width_of (Z.land (entry_header key v) 0x30) = (basic_width v).2.
Proof.
  intros Hk Hv. unfold entry_header. pose proof (basic_width_cases v Hv) as Hw.
  destruct (basic_width v) as [t w]; cbn [fst snd].
  destruct Hw as (Ht & -> & _).
  assert (key = 0 ∨ key = 1 ∨ key = 2 ∨ key = 3) as [-> | [-> | [-> | ->]]] by lia;
    destruct Ht as [[-> _]|[[-> _]|[[-> _]|[-> _]]]]; by vm_compute.
Qed.

Lemma decode_entry_value v :
  0 ≤ v ≤ USIZE_MAX →
  decode_value_ (basic_width v).2 (to_be_bytes (Z.to_nat (basic_width v).2) v) = Ret (Some v).
Proof.
  intros Hv. pose proof (basic_width_cases v (proj2 Hv)) as Hw.
  destruct (basic_width v) as [t w]; cbn [fst snd]. destruct Hw as (Ht & _ & Hlt).
  assert (1 ≤ w ≤ 8) by lia.
  unfold decode_value_. rewrite length_to_be_bytes, Z2Nat.id, Z.eqb_refl by lia.
  assert (256 ^ w ≤ 256 ^ 8) by (apply Z.pow_le_mono_r; lia).
  change (256 ^ 8) with (USIZE_MAX + 1) in *.
  assert (0 < 256 ^ w) by (apply Z.pow_pos_nonneg; lia).
  rewrite foldl_be_step by (rewrite ?Z2Nat.id; lia).
  rewrite Z2Nat.id, Z.mod_small by lia.
  rewrite Z.mul_0_l, Z.add_0_l. by replace (v <=? USIZE_MAX) with true by lia.
Qed.

Section roundtrip.
Variables crc16 crc32 : list Z → Z.

(** The values a peer may encode: usable numbers, none of them zero. *)
Definition value_ok (v : option Z) : Prop :=
  match v with Some v => 0 < v ≤ USIZE_MAX | None => True end.

(** What the parser records for a list of values from key [key] on. *)
Definition entry_of (key : Z) (v : option Z) : option NegotiationBasicEntry :=
  (λ v, mkEntry (entry_header key v) v) <$> v.
Fixpoint entries_of (key : Z) (values : Values) : Entries :=
  match values with
  | [] => []
  | v :: rest => entry_of key v :: entries_of (key + 1) rest
  end.

Lemma length_entries_of values : ∀ key, length (entries_of key values) = length values.
Proof. induction values; intros; simpl; auto. Qed.

Lemma val_data_entries_of values : ∀ key,
  map (option_map val_data) (entries_of key values) = values.
Proof.
  induction values as [|[v|] values IH]; intros; simpl; [done|..]; by rewrite IH.
Qed.

Lemma parse_round_entry pre key v post max_size magic es seen :
  0 ≤ key < 4 → 0 < v ≤ USIZE_MAX → Z.testbit seen key = false →
  let buf := pre ++ entry_bytes key v ++ post in
  let pos' := Z.of_nat (length pre) + Z.of_nat (length (entry_bytes key v)) in
  pos' ≤ max_size →
  parse_round crc16 crc32 buf max_size magic (Z.of_nat (length pre)) es seen =
    Ret (Again pos' (<[Z.to_nat key := Some (mkEntry (entry_header key v) v)]> es)
           (Z.lor seen (Z.shiftl 1 key))).
Proof.
  intros Hk Hv Hb buf pos' Hmax.
  pose proof (length_entry_bytes key v) as Hl. pose proof (basic_width_range v) as Hw.
  destruct (entry_header_fields key v Hk ltac:(lia)) as [Hkey Hwidth].
  assert (Hlen : Z.of_nat (length buf) = pos' + Z.of_nat (length post))
    by (unfold buf, pos'; rewrite !length_app; lia).
  unfold parse_round.
  replace (Z.of_nat (length buf) <? Z.of_nat (length pre) + 1) with false by lia.
  replace (max_size <? Z.of_nat (length pre) + 1) with false by lia.
  assert (index_byte buf (Z.of_nat (length pre)) = Ret (entry_header key v)) as ->.
  { unfold index_byte, buf, entry_bytes. rewrite decide_True by lia.
    rewrite lookup_app_r by lia. by rewrite Nat2Z.id, Nat.sub_diag. }
  cbn [mbind outcome_bind]. rewrite Hkey, Hwidth.
  replace (key =? 12) with false by lia.
  replace (K_BASIC_KEY_COUNT <=? key) with false by (unfold K_BASIC_KEY_COUNT; lia).
  replace (Z.of_nat (length buf) <? _) with false by lia.
  replace (max_size <? _) with false by lia.
  assert (sub_slice buf (Z.of_nat (length pre) + 1)
            (Z.of_nat (length pre) + 1 + (basic_width v).2) =
          Ret (to_be_bytes (Z.to_nat (basic_width v).2) v)) as ->.
  { unfold buf, entry_bytes. simpl app.
    rewrite (cons_middle _ pre), (app_assoc pre).
    apply sub_slice_app; rewrite ?length_app, ?length_to_be_bytes; simpl; lia. }
  cbn [mbind outcome_bind]. rewrite decode_entry_value by lia. cbn [mbind outcome_bind].
  replace (v =? 0) with false by lia.
  rewrite land_bit_eqb, negb_involutive, Hb by lia.
  unfold pos'. rewrite Hl. do 2 f_equal. lia.
Qed.

Lemma parse_round_trailer covered post max_size magic es seen :
  let pre := covered ++ [K_CHECKSUM_HEADER_CRC16] in
  let buf := pre ++ to_be_bytes 2 (crc16 pre) ++ post in
  let pos' := Z.of_nat (length covered) + 3 in
  pos' ≤ max_size →
  parse_round crc16 crc32 buf max_size magic (Z.of_nat (length covered)) es seen =
    Ret (Return (Ok (mkFrame magic es, pos'))).
Proof.
  intros pre buf pos' Hmax.
  assert (Hpre : Z.of_nat (length pre) = Z.of_nat (length covered) + 1)
    by (unfold pre; rewrite length_app; simpl; lia).
  assert (Hlen : Z.of_nat (length buf) = pos' + Z.of_nat (length post))
    by (unfold buf, pos'; rewrite !length_app, length_to_be_bytes; lia).
  unfold parse_round.
  replace (Z.of_nat (length buf) <? Z.of_nat (length covered) + 1) with false by lia.
  replace (max_size <? Z.of_nat (length covered) + 1) with false by lia.
  assert (index_byte buf (Z.of_nat (length covered)) = Ret K_CHECKSUM_HEADER_CRC16) as ->.
  { unfold index_byte, buf, pre. rewrite decide_True, <- app_assoc by lia.
    rewrite lookup_app_r by lia. by rewrite Nat2Z.id, Nat.sub_diag. }
  cbn [mbind outcome_bind].
  change (Z.land K_CHECKSUM_HEADER_CRC16 15 =? 12) with true.
  change (K_CHECKSUM_HEADER_CRC16 =? K_CHECKSUM_HEADER_CRC16) with true. cbn iota beta zeta.
  replace (Z.of_nat (length buf) <? _) with false by lia.
  replace (max_size <? _) with false by lia. rewrite <- Hpre.
  assert (sub_slice buf 0 (Z.of_nat (length pre)) = Ret pre) as ->.
  { apply (sub_slice_app [] pre); simpl; lia. }
  cbn [mbind outcome_bind].
  assert (sub_slice buf (Z.of_nat (length pre)) (Z.of_nat (length pre) + 2) =
          Ret (to_be_bytes 2 (crc16 pre))) as ->.
  { apply sub_slice_app; [done|by rewrite length_to_be_bytes]. }
  cbn [mbind outcome_bind]. change (2 =? 2) with true. cbn iota.
  rewrite bool_decide_eq_true_2 by done. cbn [negb]. unfold pos'. do 4 f_equal. lia.
Qed.

Lemma insert_next {A} (es : list (option A)) n k e :
  Z.of_nat (length es) = k →
  <[Z.to_nat k := Some e]> (es ++ None :: replicate n None) =
  (es ++ [Some e]) ++ replicate n None.
Proof.
  intros Hl. rewrite insert_app_r_alt by lia.
  replace (Z.to_nat k - length es)%nat with 0%nat by lia. simpl. by rewrite <-app_assoc.
Qed.

(** The rest of a frame: [pre] has been parsed, into [es_pre]. *)
Lemma parse_loop_rest covered post max_size magic values : ∀ key pre es_pre seen fuel,
  let frame := covered ++ to_be_bytes 2 (crc16 covered) in
  covered = pre ++ values_bytes key values ++ [K_CHECKSUM_HEADER_CRC16] →
  0 ≤ key → key + Z.of_nat (length values) = 4 →
  Z.of_nat (length es_pre) = key →
  (∀ k, key ≤ k < 4 → Z.testbit seen k = false) →
  Forall value_ok values → (length values < fuel)%nat →
  Z.of_nat (length frame) ≤ max_size →
  parse_loop crc16 crc32 fuel (frame ++ post) max_size magic (Z.of_nat (length pre))
    (es_pre ++ replicate (length values) None) seen =
  Done (Ok (mkFrame magic (es_pre ++ entries_of key values), Z.of_nat (length frame))).
Proof.
  induction values as [|v values IH];
    intros key pre es_pre seen fuel frame Hcov Hk Hlen Hes Hseen Hok Hfuel Hmax;
    destruct fuel as [|fuel]; simpl in Hfuel; try lia.
  - unfold frame in *. rewrite Hcov in *. cbn [parse_loop values_bytes app]. rewrite <- app_assoc.
    rewrite !length_app, length_to_be_bytes in Hmax. simpl in Hmax.
    rewrite parse_round_trailer by lia. simpl. rewrite !length_app.
    simpl. do 3 f_equal. lia.
  - apply Forall_cons in Hok as [Hv Hok]. cbn [length replicate] in *.
    destruct v as [v|]; cbn [values_bytes entries_of entry_of] in *.
    + assert (Hf : frame ++ post = pre ++ entry_bytes key v ++
        ((values_bytes (key + 1) values ++ [K_CHECKSUM_HEADER_CRC16]) ++
         to_be_bytes 2 (crc16 covered)) ++ post).
      { unfold frame. rewrite Hcov at 1. by rewrite <- !app_assoc. }
      cbn [parse_loop]. rewrite Hf at 1. rewrite parse_round_entry;
        [|lia|done|apply Hseen; lia|
         unfold frame in Hmax; rewrite Hcov, !length_app in Hmax; lia].
      cbn [lift mbind exec_bind]. rewrite insert_next by done.
      rewrite <-Nat2Z.inj_add, <-length_app.
      rewrite (IH (key + 1)); [by rewrite <-app_assoc| |lia|lia|rewrite length_app; simpl; lia
                              | |done|lia|done].
      * by rewrite Hcov, <-!app_assoc.
      * intros k Hk'. rewrite Z.lor_spec, testbit_shiftl_1, Hseen by lia. lia.
    + rewrite (cons_middle _ es_pre), (app_assoc es_pre).
      rewrite (IH (key + 1)); [by rewrite <-app_assoc|done|lia|lia|rewrite length_app; simpl; lia
                              | |done|lia|done].
      intros k Hk'. apply Hseen. lia.
Qed.

Lemma parse_loop_values values key pre post max_size magic es_pre seen fuel :
  let covered := pre ++ values_bytes key values ++ [K_CHECKSUM_HEADER_CRC16] in
  let frame := covered ++ to_be_bytes 2 (crc16 covered) in
  0 ≤ key → key + Z.of_nat (length values) = 4 →
  Z.of_nat (length es_pre) = key →
  (∀ k, key ≤ k < 4 → Z.testbit seen k = false) →
  Forall value_ok values → (length values < fuel)%nat →
  Z.of_nat (length frame) ≤ max_size →
  parse_loop crc16 crc32 fuel (frame ++ post) max_size magic (Z.of_nat (length pre))
    (es_pre ++ replicate (length values) None) seen =
  Done (Ok (mkFrame magic (es_pre ++ entries_of key values), Z.of_nat (length frame))).
Proof. intros covered frame. by apply parse_loop_rest. Qed.
End roundtrip.

Definition is_magic (m : list Z) : Prop :=
  m = K_INVITE_MAGIC ∨ m = K_ACCEPT_MAGIC ∨ m = K_CONFRM_MAGIC ∨ m = K_REJECT_MAGIC.

Lemma is_magic_length m : is_magic m → length m = 4%nat.
Proof. by intros [-> | [-> | [-> | ->]]]. Qed.

Lemma length_values_bytes values : ∀ key,
  Z.of_nat (length (values_bytes key values)) ≤ 9 * Z.of_nat (length values).
Proof.
  induction values as [|[v|] values IH]; intros key; cbn [values_bytes]; [simpl; lia|..].
  - rewrite length_app. pose proof (length_entry_bytes key v). pose proof (basic_width_range v).
    specialize (IH (key + 1)). rewrite length_cons. lia.
  - specialize (IH (key + 1)). rewrite length_cons. lia.
Qed.

Lemma length_frame_bytes crc16 m values :
  length m = 4%nat →
  7 ≤ Z.of_nat (length (frame_bytes crc16 m values)) ≤ 7 + 9 * Z.of_nat (length values).
Proof.
  intros Hm. pose proof (length_values_bytes values 0).
  unfold frame_bytes. rewrite !length_app, length_to_be_bytes, Hm. simpl. lia.
Qed.

(** The parser on the bytes of a frame, whatever follows them. *)
Lemma parse_frame_bytes crc16 crc32 m values post max_size :
  is_magic m → length values = 4%nat → Forall value_ok values →
  let frame := frame_bytes crc16 m values in
  Z.of_nat (length frame) ≤ max_size →
  parse_frame_ crc16 crc32 (frame ++ post) max_size =
    Done (Ok (mkFrame m (entries_of 0 values), Z.of_nat (length frame))).
Proof.
  intros Hm Hlen Hok frame Hmax.
  pose proof (length_frame_bytes crc16 m values (is_magic_length m Hm)) as Hfl.
  fold frame in Hfl. unfold parse_frame_. rewrite length_app.
  rewrite (proj2 (Z.ltb_ge _ 4)) by lia.
  rewrite (proj2 (Z.ltb_ge max_size 4)) by lia.
  assert (sub_slice (frame ++ post) 0 4 = Ret m) as ->.
  { unfold frame, frame_bytes. rewrite <- !app_assoc.
    apply (sub_slice_app [] m); [done|]. by rewrite (is_magic_length m Hm). }
  cbn [lift mbind exec_bind].
  rewrite bool_decide_eq_false_2 by (intros (?&?&?&?); destruct Hm as [?|[?|[?|?]]]; done).
  pose proof (parse_loop_values crc16 crc32 values 0 m post max_size m [] 0 5) as Hp.
  cbn zeta in Hp. rewrite (is_magic_length m Hm), Hlen in Hp. apply Hp; try done; try lia.
  intros k Hk. apply Z.bits_0.
Qed.

Lemma override_spec values : ∀ es k,
  length es = length values →
  override values es !! k =
    match es !! k with
    | Some (Some e) => Some (Some (val_data e))
    | _ => values !! k
    end.
Proof.
  induction values as [|v values IH]; intros [|e es] k Hlen; simplify_eq/=; [done|].
  destruct k as [|k]; simpl; [by destruct e|]. by rewrite IH.
Qed.

Lemma length_override values : ∀ es, length (override values es) = length values.
Proof. induction values; intros [|[]]; simpl; auto. Qed.

Lemma complete_invite_complete local es :
  length es = 4%nat →
  is_complete_ (complete_invite_ local es) = true ∧
  length (complete_invite_ local es) = 4%nat.
Proof.
  intros Hl. split; [|apply length_override].
  destruct es as [|e0 [|e1 [|e2 [|e3 [|]]]]]; try done. by destruct e0, e1, e2, e3.
Qed.

Lemma confirm_matches_iff ces values :
  length ces = 4%nat → length values = 4%nat → is_complete_ values = true →
  confirm_matches_ ces values = true ↔ map (option_map val_data) ces = values.
Proof.
  intros Hc Hlen Hcomp. unfold confirm_matches_, complete_values_.
  destruct ces as [|c0 [|c1 [|c2 [|c3 [|]]]]]; try done.
  destruct values as [|v0 [|v1 [|v2 [|v3 [|]]]]]; try done.
  split.
  - cbn [map]; cbv zeta. intros H.
    destruct (is_complete_ (option_map val_data c0 :: _)); [|done].
    cbn [zip_with forallb] in H.
    repeat rewrite andb_true_iff in H. rewrite !bool_decide_eq_true in H.
    by destruct H as (-> & -> & -> & -> & _).
  - intros ->. cbv zeta. rewrite Hcomp. cbn [zip_with forallb].
    by rewrite !bool_decide_eq_true_2.
Qed.

(** ** Properties *)

(** C6: round trip.  A frame (under one of the four magics) that [build_frame_] wrote
    into a buffer is parsed back, whatever bytes follow it: with the same magic, exactly the values that
    were encoded (and no entry for those that were not), and all of its length
    consumed, under any CRC functions, for non-zero values that fit [usize] and a
    [max_size] not below the frame. *)
Theorem frame_roundtrip crc16 crc32 m values out out' n post max_size :
  is_magic m → length values = 4%nat → Forall value_ok values →
  build_frame_ crc16 m values out = Some (out', n) → n ≤ max_size →
  ∃ es, parse_frame_ crc16 crc32 (take (Z.to_nat n) out' ++ post) max_size =
          Done (Ok (mkFrame m es, n)) ∧
        map (option_map val_data) es = values.
Proof.
  intros Hm Hlen Hok Hb Hmax. rewrite build_frame_bytes in Hb by by apply is_magic_length.
  cbn zeta in Hb. destruct (_ <? _)%nat; [done|]. injection Hb as <- <-.
  exists (entries_of 0 values). split; [|apply val_data_entries_of].
  rewrite Nat2Z.id, take_app_length. by apply parse_frame_bytes.
Qed.

Lemma frame_roundtrip_witness :
  let sum l := foldl Z.add 0 l mod 65536 in
  ∃ out' n es,
    build_frame_ sum K_INVITE_MAGIC [Some 300; None; Some 7; None] (replicate 64 0) =
      Some (out', n) ∧
    parse_frame_ sum sum (take (Z.to_nat n) out' ++ [1; 2; 3]) 64 =
      Done (Ok (mkFrame K_INVITE_MAGIC es, n)) ∧
    map (option_map val_data) es = [Some 300; None; Some 7; None].
Proof.
  intros sum.
  destruct (build_frame_ sum K_INVITE_MAGIC [Some 300; None; Some 7; None] (replicate 64 0))
    as [[out' n]|] eqn:Hb; [|discriminate].
  assert (Hm : is_magic K_INVITE_MAGIC) by by left.
  assert (Hok : Forall value_ok [Some 300; None; Some 7; None]).
  { repeat constructor; simpl; unfold USIZE_MAX; lia. }
  assert (Hn : n ≤ 64).
  { assert (n = 12) as ->; [|lia]. vm_compute in Hb. by injection Hb as _ <-. }
  destruct (frame_roundtrip sum sum K_INVITE_MAGIC [Some 300; None; Some 7; None]
              (replicate 64 0) out' n [1; 2; 3] 64 Hm eq_refl Hok Hb Hn) as (es & H1 & H2).
  exists out', n, es. split; [reflexivity|]. split; [exact H1|exact H2].
Defined.

(** The parser is total and safe.  On every byte buffer it answers within
    five rounds, without an out-of-range access; a parsed frame has one of the
    four magics, at most one entry per key, each non-zero and under its own key,
    and a length between 7 and 45 that exceeds neither the buffer nor
    [max_size]; a request for more bytes always asks for more than there are. *)
Theorem parse_total crc16 crc32 buf max_size :
  ∃ r, parse_frame_ crc16 crc32 buf max_size = Done r ∧
    match r with
    | Ok (f, n) =>
        magic f = take 4 buf ∧ is_magic (magic f) ∧ entries_ok (entries f) ∧
        7 ≤ n ≤ 45 ∧ n ≤ Z.of_nat (length buf) ∧ n ≤ max_size
    | Err (NeedMore k) => Z.of_nat (length buf) < k
    | Err _ => True
    end.
Proof.
  destruct (parse_frame_answer crc16 crc32 buf max_size) as (r & Hr & Hs).
  exists r. split; [exact Hr|]. destruct r as [[f n]|[]]; try done. lia.
Qed.

(** C31: incremental parsing.  If a buffer starts with a frame of [n] bytes, then
    every cut of the buffer that keeps those [n] bytes parses to the same frame,
    and every shorter prefix answers [NeedMore] with a count beyond the prefix
    and within the frame: reading as many bytes as asked for converges on the
    frame and never reads past it. *)
Theorem parse_incremental crc16 crc32 buf max_size f n m :
  parse_frame_ crc16 crc32 buf max_size = Done (Ok (f, n)) → (m ≤ length buf)%nat →
  (n ≤ Z.of_nat m → parse_frame_ crc16 crc32 (take m buf) max_size = Done (Ok (f, n))) ∧
  (Z.of_nat m < n →
   ∃ k, parse_frame_ crc16 crc32 (take m buf) max_size = Done (Err (NeedMore k)) ∧
        Z.of_nat m < k ≤ n).
Proof.
  intros Hp Hm.
  destruct (parse_frame_cut crc16 crc32 m buf max_size _ Hm Hp) as [Hc|(k & Hc & Hk & Hle)].
  - split; [done|]. intros Hlt.
    destruct (parse_frame_answer crc16 crc32 (take m buf) max_size) as (r & Hr & Hs).
    rewrite Hc in Hr. injection Hr as <-. rewrite length_take in Hs. lia.
  - specialize (Hle f n eq_refl). split; [lia|]. intros _. exists k. split; [done|lia].
Qed.

Lemma parse_incremental_witness :
  let sum l := foldl Z.add 0 l mod 65536 in
  let frame := frame_bytes sum K_CONFRM_MAGIC [None; None; None; None] in
  ∃ k, parse_frame_ sum sum (take 5 frame) 64 = Done (Err (NeedMore k)) ∧ 5 < k ≤ 7.
Proof.
  intros sum frame.
  assert (Hp : parse_frame_ sum sum frame 64 =
               Done (Ok (mkFrame K_CONFRM_MAGIC no_entries, 7))) by by vm_compute.
  assert (Hm : (5 ≤ length frame)%nat) by (vm_compute; lia).
  destruct (proj2 (parse_incremental sum sum frame 64 _ _ 5 Hp Hm)) as (k & Hk & Hb).
  { simpl. lia. }
  exists k. split; [exact Hk|exact Hb].
Defined.

(** Negotiation.  Completing an INVITE with the local options always gives
    the four values, each the invited one where the INVITE mentions the key and
    the local one elsewhere; the CONFIRM check accepts exactly the entries that
    carry those same four values. *)
Theorem complete_invite_spec local es ces :
  entries_ok es → length ces = 4%nat →
  let values := complete_invite_ local es in
  is_complete_ values = true ∧ length values = 4%nat ∧
  (∀ k, values !! k = match es !! k with
                      | Some (Some e) => Some (Some (val_data e))
                      | _ => basic_to_values_ local !! k
                      end) ∧
  (confirm_matches_ ces values = true ↔ map (option_map val_data) ces = values).
Proof.
  intros [Hl Hes] Hc values.
  destruct (complete_invite_complete local es Hl) as [Hcomp Hlen].
  split_and!; [done|done|intros k; by apply override_spec|by apply confirm_matches_iff].
Qed.

Lemma complete_invite_spec_witness :
  let es := [None; Some (mkEntry 1 5); None; None] in
  complete_invite_ DEFAULT es !! 1%nat = Some (Some 5) ∧
  is_complete_ (complete_invite_ DEFAULT es) = true.
Proof.
  intros es.
  assert (Hes : entries_ok es).
  { split; [done|]. intros [|[|[|[|k]]]] e; simpl; try done.
    intros [= <-]. vm_compute. split; [done|]. split; done. }
  destruct (complete_invite_spec DEFAULT es no_entries Hes eq_refl) as (H1 & _ & H2 & _).
  split; [exact (H2 1%nat)|exact H1].
Defined.
