(* ===== verification/HsAgent.v ===== *)
(** * The two ends of a smux v1 handshake

    Models [crates/smux_v1/src/handshake/agent.rs].  An endpoint is a process that
    asks its channels for segments to read and to write.  [view_step] runs it over
    channels that keep the contract of the workspace's segments; there it is never
    established.  [run] runs it over a [Transport], and [ExactTransport] says what such
    a transport would have to do for two endpoints to agree; the circular buffer is an
    instance of the operations and not of that class. *)

From S2P Require Import Prelude Demand IoPos CircEnds CircCore HsOpts HsCodec.

(** ** Processes *)

Section proc.
Context {RE WE : Type}.

(** [PRead d k]: [rx.read_async(&d).await]; the reply is the slices of the
    segment, which the process only views.  [PWrite d bytes k]:
    [tx.write_async(&d).await]; the reply is the room of the first slice of the
    segment, [bytes] what the process then writes into it. *)
Inductive proc (A : Type) : Type :=
| PDone (a : A)
| PPanic
| POutOfFuel
| PRead (d : Demand) (k : result RE (list (list Z)) → proc A)
| PWrite (d : Demand) (bytes : Z → list Z) (k : result WE Z → proc A).
Arguments PDone {A} a.
Arguments PPanic {A}.
Arguments POutOfFuel {A}.
Arguments PRead {A} d k.
Arguments PWrite {A} d bytes k.

#[export] Instance proc_ret : MRet proc := @PDone.
#[export] Instance proc_bind : MBind proc :=
  fix bind {A B} (f : A → proc B) (p : proc A) {struct p} : proc B :=
    match p with
    | PDone a => f a
    | PPanic => PPanic
    | POutOfFuel => POutOfFuel
    | PRead d k => PRead d (λ r, bind f (k r))
    | PWrite d bytes k => PWrite d bytes (λ r, bind f (k r))
    end.

Definition pure {A} (o : outcome A) : proc A :=
  match o with Ret a => PDone a | Panic => PPanic end.
Definition pure_exec {A} (e : exec A) : proc A :=
  match e with Done a => PDone a | Aborted => PPanic | OutOfFuel => POutOfFuel end.
End proc.
Arguments proc : clear implicits.
Arguments PDone {RE WE A} a.
Arguments PPanic {RE WE A}.
Arguments POutOfFuel {RE WE A}.
Arguments PRead {RE WE A} d k.
Arguments PWrite {RE WE A} d bytes k.

(** ** Frames over a transport *)

(** The copy loop of [read_exact_into_]; a slice beyond the end of [out] is a
    panic. *)
Fixpoint copy_slices (out : list Z) (offset : Z) (slices : list (list Z)) :
    outcome (list Z) :=
  match slices with
  | [] => Ret out
  | slice :: rest =>
      let end_ := offset + Z.of_nat (length slice) in
      if Z.of_nat (length out) <? end_ then Panic
      else copy_slices (list_inserts (Z.to_nat offset) slice out) end_ rest
  end.

Section agent.
Context {RE WE : Type}.
Variables (rtag : RE → ReadErrTag) (wtag : WE → WriteErrTag).
Variables crc16 crc32 : list Z → Z.

(** [read_exact_into_]: the new content of [out]. *)
Definition read_exact_into_ (out : list Z) : proc RE WE (result RE (list Z)) :=
  if (length out =? 0)%nat then PDone (Ok out)
  else
    demand ← pure (exactly (Z.of_nat (length out)));
    PRead demand (λ r,
      match r with
      | Ok slices => out ← pure (copy_slices out 0 slices); PDone (Ok out)
      | Err e => PDone (Err e)
      end).

(** The loop of [read_frame_async_]; [buf] has [K_MAX_HANDSHAKE_FRAME] bytes, of
    which [len] are filled. *)
Fixpoint read_frame_loop (fuel : nat) (max_size : Z) (buf : list Z) (len : Z) :
    proc RE WE (result (HandshakeError RE WE) ParsedFrame) :=
  match fuel with
  | O => POutOfFuel
  | S fuel =>
      r ← pure_exec (parse_frame_ crc16 crc32 (take (Z.to_nat len) buf) max_size);
      match r with
      | Ok (frame, _) => PDone (Ok frame)
      | Err (NeedMore need) =>
          let cap := Z.min max_size K_MAX_HANDSHAKE_FRAME in
          if cap <? need then PDone (Err FrameTooLarge)
          else
            out ← pure (sub_slice buf len need);
            r ← read_exact_into_ out;
            match r with
            | Err e => PDone (Err (map_read_err_ rtag e))
            | Ok out =>
                read_frame_loop fuel max_size
                  (list_inserts (Z.to_nat len) out buf) need
            end
      | Err PInvalidMagic => PDone (Err InvalidMagic)
      | Err PUnsupportedOption => PDone (Err UnsupportedOption)
      | Err PMalformedBody => PDone (Err MalformedBody)
      | Err PFrameTooLarge => PDone (Err FrameTooLarge)
      | Err PChecksumErr => PDone (Err ChecksumErr)
      end
  end.

Definition zero_frame : list Z := replicate (Z.to_nat K_MAX_HANDSHAKE_FRAME) 0.

(** [read_frame_async_]; every round fills at least one more of the 64 bytes. *)
Definition read_frame_async_ (max_size : Z) :
    proc RE WE (result (HandshakeError RE WE) ParsedFrame) :=
  read_frame_loop 65 max_size zero_frame 0.

(** [write_frame_async_]; [as_segm_mut] gives the first slice of the segment
    and [clone_items_from_buff] fills what fits. *)
Definition write_frame_async_ (magic : list Z) (values : Values) :
    proc RE WE (result (HandshakeError RE WE) unit) :=
  match build_frame_ crc16 magic values zero_frame with
  | None => PDone (Err FrameTooLarge)
  | Some (buf, len) =>
      demand ← pure (exactly len);
      PWrite demand (λ room, take (Z.to_nat (Z.min room len)) buf) (λ r,
        match r with
        | Ok room => if Z.min room len =? len then PDone (Ok ()) else PPanic
        | Err e => PDone (Err (map_write_err_ wtag e))
        end)
  end.

(** The validation of the INVITE entries by the initiator. *)
Fixpoint propose (invite : list NegotiationBasicEntry) (proposed : Values) (seen : Z) :
    result (HandshakeError RE WE) Values :=
  match invite with
  | [] => Ok proposed
  | entry :: rest =>
      let key := Z.land (opts_key entry) 0x0F in
      if K_BASIC_KEY_COUNT <=? key then Err UnsupportedOption
      else
        let bit := Z.shiftl 1 key in
        if negb (Z.land seen bit =? 0) || (val_data entry =? 0) then Err MalformedBody
        else propose rest (<[Z.to_nat key := Some (val_data entry)]> proposed)
               (Z.lor seen bit)
  end.

Definition empty : Values := [None; None; None; None].

(** The [?] of an async function that returns a [Result]. *)
Definition try_ {A B} (r : result (HandshakeError RE WE) A)
    (f : A → proc RE WE (result (HandshakeError RE WE) B)) :
    proc RE WE (result (HandshakeError RE WE) B) :=
  match r with Ok a => f a | Err e => PDone (Err e) end.

(** Send a REJECT, ignore whether it could be sent, and fail with [e]. *)
Definition reject_with {A} (e : HandshakeError RE WE) :
    proc RE WE (result (HandshakeError RE WE) A) :=
  _ ← write_frame_async_ K_REJECT_MAGIC empty;
  PDone (Err e).

(** [initiate_handshake_async_].  The endpoint hands back the channels it was
    given; what it adds is the options. *)
Definition initiate_handshake_async_ (invite : list NegotiationBasicEntry)
    (max_size : Z) (decide : BasicOpts → bool) :
    proc RE WE (result (HandshakeError RE WE) HandshakeOpts) :=
  try_ (propose invite empty 0) (λ proposed,
  r ← write_frame_async_ K_INVITE_MAGIC proposed; try_ r (λ _,
  r ← read_frame_async_ max_size; try_ r (λ frame,
  if bool_decide (magic frame = K_REJECT_MAGIC) then PDone (Err PeerRejected)
  else if negb (bool_decide (magic frame = K_ACCEPT_MAGIC)) then PDone (Err InvalidMagic)
  else
    match complete_values_ (entries frame) with
    | None => reject_with Inconsistent
    | Some accepted =>
        let result := values_to_basic_ accepted in
        if negb (decide result) then reject_with Rejected
        else
          r ← write_frame_async_ K_CONFRM_MAGIC accepted; try_ r (λ _,
          r ← read_frame_async_ max_size; try_ r (λ done_,
          if negb (bool_decide (magic done_ = K_CONFRM_MAGIC)) then PDone (Err InvalidMagic)
          else if existsb (λ e, bool_decide (is_Some e)) (entries done_) then
            PDone (Err Inconsistent)
          else PDone (Ok (mkHandshakeOpts result))))
    end))).

(** [accept_handshake_async_]. *)
Definition accept_handshake_async_ (local : BasicOpts)
    (max_size : Z) (decide : BasicOpts → bool) :
    proc RE WE (result (HandshakeError RE WE) HandshakeOpts) :=
  r ← read_frame_async_ max_size; try_ r (λ frame,
  if negb (bool_decide (magic frame = K_INVITE_MAGIC)) then PDone (Err InvalidMagic)
  else
    let values := complete_invite_ local (entries frame) in
    let result := values_to_basic_ values in
    if negb (decide result) then reject_with Rejected
    else
      r ← write_frame_async_ K_ACCEPT_MAGIC values; try_ r (λ _,
      r ← read_frame_async_ max_size; try_ r (λ confirm,
      if negb (bool_decide (magic confirm = K_CONFRM_MAGIC)) then reject_with InvalidMagic
      else if negb (confirm_matches_ (entries confirm) values) then
        reject_with Inconsistent
      else
        r ← write_frame_async_ K_CONFRM_MAGIC empty; try_ r (λ _,
        PDone (Ok (mkHandshakeOpts result)))))).

(** [HandshakeAgent] and [HandshakeListener]; their channels are the transport
    the process runs on. *)
Record HandshakeAgent : Type := mkAgent { agent_max_size_ : Z }.
Definition agent_new (max_size : Z) : HandshakeAgent := mkAgent max_size.
Definition initiate_handshake (a : HandshakeAgent) (invite : list NegotiationBasicEntry)
    (decide : BasicOpts → bool) :=
  initiate_handshake_async_ invite (agent_max_size_ a) decide.
Record HandshakeListener : Type := mkListener { listener_max_size_ : Z }.
Definition listener_new (max_size : Z) : HandshakeListener := mkListener max_size.
Definition accept_handshake (l : HandshakeListener) (local : BasicOpts)
    (decide : BasicOpts → bool) :=
  accept_handshake_async_ local (listener_max_size_ l) decide.
End agent.

(** ** Transports *)

(** A reliable transport of bytes: how many of the [avail] bytes that have arrived
    a read demand is granted ([None]: the read waits), into which slices the
    segment cuts them, how many bytes a dropped segment takes off the stream
    when [offset] of its [n] bytes were moved out, and how much contiguous room
    a write demand is granted. *)
Class Transport : Type := {
  t_grant : Demand → Z → option Z;
  t_slices : list Z → list (list Z);
  t_consume : Z → Z → Z;
  t_room : Demand → Z;
}.

(** What the endpoints are written for, which no reader of the workspace offers: a
    read demand for exactly [n] is granted [n] bytes as soon as there are [n], the
    slices are the bytes in order, a segment that was only viewed is consumed when it
    drops, and a write demand for exactly [n] is granted [n] contiguous bytes. *)
Class ExactTransport (t : Transport) : Prop := {
  grant_exact n d avail : exactly n = Ret d → t_grant d avail = if avail <? n then None else Some n;
  slices_concat l : concat (t_slices l) = l;
  consume_lent n : t_consume n 0 = n;
  room_exact n d : exactly n = Ret d → n ≤ t_room d;
}.

Section run.
Context {RE WE A : Type} `{t : Transport}.

(** How far a process gets on the bytes that have arrived. *)
Inductive progress : Type :=
| Finished (a : A) (rest sent : list Z)
| Waiting (p : proc RE WE A) (rest sent : list Z)
| Crashed.

Fixpoint run (p : proc RE WE A) (input sent : list Z) : progress :=
  match p with
  | PDone a => Finished a input sent
  | PPanic => Crashed
  | POutOfFuel => Crashed
  | PRead d k =>
      match t_grant d (Z.of_nat (length input)) with
      | None => Waiting (PRead d k) input sent
      | Some n =>
          run (k (Ok (t_slices (take (Z.to_nat n) input))))
              (drop (Z.to_nat (t_consume n 0)) input) sent
      end
  | PWrite d bytes k =>
      let room := t_room d in
      run (k (Ok room)) input (sent ++ bytes room)
  end.
End run.
Arguments progress : clear implicits.

(** Two processes on two channels, scheduled in turns: one runs until it waits or
    ends, what it sent reaches the other, then the other runs. *)
Section net.
Context {RE WE A : Type} `{t : Transport}.

Inductive side : Type :=
| Active (p : proc RE WE A) (inbox : list Z)
| Ended (a : A) (inbox : list Z)
| Broken.

Definition run_side (s : side) : side * list Z :=
  match s with
  | Active p inbox =>
      match run p inbox [] with
      | Finished a rest sent => (Ended a rest, sent)
      | Waiting p rest sent => (Active p rest, sent)
      | Crashed => (Broken, [])
      end
  | s => (s, [])
  end.
Definition deliver (bytes : list Z) (s : side) : side :=
  match s with
  | Active p inbox => Active p (inbox ++ bytes)
  | Ended a inbox => Ended a (inbox ++ bytes)
  | Broken => Broken
  end.

Fixpoint converse (turns : nat) (x y : side) : side * side :=
  match turns with
  | O => (x, y)
  | S turns =>
      let '(x, sent) := run_side x in
      let '(y', x') := converse turns (deliver sent y) x in
      (x', y')
  end.
End net.
Arguments side : clear implicits.

(** ** Lemmas *)

Section run_lemmas.
Context {RE WE : Type} `{t : Transport}.

Lemma run_bind_finished {A B} (p : proc RE WE A) (f : A → proc RE WE B) :
  ∀ input sent a rest sent', run p input sent = Finished a rest sent' →
  run (p ≫= f) input sent = run (f a) rest sent'.
Proof.
  induction p as [a| | |d k IH|d bytes k IH]; intros input sent a' rest sent'; simpl.
  - by intros [= -> -> ->].
  - done.
  - done.
  - destruct (t_grant d _) as [n|]; [|done]. apply IH.
  - apply IH.
Qed.

Lemma run_bind_waiting {A B} (p : proc RE WE A) (f : A → proc RE WE B) :
  ∀ input sent p' rest sent', run p input sent = Waiting p' rest sent' →
  run (p ≫= f) input sent = Waiting (p' ≫= f) rest sent'.
Proof.
  induction p as [a| | |d k IH|d bytes k IH]; intros input sent p' rest sent'; simpl.
  - done.
  - done.
  - done.
  - destruct (t_grant d _) as [n|]; [apply IH|]. by intros [= <- <- <-].
  - apply IH.
Qed.
End run_lemmas.

Lemma exactly_pos n : 0 < n ≤ USIZE_MAX → ∃ d, exactly n = Ret d.
Proof. intros. unfold exactly. case_tests; [lia|by eexists..]. Qed.

Lemma copy_slices_concat slices : ∀ out offset,
  0 ≤ offset →
  offset + Z.of_nat (length (concat slices)) ≤ Z.of_nat (length out) →
  copy_slices out offset slices =
    Ret (take (Z.to_nat offset) out ++ concat slices ++
         drop (Z.to_nat offset + length (concat slices)) out).
Proof.
  induction slices as [|s slices IH]; intros out offset Ho Hlen; simpl in *.
  { by rewrite Nat.add_0_r, take_drop. }
  rewrite length_app in Hlen.
  replace (Z.of_nat (length out) <? _) with false by lia.
  rewrite list_inserts_split by lia.
  rewrite IH by (rewrite ?length_app, ?length_take, ?length_drop; lia). f_equal.
  set (o := Z.to_nat offset) in *.
  replace (Z.to_nat (offset + Z.of_nat (length s))) with (o + length s)%nat by lia.
  rewrite (app_assoc (take o out)), take_app_length'
    by (rewrite length_app, length_take; lia).
  rewrite <- !app_assoc. do 3 f_equal.
  rewrite app_assoc, drop_app, drop_ge by (rewrite length_app, length_take; lia).
  rewrite app_nil_l, drop_drop, !length_app, length_take. f_equal. lia.
Qed.

Lemma copy_slices_overflow slices : ∀ out offset,
  0 ≤ offset ≤ Z.of_nat (length out) →
  Z.of_nat (length out) < offset + Z.of_nat (length (concat slices)) →
  copy_slices out offset slices = Panic.
Proof.
  induction slices as [|s slices IH]; intros out offset Ho Hlen; simpl in *; [lia|].
  rewrite length_app in Hlen.
  destruct (Z.ltb_spec (Z.of_nat (length out)) (offset + Z.of_nat (length s))); [done|].
  apply IH; rewrite length_inserts; lia.
Qed.

Lemma copy_slices_length slices : ∀ out offset out',
  copy_slices out offset slices = Ret out' → length out' = length out.
Proof.
  induction slices as [|s slices IH]; intros out offset out'; simpl; [by intros [= ->]|].
  destruct (_ <? _); [done|]. intros ->%IH. apply length_inserts.
Qed.

(** The first request of a frame read: exactly the four bytes of the magic; a
    longer segment makes it panic. *)
Lemma read_loop_first {RE WE} (rtag : RE → ReadErrTag) crc16 crc32 fuel max_size :
  4 ≤ max_size →
  ∃ k, read_frame_loop (WE := WE) rtag crc16 crc32 (S fuel) max_size zero_frame 0 =
         PRead (Range 4 5) k ∧
       ∀ slices, (4 < length (concat slices))%nat → k (Ok slices) = PPanic.
Proof.
  intros Hmax. cbn [read_frame_loop].
  change (parse_frame_ crc16 crc32 (take (Z.to_nat 0) zero_frame) max_size)
    with (Done (Err (E := ParseFrameError) (A := ParsedFrame * Z) (NeedMore 4))).
  cbn [pure_exec mbind proc_bind].
  replace (Z.min max_size K_MAX_HANDSHAKE_FRAME <? 4) with false
    by (unfold K_MAX_HANDSHAKE_FRAME; lia).
  change (sub_slice zero_frame 0 4) with (Ret [0; 0; 0; 0]).
  eexists. split; [reflexivity|]. intros slices Hs.
  cbn -[copy_slices]. rewrite copy_slices_overflow by (simpl; lia). done.
Qed.

Section exact.
Context {RE WE : Type} `{t : Transport} `{!ExactTransport t}.
Variables (rtag : RE → ReadErrTag) (wtag : WE → WriteErrTag).
Variables crc16 crc32 : list Z → Z.

Local Abbreviation read_frame := (read_frame_async_ (RE := RE) (WE := WE) rtag crc16 crc32).
Local Abbreviation write_frame := (write_frame_async_ (RE := RE) (WE := WE) wtag crc16).

(** Reading a fixed number of bytes that have arrived. *)
Lemma run_read_exact (out bs rest sent : list Z) :
  length bs = length out → Z.of_nat (length out) ≤ USIZE_MAX →
  run (read_exact_into_ (RE := RE) (WE := WE) out) (bs ++ rest) sent =
    Finished (Ok bs) rest sent.
Proof.
  intros Hlen Hmax. unfold read_exact_into_.
  destruct (Nat.eqb_spec (length out) 0) as [H0|H0].
  { rewrite H0 in Hlen. apply nil_length_inv in Hlen as ->.
    by apply nil_length_inv in H0 as ->. }
  destruct (exactly_pos (Z.of_nat (length out))) as [d Hd]; [lia|].
  rewrite Hd. simpl. rewrite (grant_exact _ _ _ Hd), length_app.
  rewrite (proj2 (Z.ltb_ge _ (Z.of_nat (length out)))) by lia.
  rewrite consume_lent, Nat2Z.id, <- Hlen, take_app_length, drop_app_length.
  assert (copy_slices out 0 (t_slices bs) = Ret bs) as ->; [|done].
  rewrite copy_slices_concat by (rewrite ?slices_concat; lia).
  rewrite slices_concat. simpl. f_equal. rewrite drop_ge by lia. apply app_nil_r.
Qed.

(** Reading a frame that has arrived, from any number of its bytes on. *)
Lemma run_read_loop fuel : ∀ max_size F f rest buf len sent,
  let n := Z.of_nat (length F) in
  parse_frame_ crc16 crc32 F max_size = Done (Ok (f, n)) →
  n ≤ max_size → n ≤ K_MAX_HANDSHAKE_FRAME →
  Z.of_nat (length buf) = K_MAX_HANDSHAKE_FRAME → 0 ≤ len ≤ n →
  take (Z.to_nat len) buf = take (Z.to_nat len) F → n - len < Z.of_nat fuel →
  run (read_frame_loop (WE := WE) rtag crc16 crc32 fuel max_size buf len)
    (drop (Z.to_nat len) F ++ rest) sent = Finished (Ok f) rest sent.
Proof.
  induction fuel as [|fuel IH]; intros max_size F f rest buf len sent n Hp Hm H64 Hb Hl Ht Hf;
    [lia|]. simpl. rewrite Ht. unfold K_MAX_HANDSHAKE_FRAME in *.
  destruct (parse_frame_cut crc16 crc32 (Z.to_nat len) F max_size _ ltac:(lia) Hp)
    as [Hc|(need & Hc & Hneed & Hle)]; rewrite Hc; simpl.
  - assert (len = n) as ->.
    { destruct (parse_frame_answer crc16 crc32 (take (Z.to_nat len) F) max_size)
        as (r & Hr & Hs). rewrite Hc in Hr. injection Hr as <-.
      rewrite length_take in Hs. lia. }
    rewrite drop_ge by lia. done.
  - specialize (Hle f n eq_refl).
    replace (Z.min max_size 64 <? need) with false by lia.
    rewrite sub_slice_Ret by lia. simpl.
    set (out := take (Z.to_nat (need - len)) (drop (Z.to_nat len) buf)).
    assert (Hout : length out = Z.to_nat (need - len))
      by (unfold out; rewrite length_take, length_drop; lia).
    set (bs := take (Z.to_nat (need - len)) (drop (Z.to_nat len) F)).
    assert (Hbs : length bs = length out)
      by (unfold bs; rewrite length_take, length_drop; lia).
    replace (drop (Z.to_nat len) F ++ rest) with (bs ++ (drop (Z.to_nat need) F ++ rest)).
    2: { rewrite app_assoc. f_equal. unfold bs.
         rewrite <- (take_drop (Z.to_nat (need - len)) (drop (Z.to_nat len) F)) at 2.
         f_equal. rewrite drop_drop. f_equal. lia. }
    erewrite run_bind_finished; [|apply run_read_exact; [done|unfold USIZE_MAX; lia]].
    simpl. apply IH; try (done || lia).
    + by rewrite length_inserts.
    + rewrite list_inserts_split by lia. rewrite Ht.
      rewrite app_assoc, take_app_length' by (rewrite length_app, length_take; lia).
      unfold bs. rewrite take_take_drop. f_equal. lia.
Qed.

Lemma run_read_frame max_size m values rest sent :
  is_magic m → length values = 4%nat → Forall value_ok values → 43 ≤ max_size →
  run (read_frame max_size) (frame_bytes crc16 m values ++ rest) sent =
    Finished (Ok (mkFrame m (entries_of 0 values))) rest sent.
Proof.
  intros Hm Hlen Hok Hmax.
  pose proof (length_frame_bytes crc16 m values (is_magic_length m Hm)) as Hfl.
  rewrite Hlen in Hfl.
  pose proof (run_read_loop 65 max_size (frame_bytes crc16 m values)
                (mkFrame m (entries_of 0 values)) rest zero_frame 0 sent) as Hr.
  rewrite drop_0 in Hr. apply Hr; unfold K_MAX_HANDSHAKE_FRAME; try done; try lia.
  rewrite <- (app_nil_r (frame_bytes crc16 m values)) at 1.
  apply parse_frame_bytes; (done || lia).
Qed.

Lemma run_read_frame_all max_size m values sent :
  is_magic m → length values = 4%nat → Forall value_ok values → 43 ≤ max_size →
  run (read_frame max_size) (frame_bytes crc16 m values) sent =
    Finished (Ok (mkFrame m (entries_of 0 values))) [] sent.
Proof.
  intros. rewrite <- (app_nil_r (frame_bytes crc16 m values)). by apply run_read_frame.
Qed.

(** A frame read with nothing arrived waits, and stays where it is. *)
Lemma run_read_frame_waits max_size sent :
  43 ≤ max_size →
  run (read_frame max_size) [] sent = Waiting (read_frame max_size) [] sent.
Proof.
  intros Hmax.
  destruct (read_loop_first (WE := WE) rtag crc16 crc32 64 max_size ltac:(lia)) as (k & Hk & _).
  unfold read_frame_async_. rewrite Hk. simpl.
  rewrite (grant_exact 4 (Range 4 5)) by done. done.
Qed.

Lemma run_write_frame m values input sent :
  length m = 4%nat → length values = 4%nat →
  run (write_frame m values) input sent =
    Finished (Ok ()) input (sent ++ frame_bytes crc16 m values).
Proof.
  intros Hm Hlen. pose proof (length_frame_bytes crc16 m values Hm) as Hfl.
  rewrite Hlen in Hfl. unfold write_frame_async_.
  rewrite build_frame_bytes by done. cbn zeta.
  destruct (Nat.ltb_spec (length zero_frame) (length (frame_bytes crc16 m values)))
    as [Hlt|_]; [change (length zero_frame) with 64%nat in Hlt; lia|].
  set (F := frame_bytes crc16 m values) in *.
  destruct (exactly_pos (Z.of_nat (length F))) as [d Hd]; [unfold USIZE_MAX; lia|].
  rewrite Hd. simpl. pose proof (room_exact _ _ Hd).
  replace (Z.min (t_room d) (Z.of_nat (length F))) with (Z.of_nat (length F)) by lia.
  by rewrite Z.eqb_refl, Nat2Z.id, take_app_length.
Qed.
End exact.

Lemma propose_ok {RE WE} invite : ∀ proposed seen proposed',
  propose (RE := RE) (WE := WE) invite proposed seen = Ok proposed' →
  Forall (λ e, is_usize (val_data e)) invite → Forall value_ok proposed →
  Forall value_ok proposed' ∧ length proposed' = length proposed.
Proof.
  induction invite as [|e invite IH]; intros proposed seen proposed'; simpl.
  { intros [= <-] _ ?. done. }
  destruct (_ <=? _); [done|]. destruct (_ || _) eqn:E; [done|]. bool_to_prop.
  intros Hp [He Hi]%Forall_cons Hok.
  apply IH in Hp as [Hv Hl]; [|done|].
  - split; [done|]. by rewrite Hl, length_insert.
  - apply Forall_insert; [done|]. simpl. unfold is_usize in He. lia.
Qed.

Lemma complete_invite_values_ok local es :
  entries_ok es → Forall (λ e, ∀ x, e = Some x → 0 < val_data x) es →
  Forall value_ok (basic_to_values_ local) → Forall value_ok (complete_invite_ local es).
Proof.
  intros [Hl Hes] Hpos Hok. apply Forall_lookup. intros k v Hk.
  unfold complete_invite_ in Hk. rewrite override_spec in Hk by done.
  pose proof (proj1 (Forall_lookup _ _) Hok) as Hok'.
  pose proof (proj1 (Forall_lookup _ _) Hpos k) as Hpos'.
  destruct (es !! k) as [[e|]|] eqn:E; [|by eapply Hok'..].
  injection Hk as <-. simpl. destruct (Hes k e E) as (_ & _ & ?).
  specialize (Hpos' (Some e) eq_refl e eq_refl). lia.
Qed.

(** The entries of encoded values. *)
Lemma entries_of_lookup values : ∀ key k e,
  entries_of key values !! k = Some (Some e) →
  ∃ v, values !! k = Some (Some v) ∧ e = mkEntry (entry_header (key + Z.of_nat k) v) v.
Proof.
  induction values as [|v values IH]; intros key [|k] e; simpl; try done.
  - destruct v as [v|]; [|done]. intros [= <-]. exists v. by rewrite Z.add_0_r.
  - intros (w & Hw & ->)%IH. exists w. split; [done|]. do 2 f_equal. lia.
Qed.

Lemma entries_of_ok values :
  length values = 4%nat → Forall value_ok values →
  entries_ok (entries_of 0 values) ∧
  Forall (λ e, ∀ x, e = Some x → 0 < val_data x) (entries_of 0 values).
Proof.
  intros Hl Hok. rewrite Forall_lookup in Hok. split; [split|].
  - by rewrite length_entries_of.
  - intros k e (v & Hv & ->)%entries_of_lookup. simpl.
    pose proof (lookup_lt_Some _ _ _ Hv). specialize (Hok _ _ Hv). simpl in Hok.
    destruct (entry_header_fields (Z.of_nat k) v) as [Hk _]; [lia..|].
    split; [done|lia].
  - apply Forall_lookup. intros k e He x ->.
    apply entries_of_lookup in He as (v & Hv & ->). specialize (Hok _ _ Hv). simpl in *. lia.
Qed.

(** The moves of the conversation: one endpoint sends a frame, waits for the next,
    or receives the one that has arrived. *)
Ltac hs_magic :=
  repeat match goal with
  | |- context [bool_decide (?a = ?b)] =>
      first [ rewrite (bool_decide_eq_true_2 (a = b)) by reflexivity
            | rewrite (bool_decide_eq_false_2 (a = b)) by discriminate ]
  end; cbn [negb].
Ltac hs_send :=
  unfold reject_with;
  erewrite run_bind_finished by (apply run_write_frame; done); cbn [try_ app].
Ltac hs_wait := erewrite run_bind_waiting by (by apply run_read_frame_waits).
Ltac hs_receive :=
  cbn [converse deliver run_side app];
  erewrite run_bind_finished
    by (apply run_read_frame_all; [unfold is_magic; tauto|done..]);
  cbn [try_ magic entries]; hs_magic.

(** ** Properties *)

(** Agreement, over channels that behave as the endpoints expect ([ExactTransport];
    over the contract of the repository's readers there is none,
    [handshake_never_established]).  A handshake between an initiator with a valid
    INVITE and a listener with non-zero local options, both with a [max_size] of at
    least 43, which the longest frame has, ends on both sides within five turns.  Both
    decisions are about the same completed options; when both accept, both ends
    are established with exactly those options and no byte is left over; when
    the listener declines, the initiator learns it as [PeerRejected]; when the
    initiator declines, the listener fails too, but with [InvalidMagic], and
    answers the REJECT with a REJECT of its own. *)
Theorem handshake_agreement {RE WE} `{t : Transport} `{!ExactTransport t}
    (rtag : RE → ReadErrTag) (wtag : WE → WriteErrTag) crc16 crc32
    invite proposed local max_a max_b decide_a decide_b :
  propose (RE := RE) (WE := WE) invite empty 0 = Ok proposed →
  Forall (λ e, is_usize (val_data e)) invite →
  Forall value_ok (basic_to_values_ local) →
  43 ≤ max_a → 43 ≤ max_b →
  let opts := values_to_basic_ (complete_invite_ local (entries_of 0 proposed)) in
  let agent := initiate_handshake rtag wtag crc16 crc32 (agent_new max_a) invite decide_a in
  let listener := accept_handshake rtag wtag crc16 crc32 (listener_new max_b) local decide_b in
  converse 5 (Active agent []) (Active listener []) =
    if decide_b opts then
      if decide_a opts then
        (Ended (Ok (mkHandshakeOpts opts)) [], Ended (Ok (mkHandshakeOpts opts)) [])
      else (Ended (Err Rejected) (frame_bytes crc16 K_REJECT_MAGIC empty),
            Ended (Err InvalidMagic) [])
    else (Ended (Err PeerRejected) [], Ended (Err Rejected) []).
Proof.
  intros Hprop Hinv Hloc Ha Hb opts agent listener.
  destruct (propose_ok _ _ _ _ Hprop Hinv) as [Hpok Hpl]; [by repeat constructor|].
  change (length empty) with 4%nat in Hpl.
  destruct (entries_of_ok proposed Hpl Hpok) as [Heok Hepos].
  set (values := complete_invite_ local (entries_of 0 proposed)) in *.
  assert (Hvok : Forall value_ok values) by by apply complete_invite_values_ok.
  destruct (complete_invite_complete local (entries_of 0 proposed)) as [Hcomp Hvl];
    [by rewrite length_entries_of|]. fold values in Hcomp, Hvl.
  assert (Hcv : complete_values_ (entries_of 0 values) = Some values).
  { unfold complete_values_. rewrite val_data_entries_of. by rewrite Hcomp. }
  assert (Hempty : Forall value_ok empty) by by repeat constructor.
  unfold agent, initiate_handshake, initiate_handshake_async_.
  rewrite Hprop. cbn [try_ agent_max_size_ agent_new].
  cbn [converse run_side].
  hs_send. hs_wait.
  (* the listener completes the INVITE *)
  unfold listener, accept_handshake, accept_handshake_async_.
  cbn [listener_max_size_ listener_new].
  hs_receive. fold values. fold opts.
  destruct (decide_b opts); cbn [negb].
  2: { hs_send. cbn [run]. hs_receive. cbn [run]. done. }
  hs_send. hs_wait.
  (* the initiator decides on the ACCEPT *)
  hs_receive. rewrite Hcv. fold opts.
  destruct (decide_a opts); cbn [negb].
  2: { hs_send. cbn [run]. hs_receive. hs_send. cbn [run]. done. }
  hs_send. hs_wait.
  (* the listener checks the CONFIRM *)
  hs_receive.
  rewrite (proj2 (confirm_matches_iff (entries_of 0 values) values
                    ltac:(by rewrite length_entries_of) Hvl Hcomp))
    by apply val_data_entries_of.
  cbn [negb]. hs_send. cbn [run].
  hs_receive. cbn [run]. done.
Qed.

(** A transport that keeps the contract: the bytes in two slices. *)
#[export] Instance split_transport : Transport := {|
  t_grant d avail := if avail <? min_len d then None else Some (min_len d);
  t_slices l := [take 1 l; drop 1 l];
  t_consume n _ := n;
  t_room d := min_len d;
|}.

Lemma exactly_min_len n d : exactly n = Ret d → min_len d = n.
Proof. unfold exactly. repeat case_match; by intros [= <-]. Qed.

#[export] Instance split_transport_exact : ExactTransport split_transport.
Proof.
  split; simpl.
  - intros n d avail Hd. by rewrite (exactly_min_len _ _ Hd).
  - intros l. by rewrite app_nil_r, take_drop.
  - done.
  - intros n d Hd. by rewrite (exactly_min_len _ _ Hd).
Qed.

Lemma handshake_agreement_witness :
  let sum l := foldl Z.add 0 l mod 65536 in
  let invite := [mkEntry 0x01 5] in
  let opts := mkBasicOpts 4096 5 (Z.shiftl 1 28) (from_secs 30) in
  converse 5
    (Active (initiate_handshake (λ e : ReadErrTag, e) (λ e : WriteErrTag, e) sum sum
               (agent_new 64) invite (λ _, true)) [])
    (Active (accept_handshake (λ e : ReadErrTag, e) (λ e : WriteErrTag, e) sum sum
               (listener_new 64) DEFAULT (λ _, true)) []) =
  (Ended (Ok (mkHandshakeOpts opts)) [], Ended (Ok (mkHandshakeOpts opts)) []).
Proof.
  intros sum invite opts.
  refine (handshake_agreement (λ e : ReadErrTag, e) (λ e : WriteErrTag, e) sum sum
            invite [None; Some 5; None; None] DEFAULT 64 64 (λ _, true) (λ _, true)
            _ _ _ _ _); [reflexivity| | |lia|lia].
  - repeat constructor; by vm_compute.
  - repeat constructor; by vm_compute.
Defined.

(** ** Over the contract of the segments *)

(** The channels as the readers of the workspace keep their contract ([Segm.v],
    [BuffIo.v]): [inbox] is what has arrived and was not taken.  A lent segment is not
    empty and shows the first bytes of [inbox], in any number of slices; the process
    moves nothing out of it, so that nothing leaves the stream when it drops.  A read or
    a write may fail, a write may be lent any room, and bytes arrive at any time. *)
Inductive view_step {RE WE A} : proc RE WE A * list Z → proc RE WE A * list Z → Prop :=
| view_lent d k inbox slices n :
    1 ≤ n ≤ Z.of_nat (length inbox) → concat slices = take (Z.to_nat n) inbox →
    view_step (PRead d k, inbox) (k (Ok slices), inbox)
| view_read_err d k inbox e : view_step (PRead d k, inbox) (k (Err e), inbox)
| view_written d bytes k inbox r : view_step (PWrite d bytes k, inbox) (k r, inbox)
| view_arrive p inbox more : view_step (p, inbox) (p, inbox ++ more).

(** A process that no run brings to a success. *)
Definition doomed {RE WE E A} (p : proc RE WE (result E A)) (inbox : list Z) : Prop :=
  ∀ a rest, ¬ rtc view_step (p, inbox) (PDone (Ok a), rest).

Section view.
Context {RE WE : Type}.
(** One step at a time: what arrives meanwhile changes nothing of the process. *)
Lemma doomed_steps {E A} (p : proc RE WE (result E A)) inbox :
  (∀ a, p ≠ PDone (Ok a)) →
  (∀ more p', view_step (p, inbox ++ more) (p', inbox ++ more) →
     p' = p ∨ doomed p' (inbox ++ more)) →
  doomed p inbox.
Proof.
  intros Hp Hs a rest Hr.
  assert (∀ s s', rtc view_step s s' → ∀ more, s = (p, inbox ++ more) →
            s' = (PDone (Ok a), rest) → False) as Hgo.
  2: { apply (Hgo _ _ Hr []); by rewrite ?app_nil_r. }
  clear Hr. induction 1 as [s|s s1 s' Hst Hr IH]; intros more Es Es'; [naive_solver|].
  subst s s'. assert (Harr : ∀ l, s1 = (p, (inbox ++ more) ++ l) → False).
  { intros l ->. by apply (IH (more ++ l)); rewrite ?app_assoc. }
  inversion Hst; subst; try (by eapply Harr).
  all: match type of Hr with rtc _ (?p1, _) _ =>
         destruct (Hs more p1 Hst) as [He|Hd]; [|by eapply Hd] end.
  all: apply (Harr []); by rewrite app_nil_r, He.
Qed.

(** A process that is over without a frame. *)
Definition frameless {A} (p : proc RE WE (result (HandshakeError RE WE) A)) : Prop :=
  p = PPanic ∨ ∃ e, p = PDone (Err e).

Lemma frameless_try {A B} (p : proc RE WE (result (HandshakeError RE WE) A))
    (f : A → proc RE WE (result (HandshakeError RE WE) B)) :
  frameless p → frameless (r ← p; try_ r f).
Proof. intros [->|[e ->]]; [by left|right; by eexists]. Qed.

Lemma doomed_frameless {A} (p : proc RE WE (result (HandshakeError RE WE) A)) inbox :
  frameless p → doomed p inbox.
Proof.
  intros [->|[e ->]]; (apply doomed_steps; [done|]); intros more p' Hs; left; by inversion Hs.
Qed.

Variables (rtag : RE → ReadErrTag) (wtag : WE → WriteErrTag).
Variables crc16 crc32 : list Z → Z.
Local Abbreviation read_loop := (read_frame_loop (RE := RE) (WE := WE) rtag crc16 crc32).
Local Abbreviation read_frame := (read_frame_async_ (RE := RE) (WE := WE) rtag crc16 crc32).
Local Abbreviation write_frame := (write_frame_async_ (RE := RE) (WE := WE) wtag crc16).

(** A read of [d] whose failure is the process's, and whose reply [Ok] keeps [P]. *)
Definition reads {A} (d : Demand) (P : list (list Z) → proc RE WE (result (HandshakeError RE WE) A) → Prop)
    (p : proc RE WE (result (HandshakeError RE WE) A)) : Prop :=
  ∃ k, p = PRead d k ∧ (∀ e, frameless (k (Err e))) ∧ ∀ slices, P slices (k (Ok slices)).

(** What the second read leaves of a frame, and the first. *)
Definition second_reply (slices : list (list Z))
    (p : proc RE WE (result (HandshakeError RE WE) ParsedFrame)) : Prop :=
  ∀ tl, concat slices = 95 :: tl → frameless p.
Definition first_reply (slices : list (list Z))
    (p : proc RE WE (result (HandshakeError RE WE) ParsedFrame)) : Prop :=
  concat slices ≠ [] →
  frameless p ∨
  (∃ tl, concat slices = 95 :: tl) ∧ reads (Range 1 2) second_reply p.

(** A fifth byte that repeats the first one is the key of no option. *)
Lemma parse_fifth a rest max_size :
  (a = 105 ∨ a = 65 ∨ a = 74 ∨ a = 99) → (max_size <? 4) = false →
  parse_frame_ crc16 crc32 (take (Z.to_nat 5) (95 :: 27 :: 1 :: a :: 95 :: rest)) max_size =
    Done (Err (if max_size <? 5 then PFrameTooLarge else PUnsupportedOption)).
Proof.
  intros Ha Hm. change (take _ _) with [95; 27; 1; a; 95].
  assert (parse_round crc16 crc32 [95; 27; 1; a; 95] max_size [95; 27; 1; a] 4 no_entries 0 =
    Ret (Return (Err (if max_size <? 5 then PFrameTooLarge else PUnsupportedOption)))) as Hr.
  { unfold parse_round. simpl. change (4 + 1) with 5.
    by destruct (max_size <? 5). }
  unfold parse_frame_. simpl. rewrite Hm, Hr. simpl.
  by destruct Ha as [->|[->|[-> | ->]]].
Qed.

(** The fifth byte of a frame, read again from the front, is the first of its magic:
    no key of an option. *)
Lemma read_loop_second fuel max_size a buf :
  (a = 105 ∨ a = 65 ∨ a = 74 ∨ a = 99) → Z.of_nat (length buf) = 64 →
  take 4 buf = [95; 27; 1; a] →
  frameless (read_loop (S (S fuel)) max_size buf 4) ∨
  reads (Range 1 2) second_reply
    (read_loop (S (S fuel)) max_size buf 4).
Proof.
  intros Ha Hb Ht. remember (S fuel) as fuel1 eqn:Ef. cbn [read_frame_loop].
  change (Z.to_nat 4) with 4%nat. rewrite Ht.
  assert (Hp : parse_frame_ crc16 crc32 [95; 27; 1; a] max_size =
    Done (Err (if max_size <? 4 then PFrameTooLarge else NeedMore 5))).
  { unfold parse_frame_. simpl. destruct (max_size <? 4); [done|].
    by destruct Ha as [->|[->|[-> | ->]]]. }
  rewrite Hp. destruct (max_size <? 4) eqn:Hm; [left; right; by eexists|]. cbn [pure_exec mbind proc_bind].
  destruct (Z.min max_size K_MAX_HANDSHAKE_FRAME <? 5) eqn:Hcap; [left; right; by eexists|].
  rewrite sub_slice_Ret by lia. right. set (out := take _ _).
  assert (Hout : length out = 1%nat) by (unfold out; rewrite length_take, length_drop; lia).
  destruct out as [|o [|? ?]]; [done| |done]. eexists. split; [reflexivity|].
  split; [intros e; right; by eexists|]. intros slices tl Hs. cbn -[copy_slices read_frame_loop list_inserts].
  destruct tl as [|x tl].
  2: { rewrite copy_slices_overflow by (rewrite ?Hs; simpl; lia). by left. }
  rewrite copy_slices_concat by (rewrite ?Hs; simpl; lia). rewrite Hs. subst fuel1.
  cbn -[parse_frame_ list_inserts].
  rewrite list_inserts_split by (simpl; lia). change (Z.to_nat 4) with 4%nat. rewrite Ht.
  cbn -[parse_frame_].
  change (take (Z.to_nat 0) [o] ++ 95 :: drop (Z.to_nat 0 + 1) [o]) with [95].
  change ([95] ++ ?rest) with (95 :: rest). rewrite parse_fifth by done. right. destruct (max_size <? 5); by eexists.
Qed.

Lemma parse_magic magic max_size :
  length magic = 4%nat → (max_size <? 4) = false →
  (∃ a, magic = [95; 27; 1; a] ∧ (a = 105 ∨ a = 65 ∨ a = 74 ∨ a = 99)) ∨
  parse_frame_ crc16 crc32 magic max_size = Done (Err PInvalidMagic).
Proof.
  intros Hl Hm. destruct (decide (magic ≠ K_INVITE_MAGIC ∧ magic ≠ K_ACCEPT_MAGIC ∧
    magic ≠ K_CONFRM_MAGIC ∧ magic ≠ K_REJECT_MAGIC)) as [Hn|Hn].
  - right. destruct magic as [|? [|? [|? [|? [|]]]]]; try done.
    unfold parse_frame_. simpl. rewrite Hm. by rewrite bool_decide_eq_true_2.
  - left. unfold K_INVITE_MAGIC, K_ACCEPT_MAGIC, K_CONFRM_MAGIC, K_REJECT_MAGIC in Hn.
    destruct (decide (magic = [95; 27; 1; 105])); [by eauto|].
    destruct (decide (magic = [95; 27; 1; 65])); [by eauto|].
    destruct (decide (magic = [95; 27; 1; 99])); [by eauto 6|].
    destruct (decide (magic = [95; 27; 1; 74])); [by eauto 6|]. tauto.
Qed.

Lemma read_first max_size :
  frameless (read_frame max_size) ∨ reads (Range 4 5) first_reply (read_frame max_size).
Proof.
  unfold read_frame_async_. change 65%nat with (S (S (S 62))).
  remember (S (S 62)) as fuel eqn:Ef. cbn [read_frame_loop].
  change (parse_frame_ crc16 crc32 (take (Z.to_nat 0) zero_frame) max_size)
    with (Done (Err (E := ParseFrameError) (A := ParsedFrame * Z) (NeedMore 4))).
  cbn [pure_exec mbind proc_bind].
  destruct (Z.min max_size K_MAX_HANDSHAKE_FRAME <? 4) eqn:Hcap; [left; right; by eexists|].
  assert (Hm : (max_size <? 4) = false) by (unfold K_MAX_HANDSHAKE_FRAME in *; lia).
  change (sub_slice zero_frame 0 4) with (Ret [0; 0; 0; 0]). right.
  eexists. split; [reflexivity|]. split; [intros e; right; by eexists|].
  intros slices Hne. cbn -[copy_slices read_frame_loop list_inserts zero_frame].
  destruct (decide (length (concat slices) ≤ 4)%nat) as [Hle|Hgt].
  2: { rewrite copy_slices_overflow by (simpl; lia). left. by left. }
  rewrite copy_slices_concat by (simpl; lia).
  cbn -[read_frame_loop list_inserts zero_frame drop take].
  change (Z.to_nat 0) with 0%nat. rewrite take_0, app_nil_l, Nat.add_0_l.
  set (m := concat slices ++ drop (length (concat slices)) [0; 0; 0; 0]).
  assert (Hml : length m = 4%nat) by (unfold m; rewrite length_app, length_drop; simpl; lia).
  rewrite list_inserts_split by (rewrite Hml; unfold zero_frame; rewrite length_replicate;
    unfold K_MAX_HANDSHAKE_FRAME; lia).
  rewrite take_0, app_nil_l, Hml, Nat.add_0_l.
  destruct (parse_magic m max_size Hml Hm) as [(a & Ha & Hcase)|Hbad].
  - subst fuel. destruct (read_loop_second 62 max_size a (m ++ drop 4 zero_frame) Hcase)
      as [?|?]; [by rewrite length_app, Hml|by rewrite Ha|by left|right]. split; [|done].
    destruct (concat slices) as [|x tl] eqn:E; [done|]. exists tl. f_equal.
    unfold m in Ha. simpl in Ha. congruence.
  - subst fuel. left. right. cbn [read_frame_loop]. rewrite take_app_length' by done.
    rewrite Hbad. by eexists.
Qed.

(** No frame is ever read. *)
Lemma doomed_read_frame {B} max_size
    (f : ParsedFrame → proc RE WE (result (HandshakeError RE WE) B)) inbox :
  doomed (r ← read_frame max_size; try_ r f) inbox.
Proof.
  destruct (read_first max_size) as [?|(k & -> & He & Hk)];
    [by apply doomed_frameless, frameless_try|]. simpl. apply doomed_steps; [done|].
  intros more p' Hs. inversion Hs as [? ? ? slices n Hn Hc| | |]; subst; [|right|by left];
    [|by apply doomed_frameless, frameless_try].
  right. set (input := inbox ++ more) in *.
  destruct (Hk slices) as [?|[[tl Htl] (k2 & -> & He2 & Hk2)]];
    [|by apply doomed_frameless, frameless_try|].
  { rewrite Hc. intros H0%(f_equal length). rewrite length_take in H0. simpl in H0. lia. }
  simpl. apply doomed_steps; [done|]. clear Hs. intros more2 p' Hs.
  inversion Hs as [? ? ? slices2 n2 Hn2 Hc2| | |]; subst; [|right|by left];
    [|by apply doomed_frameless, frameless_try].
  right. apply doomed_frameless, frameless_try.
  assert (∃ x l, input = x :: l) as (x & l & Hin)
    by (destruct input; [simpl in Hn; lia|by eauto]).
  rewrite Hin in Hc, Hc2. rewrite Htl in Hc.
  destruct (Z.to_nat n) eqn:E1; [lia|]. destruct (Z.to_nat n2) eqn:E2; [lia|].
  simpl in Hc, Hc2. injection Hc as <- _. by eapply Hk2.
Qed.

Lemma doomed_write_frame {B} m values
    (f : result (HandshakeError RE WE) unit → proc RE WE (result (HandshakeError RE WE) B))
    inbox :
  (∀ r more, doomed (f r) (inbox ++ more)) → doomed (write_frame m values ≫= f) inbox.
Proof.
  intros Hf. assert (H0 : ∀ r, doomed (f r) inbox)
    by (intros r; specialize (Hf r []); by rewrite app_nil_r in Hf).
  unfold write_frame_async_. destruct (build_frame_ _ _ _ _) as [[buf len]|]; [|apply H0].
  destruct (exactly len) as [d|]; simpl; [|by apply doomed_frameless; left].
  apply doomed_steps; [done|]. intros more p' Hs.
  inversion Hs as [| |? ? ? ? r|]; subst; [right|by left].
  destruct r as [room|e]; [|apply Hf]. destruct (_ =? len); [apply Hf|].
  by apply doomed_frameless; left.
Qed.
End view.

(** C3: over the readers of the workspace no handshake is ever established.  Their
    segments keep the contract of [abs_buff]: what is lent are the next bytes, at least
    one, and the stream advances by what is moved out of a segment, not by what is
    viewed; and the endpoints only view.  Then neither end of a handshake ends with
    options, whatever the INVITE, the local options, the size limit and the decisions,
    whatever bytes arrive and however they are cut, lent or failed: every read starts
    again at the first byte of the stream, so that the fifth byte of a frame is taken for
    the first of its magic, which is the key of no option. *)
Theorem handshake_never_established {RE WE} (rtag : RE → ReadErrTag) (wtag : WE → WriteErrTag)
    crc16 crc32 invite local max_size decide_ inbox opts rest :
  ¬ rtc view_step
      (initiate_handshake rtag wtag crc16 crc32 (agent_new max_size) invite decide_, inbox)
      (PDone (Ok opts), rest) ∧
  ¬ rtc view_step
      (accept_handshake rtag wtag crc16 crc32 (listener_new max_size) local decide_, inbox)
      (PDone (Ok opts), rest).
Proof.
  split.
  - revert opts rest. fold (doomed (initiate_handshake rtag wtag crc16 crc32
      (agent_new max_size) invite decide_) inbox).
    unfold initiate_handshake, initiate_handshake_async_.
    destruct (propose _ _ _) as [proposed|e]; [|by apply doomed_frameless; right; eexists].
    apply doomed_write_frame. intros [[]|e] more; [apply doomed_read_frame|].
    by apply doomed_frameless; right; eexists.
  - revert opts rest. apply doomed_read_frame.
Qed.

(** An INVITE of which the first four bytes are lent, then one: the listener fails with
    [UnsupportedOption], and the bytes are still there. *)
Lemma handshake_never_established_witness :
  let invite := [95; 27; 1; 105; 0; 16; 0x1C; 0; 0] in
  let accept := accept_handshake (λ e : ReadErrTag, e) (λ e : WriteErrTag, e) (λ _, 0) (λ _, 0)
                  (listener_new 64) DEFAULT (λ _, true) in
  rtc view_step (accept, []) (PDone (Err UnsupportedOption), invite) ∧
  ∀ opts rest, ¬ rtc view_step (accept, []) (PDone (Ok opts), rest).
Proof.
  intros invite accept. split.
  - eapply rtc_l; [apply (view_arrive accept [] invite)|].
    eapply rtc_l; [refine (view_lent (Range 4 5) _ invite [[95; 27]; [1; 105]] 4 _ _)|];
      [split; by vm_compute|reflexivity|].
    eapply rtc_l; [refine (view_lent (Range 1 2) _ invite [[95]] 1 _ _)|];
      [split; by vm_compute|reflexivity|].
    apply rtc_refl.
  - intros opts rest. apply (handshake_never_established (λ e : ReadErrTag, e)
      (λ e : WriteErrTag, e) (λ _, 0) (λ _, 0) [] DEFAULT 64 (λ _, true) [] opts rest).
Defined.

(** A handshake cannot be read through the circular buffer.  If the reads of
    an endpoint are granted as [try_read_at] grants them, and at least five bytes
    of a frame have arrived, then reading the frame panics: the request for the
    four bytes of the magic, [Demand::exactly(4)], is lent five, which do not
    fit the four bytes they are copied to. *)
Theorem ring_read_frame_panics {RE WE} `{t : Transport} (rtag : RE → ReadErrTag)
    crc16 crc32 s cap max_size input sent :
  pos_wf (unpack s cap) → data_size (unpack s cap) = Z.of_nat (length input) →
  5 ≤ Z.of_nat (length input) → 4 ≤ max_size →
  (∀ d, t_grant d (Z.of_nat (length input)) =
        match try_read_at_word s cap d with Ret (Ok (_, take)) => Some take | _ => None end) →
  (∀ l, concat (t_slices l) = l) →
  run (read_frame_async_ (WE := WE) rtag crc16 crc32 max_size) input sent = Crashed.
Proof.
  intros Hwf Hds Hin Hmax Hgrant Hcat. unfold read_frame_async_.
  destruct (read_loop_first (WE := WE) rtag crc16 crc32 64 max_size Hmax)
    as (k & -> & Hk). cbn [run]. rewrite Hgrant.
  assert (Hd : demand_wf (Range 4 5)) by by vm_compute.
  destruct (try_read_at_word_cases s cap (Range 4 5) Hwf Hd)
    as [[? ?]|[(? & _)|[(_ & _ & _ & ->)|(_&_&?&_)]]]; try (cbn in *; lia).
  rewrite Hk; [done|]. rewrite Hcat, length_take. change (max_len (Range 4 5)) with 5. lia.
Qed.

Lemma ring_read_frame_panics_witness :
  let s := pack (mkIoPos false 0 7 16) 0 in
  let t := {| t_grant d _ := match try_read_at_word s 16 d with
                             | Ret (Ok (_, take)) => Some take | _ => None end;
              t_slices l := [l]; t_consume _ offset := offset;
              t_room _ := 16 |} in
  run (t := t) (read_frame_async_ (WE := unit) (λ e : ReadErrTag, e) (λ _, 0) (λ _, 0) 64)
    [95; 27; 1; 105; 28; 0; 0] [] = Crashed.
Proof.
  intros s t.
  refine (ring_read_frame_panics (t := t) (λ e : ReadErrTag, e) (λ _, 0) (λ _, 0)
            s 16 64 [95; 27; 1; 105; 28; 0; 0] [] _ _ _ _ _ _).
  - by vm_compute.
  - reflexivity.
  - simpl; lia.
  - lia.
  - done.
  - intros l. apply app_nil_r.
Defined.

(** ** Termination of the frame loops *)

(** A process that never exhausts its fuel, whatever its transport replies. *)
Inductive never_starves {RE WE A} : proc RE WE A → Prop :=
| starve_done a : never_starves (PDone a)
| starve_panic : never_starves PPanic
| starve_read d k : (∀ r, never_starves (k r)) → never_starves (PRead d k)
| starve_write d bytes k : (∀ r, never_starves (k r)) → never_starves (PWrite d bytes k).

Create HintDb starve.
#[export] Hint Constructors never_starves : starve.

Section starve.
Context {RE WE : Type}.
Variables (rtag : RE → ReadErrTag) (wtag : WE → WriteErrTag).
Variables crc16 crc32 : list Z → Z.

Lemma starve_bind {A B} (p : proc RE WE A) (f : A → proc RE WE B) :
  never_starves p → (∀ a, never_starves (f a)) → never_starves (p ≫= f).
Proof. intros Hp Hf. induction Hp as [a| |d k _ IH|d b k _ IH]; simpl; [apply Hf|constructor|..];
  constructor; intros r; apply IH. Qed.

Lemma starve_pure {A} (o : outcome A) : never_starves (RE := RE) (WE := WE) (pure o).
Proof. destruct o; simpl; auto with starve. Qed.
#[local] Hint Resolve starve_bind starve_pure : starve.

Lemma starve_read_exact out {B}
    (f : result RE (list Z) → proc RE WE B) :
  (∀ e, never_starves (f (Err e))) →
  (∀ bs, length bs = length out → never_starves (f (Ok bs))) →
  never_starves (read_exact_into_ out ≫= f).
Proof.
  intros He Hok. unfold read_exact_into_.
  destruct (Nat.eqb_spec (length out) 0); [by apply Hok|].
  destruct (exactly _); simpl; [|constructor]. constructor. intros [slices|e]; simpl.
  - destruct (copy_slices out 0 slices) eqn:E; simpl; [|constructor].
    apply Hok. by eapply copy_slices_length.
  - apply He.
Qed.

Lemma starve_read_loop fuel : ∀ max_size buf len,
  Z.of_nat (length buf) = K_MAX_HANDSHAKE_FRAME → 0 ≤ len ≤ K_MAX_HANDSHAKE_FRAME →
  K_MAX_HANDSHAKE_FRAME - len < Z.of_nat fuel →
  never_starves (read_frame_loop (WE := WE) rtag crc16 crc32 fuel max_size buf len).
Proof.
  induction fuel as [|fuel IH]; intros max_size buf len Hb Hl Hf; [lia|]. simpl.
  destruct (parse_frame_answer crc16 crc32 (take (Z.to_nat len) buf) max_size)
    as (r & -> & Hr). simpl. rewrite length_take in Hr.
  destruct r as [[f n]|[need| | | | |]]; try constructor.
  destruct (Z.ltb_spec (Z.min max_size K_MAX_HANDSHAKE_FRAME) need); [constructor|].
  rewrite sub_slice_Ret by lia. simpl.
  apply starve_read_exact; [constructor|].
  intros bs Hbs. apply IH; [|lia..]. by rewrite length_inserts.
Qed.

Lemma starve_read_frame max_size :
  never_starves (read_frame_async_ (WE := WE) rtag crc16 crc32 max_size).
Proof. apply starve_read_loop; [by vm_compute|unfold K_MAX_HANDSHAKE_FRAME; lia..]. Qed.

Lemma starve_write_frame m values :
  never_starves (write_frame_async_ (RE := RE) wtag crc16 m values).
Proof.
  unfold write_frame_async_. destruct (build_frame_ _ _ _ _) as [[buf len]|]; [|constructor].
  apply starve_bind; [apply starve_pure|]. intros d. constructor. intros [room|e]; [|constructor].
  destruct (_ =? _); constructor.
Qed.
End starve.
#[export] Hint Resolve starve_pure starve_read_frame starve_write_frame : starve.

Lemma starve_try {RE WE A B} (r : result (HandshakeError RE WE) A)
    (f : A → proc RE WE (result (HandshakeError RE WE) B)) :
  (∀ a, never_starves (f a)) → never_starves (try_ r f).
Proof. destruct r; simpl; auto with starve. Qed.

Ltac starve_step :=
  cbv zeta;
  match goal with
  | |- never_starves (if ?b then _ else _) => destruct b
  | |- never_starves (match ?o with Some _ => _ | None => _ end) => destruct o
  | |- never_starves (try_ _ _) => apply starve_try; intros ?
  | |- never_starves (_ ≫= _) => apply starve_bind; [auto with starve|intros ?]
  | |- never_starves (PDone _) => constructor
  end.

(** C32: no endlessly growing frame.  Whatever the peer and the transport do
    (errors, short or long segments, arbitrary bytes), neither end of a handshake
    exhausts the 65 rounds of a frame read: every execution is a finite
    sequence of reads and writes that ends in an answer or a panic. *)
Theorem handshake_terminates {RE WE} (rtag : RE → ReadErrTag) (wtag : WE → WriteErrTag)
    crc16 crc32 invite local max_size decide_ :
  never_starves (initiate_handshake rtag wtag crc16 crc32 (agent_new max_size) invite decide_) ∧
  never_starves (accept_handshake rtag wtag crc16 crc32 (listener_new max_size) local decide_).
Proof.
  unfold initiate_handshake, accept_handshake, initiate_handshake_async_,
    accept_handshake_async_, reject_with.
  split; repeat starve_step.
Qed.
