(* ===== verification/Vfs.v ===== *)
(** * The in-memory file-system tree

    Models [crates/mem_vfs/src] ([tree_node_.rs], [opr_.rs]): names, nodes,
    directories with their two maps, and the tree with its lookups.  A [BTreeMap] is
    a finite map on the keys up to their order; a name is ordered by its octets but
    compared by the address of its allocation. *)

From S2P Require Import Prelude.

(** ** Names *)

(** [NodeId], a [u64]. *)
Definition NodeId : Type := Z.
Definition root_id : NodeId := 0.

(** [NameSegm]: an [Arc<[u8]>], its address and its content; a clone shares both. *)
Record NameSegm : Type := mkName { arc : Z; octets_ : list Z }.

Definition root_name (arc : Z) : NameSegm := mkName arc [].
Definition as_bytes (n : NameSegm) : list Z := octets_ n.

(** [PartialEq]: the same slice; [Ord]: the octets. *)
Definition name_eq (a b : NameSegm) : bool :=
  (arc a =? arc b) && (Z.of_nat (length (octets_ a)) =? Z.of_nat (length (octets_ b))).
Fixpoint cmp_octets (a b : list Z) : comparison :=
  match a, b with
  | [], [] => Eq
  | [], _ :: _ => Lt
  | _ :: _, [] => Gt
  | x :: a, y :: b => match x ?= y with Eq => cmp_octets a b | c => c end
  end.
Definition name_cmp (a b : NameSegm) : comparison := cmp_octets (octets_ a) (octets_ b).

Lemma cmp_octets_eq a b : cmp_octets a b = Eq ↔ a = b.
Proof.
  revert b. induction a as [|x a IH]; intros [|y b]; simpl; try done.
  destruct (Z.compare_spec x y) as [->|H|H].
  - rewrite IH. split; [by intros ->|by intros [= ->]].
  - split; [done|]. intros [= -> ->]. lia.
  - split; [done|]. intros [= -> ->]. lia.
Qed.

(** ** Directories *)

Record NodeBase : Type := mkBase {
  node_id_ : NodeId;
  parent_node_id_ : NodeId;
  link_count_ : Z;
  name_ : NameSegm;
}.
Definition base_new (id parent : NodeId) (name : NameSegm) : NodeBase := mkBase id parent 0 name.

(** [DirNameIdMap], on the octets of the key and with the key that was stored, and
    [DirIdNameMap]. *)
Record LocalDirNode : Type := mkDir {
  dir_base_ : NodeBase;
  name_id_ : gmap (list Z) (NameSegm * NodeId);
  id_name_ : gmap NodeId NameSegm;
}.
Implicit Types d : LocalDirNode.

Definition dir_new (id parent : NodeId) (name : NameSegm) : LocalDirNode :=
  mkDir (base_new id parent name) ∅ ∅.
Definition dir_root (arc : Z) : LocalDirNode := dir_new root_id root_id (root_name arc).

(** [Dentry]: the name and the id. *)
Definition Dentry : Type := NameSegm * NodeId.

(** [BTreeMap::insert] on a map of names: a key that is there is kept. *)
Definition name_insert (name : NameSegm) (id : NodeId) (m : gmap (list Z) (NameSegm * NodeId)) :
    option NodeId * gmap (list Z) (NameSegm * NodeId) :=
  match m !! octets_ name with
  | Some (key, old) => (Some old, <[octets_ name := (key, id)]> m)
  | None => (None, <[octets_ name := (name, id)]> m)
  end.

Definition get_dentry_by_id d (id : NodeId) : option Dentry :=
  name ← id_name_ d !! id;
  '(_, id) ← name_id_ d !! octets_ name;
  Some (name, id).

Definition get_dentry_by_name d (name : NameSegm) : outcome (option Dentry) :=
  match name_id_ d !! octets_ name with
  | Some (_, id) =>
      match id_name_ d !! id with
      | Some name => Ret (Some (name, id))
      | None => Panic
      end
  | None => Ret None
  end.

Definition remove_child_by_id d (id : NodeId) : bool * LocalDirNode :=
  match id_name_ d !! id with
  | Some name =>
      (bool_decide (is_Some (name_id_ d !! octets_ name)),
       mkDir (dir_base_ d) (delete (octets_ name) (name_id_ d)) (delete id (id_name_ d)))
  | None => (false, d)
  end.

Definition insert_child d (id : NodeId) (name : NameSegm) :
    option (result NameSegm NodeId) * LocalDirNode :=
  let '(r1, names) := name_insert name id (name_id_ d) in
  match r1 with
  | Some _ =>
      let ids := <[id := name]> (id_name_ d) in
      match id_name_ d !! id with
      | Some _ => (None, mkDir (dir_base_ d) names ids)
      | None => (Some (Ok id), mkDir (dir_base_ d) (delete (octets_ name) names) ids)
      end
  | None => (Some (Err name), mkDir (dir_base_ d) names (id_name_ d))
  end.

(** ** Nodes and the tree *)

Inductive NodeType : Type := Device | LocalDirT | LocalFileT | MountPoint.

Inductive FsTreeNode : Type :=
| LocalDir (dir : LocalDirNode)
| LocalFile (base : NodeBase).

Definition node_base (n : FsTreeNode) : NodeBase :=
  match n with LocalDir d => dir_base_ d | LocalFile b => b end.
Definition node_type (n : FsTreeNode) : NodeType :=
  match n with LocalDir _ => LocalDirT | LocalFile _ => LocalFileT end.
Definition is_dir (n : FsTreeNode) : bool :=
  match n with LocalDir _ => true | LocalFile _ => false end.
Definition node_id (n : FsTreeNode) : NodeId := node_id_ (node_base n).
Definition parent (n : FsTreeNode) : NodeId := parent_node_id_ (node_base n).
Definition link_count (n : FsTreeNode) : Z := link_count_ (node_base n).
Definition name (n : FsTreeNode) : NameSegm := name_ (node_base n).

Inductive FsOprError : Type :=
| NodeIsDir (id : NodeId)
| NodeIsFile (id : NodeId)
| InvalidNodeId (id : NodeId)
| InvalidPath (index : Z).

(** [FsTree]; an [INode] shares the node it was made of. *)
Record FsTree : Type := mkTree { id_node_map_ : gmap NodeId FsTreeNode }.
Implicit Types t : FsTree.

Definition fs_new_in (arc : Z) : FsTree := mkTree {[ root_id := LocalDir (dir_root arc) ]}.

Definition get_inode_by_id t (id : NodeId) : result FsOprError FsTreeNode :=
  match id_node_map_ t !! id with Some node => Ok node | None => Err (InvalidNodeId id) end.

Definition get_inode_name t (id : NodeId) : result FsOprError NameSegm :=
  match id_node_map_ t !! id with Some node => Ok (name node) | None => Err (InvalidNodeId id) end.

Definition get_path t (id : NodeId) : result FsOprError (list NameSegm) :=
  Err (InvalidNodeId id).

(** The loop of [find_inode_with_path_async_]: [segms] are the segments from
    [segm_index] on. *)
Fixpoint find_loop t (curr_id : NodeId) (curr_node : FsTreeNode) (segm_index : Z)
    (segms : list NameSegm) : outcome (result FsOprError FsTreeNode) :=
  match segms with
  | [] => Ret (Err (InvalidPath segm_index))
  | segm_name :: segms =>
      if negb (is_dir curr_node) then Ret (Err (NodeIsFile curr_id))
      else
        match curr_node with
        | LocalDir dir =>
            dentry ← get_dentry_by_name dir segm_name;
            match dentry with
            | None => Ret (Err (InvalidPath segm_index))
            | Some (_, id) =>
                match id_node_map_ t !! id with
                | None => Ret (Err (InvalidNodeId id))
                | Some child_node => find_loop t id child_node (segm_index + 1) segms
                end
            end
        | LocalFile _ => Panic
        end
  end.

Definition find_inode_with_path_async_ t (root_id : NodeId) (path : list NameSegm) :
    outcome (result FsOprError FsTreeNode) :=
  match id_node_map_ t !! root_id with
  | None => Ret (Err (InvalidNodeId root_id))
  | Some curr_node =>
      match path with
      | [] => Ret (Ok curr_node)
      | _ => find_loop t root_id curr_node 0 path
      end
  end.

(** ** Consistent directories *)

(** The two maps are each other's inverse. *)
Record dir_ok d : Prop := {
  names_have_ids k key id :
    name_id_ d !! k = Some (key, id) → ∃ n, id_name_ d !! id = Some n ∧ octets_ n = k;
  ids_have_names id n :
    id_name_ d !! id = Some n → ∃ key, name_id_ d !! octets_ n = Some (key, id);
}.

(** What a directory is for: the children, by id. *)
Definition children d : gmap NodeId (list Z) := octets_ <$> id_name_ d.

Lemma children_lookup d id k :
  children d !! id = Some k ↔ ∃ n, id_name_ d !! id = Some n ∧ octets_ n = k.
Proof. unfold children. rewrite lookup_fmap_Some. split; intros (n & H & H'); by exists n. Qed.

Lemma dir_new_ok id p n : dir_ok (dir_new id p n).
Proof. constructor; intros *; simpl; by rewrite lookup_empty. Qed.

Lemma names_inj d id1 id2 k :
  dir_ok d → children d !! id1 = Some k → children d !! id2 = Some k → id1 = id2.
Proof.
  intros Hd (n1 & H1 & <-)%children_lookup (n2 & H2 & E)%children_lookup.
  destruct (ids_have_names d Hd _ _ H1) as [k1 Hk1].
  destruct (ids_have_names d Hd _ _ H2) as [k2 Hk2]. rewrite E in Hk2. congruence.
Qed.

Lemma by_name_spec d n :
  dir_ok d →
  ∃ e, get_dentry_by_name d n = Ret e ∧
    match e with
    | Some (n', id) => octets_ n' = octets_ n ∧ children d !! id = Some (octets_ n)
    | None => ∀ id, children d !! id ≠ Some (octets_ n)
    end.
Proof.
  intros Hd. unfold get_dentry_by_name.
  destruct (name_id_ d !! octets_ n) as [[key id]|] eqn:E.
  - destruct (names_have_ids d Hd _ _ _ E) as (m & Hm & Ho). rewrite Hm.
    eexists. split; [done|]. split; [done|]. apply children_lookup. eauto.
  - eexists. split; [done|]. intros id (m & Hm & Ho)%children_lookup.
    destruct (ids_have_names d Hd _ _ Hm) as [key Hk]. congruence.
Qed.

Lemma by_id_spec d id :
  dir_ok d → get_dentry_by_id d id = (λ n, (n, id)) <$> id_name_ d !! id.
Proof.
  intros Hd. unfold get_dentry_by_id. destruct (id_name_ d !! id) as [n|] eqn:E; [|done].
  simpl. destruct (ids_have_names d Hd _ _ E) as [key ->]. done.
Qed.

(** The lookup by id finds exactly the children, and the lookup by name finds what it
    answers. *)
Lemma by_id_exact d id :
  dir_ok d →
  match get_dentry_by_id d id with
  | Some (n', id') => id' = id ∧ children d !! id = Some (octets_ n') ∧
      get_dentry_by_name d n' = Ret (Some (n', id))
  | None => children d !! id = None
  end.
Proof.
  intros Hd. rewrite by_id_spec by done. unfold children, get_dentry_by_name.
  rewrite lookup_fmap. destruct (id_name_ d !! id) as [n|] eqn:E; [|done]. simpl.
  destruct (ids_have_names d Hd _ _ E) as [key ->]. by rewrite E.
Qed.

Lemma remove_spec d id :
  dir_ok d →
  let '(removed, d') := remove_child_by_id d id in
  dir_ok d' ∧ children d' = delete id (children d) ∧
  removed = bool_decide (is_Some (children d !! id)).
Proof.
  intros Hd. unfold remove_child_by_id, children. destruct (id_name_ d !! id) as [n|] eqn:E.
  - destruct (ids_have_names d Hd _ _ E) as [key Hk]. split; [|split]; simpl.
    + constructor; simpl.
      * intros k key' id' [Hne Hl]%lookup_delete_Some.
        destruct (names_have_ids d Hd _ _ _ Hl) as (m & Hm & Ho). exists m.
        split; [|done]. apply lookup_delete_Some. split; [|done]. intros <-. congruence.
      * intros id' m [Hne Hl]%lookup_delete_Some.
        destruct (ids_have_names d Hd _ _ Hl) as [key' Hk']. exists key'.
        apply lookup_delete_Some. split; [|done]. intros Eo. rewrite Eo in Hk. congruence.
    + apply fmap_delete.
    + rewrite lookup_fmap, E, Hk. by rewrite !bool_decide_true by by eexists.
  - split; [done|]. rewrite lookup_fmap, E. split; [|by rewrite bool_decide_false; [|intros [? ?]]].
    rewrite delete_id; [done|]. by rewrite lookup_fmap, E.
Qed.

(** C40: In a directory whose two maps agree, a lookup by name finds the child with
    those octets and only it, a lookup by id finds the child with that id and only it,
    each answer is found again by the other lookup, neither meets a broken entry, and a
    removal takes out the child and nothing else, keeps the maps in agreement and says
    whether there was one. *)
Theorem directory_exact d n id :
  dir_ok d →
  (∃ e, get_dentry_by_name d n = Ret e ∧
    match e with
    | Some (n', id) => octets_ n' = octets_ n ∧ children d !! id = Some (octets_ n) ∧
        get_dentry_by_id d id = Some (n', id)
    | None => ∀ id, children d !! id ≠ Some (octets_ n)
    end) ∧
  match get_dentry_by_id d id with
  | Some (n', id') => id' = id ∧ children d !! id = Some (octets_ n') ∧
      get_dentry_by_name d n' = Ret (Some (n', id))
  | None => children d !! id = None
  end ∧
  (let '(removed, d') := remove_child_by_id d id in
   dir_ok d' ∧ children d' = delete id (children d) ∧
   removed = bool_decide (is_Some (children d !! id))).
Proof.
  intros Hd. split; [|split; [by apply by_id_exact|by apply remove_spec]].
  destruct (by_name_spec d n Hd) as (e & He & Hs). exists e. split; [done|].
  destruct e as [[n' id']|]; [|done]. destruct Hs as [Ho Hc]. split; [done|]. split; [done|].
  rewrite by_id_spec by done. revert He. unfold get_dentry_by_name.
  destruct (name_id_ d !! octets_ n) as [[key id'']|]; [|done].
  destruct (id_name_ d !! id'') as [m|] eqn:E; [|done]. intros [= -> ->]. by rewrite E.
Qed.

(** ** Insertions *)

(** [insert_child] links a child only when it is already there.  In a directory
    whose maps agree, the insertion of a new name is refused with that name, and it
    leaves the name behind: the next lookup by it panics.  The insertion of a name that
    is taken, with a new id, is reported as done: it unlinks the name, so that neither
    the old child nor the new one is found by it. *)
Theorem insert_child_links_nothing d id n :
  dir_ok d → children d !! id = None →
  let '(r, d') := insert_child d id n in
  if bool_decide (is_Some (name_id_ d !! octets_ n)) then
    r = Some (Ok id) ∧ get_dentry_by_name d' n = Ret None ∧ get_dentry_by_id d' id = None ∧
    ∀ id', children d !! id' = Some (octets_ n) → get_dentry_by_id d' id' = None
  else
    r = Some (Err n) ∧ get_dentry_by_name d' n = Panic ∧ get_dentry_by_id d' id = None.
Proof.
  intros Hd Hid. unfold children in Hid. rewrite lookup_fmap, fmap_None in Hid.
  unfold insert_child, name_insert.
  destruct (name_id_ d !! octets_ n) as [[key old]|] eqn:En; simpl.
  - rewrite Hid.
    unfold get_dentry_by_name, get_dentry_by_id. simpl.
    rewrite delete_insert_eq, !lookup_delete_eq, lookup_insert_eq. simpl.
    rewrite lookup_delete_eq. split; [done|]. split; [done|]. split; [done|].
    intros id' (m & Hm & Ho)%children_lookup.
    rewrite lookup_insert_ne by congruence. rewrite Hm. simpl.
    by rewrite Ho, lookup_delete_eq.
  - unfold get_dentry_by_name, get_dentry_by_id. simpl.
    by rewrite lookup_insert_eq, Hid.
Qed.

Lemma insert_child_links_nothing_witness :
  let d := dir_root 100 in
  let n := mkName 104 [116; 109; 112] in
  insert_child d 7 n = (Some (Err n), (insert_child d 7 n).2) ∧
  get_dentry_by_name (insert_child d 7 n).2 n = Panic.
Proof.
  intros d n.
  pose proof (insert_child_links_nothing d 7 n (dir_new_ok _ _ _) eq_refl) as H.
  destruct (insert_child d 7 n) as [r d'] eqn:E. simpl in H.
  destruct H as (-> & Hp & _). exact (conj eq_refl Hp).
Defined.

(** Three calls in a row link a child: the first one leaves the name, the second one
    the id, and the third one, which is refused too, the name again. *)
Example insert_child_three_times :
  let n := mkName 104 [116; 109; 112] in
  let '(r1, d1) := insert_child (dir_root 100) 7 n in
  let '(r2, d2) := insert_child d1 7 n in
  let '(r3, d3) := insert_child d2 7 n in
  (r1, r2, r3) = (Some (Err n), Some (Ok 7), Some (Err n)) ∧
  get_dentry_by_name d3 n = Ret (Some (n, 7)).
Proof. vm_compute. done. Qed.

(** ** Paths *)

(** The node a path leads to, segment by segment. *)
Inductive resolves t : NodeId → list NameSegm → FsTreeNode → Prop :=
| resolves_here id node : id_node_map_ t !! id = Some node → resolves t id [] node
| resolves_in id d n segms key child node :
    id_node_map_ t !! id = Some (LocalDir d) → name_id_ d !! octets_ n = Some (key, child) →
    resolves t child segms node → resolves t id (n :: segms) node.

Definition tree_ok t : Prop := ∀ id d, id_node_map_ t !! id = Some (LocalDir d) → dir_ok d.

Lemma find_loop_fails t : ∀ segms id node i r,
  find_loop t id node i segms = Ret r → is_ok r = false.
Proof.
  induction segms as [|n segms IH]; intros id node i r; simpl; [by intros [= <-]|].
  destruct node as [d|b]; simpl; [|by intros [= <-]].
  destruct (get_dentry_by_name d n) as [[[n' c]|]|]; simpl; [| by intros [= <-]|done].
  destruct (id_node_map_ t !! c); [by apply IH|by intros [= <-]].
Qed.

Lemma find_loop_resolves t id segms node :
  tree_ok t → resolves t id segms node → ∀ i n0,
  id_node_map_ t !! id = Some n0 → find_loop t id n0 i segms = Ret (Err (InvalidPath (i + Z.of_nat (length segms)))).
Proof.
  intros Ht. induction 1 as [id node _|id d n segms key child node Hid Hn Hr IH]; intros i n0 H0; simpl.
  { by rewrite Z.add_0_r. }
  assert (n0 = LocalDir d) as -> by congruence. simpl.
  destruct (names_have_ids d (Ht _ _ Hid) _ _ _ Hn) as (m & Hm & _).
  unfold get_dentry_by_name. rewrite Hn, Hm. simpl.
  assert (∃ c, id_node_map_ t !! child = Some c) as [c Hc] by (destruct Hr; by eexists).
  rewrite Hc, (IH (i + 1) c Hc). do 3 f_equal. lia.
Qed.

Lemma find_loop_total t : ∀ segms id node i,
  tree_ok t → id_node_map_ t !! id = Some node → find_loop t id node i segms ≠ Panic.
Proof.
  induction segms as [|n segms IH]; intros id node i Ht Hid; simpl; [done|].
  destruct node as [d|b]; simpl; [|done].
  destruct (by_name_spec d n (Ht _ _ Hid)) as (e & -> & _). simpl.
  destruct e as [[n' c]|]; [|done]. destruct (id_node_map_ t !! c) eqn:E; [by apply IH|done].
Qed.

(** [find_inode_async] finds the root of the search and nothing else: a path with
    a segment in it is answered by an error, also when it leads to a node, and that
    error is then [InvalidPath] at the length of the path.  In a tree whose directories
    are consistent it does not panic. *)
Theorem find_inode_never_descends t id path :
  (∀ node, find_inode_with_path_async_ t id path = Ret (Ok node) →
     path = [] ∧ id_node_map_ t !! id = Some node) ∧
  (tree_ok t → find_inode_with_path_async_ t id path ≠ Panic ∧
     ∀ node, resolves t id path node → path ≠ [] →
     find_inode_with_path_async_ t id path = Ret (Err (InvalidPath (Z.of_nat (length path))))).
Proof.
  unfold find_inode_with_path_async_. split.
  - intros node. destruct (id_node_map_ t !! id) as [n0|] eqn:E; [|done].
    destruct path as [|n path]; [by intros [= ->]|]. intros H%find_loop_fails. done.
  - intros Ht. destruct (id_node_map_ t !! id) as [n0|] eqn:E.
    + split; [destruct path; [done|by apply find_loop_total]|].
      intros node Hr Hne. destruct path as [|n path]; [done|].
      by rewrite (find_loop_resolves t id (n :: path) node Ht Hr 0 n0 E).
    + split; [done|]. intros node Hr. destruct Hr; congruence.
Qed.

(** A root with one file, [tmp]. *)
Definition tmp_name : NameSegm := mkName 104 [116; 109; 112].
Definition tmp_tree : FsTree :=
  mkTree (<[7 := LocalFile (base_new 7 0 tmp_name)]>
    {[ 0 := LocalDir (mkDir (base_new 0 0 (root_name 100))
         {[ [116; 109; 112] := (tmp_name, 7) ]} {[ 7 := tmp_name ]}) ]}).

Lemma tmp_tree_ok : tree_ok tmp_tree.
Proof.
  intros id d. simpl. rewrite lookup_insert_Some, lookup_singleton_Some.
  intros [[<- ?]|[_ [<- [= <-]]]]; [done|].
  constructor; simpl.
  - intros k key id [<- [= <- <-]]%lookup_singleton_Some. exists tmp_name. by split.
  - intros id n [<- <-]%lookup_singleton_Some. by exists tmp_name.
Qed.

Lemma find_inode_never_descends_witness :
  resolves tmp_tree 0 [tmp_name] (LocalFile (base_new 7 0 tmp_name)) ∧
  find_inode_with_path_async_ tmp_tree 0 [tmp_name] = Ret (Err (InvalidPath 1)).
Proof.
  assert (Hr : resolves tmp_tree 0 [tmp_name] (LocalFile (base_new 7 0 tmp_name))).
  { eapply (resolves_in _ 0 _ tmp_name); [vm_compute; reflexivity..|].
    apply resolves_here. vm_compute; reflexivity. }
  split; [exact Hr|].
  exact (proj2 (proj2 (find_inode_never_descends tmp_tree 0 [tmp_name]) tmp_tree_ok)
    _ Hr ltac:(discriminate)).
Defined.

Lemma directory_exact_witness :
  let d := mkDir (base_new 0 0 (root_name 100))
    {[ [116; 109; 112] := (tmp_name, 7) ]} {[ 7 := tmp_name ]} in
  get_dentry_by_name d (mkName 999 [116; 109; 112]) = Ret (Some (tmp_name, 7)) ∧
  get_dentry_by_id d 7 = Some (tmp_name, 7) ∧
  children (remove_child_by_id d 7).2 = delete 7 (children d).
Proof.
  intros d. assert (Hd : dir_ok d) by (apply (tmp_tree_ok 0 d); vm_compute; reflexivity).
  destruct (directory_exact d (mkName 999 [116; 109; 112]) 7 Hd)
    as [(e & He & _) [_ Hr]].
  destruct (remove_child_by_id d 7) as [removed d'] eqn:E.
  split; [vm_compute; reflexivity|]. split; [vm_compute; reflexivity|].
  exact (proj1 (proj2 Hr)).
Defined.

(** Two names with the same octets are equal for the maps and different for [==]. *)
Example same_octets_differ :
  name_cmp tmp_name (mkName 999 [116; 109; 112]) = Eq ∧
  name_eq tmp_name (mkName 999 [116; 109; 112]) = false.
Proof. by vm_compute. Qed.
