(* ===== verification/UnitTests.v ===== *)
(** * The unit tests of the pure components

    The [#[test]] functions of [crates/abs_buff/src/demand_.rs],
    [crates/buffex/src/circular_buff/tests_/pos_tests_.rs] and
    [crates/smux_v1/src/handshake/codec_.rs], translated one by one: the definitions
    of the library give the answers the authors wrote down. *)

From S2P Require Import Prelude Testing Demand IoPos HsOpts HsCodec.

(** ** [demand_.rs]: [try_from_usize_range_tests_] *)

Module RangeTests.

Definition min_max (d : Demand) : option Z * option Z := (min d, max d).

(** [Demand::try_from_usize_range(&range)], for the bounds of [range]. *)
Definition from_range (s e : Bound) : exec (result (Bound * Bound) Demand) :=
  lift (try_from_usize_range s e).

Definition demand_factory_test : exec unit :=
  demand ← lift (between 1 100);
  assert_eq (len demand) 99;;
  other ← from_range (Included 1) (Excluded 100);
  other ← unwrap_ok other;
  assert_eq (len other) (len demand);;
  d_min ← unwrap (min demand);
  o_min ← unwrap (min other);
  assert_eq d_min o_min;;
  d_max ← unwrap (max demand);
  o_max ← unwrap (max other);
  assert_eq d_max o_max.

Definition excatly_vs_between : exec unit :=
  a ← lift (between 1 2);
  b ← lift (exactly 1);
  assert_eq (len a) (len b);;
  a ← unwrap (min a);
  b ← unwrap (min b);
  assert_eq a b.

(** [assert_eq!(bounds(&demand), ...)] of the demand made from a range. *)
Definition range_gives (s e : Bound) (expected : option Z * option Z) : exec unit :=
  demand ← from_range s e;
  demand ← unwrap_ok demand;
  assert_eq (min_max demand) expected.
Definition range_fails (s e : Bound) : exec unit :=
  result ← from_range s e;
  assert (is_err result).

Definition full_range : exec unit :=
  range_gives Unbounded Unbounded (Some 0, Some USIZE_MAX).

Definition range_from : exec unit :=
  range_gives (Included 5) Unbounded (Some 5, Some USIZE_MAX);;
  range_gives (Included 0) Unbounded (Some 0, Some USIZE_MAX).

Definition range_to : exec unit :=
  range_gives Unbounded (Excluded 10) (Some 0, Some 10);;
  range_gives Unbounded (Included 10) (Some 0, Some 11);;
  range_fails Unbounded (Excluded 0).

Definition range_inclusive : exec unit :=
  range_gives (Included 5) (Included 10) (Some 5, Some 11);;
  range_gives (Included 5) (Included 5) (Some 5, Some 6).

Definition range_exclusive : exec unit :=
  range_gives (Included 5) (Excluded 10) (Some 5, Some 10);;
  range_gives (Included 0) (Excluded 1) (Some 0, Some 1);;
  range_fails (Included 5) (Excluded 5).

Definition custom_range_bounds : exec unit :=
  range_gives (Included 5) (Excluded 10) (Some 5, Some 10);;
  range_fails (Included 10) (Excluded 5).

Definition overflow_handling : exec unit :=
  range_fails (Included USIZE_MAX) Unbounded;;
  range_fails Unbounded (Excluded 0).

Definition empty_range_returns_err : exec unit :=
  range_fails (Included 1) (Excluded 1).

Definition error_returns_original_bounds : exec unit :=
  r ← from_range (Excluded 10) (Included 5);
  err ← unwrap_err r;
  assert (match err.1 with Excluded v => v =? 10 | _ => false end);;
  assert (match err.2 with Included v => v =? 5 | _ => false end).

Definition suite : list (exec unit) :=
  [demand_factory_test; excatly_vs_between; full_range; range_from; range_to;
   range_inclusive; range_exclusive; custom_range_bounds; overflow_handling;
   empty_range_returns_err; error_returns_original_bounds].

Theorem range_tests_pass : Forall passes suite.
Proof. run_tests. Qed.

End RangeTests.

(** ** [demand_.rs]: [compromise_tests_] *)

Module CompromiseTests.
Import RangeTests.

(** [a.compromise(&b).unwrap()] and its bounds; [a.compromise(&b).is_none()]. *)
Definition compromise_gives (a b : Demand) (expected : option Z * option Z) : exec unit :=
  c ← lift (compromise a b);
  c ← unwrap c;
  assert_eq (min_max c) expected.
Definition compromise_none (a b : Demand) : exec unit :=
  c ← lift (compromise a b);
  assert (is_none c).

Definition compromise_both_no_less_than : exec unit :=
  let a := at_least 5 in
  let b := at_least 10 in
  compromise_gives a b (Some 10, None);;
  compromise_gives b a (Some 10, None).

Definition compromise_both_no_more_than : exec unit :=
  let a := less_than 10 in
  let b := less_than 5 in
  compromise_gives a b (None, Some 5);;
  compromise_gives b a (None, Some 5).

Definition compromise_no_less_than_and_no_more_than : exec unit :=
  compromise_gives (at_least 5) (less_than 10) (Some 5, Some 10);;
  compromise_none (at_least 15) (less_than 10).

Definition compromise_no_less_than_and_between : exec unit :=
  let a := at_least 5 in
  b ← lift (between 1 8);
  compromise_gives a b (Some 5, Some 8);;
  compromise_none (at_least 15) b;;
  compromise_gives b a (Some 5, Some 8).

Definition compromise_no_more_than_and_between : exec unit :=
  b ← lift (between 5 15);
  compromise_gives (less_than 10) b (Some 5, Some 10);;
  compromise_none (less_than 4) b.

Definition compromise_between_and_between : exec unit :=
  a ← lift (between 1 10);
  b ← lift (between 5 15);
  compromise_gives a b (Some 5, Some 10);;
  a2 ← lift (between 1 5);
  b2 ← lift (between 5 10);
  compromise_none a2 b2;;
  compromise_none b2 a2;;
  a3 ← lift (between 1 4);
  b3 ← lift (between 6 10);
  compromise_none a3 b3;;
  compromise_none b3 a3.

Definition compromise_involving_exactly : exec unit :=
  exact ← lift (exactly 5);
  range ← lift (between 3 8);
  compromise_gives exact range (Some 5, Some 6);;
  range2 ← lift (between 6 10);
  compromise_none exact range2;;
  compromise_gives exact (less_than 10) (Some 5, Some 6);;
  compromise_gives exact (at_least 5) (Some 5, Some 6);;
  exact2 ← lift (exactly 5);
  compromise_gives exact exact2 (Some 5, Some 6);;
  exact3 ← lift (exactly 6);
  compromise_none exact exact3.

Definition compromise_unbounded_with_unbounded : exec unit :=
  full ← lift (between 0 USIZE_MAX);
  a ← lift (between 10 20);
  compromise_gives full a (Some 10, Some 20);;
  compromise_gives full (at_least 30) (Some 30, Some USIZE_MAX).

Definition compromise_empty_result : exec unit :=
  a ← lift (between 1 5);
  b ← lift (between 6 10);
  compromise_none a b;;
  compromise_none (at_least 10) (less_than 5);;
  f ← lift (between 1 5);
  compromise_none (at_least 8) f;;
  h ← lift (between 5 10);
  compromise_none (less_than 4) h.

Definition suite : list (exec unit) :=
  [compromise_both_no_less_than; compromise_both_no_more_than;
   compromise_no_less_than_and_no_more_than; compromise_no_less_than_and_between;
   compromise_no_more_than_and_between; compromise_between_and_between;
   compromise_involving_exactly; compromise_unbounded_with_unbounded;
   compromise_empty_result].

Theorem compromise_tests_pass : Forall passes suite.
Proof. run_tests. Qed.

End CompromiseTests.

(** ** [tests_/pos_tests_.rs] *)

Module PosTests.

Definition CAP : Z := 8.

(** The helper [state]: a raw state word from two positions and the bit. *)
Definition state (rp wp : Z) (rv : bool) : Z :=
  let s := Z.lor (Z.land rp POS_MASK) (Z.shiftl (Z.land wp POS_MASK) POS_BITS) in
  if rv then Z.lor s REVERSION else s.

Definition fields (p : IoPos) : Z * Z * bool := (rp p, wp p, rv p).
Definition positions (word : Z) : Z * Z := (rp (unpack word CAP), wp (unpack word CAP)).
Definition unowned (word : Z) : Z := Z.land word (usize_not MASK).
Definition other : Z := Z.land FLAG_MASK (usize_not REVERSION).

Definition unpack_extracts_positions_and_reversion : exec unit :=
  let pos := unpack (state 3 5 false) CAP in
  assert_eq (fields pos) (3, 5, false);;
  let pos := unpack (state 5 3 true) CAP in
  assert_eq (fields pos) (5, 3, true).

Definition pack_overwrites_owned_bits_and_preserves_base_flags : exec unit :=
  let base := Z.lor (state 3 0 false) other in
  let word := pack (unpack (state 0 5 false) CAP) base in
  assert_eq (unowned word) (unowned base);;
  assert_eq (positions word) (0, 5);;
  assert_eq (Z.land word REVERSION) 0;;
  let base := Z.lor (state 6 1 false) other in
  let word := pack (unpack (state 2 4 true) CAP) base in
  assert_eq (unowned word) (unowned base);;
  assert_eq (positions word) (2, 4);;
  assert (negb (Z.land word REVERSION =? 0));;
  let base := Z.lor (state 1 2 true) other in
  let word := pack (unpack (state 3 6 false) CAP) base in
  assert_eq (Z.land word REVERSION) 0;;
  assert_eq (positions word) (3, 6);;
  assert_eq (Z.land word other) other.

Definition pack_roundtrips_the_full_state_word : exec unit :=
  for_each [(0, 0, false); (0, 0, true); (2, 5, false); (5, 2, true); (7, 0, true);
            (3, 3, true)]
    (λ '(rp, wp, rv),
       let s := state rp wp rv in assert_eq (pack (unpack s CAP) s) s);;
  let s := Z.lor (state 2 5 false) other in
  assert_eq (pack (unpack s CAP) s) s.

Definition data_size_and_free_size_of_partial_states : exec unit :=
  let pos := unpack (state 2 5 false) CAP in
  assert_eq (data_size pos) 3;;
  assert_eq (free_size pos) 5;;
  let pos := unpack (state 5 2 true) CAP in
  assert_eq (data_size pos) 5;;
  assert_eq (free_size pos) 3.

Definition data_size_empty_when_positions_coincide_without_reversion : exec unit :=
  let pos := unpack (state 3 3 false) CAP in
  assert_eq (data_size pos) 0;;
  assert_eq (free_size pos) CAP.

Definition data_size_full_when_positions_coincide_with_reversion : exec unit :=
  let pos := unpack (state 3 3 true) CAP in
  assert_eq (data_size pos) CAP;;
  assert_eq (free_size pos) 0.

Definition advance_wp_stays_clear_within_the_ring : exec unit :=
  let next := advance_wp (unpack (state 2 3 false) CAP) 2 in
  assert_eq (fields next) (2, 5, false);;
  assert_eq (data_size next) 3.

Definition advance_wp_sets_reversion_when_crossing_the_end : exec unit :=
  let next := advance_wp (unpack (state 2 6 false) CAP) 3 in
  assert_eq (fields next) (2, 1, true);;
  assert_eq (data_size next) 7.

Definition advance_wp_exact_end_cross_sets_reversion : exec unit :=
  let next := advance_wp (unpack (state 1 5 false) CAP) 3 in
  assert_eq (fields next) (1, 0, true);;
  assert_eq (data_size next) 7.

Definition advance_wp_to_full_ends_at_coincident_positions_with_reversion : exec unit :=
  let next := advance_wp (unpack (state 2 6 false) CAP) 4 in
  assert_eq (fields next) (2, 2, true);;
  assert_eq (data_size next) CAP;;
  assert_eq (free_size next) 0.

Definition advance_wp_keeps_reversion_while_writer_stays_wrapped : exec unit :=
  let next := advance_wp (unpack (state 5 2 true) CAP) 2 in
  assert_eq (fields next) (5, 4, true);;
  assert_eq (data_size next) 7.

Definition advance_rp_keeps_reversion_without_crossing : exec unit :=
  let next := advance_rp (unpack (state 5 2 true) CAP) 1 in
  assert_eq (fields next) (6, 2, true);;
  assert_eq (data_size next) 4;;
  let next := advance_rp (unpack (state 2 5 false) CAP) 2 in
  assert_eq (fields next) (4, 5, false);;
  assert_eq (data_size next) 1.

Definition advance_rp_clears_reversion_when_crossing_the_end : exec unit :=
  let next := advance_rp (unpack (state 5 2 true) CAP) 4 in
  assert_eq (fields next) (1, 2, false);;
  assert_eq (data_size next) 1.

Definition advance_rp_to_empty_ends_at_coincident_positions_without_reversion :
    exec unit :=
  let next := advance_rp (unpack (state 5 2 true) CAP) 5 in
  assert_eq (fields next) (2, 2, false);;
  assert_eq (data_size next) 0;;
  assert_eq (free_size next) CAP.

Definition advance_then_pack_preserves_unrelated_flags : exec unit :=
  assert_eq (Z.land other REVERSION) 0;;
  let s := Z.lor (state 2 5 false) other in
  let word := pack (advance_wp (unpack s CAP) 2) s in
  assert_eq (unowned word) (unowned s);;
  assert_eq (Z.land word REVERSION) 0;;
  assert_eq (positions word) (2, 7);;
  let s := Z.lor (state 5 2 true) other in
  let word := pack (advance_wp (unpack s CAP) 2) s in
  assert_eq (unowned word) (unowned s);;
  assert (negb (Z.land word REVERSION =? 0));;
  assert_eq (positions word) (5, 4);;
  let s := Z.lor (state 5 2 true) other in
  let word := pack (advance_rp (unpack s CAP) 4) s in
  assert_eq (unowned word) (unowned s);;
  assert_eq (Z.land word REVERSION) 0;;
  assert_eq (positions word) (1, 2).

Definition write_read_roundtrip_conserves_the_ring : exec unit :=
  let pos := unpack (state 0 0 false) CAP in
  assert_eq (data_size pos, free_size pos) (0, CAP);;
  let word := pack (advance_wp pos 8) (state 0 0 false) in
  let pos := unpack word CAP in
  assert_eq (fields pos, data_size pos, free_size pos) (0, 0, true, CAP, 0);;
  let word := pack (advance_rp pos 8) word in
  let pos := unpack word CAP in
  assert_eq (fields pos, data_size pos, free_size pos) (0, 0, false, 0, CAP);;
  let word := state 0 0 false in
  let pos := unpack word CAP in
  let word := pack (advance_wp pos 3) word in
  let pos := unpack word CAP in
  assert_eq (fields pos, data_size pos) (0, 3, false, 3);;
  let word := pack (advance_rp pos 2) word in
  let pos := unpack word CAP in
  assert_eq (fields pos, data_size pos) (2, 3, false, 1);;
  let word := pack (advance_wp pos 5) word in
  let pos := unpack word CAP in
  assert_eq (fields pos, data_size pos) (2, 0, true, 6);;
  assert_eq (data_size pos + free_size pos) CAP;;
  let word := pack (advance_rp pos 6) word in
  let pos := unpack word CAP in
  assert_eq (fields pos, data_size pos) (0, 0, false, 0);;
  assert_eq (data_size pos + free_size pos) CAP.

Definition suite : list (exec unit) :=
  [unpack_extracts_positions_and_reversion;
   pack_overwrites_owned_bits_and_preserves_base_flags;
   pack_roundtrips_the_full_state_word; data_size_and_free_size_of_partial_states;
   data_size_empty_when_positions_coincide_without_reversion;
   data_size_full_when_positions_coincide_with_reversion;
   advance_wp_stays_clear_within_the_ring;
   advance_wp_sets_reversion_when_crossing_the_end;
   advance_wp_exact_end_cross_sets_reversion;
   advance_wp_to_full_ends_at_coincident_positions_with_reversion;
   advance_wp_keeps_reversion_while_writer_stays_wrapped;
   advance_rp_keeps_reversion_without_crossing;
   advance_rp_clears_reversion_when_crossing_the_end;
   advance_rp_to_empty_ends_at_coincident_positions_without_reversion;
   advance_then_pack_preserves_unrelated_flags; write_read_roundtrip_conserves_the_ring].

Theorem pos_tests_pass : Forall passes suite.
Proof. run_tests. Qed.

End PosTests.

(** ** [codec_.rs]: [tests_]

    The checksums are parameters of the codec; the tests are run with sums of the
    bytes in the place of the two CRCs. *)

Module CodecTests.

Section tests.
Variables crc16 crc32 : list Z → Z.

Definition encode := encode_basic_entry_.
Definition build := build_frame_ crc16.
Definition parse := parse_frame_ crc16 crc32.
Definition frame_buffer : list Z := replicate (Z.to_nat K_MAX_HANDSHAKE_FRAME) 0.

(** [&buf[..len]], [buf[pos] = x], [buf[pos..].copy_from_slice(xs)]. *)
Definition up_to (buf : list Z) (len : Z) : list Z := take (Z.to_nat len) buf.
Definition put (pos : Z) (xs buf : list Z) : list Z := list_inserts (Z.to_nat pos) xs buf.

Definition parse_err (buf : list Z) (max_size : Z) (e : ParseFrameError → bool) :
    exec unit :=
  r ← parse buf max_size;
  assert (match r with Ok _ => false | Err x => e x end).

(** The value of an entry that must be there. *)
Definition value_of (frame : ParsedFrame) (k : nat) : exec Z :=
  e ← unwrap (mjoin (entries frame !! k));
  Done (val_data e).

Definition encode_basic_entry_picks_minimal_width : exec unit :=
  let out := replicate 16 0 in
  '(out, n) ← unwrap (encode 0x00 0x12 out);
  assert_eq n 2;;
  assert_eq (take 2 out) [0x00; 0x12];;
  '(out, n) ← unwrap (encode 0x01 0x1234 out);
  assert_eq n 3;;
  assert_eq (take 3 out) [0x11; 0x12; 0x34];;
  '(out, n) ← unwrap (encode 0x02 0x12345678 out);
  assert_eq n 5;;
  assert_eq (take 5 out) [0x22; 0x12; 0x34; 0x56; 0x78];;
  '(out, n) ← unwrap (encode 0x03 0x100000000 out);
  assert_eq n 9;;
  assert_eq (take 9 out) [0x33; 0; 0; 0; 1; 0; 0; 0; 0].

Definition build_and_parse_frame_roundtrip : exec unit :=
  let values := [Some 4096; Some (Z.shiftl 1 28); Some 64; Some 30] in
  '(buf, len) ← unwrap (build K_INVITE_MAGIC values frame_buffer);
  assert_eq len (4 + 3 + 5 + 2 + 2 + 3);;
  r ← parse (up_to buf len) 64;
  '(frame, consumed) ← unwrap_ok r;
  assert_eq consumed len;;
  assert_eq (magic frame) K_INVITE_MAGIC;;
  v ← value_of frame 0; assert_eq v 4096;;
  v ← value_of frame 1; assert_eq v (Z.shiftl 1 28);;
  v ← value_of frame 2; assert_eq v 64;;
  v ← value_of frame 3; assert_eq v 30.

Definition parse_frame_detects_bad_crc : exec unit :=
  '(buf, len) ← unwrap (build K_INVITE_MAGIC [Some 4096; None; None; None] frame_buffer);
  last ← lift (index_byte buf (len - 1));
  let buf := put (len - 1) [Z.lxor last 0xFF] buf in
  parse_err (up_to buf len) 64 (λ e, match e with PChecksumErr => true | _ => false end).

Definition parse_frame_accepts_crc32_trailer : exec unit :=
  let buf := put 0 K_ACCEPT_MAGIC frame_buffer in
  '(tail, n) ← unwrap (encode 0x00 4096 (drop 4 buf));
  let buf := put 4 tail buf in
  let pos := 4 + n in
  let buf := put pos [K_CHECKSUM_HEADER_CRC32] buf in
  let crc := crc32 (up_to buf (pos + 1)) in
  let buf := put (pos + 1) (to_be_bytes 4 crc) buf in
  let total := pos + 5 in
  r ← parse (up_to buf total) 64;
  '(frame, consumed) ← unwrap_ok r;
  assert_eq consumed total;;
  v ← value_of frame 0; assert_eq v 4096.

(** A frame made by hand: entries, then the trailer of a CRC-16. *)
Definition hand_made (body : list Z) : list Z :=
  let buf := put 4 body (put 0 K_INVITE_MAGIC frame_buffer) in
  let pos := 4 + Z.of_nat (length body) in
  let buf := put pos [K_CHECKSUM_HEADER_CRC16] buf in
  let crc := crc16 (up_to buf (pos + 1)) in
  up_to (put (pos + 1) (to_be_bytes 2 crc) buf) (pos + 3).

Definition parse_frame_rejects_reserved_key : exec unit :=
  parse_err (hand_made [0x05; 0x01]) 64
    (λ e, match e with PUnsupportedOption => true | _ => false end).

Definition parse_frame_rejects_duplicate_key : exec unit :=
  parse_err (hand_made [0x00; 0x01; 0x00; 0x02]) 64
    (λ e, match e with PMalformedBody => true | _ => false end).

Definition parse_frame_rejects_zero_value : exec unit :=
  '(buf, len) ← unwrap (build K_INVITE_MAGIC [Some 0; None; None; None] frame_buffer);
  parse_err (up_to buf len) 64 (λ e, match e with PMalformedBody => true | _ => false end).

Definition parse_frame_needs_more_bytes : exec unit :=
  '(buf, _) ← unwrap (build K_INVITE_MAGIC [Some 4096; None; None; None] frame_buffer);
  let short := up_to buf 6 in
  parse_err short 64
    (λ e, match e with NeedMore need => Z.of_nat (length short) <? need | _ => false end).

Definition parse_frame_rejects_over_max_size : exec unit :=
  '(buf, len) ← unwrap (build K_INVITE_MAGIC [Some 4096; None; None; None] frame_buffer);
  parse_err (up_to buf len) 5 (λ e, match e with PFrameTooLarge => true | _ => false end).

Definition complete_invite_overrides_only_mentioned : exec unit :=
  let local := DEFAULT in
  let entries := <[0%nat := Some (mkEntry 0x10 8192)]> no_entries in
  let values := complete_invite_ local entries in
  assert_eq (value_at values 0) (Some 8192);;
  assert_eq (value_at values 1) (Some (max_channel_count local));;
  assert_eq (value_at values 2) (Some (max_dock_chan_count local));;
  assert_eq (value_at values 3) (Some (as_secs (max_channel_timeout local))).

Definition complete_values_requires_all_keys : exec unit :=
  let entries := [Some (mkEntry 0x00 1); Some (mkEntry 0x01 1); Some (mkEntry 0x02 1); None] in
  assert (is_none (complete_values_ entries));;
  let entries := <[3%nat := Some (mkEntry 0x03 1)]> entries in
  assert (is_some (complete_values_ entries)).

Definition confirm_matches_detects_mismatch : exec unit :=
  let expected := [Some 4096; Some 1; Some 1; Some 30] in
  let entries :=
    imap (λ k v, v ← v; Some (mkEntry (Z.of_nat k) v)) expected in
  let entries := <[0%nat := Some (mkEntry 0x00 2048)]> entries in
  assert (negb (confirm_matches_ entries expected));;
  let entries := <[0%nat := Some (mkEntry 0x00 4096)]> entries in
  assert (confirm_matches_ entries expected).

Definition full_four_message_flow : exec unit :=
  '(buf, len) ← unwrap (build K_INVITE_MAGIC [Some 8192; None; None; None] frame_buffer);
  r ← parse (up_to buf len) 64;
  '(invite, _) ← unwrap_ok r;
  assert_eq (magic invite) K_INVITE_MAGIC;;
  let values := complete_invite_ DEFAULT (entries invite) in
  assert_eq (value_at values 0) (Some 8192);;
  '(buf, len) ← unwrap (build K_ACCEPT_MAGIC values buf);
  r ← parse (up_to buf len) 64;
  '(accept, _) ← unwrap_ok r;
  accepted ← unwrap (complete_values_ (entries accept));
  assert_eq accepted values;;
  '(buf, len) ← unwrap (build K_CONFRM_MAGIC accepted buf);
  r ← parse (up_to buf len) 64;
  '(confirm, _) ← unwrap_ok r;
  assert (confirm_matches_ (entries confirm) values);;
  '(buf, len) ← unwrap (build K_CONFRM_MAGIC [None; None; None; None] buf);
  r ← parse (up_to buf len) 64;
  '(done, _) ← unwrap_ok r;
  assert (forallb is_none (entries done)).

Definition suite : list (exec unit) :=
  [encode_basic_entry_picks_minimal_width; build_and_parse_frame_roundtrip;
   parse_frame_detects_bad_crc; parse_frame_accepts_crc32_trailer;
   parse_frame_rejects_reserved_key; parse_frame_rejects_duplicate_key;
   parse_frame_rejects_zero_value; parse_frame_needs_more_bytes;
   parse_frame_rejects_over_max_size; complete_invite_overrides_only_mentioned;
   complete_values_requires_all_keys; confirm_matches_detects_mismatch;
   full_four_message_flow].
End tests.

Definition sum_mod (m : Z) (bytes : list Z) : Z := foldr Z.add 0 bytes mod m.

Theorem codec_tests_pass : Forall passes (suite (sum_mod (2 ^ 16)) (sum_mod (2 ^ 32))).
Proof. run_tests. Qed.

End CodecTests.
